(* ===== verification/_CoqProject ===== *)
-Q . S2P
Prelude.v
Machine.v
Base64.v
Packet.v
Unicode.v
Payload.v
PayloadLegacy.v
Framing.v
Yeast.v
Http.v
ServerOptions.v
Json.v
Handshake.v
ServerTransport.v
ServerKinds.v
ServerSocket.v
SessionMachine.v
SessionState.v
SessionFlush.v
SessionPolls.v
SessionBuffers.v
SessionLiveness.v
SessionTransports.v
SessionWakeup.v
SessionEnd.v
SessionRuns.v
SessionStore.v
Echo.v
Server.v
Pools.v
ServerRequests.v
ServerSite.v
Examples.v
Chunk.v
ClientPosts.v
ClientTransport.v
ClientKinds.v
ClientSocket.v
ClientMachine.v
ClientState.v
ClientLocks.v
ClientFlush.v
ClientUpgrade.v
ClientDrain.v
ClientConnects.v
ClientConfigured.v
ClientReceive.v
ClientEcho.v
ClientRuns.v
