(* ===== verification/Prelude.v ===== *)
(** * go-engine.io: a verification development

    The repository is an Engine.IO (protocol version 4) server and client in Go.  A server
    keeps a session per client; a session exchanges packets with its client over one
    transport at a time (HTTP long-polling, WebSocket or WebTransport), keeps a heartbeat,
    and can move from polling to another transport while it is in use.  The client is the
    mirror image.  Both sides are goroutines around a mutex-guarded struct, and most of
    what can go wrong is in how these interleave; the rest is in the codecs.

    ** The files, and the sources they model

    Shared ground
    - Prelude: bytes, Go's 64-bit integers, errors and results ([res]: a value, an error
      or a panic), the tactics and hint databases, lemmas on lists and digits.
    - Machine: goroutines as lists of instructions over a shared state, schedules, and the
      proof principle for invariants of all interleavings.
    - Base64, Unicode, Json, Http: what the sources use of the standard library.

    The codecs
    - Packet (packet.go, encoding.go, protocol.go), Payload and PayloadLegacy (payload.go),
      Framing (encoding_webtransport.go), Yeast (yeast.go), Chunk (socket.go,
      [chunkPackets]).

    The server
    - ServerOptions (server_options.go, error codes of server.go), Handshake
      (server_handshake.go and the open packets of both sides), SessionStore
      (server_session_store.go), Server and ServerRequests (server.go: [ServeHTTP] and its
      handlers, as functions from a request to a reply and an action).
    - ServerTransport (server_transport_*.go) and ServerSocket (server_socket.go): the
      guarded state of a transport and of a session, one function per critical section.
    - ServerKinds (server_transport_websocket.go, server_transport_webtransport.go): the
      structs, methods and whole read loops of the two stream transports, which share one
      record in ServerTransport.
    - SessionMachine: the goroutines of one session; an [instr] is one critical section or
      one I/O action, in the order the Go methods run them.
    - SessionState, SessionFlush, SessionPolls, SessionBuffers, SessionLiveness,
      SessionTransports, SessionWakeup, SessionEnd: invariants of that machine, and the
      theorems they give.  SessionRuns: schedules that reach the states they speak of.
    - ServerSite: the whole server, that is the handlers, the store and one session machine
      per session that was started.
    - Pools (internal/pool.go, the pools of server.go and server_transport_polling.go): the
      process-wide pools, and the goroutines that encode and compress poll responses.
    - Echo and Examples (examples/): the echo handler on the session machine; the broadcast
      loop, the request gate and the identifiers of users on the whole server.

    The client
    - ClientTransport (transport.go, socket_transport_*.go) and ClientSocket (socket.go):
      guarded state and critical sections.  ClientKinds (socket_transport_*.go): the struct
      and the methods of each kind of transport, behind a class for the interface of
      transport.go.  ClientMachine: the goroutines of one client socket, its transports and
      its upgrade probes.
    - ClientState, ClientLocks, ClientFlush, ClientUpgrade, ClientConfigured: invariants of
      that machine.  ClientDrain: one [Send] from the call to the wire.  ClientRuns:
      schedules.

    Both sides together
    - ClientPosts: what the client posts is what the server's session is given.
    - ClientReceive: what the server answers a poll with is what the client's application
      hears.
    - ClientConnects: the client's URLs, the server's routing and the handshake.
    - ClientEcho: a message from a client to an echo server and back.

    ** What the theorems show

    - Codecs: packets, payloads and frames decode to what was encoded; what decodes is
      well formed and re-encodes to the input; reading is bounded and loops terminate;
      yeast values are distinct; the chunks of a write are its greedy partition.
    - Requests: a request reaches only the session it names and starts one only past the
      gate; bad requests get the protocol's error codes; a POST dispatches its packets or
      is refused; poll responses are readable by the client; the CORS policy.
    - The whole server: every session in it runs as the session machine runs on its own, so
      the session theorems hold of it; the store finds exactly the sessions that have not
      ended; every request can be served and disturbs no other session; [Close] and a
      broadcast reach every session; the gate of an application holds on every way in.
    - Sessions, on every schedule: a session refines a queue that is delivered in order,
      once (SessionFlush); the life cycle only moves forward; nothing panics; a held poll
      is answered, buffered packets have a goroutine on the way, an open session has its
      heartbeat and a closing one ends; pooled buffers are never shared; connections are
      released and the close handler runs once.
    - Transports: each kind of client transport answers every sequence of calls as the
      record of the client machine does; the read loops of the two server streams make the
      same calls on a session, take the decisions of the session machine, and always end
      by releasing the request that waits for them.
    - Pools: with the pools shared by any number of polls, every response is the one that
      fresh buffers and a fresh compressor would give.
    - Client: one poll, one writer and one flush at a time, no dangling transport, and
      fallback down the configured list, only the configured transports, and no probe when
      upgrades are off, on every schedule; packets sent in order and once,
      an upgrade that excludes the flush, a watchdog, and no panic, on orderly schedules.
      A schedule is orderly ([orderly_exec]) when an open packet is recorded only by the
      connection being opened, with nothing of an earlier one still running, and upgrades
      commit one at a time.  The source means this and does not enforce it; ClientRuns
      shows what happens otherwise.
    - Both: a connection is established end to end, an upload arrives at the session, what
      a poll is answered with arrives at the client's handlers, in order, and a message
      sent to an echo server comes back.

    Liveness is stated as what must be pending: a goroutine that is about to act, or a
    timer that is armed.  That goroutines run and timers fire is the runtime's part.

    ** Modelling choices

    - A mutex that is held for one critical section is one instruction; a mutex held across
      I/O ([flushMu], [writeMu], [pollMu]), a wait group and a channel are part of the state.
    - What the source cannot determine (results of I/O, what a peer sends, a [select], a
      pooled buffer, random bytes, what handlers do) is an oracle or an argument, and the
      theorems hold for all of them.  [websocket.Accept] and gzip are arguments.
    - A new session's identifier is one that no session had ([fresh_id]): the comment of
      [WithGenerateID] asks for it, and the default draws 144 random bits.
    - Ghost fields record what was queued and what was handed over ([s_queued], [s_handed],
      [s_committing] on the client, and their like in the session machine); no definition
      that models code reads them.
    - Fuel: [digits_loop] has as many steps as an integer has digits; the legacy payload
      loops have one more than the input has characters, and [legacy_loops_terminate]
      shows that it is enough; yeast has eleven base-64 digits, which 64 bits need at most;
      [read_all] of Framing is a specification that reads a whole stream; the WebTransport
      read loop has one pass more than the stream has bytes, and [read_loops_exit] shows
      that it is enough.
    - ServerKinds runs a read loop by itself: the session and the other goroutines are a
      parameter that may promote or close the transport at each call of the loop.  How its
      critical sections interleave with theirs is the session machine's subject.
    - A URL's query and a request's are lists of decoded pairs: the escaping of net/url is
      not modelled, nor is the canonical form of header names.

    ** Not modelled

    - The libraries under vendor/ (WebSocket, QUIC, WebTransport) and the network.
    - Contexts, but for being cancelled: an I/O call may fail at any time.
    - The text of wrapped errors beyond the wrapping, and the body that [dialError] appends.
    - The inside of [sync.Pool] and of compress/gzip: a pool gives any value that was put
      back, or a new one, and a compressor is a state with two functions.
    - The rest of examples/ is listening, dialing, signals and printing; what is left of the
      core sources is imports, documentation and struct fields without a role in a run.
    - test/interop/: tests that call the package. *)

From Stdlib Require Export Strings.Byte Strings.String ZArith Lia.
From stdpp Require Export base tactics list gmap strings numbers.

#[global] Open Scope Z_scope.

(** ** Bytes and Go strings

    A Go [byte] (and [uint8]) is Rocq's [byte]; a Go [string] and a [[]byte] are
    both a [list byte].  [b2z] and [z2b] are the conversions [int(b)] and
    [byte(z)], the latter wrapping modulo 256 as Go's does. *)

Abbreviation bytes := (list byte).

#[export] Instance byte_eq_decision : EqDecision byte := Byte.byte_eq_dec.

Definition b2z (b : byte) : Z := Z.of_N (Byte.to_N b).

Definition z2b (z : Z) : byte :=
  match Byte.of_N (Z.to_N (z mod 256)) with
  | Some b => b
  | None => x00
  end.

(** A string literal of the source, as its bytes. *)
Definition str (s : string) : bytes := list_byte_of_string s.

(** [len(x)], a Go [int]. *)
Definition len {A} (l : list A) : Z := Z.of_nat (length l).

(** Go's [int] and [int64] are 64 bits wide and wrap around. *)
Definition int64_max : Z := 2 ^ 63 - 1.
Definition wrap64 (z : Z) : Z := (z + 2 ^ 63) mod 2 ^ 64 - 2 ^ 63.

(** ** Errors

    The sentinel errors of the package and of the standard library that the code
    returns or compares against. *)

Inductive sentinel :=
| ErrTransportRoundTripperClientRequired
| ErrURLRequired
| ErrUnexpectedStatus
| ErrEmptyPacket
| ErrInvalidPacketType
| errWebTransportFrameTooLarge
| ErrMalformedPayload
| ErrUnsupportedProtocolVersion
| ErrSocketClosed
| errPollOverlap
| errPollClosed
| ErrInvalidURL
| ErrNoTransports
| ErrWebTransportDialerRequired
| errWebTransportMissingSessionID
| io_EOF
| io_ErrUnexpectedEOF
| strconv_ErrSyntax
| strconv_ErrRange
| context_Canceled.

#[export] Instance sentinel_eq_decision : EqDecision sentinel.
Proof. solve_decision. Defined.

(** A Go [error] value: a sentinel, [errors.New] of a text, base64's
    [CorruptInputError] with its offset, an error produced by code outside the
    package (identified by a number), and [fmt.Errorf] wrapping one or two errors
    with [%w]. *)
Inductive error :=
| ESentinel (s : sentinel)
| ENew (text : string)
| ECorruptInput (offset : Z)
| EForeign (n : nat)
| EWrap (text : string) (e : error)
| EWrap2 (text : string) (e1 e2 : error).

#[export] Instance error_eq_decision : EqDecision error.
Proof. solve_decision. Defined.

(** [errors.Is] against a sentinel: the wrapped errors are searched depth first. *)
Fixpoint errors_Is (e : error) (target : sentinel) : bool :=
  match e with
  | ESentinel s => bool_decide (s = target)
  | EWrap _ e => errors_Is e target
  | EWrap2 _ e1 e2 => errors_Is e1 target || errors_Is e2 target
  | _ => false
  end.

(** ** Results

    A call that returns [(A, error)] either returns a value with a nil error,
    returns a non-nil error, or does not return at all because the Go runtime
    panics (slice bounds out of range, and the like). *)
Inductive res (A : Type) :=
| Ok (a : A)
| Err (e : error)
| Panic.
Arguments Ok {A} a.
Arguments Err {A} e.
Arguments Panic {A}.

Definition res_bind {A B} (m : res A) (f : A → res B) : res B :=
  match m with
  | Ok a => f a
  | Err e => Err e
  | Panic => Panic
  end.

(** [if err != nil { return fmt.Errorf("text: %w", err) }]. *)
Definition res_wrap {A} (text : string) (m : res A) : res A :=
  match m with
  | Err e => Err (EWrap text e)
  | m => m
  end.

Definition is_Ok {A} (m : res A) : bool :=
  match m with Ok _ => true | _ => false end.

Declare Scope go_scope.
Delimit Scope go_scope with go.
Notation "'let!' x ':=' m 'in' k" := (res_bind m (λ x, k))
  (at level 10, x pattern, m at level 100, k at level 200) : go_scope.
#[global] Open Scope go_scope.

(** ** Automation *)

Create HintDb go.
Create Rewrite HintDb go_rw.

(** Case analysis on every [match] and [if] of the goal or of a hypothesis. *)
Ltac cases :=
  repeat (case_match || case_decide || case_bool_decide); simplify_eq/=.

(** Linear arithmetic with division and remainder by constants. *)
Ltac zlia := Z.to_euclidean_division_equations; lia.

(** ** Facts about bytes *)

Lemma b2z_range b : 0 <= b2z b < 256.
Proof. unfold b2z. pose proof (Byte.to_N_bounded b). lia. Qed.
#[export] Hint Resolve b2z_range : go.

Lemma b2z_inj a b : b2z a = b2z b → a = b.
Proof.
  unfold b2z. intros H%N2Z.inj.
  pose proof (Byte.of_to_N a) as Ha. pose proof (Byte.of_to_N b) as Hb.
  rewrite H in Ha. congruence.
Qed.

#[export] Instance byte_countable : Countable byte.
Proof.
  refine (inj_countable' b2z z2b _). intros b. unfold z2b, b2z.
  rewrite Z.mod_small by (pose proof (Byte.to_N_bounded b); lia).
  by rewrite N2Z.id, Byte.of_to_N.
Defined.

Lemma b2z_z2b z : b2z (z2b z) = z mod 256.
Proof.
  unfold b2z, z2b. pose proof (Z.mod_pos_bound z 256 ltac:(lia)) as Hr.
  destruct (Byte.of_N (Z.to_N (z mod 256))) as [b|] eqn:E.
  - apply Byte.to_of_N in E. rewrite E. lia.
  - apply Byte.of_N_None_iff in E. lia.
Qed.

Lemma b2z_z2b_small z : 0 <= z < 256 → b2z (z2b z) = z.
Proof. intros. rewrite b2z_z2b. by apply Z.mod_small. Qed.

Lemma z2b_b2z b : z2b (b2z b) = b.
Proof. apply b2z_inj. rewrite b2z_z2b_small; auto with go. Qed.

Lemma z2b_mod z : z2b (z mod 256) = z2b z.
Proof. apply b2z_inj. rewrite !b2z_z2b. by rewrite Z.mod_mod by lia. Qed.

#[export] Hint Rewrite b2z_z2b z2b_b2z : go_rw.

(** A statement about every byte is decided by evaluation. *)
Definition all_bytes : list byte := z2b <$> seqZ 0 256.

Lemma elem_of_all_bytes b : b ∈ all_bytes.
Proof.
  apply list_elem_of_fmap. exists (b2z b). rewrite z2b_b2z. split; [done|].
  apply elem_of_seqZ. pose proof (b2z_range b). lia.
Qed.

Lemma forall_byte (P : byte → Prop) `{∀ b, Decision (P b)} :
  bool_decide (Forall P all_bytes) = true → ∀ b, P b.
Proof.
  intros Hall%bool_decide_eq_true b. rewrite Forall_forall in Hall.
  apply Hall, list_elem_of_In, elem_of_all_bytes.
Qed.

(** Decide a goal quantified over one byte by evaluating all 256 cases. *)
Ltac by_bytes b :=
  revert b;
  match goal with |- ∀ x, @?P x => apply (forall_byte P); vm_compute; reflexivity end.

(** A statement about every integer of a short range, likewise. *)
Lemma forall_seqZ (P : Z → Prop) `{∀ z, Decision (P z)} a n :
  bool_decide (Forall P (seqZ a n)) = true → ∀ z, a <= z < a + n → P z.
Proof.
  intros Hall%bool_decide_eq_true z Hz. rewrite Forall_forall in Hall.
  apply Hall, list_elem_of_In, elem_of_seqZ. lia.
Qed.

(** ** Facts about [len] and [wrap64] *)

Lemma len_app {A} (l k : list A) : len (l ++ k) = len l + len k.
Proof. unfold len. rewrite length_app. lia. Qed.

Lemma len_cons {A} (x : A) l : len (x :: l) = 1 + len l.
Proof. unfold len. simpl. lia. Qed.

Lemma len_nil {A} : len (@nil A) = 0.
Proof. done. Qed.

Lemma len_nonneg {A} (l : list A) : 0 <= len l.
Proof. unfold len. lia. Qed.

#[export] Hint Resolve len_nonneg : go.
#[export] Hint Rewrite @len_app @len_cons @len_nil : go_rw.

Lemma wrap64_small z : - 2 ^ 63 <= z <= int64_max → wrap64 z = z.
Proof.
  unfold wrap64, int64_max. intros. rewrite Z.mod_small by lia. lia.
Qed.

Lemma wrap64_range z : - 2 ^ 63 <= wrap64 z <= int64_max.
Proof.
  unfold wrap64, int64_max. pose proof (Z.mod_pos_bound (z + 2 ^ 63) (2 ^ 64)). lia.
Qed.

(** ** Positional numerals

    The loop [for { out = digit(n % base) + out; n /= base; if n == 0 { break } }]:
    the digits of [n], most significant first, in front of [acc].  [fuel] bounds the
    number of digits. *)

Fixpoint digits_loop (fuel : nat) (base n : Z) (acc : list Z) : list Z :=
  match fuel with
  | O => acc
  | S fuel =>
      let acc := n mod base :: acc in
      if n / base =? 0 then acc else digits_loop fuel base (n / base) acc
  end.

(** The value of a numeral, read from the left. *)
Definition undigits_from (base n : Z) (ds : list Z) : Z :=
  foldl (λ n d, n * base + d) n ds.
Definition undigits (base : Z) (ds : list Z) : Z := undigits_from base 0 ds.

Lemma undigits_digits_loop fuel base n acc :
  1 < base → 0 <= n < base ^ Z.of_nat fuel →
  undigits base (digits_loop fuel base n acc) = undigits_from base n acc.
Proof.
  intros Hb. revert n acc. induction fuel as [|fuel IH]; intros n acc Hn.
  - assert (n = 0) as -> by (simpl in Hn; lia). done.
  - cbn [digits_loop]. pose proof (Z.div_mod n base ltac:(lia)) as Hdm.
    assert (undigits_from base (n / base) (n mod base :: acc) = undigits_from base n acc)
      as Hstep.
    { unfold undigits_from. cbn [foldl]. f_equal. lia. }
    case_match eqn:Hq.
    + apply Z.eqb_eq in Hq. rewrite <- Hstep, Hq. done.
    + rewrite IH, Hstep; [done|].
      rewrite Nat2Z.inj_succ, Z.pow_succ_r in Hn by lia.
      split; [apply Z.div_pos; lia|]. apply Z.div_lt_upper_bound; lia.
Qed.

Lemma digits_loop_range fuel base n acc :
  1 < base → Forall (λ d, 0 <= d < base) acc →
  Forall (λ d, 0 <= d < base) (digits_loop fuel base n acc).
Proof.
  intros Hb. revert n acc. induction fuel as [|fuel IH]; intros n acc Hacc; [done|].
  cbn [digits_loop].
  assert (Forall (λ d, 0 <= d < base) (n mod base :: acc)).
  { constructor; [apply Z.mod_pos_bound; lia|done]. }
  case_match; auto.
Qed.

Lemma digits_loop_app fuel base n acc :
  digits_loop fuel base n acc = digits_loop fuel base n [] ++ acc.
Proof.
  revert n acc. induction fuel as [|fuel IH]; intros n acc; [done|].
  cbn [digits_loop]. case_match; [done|]. rewrite IH, (IH _ [_]), <- app_assoc. done.
Qed.

Lemma digits_loop_length fuel base n acc :
  (length (digits_loop fuel base n acc) <= fuel + length acc)%nat.
Proof.
  revert n acc. induction fuel as [|fuel IH]; intros n acc; [done|].
  cbn [digits_loop]. case_match; simpl; [lia|]. etrans; [apply IH|]. simpl. lia.
Qed.

Lemma digits_loop_not_nil fuel base n acc : digits_loop (S fuel) base n acc ≠ [].
Proof.
  cbn [digits_loop]. case_match; [done|]. rewrite digits_loop_app. by destruct digits_loop.
Qed.

(** ** Facts about results *)

Lemma res_bind_Ok {A B} (m : res A) (f : A → res B) b :
  res_bind m f = Ok b ↔ ∃ a, m = Ok a ∧ f a = Ok b.
Proof. destruct m; naive_solver. Qed.

Lemma res_wrap_Ok {A} text (m : res A) a : res_wrap text m = Ok a ↔ m = Ok a.
Proof. destruct m; naive_solver. Qed.

Lemma res_bind_no_panic {A B} (m : res A) (f : A → res B) :
  m ≠ Panic → (∀ a, f a ≠ Panic) → res_bind m f ≠ Panic.
Proof. by destruct m; cbn. Qed.
Lemma res_wrap_no_panic {A} text (m : res A) : m ≠ Panic → res_wrap text m ≠ Panic.
Proof. by destruct m. Qed.

(** ** Lists as multisets *)

(** Remove one occurrence. *)
Fixpoint remove_first {A} `{EqDecision A} (x : A) (l : list A) : list A :=
  match l with
  | [] => []
  | y :: l => if decide (y = x) then l else y :: remove_first x l
  end.

Lemma remove_first_perm {A} `{EqDecision A} (x : A) l :
  x ∈ l → l ≡ₚ x :: remove_first x l.
Proof.
  induction l as [|y l IH]; cbn [remove_first]; [by intros ?%not_elem_of_nil|].
  intros Hin. case_decide as Hy; [by subst|].
  apply elem_of_cons in Hin as [->|Hin]; [done|]. rewrite (IH Hin) at 1. apply perm_swap.
Qed.

(** In an association list without duplicate keys a key has one value. *)
Lemma NoDup_fst_unique {A B} (l : list (A * B)) a b b' :
  NoDup l.*1 → (a, b) ∈ l → (a, b') ∈ l → b' = b.
Proof.
  induction l as [|[a0 b0] l IH]; cbn; intros Hnd H1 H2; [by apply not_elem_of_nil in H1|].
  apply list.NoDup_cons in Hnd as [Hn Hnd].
  apply elem_of_cons in H1 as [H1|H1], H2 as [H2|H2]; simplify_eq/=; try done.
  - destruct Hn. apply list_elem_of_fmap. by exists (a0, b').
  - destruct Hn. apply list_elem_of_fmap. by exists (a0, b).
  - by apply IH.
Qed.
