(* ===== verification/Machine.v ===== *)
(** * Goroutines

    The machine both sides of a connection run on.  A goroutine is the list of what it
    has still to do: each instruction is one critical section or one I/O action of the
    source, and executing it may put more of them in front (a call) or start goroutines
    ([go]).  What the source cannot determine comes from an oracle; a timer that fires
    and a request that arrives are events from outside, which start a goroutine.

    The proof principle: an invariant speaks of the shared state and of the multiset of
    everything the goroutines have still to do. *)
From S2P Require Import Prelude.

Inductive outcome {W I : Type} :=
| Blocked
| Next (w : W) (push : list I) (spawn : list (list I))
| Panicked.
Arguments outcome W I : clear implicits.

Definition opt {I A} (f : A → I) (x : option A) : list I :=
  match x with Some a => [f a] | None => [] end.

(** What a schedule does next: run a goroutine, or let an event happen. *)
Inductive act {O E : Type} :=
| Run (thread : nat) (o : O)
| Ext (e : E).
Arguments act O E : clear implicits.

Section machine.
Context {W I O E : Type}.
Variable exec : O → I → W → outcome W I.
Variable extern : E → W → option (W * list I).

Inductive step : W * list (list I) → W * list (list I) → Prop :=
| step_run o l1 i rest l2 w w' push spawn :
    exec o i w = Next w' push spawn →
    step (w, l1 ++ (i :: rest) :: l2) (w', l1 ++ (push ++ rest) :: l2 ++ spawn)
| step_ext e ts w w' thread :
    extern e w = Some (w', thread) → step (w, ts) (w', ts ++ [thread]).

(** ** Running the machine: a schedule makes it executable *)

Definition do_act (a : act O E) (cfg : W * list (list I)) : option (W * list (list I)) :=
  let '(w, ts) := cfg in
  match a with
  | Run n o =>
      match ts !! n with
      | Some (i :: rest) =>
          match exec o i w with
          | Next w' push spawn =>
              Some (w', take n ts ++ (push ++ rest) :: drop (S n) ts ++ spawn)
          | _ => None
          end
      | _ => None
      end
  | Ext e =>
      match extern e w with
      | Some (w', thread) => Some (w', ts ++ [thread])
      | None => None
      end
  end.

Fixpoint run (acts : list (act O E)) (cfg : W * list (list I)) : option (W * list (list I)) :=
  match acts with
  | [] => Some cfg
  | a :: acts => match do_act a cfg with Some cfg => run acts cfg | None => None end
  end.

Lemma do_act_step a cfg cfg' : do_act a cfg = Some cfg' → step cfg cfg'.
Proof.
  destruct cfg as [w ts]. destruct a as [n o|e]; cbn; intros H.
  - destruct (ts !! n) as [[|i rest]|] eqn:Hn; try done.
    destruct (exec o i w) eqn:He; simplify_eq.
    rewrite <- (take_drop_middle ts n _ Hn) at 1. by eapply step_run.
  - destruct (extern e w) as [[w' th]|] eqn:Ha; simplify_eq. by econstructor.
Qed.

Lemma run_steps acts cfg cfg' : run acts cfg = Some cfg' → rtc step cfg cfg'.
Proof.
  revert cfg. induction acts as [|a acts IH]; cbn; intros cfg H; simplify_eq; [constructor|].
  destruct (do_act a cfg) eqn:Ha; [|done].
  eapply rtc_l; [by eapply do_act_step|by apply IH].
Qed.

(** ** Invariants *)

Definition invariant : Type := W → list I → Prop.

Class Multiset (J : invariant) := multiset_proper w :: Proper (Permutation ==> iff) (J w).

(** Every step keeps [I], given [J] before the step. *)
Record preserved_under (J K : invariant) : Prop := {
  pres_run o i P w w' push spawn :
    exec o i w = Next w' push spawn →
    J w (i :: P) → K w (i :: P) → K w' (push ++ concat spawn ++ P);
  pres_ext e P w w' thread :
    extern e w = Some (w', thread) → J w P → K w P → K w' (thread ++ P);
}.

Lemma concat_middle {A} (l1 l2 : list (list A)) x :
  concat (l1 ++ x :: l2) ≡ₚ x ++ concat l1 ++ concat l2.
Proof. rewrite concat_app. cbn [concat]. by rewrite Permutation_app_swap_app. Qed.

Lemma step_invariant (J K : invariant) `{!Multiset J, !Multiset K} w ts w' ts' :
  preserved_under J K → step (w, ts) (w', ts') →
  J w (concat ts) → K w (concat ts) → K w' (concat ts').
Proof.
  intros Hind Hstep. inversion Hstep as [o l1 i rest l2 ? ? push spawn He|e ? ? ? th Ha];
    subst; clear Hstep.
  - rewrite !concat_middle, concat_app. intros HJ HI.
    eapply (pres_run _ _ Hind _ _ (rest ++ concat l1 ++ concat l2)) in He;
      [|exact HJ|exact HI].
    eapply multiset_proper; [|exact He]. rewrite <- !app_assoc. apply Permutation_app_head.
    rewrite (Permutation_app_comm (concat spawn)), !app_assoc. done.
  - intros HJ HI. eapply (pres_ext _ _ Hind) in Ha; [|exact HJ|exact HI].
    eapply multiset_proper; [|exact Ha].
    rewrite concat_app. cbn. by rewrite app_nil_r, Permutation_app_comm.
Qed.

(** [K] holds of everything reachable from a state that has it. *)
Lemma reachable_invariant (J K : invariant) `{!Multiset J, !Multiset K} w ts w' ts' :
  preserved_under J K → rtc step (w, ts) (w', ts') →
  (∀ w1 ts1, rtc step (w, ts) (w1, ts1) → J w1 (concat ts1)) →
  K w (concat ts) → K w' (concat ts').
Proof.
  intros Hind Hr HJ HK. change (K (w', ts').1 (concat (w', ts').2)). revert Hr.
  apply (rtc_ind_r (λ cfg, K cfg.1 (concat cfg.2))); [done|].
  intros [w1 ts1] [w2 ts2] Hr Hs HI.
  eapply (step_invariant J K); [exact Hind|exact Hs|by apply HJ|done].
Qed.

(** The trivial invariant, and conjunction. *)
Definition inv_true : invariant := λ _ _, True.
#[export] Instance inv_true_multiset : Multiset inv_true.
Proof. by intros ????. Qed.
#[export] Instance world_multiset (Q : W → Prop) : Multiset (λ w _, Q w).
Proof. by intros ????. Qed.

Definition inv_and (J K : invariant) : invariant := λ w P, J w P ∧ K w P.
#[export] Instance inv_and_multiset J K : Multiset J → Multiset K → Multiset (inv_and J K).
Proof. intros HJ HK w P Q HPQ. unfold inv_and. by rewrite (HJ w P Q HPQ), (HK w P Q HPQ). Qed.
End machine.
Arguments invariant W I : clear implicits.
Arguments multiset_proper {W I} J {_} w.

Create Rewrite HintDb gather.

(** ** Tokens

    A resource that one goroutine at a time may hold is a token of the instructions that
    hold it; [gather] collects the tokens of everything pending. *)

Definition gather {I A} (f : I → list A) (P : list I) : list A := P ≫= f.

#[export] Instance gather_perm {I A} (f : I → list A) :
  Proper (Permutation ==> Permutation) (gather f).
Proof. intros P Q H. unfold gather. by rewrite H. Qed.

Section gather.
Context {I A : Type} (f : I → list A).

Lemma gather_app P Q : gather f (P ++ Q) = gather f P ++ gather f Q.
Proof. apply bind_app. Qed.

Lemma gather_cons i P : gather f (i :: P) = f i ++ gather f P.
Proof. done. Qed.

Lemma gather_nil : gather f [] = [].
Proof. done. Qed.

Lemma gather_fmap {B} (g : B → I) l : (∀ b, f (g b) = []) → gather f (g <$> l) = [].
Proof. intros Hg. induction l as [|b l IH]; [done|]. cbn. by rewrite Hg. Qed.

Lemma gather_opt {B} (g : B → I) x :
  gather f (opt g x) = match x with Some b => f (g b) | None => [] end.
Proof. destruct x; [|done]. cbn. by rewrite app_nil_r. Qed.
End gather.

Lemma gather_in {I A} (f : I → list A) i P x : i ∈ P → x ∈ f i → x ∈ gather f P.
Proof. intros Hi Hx. apply list_elem_of_bind. eauto. Qed.

(** The next instruction of a goroutine is pending. *)
Lemma head_pending {I} n (i : I) rest ts :
  ts !! n = Some (i :: rest) → i ∈ concat ts.
Proof.
  intros Hn%list_elem_of_lookup_2. apply list_elem_of_In, in_concat.
  eexists. split; [by apply list_elem_of_In|by left].
Qed.

#[export] Hint Rewrite @gather_app @gather_cons @gather_nil @gather_opt : gather.

(** Something pending has a property. *)
Definition awaits {I} (f : I → bool) (P : list I) : Prop := ∃ i, i ∈ P ∧ f i = true.

#[export] Instance awaits_perm {I} (f : I → bool) : Proper (Permutation ==> iff) (awaits f).
Proof. intros P Q H. unfold awaits. by setoid_rewrite H. Qed.

Lemma awaits_app {I} (f : I → bool) P Q : awaits f (P ++ Q) ↔ awaits f P ∨ awaits f Q.
Proof. unfold awaits. setoid_rewrite elem_of_app. naive_solver. Qed.

Lemma awaits_cons {I} (f : I → bool) i P : awaits f (i :: P) ↔ f i = true ∨ awaits f P.
Proof. unfold awaits. setoid_rewrite elem_of_cons. naive_solver. Qed.

Lemma awaits_nil {I} (f : I → bool) : awaits f [] ↔ False.
Proof. unfold awaits. setoid_rewrite elem_of_nil. naive_solver. Qed.
