(* ===== verification/Base64.v ===== *)
(** * encoding/base64, as the codec uses it

    [StdEncoding] (padded) with [AppendEncode] and [DecodeString], and
    [RawURLEncoding] (unpadded) with [EncodeToString].  [DecodeString] follows the
    library's [decodeQuantum]: carriage returns and newlines are skipped wherever
    they stand, the trailing bits of a short quantum are not checked, padding must
    be complete and must end the input, and an error carries the byte offset at
    which the input was found corrupt. *)

From S2P Require Import Prelude.

Module Base64.

Definition encodeStd : bytes :=
  str "ABCDEFGHIJKLMNOPQRSTUVWXYZabcdefghijklmnopqrstuvwxyz0123456789+/".

Definition encodeURL : bytes :=
  str "ABCDEFGHIJKLMNOPQRSTUVWXYZabcdefghijklmnopqrstuvwxyz0123456789-_".

Definition padChar : byte := "="%byte.

(** The character of a six-bit digit, and the digit of a character. *)
Definition sym (alphabet : bytes) (d : Z) : byte :=
  default padChar (alphabet !! Z.to_nat d).

Fixpoint index_of (b : byte) (l : bytes) (i : Z) : option Z :=
  match l with
  | [] => None
  | x :: l => if decide (x = b) then Some i else index_of b l (i + 1)
  end.

Definition decodeMap (b : byte) : option Z := index_of b encodeStd 0.

(** The four six-bit digits of three bytes. *)
Definition digit0 (a : Z) : Z := a / 4.
Definition digit1 (a b : Z) : Z := (a mod 4) * 16 + b / 16.
Definition digit2 (b c : Z) : Z := (b mod 16) * 4 + c / 64.
Definition digit3 (c : Z) : Z := c mod 64.

Section Encode.
Variable alphabet : bytes.
Variable pad : bytes.

(** [pad] is the padding character, or nothing for the raw encodings. *)
Fixpoint encode_with (src : bytes) : bytes :=
  match src with
  | a :: b :: c :: rest =>
      sym alphabet (digit0 (b2z a)) :: sym alphabet (digit1 (b2z a) (b2z b)) ::
      sym alphabet (digit2 (b2z b) (b2z c)) :: sym alphabet (digit3 (b2z c)) ::
      encode_with rest
  | [a; b] =>
      [sym alphabet (digit0 (b2z a)); sym alphabet (digit1 (b2z a) (b2z b));
       sym alphabet (digit2 (b2z b) 0)] ++ pad
  | [a] =>
      [sym alphabet (digit0 (b2z a)); sym alphabet (digit1 (b2z a) 0)] ++ pad ++ pad
  | [] => []
  end.

End Encode.

Definition Std_Encode (src : bytes) : bytes := encode_with encodeStd [padChar] src.
Definition RawURL_Encode (src : bytes) : bytes := encode_with encodeURL [] src.

Definition is_newline (b : byte) : bool :=
  bool_decide (b = x0a) || bool_decide (b = x0d).

(** [for si < len(src) && (src[si] == '\n' || src[si] == '\r') { si++ }]. *)
Fixpoint skip_newlines (src : bytes) (si : Z) : bytes * Z :=
  match src with
  | b :: rest => if is_newline b then skip_newlines rest (si + 1) else (src, si)
  | [] => ([], si)
  end.

(** The bytes of a quantum of two, three or four digits. *)
Definition quantum_val (d0 d1 d2 d3 : Z) : Z :=
  d0 * 2 ^ 18 + d1 * 2 ^ 12 + d2 * 2 ^ 6 + d3.

Definition byte_at (val shift : Z) : byte := z2b (val / 2 ^ shift).

Definition quantum_bytes (ds : list Z) : bytes :=
  match ds with
  | [d0; d1] => let v := quantum_val d0 d1 0 0 in [byte_at v 16]
  | [d0; d1; d2] => let v := quantum_val d0 d1 d2 0 in [byte_at v 16; byte_at v 8]
  | [d0; d1; d2; d3] =>
      let v := quantum_val d0 d1 d2 d3 in [byte_at v 16; byte_at v 8; byte_at v 0]
  | _ => []
  end.

(** After the padding only newlines may follow. *)
Definition finish (src : bytes) (si : Z) (ds : list Z) : res bytes :=
  let '(rest, si) := skip_newlines src si in
  match rest with
  | [] => Ok (quantum_bytes ds)
  | _ => Err (ECorruptInput si)
  end.

(** A first padding character was read at offset [si - 1]; [src] starts at [si]. *)
Definition decode_padding (src : bytes) (si : Z) (ds : list Z) : res bytes :=
  match length ds with
  | 2%nat =>
      let '(rest, si) := skip_newlines src si in
      match rest with
      | [] => Err (ECorruptInput si)
      | p :: rest =>
          if decide (p = padChar) then finish rest (si + 1) ds
          else Err (ECorruptInput (si - 1))
      end
  | 3%nat => finish src si ds
  | _ => Err (ECorruptInput (si - 1))
  end.

(** [ds] are the digits of the current quantum, [si] the offset of [src]. *)
Fixpoint decode_from (src : bytes) (si : Z) (ds : list Z) : res bytes :=
  match src with
  | [] => if decide (ds = []) then Ok [] else Err (ECorruptInput (si - len ds))
  | b :: rest =>
      match decodeMap b with
      | Some d =>
          let ds := ds ++ [d] in
          if decide (length ds = 4%nat) then
            let! tail := decode_from rest (si + 1) [] in Ok (quantum_bytes ds ++ tail)
          else decode_from rest (si + 1) ds
      | None =>
          if is_newline b then decode_from rest (si + 1) ds
          else if decide (b = padChar) then decode_padding rest (si + 1) ds
          else Err (ECorruptInput si)
      end
  end.

Definition Std_DecodeString (src : bytes) : res bytes := decode_from src 0 [].

Example decode_ex1 : Std_DecodeString (str "AQIDBA==") = Ok [x01; x02; x03; x04].
Proof. reflexivity. Qed.

Example decode_ex2 : Std_DecodeString (str "AQI=DBA=") = Err (ECorruptInput 4).
Proof. reflexivity. Qed.

(** ** The alphabet *)

Lemma decodeMap_sym d : 0 <= d < 64 → decodeMap (sym encodeStd d) = Some d.
Proof. revert d. apply (forall_seqZ _ 0 64). vm_compute. reflexivity. Qed.

Lemma decodeMap_pad : decodeMap padChar = None.
Proof. reflexivity. Qed.

(** The characters a padded encoding may contain. *)
Definition std_char (b : byte) : bool :=
  match decodeMap b with Some _ => true | None => bool_decide (b = padChar) end.

Lemma sym_std_char d : 0 <= d < 64 → std_char (sym encodeStd d) = true.
Proof. intros. unfold std_char. by rewrite decodeMap_sym. Qed.

Lemma digits_range a b c :
  0 <= a < 256 → 0 <= b < 256 → 0 <= c < 256 →
  (0 <= digit0 a < 64 ∧ 0 <= digit1 a b < 64 ∧ 0 <= digit2 b c < 64 ∧ 0 <= digit3 c < 64).
Proof. unfold digit0, digit1, digit2, digit3. zlia. Qed.

Lemma quantum_val_digits a b c :
  0 <= a < 256 → 0 <= b < 256 → 0 <= c < 256 →
  quantum_val (digit0 a) (digit1 a b) (digit2 b c) (digit3 c) = a * 65536 + b * 256 + c.
Proof. unfold quantum_val, digit0, digit1, digit2, digit3. zlia. Qed.

(** ** The round trip *)

Lemma bytes_ind3 (P : bytes → Prop) :
  P [] → (∀ a, P [a]) → (∀ a b, P [a; b]) →
  (∀ a b c l, P l → P (a :: b :: c :: l)) → ∀ l, P l.
Proof.
  intros H0 H1 H2 H3 l.
  assert (∀ n l, (length l <= n)%nat → P l) as Hn; [|by eapply Hn].
  clear l. induction n as [|n IH]; intros [|a [|b [|c l]]] Hl; simpl in *; auto; try lia.
  apply H3, IH. lia.
Qed.

Ltac digits a b c :=
  destruct (digits_range a b c) as (? & ? & ? & ?); [(auto with go || lia) .. |].

Lemma decode_quantum d0 d1 d2 d3 rest si :
  0 <= d0 < 64 → 0 <= d1 < 64 → 0 <= d2 < 64 → 0 <= d3 < 64 →
  decode_from (sym encodeStd d0 :: sym encodeStd d1 :: sym encodeStd d2 ::
               sym encodeStd d3 :: rest) si [] =
  res_bind (decode_from rest (si + 1 + 1 + 1 + 1) [])
    (λ tail, Ok (quantum_bytes [d0; d1; d2; d3] ++ tail)).
Proof.
  intros. Opaque decodeMap. simpl. rewrite !decodeMap_sym by done. Transparent decodeMap.
  reflexivity.
Qed.

Lemma decode_quantum3 d0 d1 d2 si :
  0 <= d0 < 64 → 0 <= d1 < 64 → 0 <= d2 < 64 →
  decode_from [sym encodeStd d0; sym encodeStd d1; sym encodeStd d2; padChar] si [] =
  Ok (quantum_bytes [d0; d1; d2]).
Proof.
  intros. Opaque decodeMap. simpl. rewrite !decodeMap_sym by done. Transparent decodeMap.
  reflexivity.
Qed.

Lemma decode_quantum2 d0 d1 si :
  0 <= d0 < 64 → 0 <= d1 < 64 →
  decode_from [sym encodeStd d0; sym encodeStd d1; padChar; padChar] si [] =
  Ok (quantum_bytes [d0; d1]).
Proof.
  intros. Opaque decodeMap. simpl. rewrite !decodeMap_sym by done. Transparent decodeMap.
  reflexivity.
Qed.

Lemma byte_at_eq v shift b : (v / 2 ^ shift) mod 256 = b2z b → byte_at v shift = b.
Proof.
  intros H. unfold byte_at. rewrite <- z2b_mod, H. apply z2b_b2z.
Qed.

Lemma quantum_bytes4 a b c :
  quantum_bytes [digit0 (b2z a); digit1 (b2z a) (b2z b); digit2 (b2z b) (b2z c);
                 digit3 (b2z c)] = [a; b; c].
Proof.
  pose proof (b2z_range a). pose proof (b2z_range b). pose proof (b2z_range c).
  cbn [quantum_bytes]. rewrite quantum_val_digits by done.
  rewrite !(byte_at_eq _ 16 a), !(byte_at_eq _ 8 b), !(byte_at_eq _ 0 c); [done|..];
    change (2 ^ 16) with 65536; change (2 ^ 8) with 256; change (2 ^ 0) with 1; zlia.
Qed.

Lemma quantum_bytes3 a b :
  quantum_bytes [digit0 (b2z a); digit1 (b2z a) (b2z b); digit2 (b2z b) 0] = [a; b].
Proof.
  pose proof (quantum_bytes4 a b x00) as H. cbn [quantum_bytes] in *.
  change (b2z x00) with 0 in H. change (digit3 0) with 0 in H.
  injection H as H1 H2 _. by rewrite H1, H2.
Qed.

Lemma quantum_bytes2 a :
  quantum_bytes [digit0 (b2z a); digit1 (b2z a) 0] = [a].
Proof.
  pose proof (quantum_bytes3 a x00) as H. cbn [quantum_bytes] in *.
  change (b2z x00) with 0 in H. change (digit2 0 0) with 0 in H.
  injection H as H1 _. by rewrite H1.
Qed.

Lemma decode_from_encode src si : decode_from (Std_Encode src) si [] = Ok src.
Proof.
  revert si. induction src as [|a|a b|a b c l IH] using bytes_ind3; intros si.
  - reflexivity.
  - digits (b2z a) 0 0.
    unfold Std_Encode. cbn [encode_with app]. rewrite decode_quantum2 by done. by rewrite quantum_bytes2.
  - digits (b2z a) (b2z b) 0.
    unfold Std_Encode. cbn [encode_with app]. rewrite decode_quantum3 by done. by rewrite quantum_bytes3.
  - digits (b2z a) (b2z b) (b2z c).
    unfold Std_Encode in *. cbn [encode_with].
    rewrite decode_quantum by done. rewrite IH. cbn [res_bind].
    by rewrite quantum_bytes4.
Qed.

(** Decoding a padded encoding gives the source back. *)
Lemma Std_round_trip src : Std_DecodeString (Std_Encode src) = Ok src.
Proof. apply decode_from_encode. Qed.

(** A padded encoding holds only characters of the alphabet and padding. *)
Lemma Std_Encode_chars src : Forall (λ b, std_char b = true) (Std_Encode src).
Proof.
  induction src as [|a|a b|a b c l IH] using bytes_ind3; unfold Std_Encode in *;
    cbn [encode_with app].
  - constructor.
  - digits (b2z a) 0 0.
    repeat constructor; (by apply sym_std_char) || done.
  - digits (b2z a) (b2z b) 0.
    repeat constructor; (by apply sym_std_char) || done.
  - digits (b2z a) (b2z b) (b2z c).
    repeat constructor; try (by apply sym_std_char); done.
Qed.

(** The encoded length is four characters per started group of three bytes. *)
Lemma Std_Encode_length src : len (Std_Encode src) = 4 * ((len src + 2) / 3).
Proof.
  induction src as [|a|a b|a b c l IH] using bytes_ind3; try reflexivity.
  unfold Std_Encode in *. cbn [encode_with].
  autorewrite with go_rw. rewrite IH. zlia.
Qed.

(** [DecodeString] never panics. *)
Lemma decode_from_no_panic src si ds : decode_from src si ds ≠ Panic.
Proof.
  revert si ds. induction src as [|b src IH]; intros si ds; simpl.
  - by case_decide.
  - destruct (decodeMap b).
    + case_decide; [|done]. specialize (IH (si + 1) []). by destruct decode_from.
    + destruct (is_newline b); [done|]. case_decide; [|done].
      unfold decode_padding, finish. cases; done.
Qed.

(** ** The URL alphabet *)

Lemma sym_url_inj d e :
  0 <= d < 64 → 0 <= e < 64 → sym encodeURL d = sym encodeURL e → d = e.
Proof.
  assert (∀ d, 0 <= d < 64 → index_of (sym encodeURL d) encodeURL 0 = Some d) as Hi.
  { apply (forall_seqZ _ 0 64). vm_compute. reflexivity. }
  intros Hd He H. apply Hi in Hd, He. rewrite H in Hd. congruence.
Qed.

Lemma digits_inj a b c a' b' c' :
  0 <= a < 256 → 0 <= b < 256 → 0 <= c < 256 →
  0 <= a' < 256 → 0 <= b' < 256 → 0 <= c' < 256 →
  sym encodeURL (digit0 a) = sym encodeURL (digit0 a') →
  sym encodeURL (digit1 a b) = sym encodeURL (digit1 a' b') →
  sym encodeURL (digit2 b c) = sym encodeURL (digit2 b' c') →
  sym encodeURL (digit3 c) = sym encodeURL (digit3 c') → a = a' ∧ b = b' ∧ c = c'.
Proof.
  intros. destruct (digits_range a b c) as (? & ? & ? & ?); [done..|].
  destruct (digits_range a' b' c') as (? & ? & ? & ?); [done..|].
  assert (a * 65536 + b * 256 + c = a' * 65536 + b' * 256 + c'); [|lia].
  rewrite <- !quantum_val_digits by done.
  f_equal; by apply sym_url_inj.
Qed.

(** Different sources have different raw encodings. *)
Lemma RawURL_Encode_inj src src' : RawURL_Encode src = RawURL_Encode src' → src = src'.
Proof.
  unfold RawURL_Encode. revert src'.
  induction src as [|a|a b|a b c l IH] using bytes_ind3; intros [|a' [|b' [|c' l']]];
    cbn [encode_with app]; try done.
  - intros [= H0 H1]. destruct (digits_inj (b2z a) 0 0 (b2z a') 0 0) as (Ha & _);
      auto with go; try lia. by rewrite (b2z_inj a a').
  - intros [= H0 H1 H2]. destruct (digits_inj (b2z a) (b2z b) 0 (b2z a') (b2z b') 0)
      as (Ha & Hb & _); auto with go; try lia. by rewrite (b2z_inj a a'), (b2z_inj b b').
  - intros [= H0 H1 H2 H3 Hl].
    destruct (digits_inj (b2z a) (b2z b) (b2z c) (b2z a') (b2z b') (b2z c'))
      as (Ha & Hb & Hc); auto with go.
    rewrite (b2z_inj a a'), (b2z_inj b b'), (b2z_inj c c') by done. by rewrite (IH l' Hl).
Qed.

(** Every character of a raw encoding is in the alphabet. *)
Lemma RawURL_Encode_chars src : Forall (λ b, b ∈ encodeURL) (RawURL_Encode src).
Proof.
  assert (∀ d, 0 <= d < 64 → sym encodeURL d ∈ encodeURL) as Hs.
  { intros d Hd. unfold sym. destruct (encodeURL !! Z.to_nat d) as [x|] eqn:E.
    - by eapply list_elem_of_lookup_2.
    - apply lookup_ge_None in E. change (length encodeURL) with 64%nat in E. lia. }
  unfold RawURL_Encode. induction src as [|a|a b|a b c l IH] using bytes_ind3;
    cbn [encode_with app].
  - constructor.
  - digits (b2z a) 0 0. repeat (apply Forall_cons_2; [by apply Hs|]). done.
  - digits (b2z a) (b2z b) 0. repeat (apply Forall_cons_2; [by apply Hs|]). done.
  - digits (b2z a) (b2z b) (b2z c). do 4 (apply Forall_cons_2; [by apply Hs|]). done.
Qed.

End Base64.
