(* ===== verification/Packet.v ===== *)
(** * Packets and their text wire form (packet.go, encoding.go, protocol.go)

    The packet data model, the ASCII digit of a packet type, and the codec of a
    single packet: [EncodePacket]/[appendPacket] and [DecodePacket]. *)

From S2P Require Import Prelude Base64.

(** ** packet.go *)

(** [PacketType] is a [uint8]: the seven constants name its first values, and any
    other value is a possible (invalid) packet type. *)
Definition PacketType : Set := byte.

#[export] Instance PacketType_eq_decision : EqDecision PacketType := byte_eq_decision.

Definition PacketOpen : PacketType := x00.
Definition PacketClose : PacketType := x01.
Definition PacketPing : PacketType := x02.
Definition PacketPong : PacketType := x03.
Definition PacketMessage : PacketType := x04.
Definition PacketUpgrade : PacketType := x05.
Definition PacketNoop : PacketType := x06.

Record Packet := mkPacket {
  PType : PacketType;
  Data : bytes;
  IsBinary : bool;
}.

#[export] Instance Packet_eq_decision : EqDecision Packet.
Proof. solve_decision. Defined.

(** [Packet{Type: t}] and [Packet{Type: t, Data: d}]. *)
Definition packet_of (t : PacketType) : Packet := mkPacket t [] false.
Definition text_packet (t : PacketType) (d : bytes) : Packet := mkPacket t d false.

Definition PacketType_String (p : PacketType) : bytes :=
  if decide (p = PacketOpen) then str "open"
  else if decide (p = PacketClose) then str "close"
  else if decide (p = PacketPing) then str "ping"
  else if decide (p = PacketPong) then str "pong"
  else if decide (p = PacketMessage) then str "message"
  else if decide (p = PacketUpgrade) then str "upgrade"
  else if decide (p = PacketNoop) then str "noop"
  else str "unknown".

(** [byte(p) + '0'], wrapping as a [uint8] addition does. *)
Definition PacketType_Byte (p : PacketType) : byte := z2b (b2z p + b2z "0"%byte).

(** [p <= PacketNoop]. *)
Definition PacketType_valid (p : PacketType) : bool := b2z p <=? b2z PacketNoop.

Definition PacketTypeFromByte (b : byte) : PacketType := z2b (b2z b - b2z "0"%byte).

Definition PacketTypeFromInt (u : byte) : PacketType := u.

(** [%x] of a byte slice: two lower-case hexadecimal digits per byte. *)
Definition hex_digit (d : Z) : byte := z2b (if d <? 10 then 48 + d else 87 + d).
Definition hex (d : bytes) : bytes :=
  d ≫= λ b, [hex_digit (b2z b / 16); hex_digit (b2z b mod 16)].

Definition Packet_String (p : Packet) : bytes :=
  if IsBinary p then
    str "Packet{Type: " ++ PacketType_String (PType p) ++ str ", Binary: " ++
    hex (Data p) ++ str "}"
  else
    str "Packet{Type: " ++ PacketType_String (PType p) ++ str ", Data: " ++
    Data p ++ str "}".

(** A transport kind is its wire name. *)
Definition TransportType : Type := bytes.
#[export] Instance TransportType_eq_decision : EqDecision TransportType := _.

Definition TransportTypePolling : TransportType := str "polling".
Definition TransportTypeWebSocket : TransportType := str "websocket".
Definition TransportTypeWebTransport : TransportType := str "webtransport".

(** The handshake parameters; the durations are milliseconds, as on the wire. *)
Record OpenPacket := mkOpenPacket {
  SessionID : bytes;
  Upgrades : list TransportType;
  PingInterval : Z;
  PingTimeout : Z;
  MaxPayload : Z;
}.

(** ** encoding.go *)

Definition BinaryMarker : byte := "b"%byte.

Definition appendPacket (dst : bytes) (packet : Packet) : bytes :=
  if IsBinary packet then
    (dst ++ [BinaryMarker]) ++ Base64.Std_Encode (Data packet)
  else
    (dst ++ [PacketType_Byte (PType packet)]) ++ Data packet.

Definition EncodePacket (packet : Packet) : bytes := appendPacket [] packet.

Definition invalid_packet_type : error :=
  EWrap "%w: %q" (ESentinel ErrInvalidPacketType).

Definition DecodePacket (input : bytes) : res Packet :=
  match input with
  | [] => Err (ESentinel ErrEmptyPacket)
  | b :: rest =>
      if decide (b = BinaryMarker) then
        let! data := res_wrap "decoding base64: %w" (Base64.Std_DecodeString rest) in
        Ok (mkPacket PacketMessage data true)
      else
        let packetType := PacketTypeFromByte b in
        if negb (PacketType_valid packetType) then Err invalid_packet_type
        else Ok (mkPacket packetType rest false)
  end.

(** ** protocol.go *)

Definition ProtocolVersion : Type := Z.
Definition ProtocolVersion2 : ProtocolVersion := 2.
Definition ProtocolVersion3 : ProtocolVersion := 3.
Definition ProtocolVersion4 : ProtocolVersion := 4.
Definition Protocol : ProtocolVersion := ProtocolVersion4.

(** ** Well-formed packets

    The contract of packet.go: the type is one of the seven, and a binary packet is
    a message. *)

Definition well_formed (p : Packet) : bool :=
  PacketType_valid (PType p) &&
  (negb (IsBinary p) || bool_decide (PType p = PacketMessage)).

Example encode_ex1 :
  EncodePacket (mkPacket PacketMessage (str "hello") false) = str "4hello".
Proof. reflexivity. Qed.

Example encode_ex2 :
  EncodePacket (mkPacket PacketMessage [x01; x02; x03; x04] true) = str "bAQIDBA==".
Proof. reflexivity. Qed.

Example string_ex :
  Packet_String (mkPacket PacketMessage [x0f; xa0] true) =
  str "Packet{Type: message, Binary: 0fa0}".
Proof. reflexivity. Qed.

(** ** The type byte *)

Lemma FromByte_Byte p : PacketTypeFromByte (PacketType_Byte p) = p.
Proof. by_bytes p. Qed.

Lemma Byte_FromByte b : PacketType_Byte (PacketTypeFromByte b) = b.
Proof. by_bytes b. Qed.

Lemma valid_Byte_not_marker p :
  PacketType_valid p = true → PacketType_Byte p ≠ BinaryMarker.
Proof. by_bytes p. Qed.

(** Types other than the valid ones never decode, except that the type whose digit
    is the binary marker is read as a binary message. *)
Definition marker_type : PacketType := PacketTypeFromByte BinaryMarker.

(** The wire digit of a valid type is one of ['0'] to ['6']. *)
Lemma valid_Byte_range p :
  PacketType_valid p = true ↔ 48 <= b2z (PacketType_Byte p) <= 54.
Proof. by_bytes p. Qed.

Lemma FromByte_valid_range b :
  PacketType_valid (PacketTypeFromByte b) = true ↔ 48 <= b2z b <= 54.
Proof. rewrite valid_Byte_range, Byte_FromByte. done. Qed.

(** ** The codec *)

Lemma EncodePacket_binary t d :
  EncodePacket (mkPacket t d true) = BinaryMarker :: Base64.Std_Encode d.
Proof. reflexivity. Qed.

Lemma EncodePacket_text t d :
  EncodePacket (mkPacket t d false) = PacketType_Byte t :: d.
Proof. reflexivity. Qed.

Lemma appendPacket_app dst p : appendPacket dst p = dst ++ EncodePacket p.
Proof.
  unfold EncodePacket, appendPacket. destruct (IsBinary p); by rewrite <- app_assoc.
Qed.

Lemma EncodePacket_not_nil p : EncodePacket p ≠ [].
Proof. destruct p as [t d []]; done. Qed.

Lemma EncodePacket_len p :
  len (EncodePacket p) =
  1 + (if IsBinary p then 4 * ((len (Data p) + 2) / 3) else len (Data p)).
Proof.
  destruct p as [t d []]; cbn [IsBinary Data].
  - rewrite EncodePacket_binary, len_cons, Base64.Std_Encode_length. done.
  - rewrite EncodePacket_text, len_cons. done.
Qed.

Lemma well_formed_binary t d :
  well_formed (mkPacket t d true) = true ↔ t = PacketMessage.
Proof.
  unfold well_formed. cbn. split.
  - intros [_ H]%andb_prop. by apply bool_decide_eq_true in H.
  - by intros ->.
Qed.

Lemma well_formed_text t d :
  well_formed (mkPacket t d false) = PacketType_valid t.
Proof. unfold well_formed. cbn. by rewrite andb_true_r. Qed.

Lemma DecodePacket_binary rest :
  DecodePacket (BinaryMarker :: rest) =
  res_bind (res_wrap "decoding base64: %w" (Base64.Std_DecodeString rest))
    (λ data, Ok (mkPacket PacketMessage data true)).
Proof. reflexivity. Qed.

Lemma DecodePacket_text b rest :
  b ≠ BinaryMarker →
  DecodePacket (b :: rest) =
  if PacketType_valid (PacketTypeFromByte b)
  then Ok (mkPacket (PacketTypeFromByte b) rest false)
  else Err invalid_packet_type.
Proof.
  intros Hb. unfold DecodePacket. rewrite decide_False by done.
  by destruct PacketType_valid.
Qed.

Lemma decode_encode_packet p :
  well_formed p = true → DecodePacket (EncodePacket p) = Ok p.
Proof.
  destruct p as [t d []].
  - intros ->%well_formed_binary.
    rewrite EncodePacket_binary, DecodePacket_binary, Base64.Std_round_trip. done.
  - rewrite well_formed_text. intros Hv. rewrite EncodePacket_text.
    rewrite DecodePacket_text by by apply valid_Byte_not_marker.
    by rewrite FromByte_Byte, Hv.
Qed.
#[export] Hint Resolve decode_encode_packet : go.

(** [DecodePacket] accepts exactly what it should, and returns well-formed packets
    that, for text, re-encode to the input. *)
Lemma DecodePacket_Ok_inv input p :
  DecodePacket input = Ok p →
  well_formed p = true ∧
  (if IsBinary p then
     ∃ rest, input = BinaryMarker :: rest ∧ Base64.Std_DecodeString rest = Ok (Data p)
   else EncodePacket p = input).
Proof.
  destruct input as [|b rest]; [done|].
  destruct (decide (b = BinaryMarker)) as [->|Hb].
  - rewrite DecodePacket_binary. intros (d & Hd%res_wrap_Ok & Hp)%res_bind_Ok.
    simplify_eq. split; [by apply well_formed_binary|]. by exists rest.
  - rewrite DecodePacket_text by done. intros H.
    destruct (PacketType_valid (PacketTypeFromByte b)) eqn:Hv; simplify_eq.
    split; [by rewrite well_formed_text|]. cbn [IsBinary].
    by rewrite EncodePacket_text, Byte_FromByte.
Qed.

Lemma DecodePacket_no_panic input : DecodePacket input ≠ Panic.
Proof.
  destruct input as [|b rest]; [done|]. simpl. case_decide.
  - pose proof (Base64.decode_from_no_panic rest 0 []) as H'.
    unfold Base64.Std_DecodeString. by destruct Base64.decode_from.
  - by destruct PacketType_valid.
Qed.

(** ** Properties *)

(** C7. Decoding the encoding of a well-formed packet gives the packet back, text and
    binary alike. *)
Theorem packet_round_trip p :
  well_formed p = true → DecodePacket (EncodePacket p) = Ok p.
Proof. apply decode_encode_packet. Qed.

Lemma packet_round_trip_witness :
  DecodePacket (EncodePacket (mkPacket PacketMessage [x00; xff; x1e] true)) =
  Ok (mkPacket PacketMessage [x00; xff; x1e] true).
Proof. apply packet_round_trip. reflexivity. Defined.

(** C39. Whatever [DecodePacket] accepts is a well-formed packet: a text packet
    re-encodes to exactly the input, and a binary packet is the base64 decoding of
    what follows the marker.  [DecodePacket] never panics. *)
Theorem packet_decode_exact input :
  DecodePacket input ≠ Panic ∧
  ∀ p, DecodePacket input = Ok p →
    well_formed p = true ∧
    (IsBinary p = false → EncodePacket p = input) ∧
    (IsBinary p = true → ∃ rest, input = BinaryMarker :: rest ∧
       Base64.Std_DecodeString rest = Ok (Data p)).
Proof.
  split; [apply DecodePacket_no_panic|]. intros p [Hwf Hin]%DecodePacket_Ok_inv.
  split; [done|]. by destruct (IsBinary p).
Qed.

(** The wire digit is a bijection between packet types and bytes, and the valid
    types are exactly those whose digit is one of ['0'] to ['6']. *)
Theorem packet_type_byte_bijection :
  (∀ p, PacketTypeFromByte (PacketType_Byte p) = p) ∧
  (∀ b, PacketType_Byte (PacketTypeFromByte b) = b) ∧
  (∀ p, PacketType_valid p = true ↔ 48 <= b2z (PacketType_Byte p) <= 54).
Proof. split_and!; auto using FromByte_Byte, Byte_FromByte, valid_Byte_range. Qed.
