(* ===== verification/Unicode.v ===== *)
(** * unicode/utf8 and strconv, as payload.go uses them

    [runes] is the conversion [[]rune(s)]: each maximal valid UTF-8 sequence is one
    rune and every byte that does not start one is [utf8.RuneError].  [of_runes] is
    [string(runes)].  [Atoi] is [strconv.Atoi] on 64-bit integers. *)

From S2P Require Import Prelude.

Module Utf8.

Definition RuneError : Z := 0xFFFD.

Definition within (lo hi : Z) (b : byte) : bool := (lo <=? b2z b) && (b2z b <=? hi).
Definition cont (b : byte) : bool := within 0x80 0xBF b.

(** The range the second byte of a three- or four-byte sequence must be in. *)
Definition second_lo (x0 : Z) : Z :=
  if x0 =? 0xE0 then 0xA0 else if x0 =? 0xF0 then 0x90 else 0x80.
Definition second_hi (x0 : Z) : Z :=
  if x0 =? 0xED then 0x9F else if x0 =? 0xF4 then 0x8F else 0xBF.

Definition low6 (b : byte) : Z := b2z b mod 64.

Fixpoint runes (s : bytes) : list Z :=
  match s with
  | [] => []
  | b0 :: s1 =>
      let x0 := b2z b0 in
      let invalid := RuneError :: runes s1 in
      if x0 <? 0x80 then x0 :: runes s1
      else if within 0xC2 0xDF b0 then
        match s1 with
        | b1 :: s2 => if cont b1 then (x0 mod 32 * 64 + low6 b1) :: runes s2 else invalid
        | _ => invalid
        end
      else if within 0xE0 0xEF b0 then
        match s1 with
        | b1 :: b2 :: s3 =>
            if within (second_lo x0) (second_hi x0) b1 && cont b2
            then (x0 mod 16 * 4096 + low6 b1 * 64 + low6 b2) :: runes s3
            else invalid
        | _ => invalid
        end
      else if within 0xF0 0xF4 b0 then
        match s1 with
        | b1 :: b2 :: b3 :: s4 =>
            if within (second_lo x0) (second_hi x0) b1 && cont b2 && cont b3
            then (x0 mod 8 * 262144 + low6 b1 * 4096 + low6 b2 * 64 + low6 b3) :: runes s4
            else invalid
        | _ => invalid
        end
      else invalid
  end.

(** A Unicode scalar value: what a rune must be to have an encoding of its own. *)
Definition scalar (r : Z) : bool :=
  (0 <=? r) && (r <=? 0x10FFFF) && negb ((0xD800 <=? r) && (r <=? 0xDFFF)).

Definition encode_scalar (r : Z) : bytes :=
  if r <? 0x80 then [z2b r]
  else if r <? 0x800 then [z2b (0xC0 + r / 64); z2b (0x80 + r mod 64)]
  else if r <? 0x10000 then
    [z2b (0xE0 + r / 4096); z2b (0x80 + r / 64 mod 64); z2b (0x80 + r mod 64)]
  else
    [z2b (0xF0 + r / 262144); z2b (0x80 + r / 4096 mod 64); z2b (0x80 + r / 64 mod 64);
     z2b (0x80 + r mod 64)].

Definition encode_rune (r : Z) : bytes :=
  encode_scalar (if scalar r then r else RuneError).

Definition of_runes (rs : list Z) : bytes := rs ≫= encode_rune.

Example runes_ex : runes (str "aé€😀" ++ [xff]) = [97; 233; 8364; 128512; 65533].
Proof. reflexivity. Qed.

Lemma scalar_spec r :
  scalar r = true ↔ 0 <= r <= 0x10FFFF ∧ ¬ (0xD800 <= r <= 0xDFFF).
Proof. unfold scalar. lia. Qed.

Lemma within_z2b lo hi z :
  0 <= z < 256 → within lo hi (z2b z) = (lo <=? z) && (z <=? hi).
Proof. intros. unfold within. by rewrite b2z_z2b_small. Qed.

(** Decoding the encoding of a scalar value gives it back, whatever follows. *)
Lemma runes_encode_rune r s :
  scalar r = true → runes (encode_rune r ++ s) = r :: runes s.
Proof.
  intros Hr. unfold encode_rune. rewrite Hr. apply scalar_spec in Hr.
  unfold encode_scalar.
  assert (∀ z, 0 <= z < 256 → low6 (z2b z) = z mod 64) as Hlow
    by (intros; unfold low6; by rewrite b2z_z2b_small).
  destruct (r <? 0x80) eqn:H1; [|destruct (r <? 0x800) eqn:H2;
    [|destruct (r <? 0x10000) eqn:H3]]; cbn [app runes].
  - rewrite b2z_z2b_small by lia. by rewrite H1.
  - unfold cont. rewrite !within_z2b, b2z_z2b_small, Hlow by zlia.
    rewrite (proj2 (Z.ltb_ge _ _)) by zlia.
    repeat (rewrite (proj2 (andb_true_iff _ _)) by zlia).
    f_equal. zlia.
  - unfold cont. rewrite !b2z_z2b_small, !Hlow, !within_z2b by zlia.
    rewrite (proj2 (Z.ltb_ge _ _)) by zlia.
    rewrite (proj2 (andb_false_iff _ _)) by zlia.
    rewrite (proj2 (andb_true_iff (0xE0 <=? _) _)) by zlia.
    assert (second_lo (0xE0 + r / 4096) <= 0x80 + r / 64 mod 64 <= second_hi (0xE0 + r / 4096))
      as Hs.
    { unfold second_lo, second_hi. cases; zlia. }
    rewrite (proj2 (andb_true_iff (_ && _) _)) by zlia. f_equal. zlia.
  - assert (0 <= r / 262144 <= 4) by zlia.
    pose proof (Z.mod_pos_bound (r / 4096) 64 eq_refl).
    pose proof (Z.mod_pos_bound (r / 64) 64 eq_refl).
    pose proof (Z.mod_pos_bound r 64 eq_refl).
    unfold cont. rewrite !b2z_z2b_small, !Hlow, !within_z2b by lia.
    rewrite (proj2 (Z.ltb_ge _ _)) by lia.
    rewrite (proj2 (andb_false_iff (0xC2 <=? _) _)) by zlia.
    rewrite (proj2 (andb_false_iff (0xE0 <=? _) _)) by zlia.
    rewrite (proj2 (andb_true_iff (0xF0 <=? _) _)) by zlia.
    assert (second_lo (0xF0 + r / 262144) <= 0x80 + r / 4096 mod 64
            <= second_hi (0xF0 + r / 262144)) as Hs.
    { unfold second_lo, second_hi. cases; zlia. }
    rewrite (proj2 (andb_true_iff (_ && _) _)) by zlia. f_equal. zlia.
Qed.

Lemma runes_of_runes_app rs s :
  Forall (λ r, scalar r = true) rs → runes (of_runes rs ++ s) = rs ++ runes s.
Proof.
  induction 1 as [|r rs Hr _ IH]; [done|].
  unfold of_runes. cbn [mbind list_bind]. rewrite <- app_assoc, runes_encode_rune by done.
  cbn [app]. f_equal. apply IH.
Qed.

Lemma runes_of_runes rs :
  Forall (λ r, scalar r = true) rs → runes (of_runes rs) = rs.
Proof.
  intros H. rewrite <- (app_nil_r (of_runes rs)), runes_of_runes_app by done.
  apply app_nil_r.
Qed.

Lemma of_runes_app a b : of_runes (a ++ b) = of_runes a ++ of_runes b.
Proof. unfold of_runes. by rewrite bind_app. Qed.

(** ASCII text: one rune per byte. *)
Definition ascii (b : byte) : bool := b2z b <? 0x80.

Lemma of_runes_ascii s :
  Forall (λ b, ascii b = true) s → of_runes (b2z <$> s) = s.
Proof.
  induction 1 as [|b s Hb _ IH]; [done|].
  cbn. fold (of_runes (b2z <$> s)). rewrite IH. unfold encode_rune, ascii in *.
  pose proof (b2z_range b).
  rewrite (proj2 (scalar_spec _)) by lia. unfold encode_scalar. rewrite Hb, z2b_b2z. done.
Qed.

Lemma ascii_scalar s :
  Forall (λ b, ascii b = true) s → Forall (λ r, scalar r = true) (b2z <$> s).
Proof.
  intros H. apply Forall_fmap. eapply Forall_impl; [|exact H].
  intros b Hb. unfold ascii in Hb. pose proof (b2z_range b). cbn. apply scalar_spec. lia.
Qed.

Lemma cont_mod b : 0x80 <= b2z b <= 0xBF → b2z b mod 64 = b2z b - 0x80.
Proof. zlia. Qed.

Lemma lead_mod x m lead :
  0 < m → lead mod m = 0 → lead <= x < lead + m → x mod m = x - lead.
Proof.
  intros Hm Hl Hx. replace x with (x - lead + lead) at 1 by lia.
  rewrite Z.add_mod, Hl, Z.add_0_r, Z.mod_mod by lia. apply Z.mod_small. lia.
Qed.

Lemma second_spec x :
  0x80 <= second_lo x ∧ second_hi x <= 0xBF ∧ (x = 0xED → second_hi x = 0x9F) ∧
  (x = 0xF4 → second_hi x = 0x8F) ∧ (x = 0xF0 → second_lo x = 0x90).
Proof. unfold second_lo, second_hi. repeat case_match; lia. Qed.

(** Every rune of a conversion is a scalar value. *)
Lemma runes_scalar s : Forall (λ r, scalar r = true) (runes s).
Proof.
  assert (∀ n s, (length s <= n)%nat → Forall (λ r, scalar r = true) (runes s)) as Hn;
    [|by eapply Hn].
  clear s. induction n as [|n IH]; intros [|b0 s1] Hl; try (simpl in *; lia || constructor).
  pose proof (b2z_range b0).
  assert (Forall (λ r, scalar r = true) (RuneError :: runes s1)) as Hinv
    by (constructor; [done|apply IH; simpl in Hl; lia]).
  cbn [runes]. case_match.
  { constructor; [apply scalar_spec; lia|apply IH; simpl in Hl; lia]. }
  unfold cont, low6, within in *. pose proof (second_spec (b2z b0)) as Hsec.
  destruct (_ && _) eqn:H1 at 1; [|destruct (_ && _) eqn:H2 at 1;
    [|destruct (_ && _) eqn:H3 at 1]]; [| | |done].
  - destruct s1 as [|b1 s2]; [done|]. pose proof (b2z_range b1).
    case_match; [|done]. constructor; [apply scalar_spec; zlia|apply IH; simpl in Hl; lia].
  - destruct s1 as [|b1 [|b2 s3]]; [done..|]. pose proof (b2z_range b1).
    pose proof (b2z_range b2). case_match eqn:Hc; [|done].
    constructor; [|apply IH; simpl in Hl; lia]. apply scalar_spec.
    rewrite (cont_mod b1), (cont_mod b2), (lead_mod (b2z b0) 16 0xE0) by (done || lia).
    lia.
  - destruct s1 as [|b1 [|b2 [|b3 s4]]]; [done..|]. pose proof (b2z_range b1).
    pose proof (b2z_range b2). pose proof (b2z_range b3). case_match eqn:Hc; [|done].
    constructor; [|apply IH; simpl in Hl; lia]. apply scalar_spec.
    rewrite (cont_mod b1), (cont_mod b2), (cont_mod b3), (lead_mod (b2z b0) 8 0xF0)
      by (done || lia).
    lia.
Qed.

(** [utf8.Valid]: nothing had to be replaced by [RuneError]. *)
Definition valid (s : bytes) : bool := bool_decide (of_runes (runes s) = s).

Lemma runes_app s t : valid s = true → runes (s ++ t) = runes s ++ runes t.
Proof.
  intros Hv%bool_decide_eq_true. rewrite <- Hv at 1.
  apply runes_of_runes_app, runes_scalar.
Qed.

Lemma valid_app s t : valid s = true → valid t = true → valid (s ++ t) = true.
Proof.
  intros Hs Ht. apply bool_decide_eq_true. rewrite runes_app, of_runes_app by done.
  apply bool_decide_eq_true in Hs, Ht. by rewrite Hs, Ht.
Qed.

Lemma valid_ascii s : Forall (λ b, ascii b = true) s → valid s = true ∧ runes s = b2z <$> s.
Proof.
  intros H. assert (runes s = b2z <$> s) as Hr.
  { rewrite <- (of_runes_ascii s) at 1 by done. by apply runes_of_runes, ascii_scalar. }
  split; [|done]. apply bool_decide_eq_true. rewrite Hr. by apply of_runes_ascii.
Qed.

Lemma length_runes s : len (runes s) <= len s.
Proof.
  assert (∀ n s, (length s <= n)%nat → len (runes s) <= len s) as Hn; [|by eapply Hn].
  clear s. induction n as [|n IH]; intros [|b0 s1] Hl; try (simpl in *; lia || done).
  assert (len (runes s1) <= len s1) by (apply IH; simpl in Hl; lia).
  cbn [runes]. repeat case_match; subst; autorewrite with go_rw in *; try lia;
    match goal with |- _ + len (runes ?t) <= _ =>
      assert (len (runes t) <= len t) by (apply IH; simpl in Hl; lia) end; lia.
Qed.

End Utf8.

Module Strconv.

(** The digits of a base-10 numeral, with the early range error of [ParseUint]. *)
Fixpoint parse_uint (s : bytes) (n : Z) : res Z :=
  match s with
  | [] => Ok n
  | b :: s =>
      let d := b2z b - 48 in
      if (0 <=? d) && (d <=? 9) then
        if n * 10 + d >=? 2 ^ 64 then Err (ESentinel strconv_ErrRange)
        else parse_uint s (n * 10 + d)
      else Err (ESentinel strconv_ErrSyntax)
  end.

(** The range check on the magnitude, once the sign has been read. *)
Definition atoi_digits (neg : bool) (digits : bytes) : res Z :=
  match digits with
  | [] => Err (ESentinel strconv_ErrSyntax)
  | _ =>
      let! un := parse_uint digits 0 in
      if negb neg && (un >=? 2 ^ 63) then Err (ESentinel strconv_ErrRange)
      else if neg && (un >? 2 ^ 63) then Err (ESentinel strconv_ErrRange)
      else Ok (if neg then - un else un)
  end.

Definition Atoi (s : bytes) : res Z :=
  match s with
  | [] => Err (ESentinel strconv_ErrSyntax)
  | b :: rest =>
      let neg := bool_decide (b = "-"%byte) in
      atoi_digits neg (if bool_decide (b = "+"%byte) || neg then rest else s)
  end.

(** The decimal numeral of a non-negative integer. *)
Definition Itoa (n : Z) : bytes := (λ d, z2b (48 + d)) <$> digits_loop 20 10 n [].

Lemma parse_uint_digits ds n :
  Forall (λ d, 0 <= d < 10) ds → 0 <= n →
  undigits_from 10 n ds < 2 ^ 64 →
  parse_uint ((λ d, z2b (48 + d)) <$> ds) n = Ok (undigits_from 10 n ds).
Proof.
  intros Hds. revert n. induction Hds as [|d ds Hd Hds IH]; intros n Hn Hlt; [done|].
  cbn [fmap list_fmap parse_uint]. rewrite b2z_z2b_small by lia.
  replace (48 + d - 48) with d by lia.
  rewrite (proj2 (andb_true_iff _ _)) by lia.
  assert (∀ m k, 0 <= m → Forall (λ d, 0 <= d < 10) k → m <= undigits_from 10 m k) as Hmono.
  { intros m k Hm Hk. revert m Hm. induction Hk as [|x k Hx Hk IHk]; intros m Hm; cbn; [lia|].
    etrans; [|apply IHk]; lia. }
  unfold undigits_from in Hlt. cbn [foldl] in Hlt.
  pose proof (Hmono (n * 10 + d) ds ltac:(lia) Hds). unfold undigits_from in *.
  case_match; [lia|]. apply IH; [lia|]. done.
Qed.

Lemma Itoa_parse n : 0 <= n < 2 ^ 64 → Itoa n ≠ [] ∧ parse_uint (Itoa n) 0 = Ok n.
Proof.
  intros Hn. unfold Itoa.
  pose proof (digits_loop_range 20 10 n [] ltac:(lia) ltac:(constructor)) as Hr.
  pose proof (undigits_digits_loop 20 10 n [] ltac:(lia) ltac:(lia)) as Hv.
  cbn [undigits_from foldl] in Hv. split.
  - intros E. by apply fmap_nil_inv, (digits_loop_not_nil 19 10 n []) in E.
  - rewrite parse_uint_digits; unfold undigits, undigits_from in *; rewrite ?Hv; auto; lia.
Qed.

Lemma Atoi_Itoa n : 0 <= n < 2 ^ 63 → Atoi (Itoa n) = Ok n.
Proof.
  intros Hn. destruct (Itoa_parse n) as [Hne Hp]; [lia|]. unfold Itoa in *.
  pose proof (digits_loop_range 20 10 n [] ltac:(lia) ltac:(constructor)) as Hr.
  destruct (digits_loop 20 10 n []) as [|d ds]; [done|].
  pose proof (Forall_inv Hr) as Hd. cbn beta in Hd. cbn [fmap list_fmap Atoi] in *.
  assert (b2z (z2b (48 + d)) = 48 + d) as Hb by (apply b2z_z2b_small; lia).
  assert (b2z "+"%byte = 43 ∧ b2z "-"%byte = 45) as [Hplus Hminus] by done.
  rewrite !bool_decide_eq_false_2 by (intros E; rewrite E in Hb; lia).
  cbn [orb atoi_digits]. rewrite Hp. cbn [res_bind negb andb]. case_match; [lia|done].
Qed.

(** The value never exceeds the width, and only errors are reported otherwise. *)
Lemma Atoi_range s n : Atoi s = Ok n → - 2 ^ 63 <= n <= int64_max.
Proof.
  assert (∀ s n m, 0 <= m → parse_uint s m = Ok n → 0 <= n) as Hp.
  { clear. induction s as [|b s IH]; intros n m Hm H; simplify_eq/=; [done|].
    pose proof (b2z_range b). cases. eapply IH; [|done]. lia. }
  unfold Atoi, int64_max. destruct s as [|b rest]; [done|].
  generalize (bool_decide (b = "-"%byte)) as neg. intros neg.
  generalize (if bool_decide (b = "+"%byte) || neg then rest else b :: rest).
  intros [|x ds]; [done|]. unfold atoi_digits.
  intros (un & Hun & H)%res_bind_Ok. apply Hp in Hun; [|lia].
  destruct neg; cbn in H; cases; lia.
Qed.

Lemma Atoi_no_panic s : Atoi s ≠ Panic.
Proof.
  assert (∀ s m, parse_uint s m ≠ Panic) as Hp.
  { induction s0 as [|b s0 IH]; intros m; simpl; [done|]. by cases. }
  unfold Atoi. destruct s as [|b rest]; [done|].
  generalize (bool_decide (b = "-"%byte)) as neg. intros neg.
  generalize (if bool_decide (b = "+"%byte) || neg then rest else b :: rest).
  intros [|x ds]; [done|]. unfold atoi_digits.
  specialize (Hp (x :: ds) 0). destruct parse_uint; [|done..]. cbn [res_bind]. by cases.
Qed.

Lemma Itoa_chars n : Forall (λ b, 48 <= b2z b < 58) (Itoa n).
Proof.
  unfold Itoa. apply Forall_fmap.
  pose proof (digits_loop_range 20 10 n [] ltac:(lia) ltac:(constructor)) as Hr.
  eapply Forall_impl; [|exact Hr]. intros d Hd. cbv beta in Hd. unfold compose.
  rewrite b2z_z2b_small; lia.
Qed.

End Strconv.
