(* ===== verification/Payload.v ===== *)
(** * Long-polling payloads (payload.go)

    [EncodePayload]/[appendPayload] (v4) and [DecodePayload] with its three framings:
    the v4 record-separator framing, the v2/v3 string framing whose lengths count
    runes, and the v3 binary framing whose lengths are written one value byte per
    decimal digit.  Positions and lengths are Go [int]s: the additions that can wrap
    around are written with [wrap64], and a slice expression out of range is a
    panic. *)

From S2P Require Import Prelude Base64 Packet Unicode.

Definition Separator : byte := x1e.
Definition binaryStringMarker : byte := x00.
Definition binaryBinaryMarker : byte := x01.
Definition binaryLengthTerminator : byte := xff.

(** ** Encoding *)

(** The loop [for i, packet := range packets], from index [i] on. *)
Fixpoint appendPayload_from (i : nat) (dst : bytes) (packets : list Packet) : bytes :=
  match packets with
  | [] => dst
  | packet :: packets =>
      let dst := if (0 <? i)%nat then dst ++ [Separator] else dst in
      appendPayload_from (S i) (appendPacket dst packet) packets
  end.

Definition appendPayload (dst : bytes) (packets : list Packet) : bytes :=
  appendPayload_from 0 dst packets.

Definition EncodePayload (packets : list Packet) : bytes := appendPayload [] packets.

(** ** The v4 framing *)

(** [bytes.Split(input, []byte{sep})]: always at least one segment. *)
Fixpoint split_on (sep : byte) (input : bytes) : list bytes :=
  match input with
  | [] => [[]]
  | b :: rest =>
      if decide (b = sep) then [] :: split_on sep rest
      else match split_on sep rest with
           | seg :: segs => (b :: seg) :: segs
           | [] => [[b]]
           end
  end.

(** [for _, segment := range segments { ... packets = append(packets, packet) }]. *)
Fixpoint decode_segments (segments : list bytes) (packets : list Packet)
  : res (list Packet) :=
  match segments with
  | [] => Ok packets
  | segment :: segments =>
      let! packet := res_wrap "decoding packet: %w" (DecodePacket segment) in
      decode_segments segments (packets ++ [packet])
  end.

Definition decodeRecordSeparatorPayload (input : bytes) : res (list Packet) :=
  decode_segments (split_on Separator input) [].

(** ** The string framing (v2, v3) *)

Definition malformed (text : string) : error :=
  EWrap text (ESentinel ErrMalformedPayload).

(** [slices.Index]. *)
Fixpoint slices_Index (l : list Z) (x : Z) : option Z :=
  match l with
  | [] => None
  | y :: l => if y =? x then Some 0 else Z.add 1 <$> slices_Index l x
  end.

(** [l[lo:hi]]: [None] is the runtime panic. *)
Definition go_slice {A} (l : list A) (lo hi : Z) : option (list A) :=
  if (0 <=? lo) && (lo <=? hi) && (hi <=? len l)
  then Some (take (Z.to_nat (hi - lo)) (drop (Z.to_nat lo) l))
  else None.

Definition decodeStringFramedPacket (packet : bytes) : res Packet :=
  match packet with
  | [] => Err (ESentinel ErrEmptyPacket)
  | b :: rest =>
      if decide (b = BinaryMarker) then
        match rest with
        | [] => Err (malformed "%w: truncated binary packet")
        | t :: rest =>
            let packetType := PacketTypeFromByte t in
            if negb (PacketType_valid packetType) then Err invalid_packet_type
            else
              let! data := res_wrap "decoding base64: %w" (Base64.Std_DecodeString rest) in
              Ok (mkPacket packetType data true)
        end
      else
        let packetType := PacketTypeFromByte b in
        if negb (PacketType_valid packetType) then Err invalid_packet_type
        else Ok (mkPacket packetType rest false)
  end.

(** One iteration of the loop: the packet of the frame at [cursor] and the position
    after it. *)
Definition string_frame (runes : list Z) (cursor : Z) : res (Packet * Z) :=
  match slices_Index (drop (Z.to_nat cursor) runes) (b2z ":"%byte) with
  | None => Err (malformed "%w: missing length separator")
  | Some separator =>
      let separator := separator + cursor in
      match go_slice runes cursor separator with
      | None => Panic
      | Some numeral =>
          match Strconv.Atoi (Utf8.of_runes numeral) with
          | Panic => Panic
          | Err err => Err (EWrap2 "%w: invalid length: %w" (ESentinel ErrMalformedPayload) err)
          | Ok length =>
              let start := separator + 1 in
              let stop := wrap64 (start + length) in
              if (length <? 0) || (stop >? len runes)
              then Err (malformed "%w: length exceeds payload")
              else match go_slice runes start stop with
                   | None => Panic
                   | Some body =>
                       let! packet := decodeStringFramedPacket (Utf8.of_runes body) in
                       Ok (packet, stop)
                   end
          end
      end
  end.

(** The outer loop [for cursor := 0; cursor < n; { ... cursor = end }] both legacy
    framings share; [frame] is its body.  [fuel] bounds the number of frames and
    [None] is running out of it, which [frames_loop_total] excludes for the fuel used
    below. *)
Fixpoint frames_loop (frame : Z → res (Packet * Z)) (n : Z) (fuel : nat) (cursor : Z)
    (packets : list Packet) : option (res (list Packet)) :=
  match fuel with
  | O => None
  | S fuel =>
      if cursor <? n then
        match frame cursor with
        | Ok (packet, cursor) => frames_loop frame n fuel cursor (packets ++ [packet])
        | Err e => Some (Err e)
        | Panic => Some Panic
        end
      else Some (Ok packets)
  end.

Definition decodeStringFramedPayload (input : bytes) : res (list Packet) :=
  let runes := Utf8.runes input in
  default Panic (frames_loop (string_frame runes) (len runes) (S (length runes)) 0 []).

(** ** The binary framing (v3) *)

Definition decodeBinaryFramedPacket (marker : byte) (body : bytes) : res Packet :=
  if decide (marker = binaryStringMarker) then decodeStringFramedPacket body
  else match body with
       | [] => Err (malformed "%w: empty binary packet")
       | t :: rest =>
           if negb (PacketType_valid t)
           then Err (EWrap "%w: %#x" (ESentinel ErrInvalidPacketType))
           else Ok (mkPacket t rest true)
       end.

(** The inner loop: the length and the position after the terminator.  [rest] is the
    input from [cursor] on. *)
Fixpoint read_length (rest : bytes) (cursor length : Z) : res (Z * Z) :=
  match rest with
  | [] => Err (malformed "%w: missing length terminator")
  | digit :: rest =>
      if decide (digit = binaryLengthTerminator) then Ok (length, cursor + 1)
      else if b2z digit >? 9 then Err (malformed "%w: invalid length digit %#x")
      else read_length rest (cursor + 1) (wrap64 (wrap64 (length * 10) + b2z digit))
  end.

Definition binary_frame (input : bytes) (cursor : Z) : res (Packet * Z) :=
  match input !! Z.to_nat cursor with
  | None => Panic
  | Some marker =>
      if bool_decide (marker ≠ binaryStringMarker) && bool_decide (marker ≠ binaryBinaryMarker)
      then Err (malformed "%w: invalid frame marker %#x")
      else
        let cursor := cursor + 1 in
        let! (length, cursor) := read_length (drop (Z.to_nat cursor) input) cursor 0 in
        let stop := wrap64 (cursor + length) in
        if stop >? len input then Err (malformed "%w: length exceeds payload")
        else match go_slice input cursor stop with
             | None => Panic
             | Some body =>
                 let! packet := decodeBinaryFramedPacket marker body in
                 Ok (packet, stop)
             end
  end.

Definition decodeBinaryFramedPayload (input : bytes) : res (list Packet) :=
  default Panic (frames_loop (binary_frame input) (len input) (S (length input)) 0 []).

(** ** The version switch *)

Definition DecodePayload (version : ProtocolVersion) (input : bytes)
  : res (list Packet) :=
  if version =? ProtocolVersion4 then decodeRecordSeparatorPayload input
  else if version =? ProtocolVersion3 then
    match input with
    | b :: _ =>
        if bool_decide (b = binaryStringMarker) || bool_decide (b = binaryBinaryMarker)
        then decodeBinaryFramedPayload input
        else decodeStringFramedPayload input
    | [] => decodeStringFramedPayload input
    end
  else if version =? ProtocolVersion2 then decodeStringFramedPayload input
  else Err (EWrap "%w: %d" (ESentinel ErrUnsupportedProtocolVersion)).

Example v4_ex :
  DecodePayload 4 (str "4hello" ++ [x1e] ++ str "2" ++ [x1e] ++ str "bAQI=") =
  Ok [mkPacket PacketMessage (str "hello") false; packet_of PacketPing;
      mkPacket PacketMessage [x01; x02] true].
Proof. reflexivity. Qed.

Example v3_string_ex :
  DecodePayload 3 (str "6:4hello2:4€10:b4AQIDBA==") =
  Ok [mkPacket PacketMessage (str "hello") false; mkPacket PacketMessage (str "€") false;
      mkPacket PacketMessage [x01; x02; x03; x04] true].
Proof. reflexivity. Qed.

Example v3_binary_ex :
  DecodePayload 3 ([x00; x06; xff] ++ str "4hello" ++ [x01; x03; xff; x04; x01; x02]) =
  Ok [mkPacket PacketMessage (str "hello") false; mkPacket PacketMessage [x01; x02] true].
Proof. reflexivity. Qed.

(** ** Joining and splitting *)

(** [bytes.Join(segments, []byte{sep})]. *)
Fixpoint join (sep : byte) (segments : list bytes) : bytes :=
  match segments with
  | [] => []
  | [seg] => seg
  | seg :: segments => seg ++ sep :: join sep segments
  end.

Lemma join_cons sep seg segs :
  segs ≠ [] → join sep (seg :: segs) = seg ++ sep :: join sep segs.
Proof. by destruct segs. Qed.

Lemma split_on_not_nil sep input : split_on sep input ≠ [].
Proof. destruct input as [|b rest]; [done|]. simpl. case_decide; [done|]. by cases. Qed.

Lemma join_split sep input : join sep (split_on sep input) = input.
Proof.
  induction input as [|b rest IH]; [done|]. simpl.
  pose proof (split_on_not_nil sep rest). case_decide as Hb.
  - subst b. rewrite join_cons by done. by rewrite IH.
  - destruct (split_on sep rest) as [|seg segs]; [done|].
    destruct segs; simpl in *; by rewrite IH.
Qed.

Lemma split_on_app sep seg rest :
  sep ∉ seg → split_on sep (seg ++ sep :: rest) = seg :: split_on sep rest.
Proof.
  induction seg as [|b seg IH]; intros Hs; simpl; [by rewrite decide_True|].
  rewrite decide_False by set_solver. by rewrite IH by set_solver.
Qed.

Lemma split_on_single sep seg : sep ∉ seg → split_on sep seg = [seg].
Proof.
  induction seg as [|b seg IH]; intros Hs; simpl; [done|].
  rewrite decide_False by set_solver. by rewrite IH by set_solver.
Qed.

Lemma split_join sep segs :
  segs ≠ [] → Forall (λ seg, sep ∉ seg) segs → split_on sep (join sep segs) = segs.
Proof.
  intros Hne Hall. induction Hall as [|seg segs Hs Hall IH]; [done|].
  destruct segs as [|seg' segs]; [by apply split_on_single|].
  rewrite join_cons, split_on_app by done. by rewrite IH.
Qed.

(** The segments of an input never contain the separator. *)
Lemma split_on_no_sep sep input : Forall (λ seg, sep ∉ seg) (split_on sep input).
Proof.
  induction input as [|b rest IH]; simpl; [repeat constructor; set_solver|].
  case_decide; [constructor; [set_solver|done]|].
  destruct (split_on sep rest); inversion IH; subst; repeat constructor; set_solver.
Qed.

(** ** The v4 codec *)

Lemma appendPayload_from_S i dst ps :
  appendPayload_from (S i) dst ps =
  dst ++ (ps ≫= λ p, Separator :: EncodePacket p).
Proof.
  revert i dst. induction ps as [|p ps IH]; intros i dst; cbn [appendPayload_from].
  - by rewrite app_nil_r.
  - rewrite IH, appendPacket_app. cbn [Nat.ltb Nat.leb mbind list_bind].
    by rewrite <- !app_assoc.
Qed.

Lemma join_bind p ps :
  join Separator (EncodePacket <$> p :: ps) =
  EncodePacket p ++ (ps ≫= λ p, Separator :: EncodePacket p).
Proof.
  revert p. induction ps as [|p' ps IH]; intros p.
  - cbn. by rewrite app_nil_r.
  - change (EncodePacket <$> p :: p' :: ps)
      with (EncodePacket p :: (EncodePacket <$> p' :: ps)).
    rewrite join_cons by done. rewrite IH. done.
Qed.

Lemma appendPayload_join dst ps :
  appendPayload dst ps = dst ++ join Separator (EncodePacket <$> ps).
Proof.
  unfold appendPayload. destruct ps as [|p ps]; [by rewrite app_nil_r|].
  rewrite join_bind. cbn [appendPayload_from Nat.ltb Nat.leb].
  by rewrite appendPayload_from_S, appendPacket_app, <- app_assoc.
Qed.

Lemma EncodePayload_join ps :
  EncodePayload ps = join Separator (EncodePacket <$> ps).
Proof. apply appendPayload_join. Qed.

(** What a text packet must avoid to survive the record-separator framing. *)
Definition separator_free (p : Packet) : bool :=
  IsBinary p || bool_decide (Separator ∉ Data p).

Lemma EncodePacket_separator_free p :
  well_formed p = true → separator_free p = true → Separator ∉ EncodePacket p.
Proof.
  destruct p as [t d []].
  - intros _ _. rewrite EncodePacket_binary. apply not_elem_of_cons. split; [done|].
    intros Hin. pose proof (Base64.Std_Encode_chars d) as Hc.
    rewrite Forall_forall in Hc. apply list_elem_of_In, Hc in Hin. by vm_compute in Hin.
  - rewrite well_formed_text, EncodePacket_text. intros Hv Hs.
    apply not_elem_of_cons. split.
    + apply valid_Byte_range in Hv. intros Heq. rewrite <- Heq in Hv.
      vm_compute in Hv. naive_solver.
    + unfold separator_free in Hs. cbn in Hs. by apply bool_decide_eq_true in Hs.
Qed.

Lemma decode_segments_app segs packets :
  decode_segments segs packets =
  res_bind (decode_segments segs []) (λ ps, Ok (packets ++ ps)).
Proof.
  revert packets. induction segs as [|seg segs IH]; intros packets; cbn [decode_segments].
  - cbn. by rewrite app_nil_r.
  - destruct (DecodePacket seg) as [p|e|]; cbn [res_wrap res_bind]; try done.
    rewrite IH, (IH ([] ++ [p])). destruct (decode_segments segs []); cbn; try done.
    by rewrite <- app_assoc.
Qed.

Lemma decode_segments_cons seg segs :
  decode_segments (seg :: segs) [] =
  res_bind (res_wrap "decoding packet: %w" (DecodePacket seg))
    (λ p, res_bind (decode_segments segs []) (λ ps, Ok (p :: ps))).
Proof.
  cbn [decode_segments]. destruct DecodePacket; cbn [res_wrap res_bind]; try done.
  by rewrite decode_segments_app.
Qed.

Lemma decode_segments_Ok segs ps :
  decode_segments segs [] = Ok ps ↔ Forall2 (λ seg p, DecodePacket seg = Ok p) segs ps.
Proof.
  revert ps. induction segs as [|seg segs IH]; intros ps.
  - cbn. split; [intros; simplify_eq; constructor|by inversion 1].
  - rewrite decode_segments_cons, res_bind_Ok. setoid_rewrite res_wrap_Ok.
    setoid_rewrite res_bind_Ok. setoid_rewrite IH. split.
    + intros (p & Hp & ps' & Hps & H). simplify_eq. by constructor.
    + inversion 1; subst. naive_solver.
Qed.

(** The first segment that does not decode decides the error. *)
Lemma decode_segments_Err segs e :
  decode_segments segs [] = Err e ↔
  ∃ pre seg post e', segs = pre ++ seg :: post ∧
    Forall (λ s, is_Ok (DecodePacket s) = true) pre ∧
    DecodePacket seg = Err e' ∧ e = EWrap "decoding packet: %w" e'.
Proof.
  induction segs as [|s segs IH].
  - split; [done|]. intros (pre & ? & ? & ? & H & _). by destruct pre.
  - rewrite decode_segments_cons. destruct (DecodePacket s) as [p|e0|] eqn:Hs.
    + cbn [res_wrap res_bind]. transitivity (decode_segments segs [] = Err e).
      { by destruct decode_segments. }
      rewrite IH. split.
      * intros (pre & seg & post & e' & -> & Hpre & He & ->).
        exists (s :: pre), seg, post, e'. split_and!; auto. constructor; [by rewrite Hs|done].
      * intros ([|s' pre] & seg & post & e' & Heq & Hpre & He & ->); simplify_eq/=;
          [congruence|].
        exists pre, seg, post, e'. split_and!; auto. by inversion Hpre.
    + cbn. split.
      * intros; simplify_eq. exists [], s, segs, e0. split_and!; auto.
      * intros ([|s' pre] & seg & post & e' & Heq & Hpre & He & ->); simplify_eq/=;
          [congruence|].
        inversion Hpre; subst. by rewrite Hs in *.
    + by destruct (DecodePacket_no_panic s).
Qed.

Lemma decode_segments_no_panic segs : decode_segments segs [] ≠ Panic.
Proof.
  induction segs as [|s segs IH]; [done|]. rewrite decode_segments_cons.
  destruct (DecodePacket s) eqn:Hs; cbn; [|done|by destruct (DecodePacket_no_panic s)].
  by destruct decode_segments.
Qed.

Lemma decode_encode_payload ps :
  ps ≠ [] → Forall (λ p, well_formed p = true) ps →
  Forall (λ p, separator_free p = true) ps →
  decodeRecordSeparatorPayload (EncodePayload ps) = Ok ps.
Proof.
  intros Hne Hwf Hsf. unfold decodeRecordSeparatorPayload. rewrite EncodePayload_join.
  rewrite split_join.
  - apply decode_segments_Ok. rewrite Forall2_fmap_l. apply Forall2_same_length_lookup_2;
      [done|]. intros i x y Hx Hy. simplify_eq. apply decode_encode_packet.
    by apply (Forall_lookup_1 _ _ _ _ Hwf Hx).
  - by destruct ps.
  - apply Forall_fmap, Forall_forall. intros p Hp. unfold compose.
    rewrite Forall_forall in Hwf, Hsf. by apply EncodePacket_separator_free; auto.
Qed.

(** ** Slices and positions *)

Lemma go_slice_app {A} (pre m post : list A) :
  go_slice (pre ++ m ++ post) (len pre) (len pre + len m) = Some m.
Proof.
  unfold go_slice. autorewrite with go_rw.
  pose proof (len_nonneg pre). pose proof (len_nonneg m). pose proof (len_nonneg post).
  case_match; [|lia]. f_equal. unfold len.
  rewrite Nat2Z.id, drop_app_length.
  replace (Z.to_nat _) with (length m) by lia. apply take_app_length.
Qed.

Lemma go_slice_None {A} (l : list A) lo hi :
  go_slice l lo hi = None ↔ ¬ (0 <= lo <= hi ∧ hi <= len l).
Proof. unfold go_slice. case_match; split; (done || lia). Qed.

Lemma slices_Index_app l x r :
  x ∉ l → slices_Index (l ++ x :: r) x = Some (len l).
Proof.
  induction l as [|y l IH]; intros Hx; cbn [app slices_Index].
  - by rewrite Z.eqb_refl.
  - destruct (Z.eqb_spec y x) as [->|_]; [set_solver|].
    rewrite IH by set_solver. cbn. by rewrite len_cons.
Qed.

Lemma slices_Index_bound l x i : slices_Index l x = Some i → 0 <= i < len l.
Proof.
  revert i. induction l as [|y l IH]; intros i; cbn [slices_Index]; [done|].
  rewrite len_cons. pose proof (len_nonneg l).
  case_match; [intros; simplify_eq; lia|].
  destruct (slices_Index l x) as [j|]; [|done]. cbn. intros; simplify_eq.
  specialize (IH j eq_refl). lia.
Qed.

Lemma drop_len_app {A} (pre l : list A) : drop (Z.to_nat (len pre)) (pre ++ l) = l.
Proof. unfold len. by rewrite Nat2Z.id, drop_app_length. Qed.

(** ** Every iteration advances, so the loops terminate *)

Lemma string_frame_advances rs cursor p stop :
  0 <= cursor → string_frame rs cursor = Ok (p, stop) → cursor < stop <= len rs.
Proof.
  intros Hc. unfold string_frame.
  destruct (slices_Index _ _) as [sep|] eqn:Hs; [|done].
  apply slices_Index_bound in Hs.
  destruct (go_slice rs cursor _) as [num|]; [|done].
  destruct (Strconv.Atoi _) as [n|?|] eqn:Hn; [|done..].
  destruct (_ || _) eqn:Hb; [done|].
  destruct (go_slice rs (sep + cursor + 1) _) as [body|] eqn:Hg; [|done].
  intros (p' & _ & H)%res_bind_Ok. simplify_eq.
  unfold go_slice in Hg. case_match; [lia|done].
Qed.

Lemma read_length_cursor rest cursor n n' cursor' :
  read_length rest cursor n = Ok (n', cursor') → cursor < cursor' <= cursor + len rest.
Proof.
  revert cursor n. induction rest as [|d rest IH]; intros cursor n; cbn [read_length]; [done|].
  rewrite len_cons. pose proof (len_nonneg rest).
  case_decide; [intros; simplify_eq; lia|]. case_match; [done|]. intros Hr%IH. lia.
Qed.

Lemma binary_frame_advances input cursor p stop :
  0 <= cursor → binary_frame input cursor = Ok (p, stop) → cursor < stop <= len input.
Proof.
  intros Hc. unfold binary_frame. destruct (input !! _) as [m|]; [|done].
  destruct (_ && _); [done|].
  intros ([n cursor'] & Hr%read_length_cursor & H)%res_bind_Ok.
  destruct (_ >? _) eqn:Hb; [done|].
  destruct (go_slice _ _ _) as [body|] eqn:Hg; [|done].
  apply res_bind_Ok in H as (p' & _ & H). simplify_eq.
  unfold go_slice in Hg. case_match; [lia|done].
Qed.

Lemma frames_loop_total frame n fuel cursor ps :
  (∀ c p stop, 0 <= c → frame c = Ok (p, stop) → c < stop <= n) →
  0 <= cursor <= n → n - cursor < Z.of_nat fuel →
  is_Some (frames_loop frame n fuel cursor ps).
Proof.
  intros Hframe. revert cursor ps. induction fuel as [|fuel IH]; intros cursor ps Hc Hf.
  - lia.
  - cbn [frames_loop]. case_match; [|eauto].
    destruct (frame cursor) as [[p stop]| |] eqn:Hs; eauto.
    apply Hframe in Hs; [|lia]. apply IH; lia.
Qed.

Lemma string_loop_total rs :
  is_Some (frames_loop (string_frame rs) (len rs) (S (length rs)) 0 []).
Proof.
  pose proof (len_nonneg rs). apply frames_loop_total; [|lia|unfold len; lia].
  intros. by eapply string_frame_advances.
Qed.

Lemma binary_loop_total input :
  is_Some (frames_loop (binary_frame input) (len input) (S (length input)) 0 []).
Proof.
  pose proof (len_nonneg input). apply frames_loop_total; [|lia|unfold len; lia].
  intros. by eapply binary_frame_advances.
Qed.

(** A sequence of frames that decode one by one decodes as a whole. *)
Lemma frames_loop_concat {A} (frame : Z → res (Packet * Z)) (whole : list A) fuel ps :
  ∀ pre acc (frames : list (list A)),
  whole = pre ++ concat frames → (length ps < fuel)%nat →
  Forall (λ f, f ≠ []) frames → length frames = length ps →
  (∀ i f p pre post, frames !! i = Some f → ps !! i = Some p →
     whole = pre ++ f ++ post → frame (len pre) = Ok (p, len pre + len f)) →
  frames_loop frame (len whole) fuel (len pre) acc = Some (Ok (acc ++ ps)).
Proof.
  revert fuel. induction ps as [|p ps IH];
    intros [|fuel] pre acc [|f frames] Hw Hfuel Hne Hlen Hframe; try (simpl in *; lia);
    cbn [frames_loop].
  - rewrite Hw. cbn [concat]. rewrite !app_nil_r, (proj2 (Z.ltb_ge _ _)) by lia. done.
  - pose proof (Forall_inv Hne) as Hf. apply Forall_inv_tail in Hne.
    cbv beta in Hf. cbn [concat] in Hw.
    assert ((len pre <? len whole) = true) as ->.
    { rewrite Hw. autorewrite with go_rw. destruct f; [done|]. autorewrite with go_rw.
      pose proof (len_nonneg f). pose proof (len_nonneg (concat frames)). lia. }
    rewrite (Hframe 0%nat f p pre (concat frames)) by done.
    rewrite <- len_app.
    rewrite (IH fuel (pre ++ f) (acc ++ [p]) frames); [by rewrite <- app_assoc|..].
    + by rewrite <- app_assoc.
    + simpl in Hfuel. lia.
    + done.
    + simpl in Hlen. lia.
    + intros i f' p' pre' post' Hi Hp Hw'. by apply (Hframe (S i) f' p' pre' post').
Qed.

(** ** Properties *)

(** A non-empty list of well-formed packets whose text data is free of the record
    separator survives a v4 payload: decoding the encoding gives the list back. *)
Theorem payload_round_trip ps :
  ps ≠ [] → Forall (λ p, well_formed p = true) ps →
  Forall (λ p, separator_free p = true) ps →
  DecodePayload ProtocolVersion4 (EncodePayload ps) = Ok ps.
Proof. apply decode_encode_payload. Qed.

Lemma payload_round_trip_witness :
  let ps := [mkPacket PacketMessage [x1e; x00] true; packet_of PacketPing;
             text_packet PacketMessage (str "hi")] in
  DecodePayload ProtocolVersion4 (EncodePayload ps) = Ok ps.
Proof. apply payload_round_trip; [done|repeat constructor..]. Defined.

(** C38. What a v4 payload decodes to is faithful to the input: one well-formed packet
    per segment between record separators, in order, and a payload of text packets
    re-encodes to the input itself. *)
Theorem payload_decode_exact input ps :
  DecodePayload ProtocolVersion4 input = Ok ps →
  Forall2 (λ seg p, DecodePacket seg = Ok p) (split_on Separator input) ps ∧
  Forall (λ p, well_formed p = true) ps ∧
  (Forall (λ p, IsBinary p = false) ps → EncodePayload ps = input).
Proof.
  intros H%decode_segments_Ok. split; [done|]. split.
  - apply Forall_forall. intros p Hp%list_elem_of_In.
    apply list_elem_of_lookup in Hp as [i Hp].
    destruct (Forall2_lookup_r _ _ _ _ _ H Hp) as (seg & _ & Hseg).
    by apply DecodePacket_Ok_inv in Hseg as [? _].
  - intros Htext. rewrite EncodePayload_join, <- (join_split Separator input) at 1.
    f_equal. clear -H Htext. induction H as [|seg p segs ps Hp H IH]; [done|].
    apply DecodePacket_Ok_inv in Hp as [_ Hp].
    pose proof (Forall_inv Htext) as Hb. apply Forall_inv_tail in Htext.
    cbv beta in Hb. rewrite Hb in Hp. cbn [fmap list_fmap]. rewrite Hp. f_equal. by apply IH.
Qed.

Lemma payload_decode_exact_witness :
  EncodePayload [text_packet PacketMessage (str "a"); packet_of PacketPong] =
  str "4a" ++ [x1e] ++ str "3".
Proof.
  apply (payload_decode_exact (str "4a" ++ [x1e] ++ str "3")); [reflexivity|].
  repeat constructor.
Defined.

(** A v4 payload never panics and fails exactly when some segment does not decode;
    the first such segment decides the error, which keeps the packet's own error. *)
Theorem payload_first_error input e :
  DecodePayload ProtocolVersion4 input ≠ Panic ∧
  (DecodePayload ProtocolVersion4 input = Err e ↔
   ∃ pre seg post e', split_on Separator input = pre ++ seg :: post ∧
     Forall (λ s, is_Ok (DecodePacket s) = true) pre ∧
     DecodePacket seg = Err e' ∧ e = EWrap "decoding packet: %w" e').
Proof. split; [apply decode_segments_no_panic|apply decode_segments_Err]. Qed.

(** Encoding into a reused buffer appends, after what the buffer holds, the packets'
    wire forms joined by the record separator. *)
Theorem appendPayload_is_join dst ps :
  appendPayload dst ps = dst ++ join Separator (EncodePacket <$> ps).
Proof. apply appendPayload_join. Qed.
