(* ===== verification/PayloadLegacy.v ===== *)
(** * The legacy payload framings (payload.go, v2 and v3)

    The library only decodes the v2/v3 framings.  This file writes down the
    documented framings as encoders of its own (the specification), shows that the
    decoders of [Payload] invert them, that their loops terminate, that v2 refuses
    binary frames, and where their length arithmetic leaves the 64-bit range. *)

From S2P Require Import Prelude Base64 Packet Unicode Payload.

(** ** The framings, as specified *)

(** The body of a string-framed packet: ["<type><data>"], or ["b<type><base64>"]. *)
Definition string_body (p : Packet) : bytes :=
  if IsBinary p
  then BinaryMarker :: PacketType_Byte (PType p) :: Base64.Std_Encode (Data p)
  else PacketType_Byte (PType p) :: Data p.

(** ["<length>:<packet>"], the length counting runes. *)
Definition string_framed (p : Packet) : bytes :=
  Strconv.Itoa (len (Utf8.runes (string_body p))) ++ ":"%byte :: string_body p.

Definition encode_string_payload (ps : list Packet) : bytes := ps ≫= string_framed.

(** A marker, the byte length one value byte per decimal digit, 0xff, the body. *)
Definition binary_body (p : Packet) : bytes :=
  if IsBinary p then PType p :: Data p else PacketType_Byte (PType p) :: Data p.

Definition length_field (n : Z) : bytes := z2b <$> digits_loop 20 10 n [].

Definition binary_framed (p : Packet) : bytes :=
  (if IsBinary p then binaryBinaryMarker else binaryStringMarker)
  :: length_field (len (binary_body p)) ++ binaryLengthTerminator :: binary_body p.

Definition encode_binary_payload (ps : list Packet) : bytes := ps ≫= binary_framed.

(** What a packet of the string framing must be: a valid type and, for text, valid
    UTF-8 (the framing walks runes). *)
Definition string_encodable (p : Packet) : bool :=
  PacketType_valid (PType p) && (IsBinary p || Utf8.valid (Data p)).

Definition binary_encodable (p : Packet) : bool := PacketType_valid (PType p).

(** ** String framing *)

Lemma decode_string_body p :
  PacketType_valid (PType p) = true →
  decodeStringFramedPacket (string_body p) = Ok p.
Proof.
  destruct p as [t d []]; cbn [PType string_body IsBinary Data]; intros Hv.
  - unfold decodeStringFramedPacket. rewrite decide_True by done.
    rewrite FromByte_Byte, Hv. cbn [negb]. by rewrite Base64.Std_round_trip.
  - unfold decodeStringFramedPacket.
    rewrite decide_False by by apply valid_Byte_not_marker.
    by rewrite FromByte_Byte, Hv.
Qed.

Lemma std_char_ascii b : Base64.std_char b = true → Utf8.ascii b = true.
Proof. by_bytes b. Qed.

Lemma valid_type_ascii t :
  PacketType_valid t = true → Utf8.ascii (PacketType_Byte t) = true.
Proof. by_bytes t. Qed.

Lemma string_body_valid p :
  string_encodable p = true → Utf8.valid (string_body p) = true.
Proof.
  destruct p as [t d []]; unfold string_encodable; cbn [PType IsBinary Data].
  - intros [Hv _]%andb_true_iff. apply Utf8.valid_ascii.
    constructor; [done|]. constructor; [by apply valid_type_ascii|].
    eapply Forall_impl; [|apply Base64.Std_Encode_chars]. apply std_char_ascii.
  - intros [Hv Hd]%andb_true_iff. cbn [orb] in Hd.
    apply (Utf8.valid_app [PacketType_Byte t]); [|done].
    apply Utf8.valid_ascii. repeat constructor. by apply valid_type_ascii.
Qed.

Lemma Itoa_ascii n : Forall (λ b, Utf8.ascii b = true) (Strconv.Itoa n).
Proof.
  eapply Forall_impl; [|apply Strconv.Itoa_chars].
  intros b Hb. cbv beta in Hb. unfold Utf8.ascii. lia.
Qed.

Definition colon : Z := b2z ":"%byte.

(** The runes of one frame. *)
Lemma runes_string_framed p rest :
  string_encodable p = true →
  Utf8.runes (string_framed p ++ rest) =
  ((b2z <$> Strconv.Itoa (len (Utf8.runes (string_body p)))) ++ colon ::
    Utf8.runes (string_body p)) ++ Utf8.runes rest.
Proof.
  intros He. unfold string_framed. set (num := Strconv.Itoa _).
  destruct (Utf8.valid_ascii num (Itoa_ascii _)) as [Hnv Hnr].
  assert (Utf8.valid [":"%byte] = true) as Hc by done.
  pose proof (string_body_valid p He) as Hb.
  change (":"%byte :: string_body p) with ([":"%byte] ++ string_body p).
  rewrite <- !app_assoc, !Utf8.runes_app, Hnr by done. done.
Qed.

Lemma string_frame_one p pre post :
  string_encodable p = true →
  let body := Utf8.runes (string_body p) in
  let frame := (b2z <$> Strconv.Itoa (len body)) ++ colon :: body in
  len (pre ++ frame ++ post) <= int64_max →
  string_frame (pre ++ frame ++ post) (len pre) = Ok (p, len pre + len frame).
Proof.
  intros He body frame Hlen. unfold string_frame. subst frame.
  set (num := b2z <$> Strconv.Itoa (len body)) in *.
  pose proof (len_nonneg pre). pose proof (len_nonneg body). pose proof (len_nonneg num).
  pose proof (len_nonneg post).
  assert (len (pre ++ (num ++ colon :: body) ++ post) =
          len pre + len num + 1 + len body + len post) as Hlens
    by (autorewrite with go_rw; lia).
  rewrite Hlens in Hlen |- *.
  rewrite drop_len_app, <- app_assoc. cbn [app].
  rewrite slices_Index_app.
  2:{ intros (b & Heq & Hb)%list_elem_of_fmap. pose proof (Strconv.Itoa_chars (len body)) as Hc.
      rewrite Forall_forall in Hc. apply list_elem_of_In, Hc in Hb.
      unfold colon in Heq. change (b2z ":"%byte) with 58 in Heq. lia. }
  rewrite (Z.add_comm (len num)), go_slice_app.
  unfold num at 1. rewrite Utf8.of_runes_ascii by apply Itoa_ascii.
  unfold int64_max in Hlen. rewrite Strconv.Atoi_Itoa by lia.
  rewrite wrap64_small by (unfold int64_max; lia).
  rewrite (proj2 (orb_false_iff _ _)) by lia.
  replace (pre ++ num ++ colon :: body ++ post)
    with ((pre ++ num ++ [colon]) ++ body ++ post) by (rewrite <- !app_assoc; done).
  replace (len pre + len num + 1) with (len (pre ++ num ++ [colon]))
    by (autorewrite with go_rw; lia).
  rewrite go_slice_app. unfold body at 1.
  pose proof (string_body_valid p He) as Hb. apply bool_decide_eq_true in Hb. rewrite Hb.
  rewrite decode_string_body.
  2:{ unfold string_encodable in He. by apply andb_true_iff in He as [? _]. }
  cbn [res_bind]. do 2 f_equal. autorewrite with go_rw. lia.
Qed.

(** The runes of one frame, as a list. *)
Definition string_frame_runes (p : Packet) : list Z :=
  (b2z <$> Strconv.Itoa (len (Utf8.runes (string_body p)))) ++ colon ::
  Utf8.runes (string_body p).

Lemma runes_encode_string_payload ps :
  Forall (λ p, string_encodable p = true) ps →
  Utf8.runes (encode_string_payload ps) = concat (string_frame_runes <$> ps).
Proof.
  induction 1 as [|p ps Hp _ IH]; [done|].
  unfold encode_string_payload. cbn [mbind list_bind]. rewrite runes_string_framed by done.
  cbn [fmap list_fmap concat]. unfold encode_string_payload in IH. by rewrite IH.
Qed.

Lemma concat_length_ge {A B} (f : A → list B) l :
  (∀ x, f x ≠ []) → (length l <= length (concat (f <$> l)))%nat.
Proof.
  intros Hf. induction l as [|x l IH]; [done|]. cbn. rewrite length_app.
  specialize (Hf x). destruct (f x); [done|]. simpl. lia.
Qed.

Lemma decode_string_payload ps :
  Forall (λ p, string_encodable p = true) ps →
  len (encode_string_payload ps) <= int64_max →
  decodeStringFramedPayload (encode_string_payload ps) = Ok ps.
Proof.
  intros Hps Hlen. unfold decodeStringFramedPayload.
  pose proof (Utf8.length_runes (encode_string_payload ps)).
  rewrite runes_encode_string_payload in * by done.
  assert (∀ p, string_frame_runes p ≠ []) as Hne.
  { intros p. unfold string_frame_runes. by destruct (b2z <$> _). }
  change 0 with (len (@nil Z)).
  rewrite (frames_loop_concat _ (concat (string_frame_runes <$> ps)) _ ps [] []
             (string_frame_runes <$> ps)); [done|done|..].
  - pose proof (concat_length_ge string_frame_runes ps Hne). lia.
  - apply Forall_fmap, Forall_forall. intros p _. apply Hne.
  - by rewrite length_fmap.
  - intros i f p pre post Hf Hp Hw. rewrite list_lookup_fmap, Hp in Hf. simplify_eq/=.
    rewrite Hw in *. apply string_frame_one; [|unfold string_frame_runes in *; lia].
    apply (Forall_lookup_1 _ _ _ _ Hps Hp).
Qed.

(** ** Binary framing *)

Lemma read_length_digits ds rest cursor n :
  Forall (λ d, 0 <= d < 10) ds → 0 <= n → undigits_from 10 n ds <= int64_max →
  read_length ((z2b <$> ds) ++ binaryLengthTerminator :: rest) cursor n =
  Ok (undigits_from 10 n ds, cursor + len ds + 1).
Proof.
  intros Hds. revert cursor n. induction Hds as [|d ds Hd Hds IH]; intros cursor n Hn Hm;
    cbn [fmap list_fmap app read_length].
  - rewrite decide_True by done. do 2 f_equal. autorewrite with go_rw. lia.
  - assert (b2z (z2b d) = d) as Hb by (apply b2z_z2b_small; lia).
    rewrite decide_False by (intros E; rewrite E in Hb; vm_compute in Hb; lia).
    rewrite Hb. case_match; [lia|].
    assert (n * 10 + d <= undigits_from 10 n (d :: ds)) as Hmono.
    { unfold undigits_from. cbn [foldl].
      enough (∀ m, 0 <= m → m <= foldl (λ n d, n * 10 + d) m ds) as Hf by (apply Hf; lia).
      clear -Hds. induction Hds as [|x ds Hx _ IH]; intros m Hm; cbn; [lia|].
      etrans; [|apply IH]; lia. }
    rewrite (wrap64_small (n * 10)), wrap64_small by lia.
    rewrite IH; [|lia|done]. do 2 f_equal. rewrite len_cons. lia.
Qed.

Lemma decode_binary_body p :
  binary_encodable p = true →
  decodeBinaryFramedPacket (if IsBinary p then binaryBinaryMarker else binaryStringMarker)
    (binary_body p) = Ok p.
Proof.
  destruct p as [t d []]; unfold binary_encodable; cbn [PType IsBinary]; intros Hv.
  - unfold decodeBinaryFramedPacket. rewrite decide_False by done.
    cbn [binary_body IsBinary PType]. by rewrite Hv.
  - unfold decodeBinaryFramedPacket. rewrite decide_True by done.
    by apply (decode_string_body (mkPacket t d false)).
Qed.

Lemma length_field_spec n rest cursor :
  0 <= n <= int64_max →
  read_length (length_field n ++ binaryLengthTerminator :: rest) cursor 0 =
  Ok (n, cursor + len (length_field n) + 1).
Proof.
  unfold int64_max. intros Hn. unfold length_field.
  pose proof (undigits_digits_loop 20 10 n [] ltac:(lia) ltac:(lia)) as Hu.
  unfold undigits in Hu. cbn [undigits_from foldl] in Hu.
  rewrite read_length_digits; unfold undigits_from in *; rewrite ?Hu; unfold int64_max.
  - by rewrite (eq_refl : len (z2b <$> _) = Z.of_nat (length _)), length_fmap.
  - apply digits_loop_range; [lia|constructor].
  - lia.
  - lia.
Qed.

Lemma binary_frame_one p pre post :
  binary_encodable p = true →
  len (pre ++ binary_framed p ++ post) <= int64_max →
  binary_frame (pre ++ binary_framed p ++ post) (len pre) =
  Ok (p, len pre + len (binary_framed p)).
Proof.
  intros He Hlen. unfold binary_frame, binary_framed in *.
  set (marker := if IsBinary p then _ else _) in *.
  set (body := binary_body p) in *. set (field := length_field (len body)) in *.
  pose proof (len_nonneg pre). pose proof (len_nonneg body). pose proof (len_nonneg field).
  pose proof (len_nonneg post).
  assert (len (pre ++ (marker :: field ++ binaryLengthTerminator :: body) ++ post) =
          len pre + 1 + len field + 1 + len body + len post) as Hlens
    by (autorewrite with go_rw; lia).
  rewrite Hlens in *.
  rewrite lookup_app_r by (unfold len; lia).
  replace (Z.to_nat (len pre) - length pre)%nat with 0%nat by (unfold len; lia).
  cbn [app lookup list_lookup].
  assert (bool_decide (marker ≠ binaryStringMarker) &&
          bool_decide (marker ≠ binaryBinaryMarker) = false) as ->
    by (subst marker; by destruct (IsBinary p)).
  rewrite <- app_assoc. cbn [app].
  replace (pre ++ marker :: field ++ binaryLengthTerminator :: body ++ post)
    with ((pre ++ [marker]) ++ field ++ binaryLengthTerminator :: body ++ post)
    by (rewrite <- app_assoc; done).
  replace (len pre + 1) with (len (pre ++ [marker])) by (autorewrite with go_rw; lia).
  rewrite drop_len_app. unfold field at 1.
  rewrite length_field_spec by lia. cbn [res_bind]. fold field.
  rewrite len_app, len_cons, len_nil.
  rewrite wrap64_small by (unfold int64_max in *; lia).
  case_match; [lia|].
  replace ((pre ++ [marker]) ++ field ++ binaryLengthTerminator :: body ++ post)
    with ((pre ++ marker :: field ++ [binaryLengthTerminator]) ++ body ++ post)
    by (rewrite <- !app_assoc; cbn; by rewrite <- app_assoc).
  replace (len pre + (1 + 0) + len field + 1)
    with (len (pre ++ marker :: field ++ [binaryLengthTerminator]))
    by (autorewrite with go_rw; lia).
  rewrite go_slice_app. subst marker body. rewrite decode_binary_body by done.
  cbn [res_bind]. do 2 f_equal. autorewrite with go_rw. lia.
Qed.

Lemma decode_binary_payload ps :
  Forall (λ p, binary_encodable p = true) ps →
  len (encode_binary_payload ps) <= int64_max →
  decodeBinaryFramedPayload (encode_binary_payload ps) = Ok ps.
Proof.
  intros Hps Hlen. unfold decodeBinaryFramedPayload.
  assert (encode_binary_payload ps = concat (binary_framed <$> ps)) as Heq.
  { clear. induction ps as [|p ps IH]; [done|]. unfold encode_binary_payload in *.
    cbn [mbind list_bind fmap list_fmap concat]. by rewrite IH. }
  rewrite Heq in *. change 0 with (len (@nil byte)).
  rewrite (frames_loop_concat _ (concat (binary_framed <$> ps)) _ ps [] []
             (binary_framed <$> ps)); [done|done|..].
  - pose proof (concat_length_ge binary_framed ps ltac:(done)). lia.
  - apply Forall_fmap, Forall_forall. by intros p _.
  - by rewrite length_fmap.
  - intros i f p pre post Hf Hp Hw. rewrite list_lookup_fmap, Hp in Hf. simplify_eq/=.
    rewrite Hw in *. apply binary_frame_one; [|done].
    apply (Forall_lookup_1 _ _ _ _ Hps Hp).
Qed.

(** ** v2 has no binary frames *)

Lemma runes_marker b rest :
  b = binaryStringMarker ∨ b = binaryBinaryMarker →
  Utf8.runes (b :: rest) = b2z b :: Utf8.runes rest.
Proof. by intros [-> | ->]. Qed.

Lemma string_frame_marker b rest :
  b = binaryStringMarker ∨ b = binaryBinaryMarker →
  ∃ e, string_frame (Utf8.runes (b :: rest)) 0 = Err e ∧
       errors_Is e ErrMalformedPayload = true.
Proof.
  intros Hb. rewrite (runes_marker b rest Hb). unfold string_frame. rewrite drop_0. set (rs := Utf8.runes rest).
  assert (slices_Index (b2z b :: rs) (b2z ":"%byte) =
          Z.add 1 <$> slices_Index rs (b2z ":"%byte)) as -> by by destruct Hb as [-> | ->].
  destruct (slices_Index rs _) as [i|] eqn:Hi; [|by eexists].
  apply slices_Index_bound in Hi. clearbody rs. cbn [fmap option_fmap option_map].
  unfold go_slice at 1. rewrite len_cons.
  assert ((0 <=? 0) && (0 <=? 1 + i + 0) && (1 + i + 0 <=? 1 + len rs) = true)
    as -> by lia.
  replace (Z.to_nat (1 + i + 0 - 0)) with (S (Z.to_nat i)) by lia.
  change (Z.to_nat 0) with 0%nat. rewrite drop_0, firstn_cons.
  assert (∀ l, Strconv.Atoi (Utf8.of_runes (b2z b :: l)) = Err (ESentinel strconv_ErrSyntax))
    as ->.
  { intros l. by destruct Hb as [-> | ->]. }
  by eexists.
Qed.

(** ** Properties *)

Lemma encode_string_payload_head ps :
  match encode_string_payload ps with
  | b :: _ => 48 <= b2z b < 58
  | [] => ps = []
  end.
Proof.
  destruct ps as [|p ps]; [done|]. unfold encode_string_payload. cbn [mbind list_bind].
  unfold string_framed. pose proof (Strconv.Itoa_chars (len (Utf8.runes (string_body p)))) as H.
  unfold Strconv.Itoa in *.
  pose proof (digits_loop_not_nil 19 10 (len (Utf8.runes (string_body p))) []) as Hne.
  destruct (digits_loop 20 10 _ _) as [|d ds]; [done|].
  cbn [fmap list_fmap app] in *. by apply Forall_inv in H.
Qed.

(** Both v2 and v3 invert the documented string framing ["<length>:<packet>"], with
    lengths counted in runes and binary packets as ["b<type><base64>"]. *)
Theorem legacy_string_round_trip v ps :
  v = ProtocolVersion2 ∨ v = ProtocolVersion3 →
  Forall (λ p, string_encodable p = true) ps →
  len (encode_string_payload ps) <= int64_max →
  DecodePayload v (encode_string_payload ps) = Ok ps.
Proof.
  intros Hv Hps Hlen. pose proof (decode_string_payload ps Hps Hlen) as H.
  pose proof (encode_string_payload_head ps) as Hh.
  destruct Hv as [-> | ->]; [done|]. unfold DecodePayload. cbn [Z.eqb Pos.eqb].
  destruct (encode_string_payload ps) as [|b rest]; [done|].
  rewrite !bool_decide_eq_false_2; [done|..];
    intros ->; vm_compute in Hh; destruct Hh as [Hh _]; by apply Hh.
Qed.

Lemma legacy_string_round_trip_witness :
  let ps := [text_packet PacketMessage (str "€uro"); mkPacket PacketMessage [xff; x00] true] in
  DecodePayload ProtocolVersion3 (encode_string_payload ps) = Ok ps.
Proof.
  apply legacy_string_round_trip; [by right|repeat constructor|vm_compute; done].
Defined.

(** v3 inverts the documented binary framing: a marker, the byte length one value
    byte per decimal digit, 0xff and the body. *)
Theorem legacy_binary_round_trip ps :
  ps ≠ [] → Forall (λ p, binary_encodable p = true) ps →
  len (encode_binary_payload ps) <= int64_max →
  DecodePayload ProtocolVersion3 (encode_binary_payload ps) = Ok ps.
Proof.
  intros Hne Hps Hlen. pose proof (decode_binary_payload ps Hps Hlen) as H.
  destruct ps as [|p ps]; [done|]. unfold DecodePayload. cbn [Z.eqb Pos.eqb].
  destruct p as [t d []]; exact H.
Qed.

Lemma legacy_binary_round_trip_witness :
  let ps := [text_packet PacketMessage (str "hello"); mkPacket PacketMessage [x04; xff] true] in
  DecodePayload ProtocolVersion3 (encode_binary_payload ps) = Ok ps.
Proof.
  apply legacy_binary_round_trip; [done|repeat constructor|vm_compute; done].
Defined.

(** C40. The loops of both legacy decoders terminate on every input: each iteration
    moves the cursor forward and never past the end, so the fuel given never runs
    out. *)
Theorem legacy_loops_terminate (input : bytes) :
  is_Some (frames_loop (string_frame (Utf8.runes input)) (len (Utf8.runes input))
             (S (length (Utf8.runes input))) 0 []) ∧
  is_Some (frames_loop (binary_frame input) (len input) (S (length input)) 0 []).
Proof. split; [apply string_loop_total|apply binary_loop_total]. Qed.

(** A v2 payload that starts with a v3 binary frame marker is refused as
    malformed. *)
Theorem v2_rejects_binary_frames b rest :
  b = binaryStringMarker ∨ b = binaryBinaryMarker →
  ∃ e, DecodePayload ProtocolVersion2 (b :: rest) = Err e ∧
       errors_Is e ErrMalformedPayload = true.
Proof.
  intros Hb. destruct (string_frame_marker b rest Hb) as (e & He & Hm).
  exists e. split; [|done].
  unfold DecodePayload. cbn [Z.eqb Pos.eqb]. unfold decodeStringFramedPayload.
  assert ((0 <? len (Utf8.runes (b :: rest))) = true) as Hlt.
  { pose proof (len_nonneg (Utf8.runes rest)).
    rewrite (runes_marker b rest Hb), len_cons. lia. }
  cbn [frames_loop]. rewrite Hlt, He. done.
Qed.

Lemma v2_rejects_binary_frames_witness :
  ∃ e, DecodePayload ProtocolVersion2 (x00 :: x01 :: xff :: str "4") = Err e ∧
       errors_Is e ErrMalformedPayload = true.
Proof. apply v2_rejects_binary_frames. by left. Defined.

(** The legacy decoders do not check that [start + length] stays in range: a
    declared length near the top of the [int] range wraps the end position around to
    a negative one, passes the "length exceeds payload" test, and the slice
    expression panics, in both framings; a longer value-byte length wraps around to a
    small length and is accepted. *)
Theorem legacy_length_overflow :
  DecodePayload ProtocolVersion2 (str "9223372036854775807:4a") = Panic ∧
  DecodePayload ProtocolVersion3 (str "9223372036854775807:4a") = Panic ∧
  DecodePayload ProtocolVersion3
    ([x00] ++ length_field 18446744073709551615 ++ [xff] ++ str "4a") = Panic ∧
  DecodePayload ProtocolVersion3
    ([x00] ++ length_field 18446744073709551618 ++ [xff] ++ str "4a") =
  Ok [text_packet PacketMessage (str "a")].
Proof. vm_compute. done. Qed.

(** The legacy decoders produce packets that violate the packet contract: a binary
    packet that is not a message. *)
Theorem legacy_binary_not_message :
  DecodePayload ProtocolVersion3 (str "6:b2AQI=") =
  Ok [mkPacket PacketPing [x01; x02] true] ∧
  well_formed (mkPacket PacketPing [x01; x02] true) = false.
Proof. vm_compute. done. Qed.
