(* ===== verification/Framing.v ===== *)
(** * WebTransport framing (encoding_webtransport.go)

    Every packet travels on one byte stream behind a WebSocket-style length prefix.
    This file models the writer ([appendWebTransportFrame]), the reader
    ([readWebTransportPacket]) over a stream that ends in an error, and the two
    helpers of server_transport_webtransport.go that bound and classify a read. *)

From S2P Require Import Prelude Base64 Packet.

(** ** Streams

    An [io.Reader]: the bytes it will deliver, and the error it ends with ([io.EOF]
    for a clean end).  [ReadFull] is [io.ReadFull]: an end before the first byte is
    reported as the error itself, an [io.EOF] after it as [io.ErrUnexpectedEOF]. *)
Record Stream := mkStream {
  pending : bytes;
  ending : error;
}.

Definition ReadFull (n : Z) (r : Stream) : res bytes * Stream :=
  if len (pending r) >=? n then
    (Ok (take (Z.to_nat n) (pending r)),
     mkStream (drop (Z.to_nat n) (pending r)) (ending r))
  else
    let e := if decide (pending r = []) then ending r
             else if decide (ending r = ESentinel io_EOF) then ESentinel io_ErrUnexpectedEOF
             else ending r in
    (Err e, mkStream [] (ending r)).

(** ** encoding/binary, big endian *)

Definition be_uint16 (n : Z) : bytes := [z2b (n / 2 ^ 8); z2b n].
Definition be_uint64 (n : Z) : bytes :=
  [z2b (n / 2 ^ 56); z2b (n / 2 ^ 48); z2b (n / 2 ^ 40); z2b (n / 2 ^ 32);
   z2b (n / 2 ^ 24); z2b (n / 2 ^ 16); z2b (n / 2 ^ 8); z2b n].
Definition be_value (b : bytes) : Z := undigits 256 (b2z <$> b).

(** ** Constants *)

Definition webTransportLen16Marker : Z := 126.
Definition webTransportLen64Marker : Z := 127.
Definition webTransportBinaryFlag : Z := 0x80.
Definition webTransportReadLimit : Z := Z.shiftl 16 20.

(** The largest allocation the runtime accepts on a 64-bit platform; [make] with a
    longer length panics. *)
Definition max_alloc : Z := 2 ^ 48.

(** ** Writing *)

Definition frame_payload (packet : Packet) : bytes :=
  if IsBinary packet then Data packet else EncodePacket packet.

Definition frame_flag (packet : Packet) : Z :=
  if IsBinary packet then webTransportBinaryFlag else 0.

Definition appendWebTransportFrame (dst : bytes) (packet : Packet) : bytes :=
  let payload := frame_payload packet in
  let flag := frame_flag packet in
  let length := len payload in
  let dst :=
    if length <? webTransportLen16Marker then
      dst ++ [z2b (Z.lor length flag)]
    else if length <? Z.shiftl 1 16 then
      (dst ++ [z2b (Z.lor webTransportLen16Marker flag)]) ++ be_uint16 length
    else
      (dst ++ [z2b (Z.lor webTransportLen64Marker flag)]) ++ be_uint64 length in
  dst ++ payload.

(** [var buffer []byte; for _, packet := range packets { buffer = append...(buffer, packet) }],
    as both transports' [writeFrames] build what they write. *)
Definition frames_buffer (packets : list Packet) : bytes :=
  foldl appendWebTransportFrame [] packets.

(** ** Reading *)

(** The declared length behind the header byte. *)
Definition read_frame_length (marker : Z) (r : Stream) : res Z * Stream :=
  if marker <? webTransportLen16Marker then (Ok marker, r)
  else if marker =? webTransportLen16Marker then
    let '(extended, r) := ReadFull 2 r in
    (let! extended := extended in Ok (be_value extended), r)
  else
    let '(extended, r) := ReadFull 8 r in
    (let! extended := extended in Ok (be_value extended), r).

Definition frame_too_large : error :=
  EWrap "%w: %d > %d" (ESentinel errWebTransportFrameTooLarge).

Definition readWebTransportPacket (r : Stream) (maxPayload : Z) : res Packet * Stream :=
  let '(header, r) := ReadFull 1 r in
  match header with
  | Err e => (Err e, r)
  | Panic => (Panic, r)
  | Ok header =>
      let h := be_value header in
      let isBinary := negb (Z.land h webTransportBinaryFlag =? 0) in
      let '(length, r) := read_frame_length (Z.ldiff h webTransportBinaryFlag) r in
      match length with
      | Err e => (Err e, r)
      | Panic => (Panic, r)
      | Ok length =>
          if (maxPayload >? 0) && (length >? maxPayload) then (Err frame_too_large, r)
          else if length >? max_alloc then (Panic, r)
          else
            let '(payload, r) := ReadFull length r in
            match payload with
            | Err e => (Err e, r)
            | Panic => (Panic, r)
            | Ok payload =>
                if isBinary then (Ok (mkPacket PacketMessage payload true), r)
                else (DecodePacket payload, r)
            end
      end
  end.

(** ** server_transport_webtransport.go: the bound and the classification of a read *)

Definition webTransportServerReadLimit (maxPayload : Z) : Z :=
  if maxPayload <=? 0 then webTransportReadLimit else maxPayload.

Definition isWebTransportParseError (err : error) : bool :=
  errors_Is err errWebTransportFrameTooLarge ||
  errors_Is err ErrEmptyPacket ||
  errors_Is err ErrInvalidPacketType.

Definition eof : error := ESentinel io_EOF.

Example frame_ex1 :
  appendWebTransportFrame [] (text_packet PacketMessage (str "hi")) = x03 :: str "4hi".
Proof. reflexivity. Qed.

Example frame_ex2 :
  readWebTransportPacket (mkStream [x82; x0a; x0b; x00] eof) 100 =
  (Ok (mkPacket PacketMessage [x0a; x0b] true), mkStream [x00] eof).
Proof. reflexivity. Qed.

(** ** Reading what was written *)

Lemma ReadFull_app n a b e :
  len a = n → ReadFull n (mkStream (a ++ b) e) = (Ok a, mkStream b e).
Proof.
  intros <-. unfold ReadFull. cbn [pending ending]. rewrite len_app.
  pose proof (len_nonneg b). case_match; [|lia].
  unfold len. rewrite !Nat2Z.id, take_app_length, drop_app_length. done.
Qed.

Lemma be_value_cons b bs :
  be_value (b :: bs) = b2z b * 256 ^ len bs + be_value bs.
Proof.
  unfold be_value, undigits. cbn [fmap list_fmap].
  assert (∀ n l, undigits_from 256 n l = n * 256 ^ len l + undigits_from 256 0 l) as Hg.
  { intros n l. revert n. induction l as [|x l IH]; intros n.
    - cbn. rewrite len_nil. lia.
    - unfold undigits_from in *. cbn [foldl]. rewrite IH, (IH (0 * 256 + x)), len_cons.
      rewrite Z.pow_add_r by (auto with go; lia). lia. }
  unfold undigits_from at 1. cbn [foldl]. fold (undigits_from 256 (0 * 256 + b2z b) (b2z <$> bs)).
  rewrite Hg. unfold len. rewrite length_fmap. lia.
Qed.

Lemma be_value_nil : be_value [] = 0.
Proof. done. Qed.

Lemma be_value_uint16 n : 0 <= n < 2 ^ 16 → be_value (be_uint16 n) = n.
Proof.
  intros Hn. unfold be_uint16. rewrite !be_value_cons, be_value_nil, !b2z_z2b.
  autorewrite with go_rw. cbn [Z.add Z.pow Z.pow_pos Pos.iter].
  change (2 ^ 8) with 256. change (2 ^ 16) with 65536 in Hn. zlia.
Qed.

Lemma div_256_step n k : 0 <= k → n / 2 ^ (k + 8) = n / 2 ^ k / 256.
Proof.
  intros. rewrite Z.pow_add_r by lia. change (2 ^ 8) with 256.
  symmetry. apply Z.div_div; lia.
Qed.

Lemma be_value_uint64 n : 0 <= n < 2 ^ 64 → be_value (be_uint64 n) = n.
Proof.
  intros Hn. unfold be_uint64. rewrite !be_value_cons, be_value_nil, !b2z_z2b.
  autorewrite with go_rw. change (2 ^ 64) with 18446744073709551616 in Hn.
  rewrite (div_256_step n 48 ltac:(lia) : n / 2 ^ 56 = _),
    (div_256_step n 40 ltac:(lia) : n / 2 ^ 48 = _),
    (div_256_step n 32 ltac:(lia) : n / 2 ^ 40 = _),
    (div_256_step n 24 ltac:(lia) : n / 2 ^ 32 = _),
    (div_256_step n 16 ltac:(lia) : n / 2 ^ 24 = _),
    (div_256_step n 8 ltac:(lia) : n / 2 ^ 16 = _).
  change (2 ^ 8) with 256.
  assert (0 <= n / 256 / 256 / 256 / 256 / 256 / 256 / 256 < 256) as Hg by zlia.
  assert (∀ x, x = x / 256 * 256 + x mod 256) as Hx by (intros; zlia).
  pose proof (Hx n) as E. generalize dependent (n / 256). intros a E Ha.
  pose proof (Hx a) as E1. generalize dependent (a / 256). intros b E1 Hb.
  pose proof (Hx b) as E2. generalize dependent (b / 256). intros c E2 Hc.
  pose proof (Hx c) as E3. generalize dependent (c / 256). intros d E3 Hd.
  pose proof (Hx d) as E4. generalize dependent (d / 256). intros e E4 He.
  pose proof (Hx e) as E5. generalize dependent (e / 256). intros f E5 Hf.
  pose proof (Hx f) as E6. generalize dependent (f / 256). intros g E6 Hg.
  rewrite (Z.mod_small g) by done.
  cbn [Z.add Z.pow Z.pow_pos Pos.iter Pos.add]. lia.
Qed.

(** The header byte keeps the seven-bit length and the flag apart. *)
Lemma header_bits l :
  0 <= l < 128 →
  (be_value [z2b (Z.lor l webTransportBinaryFlag)] = Z.lor l webTransportBinaryFlag ∧
   Z.land (Z.lor l webTransportBinaryFlag) webTransportBinaryFlag = webTransportBinaryFlag ∧
   Z.ldiff (Z.lor l webTransportBinaryFlag) webTransportBinaryFlag = l) ∧
  (be_value [z2b (Z.lor l 0)] = Z.lor l 0 ∧
   Z.land (Z.lor l 0) webTransportBinaryFlag = 0 ∧
   Z.ldiff (Z.lor l 0) webTransportBinaryFlag = l).
Proof. revert l. apply (forall_seqZ _ 0 128). vm_compute. reflexivity. Qed.

(** The header of a frame: the marker byte and the extended length. *)
Definition frame_header (packet : Packet) : bytes :=
  let length := len (frame_payload packet) in
  let flag := frame_flag packet in
  if length <? webTransportLen16Marker then [z2b (Z.lor length flag)]
  else if length <? Z.shiftl 1 16 then
    z2b (Z.lor webTransportLen16Marker flag) :: be_uint16 length
  else z2b (Z.lor webTransportLen64Marker flag) :: be_uint64 length.

Lemma appendWebTransportFrame_eq dst p :
  appendWebTransportFrame dst p = dst ++ frame_header p ++ frame_payload p.
Proof.
  unfold appendWebTransportFrame, frame_header.
  destruct (_ <? webTransportLen16Marker); [by rewrite <- app_assoc|].
  destruct (_ <? Z.shiftl 1 16); by rewrite <- !app_assoc.
Qed.

Lemma frames_buffer_eq ps :
  frames_buffer ps = ps ≫= λ p, frame_header p ++ frame_payload p.
Proof.
  unfold frames_buffer.
  enough (∀ dst, foldl appendWebTransportFrame dst ps =
                 dst ++ (ps ≫= λ p, frame_header p ++ frame_payload p)) as H by apply H.
  induction ps as [|p ps IH]; intros dst; cbn [foldl mbind list_bind].
  - by rewrite app_nil_r.
  - rewrite IH, appendWebTransportFrame_eq, <- app_assoc. done.
Qed.

Definition marker_of (h : Z) : Z := Z.ldiff h webTransportBinaryFlag.
Definition flagged (h : Z) : bool := negb (Z.land h webTransportBinaryFlag =? 0).

(** Reading a header gives the payload length and the flag back. *)
Lemma read_header p rest e :
  len (frame_payload p) < 2 ^ 64 →
  ∃ h tail, frame_header p = h :: tail ∧
    flagged (be_value [h]) = IsBinary p ∧
    read_frame_length (marker_of (be_value [h])) (mkStream (tail ++ rest) e) =
    (Ok (len (frame_payload p)), mkStream rest e).
Proof.
  intros Hlen. pose proof (len_nonneg (frame_payload p)) as Hnn.
  unfold frame_header. set (n := len (frame_payload p)) in *. clearbody n.
  assert (∀ l, 0 <= l < 128 → flagged (be_value [z2b (Z.lor l (frame_flag p))]) = IsBinary p ∧
            marker_of (be_value [z2b (Z.lor l (frame_flag p))]) = l) as Hh.
  { intros l Hl. destruct (header_bits l Hl) as [(H1 & H2 & H3) (H4 & H5 & H6)].
    unfold frame_flag, flagged, marker_of. destruct (IsBinary p).
    - by rewrite H1, H2, H3.
    - by rewrite H4, H5, H6. }
  destruct (n <? webTransportLen16Marker) eqn:H1; [|destruct (n <? Z.shiftl 1 16) eqn:H2];
    unfold webTransportLen16Marker, webTransportLen64Marker in *; eexists _, _;
    (split; [done|]).
  - destruct (Hh n) as [-> ->]; [lia|]. split; [done|].
    unfold read_frame_length, webTransportLen16Marker. by rewrite H1.
  - destruct (Hh 126) as [-> ->]; [lia|]. split; [done|].
    unfold read_frame_length, webTransportLen16Marker. cbn [Z.ltb Z.eqb Z.compare Pos.compare
      Pos.compare_cont Pos.eqb].
    rewrite ReadFull_app by done. cbn [res_bind].
    rewrite be_value_uint16 by (change (Z.shiftl 1 16) with (2 ^ 16) in H2; lia). done.
  - destruct (Hh 127) as [-> ->]; [lia|]. split; [done|].
    unfold read_frame_length, webTransportLen16Marker. cbn [Z.ltb Z.eqb Z.compare Pos.compare
      Pos.compare_cont Pos.eqb].
    rewrite ReadFull_app by done. cbn [res_bind].
    rewrite be_value_uint64 by lia. done.
Qed.

(** The limit in force accepts a payload of this length. *)
Definition within_limit (maxPayload n : Z) : bool :=
  (maxPayload <=? 0) || (n <=? maxPayload).

Lemma read_written_frame p rest e maxPayload :
  well_formed p = true → len (frame_payload p) <= max_alloc →
  within_limit maxPayload (len (frame_payload p)) = true →
  readWebTransportPacket
    (mkStream (frame_header p ++ frame_payload p ++ rest) e) maxPayload =
  (Ok p, mkStream rest e).
Proof.
  intros Hwf Ha Hl. unfold max_alloc, within_limit in *.
  destruct (read_header p (frame_payload p ++ rest) e) as (h & tail & -> & Hf & Hr); [lia|].
  unfold readWebTransportPacket. cbn [app].
  rewrite (ReadFull_app 1 [h] (tail ++ frame_payload p ++ rest)) by done.
  fold (marker_of (be_value [h])) (flagged (be_value [h])). rewrite Hr, Hf.
  rewrite (proj2 (andb_false_iff _ _)) by lia.
  unfold max_alloc. case_match; [lia|].
  rewrite ReadFull_app by done. destruct p as [t d []]; cbn [IsBinary].
  - apply well_formed_binary in Hwf as ->. done.
  - unfold frame_payload. cbn [IsBinary]. by rewrite decode_encode_packet.
Qed.

(** ** What a read consumes *)

Lemma ReadFull_inv n r b r' :
  0 <= n → ReadFull n r = (Ok b, r') →
  len b = n ∧ pending r = b ++ pending r' ∧ ending r' = ending r.
Proof.
  intros Hn. unfold ReadFull. case_match eqn:Hc; intros H; simplify_eq/=.
  split_and!; [|by rewrite take_drop|done].
  unfold len in *. rewrite length_take. lia.
Qed.

Lemma ReadFull_no_panic n r : (ReadFull n r).1 ≠ Panic.
Proof. unfold ReadFull. by case_match. Qed.

Lemma be_value_nonneg b : 0 <= be_value b < 256 ^ len b.
Proof.
  induction b as [|x b IH]; [done|].
  rewrite be_value_cons, len_cons, Z.pow_add_r by (auto with go; lia).
  pose proof (b2z_range x). change (256 ^ 1) with 256.
  assert (0 < 256 ^ len b) by (apply Z.pow_pos_nonneg; auto with go; lia). nia.
Qed.

Lemma read_frame_length_inv marker r n r' :
  0 <= marker → read_frame_length marker r = (Ok n, r') →
  0 <= n < 2 ^ 64 ∧ ∃ ext, pending r = ext ++ pending r' ∧ len ext <= 8 ∧
  ending r' = ending r.
Proof.
  intros Hm. unfold read_frame_length, webTransportLen16Marker.
  destruct (marker <? 126) eqn:H1; [|destruct (marker =? 126) eqn:H2].
  - intros; simplify_eq. split; [lia|]. exists []. by rewrite len_nil.
  - destruct (ReadFull 2 r) as [[b|?|] r1] eqn:Hr; intros; simplify_eq/=.
    apply ReadFull_inv in Hr as (Hb & Hp & He); [|lia].
    pose proof (be_value_nonneg b) as Hv. rewrite Hb in Hv.
    split; [lia|]. exists b. split_and!; [done|lia|done].
  - destruct (ReadFull 8 r) as [[b|?|] r1] eqn:Hr; intros; simplify_eq/=.
    apply ReadFull_inv in Hr as (Hb & Hp & He); [|lia].
    pose proof (be_value_nonneg b) as Hv. rewrite Hb in Hv.
    split; [lia|]. exists b. split_and!; [done|lia|done].
Qed.

Lemma read_frame_length_no_panic marker r : (read_frame_length marker r).1 ≠ Panic.
Proof.
  unfold read_frame_length. pose proof (ReadFull_no_panic 2 r). pose proof (ReadFull_no_panic 8 r).
  case_match; [done|]. destruct (ReadFull 2 r) as [[]], (ReadFull 8 r) as [[]];
    by case_match; simplify_eq/=.
Qed.

(** ** Reading every packet

    The read loops read packets until a read fails.  [read_all] is that loop, with
    fuel for the number of reads. *)
Fixpoint read_all (fuel : nat) (r : Stream) (maxPayload : Z) : option (list Packet * error) :=
  match fuel with
  | O => None
  | S fuel =>
      match readWebTransportPacket r maxPayload with
      | (Ok p, r) => '(ps, e) ← read_all fuel r maxPayload; Some (p :: ps, e)
      | (Err e, _) => Some ([], e)
      | (Panic, _) => None
      end
  end.

Lemma read_all_S fuel r m :
  read_all (S fuel) r m =
  match readWebTransportPacket r m with
  | (Ok p, r) => '(ps, e) ← read_all fuel r m; Some (p :: ps, e)
  | (Err e, _) => Some ([], e)
  | (Panic, _) => None
  end.
Proof. done. Qed.

Lemma read_all_written ps maxPayload e :
  Forall (λ p, well_formed p = true ∧ len (frame_payload p) <= max_alloc ∧
               within_limit maxPayload (len (frame_payload p)) = true) ps →
  read_all (S (length ps)) (mkStream (frames_buffer ps) e) maxPayload = Some (ps, e).
Proof.
  rewrite frames_buffer_eq. induction 1 as [|p ps (Hwf & Ha & Hl) _ IH].
  - done.
  - rewrite bind_cons, <- app_assoc. cbn [length].
    rewrite read_all_S, read_written_frame by done. by rewrite IH.
Qed.

(** ** Properties *)

(** Reading the frame of a well-formed packet within the limit gives the packet
    back and leaves the stream exactly after the frame, for all three widths of the
    length field. *)
Theorem frame_round_trip p rest e maxPayload dst :
  well_formed p = true → len (frame_payload p) <= max_alloc →
  within_limit maxPayload (len (frame_payload p)) = true →
  drop (length dst) (appendWebTransportFrame dst p ++ rest) =
    appendWebTransportFrame [] p ++ rest ∧
  readWebTransportPacket (mkStream (appendWebTransportFrame [] p ++ rest) e) maxPayload =
    (Ok p, mkStream rest e).
Proof.
  intros. rewrite !appendWebTransportFrame_eq. split.
  - by rewrite <- app_assoc, drop_app_length.
  - cbn [app]. rewrite <- app_assoc. by apply read_written_frame.
Qed.

Lemma frame_round_trip_witness :
  let p := mkPacket PacketMessage (replicate 200 x2a) true in
  drop 1 (appendWebTransportFrame [x00] p ++ [x07]) = appendWebTransportFrame [] p ++ [x07] ∧
  readWebTransportPacket (mkStream (appendWebTransportFrame [] p ++ [x07]) eof) 200 =
  (Ok p, mkStream [x07] eof).
Proof. apply (frame_round_trip _ _ _ _ [x00]); vm_compute; done. Defined.

(** A peer that reads the buffer [writeFrames] wrote recovers every packet in
    order and then sees the end of the stream. *)
Theorem frames_stream_round_trip ps maxPayload e :
  Forall (λ p, well_formed p = true ∧ len (frame_payload p) <= max_alloc ∧
               within_limit maxPayload (len (frame_payload p)) = true) ps →
  read_all (S (length ps)) (mkStream (frames_buffer ps) e) maxPayload = Some (ps, e).
Proof. apply read_all_written. Qed.

Lemma frames_stream_round_trip_witness :
  let ps := [packet_of PacketPing; mkPacket PacketMessage [] true;
             text_packet PacketMessage (str "x")] in
  read_all 4 (mkStream (frames_buffer ps) eof) 16 = Some (ps, eof).
Proof. apply frames_stream_round_trip. repeat constructor; vm_compute; done. Defined.

Lemma read_bounded r limit :
  0 < limit <= max_alloc →
  (readWebTransportPacket r limit).1 ≠ Panic ∧
  ∀ p r', readWebTransportPacket r limit = (Ok p, r') →
    ∃ header payload, pending r = header ++ payload ++ pending r' ∧
      1 <= len header <= 9 ∧ len payload <= limit.
Proof.
  intros Hlim. unfold readWebTransportPacket.
  destruct (ReadFull 1 r) as [[hd|e|] r1] eqn:H1; [|done|].
  2:{ pose proof (ReadFull_no_panic 1 r) as Hp. by rewrite H1 in Hp. }
  apply ReadFull_inv in H1 as (Hhd & Hp1 & _); [|lia].
  pose proof (be_value_nonneg hd) as Hh. rewrite Hhd in Hh.
  assert (0 <= Z.ldiff (be_value hd) webTransportBinaryFlag) as Hm
    by (apply Z.ldiff_nonneg; lia).
  destruct (read_frame_length _ r1) as [[n|e|] r2] eqn:H2; [|done|].
  2:{ pose proof (read_frame_length_no_panic (Z.ldiff (be_value hd) webTransportBinaryFlag) r1)
        as Hp. by rewrite H2 in Hp. }
  apply read_frame_length_inv in H2 as (Hn & ext & Hp2 & Hext & _); [|done].
  destruct ((limit >? 0) && (n >? limit)) eqn:Hover; [done|].
  destruct (n >? max_alloc) eqn:Halloc; [lia|].
  destruct (ReadFull n r2) as [[body|e|] r3] eqn:H3; [|done|].
  2:{ pose proof (ReadFull_no_panic n r2) as Hp. by rewrite H3 in Hp. }
  apply ReadFull_inv in H3 as (Hbody & Hp3 & _); [|lia].
  split; [destruct (negb _); [done|apply DecodePacket_no_panic]|].
  intros p r' Hout. exists (hd ++ ext), body.
  pose proof (len_nonneg ext).
  rewrite len_app. split_and!; [|lia|lia|lia].
  assert (r' = r3) as -> by (destruct (negb _); by simplify_eq).
  by rewrite Hp1, Hp2, Hp3, <- app_assoc.
Qed.

Lemma read_oversized p rest e limit :
  0 < limit < len (frame_payload p) → len (frame_payload p) < 2 ^ 64 →
  readWebTransportPacket (mkStream (frame_header p ++ rest) e) limit =
  (Err frame_too_large, mkStream rest e).
Proof.
  intros Hlim Hlen. destruct (read_header p rest e Hlen) as (h & tail & -> & Hf & Hr).
  unfold readWebTransportPacket. cbn [app].
  rewrite (ReadFull_app 1 [h] (tail ++ rest)) by done.
  fold (marker_of (be_value [h])) (flagged (be_value [h])). rewrite Hr.
  by rewrite (proj2 (andb_true_iff _ _)) by lia.
Qed.

Lemma server_limit_range maxPayload :
  maxPayload <= max_alloc → 0 < webTransportServerReadLimit maxPayload <= max_alloc.
Proof.
  unfold webTransportServerReadLimit, webTransportReadLimit, max_alloc.
  change (Z.shiftl 16 20) with 16777216. case_match; lia.
Qed.



(** A stream that ends right after a header byte, before the extended length or
    before a non-empty payload, is reported as a clean [io.EOF], although the frame is
    cut short; [io.ErrUnexpectedEOF] is only reported when the missing part had
    already begun. *)
Theorem truncated_frame_reports_eof :
  readWebTransportPacket (mkStream [] eof) 16 = (Err eof, mkStream [] eof) ∧
  readWebTransportPacket (mkStream [x05] eof) 16 = (Err eof, mkStream [] eof) ∧
  readWebTransportPacket (mkStream [x7e] eof) 16 = (Err eof, mkStream [] eof) ∧
  readWebTransportPacket (mkStream [x05; x34] eof) 16 =
    (Err (ESentinel io_ErrUnexpectedEOF), mkStream [] eof).
Proof. vm_compute. done. Qed.

(** A packet decode error is not always classified as a parse error: a text frame
    that holds a binary packet with corrupt base64 fails to decode, but
    [isWebTransportParseError] does not recognise the error. *)
Theorem base64_error_not_a_parse_error :
  ∃ e, (readWebTransportPacket (mkStream (x03 :: str "b**") eof) 16).1 = Err e ∧
       DecodePacket (str "b**") = Err e ∧ isWebTransportParseError e = false.
Proof. eexists. split_and!; reflexivity. Qed.
