(* ===== verification/Yeast.v ===== *)
(** * Cache-busting identifiers (yeast.go)

    [yeastEncode] and the generator [next].  A generator is its [seed] and
    [previousMillis]; the clock reading is an argument of [next].  The mutex makes
    each call of [next] one step, so concurrent callers are a sequence of steps. *)

From S2P Require Import Prelude.

Definition yeastAlphabet : bytes :=
  str "0123456789ABCDEFGHIJKLMNOPQRSTUVWXYZabcdefghijklmnopqrstuvwxyz-_".

Definition yeast_base : Z := len yeastAlphabet.

(** [yeastAlphabet[i]]: an index out of range panics. *)
Definition alphabet_at (i : Z) : option byte :=
  if 0 <=? i then yeastAlphabet !! Z.to_nat i else None.

(** The loop of [yeastEncode]; Go's [%] and [/] truncate.  [fuel] bounds the digits,
    [None] is running out of it. *)
Fixpoint yeast_loop (fuel : nat) (num : Z) (encoded : bytes) : option (res bytes) :=
  match fuel with
  | O => None
  | S fuel =>
      match alphabet_at (Z.rem num yeast_base) with
      | None => Some Panic
      | Some c =>
          let encoded := c :: encoded in
          let num := Z.quot num yeast_base in
          if num =? 0 then Some (Ok encoded) else yeast_loop fuel num encoded
      end
  end.

(** Eleven digits suffice for an [int64]: 64 ^ 11 exceeds 2 ^ 63. *)
Definition yeast_fuel : nat := 11.

Definition yeastEncode (num : Z) : res bytes :=
  default Panic (yeast_loop yeast_fuel num []).

Record yeastGenerator := mkYeast {
  seed : Z;
  previousMillis : Z;
}.

Definition defaultYeast : yeastGenerator := mkYeast 0 0.

(** [next], with [now] the value of [time.Now().UnixMilli()]. *)
Definition yeast_next (now : Z) (g : yeastGenerator) : res bytes * yeastGenerator :=
  let millis := Z.max now (previousMillis g) in
  if negb (millis =? previousMillis g) then
    (yeastEncode millis, mkYeast 0 millis)
  else
    let seq := seed g in
    (let! m := yeastEncode millis in
     let! s := yeastEncode seq in
     Ok (m ++ str "." ++ s),
     mkYeast (wrap64 (seed g + 1)) (previousMillis g)).

(** The values of successive calls, given the clock readings they observe. *)
Fixpoint yeast_run (clock : list Z) (g : yeastGenerator) : list (res bytes) :=
  match clock with
  | [] => []
  | now :: clock => let '(v, g) := yeast_next now g in v :: yeast_run clock g
  end.

Example yeast_ex :
  yeast_run [1700000000000; 1700000000000; 1699999999999; 1700000000001] defaultYeast =
  [Ok (str "OlFvMW0"); Ok (str "OlFvMW0.0"); Ok (str "OlFvMW0.1"); Ok (str "OlFvMW1")].
Proof. vm_compute. reflexivity. Qed.

(** ** The encoding *)

Definition digit_char (d : Z) : byte := default x00 (yeastAlphabet !! Z.to_nat d).

Lemma alphabet_at_digit d : 0 <= d < 64 → alphabet_at d = Some (digit_char d).
Proof. revert d. apply (forall_seqZ _ 0 64). vm_compute. reflexivity. Qed.

Lemma yeast_loop_digits fuel num encoded :
  0 <= num < 64 ^ Z.of_nat fuel → (0 < fuel)%nat →
  yeast_loop fuel num encoded = Some (Ok ((digit_char <$> digits_loop fuel 64 num []) ++ encoded)).
Proof.
  revert num encoded. induction fuel as [|fuel IH]; intros num encoded Hn Hf; [lia|].
  cbn [yeast_loop digits_loop]. change yeast_base with 64.
  rewrite Z.rem_mod_nonneg, Z.quot_div_nonneg by lia.
  rewrite alphabet_at_digit by (apply Z.mod_pos_bound; lia).
  destruct (num / 64 =? 0) eqn:Hz; [done|].
  rewrite Nat2Z.inj_succ, Z.pow_succ_r in Hn by lia.
  assert (0 <= num / 64 < 64 ^ Z.of_nat fuel) as Hn'.
  { split; [apply Z.div_pos; lia|apply Z.div_lt_upper_bound; lia]. }
  destruct fuel as [|fuel]; [simpl in Hn'; lia|].
  rewrite IH by (done || lia). rewrite (digits_loop_app _ _ _ [_]), fmap_app, <- app_assoc. done.
Qed.

Lemma yeastEncode_digits num :
  0 <= num <= int64_max →
  yeastEncode num = Ok (digit_char <$> digits_loop yeast_fuel 64 num []).
Proof.
  unfold int64_max. intros Hn. unfold yeastEncode.
  rewrite yeast_loop_digits; [by rewrite app_nil_r|change (Z.of_nat yeast_fuel) with 11; lia|].
  unfold yeast_fuel. lia.
Qed.

(** A negative number indexes the alphabet out of range. *)
Lemma yeast_loop_negative fuel num encoded :
  - 64 ^ Z.of_nat fuel < num < 0 → yeast_loop fuel num encoded = Some Panic.
Proof.
  revert num encoded. induction fuel as [|fuel IH]; intros num encoded Hn; [simpl in Hn; lia|].
  cbn [yeast_loop]. change yeast_base with 64.
  pose proof (Z.quot_rem num 64 ltac:(lia)) as Hqr.
  pose proof (Z.rem_nonpos num 64 ltac:(lia) ltac:(lia)) as Hr.
  unfold alphabet_at. destruct (0 <=? Z.rem num 64) eqn:H0; [|done].
  assert (Z.rem num 64 = 0) as Hz by lia. rewrite Hz in *. cbn [Z.to_nat].
  rewrite Nat2Z.inj_succ, Z.pow_succ_r in Hn by lia.
  destruct (Z.quot num 64 =? 0) eqn:Hq; [lia|]. apply IH. lia.
Qed.

(** The digit of a character. *)
Definition char_digit (b : byte) : Z :=
  default 0 (Z.of_nat <$> (fst <$> list_find (λ x, x = b) yeastAlphabet)).

Lemma char_digit_char d : 0 <= d < 64 → char_digit (digit_char d) = d.
Proof. revert d. apply (forall_seqZ _ 0 64). vm_compute. reflexivity. Qed.

Lemma digit_char_not_dot d : 0 <= d < 64 → digit_char d ≠ "."%byte.
Proof. revert d. apply (forall_seqZ _ 0 64). vm_compute. reflexivity. Qed.

(** The number an encoding stands for. *)
Definition yeast_value (s : bytes) : Z := undigits 64 (char_digit <$> s).

Lemma yeast_value_encode n s :
  0 <= n <= int64_max → yeastEncode n = Ok s → yeast_value s = n.
Proof.
  intros Hn. rewrite yeastEncode_digits by done. intros H.
  assert (s = digit_char <$> digits_loop yeast_fuel 64 n []) as -> by congruence.
  unfold yeast_value. rewrite <- list_fmap_compose.
  pose proof (digits_loop_range yeast_fuel 64 n [] ltac:(lia) ltac:(constructor)) as Hr.
  pose proof (undigits_digits_loop yeast_fuel 64 n [] ltac:(lia)) as Hu.
  rewrite (list_fmap_ext _ id).
  - rewrite list_fmap_id, Hu; [done|].
    unfold int64_max in Hn. change (Z.of_nat yeast_fuel) with 11. lia.
  - intros i d Hd. apply char_digit_char. by apply (Forall_lookup_1 _ _ _ _ Hr Hd).
Qed.

Lemma yeastEncode_no_dot n s :
  0 <= n <= int64_max → yeastEncode n = Ok s → "."%byte ∉ s.
Proof.
  intros Hn. rewrite yeastEncode_digits by done. intros H.
  assert (s = digit_char <$> digits_loop yeast_fuel 64 n []) as -> by congruence.
  intros (d & Hd & Hin)%list_elem_of_fmap.
  pose proof (digits_loop_range yeast_fuel 64 n [] ltac:(lia) ltac:(constructor)) as Hr.
  rewrite Forall_forall in Hr. apply list_elem_of_In, Hr in Hin.
  by destruct (digit_char_not_dot d Hin).
Qed.

Lemma yeastEncode_Ok n : 0 <= n <= int64_max → ∃ s, yeastEncode n = Ok s.
Proof. intros. rewrite yeastEncode_digits by done. by eexists. Qed.

(** ** Uniqueness

    A value is determined by its key: the millisecond, and the sequence number when
    there is one ([-1] when there is none).  Keys grow from call to call. *)

Definition yeast_key : Type := Z * Z.

Definition key_value (k : yeast_key) : res bytes :=
  let '(m, s) := k in
  if s <? 0 then yeastEncode m
  else let! m := yeastEncode m in let! s := yeastEncode s in Ok (m ++ str "." ++ s).

Definition key_ok (k : yeast_key) : Prop :=
  0 <= k.1 <= int64_max ∧ -1 <= k.2 <= int64_max.

(** The key precedes everything the generator will still emit. *)
Definition key_before (k : yeast_key) (g : yeastGenerator) : Prop :=
  k.1 < previousMillis g ∨ (k.1 = previousMillis g ∧ k.2 < seed g).

Lemma app_dot_inj (a b c d : bytes) :
  "."%byte ∉ a → "."%byte ∉ b → a ++ str "." ++ c = b ++ str "." ++ d → a = b ∧ c = d.
Proof.
  revert b. induction a as [|x a IH]; intros [|y b] Ha Hb H; simplify_eq/=.
  - done.
  - set_solver.
  - set_solver.
  - destruct (IH b) as [-> ->]; [set_solver|set_solver|done|done].
Qed.

Lemma key_value_inj k1 k2 v :
  key_ok k1 → key_ok k2 → key_value k1 = Ok v → key_value k2 = Ok v → k1 = k2.
Proof.
  destruct k1 as [m1 s1], k2 as [m2 s2]. intros [Hm1 Hs1] [Hm2 Hs2]. cbn [fst snd] in *.
  destruct (yeastEncode_Ok m1) as [e1 E1]; [done|].
  destruct (yeastEncode_Ok m2) as [e2 E2]; [done|].
  pose proof (yeast_value_encode _ _ Hm1 E1) as V1.
  pose proof (yeast_value_encode _ _ Hm2 E2) as V2.
  pose proof (yeastEncode_no_dot _ _ Hm1 E1). pose proof (yeastEncode_no_dot _ _ Hm2 E2).
  unfold key_value. rewrite E1, E2. cbn [res_bind].
  destruct (s1 <? 0) eqn:N1, (s2 <? 0) eqn:N2.
  - intros [= ->] [= ->]. f_equal; [congruence|lia].
  - destruct (yeastEncode_Ok s2) as [f2 F2]; [lia|]. rewrite F2. cbn [res_bind].
    intros [= ->] [= Hv]. rewrite <- Hv in *. set_solver.
  - destruct (yeastEncode_Ok s1) as [f1 F1]; [lia|]. rewrite F1. cbn [res_bind].
    intros [= Hv] [= ->]. rewrite <- Hv in *. set_solver.
  - destruct (yeastEncode_Ok s1) as [f1 F1]; [lia|].
    destruct (yeastEncode_Ok s2) as [f2 F2]; [lia|]. rewrite F1, F2. cbn [res_bind].
    intros Hv1 Hv2. rewrite <- Hv2 in Hv1. injection Hv1 as Hv1.
    apply app_dot_inj in Hv1 as [-> ->]; [|done..].
    assert (0 <= s1 <= int64_max) as Hr1 by lia. assert (0 <= s2 <= int64_max) as Hr2 by lia.
    pose proof (yeast_value_encode _ _ Hr1 F1). pose proof (yeast_value_encode _ _ Hr2 F2).
    congruence.
Qed.

Lemma key_value_Ok k : key_ok k → ∃ v, key_value k = Ok v.
Proof.
  destruct k as [m s]. intros [Hm Hs]. cbn [fst snd] in *. unfold key_value.
  destruct (yeastEncode_Ok m) as [e ->]; [done|]. destruct (s <? 0) eqn:H0; [by eexists|].
  destruct (yeastEncode_Ok s) as [f ->]; [lia|]. by eexists.
Qed.

(** One call emits the value of a key that everything emitted before precedes. *)
Lemma yeast_next_key now g :
  now <= int64_max → 0 <= previousMillis g <= int64_max → 0 <= seed g < int64_max →
  ∃ k, (yeast_next now g).1 = key_value k ∧ key_ok k ∧
    (∀ k', key_before k' g → key_before k' (yeast_next now g).2 ∧ k' ≠ k) ∧
    key_before k (yeast_next now g).2 ∧
    0 <= previousMillis (yeast_next now g).2 <= int64_max ∧
    0 <= seed (yeast_next now g).2 <= seed g + 1.
Proof.
  intros Hnow Hp Hs. unfold yeast_next.
  destruct (Z.max now (previousMillis g) =? previousMillis g) eqn:Hm; cbn [negb fst snd].
  - exists (previousMillis g, seed g). unfold key_ok, key_before. cbn [fst snd seed previousMillis].
    rewrite wrap64_small by lia.
    replace (Z.max now (previousMillis g)) with (previousMillis g) by lia.
    split_and!; try lia.
    + unfold key_value. by destruct (seed g <? 0) eqn:?; [lia|].
    + intros [m s]. cbn. intros H. split; [lia|]. intros ?. simplify_eq. lia.
  - exists (Z.max now (previousMillis g), -1). unfold key_ok, key_before.
    cbn [fst snd seed previousMillis]. split_and!; try lia; [done|].
    intros [m s]. cbn. intros H. split; [lia|]. intros ?. simplify_eq. lia.
Qed.

Lemma yeast_run_keys clock g :
  Forall (λ now, now <= int64_max) clock →
  0 <= previousMillis g <= int64_max → 0 <= seed g → seed g + len clock <= int64_max →
  ∃ ks, yeast_run clock g = key_value <$> ks ∧ Forall key_ok ks ∧ NoDup ks ∧
    ∀ k', key_before k' g → k' ∉ ks.
Proof.
  intros Hc. revert g. induction Hc as [|now clock Hnow Hc IH]; intros g Hp Hs Hlen.
  - exists []. split_and!; [done|constructor..|set_solver].
  - rewrite len_cons in Hlen. pose proof (len_nonneg clock).
    destruct (yeast_next_key now g) as (k & Hk & Hok & Hbefore & Hkb & Hp' & Hs'); [lia..|].
    cbn [yeast_run]. destruct (yeast_next now g) as [v g']. cbn [fst snd] in *.
    destruct (IH g') as (ks & Hrun & Hoks & Hnd & Hout); [lia..|].
    exists (k :: ks). rewrite Hrun, Hk. split_and!; [done|by constructor|constructor; auto|].
    intros k' Hk'. apply Hbefore in Hk' as [Hk' Hne]. apply not_elem_of_cons.
    split; [done|auto].
Qed.

(** ** Properties *)

(** Every value the shared generator hands out is different from every other,
    whatever clock readings its callers observe (repeated, or going backwards), and no
    call panics. *)
Theorem yeast_values_distinct clock :
  Forall (λ now, now <= int64_max) clock → len clock <= int64_max →
  NoDup (yeast_run clock defaultYeast) ∧
  Forall (λ v, is_Ok v = true) (yeast_run clock defaultYeast).
Proof.
  intros Hc Hlen.
  destruct (yeast_run_keys clock defaultYeast) as (ks & -> & Hok & Hnd & _);
    [done|cbn; unfold int64_max; lia|done|done|].
  split.
  - apply NoDup_fmap_2_strong; [|done]. intros k1 k2 H1 H2 Heq.
    rewrite Forall_forall in Hok. apply list_elem_of_In, Hok in H1, H2.
    destruct (key_value_Ok k1 H1) as [v Hv]. apply (key_value_inj k1 k2 v); congruence.
  - apply Forall_fmap. eapply Forall_impl; [|exact Hok]. intros k Hk.
    destruct (key_value_Ok k Hk) as [v Hv]. unfold compose. by rewrite Hv.
Qed.

Lemma yeast_values_distinct_witness :
  NoDup (yeast_run [5; 5; 3; 7; 7] defaultYeast) ∧
  Forall (λ v, is_Ok v = true) (yeast_run [5; 5; 3; 7; 7] defaultYeast).
Proof.
  apply (yeast_values_distinct [5; 5; 3; 7; 7]); [|by vm_compute].
  do 5 (constructor; [by vm_compute|]). constructor.
Defined.

(** [yeastEncode] of a non-negative [int64] is its base-64 numeral, most
    significant digit first: it terminates within eleven digits, all of them
    characters of the URL-safe alphabet, and the number can be read back; of a
    negative number it panics. *)
Theorem yeastEncode_numeral num :
  num <= int64_max → - 2 ^ 63 <= num →
  if 0 <=? num then
    ∃ s, yeastEncode num = Ok s ∧ yeast_value s = num ∧ (1 <= length s <= 11)%nat ∧
         Forall (λ c, c ∈ yeastAlphabet) s
  else yeast_loop yeast_fuel num [] = Some Panic.
Proof.
  intros Hmax Hmin. destruct (0 <=? num) eqn:H0.
  - assert (0 <= num <= int64_max) as Hn by lia.
    pose proof (yeastEncode_digits num Hn) as He.
    exists (digit_char <$> digits_loop yeast_fuel 64 num []). split_and!.
    + done.
    + by apply yeast_value_encode.
    + pose proof (digits_loop_not_nil 10 64 num []). rewrite length_fmap.
      unfold yeast_fuel. destruct digits_loop; [done|simpl; lia].
    + rewrite length_fmap. apply (digits_loop_length 11 64 num []).
    + apply Forall_fmap.
      eapply Forall_impl; [|apply (digits_loop_range _ 64 num []); [lia|constructor]].
      intros d Hd. apply alphabet_at_digit in Hd. unfold alphabet_at in Hd.
      destruct (0 <=? d); [|done]. by eapply list_elem_of_lookup_2.
  - apply yeast_loop_negative. change (Z.of_nat yeast_fuel) with 11. lia.
Qed.

Lemma yeastEncode_numeral_witness :
  ∃ s, yeastEncode 4095 = Ok s ∧ yeast_value s = 4095 ∧ (1 <= length s <= 11)%nat ∧
       Forall (λ c, c ∈ yeastAlphabet) s.
Proof. apply (yeastEncode_numeral 4095); vm_compute; done. Defined.
