(* ===== verification/Http.v ===== *)
(** * The parts of net/http the server uses

    A [Request] is what the handlers read of an [*http.Request]; a [ResponseWriter] is
    what they build.  Header names are written in canonical form, as [http.Header]
    stores them, and a query is the list of its decoded pairs.  This is the standard
    library as the source uses it, so nothing here is a definition of the source. *)
From S2P Require Import Prelude Unicode.

Abbreviation values := (list (bytes * bytes)).

(** [Values.Get] and [Header.Get]: the first value of the key, or the empty string. *)
Fixpoint Get (key : bytes) (l : values) : bytes :=
  match l with
  | [] => []
  | (k, v) :: l => if decide (k = key) then v else Get key l
  end.

(** [Header.Set] replaces every value of the key; [Header.Add] appends one. *)
Definition Set_ (key value : bytes) (l : values) : values :=
  filter (λ kv, kv.1 ≠ key) l ++ [(key, value)].
Definition Add (key value : bytes) (l : values) : values := l ++ [(key, value)].

Record Request := mkRequest {
  Method : bytes;
  Proto : bytes;
  Query : values;
  Header : values;
  (** The bytes of the body and the error that follows them, nil at a clean end. *)
  Body : bytes * option error;
}.

Definition MethodGet : bytes := str "GET".
Definition MethodPost : bytes := str "POST".
Definition MethodOptions : bytes := str "OPTIONS".
Definition MethodConnect : bytes := str "CONNECT".

Definition StatusOK : Z := 200.
Definition StatusNoContent : Z := 204.
Definition StatusBadRequest : Z := 400.
Definition StatusForbidden : Z := 403.
Definition StatusRequestEntityTooLarge : Z := 413.

(** The status is the one of the first [WriteHeader]; headers set after it are not
    sent, so [rw_sent] keeps the ones that were. *)
Record ResponseWriter := mkResponse {
  rw_header : values;
  rw_status : option Z;
  rw_sent : values;
  rw_body : bytes;
}.

Definition response0 : ResponseWriter := mkResponse [] None [] [].

Definition header_op (f : values → values) (w : ResponseWriter) : ResponseWriter :=
  mkResponse (f (rw_header w)) (rw_status w) (rw_sent w) (rw_body w).

Definition WriteHeader (status : Z) (w : ResponseWriter) : ResponseWriter :=
  match rw_status w with
  | Some _ => w
  | None => mkResponse (rw_header w) (Some status) (rw_header w) (rw_body w)
  end.

(** [Write] commits the status 200 when none was written. *)
Definition Write (data : bytes) (w : ResponseWriter) : ResponseWriter :=
  let w := WriteHeader StatusOK w in
  mkResponse (rw_header w) (rw_status w) (rw_sent w) (rw_body w ++ data).

Lemma Get_Set key value l : Get key (Set_ key value l) = value.
Proof.
  unfold Set_. induction l as [|[k v] l IH]; [by simpl; rewrite decide_True|].
  rewrite filter_cons. case_decide as Hk; cbn [app]; [|done].
  cbn [Get]. case_decide; [by destruct Hk|done].
Qed.

Lemma Get_Set_ne key key' value l : key ≠ key' → Get key (Set_ key' value l) = Get key l.
Proof.
  intros Hne. unfold Set_. induction l as [|[k v] l IH].
  - simpl. by rewrite decide_False by congruence.
  - cbn [Get]. rewrite filter_cons. case_decide as Hk; cbn [app Get]; cbn [fst] in Hk.
    + by rewrite IH.
    + rewrite IH. case_decide; [|done]. destruct Hk. congruence.
Qed.

Lemma Get_Add_ne key key' value l : key ≠ key' → Get key (Add key' value l) = Get key l.
Proof.
  intros Hne. unfold Add. induction l as [|[k v] l IH]; cbn [app Get].
  - by rewrite decide_False by congruence.
  - by rewrite IH.
Qed.

(** ** The parts of package strings the server uses *)

(** [unicode.IsSpace]. *)
Definition IsSpace (r : Z) : bool :=
  bool_decide (r ∈ [9; 10; 11; 12; 13; 32; 0x85; 0xA0; 0x1680; 0x2028; 0x2029; 0x202F;
                    0x205F; 0x3000]) || ((0x2000 <=? r) && (r <=? 0x200A)).

Fixpoint trim_left (rs : list Z) : list Z :=
  match rs with
  | [] => []
  | r :: rs' => if IsSpace r then trim_left rs' else rs
  end.

(** [strings.TrimSpace], as runes. *)
Definition TrimSpace (s : bytes) : list Z := rev (trim_left (rev (trim_left (Utf8.runes s)))).

Definition to_lower (r : Z) : Z := if (65 <=? r) && (r <=? 90) then r + 32 else r.

(** [strings.EqualFold] against an ASCII text with no letter [k] or [s], whose only
    case variants are the ASCII ones. *)
Definition EqualFold (s : list Z) (t : bytes) : bool :=
  bool_decide (to_lower <$> s = to_lower <$> Utf8.runes t).

(** [strings.Join]. *)
Fixpoint Join (l : list bytes) (sep : bytes) : bytes :=
  match l with
  | [] => []
  | [s] => s
  | s :: l => s ++ sep ++ Join l sep
  end.

(** [strings.SplitN(s, sep, 2)[0]]: up to the first separator. *)
Fixpoint split_head (sep : byte) (s : bytes) : bytes :=
  match s with
  | [] => []
  | b :: s => if decide (b = sep) then [] else b :: split_head sep s
  end.

(** [strings.HasPrefix]. *)
Definition HasPrefix (s prefix : bytes) : bool := bool_decide (prefix `prefix_of` s).

(** ** Cookies *)

Record Cookie := mkHttpCookie {
  c_Name : bytes;
  c_Value : bytes;
  c_Path : bytes;
  c_HttpOnly : bool;
  c_Secure : bool;
  c_SameSite : Z;
  c_MaxAge : Z;
}.

Definition is_token (s : bytes) : bool :=
  bool_decide (s ≠ []) &&
  forallb (λ b, Utf8.within 48 57 b || Utf8.within 65 90 b || Utf8.within 97 122 b ||
                bool_decide (b ∈ str "!#$%&'*+-.^_`|~")) s.

Definition valid_value_byte (b : byte) : bool :=
  Utf8.within 32 126 b && negb (bool_decide (b = x22 ∨ b = ";"%byte ∨ b = x5c)).
Definition valid_path_byte (b : byte) : bool :=
  Utf8.within 32 126 b && negb (bool_decide (b = ";"%byte)).

Definition sanitize_value (v : bytes) : bytes :=
  let v := filter (λ b, valid_value_byte b = true) v in
  if bool_decide (" "%byte ∈ v ∨ ","%byte ∈ v) then x22 :: v ++ [x22] else v.

(** [Cookie.String] for the fields the server sets. *)
Definition Cookie_String (c : Cookie) : bytes :=
  if negb (is_token (c_Name c)) then []
  else
    c_Name c ++ str "=" ++ sanitize_value (c_Value c) ++
    (if decide (c_Path c = []) then []
     else str "; Path=" ++ filter (λ b, valid_path_byte b = true) (c_Path c)) ++
    (if 0 <? c_MaxAge c then str "; Max-Age=" ++ Strconv.Itoa (c_MaxAge c)
     else if c_MaxAge c <? 0 then str "; Max-Age=0" else []) ++
    (if c_HttpOnly c then str "; HttpOnly" else []) ++
    (if c_Secure c then str "; Secure" else []) ++
    (if c_SameSite c =? 2 then str "; SameSite=Lax"
     else if c_SameSite c =? 3 then str "; SameSite=Strict"
     else if c_SameSite c =? 4 then str "; SameSite=None" else []).

Definition SetCookie (c : Cookie) (w : ResponseWriter) : ResponseWriter :=
  let v := Cookie_String c in
  if decide (v = []) then w else header_op (Add (str "Set-Cookie") v) w.
