(* ===== verification/ServerOptions.v ===== *)
(** * Server options and error codes

    server_options.go: the configuration, its defaults, the [With...] options and the
    default session identifier; and the connection error codes of server.go with the
    JSON error body. *)
From S2P Require Import Prelude Base64 Packet Http Unicode.

(** A [time.Duration] is an [int64] number of nanoseconds. *)
Definition Millisecond : Z := 1000000.
Definition Second : Z := 1000 * Millisecond.

Definition DefaultPingInterval : Z := 25 * Second.
Definition DefaultPingTimeout : Z := 20 * Second.
Definition DefaultUpgradeTimeout : Z := 10 * Second.
Definition DefaultMaxPayload : Z := 1000000.

Record CORSOptions := mkCORS {
  AllowCredentials : bool;
  AllowedOrigins : list bytes;
  AllowedHeaders : list bytes;
}.

(** [http.SameSite], an [int] whose constants start at 1: the zero value of a
    [CookieOptions] field is none of them. *)
Definition SameSite : Type := Z.
Definition SameSiteDefaultMode : SameSite := 1.
Definition SameSiteLaxMode : SameSite := 2.
Definition SameSiteStrictMode : SameSite := 3.
Definition SameSiteNoneMode : SameSite := 4.

Record CookieOptions := mkCookie {
  Name : bytes;
  Path : bytes;
  HTTPOnly : bool;
  Secure : bool;
  cookie_SameSite : SameSite;
  MaxAge : Z;
}.

(** [generateID] and [allowRequest] are the application's functions (the former may
    draw random bytes); [webTransportUpgrade] is only tested against nil here. *)
Record serverConfig := mkConfig {
  pingInterval : Z;
  pingTimeout : Z;
  upgradeTimeout : Z;
  maxPayload : Z;
  transports : list TransportType;
  allowUpgrades : bool;
  cors : CORSOptions;
  generateID : bytes → Request → bytes;
  allowRequest : option (Request → option bytes);
  cookie : option CookieOptions;
  httpCompression : bool;
  webTransportUpgrade : bool;
}.

Definition ServerOption : Type := serverConfig → serverConfig.

Definition WithPingInterval (d : Z) : ServerOption := λ c,
  mkConfig d (pingTimeout c) (upgradeTimeout c) (maxPayload c) (transports c)
    (allowUpgrades c) (cors c) (generateID c) (allowRequest c) (cookie c)
    (httpCompression c) (webTransportUpgrade c).

Definition WithPingTimeout (d : Z) : ServerOption := λ c,
  mkConfig (pingInterval c) d (upgradeTimeout c) (maxPayload c) (transports c)
    (allowUpgrades c) (cors c) (generateID c) (allowRequest c) (cookie c)
    (httpCompression c) (webTransportUpgrade c).

Definition WithUpgradeTimeout (d : Z) : ServerOption := λ c,
  mkConfig (pingInterval c) (pingTimeout c) d (maxPayload c) (transports c)
    (allowUpgrades c) (cors c) (generateID c) (allowRequest c) (cookie c)
    (httpCompression c) (webTransportUpgrade c).

Definition WithMaxPayload (n : Z) : ServerOption := λ c,
  mkConfig (pingInterval c) (pingTimeout c) (upgradeTimeout c) n (transports c)
    (allowUpgrades c) (cors c) (generateID c) (allowRequest c) (cookie c)
    (httpCompression c) (webTransportUpgrade c).

Definition WithServerTransports (ts : list TransportType) : ServerOption := λ c,
  mkConfig (pingInterval c) (pingTimeout c) (upgradeTimeout c) (maxPayload c) ts
    (allowUpgrades c) (cors c) (generateID c) (allowRequest c) (cookie c)
    (httpCompression c) (webTransportUpgrade c).

Definition WithAllowUpgrades (b : bool) : ServerOption := λ c,
  mkConfig (pingInterval c) (pingTimeout c) (upgradeTimeout c) (maxPayload c)
    (transports c) b (cors c) (generateID c) (allowRequest c) (cookie c)
    (httpCompression c) (webTransportUpgrade c).

Definition WithCORS (o : CORSOptions) : ServerOption := λ c,
  mkConfig (pingInterval c) (pingTimeout c) (upgradeTimeout c) (maxPayload c)
    (transports c) (allowUpgrades c) o (generateID c) (allowRequest c) (cookie c)
    (httpCompression c) (webTransportUpgrade c).

Definition WithGenerateID (f : bytes → Request → bytes) : ServerOption := λ c,
  mkConfig (pingInterval c) (pingTimeout c) (upgradeTimeout c) (maxPayload c)
    (transports c) (allowUpgrades c) (cors c) f (allowRequest c) (cookie c)
    (httpCompression c) (webTransportUpgrade c).

Definition WithAllowRequest (f : Request → option bytes) : ServerOption := λ c,
  mkConfig (pingInterval c) (pingTimeout c) (upgradeTimeout c) (maxPayload c)
    (transports c) (allowUpgrades c) (cors c) (generateID c) (Some f) (cookie c)
    (httpCompression c) (webTransportUpgrade c).

Definition WithHTTPCompression (b : bool) : ServerOption := λ c,
  mkConfig (pingInterval c) (pingTimeout c) (upgradeTimeout c) (maxPayload c)
    (transports c) (allowUpgrades c) (cors c) (generateID c) (allowRequest c)
    (cookie c) b (webTransportUpgrade c).

(** The defaults of the cookie are resolved when the option is built. *)
Definition cookie_defaults (k : CookieOptions) : CookieOptions :=
  mkCookie (if decide (Name k = []) then str "io" else Name k)
    (if decide (Path k = []) then str "/" else Path k) (HTTPOnly k) (Secure k)
    (if cookie_SameSite k =? SameSiteDefaultMode then SameSiteLaxMode
     else cookie_SameSite k) (MaxAge k).

Definition WithCookie (k : CookieOptions) : ServerOption := λ c,
  mkConfig (pingInterval c) (pingTimeout c) (upgradeTimeout c) (maxPayload c)
    (transports c) (allowUpgrades c) (cors c) (generateID c) (allowRequest c) (Some
    (cookie_defaults k)) (httpCompression c) (webTransportUpgrade c).

(** The part of [WithWebTransportServer] that the routing depends on. *)
Definition WithWebTransportServer : ServerOption := λ c,
  mkConfig (pingInterval c) (pingTimeout c) (upgradeTimeout c) (maxPayload c)
    (transports c) (allowUpgrades c) (cors c) (generateID c) (allowRequest c)
    (cookie c) (httpCompression c) true.

(** [generateSessionID], given the 18 bytes [rand.Read] returned. *)
Definition generateSessionID (random : bytes) (r : Request) : bytes :=
  Base64.RawURL_Encode random.

Definition defaultServerConfig : serverConfig :=
  mkConfig DefaultPingInterval DefaultPingTimeout DefaultUpgradeTimeout DefaultMaxPayload
    [TransportTypePolling; TransportTypeWebSocket] true (mkCORS false [] [])
    generateSessionID None None true false.

(** [NewServer]'s configuration: the options applied in order over the defaults. *)
Definition NewServer_config (options : list ServerOption) : serverConfig :=
  foldl (λ c o, o c) defaultServerConfig options.

Definition allowsTransport (c : serverConfig) (t : TransportType) : bool :=
  bool_decide (t ∈ transports c).

(** ** Connection error codes *)

Inductive ConnectionErrorCode :=
| ConnectionErrorUnknownTransport
| ConnectionErrorUnknownSessionID
| ConnectionErrorBadHandshakeMethod
| ConnectionErrorBadRequest
| ConnectionErrorForbidden
| ConnectionErrorUnsupportedProtocolVersion.
#[export] Instance ConnectionErrorCode_eq_decision : EqDecision ConnectionErrorCode.
Proof. solve_decision. Defined.

(** [int(code)]. *)
Definition code_int (c : ConnectionErrorCode) : Z :=
  match c with
  | ConnectionErrorUnknownTransport => 0
  | ConnectionErrorUnknownSessionID => 1
  | ConnectionErrorBadHandshakeMethod => 2
  | ConnectionErrorBadRequest => 3
  | ConnectionErrorForbidden => 4
  | ConnectionErrorUnsupportedProtocolVersion => 5
  end.

Definition message (c : ConnectionErrorCode) : bytes :=
  match c with
  | ConnectionErrorUnknownTransport => str "Transport unknown"
  | ConnectionErrorUnknownSessionID => str "Session ID unknown"
  | ConnectionErrorBadHandshakeMethod => str "Bad handshake method"
  | ConnectionErrorBadRequest => str "Bad request"
  | ConnectionErrorForbidden => str "Forbidden"
  | ConnectionErrorUnsupportedProtocolVersion => str "Unsupported protocol version"
  end.

Definition status (c : ConnectionErrorCode) : Z :=
  match c with
  | ConnectionErrorForbidden => StatusForbidden
  | _ => StatusBadRequest
  end.
