(* ===== verification/Json.v ===== *)
(** * encoding/json, as the handshake uses it

    [Marshal] of the values the server and the client encode, and [Unmarshal] into the
    structs they decode.  This is the standard library as the source uses it, so
    nothing here is a definition of the source. *)
From S2P Require Import Prelude Packet Unicode Payload.

(** A JSON value; a number is its literal. *)
Inductive json :=
| JNull
| JBool (b : bool)
| JNum (literal : bytes)
| JStr (s : bytes)
| JArr (vs : list json)
| JObj (fields : list (bytes * json)).

(** ** Marshal *)

(** The [\uXXXX] escape of a 16-bit value. *)
Definition u_escape (r : Z) : bytes :=
  str "\u" ++ [hex_digit (r / 4096); hex_digit (r / 256 mod 16); hex_digit (r / 16 mod 16);
               hex_digit (r mod 16)].

(** An ASCII byte of a string, with HTML escaping on as in [Marshal]. *)
Definition escape_byte (b : byte) : bytes :=
  let x := b2z b in
  if bool_decide (b = x22 ∨ b = x5c) then [x5c; b]
  else if x =? 8 then str "\b"
  else if x =? 12 then str "\f"
  else if x =? 10 then str "\n"
  else if x =? 13 then str "\r"
  else if x =? 9 then str "\t"
  else if (x <? 32) || bool_decide (b = "<"%byte ∨ b = ">"%byte ∨ b = "&"%byte)
  then u_escape x
  else [b].

(** A string: invalid UTF-8 becomes the escape of U+FFFD, and U+2028 and U+2029 are
    escaped; other sequences are copied. *)
Fixpoint escape (s : bytes) : bytes :=
  match s with
  | [] => []
  | b0 :: s1 =>
      let x0 := b2z b0 in
      let rest := escape s1 in
      let invalid := u_escape Utf8.RuneError ++ rest in
      if x0 <? 0x80 then escape_byte b0 ++ rest
      else if Utf8.within 0xC2 0xDF b0 then
        match s1 with
        | b1 :: s2 => if Utf8.cont b1 then b0 :: b1 :: escape s2 else invalid
        | _ => invalid
        end
      else if Utf8.within 0xE0 0xEF b0 then
        match s1 with
        | b1 :: b2 :: s3 =>
            if Utf8.within (Utf8.second_lo x0) (Utf8.second_hi x0) b1 && Utf8.cont b2
            then
              let r := x0 mod 16 * 4096 + Utf8.low6 b1 * 64 + Utf8.low6 b2 in
              (if (r =? 0x2028) || (r =? 0x2029) then u_escape r else [b0; b1; b2]) ++ escape s3
            else invalid
        | _ => invalid
        end
      else if Utf8.within 0xF0 0xF4 b0 then
        match s1 with
        | b1 :: b2 :: b3 :: s4 =>
            if Utf8.within (Utf8.second_lo x0) (Utf8.second_hi x0) b1 && Utf8.cont b2 &&
               Utf8.cont b3
            then b0 :: b1 :: b2 :: b3 :: escape s4
            else invalid
        | _ => invalid
        end
      else invalid
  end.

Definition quote (s : bytes) : bytes := x22 :: escape s ++ [x22].

Fixpoint Marshal (v : json) : bytes :=
  match v with
  | JNull => str "null"
  | JBool true => str "true"
  | JBool false => str "false"
  | JNum literal => literal
  | JStr s => quote s
  | JArr vs => "["%byte :: join ","%byte (Marshal <$> vs) ++ str "]"
  | JObj fields =>
      "{"%byte :: join ","%byte ((λ kv, quote kv.1 ++ ":"%byte :: Marshal kv.2) <$> fields) ++
      str "}"
  end.

(** An [int]. *)
Definition JInt (n : Z) : json :=
  JNum (if n <? 0 then "-"%byte :: Strconv.Itoa (- n) else Strconv.Itoa n).

Example Marshal_ex :
  Marshal (JObj [(str "a", JInt (-12)); (str "b", JArr [JStr (str "x<" ++ [x0a]); JNull])]) =
  str "{" ++ quote (str "a") ++ str ":-12," ++ quote (str "b") ++ str ":[" ++ [x22] ++
  str "x\u003c\n" ++ [x22] ++ str ",null]}".
Proof. reflexivity. Qed.

(** ** The scanner

    The text is first split into tokens, by an automaton that reads one byte at a time,
    and the tokens are then read by an automaton with a stack. *)

(** A byte of a string as it stands, or the value of an escape. *)
Inductive sunit := URaw (b : byte) | UEsc (u : Z).

Inductive token :=
| TLBrace | TRBrace | TLBracket | TRBracket | TComma | TColon
| TStr (us : list sunit)
| TNum (literal : bytes)
| TWord (v : json).

Inductive lstate :=
| LTop
| LStr (acc : list sunit)
| LEsc (acc : list sunit)
| LHex (acc : list sunit) (digits : nat) (v : Z)
| LNum (acc : bytes)
| LWord (acc : bytes).

Definition is_ws (b : byte) : bool := bool_decide (b2z b ∈ [9; 10; 13; 32]).
Definition is_digit (b : byte) : bool := Utf8.within 48 57 b.
Definition is_letter (b : byte) : bool := Utf8.within 97 122 b.
Definition num_char (b : byte) : bool :=
  is_digit b || bool_decide (b ∈ str "+-.eE").

Definition hex_val (b : byte) : option Z :=
  if is_digit b then Some (b2z b - 48)
  else if Utf8.within 97 102 b then Some (b2z b - 87)
  else if Utf8.within 65 70 b then Some (b2z b - 55)
  else None.

Definition punct (b : byte) : option token :=
  if decide (b = "{"%byte) then Some TLBrace
  else if decide (b = "}"%byte) then Some TRBrace
  else if decide (b = "["%byte) then Some TLBracket
  else if decide (b = "]"%byte) then Some TRBracket
  else if decide (b = ","%byte) then Some TComma
  else if decide (b = ":"%byte) then Some TColon
  else None.

(** The number grammar of the scanner. *)
Inductive nstate := N0 | NNeg | NZero | NInt | NDot | NFrac | NE | NESign | NExp.

#[export] Instance nstate_eq_decision : EqDecision nstate.
Proof. solve_decision. Defined.

Definition num_step (s : nstate) (b : byte) : option nstate :=
  let zero := bool_decide (b = "0"%byte) in
  let digit := is_digit b in
  let dot := bool_decide (b = "."%byte) in
  let e := bool_decide (b = "e"%byte ∨ b = "E"%byte) in
  match s with
  | N0 => if bool_decide (b = "-"%byte) then Some NNeg
          else if zero then Some NZero else if digit then Some NInt else None
  | NNeg => if zero then Some NZero else if digit then Some NInt else None
  | NZero => if dot then Some NDot else if e then Some NE else None
  | NInt => if digit then Some NInt else if dot then Some NDot else if e then Some NE else None
  | NDot => if digit then Some NFrac else None
  | NFrac => if digit then Some NFrac else if e then Some NE else None
  | NE => if digit then Some NExp
          else if bool_decide (b = "+"%byte ∨ b = "-"%byte) then Some NESign else None
  | NESign => if digit then Some NExp else None
  | NExp => if digit then Some NExp else None
  end.

Fixpoint num_run (s : nstate) (l : bytes) : bool :=
  match l with
  | [] => match s with NZero | NInt | NFrac | NExp => true | _ => false end
  | b :: l => match num_step s b with Some s => num_run s l | None => false end
  end.
Definition num_ok (l : bytes) : bool := num_run N0 l.

Definition word (l : bytes) : option json :=
  if decide (l = str "null") then Some JNull
  else if decide (l = str "true") then Some (JBool true)
  else if decide (l = str "false") then Some (JBool false)
  else None.

Definition lex_top (b : byte) : option (list token * lstate) :=
  if is_ws b then Some ([], LTop)
  else match punct b with
       | Some t => Some ([t], LTop)
       | None =>
           if decide (b = x22) then Some ([], LStr [])
           else if is_digit b || bool_decide (b = "-"%byte) then Some ([], LNum [b])
           else if is_letter b then Some ([], LWord [b])
           else None
       end.

(** The end of a number or a word. *)
Definition lex_close (s : lstate) : option (list token) :=
  match s with
  | LTop => Some []
  | LNum acc => if num_ok (rev acc) then Some [TNum (rev acc)] else None
  | LWord acc => match word (rev acc) with Some v => Some [TWord v] | None => None end
  | _ => None
  end.

Definition escaped (b : byte) : option Z :=
  if bool_decide (b = x22 ∨ b = x5c ∨ b = "/"%byte) then Some (b2z b)
  else if decide (b = "b"%byte) then Some 8
  else if decide (b = "f"%byte) then Some 12
  else if decide (b = "n"%byte) then Some 10
  else if decide (b = "r"%byte) then Some 13
  else if decide (b = "t"%byte) then Some 9
  else None.

Definition lex_step (s : lstate) (b : byte) : option (list token * lstate) :=
  match s with
  | LTop => lex_top b
  | LStr acc =>
      if decide (b = x22) then Some ([TStr (rev acc)], LTop)
      else if decide (b = x5c) then Some ([], LEsc acc)
      else if b2z b <? 32 then None
      else Some ([], LStr (URaw b :: acc))
  | LEsc acc =>
      if decide (b = "u"%byte) then Some ([], LHex acc 0 0)
      else match escaped b with Some u => Some ([], LStr (UEsc u :: acc)) | None => None end
  | LHex acc n v =>
      match hex_val b with
      | None => None
      | Some d =>
          if decide (n = 3%nat) then Some ([], LStr (UEsc (v * 16 + d) :: acc))
          else Some ([], LHex acc (S n) (v * 16 + d))
      end
  | LNum acc =>
      if num_char b then Some ([], LNum (b :: acc))
      else match lex_close s, lex_top b with
           | Some ts, Some (ts', s') => Some (ts ++ ts', s')
           | _, _ => None
           end
  | LWord acc =>
      if is_letter b then Some ([], LWord (b :: acc))
      else match lex_close s, lex_top b with
           | Some ts, Some (ts', s') => Some (ts ++ ts', s')
           | _, _ => None
           end
  end.

Fixpoint lex (s : lstate) (l : bytes) : option (list token) :=
  match l with
  | [] => lex_close s
  | b :: l =>
      match lex_step s b with
      | None => None
      | Some (ts, s) => match lex s l with Some ts' => Some (ts ++ ts') | None => None end
      end
  end.

(** [unquote]: surrogate pairs are joined, a lone surrogate and invalid UTF-8 become
    U+FFFD. *)
Definition high (u : Z) : bool := (0xD800 <=? u) && (u <? 0xDC00).
Definition low (u : Z) : bool := (0xDC00 <=? u) && (u <? 0xE000).

Fixpoint resolve (us : list sunit) : bytes :=
  match us with
  | [] => []
  | URaw b :: us => b :: resolve us
  | UEsc u :: us' =>
      match us' with
      | UEsc v :: us =>
          if high u && low v
          then Utf8.encode_rune ((u - 0xD800) * 1024 + (v - 0xDC00) + 0x10000) ++ resolve us
          else Utf8.encode_rune u ++ resolve us'
      | _ => Utf8.encode_rune u ++ resolve us'
      end
  end.

Definition normalise (s : bytes) : bytes := Utf8.of_runes (Utf8.runes s).
Definition unquote (us : list sunit) : bytes := normalise (resolve us).

(** ** The parser *)

Inductive frame := FArr (vs : list json) | FObj (kvs : list (bytes * json)) (key : bytes).

(** What is expected next; the lists are reversed. *)
Inductive pstate :=
| PValue (stack : list frame)
| PFirst (stack : list frame)
| PKey (kvs : list (bytes * json)) (stack : list frame)
| PColon (kvs : list (bytes * json)) (key : bytes) (stack : list frame)
| PAfter (v : json) (stack : list frame).

Definition maxNestingDepth : nat := Z.to_nat 10000.

(** The start of a value. *)
Definition parse_value (t : token) (stack : list frame) : option pstate :=
  match t with
  | TStr us => Some (PAfter (JStr (unquote us)) stack)
  | TNum l => Some (PAfter (JNum l) stack)
  | TWord v => Some (PAfter v stack)
  | TLBracket => if decide (length stack < maxNestingDepth)%nat then Some (PFirst stack) else None
  | TLBrace => if decide (length stack < maxNestingDepth)%nat then Some (PKey [] stack) else None
  | _ => None
  end.

Definition parse_step (s : pstate) (t : token) : option pstate :=
  match s with
  | PValue stack => parse_value t stack
  | PFirst stack =>
      match t with
      | TRBracket => Some (PAfter (JArr []) stack)
      | _ => parse_value t (FArr [] :: stack)
      end
  | PKey kvs stack =>
      match t with
      | TStr us => Some (PColon kvs (unquote us) stack)
      | TRBrace => match kvs with [] => Some (PAfter (JObj []) stack) | _ => None end
      | _ => None
      end
  | PColon kvs key stack =>
      match t with TColon => Some (PValue (FObj kvs key :: stack)) | _ => None end
  | PAfter v (FArr vs :: stack) =>
      match t with
      | TComma => Some (PValue (FArr (v :: vs) :: stack))
      | TRBracket => Some (PAfter (JArr (rev (v :: vs))) stack)
      | _ => None
      end
  | PAfter v (FObj kvs key :: stack) =>
      match t with
      | TComma => Some (PKey ((key, v) :: kvs) stack)
      | TRBrace => Some (PAfter (JObj (rev ((key, v) :: kvs))) stack)
      | _ => None
      end
  | PAfter v [] => None
  end.

Fixpoint parse_run (s : pstate) (ts : list token) : option pstate :=
  match ts with
  | [] => Some s
  | t :: ts => match parse_step s t with Some s => parse_run s ts | None => None end
  end.

Definition parse (text : bytes) : option json :=
  match lex LTop text with
  | None => None
  | Some ts => match parse_run (PValue []) ts with Some (PAfter v []) => Some v | _ => None end
  end.

(** ** Unmarshal

    A struct is the list of its fields, each with the name of its tag and its current
    value.  An element that does not fit its field is skipped, and the first such error
    is returned at the end. *)

Inductive field := FStr (s : bytes) | FInt (n : Z) | FStrs (l : list bytes).

Definition SyntaxError : error := EForeign 101.
Definition UnmarshalTypeError : error := EForeign 102.

Definition or_error (e e' : option error) : option error :=
  match e with Some _ => e | None => e' end.

(** The elements of an array of strings; [null] leaves the element as it was. *)
Fixpoint decode_strs (vs : list json) (old : list bytes) : option error * list bytes :=
  match vs with
  | [] => (None, [])
  | v :: vs =>
      let '(e, l) := decode_strs vs (tail old) in
      match v with
      | JStr s => (e, s :: l)
      | JNull => (e, hd [] old :: l)
      | _ => (Some UnmarshalTypeError, hd [] old :: l)
      end
  end.

Definition decode_field (v : json) (f : field) : option error * field :=
  match f, v with
  | FStrs _, JNull => (None, FStrs [])
  | _, JNull => (None, f)
  | FStr _, JStr s => (None, FStr s)
  | FInt _, JNum l =>
      match Strconv.Atoi l with
      | Ok n => (None, FInt n)
      | _ => (Some UnmarshalTypeError, f)
      end
  | FStrs old, JArr vs => let '(e, l) := decode_strs vs old in (e, FStrs l)
  | _, _ => (Some UnmarshalTypeError, f)
  end.

(** Names that differ in case only match; the fields here have ASCII names. *)
Definition fold_rune (r : Z) : Z :=
  if (97 <=? r) && (r <=? 122) then r - 32
  else if r =? 0x17F then 83 else if r =? 0x212A then 75 else r.
Definition fold_name (s : bytes) : list Z := fold_rune <$> Utf8.runes s.

Definition struct : Type := list (bytes * field).

(** The field a key denotes: by exact name, else by folded name. *)
Definition names (key : bytes) (s : struct) : option bytes :=
  match list_find (λ nf, nf.1 = key) s with
  | Some (_, nf) => Some nf.1
  | None => match list_find (λ nf, fold_name nf.1 = fold_name key) s with
            | Some (_, nf) => Some nf.1
            | None => None
            end
  end.

Fixpoint set_field (name : bytes) (v : json) (s : struct) : option error * struct :=
  match s with
  | [] => (None, [])
  | (n, f) :: s =>
      if decide (n = name) then let '(e, f) := decode_field v f in (e, (n, f) :: s)
      else let '(e, s) := set_field name v s in (e, (n, f) :: s)
  end.

Fixpoint decode_struct (kvs : list (bytes * json)) (s : struct) : option error * struct :=
  match kvs with
  | [] => (None, s)
  | (k, v) :: kvs =>
      let '(e, s) := match names k s with Some n => set_field n v s | None => (None, s) end in
      let '(e', s) := decode_struct kvs s in
      (or_error e e', s)
  end.

Definition Unmarshal (text : bytes) (s : struct) : res struct :=
  match parse text with
  | None => Err SyntaxError
  | Some JNull => Ok s
  | Some (JObj kvs) =>
      match decode_struct kvs s with
      | (None, s) => Ok s
      | (Some e, _) => Err e
      end
  | Some _ => Err UnmarshalTypeError
  end.

(** Decoding keeps the fields and their types, so a struct stays one. *)
Definition field_type (f : field) : nat :=
  match f with FStr _ => 0 | FInt _ => 1 | FStrs _ => 2 end%nat.
Definition shape (s : struct) : list (bytes * nat) := (λ nf, (nf.1, field_type nf.2)) <$> s.

Lemma decode_field_type v f : field_type (decode_field v f).2 = field_type f.
Proof. destruct f, v; cbn; try done; by repeat case_match. Qed.

Lemma set_field_shape name v s : shape (set_field name v s).2 = shape s.
Proof.
  induction s as [|[n f] s IH]; [done|]. cbn [set_field]. case_decide.
  - pose proof (decode_field_type v f) as Hf. destruct (decode_field v f). unfold shape.
    cbn [snd] in *. rewrite !fmap_cons. cbn. by rewrite Hf.
  - destruct (set_field name v s). unfold shape in *. cbn [snd] in *. rewrite !fmap_cons.
    by rewrite IH.
Qed.

Lemma decode_struct_shape kvs s : shape (decode_struct kvs s).2 = shape s.
Proof.
  revert s. induction kvs as [|[k v] kvs IH]; intros s; [done|]. cbn [decode_struct].
  assert (shape (match names k s with Some n => set_field n v s | None => (None, s) end).2 = shape s)
    as Hs by (destruct (names k s); [apply set_field_shape|done]).
  destruct (match names k s with Some _ => _ | None => _ end) as [e s1]. cbn [snd] in Hs.
  specialize (IH s1). destruct (decode_struct kvs s1). cbn [snd] in *. congruence.
Qed.

Lemma Unmarshal_shape text s s' : Unmarshal text s = Ok s' → shape s' = shape s.
Proof.
  unfold Unmarshal. intros H. destruct (parse text) as [[| | | | |kvs]|]; simplify_eq; [done|].
  pose proof (decode_struct_shape kvs s) as Hs.
  by destruct (decode_struct kvs s) as [[] ?]; simplify_eq.
Qed.

Lemma Unmarshal_no_panic text s : Unmarshal text s ≠ Panic.
Proof. unfold Unmarshal. by repeat case_match. Qed.

(** ** Strings survive *)

Definition plain (u : sunit) : bool :=
  match u with URaw _ => true | UEsc u => Utf8.scalar u end.
Definition flat (us : list sunit) : bytes :=
  us ≫= λ u, match u with URaw b => [b] | UEsc u => Utf8.encode_rune u end.

Lemma scalar_not_high u : Utf8.scalar u = true → high u = false.
Proof. rewrite Utf8.scalar_spec. unfold high. intros H. destruct (_ && _) eqn:?; [lia|done]. Qed.

Lemma resolve_plain us : Forall (λ u, plain u = true) us → resolve us = flat us.
Proof.
  induction 1 as [|[b|u] us Hu Hus IH]; [done|by cbn; rewrite IH|].
  cbn [resolve flat mbind list_bind]. rewrite IH.
  destruct us as [|[b|v] us]; [done..|]. by rewrite (scalar_not_high u Hu).
Qed.

Lemma hex_val_digit d : 0 <= d < 16 → hex_val (hex_digit d) = Some d.
Proof. revert d. apply (forall_seqZ _ 0 16). vm_compute. reflexivity. Qed.

Lemma lex_silent s b s' l : lex_step s b = Some ([], s') → lex s (b :: l) = lex s' l.
Proof. intros H. cbn [lex]. rewrite H. cbn. by destruct (lex s' l). Qed.

Lemma lex_hex acc n v d l :
  0 <= d < 16 →
  lex (LHex acc n v) (hex_digit d :: l) =
  lex (if decide (n = 3%nat) then LStr (UEsc (v * 16 + d) :: acc)
       else LHex acc (S n) (v * 16 + d)) l.
Proof.
  intros Hd. apply lex_silent. cbn [lex_step]. rewrite hex_val_digit by done.
  by case_decide.
Qed.

Lemma lex_u_escape acc r rest :
  0 <= r < 0x10000 →
  lex (LStr acc) (u_escape r ++ rest) = lex (LStr (UEsc r :: acc)) rest.
Proof.
  intros Hr. unfold u_escape. rewrite <- app_assoc.
  change (str "\u" ++ ?x) with (x5c :: "u"%byte :: x). cbn [app].
  rewrite (lex_silent _ _ (LEsc acc)), (lex_silent _ _ (LHex acc 0 0)) by done.
  do 3 (rewrite lex_hex by zlia; rewrite decide_False by done).
  rewrite lex_hex by zlia. rewrite decide_True by done.
  assert (r / 256 = r / 16 / 16 ∧ r / 4096 = r / 16 / 16 / 16) as [-> ->]
    by (by rewrite !Z.div_div by lia).
  do 4 f_equal. zlia.
Qed.

Definition second_byte (b : byte) : byte := nth 1 (escape_byte b) x00.

(** What an ASCII byte is escaped to reads back as that byte. *)
Lemma lex_escape_byte b :
  b2z b < 0x80 → ∃ u, (u = URaw b ∨ u = UEsc (b2z b)) ∧
    ∀ acc rest, lex (LStr acc) (escape_byte b ++ rest) = lex (LStr (u :: acc)) rest.
Proof.
  intros Hb.
  assert (escape_byte b = u_escape (b2z b) ∨
          (escape_byte b = [x5c; second_byte b] ∧ second_byte b ≠ "u"%byte ∧
           escaped (second_byte b) = Some (b2z b)) ∨
          (escape_byte b = [b] ∧ b ≠ x22 ∧ b ≠ x5c ∧ 32 <= b2z b)) as [E|[(E & Hc & He)|E]].
  { revert Hb. by_bytes b. }
  - exists (UEsc (b2z b)). split; [by right|]. intros acc rest. rewrite E.
    pose proof (b2z_range b). apply lex_u_escape. lia.
  - exists (UEsc (b2z b)). split; [by right|]. intros acc rest. rewrite E.
    cbn [app]. rewrite (lex_silent _ _ (LEsc acc)) by done. apply lex_silent. cbn [lex_step].
    by rewrite decide_False, He.
  - destruct E as (E & H1 & H2 & H3). exists (URaw b). split; [by left|].
    intros acc rest. rewrite E. cbn [app]. apply lex_silent. cbn [lex_step].
    rewrite !decide_False by done. by rewrite (proj2 (Z.ltb_ge _ _)).
Qed.

Lemma lex_raw acc b : 0x80 <= b2z b → lex_step (LStr acc) b = Some ([], LStr (URaw b :: acc)).
Proof.
  intros Hb. cbn [lex_step]. rewrite !decide_False by (intros ->; by vm_compute in Hb).
  by rewrite (proj2 (Z.ltb_ge _ _)) by lia.
Qed.

(** The text, inside quotes, reads as these runes. *)
Definition reads (rs : list Z) (text : bytes) : Prop :=
  ∃ us, Forall (λ u, plain u = true) us ∧ Utf8.runes (flat us) = rs ∧
    ∀ acc rest, lex (LStr acc) (text ++ rest) = lex (LStr (rev us ++ acc)) rest.

Lemma reads_nil : reads [] [].
Proof. by exists []. Qed.

Lemma reads_unit u r rs text t :
  plain u = true → (∀ t, Utf8.runes (flat [u] ++ t) = r :: Utf8.runes t) →
  (∀ acc rest, lex (LStr acc) (text ++ rest) = lex (LStr (u :: acc)) rest) →
  reads rs t → reads (r :: rs) (text ++ t).
Proof.
  intros Hu Hru Htext (us & Hp & Hr & Hlex). exists (u :: us). split_and!; [by constructor|..].
  - unfold flat in *. rewrite (bind_app _ [u] us). by rewrite Hru, Hr.
  - intros acc rest. rewrite <- app_assoc, Htext, Hlex. cbn. by rewrite <- app_assoc.
Qed.

Lemma reads_esc r rs t :
  Utf8.scalar r = true → r < 0x10000 → reads rs t → reads (r :: rs) (u_escape r ++ t).
Proof.
  intros Hr Hlt. apply (reads_unit (UEsc r)); [done|..].
  - intros t'. cbn [flat mbind list_bind]. rewrite app_nil_r. by apply Utf8.runes_encode_rune.
  - intros acc rest. apply lex_u_escape. apply Utf8.scalar_spec in Hr. lia.
Qed.

Lemma reads_ascii b rs t :
  b2z b < 0x80 → reads rs t → reads (b2z b :: rs) (escape_byte b ++ t).
Proof.
  intros Hb. destruct (lex_escape_byte b Hb) as (u & Hu & Hlex).
  assert (Utf8.scalar (b2z b) = true) as Hs.
  { apply Utf8.scalar_spec. pose proof (b2z_range b). lia. }
  apply (reads_unit u); [by destruct Hu as [->| ->]| |done].
  intros t'. destruct Hu as [->| ->]; cbn [flat mbind list_bind]; rewrite ?app_nil_r.
  - cbn [app Utf8.runes]. by rewrite (proj2 (Z.ltb_lt _ _)).
  - by apply Utf8.runes_encode_rune.
Qed.

Lemma reads_raw bs r rs t :
  Forall (λ b, 0x80 <= b2z b) bs → (∀ t, Utf8.runes (bs ++ t) = r :: Utf8.runes t) →
  reads rs t → reads (r :: rs) (bs ++ t).
Proof.
  intros Hbs Hru (us & Hp & Hr & Hlex). exists ((URaw <$> bs) ++ us). split_and!.
  - apply Forall_app. split; [|done]. by apply Forall_fmap, Forall_true.
  - unfold flat in *. rewrite bind_app.
    replace ((URaw <$> bs) ≫= _) with bs by (clear; induction bs; cbn; congruence).
    by rewrite Hru, Hr.
  - intros acc rest. rewrite <- app_assoc. revert acc. clear Hru.
    induction Hbs as [|b bs Hb Hbs IHb]; intros acc; [apply Hlex|].
    cbn [app]. rewrite (lex_silent _ _ (LStr (URaw b :: acc))) by (by apply lex_raw).
    rewrite IHb. cbn. by rewrite <- !app_assoc.
Qed.

Lemma scalar_RuneError : Utf8.scalar Utf8.RuneError = true.
Proof. done. Qed.

(** A string reads back as its runes: invalid UTF-8 is replaced, nothing else changes. *)
Lemma reads_escape s : reads (Utf8.runes s) (escape s).
Proof.
  assert (∀ n s, (length s <= n)%nat → reads (Utf8.runes s) (escape s)) as Hn;
    [|by eapply Hn].
  clear s. induction n as [|n IH]; intros [|b0 s1] Hl; try apply reads_nil; [simpl in Hl; lia|].
  assert (reads (Utf8.RuneError :: Utf8.runes s1) (u_escape Utf8.RuneError ++ escape s1)) as Hinv
    by (apply reads_esc; [done..|apply IH; simpl in Hl; lia]).
  cbn [escape Utf8.runes]. destruct (b2z b0 <? 0x80) eqn:H0.
  { apply reads_ascii; [lia|apply IH; simpl in Hl; lia]. }
  destruct (Utf8.within 0xC2 0xDF b0) eqn:H1.
  { destruct s1 as [|b1 s2]; [done|]. destruct (Utf8.cont b1) eqn:H2; [|done].
    apply (reads_raw [b0; b1]); [|intros t|apply IH; simpl in Hl; lia].
    - repeat constructor; unfold Utf8.cont, Utf8.within in *; lia.
    - cbn [app Utf8.runes]. by rewrite H0, H1, H2. }
  destruct (Utf8.within 0xE0 0xEF b0) eqn:H2.
  { destruct s1 as [|b1 [|b2 s3]]; [done..|]. case_match eqn:H3; [|done].
    assert (reads (Utf8.runes s3) (escape s3)) by (apply IH; simpl in Hl; lia).
    case_match eqn:H4.
    - apply reads_esc; [|lia..|done]. apply Utf8.scalar_spec. lia.
    - apply (reads_raw [b0; b1; b2]); [|intros t|done].
      + apply andb_true_iff in H3 as [H3 H5]. unfold Utf8.cont, Utf8.within in *.
        pose proof (Utf8.second_spec (b2z b0)). repeat constructor; lia.
      + cbn [app Utf8.runes]. by rewrite H0, H1, H2, H3. }
  destruct (Utf8.within 0xF0 0xF4 b0) eqn:H3; [|done].
  destruct s1 as [|b1 [|b2 [|b3 s4]]]; [done..|]. case_match eqn:H4; [|done].
  apply (reads_raw [b0; b1; b2; b3]); [|intros t|apply IH; simpl in Hl; lia].
  - rewrite !andb_true_iff in H4. destruct H4 as [[H4 H5] H6].
    unfold Utf8.cont, Utf8.within in *. pose proof (Utf8.second_spec (b2z b0)).
    repeat constructor; lia.
  - cbn [app Utf8.runes]. by rewrite H0, H1, H2, H3, H4.
Qed.

(** ** Values survive *)

Definition prepend (ts : list token) (o : option (list token)) : option (list token) :=
  match o with Some ts' => Some (ts ++ ts') | None => None end.

Lemma prepend_app ts ts' o : prepend ts (prepend ts' o) = prepend (ts ++ ts') o.
Proof. destruct o; [|done]. cbn. by rewrite app_assoc. Qed.

Lemma lex_emit s b ts s' l : lex_step s b = Some (ts, s') → lex s (b :: l) = prepend ts (lex s' l).
Proof. intros H. cbn [lex]. by rewrite H. Qed.

Lemma lex_quote s :
  ∃ us, unquote us = normalise s ∧
    ∀ rest, lex LTop (quote s ++ rest) = prepend [TStr us] (lex LTop rest).
Proof.
  destruct (reads_escape s) as (us & Hp & Hr & Hlex). exists us. split.
  { unfold unquote, normalise. by rewrite resolve_plain, Hr. }
  intros rest. unfold quote. cbn [app].
  rewrite (lex_silent _ _ (LStr [])), <- app_assoc, Hlex, app_nil_r by done.
  cbn [app]. erewrite lex_emit by done. by rewrite rev_involutive.
Qed.

(** What follows a value ends a number or a word. *)
Definition delim (rest : bytes) : Prop :=
  match rest with [] => True | b :: _ => num_char b = false ∧ is_letter b = false end.

Lemma lex_delim s ts rest :
  (∃ acc, s = LNum acc) ∨ (∃ acc, s = LWord acc) → lex_close s = Some ts → delim rest →
  lex s rest = prepend ts (lex LTop rest).
Proof.
  intros Hs Hts Hd. destruct rest as [|b rest].
  { cbn [lex]. rewrite Hts. cbn. by rewrite app_nil_r. }
  destruct Hd as [Hn Hl]. cbn [lex].
  assert (lex_step s b = match lex_top b with
                         | Some (ts', s') => Some (ts ++ ts', s') | None => None end) as ->.
  { destruct Hs as [(acc & ->)|(acc & ->)]; unfold lex_step; rewrite Hts, ?Hn, ?Hl; done. }
  change (lex_step LTop b) with (lex_top b). destruct (lex_top b) as [[ts' s']|]; [|done].
  destruct (lex s' rest); [|done]. cbn. by rewrite app_assoc.
Qed.

(** A number as the encoder writes it. *)
Definition num_literal (l : bytes) : Prop :=
  num_ok l = true ∧ Forall (λ b, num_char b = true) l.

Lemma lex_num_run acc l rest :
  Forall (λ b, num_char b = true) l → lex (LNum acc) (l ++ rest) = lex (LNum (rev l ++ acc)) rest.
Proof.
  intros Hl. revert acc. induction Hl as [|b l Hb Hl IH]; intros acc; [done|].
  cbn [app]. rewrite (lex_silent _ _ (LNum (b :: acc))).
  - rewrite IH. cbn. by rewrite <- app_assoc.
  - cbn [lex_step]. by rewrite Hb.
Qed.

Lemma num_first b l : num_ok (b :: l) = true → lex_top b = Some ([], LNum [b]).
Proof.
  unfold num_ok. cbn [num_run]. destruct (num_step N0 b) eqn:E; [|done]. intros _.
  revert E. destruct b; vm_compute; intros; congruence.
Qed.

Lemma lex_num l rest :
  num_literal l → delim rest → lex LTop (l ++ rest) = prepend [TNum l] (lex LTop rest).
Proof.
  intros [Hok Hl] Hd. destruct l as [|b l]; [done|]. inversion Hl; subst. cbn [app].
  rewrite (lex_silent _ _ (LNum [b])) by (by eapply num_first).
  rewrite lex_num_run by done. apply lex_delim; [by eauto| |done].
  cbn [lex_close]. rewrite rev_app_distr, rev_involutive. cbn [rev app]. by rewrite Hok.
Qed.

Lemma letter_first b : is_letter b = true → lex_top b = Some ([], LWord [b]).
Proof. destruct b; vm_compute; congruence. Qed.

Lemma lex_word_run acc l rest :
  Forall (λ b, is_letter b = true) l → lex (LWord acc) (l ++ rest) = lex (LWord (rev l ++ acc)) rest.
Proof.
  intros Hl. revert acc. induction Hl as [|b l Hb Hl IH]; intros acc; [done|].
  cbn [app]. rewrite (lex_silent _ _ (LWord (b :: acc))).
  - rewrite IH. cbn. by rewrite <- app_assoc.
  - cbn [lex_step]. by rewrite Hb.
Qed.

Lemma lex_word v l rest :
  word l = Some v → Forall (λ b, is_letter b = true) l → delim rest →
  lex LTop (l ++ rest) = prepend [TWord v] (lex LTop rest).
Proof.
  intros Hw Hl Hd. destruct l as [|b l]; [done|]. inversion Hl; subst. cbn [app].
  rewrite (lex_silent _ _ (LWord [b])) by (by apply letter_first).
  rewrite lex_word_run by done. apply lex_delim; [by eauto| |done].
  cbn [lex_close]. rewrite rev_app_distr, rev_involutive. cbn [rev app]. by rewrite Hw.
Qed.

(** The values the encoder takes, the nesting of a value, and the value that reads
    back: invalid UTF-8 in its strings is replaced. *)
Fixpoint json_ok (v : json) : Prop :=
  match v with
  | JNum l => num_literal l
  | JArr vs => foldr (λ v P, json_ok v ∧ P) True vs
  | JObj kvs => foldr (λ kv P, json_ok kv.2 ∧ P) True kvs
  | _ => True
  end.

Fixpoint depth (v : json) : nat :=
  match v with
  | JArr vs => S (foldr (λ v n, depth v `max` n)%nat 0%nat vs)
  | JObj kvs => S (foldr (λ kv n, depth kv.2 `max` n)%nat 0%nat kvs)
  | _ => 0%nat
  end.

Fixpoint norm (v : json) : json :=
  match v with
  | JStr s => JStr (normalise s)
  | JArr vs => JArr (norm <$> vs)
  | JObj kvs => JObj ((λ kv, (normalise kv.1, norm kv.2)) <$> kvs)
  | _ => v
  end.

(** The encoding of a value is these tokens, and they are read as the value. *)
Definition reads_value (v : json) : Prop :=
  ∃ ts, (∀ rest, delim rest → lex LTop (Marshal v ++ rest) = prepend ts (lex LTop rest)) ∧
    ∀ stack more, (length stack + depth v <= maxNestingDepth)%nat →
      parse_run (PValue stack) (ts ++ more) = parse_run (PAfter (norm v) stack) more.

Lemma reads_atom v ts :
  (∀ rest, delim rest → lex LTop (Marshal v ++ rest) = prepend ts (lex LTop rest)) →
  (∀ stack more, parse_run (PValue stack) (ts ++ more) = parse_run (PAfter (norm v) stack) more) →
  reads_value v.
Proof. intros H1 H2. exists ts. split; [done|]. intros. apply H2. Qed.

Lemma reads_str s : reads_value (JStr s).
Proof.
  destruct (lex_quote s) as (us & Hu & Hlex). apply (reads_atom _ [TStr us]).
  - intros rest _. apply Hlex.
  - intros stack more. cbn. by rewrite Hu.
Qed.

Lemma reads_num l : num_literal l → reads_value (JNum l).
Proof.
  intros Hl. apply (reads_atom _ [TNum l]); [|done]. intros rest Hd. by apply lex_num.
Qed.

Lemma reads_word v l :
  word l = Some v → Forall (λ b, is_letter b = true) l → Marshal v = l → norm v = v →
  reads_value v.
Proof.
  intros Hw Hl Hm Hn. apply (reads_atom _ [TWord v]).
  - intros rest Hd. rewrite Hm. by apply lex_word.
  - intros stack more. cbn. by rewrite Hn.
Qed.

Definition depths (vs : list json) : nat := foldr (λ v n, depth v `max` n)%nat 0%nat vs.

Lemma lex_punct b t rest :
  lex_top b = Some ([t], LTop) → lex LTop (b :: rest) = prepend [t] (lex LTop rest).
Proof. intros H. by apply lex_emit. Qed.

(** The elements of an array, with the closing bracket. *)
Lemma reads_elems v vs :
  Forall reads_value (v :: vs) →
  ∃ ts, (∀ rest, lex LTop (join ","%byte (Marshal <$> v :: vs) ++ "]"%byte :: rest) =
                 prepend ts (lex LTop rest)) ∧
    ∀ acc stack more, (length stack + S (depths (v :: vs)) <= maxNestingDepth)%nat →
      parse_run (PValue (FArr acc :: stack)) (ts ++ more) =
      parse_run (PAfter (JArr (rev acc ++ (norm <$> v :: vs))) stack) more.
Proof.
  revert v. induction vs as [|v' vs IH]; intros v Hvs;
    inversion Hvs as [|? ? (ts & Hlex & Hparse) Hvs']; subst.
  - exists (ts ++ [TRBracket]). split.
    + intros rest. cbn [fmap list_fmap join]. rewrite Hlex by done.
      rewrite (lex_punct _ TRBracket) by done. by rewrite prepend_app.
    + intros acc stack more Hd. cbn [depths foldr] in Hd.
      rewrite <- app_assoc, Hparse by (cbn; lia). by cbn.
  - destruct (IH v' Hvs') as (ts' & Hlex' & Hparse'). exists (ts ++ TComma :: ts'). split.
    + intros rest. rewrite !fmap_cons in *. rewrite join_cons by done. cbn [app].
      rewrite <- app_assoc, Hlex by done. cbn [app].
      rewrite (lex_punct _ TComma), Hlex' by done.
      by rewrite !prepend_app, <- app_assoc.
    + intros acc stack more Hd. unfold depths in *. cbn [foldr] in *.
      rewrite <- app_assoc, Hparse by (cbn; lia).
      cbn [app parse_run parse_step]. rewrite Hparse' by (cbn [foldr]; lia).
      cbn [rev]. by rewrite <- app_assoc.
Qed.

Lemma reads_arr vs : Forall reads_value vs → reads_value (JArr vs).
Proof.
  intros Hvs. destruct vs as [|v vs].
  - exists [TLBracket; TRBracket]. split.
    + intros rest _. change (Marshal (JArr []) ++ rest) with ("["%byte :: "]"%byte :: rest).
      rewrite (lex_punct _ TLBracket), (lex_punct _ TRBracket) by done. by rewrite prepend_app.
    + intros stack more Hd. cbn in *. by rewrite decide_True by lia.
  - destruct (reads_elems v vs Hvs) as (ts & Hlex & Hparse).
    exists (TLBracket :: ts). split.
    + intros rest _.
      replace (Marshal (JArr (v :: vs)) ++ rest) with
        ("["%byte :: join ","%byte (Marshal <$> v :: vs) ++ "]"%byte :: rest)
        by (cbn [Marshal app]; by rewrite <- app_assoc).
      rewrite (lex_punct _ TLBracket), Hlex by done. by rewrite prepend_app.
    + intros stack more Hd. cbn [depth] in Hd. fold (depths (v :: vs)) in Hd.
      cbn [app parse_run parse_step parse_value]. rewrite decide_True by lia.
      assert (∀ more, parse_run (PValue (FArr [] :: stack)) (ts ++ more) =
        parse_run (PAfter (norm (JArr (v :: vs))) stack) more) as Hp
        by (intros; apply (Hparse []); lia).
      rewrite <- Hp. specialize (Hp []). rewrite app_nil_r in Hp.
      destruct ts as [|[] ts]; done.
Qed.

Definition member (kv : bytes * json) : bytes := quote kv.1 ++ ":"%byte :: Marshal kv.2.
Definition norm_member (kv : bytes * json) : bytes * json := (normalise kv.1, norm kv.2).
Definition member_depths (kvs : list (bytes * json)) : nat :=
  foldr (λ kv n, depth kv.2 `max` n)%nat 0%nat kvs.

(** One member, up to its value. *)
Lemma reads_member kv :
  reads_value kv.2 →
  ∃ ts, (∀ rest, delim rest → lex LTop (member kv ++ rest) = prepend ts (lex LTop rest)) ∧
    ∀ acc stack more, (length stack + S (depth kv.2) <= maxNestingDepth)%nat →
      parse_run (PKey acc stack) (ts ++ more) =
      parse_run (PAfter (norm kv.2) (FObj acc (normalise kv.1) :: stack)) more.
Proof.
  intros (ts & Hlex & Hparse). destruct (lex_quote kv.1) as (us & Hu & Hq).
  exists (TStr us :: TColon :: ts). split.
  - intros rest Hd. unfold member. rewrite <- app_assoc, Hq. cbn [app].
    rewrite (lex_punct _ TColon), Hlex by done. by rewrite !prepend_app.
  - intros acc stack more Hd. cbn [app parse_run parse_step]. rewrite Hu.
    rewrite Hparse by (cbn; lia). done.
Qed.

(** The members of an object, with the closing brace. *)
Lemma reads_members kv kvs :
  Forall (λ kv, reads_value kv.2) (kv :: kvs) →
  ∃ ts, (∀ rest, lex LTop (join ","%byte (member <$> kv :: kvs) ++ "}"%byte :: rest) =
                 prepend ts (lex LTop rest)) ∧
    ∀ acc stack more, (length stack + S (member_depths (kv :: kvs)) <= maxNestingDepth)%nat →
      parse_run (PKey acc stack) (ts ++ more) =
      parse_run (PAfter (JObj (rev acc ++ (norm_member <$> kv :: kvs))) stack) more.
Proof.
  revert kv. induction kvs as [|kv' kvs IH]; intros kv Hvs;
    inversion Hvs as [|? ? Hkv Hvs']; subst; apply reads_member in Hkv as (ts & Hlex & Hparse).
  - exists (ts ++ [TRBrace]). split.
    + intros rest. cbn [fmap list_fmap join]. rewrite Hlex by done.
      rewrite (lex_punct _ TRBrace) by done. by rewrite prepend_app.
    + intros acc stack more Hd. unfold member_depths in Hd. cbn [foldr] in Hd.
      rewrite <- app_assoc, Hparse by (cbn; lia). by cbn.
  - destruct (IH kv' Hvs') as (ts' & Hlex' & Hparse'). exists (ts ++ TComma :: ts'). split.
    + intros rest. rewrite !fmap_cons in *. rewrite join_cons by done. cbn [app].
      rewrite <- app_assoc, Hlex by done. cbn [app].
      rewrite (lex_punct _ TComma), Hlex' by done. by rewrite !prepend_app, <- app_assoc.
    + intros acc stack more Hd. unfold member_depths in *. cbn [foldr] in *.
      rewrite <- app_assoc, Hparse by (cbn; lia).
      cbn [app parse_run parse_step]. rewrite Hparse' by (cbn [foldr]; lia).
      cbn [rev]. by rewrite <- app_assoc.
Qed.

Lemma reads_obj kvs : Forall (λ kv, reads_value kv.2) kvs → reads_value (JObj kvs).
Proof.
  intros Hvs. destruct kvs as [|kv kvs].
  - exists [TLBrace; TRBrace]. split.
    + intros rest _. change (Marshal (JObj []) ++ rest) with ("{"%byte :: "}"%byte :: rest).
      rewrite (lex_punct _ TLBrace), (lex_punct _ TRBrace) by done. by rewrite prepend_app.
    + intros stack more Hd. cbn in *. by rewrite decide_True by lia.
  - destruct (reads_members kv kvs Hvs) as (ts & Hlex & Hparse).
    exists (TLBrace :: ts). split.
    + intros rest _.
      replace (Marshal (JObj (kv :: kvs)) ++ rest) with
        ("{"%byte :: join ","%byte (member <$> kv :: kvs) ++ "}"%byte :: rest)
        by (cbn [Marshal app]; by rewrite <- app_assoc).
      rewrite (lex_punct _ TLBrace), Hlex by done. by rewrite prepend_app.
    + intros stack more Hd. cbn [depth] in Hd. fold (member_depths (kv :: kvs)) in Hd.
      cbn [app parse_run parse_step parse_value]. rewrite decide_True by lia.
      by rewrite (Hparse [] stack more) by lia.
Qed.

Fixpoint reads_json (v : json) : json_ok v → reads_value v.
Proof.
  destruct v as [| [] |l|s|vs|kvs]; intros Hv.
  - by apply (reads_word _ (str "null")); [|repeat constructor|..].
  - by apply (reads_word _ (str "true")); [|repeat constructor|..].
  - by apply (reads_word _ (str "false")); [|repeat constructor|..].
  - by apply reads_num.
  - apply reads_str.
  - apply reads_arr. cbn in Hv. induction vs as [|v vs IH]; constructor.
    + apply reads_json, Hv.
    + apply IH, Hv.
  - apply reads_obj. cbn in Hv. induction kvs as [|[k v] kvs IH]; constructor.
    + apply reads_json, Hv.
    + apply IH, Hv.
Qed.

(** Encoding and parsing gives the value back, with invalid UTF-8 replaced. *)
Lemma parse_Marshal v :
  json_ok v → (depth v <= maxNestingDepth)%nat → parse (Marshal v) = Some (norm v).
Proof.
  intros Hv Hd. destruct (reads_json v Hv) as (ts & Hlex & Hparse).
  unfold parse. rewrite <- (app_nil_r (Marshal v)), Hlex by done. cbn [lex lex_close prepend].
  by rewrite Hparse by (cbn; lia).
Qed.

(** ** Integers survive *)

Lemma num_run_digits ds :
  Forall (λ d, 0 <= d < 10) ds → num_run NInt ((λ d, z2b (48 + d)) <$> ds) = true.
Proof.
  induction 1 as [|d ds Hd Hds IH]; [done|]. cbn [fmap list_fmap num_run].
  assert (num_step NInt (z2b (48 + d)) = Some NInt) as ->; [|done].
  revert d Hd. apply (forall_seqZ _ 0 10). vm_compute. reflexivity.
Qed.

Lemma digits_loop_S fuel base n acc :
  digits_loop (S fuel) base n acc =
  if n / base =? 0 then n mod base :: acc else digits_loop fuel base (n / base) (n mod base :: acc).
Proof. done. Qed.

(** The numeral of a positive number does not start with a zero. *)
Lemma digits_loop_head fuel n acc :
  0 < n < 10 ^ Z.of_nat (S fuel) → ∃ d ds, digits_loop (S fuel) 10 n acc = d :: ds ∧ 1 <= d < 10.
Proof.
  revert n acc. induction fuel as [|fuel IH]; intros n acc Hn; rewrite digits_loop_S.
  - assert (n < 10) by (simpl in Hn; lia). exists n, acc.
    rewrite Z.div_small, Z.mod_small by lia. split; [done|lia].
  - case_match eqn:Hq.
    + exists (n mod 10), acc. split; [done|]. apply Z.eqb_eq in Hq. zlia.
    + apply IH. rewrite Nat2Z.inj_succ, Z.pow_succ_r in Hn by lia.
      split; [zlia|]. apply Z.div_lt_upper_bound; lia.
Qed.

Lemma num_run_Itoa n :
  0 <= n < 2 ^ 64 → num_run NNeg (Strconv.Itoa n) = true ∧ num_run N0 (Strconv.Itoa n) = true.
Proof.
  intros Hn. destruct (decide (n = 0)) as [->|Hnz]; [done|]. unfold Strconv.Itoa.
  destruct (digits_loop_head 19 n []) as (d & ds & E & Hd); [lia|].
  pose proof (digits_loop_range 20 10 n [] ltac:(lia) ltac:(constructor)) as Hr.
  rewrite E in Hr |- *. inversion Hr; subst. cbn [fmap list_fmap num_run].
  assert (num_step NNeg (z2b (48 + d)) = Some NInt ∧ num_step N0 (z2b (48 + d)) = Some NInt)
    as [-> ->]; [|split; by apply num_run_digits].
  clear -Hd. revert d Hd. apply (forall_seqZ _ 1 9). vm_compute. reflexivity.
Qed.

Lemma num_char_Itoa n : Forall (λ b, num_char b = true) (Strconv.Itoa n).
Proof.
  eapply Forall_impl; [|apply Strconv.Itoa_chars]. cbv beta. intros b Hb.
  unfold num_char, is_digit, Utf8.within. rewrite (proj2 (andb_true_iff _ _)) by lia. done.
Qed.

Lemma JInt_ok n : - 2 ^ 63 <= n <= int64_max → json_ok (JInt n).
Proof.
  intros Hn. unfold int64_max in Hn. unfold JInt. cbn [json_ok]. case_match.
  - split; [|constructor; [done|apply num_char_Itoa]].
    change (num_run NNeg (Strconv.Itoa (- n)) = true). apply num_run_Itoa. lia.
  - split; [apply num_run_Itoa; lia|apply num_char_Itoa].
Qed.

Lemma Atoi_JInt n :
  - 2 ^ 63 <= n <= int64_max → ∃ l, JInt n = JNum l ∧ Strconv.Atoi l = Ok n.
Proof.
  intros Hn. unfold int64_max in Hn. unfold JInt. eexists. split; [done|]. case_match.
  - cbn [Strconv.Atoi]. rewrite bool_decide_eq_true_2 by done. rewrite orb_true_r.
    unfold Strconv.atoi_digits. destruct (Strconv.Itoa_parse (- n)) as [Hne Hp]; [lia|].
    destruct (Strconv.Itoa (- n)) eqn:E; [by destruct Hne|]. rewrite Hp. cbn [res_bind negb andb].
    rewrite Z.gtb_ltb, (proj2 (Z.ltb_ge _ _)) by lia. f_equal. lia.
  - apply Strconv.Atoi_Itoa. lia.
Qed.

(** ** The encoder writes no control characters *)

Definition printable (b : byte) : bool := 32 <=? b2z b.

Lemma printable_u_escape r :
  0 <= r < 0x10000 → Forall (λ b, printable b = true) (u_escape r).
Proof.
  intros Hr. assert (∀ d, 0 <= d < 16 → printable (hex_digit d) = true) as Hd.
  { apply (forall_seqZ _ 0 16). vm_compute. reflexivity. }
  unfold u_escape. apply Forall_app. split; [by repeat constructor|].
  repeat constructor; apply Hd; zlia.
Qed.

Lemma printable_escape s : Forall (λ b, printable b = true) (escape s).
Proof.
  assert (∀ n s, (length s <= n)%nat → Forall (λ b, printable b = true) (escape s)) as Hn;
    [|by eapply Hn].
  clear s. induction n as [|n IH]; intros [|b0 s1] Hl; try constructor; [simpl in Hl; lia|].
  assert (Forall (λ b, printable b = true) (u_escape Utf8.RuneError ++ escape s1)) as Hinv.
  { apply Forall_app. split; [by apply printable_u_escape|apply IH; simpl in Hl; lia]. }
  assert (∀ b lo hi, Utf8.within lo hi b = true → 0x80 <= lo → printable b = true) as Hw.
  { intros b lo hi Hb Hlo. unfold Utf8.within in Hb. unfold printable. lia. }
  pose proof (Utf8.second_spec (b2z b0)) as Hsec. cbn [escape]. unfold Utf8.cont.
  repeat case_match; try done;
    rewrite ?andb_true_iff in *; repeat match goal with H : _ ∧ _ |- _ => destruct H end;
    try (apply Forall_app; split; [|apply IH; simpl in *; lia]);
    repeat (apply List.Forall_cons; [by eapply Hw; [eassumption|lia]|]);
    try (apply IH; simpl in *; lia); try apply List.Forall_nil; try done.
  - assert (∀ b, b2z b < 128 → Forall (λ b, printable b = true) (escape_byte b)) as He.
    { intros b. by_bytes b. }
    apply He. lia.
  - apply printable_u_escape. lia.
Qed.

Lemma printable_join l :
  Forall (Forall (λ b, printable b = true)) l →
  Forall (λ b, printable b = true) (join ","%byte l).
Proof.
  induction 1 as [|s [|s' l] Hs Hl IH]; [constructor|done|].
  rewrite join_cons by done. apply Forall_app. split; [done|]. by constructor.
Qed.

Lemma printable_quote s : Forall (λ b, printable b = true) (quote s).
Proof.
  constructor; [done|]. apply Forall_app. split; [apply printable_escape|by repeat constructor].
Qed.

Lemma num_char_printable l :
  Forall (λ b, num_char b = true) l → Forall (λ b, printable b = true) l.
Proof. intros H. eapply Forall_impl; [|exact H]. intros b. by_bytes b. Qed.

Fixpoint printable_Marshal (v : json) : json_ok v → Forall (λ b, printable b = true) (Marshal v).
Proof.
  destruct v as [| [] |l|s|vs|kvs]; intros Hv; cbn [Marshal json_ok] in *;
    try (by repeat constructor).
  - apply num_char_printable, Hv.
  - apply printable_quote.
  - constructor; [done|]. apply Forall_app. split; [|by repeat constructor].
    apply printable_join. induction vs as [|v vs IH]; constructor.
    + apply printable_Marshal, Hv.
    + apply IH, Hv.
  - constructor; [done|]. apply Forall_app. split; [|by repeat constructor].
    apply printable_join. induction kvs as [|[k v] kvs IH]; constructor.
    + apply Forall_app. split; [apply printable_quote|]. constructor; [done|].
      apply printable_Marshal, Hv.
    + apply IH, Hv.
Qed.
