(* ===== verification/Handshake.v ===== *)
(** * The handshake packets

    server_handshake.go: the open packet the server sends, and how the client reads it
    (socket.go, [onPacket]); and the packet with which a client opens a WebTransport
    stream (socket_transport_webtransport.go, [writeOpen]) and how the server reads it
    (server_transport_webtransport.go, [parseWebTransportSessionID]). *)
From S2P Require Import Prelude Packet Unicode Payload Json Http ServerOptions.

(** ** The open packet *)

Definition is_upgrade (c : serverConfig) (t : TransportType) : bool :=
  if decide (t = TransportTypeWebSocket) then true
  else if decide (t = TransportTypeWebTransport) then webTransportUpgrade c
  else false.

(** The upgrades offered, in the order of the configured transports. *)
Definition offered (c : serverConfig) (offerUpgrades : bool) : list TransportType :=
  if offerUpgrades && allowUpgrades c
  then filter (λ t, is_upgrade c t = true) (transports c) else [].

(** [json.Marshal] of the struct, by its tags. *)
Definition open_json (p : OpenPacket) : json :=
  JObj [(str "sid", JStr (SessionID p));
        (str "upgrades", JArr (JStr <$> Upgrades p));
        (str "pingInterval", JInt (PingInterval p));
        (str "pingTimeout", JInt (PingTimeout p));
        (str "maxPayload", JInt (MaxPayload p))].

Definition open_of (c : serverConfig) (id : bytes) (offerUpgrades : bool) : OpenPacket :=
  mkOpenPacket id (offered c offerUpgrades)
    (Z.quot (pingInterval c) Millisecond) (Z.quot (pingTimeout c) Millisecond) (maxPayload c).

(** [json.Marshal] has no error for a struct of strings and integers, so neither has
    this. *)
Definition buildOpenPacket (c : serverConfig) (id : bytes) (offerUpgrades : bool) : Packet :=
  mkPacket PacketOpen (Marshal (open_json (open_of c id offerUpgrades))) false.

(** [json.Unmarshal] into a zero [OpenPacket]. *)
Definition open_fields : struct :=
  [(str "sid", FStr []); (str "upgrades", FStrs []); (str "pingInterval", FInt 0);
   (str "pingTimeout", FInt 0); (str "maxPayload", FInt 0)].

Definition unmarshalOpen (data : bytes) : res OpenPacket :=
  let! s := Unmarshal data open_fields in
  match s with
  | [(_, FStr sid); (_, FStrs ups); (_, FInt i); (_, FInt t); (_, FInt m)] =>
      Ok (mkOpenPacket sid ups i t m)
  | _ => Panic
  end.

(** ** Opening a WebTransport stream *)

(** The packet [writeOpen] frames. *)
Definition writeOpen (sid : bytes) : Packet :=
  if decide (sid = []) then packet_of PacketOpen
  else mkPacket PacketOpen (Marshal (JObj [(str "sid", JStr sid)])) false.

Definition parseWebTransportSessionID (data : bytes) : res bytes :=
  let! s := res_wrap "parsing webtransport session id" (Unmarshal data [(str "sid", FStr [])]) in
  match s with
  | [(_, FStr sid)] =>
      if decide (sid = []) then Err (ESentinel errWebTransportMissingSessionID) else Ok sid
  | _ => Panic
  end.

(** ** Proofs *)

Lemma normalise_valid s : Utf8.valid s = true → normalise s = s.
Proof. intros H. by apply bool_decide_eq_true in H. Qed.

Lemma depth_strs (l : list bytes) : depths (JStr <$> l) = 0%nat.
Proof. by induction l. Qed.

Lemma ok_strs (l : list bytes) : foldr (λ v P, json_ok v ∧ P) True (JStr <$> l).
Proof. by induction l. Qed.

Lemma norm_strs l :
  Forall (λ t, Utf8.valid t = true) l → norm <$> (JStr <$> l) = JStr <$> l.
Proof.
  induction 1 as [|t l Ht Hl IH]; [done|]. cbn. rewrite normalise_valid by done. by rewrite IH.
Qed.

Lemma norm_JInt n : norm (JInt n) = JInt n.
Proof. done. Qed.

Lemma unmarshalOpen_no_panic data : unmarshalOpen data ≠ Panic.
Proof.
  unfold unmarshalOpen. pose proof (Unmarshal_no_panic data open_fields).
  destruct (Unmarshal data open_fields) as [s| |] eqn:E; [|done..]. cbn.
  apply Unmarshal_shape in E.
  destruct s as [|[? []] [|[? []] [|[? []] [|[? []] [|[? []] [|? ?]]]]]]; done.
Qed.

(** A packet whose fields have the width of their types. *)
Definition open_ok (p : OpenPacket) : Prop :=
  Utf8.valid (SessionID p) = true ∧ Forall (λ t, Utf8.valid t = true) (Upgrades p) ∧
  - 2 ^ 63 <= PingInterval p <= int64_max ∧ - 2 ^ 63 <= PingTimeout p <= int64_max ∧
  - 2 ^ 63 <= MaxPayload p <= int64_max.

Lemma parse_open p : open_ok p → parse (Marshal (open_json p)) = Some (open_json p).
Proof.
  intros (H1 & H2 & H3 & H4 & H5). rewrite parse_Marshal.
  - f_equal. unfold open_json. cbn [norm]. rewrite !fmap_cons, fmap_nil. cbn [fst snd norm].
    rewrite norm_strs, (normalise_valid (SessionID p)) by done. reflexivity.
  - cbn [json_ok open_json foldr snd]. pose proof (ok_strs (Upgrades p)).
    by split_and!; try apply JInt_ok.
  - cbn [depth open_json foldr snd]. fold (depths (JStr <$> Upgrades p)).
    rewrite depth_strs. unfold maxNestingDepth. cbn. lia.
Qed.

Lemma decode_strs_JStr l old : decode_strs (JStr <$> l) old = (None, l).
Proof. revert old. induction l as [|s l IH]; intros old; [done|]. cbn. by rewrite IH. Qed.

Lemma decode_cons k n v kvs s s' :
  names k s = Some n → set_field n v s = (None, s') →
  decode_struct ((k, v) :: kvs) s = decode_struct kvs s'.
Proof.
  intros Hn Hs. cbn [decode_struct]. rewrite Hn, Hs. by destruct (decode_struct kvs s').
Qed.

Lemma decode_open p :
  open_ok p →
  decode_struct
    [(str "sid", JStr (SessionID p)); (str "upgrades", JArr (JStr <$> Upgrades p));
     (str "pingInterval", JInt (PingInterval p)); (str "pingTimeout", JInt (PingTimeout p));
     (str "maxPayload", JInt (MaxPayload p))] open_fields =
  (None, [(str "sid", FStr (SessionID p)); (str "upgrades", FStrs (Upgrades p));
          (str "pingInterval", FInt (PingInterval p)); (str "pingTimeout", FInt (PingTimeout p));
          (str "maxPayload", FInt (MaxPayload p))]).
Proof.
  intros (_ & _ & H3 & H4 & H5).
  destruct (Atoi_JInt _ H3) as (l3 & -> & A3), (Atoi_JInt _ H4) as (l4 & -> & A4),
    (Atoi_JInt _ H5) as (l5 & -> & A5).
  do 5 (erewrite decode_cons; [|vm_compute; reflexivity|
    unfold open_fields; cbn [set_field];
    repeat (rewrite decide_False by (vm_compute; discriminate)); rewrite decide_True by done;
    cbn [decode_field]; rewrite ?A3, ?A4, ?A5, ?decode_strs_JStr; reflexivity]).
  reflexivity.
Qed.

Lemma unmarshal_open p : open_ok p → unmarshalOpen (Marshal (open_json p)) = Ok p.
Proof.
  intros Hp. unfold unmarshalOpen, Unmarshal. rewrite parse_open by done.
  unfold open_json. rewrite decode_open by done. by destruct p.
Qed.

(** The options are in range: durations and sizes are 64-bit integers. *)
Definition config_ok (c : serverConfig) : Prop :=
  Forall (λ t, Utf8.valid t = true) (transports c) ∧
  - 2 ^ 63 <= pingInterval c <= int64_max ∧ - 2 ^ 63 <= pingTimeout c <= int64_max ∧
  - 2 ^ 63 <= maxPayload c <= int64_max.

Lemma quot_range a : - 2 ^ 63 <= a <= int64_max → - 2 ^ 63 <= Z.quot a Millisecond <= int64_max.
Proof. unfold int64_max, Millisecond. intros H. zlia. Qed.

Lemma open_of_ok c id offer :
  config_ok c → Utf8.valid id = true → open_ok (open_of c id offer).
Proof.
  intros (Ht & Hi & Hp & Hm) Hid. unfold open_ok, open_of. cbn.
  split_and!; try done; try (apply quot_range; lia); try lia.
  unfold offered. case_match; [|constructor]. rewrite Forall_forall in Ht |- *.
  intros t Hin. apply list_elem_of_In, list_elem_of_filter in Hin as [_ Hin].
  by apply Ht, list_elem_of_In.
Qed.

Lemma open_packet_ok c id offer :
  config_ok c → Utf8.valid id = true →
  well_formed (buildOpenPacket c id offer) = true ∧
  separator_free (buildOpenPacket c id offer) = true.
Proof.
  intros Hc Hid. destruct (open_of_ok c id offer Hc Hid) as (_ & _ & H3 & H4 & H5).
  split; [done|]. unfold separator_free. cbn. apply bool_decide_eq_true. intros Hin.
  assert (Forall (λ b, printable b = true) (Marshal (open_json (open_of c id offer)))) as Hp.
  { apply printable_Marshal. cbn [json_ok open_json foldr snd].
    pose proof (ok_strs (Upgrades (open_of c id offer))). by split_and!; try apply JInt_ok. }
  rewrite Forall_forall in Hp. apply list_elem_of_In, Hp in Hin. by vm_compute in Hin.
Qed.

(** ** Properties *)

(** The two ends agree on the handshake: the body of the handshake response decodes,
    at the client, to one open packet whose JSON gives back the session identifier, the
    offered upgrades, the heartbeat timings in milliseconds and the payload limit. *)
Theorem handshake_round_trip c id offer :
  config_ok c → Utf8.valid id = true →
  ∃ p, DecodePayload ProtocolVersion4 (EncodePayload [buildOpenPacket c id offer]) = Ok [p] ∧
    PType p = PacketOpen ∧
    unmarshalOpen (Data p) =
      Ok (mkOpenPacket id (offered c offer) (Z.quot (pingInterval c) Millisecond)
            (Z.quot (pingTimeout c) Millisecond) (maxPayload c)).
Proof.
  intros Hc Hid. destruct (open_packet_ok c id offer Hc Hid) as [Hw Hs].
  exists (buildOpenPacket c id offer). split_and!; [|done|].
  - apply decode_encode_payload; [done|by repeat constructor..].
  - apply unmarshal_open. by apply open_of_ok.
Qed.

Lemma handshake_round_trip_witness :
  ∃ p, DecodePayload ProtocolVersion4
         (EncodePayload [buildOpenPacket defaultServerConfig (str "a<b") true]) = Ok [p] ∧
    PType p = PacketOpen ∧
    unmarshalOpen (Data p) =
      Ok (mkOpenPacket (str "a<b") (offered defaultServerConfig true)
            (Z.quot (pingInterval defaultServerConfig) Millisecond)
            (Z.quot (pingTimeout defaultServerConfig) Millisecond)
            (maxPayload defaultServerConfig)).
Proof.
  apply handshake_round_trip; [|vm_compute; reflexivity].
  split; [repeat constructor|]. split_and!; vm_compute; discriminate.
Defined.

(** Only transports that can serve an upgrade are offered, each configured, and none
    when the session does not start on polling or upgrades are off. *)
Theorem offered_servable c id offer t :
  t ∈ Upgrades (open_of c id offer) →
  offer = true ∧ allowUpgrades c = true ∧ t ∈ transports c ∧
  (t = TransportTypeWebSocket ∨
   t = TransportTypeWebTransport ∧ webTransportUpgrade c = true).
Proof.
  cbn. unfold offered, is_upgrade. intros Ht.
  destruct offer, (allowUpgrades c); try by apply not_elem_of_nil in Ht.
  apply list_elem_of_filter in Ht as [Ht Hin].
  split_and!; [done..|]. repeat case_decide; naive_solver.
Qed.

Lemma offered_servable_witness :
  true = true ∧ allowUpgrades defaultServerConfig = true ∧
  TransportTypeWebSocket ∈ transports defaultServerConfig ∧
  (TransportTypeWebSocket = TransportTypeWebSocket ∨
   TransportTypeWebSocket = TransportTypeWebTransport ∧
   webTransportUpgrade defaultServerConfig = true).
Proof. apply (offered_servable defaultServerConfig []). vm_compute. left. Defined.

(** A client that opens a WebTransport stream to upgrade a session is understood: the
    server reads back the session identifier, and only an empty packet starts a fresh
    session. *)
Theorem webtransport_open_round_trip sid :
  Utf8.valid sid = true →
  (Data (writeOpen sid) = [] ↔ sid = []) ∧
  (sid ≠ [] → parseWebTransportSessionID (Data (writeOpen sid)) = Ok sid).
Proof.
  intros Hv. unfold writeOpen. case_decide as Hs; cbn [Data packet_of]; [done|].
  split; [done|]. intros _. unfold parseWebTransportSessionID, Unmarshal.
  rewrite parse_Marshal; [|done|cbn; unfold maxNestingDepth; lia].
  cbn [norm]. rewrite fmap_cons, fmap_nil. cbn [fst snd norm]. rewrite (normalise_valid sid) by done.
  erewrite decode_cons; [|vm_compute; reflexivity|].
  2:{ cbn [set_field]. rewrite decide_True by done. reflexivity. }
  cbn. by rewrite decide_False.
Qed.

Lemma webtransport_open_round_trip_witness :
  (Data (writeOpen (str "x")) = [] ↔ str "x" = []) ∧
  (str "x" ≠ [] → parseWebTransportSessionID (Data (writeOpen (str "x"))) = Ok (str "x")).
Proof. apply webtransport_open_round_trip. vm_compute. reflexivity. Defined.
