(* ===== verification/ServerTransport.v ===== *)
(** * The server transports

    The critical sections of server_transport_polling.go,
    server_transport_websocket.go and server_transport_webtransport.go, as functions on
    the state each transport's mutex guards, and the frames the stream transports
    write and read.  The session machine composes them with the I/O steps between the
    critical sections. *)
From S2P Require Import Prelude Packet Payload Framing.

(** A [serverTransport] interface value: the dynamic type and the pointer. *)
Inductive transportKind := KPolling | KWebSocket | KWebTransport.
#[export] Instance transportKind_eq_decision : EqDecision transportKind.
Proof. solve_decision. Defined.

Record tref := mkRef { tkind : transportKind; addr : nat }.
#[export] Instance tref_eq_decision : EqDecision tref.
Proof. solve_decision. Defined.

Definition transportType (t : tref) : TransportType :=
  match tkind t with
  | KPolling => TransportTypePolling
  | KWebSocket => TransportTypeWebSocket
  | KWebTransport => TransportTypeWebTransport
  end.

(** ** What the session relies on

    [t_send] and [t_close] are the critical sections at the start of [send] and
    [close]: they say what is left to do once the mutex is released. *)

Inductive send_plan :=
| Refused                (** [return false, nil] *)
| Claimed (ch : nat)     (** the held poll's channel is taken; deliver to it *)
| Writing.               (** go on to write frames *)

Inductive close_plan :=
| CloseNothing
| ClosePoll (ch : nat)   (** deliver a close packet to the held poll *)
| CloseConn.             (** tear down the connection *)

Class ServerTransport (T : Type) := {
  t_closed : T → bool;
  t_send : T → send_plan * T;
  t_close : T → close_plan * T;
}.

Class ServerTransportLaws (T : Type) `{ServerTransport T} := {
  send_refused_closed t : t_closed t = true → t_send t = (Refused, t);
  send_keeps_closed t : t_closed (t_send t).2 = t_closed t;
  close_marks_closed t : t_closed (t_close t).2 = true;
  close_idempotent t : t_closed t = true → t_close t = (CloseNothing, t);
}.

(** ** server_transport_polling.go *)
Module Polling.

Record serverPollingTransport := mkPolling {
  closed : bool;
  (** The channel of the held poll GET. *)
  dataCh : option nat;
}.

Definition newServerPollingTransport : serverPollingTransport := mkPolling false None.

#[global] Instance inhabited : Inhabited serverPollingTransport :=
  populate newServerPollingTransport.

Definition send (t : serverPollingTransport) : send_plan * serverPollingTransport :=
  if closed t then (Refused, t)
  else match dataCh t with
       | None => (Refused, t)
       | Some ch => (Claimed ch, mkPolling (closed t) None)
       end.

Definition hold (ch : nat) (t : serverPollingTransport)
    : option error * serverPollingTransport :=
  if closed t then (Some (ESentinel errPollClosed), t)
  else match dataCh t with
       | Some _ => (Some (ESentinel errPollOverlap), t)
       | None => (None, mkPolling (closed t) (Some ch))
       end.

Definition release (ch : nat) (t : serverPollingTransport)
    : bool * serverPollingTransport :=
  if decide (dataCh t = Some ch) then (true, mkPolling (closed t) None) else (false, t).

Definition writeNoop (t : serverPollingTransport) : option nat * serverPollingTransport :=
  (dataCh t, mkPolling (closed t) None).

Definition close (t : serverPollingTransport) : close_plan * serverPollingTransport :=
  if closed t then (CloseNothing, t)
  else (match dataCh t with None => CloseNothing | Some ch => ClosePoll ch end,
        mkPolling true None).

#[global] Instance transport : ServerTransport serverPollingTransport :=
  {| t_closed := closed; t_send := send; t_close := close |}.

#[global] Instance transport_laws : ServerTransportLaws serverPollingTransport.
Proof.
  split; cbn; unfold send, close; intros t; try intros Hc.
  - by rewrite Hc.
  - destruct (closed t) eqn:?; [done|]. by destruct (dataCh t).
  - by destruct (closed t) eqn:?.
  - by rewrite Hc.
Qed.

End Polling.

(** ** server_transport_websocket.go and server_transport_webtransport.go

    Both carry a session on one connection and have the same guarded state. *)
Module Stream.

Record streamTransport := mkStreamTransport {
  closed : bool;
  probing : bool;
  (** [writeMu] is held. *)
  writeMu : bool;
  (** The connection has been torn down by [close]. *)
  connClosed : bool;
}.

(** [newServerWebSocketTransport] and [newServerWebTransportTransport]. *)
Definition newTransport (probing : bool) : streamTransport :=
  mkStreamTransport false probing false false.

#[global] Instance inhabited : Inhabited streamTransport := populate (newTransport true).

Definition send (t : streamTransport) : send_plan * streamTransport :=
  (if closed t then Refused else Writing, t).

Definition promote (t : streamTransport) : streamTransport :=
  mkStreamTransport (closed t) false (writeMu t) (connClosed t).

Definition isProbing (t : streamTransport) : bool := probing t.

Definition close (t : streamTransport) : close_plan * streamTransport :=
  if closed t then (CloseNothing, t)
  else (CloseConn, mkStreamTransport true (probing t) (writeMu t) (connClosed t)).

Definition set_writeMu (held : bool) (t : streamTransport) : streamTransport :=
  mkStreamTransport (closed t) (probing t) held (connClosed t).

Definition close_conn (t : streamTransport) : streamTransport :=
  mkStreamTransport (closed t) (probing t) (writeMu t) true.

#[global] Instance transport : ServerTransport streamTransport :=
  {| t_closed := closed; t_send := send; t_close := close |}.

#[global] Instance transport_laws : ServerTransportLaws streamTransport.
Proof.
  split; cbn; unfold send, close; intros t; try intros Hc.
  - by rewrite Hc.
  - done.
  - by destruct (closed t) eqn:?.
  - by rewrite Hc.
Qed.

End Stream.

(** ** Frames *)

(** A WebSocket message, with its type, or bytes of a WebTransport stream. *)
Inductive MessageType := MessageText | MessageBinary.
#[export] Instance MessageType_eq_decision : EqDecision MessageType.
Proof. solve_decision. Defined.

(** [serverWebSocketTransport.writeFrame]: the message handed to [ws.Write]. *)
Definition writeFrame (packet : Packet) : MessageType * bytes :=
  if IsBinary packet then (MessageBinary, Data packet)
  else (MessageText, EncodePacket packet).

Definition decodeWebSocketFrame (messageType : MessageType) (frame : bytes) : res Packet :=
  if decide (messageType = MessageBinary) then Ok (mkPacket PacketMessage frame true)
  else res_wrap "decoding websocket frame" (DecodePacket frame).

Lemma decodeWebSocketFrame_no_panic mt frame : decodeWebSocketFrame mt frame ≠ Panic.
Proof.
  unfold decodeWebSocketFrame. case_decide; [done|].
  pose proof (DecodePacket_no_panic frame). by destruct (DecodePacket frame).
Qed.

(** ** The probe handshake and the end of a read loop *)

Definition probePong : Packet := text_packet PacketPong (str "probe").

Inductive probe_action := AnswerProbe | CommitUpgrade | IgnorePacket.

(** [handleProbePacket], the same in both transports. *)
Definition handleProbePacket (packet : Packet) : probe_action :=
  if decide (PType packet = PacketPing ∧ Data packet = str "probe") then AnswerProbe
  else if decide (PType packet = PacketUpgrade) then CommitUpgrade
  else IgnorePacket.

Inductive read_exit :=
| ExitQuietly
| ExitAbort
| ExitClose (reason : bytes) (cause : error).

(** The [switch] of the two read loops after a failed read. *)
Definition read_failed (k : transportKind) (t : Stream.streamTransport) (err : error)
    : read_exit :=
  if Stream.closed t then ExitQuietly
  else if Stream.probing t then ExitAbort
  else match k with
       | KWebTransport =>
           if isWebTransportParseError err then ExitClose (str "parse error") err
           else ExitClose (str "transport close") err
       | _ => ExitClose (str "transport close") err
       end.

(** The WebSocket read loop after a frame that does not decode. *)
Definition frame_rejected (t : Stream.streamTransport) (err : error) : read_exit :=
  if Stream.isProbing t then ExitAbort else ExitClose (str "parse error") err.

(** ** Properties *)

(** A WebSocket frame written by one side decodes on the other to the packet that
    was sent, for every well-formed packet, text or binary. *)
Theorem websocket_frame_round_trip p :
  well_formed p = true →
  decodeWebSocketFrame (writeFrame p).1 (writeFrame p).2 = Ok p.
Proof.
  intros Hwf. unfold writeFrame, decodeWebSocketFrame.
  destruct (IsBinary p) eqn:Hb; cbn [fst snd].
  - rewrite decide_True by done. destruct p as [t d b]. unfold well_formed in Hwf.
    cbn in *. subst b. apply andb_true_iff in Hwf as [_ Hm].
    apply bool_decide_eq_true in Hm. by subst t.
  - rewrite decide_False by done. unfold res_wrap. by rewrite decode_encode_packet.
Qed.

Lemma websocket_frame_round_trip_witness :
  decodeWebSocketFrame (writeFrame (mkPacket PacketMessage [x00; xff] true)).1
    (writeFrame (mkPacket PacketMessage [x00; xff] true)).2 =
  Ok (mkPacket PacketMessage [x00; xff] true).
Proof. apply websocket_frame_round_trip. vm_compute. reflexivity. Defined.
