(* ===== verification/ServerKinds.v ===== *)
(** * The two stream transports of the server

    The session machine runs on one record for server_transport_websocket.go and
    server_transport_webtransport.go.  Here each has its own: the struct, the
    constructor, the methods and the whole read loop, as the file writes them.  Both
    loops are shown to be one loop over packets that takes its decisions with the
    functions the machine takes them with, so the two transports drive a session alike;
    and a loop always ends by closing the channel the request handler waits on. *)
From S2P Require Import Prelude Packet Payload Framing ServerTransport.

(** ** What a read loop meets *)

(** The methods of the session a read loop calls. *)
Inductive session_call :=
| CallAbortUpgrade
| CallOnProbe
| CallCompleteUpgrade
| CallHandlePacket (packet : Packet)
| CallCloseWithReason (reason : bytes) (cause : error).

(** What the session, or another goroutine, does to the transport before the loop goes on. *)
Inductive touch := TouchPromote | TouchClose.

(** What comes of a write. *)
Inductive fate := Written | DeadlineFailed (e : error) | WriteFailed (e : error).

(** The rest of the program, as a read loop sees it: [E] is its state. *)
Record surroundings (E : Type) := mkSurroundings {
  react : session_call → E → list touch * E;
  write : E → fate * E;
}.
Arguments react {_}.
Arguments write {_}.

(** What is seen of a loop; [W] is what the connection carries. *)
Inductive event (W : Type) :=
| Called (c : session_call)
| Wire (w : W)
| ConnClosed.
Arguments Called {_}.
Arguments Wire {_}.
Arguments ConnClosed {_}.

Definition event_map {V W} (f : V → W) (e : event V) : event W :=
  match e with Called c => Called c | Wire v => Wire (f v) | ConnClosed => ConnClosed end.

Record running (T W E : Type) := mkRunning { tr : T; around : E; log : list (event W) }.
Arguments mkRunning {_ _ _}.
Arguments tr {_ _ _}.
Arguments around {_ _ _}.
Arguments log {_ _ _}.

(** What the calls of a session on its transport do. *)
Class Touchable (T : Type) := touched : touch → T → T * bool.

Section around.
Context {T W E : Type} `{Touchable T} (env : surroundings E).

(** One touch; closing the transport closes its connection, once. *)
Definition touch_one (r : running T W E) (c : touch) : running T W E :=
  let '(t, closes) := touched c (tr r) in
  mkRunning t (around r) (log r ++ (if closes : bool then [ConnClosed] else [])).

(** Call the session. *)
Definition call (c : session_call) (r : running T W E) : running T W E :=
  let '(touches, x) := react env c (around r) in
  foldl touch_one (mkRunning (tr r) x (log r ++ [Called c])) touches.

(** Write to the connection. *)
Definition put (w : W) (r : running T W E) : fate * running T W E :=
  let '(f, x) := write env (around r) in
  (f, mkRunning (tr r) x (log r ++ (match f with Written => [Wire w] | _ => [] end))).

Definition on_tr (f : T → T) (r : running T W E) : running T W E :=
  mkRunning (f (tr r)) (around r) (log r).

End around.

(** ** server_transport_websocket.go *)
Module WebSocket.

Record serverWebSocketTransport := mkWebSocket {
  socket : option nat;
  ws : nat;
  writeMu : bool;
  closed : bool;
  probing : bool;
  (** [ctx] has been cancelled. *)
  cancelled : bool;
  (** [done] has been closed. *)
  done : bool;
}.

Definition newServerWebSocketTransport (conn : nat) (probing : bool) : serverWebSocketTransport :=
  mkWebSocket None conn false false probing false false.

Definition transportType (t : serverWebSocketTransport) : TransportType :=
  TransportTypeWebSocket.

Definition isProbing (t : serverWebSocketTransport) : bool := probing t.

Definition promote (t : serverWebSocketTransport) : serverWebSocketTransport :=
  mkWebSocket (socket t) (ws t) (writeMu t) (closed t) false (cancelled t) (done t).

(** The result says whether [ws.Close] is called. *)
Definition close (t : serverWebSocketTransport) : serverWebSocketTransport * bool :=
  if closed t then (t, false)
  else (mkWebSocket (socket t) (ws t) (writeMu t) true (probing t) true (done t), true).

Definition set_writeMu (held : bool) (t : serverWebSocketTransport) : serverWebSocketTransport :=
  mkWebSocket (socket t) (ws t) held (closed t) (probing t) (cancelled t) (done t).

(** [close(t.done)]: closing a channel twice panics. *)
Definition close_done (t : serverWebSocketTransport) : res serverWebSocketTransport :=
  if done t then Panic
  else Ok (mkWebSocket (socket t) (ws t) (writeMu t) (closed t) (probing t) (cancelled t) true).

#[global] Instance touchable : Touchable serverWebSocketTransport := λ c t,
  match c with TouchPromote => (promote t, false) | TouchClose => close t end.

Section loop.
Context {E : Type} (env : surroundings E).
Local Notation run := (running serverWebSocketTransport (MessageType * bytes) E).

(** [ws.Write] takes its deadline from its context, so it fails in one way. *)
Definition writeFrame (packet : Packet) (r : run) : option error * run :=
  let '(f, r) := put env (ServerTransport.writeFrame packet) r in
  (match f with Written => None | DeadlineFailed e | WriteFailed e => Some e end, r).

Fixpoint writeAll (packets : list Packet) (r : run) : bool * option error * run :=
  match packets with
  | [] => (true, None, r)
  | packet :: packets =>
      match writeFrame packet r with
      | (Some e, r) => (false, Some (EWrap "writing websocket frame" e), r)
      | (None, r) => writeAll packets r
      end
  end.

Definition send (packets : list Packet) (r : run) : bool * option error * run :=
  if closed (tr r) then (false, None, r)
  else let '(res, r) := writeAll packets (on_tr (set_writeMu true) r) in
       (res, on_tr (set_writeMu false) r).

Definition writeProbePong (r : run) : option error * run :=
  let '(err, r) := writeFrame (text_packet PacketPong (str "probe"))
                     (on_tr (set_writeMu true) r) in
  (err, on_tr (set_writeMu false) r).

Definition handleProbePacket (packet : Packet) (r : run) : run :=
  if decide (PType packet = PacketPing ∧ Data packet = str "probe") then
    match writeProbePong r with
    | (Some _, r) => call env CallAbortUpgrade r
    | (None, r) => call env CallOnProbe r
    end
  else if decide (PType packet = PacketUpgrade) then call env CallCompleteUpgrade r
  else r.

(** The [switch] after a failed read. *)
Definition read_error (err : error) (r : run) : run :=
  if closed (tr r) then r
  else if probing (tr r) then call env CallAbortUpgrade r
  else call env (CallCloseWithReason (str "transport close") err) r.

(** The [for] loop, on the messages the reads return before one fails with [err]. *)
Fixpoint loop (messages : list (MessageType * bytes)) (err : error) (r : run) : res run :=
  match messages with
  | [] => Ok (read_error err r)
  | (messageType, frame) :: messages =>
      match decodeWebSocketFrame messageType frame with
      | Panic => Panic
      | Err e =>
          Ok (if isProbing (tr r) then call env CallAbortUpgrade r
              else call env (CallCloseWithReason (str "parse error") e) r)
      | Ok packet =>
          loop messages err
            (if isProbing (tr r) then handleProbePacket packet r
             else call env (CallHandlePacket packet) r)
      end
  end.

Definition readLoop (messages : list (MessageType * bytes)) (err : error) (r : run)
    : res run :=
  let! r := loop messages err r in
  let! t := close_done (tr r) in
  Ok (mkRunning t (around r) (log r)).

End loop.

(** As the record of the machine. *)
Definition abs (t : serverWebSocketTransport) : Stream.streamTransport :=
  Stream.mkStreamTransport (closed t) (probing t) (writeMu t) (closed t).

End WebSocket.

(** ** server_transport_webtransport.go *)
Module WebTransport.

Record serverWebTransportTransport := mkWebTransport {
  socket : option nat;
  session : nat;
  stream : nat;
  reader : nat;
  writeMu : bool;
  closed : bool;
  probing : bool;
  (** [done] has been closed. *)
  done : bool;
}.

Definition newServerWebTransportTransport (session stream reader : nat) (probing : bool)
    : serverWebTransportTransport :=
  mkWebTransport None session stream reader false false probing false.

Definition transportType (t : serverWebTransportTransport) : TransportType :=
  TransportTypeWebTransport.

Definition isProbing (t : serverWebTransportTransport) : bool := probing t.

Definition promote (t : serverWebTransportTransport) : serverWebTransportTransport :=
  mkWebTransport (socket t) (session t) (stream t) (reader t) (writeMu t) (closed t) false
    (done t).

(** The result says whether [session.CloseWithError] is called. *)
Definition close (t : serverWebTransportTransport) : serverWebTransportTransport * bool :=
  if closed t then (t, false)
  else (mkWebTransport (socket t) (session t) (stream t) (reader t) (writeMu t) true
          (probing t) (done t), true).

Definition set_writeMu (held : bool) (t : serverWebTransportTransport)
    : serverWebTransportTransport :=
  mkWebTransport (socket t) (session t) (stream t) (reader t) held (closed t) (probing t)
    (done t).

Definition close_done (t : serverWebTransportTransport) : res serverWebTransportTransport :=
  if done t then Panic
  else Ok (mkWebTransport (socket t) (session t) (stream t) (reader t) (writeMu t) (closed t)
             (probing t) true).

#[global] Instance touchable : Touchable serverWebTransportTransport := λ c t,
  match c with TouchPromote => (promote t, false) | TouchClose => close t end.

Section loop.
Context {E : Type} (env : surroundings E).
Local Notation run := (running serverWebTransportTransport bytes E).

Definition writeFrames (packets : list Packet) (r : run) : option error * run :=
  let '(f, r) := put env (frames_buffer packets) (on_tr (set_writeMu true) r) in
  (match f with
   | Written => None
   | DeadlineFailed e => Some (EWrap "setting write deadline" e)
   | WriteFailed e => Some (EWrap "writing webtransport frame" e)
   end, on_tr (set_writeMu false) r).

Definition send (packets : list Packet) (r : run) : bool * option error * run :=
  if closed (tr r) then (false, None, r)
  else match writeFrames packets r with
       | (Some err, r) => (false, Some err, r)
       | (None, r) => (true, None, r)
       end.

Definition writeProbePong (r : run) : option error * run :=
  writeFrames [text_packet PacketPong (str "probe")] r.

Definition handleProbePacket (packet : Packet) (r : run) : run :=
  if decide (PType packet = PacketPing ∧ Data packet = str "probe") then
    match writeProbePong r with
    | (Some _, r) => call env CallAbortUpgrade r
    | (None, r) => call env CallOnProbe r
    end
  else if decide (PType packet = PacketUpgrade) then call env CallCompleteUpgrade r
  else r.

(** The [switch] after a failed read. *)
Definition read_error (err : error) (r : run) : run :=
  if closed (tr r) then r
  else if probing (tr r) then call env CallAbortUpgrade r
  else if isWebTransportParseError err
  then call env (CallCloseWithReason (str "parse error") err) r
  else call env (CallCloseWithReason (str "transport close") err) r.

(** The [for] loop, on the bytes [t.reader] has still to give.  Every pass but the last
    takes a frame's header off the stream, so one more pass than there are bytes is
    enough fuel. *)
Fixpoint loop (fuel : nat) (maxPayload : Z) (input : Stream) (r : run) : option (res run) :=
  match fuel with
  | O => None
  | S fuel =>
      match readWebTransportPacket input (webTransportServerReadLimit maxPayload) with
      | (Panic, _) => Some Panic
      | (Err err, _) => Some (Ok (read_error err r))
      | (Ok packet, input) =>
          loop fuel maxPayload input
            (if isProbing (tr r) then handleProbePacket packet r
             else call env (CallHandlePacket packet) r)
      end
  end.

Definition readLoop (fuel : nat) (maxPayload : Z) (input : Stream) (r : run)
    : option (res run) :=
  result ← loop fuel maxPayload input r;
  Some (let! r := result in
        let! t := close_done (tr r) in
        Ok (mkRunning t (around r) (log r))).

End loop.

(** As the record of the machine. *)
Definition abs (t : serverWebTransportTransport) : Stream.streamTransport :=
  Stream.mkStreamTransport (closed t) (probing t) (writeMu t) (closed t).

End WebTransport.

(** ** One loop over packets *)

#[export] Instance stream_touchable : Touchable Stream.streamTransport := λ c t,
  match c with
  | TouchPromote => (Stream.promote t, false)
  | TouchClose =>
      match Stream.close t with
      | (CloseConn, t) => (Stream.close_conn t, true)
      | (_, t) => (t, false)
      end
  end.

Section serve.
Context {E : Type} (env : surroundings E).
Local Notation run := (running Stream.streamTransport Packet E).

(** A packet that was read, with the decisions of [exec_dispatch] of the machine. *)
Definition serve_packet (p : Packet) (r : run) : run :=
  if Stream.isProbing (tr r) then
    match ServerTransport.handleProbePacket p with
    | AnswerProbe =>
        let '(f, r) := put env probePong (on_tr (Stream.set_writeMu true) r) in
        call env (match f with Written => CallOnProbe | _ => CallAbortUpgrade end)
          (on_tr (Stream.set_writeMu false) r)
    | CommitUpgrade => call env CallCompleteUpgrade r
    | IgnorePacket => r
    end
  else call env (CallHandlePacket p) r.

Definition serve_exit (x : read_exit) (r : run) : run :=
  match x with
  | ExitQuietly => r
  | ExitAbort => call env CallAbortUpgrade r
  | ExitClose reason cause => call env (CallCloseWithReason reason cause) r
  end.

Definition serve (k : transportKind) (ps : list Packet) (err : error) (r : run) : run :=
  let r := foldl (flip serve_packet) r ps in serve_exit (read_failed k (tr r) err) r.

End serve.

(** ** The loops refine it *)
Section refines.
Context {T W E : Type} `{Touchable T} (env : surroundings E).
Variable abs : T → Stream.streamTransport.
Variable encode : Packet → W.
Hypothesis touched_abs : ∀ c t,
  touched c (abs t) = prod_map abs id (touched c t).

(** The same transport, the same surroundings, and the same events up to the encoding
    of the packets written. *)
Definition refines (r : running T W E) (r0 : running Stream.streamTransport Packet E) : Prop :=
  tr r0 = abs (tr r) ∧ around r0 = around r ∧ log r = event_map encode <$> log r0.

Lemma touch_one_refines r r0 c : refines r r0 → refines (touch_one r c) (touch_one r0 c).
Proof.
  intros (Ht & Hx & Hl). unfold touch_one. rewrite Ht, touched_abs.
  destruct (touched c (tr r)) as [t []]; cbn [prod_map fst snd id]; repeat split;
    try done; cbn [log]; rewrite Hl, fmap_app; done.
Qed.

Lemma call_refines r r0 c : refines r r0 → refines (call env c r) (call env c r0).
Proof.
  intros (Ht & Hx & Hl). unfold call. rewrite Hx.
  destruct (react env c (around r)) as [touches x].
  assert (refines (mkRunning (tr r) x (log r ++ [Called c]))
                  (mkRunning (tr r0) x (log r0 ++ [Called c]))) as Hr
    by (repeat split; [done|cbn [log]; by rewrite fmap_app, Hl]).
  revert Hr. generalize (mkRunning (tr r) x (log r ++ [Called c])),
    (mkRunning (tr r0) x (log r0 ++ [Called c])).
  induction touches as [|c' touches IH]; intros s s0 Hs; [done|].
  cbn. by apply IH, touch_one_refines.
Qed.

Lemma put_refines r r0 p :
  refines r r0 → (put env (encode p) r).1 = (put env p r0).1 ∧
                 refines (put env (encode p) r).2 (put env p r0).2.
Proof.
  intros (Ht & Hx & Hl). unfold put. rewrite Hx.
  destruct (write env (around r)) as [f x]; cbn [fst snd]. repeat split; try done.
  cbn [log]. rewrite Hl, fmap_app. by destruct f.
Qed.

Lemma on_tr_refines f g r r0 :
  (∀ t, g (abs t) = abs (f t)) → refines r r0 → refines (on_tr f r) (on_tr g r0).
Proof. intros Hfg (Ht & Hx & Hl). repeat split; cbn; [by rewrite Ht, Hfg|done|done]. Qed.

End refines.

Create HintDb loops.
#[export] Hint Resolve call_refines on_tr_refines : loops.

(** ** server_transport_websocket.go *)

Lemma websocket_touched c (t : WebSocket.serverWebSocketTransport) :
  touched c (WebSocket.abs t) = prod_map WebSocket.abs id (touched c t).
Proof. by destruct c, t as [?? ? [] ???]. Qed.

Lemma webtransport_touched c (t : WebTransport.serverWebTransportTransport) :
  touched c (WebTransport.abs t) = prod_map WebTransport.abs id (touched c t).
Proof. by destruct c, t as [?? ?? ? [] ??]. Qed.

#[export] Hint Resolve websocket_touched webtransport_touched : loops.

Notation websocket_refines := (refines WebSocket.abs writeFrame).
Notation webtransport_refines := (refines WebTransport.abs (λ p, frames_buffer [p])).

Section websocket.
Context {E : Type} (env : surroundings E).

Lemma websocket_packet p r r0 :
  websocket_refines r r0 →
  websocket_refines (if WebSocket.isProbing (tr r) then WebSocket.handleProbePacket env p r
                     else call env (CallHandlePacket p) r) (serve_packet env p r0).
Proof.
  intros Hr. pose proof Hr as (Ht & _ & _).
  unfold serve_packet. rewrite Ht. change (Stream.isProbing _) with (WebSocket.isProbing (tr r)).
  destruct (WebSocket.isProbing (tr r)); [|eauto with loops].
  unfold WebSocket.handleProbePacket, handleProbePacket.
  case_decide; [|case_decide; eauto with loops].
  unfold WebSocket.writeProbePong, WebSocket.writeFrame. fold probePong.
  assert (websocket_refines (on_tr (WebSocket.set_writeMu true) r)
            (on_tr (Stream.set_writeMu true) r0)) as Hl by eauto with loops.
  destruct (put_refines env _ _ _ _ probePong Hl) as [Hf Hp].
  destruct (put env (writeFrame probePong) _) as [f s], (put env probePong _) as [f0 s0].
  cbn in Hf, Hp; subst f0. destruct f; eauto with loops.
Qed.

Lemma websocket_loop ps err r r0 :
  Forall (λ p, well_formed p = true) ps → websocket_refines r r0 →
  ∃ s, WebSocket.loop env (writeFrame <$> ps) err r = Ok s ∧
       websocket_refines s (serve env KWebSocket ps err r0).
Proof.
  intros Hps; revert r r0; induction Hps as [|p ps Hp _ IH]; intros r r0 Hr; cbn.
  - eexists; split; [done|]. pose proof Hr as (Ht & _ & _).
    unfold serve, WebSocket.read_error, read_failed. cbn. rewrite Ht. cbn.
    destruct (WebSocket.closed (tr r)); [done|].
    destruct (WebSocket.probing (tr r)); cbn; eauto with loops.
  - destruct (writeFrame p) as [mt frame] eqn:Hw.
    pose proof (websocket_frame_round_trip p Hp) as Hd. rewrite Hw in Hd; cbn in Hd. rewrite Hd.
    by apply IH, websocket_packet.
Qed.

End websocket.

(** ** server_transport_webtransport.go *)
Section webtransport.
Context {E : Type} (env : surroundings E).

Lemma webtransport_packet p r r0 :
  webtransport_refines r r0 →
  webtransport_refines
    (if WebTransport.isProbing (tr r) then WebTransport.handleProbePacket env p r
     else call env (CallHandlePacket p) r) (serve_packet env p r0).
Proof.
  intros Hr. pose proof Hr as (Ht & _ & _).
  unfold serve_packet. rewrite Ht.
  change (Stream.isProbing _) with (WebTransport.isProbing (tr r)).
  destruct (WebTransport.isProbing (tr r)); [|eauto with loops].
  unfold WebTransport.handleProbePacket, handleProbePacket.
  case_decide; [|case_decide; eauto with loops].
  unfold WebTransport.writeProbePong, WebTransport.writeFrames. fold probePong.
  assert (webtransport_refines (on_tr (WebTransport.set_writeMu true) r)
            (on_tr (Stream.set_writeMu true) r0)) as Hl by eauto with loops.
  destruct (put_refines env _ _ _ _ probePong Hl) as [Hf Hp].
  destruct (put env (frames_buffer [probePong]) _) as [f s], (put env probePong _) as [f0 s0].
  cbn in Hf, Hp; subst f0. destruct f; eauto with loops.
Qed.

(** A packet the server's reader accepts. *)
Definition accepted (maxPayload : Z) (p : Packet) : Prop :=
  well_formed p = true ∧ len (frame_payload p) <= max_alloc ∧
  len (frame_payload p) <= webTransportServerReadLimit maxPayload.

Lemma read_accepted maxPayload p rest e :
  accepted maxPayload p →
  readWebTransportPacket (mkStream (frame_header p ++ frame_payload p ++ rest) e)
    (webTransportServerReadLimit maxPayload) = (Ok p, mkStream rest e).
Proof. intros (Hwf & Ha & Hl). apply read_written_frame; unfold within_limit; lia || done. Qed.

Lemma read_ended e limit : readWebTransportPacket (mkStream [] e) limit = (Err e, mkStream [] e).
Proof. done. Qed.

Lemma webtransport_read_error err r r0 :
  webtransport_refines r r0 →
  webtransport_refines (WebTransport.read_error env err r) (serve env KWebTransport [] err r0).
Proof.
  intros Hr. pose proof Hr as (Ht & _ & _).
  unfold serve, WebTransport.read_error, read_failed. cbn [foldl]. rewrite Ht.
  change (Stream.closed _) with (WebTransport.closed (tr r)).
  change (Stream.probing _) with (WebTransport.probing (tr r)).
  destruct (WebTransport.closed (tr r)), (WebTransport.probing (tr r)),
    (isWebTransportParseError err); unfold serve_exit; eauto with loops.
Qed.

Lemma webtransport_loop maxPayload ps err r r0 fuel :
  Forall (accepted maxPayload) ps → (length ps < fuel)%nat → webtransport_refines r r0 →
  ∃ s, WebTransport.loop env fuel maxPayload (mkStream (frames_buffer ps) err) r = Some (Ok s) ∧
       webtransport_refines s (serve env KWebTransport ps err r0).
Proof.
  rewrite frames_buffer_eq. intros Hps; revert fuel r r0.
  induction Hps as [|p ps Hp _ IH]; intros [|fuel] r r0 Hfuel Hr; cbn in Hfuel; try lia.
  - cbn [WebTransport.loop mbind list_bind]. rewrite read_ended.
    eexists; split; [done|by apply webtransport_read_error].
  - cbn [WebTransport.loop]. rewrite bind_cons, <- app_assoc, read_accepted by done.
    apply IH; [lia|by apply webtransport_packet].
Qed.

End webtransport.

(** ** The end of a loop *)
Section keeps.
Context {T W E : Type} `{Touchable T} (env : surroundings E).
Variable done : T → bool.
Hypothesis touched_keeps : ∀ c t, done (touched c t).1 = done t.

Lemma call_keeps c (r : running T W E) : done (tr (call env c r)) = done (tr r).
Proof.
  unfold call. destruct (react env c (around r)) as [touches x].
  change (done (tr r)) with (done (tr (mkRunning (tr r) x (log r ++ [Called c])))).
  generalize (mkRunning (tr r) x (log r ++ [Called c])).
  induction touches as [|c' touches IH]; intros s; [done|].
  cbn [foldl]. rewrite IH. unfold touch_one. pose proof (touched_keeps c' (tr s)) as Hk.
  by destruct (touched c' (tr s)).
Qed.

Lemma put_keeps w (r : running T W E) : done (tr (put env w r).2) = done (tr r).
Proof. unfold put. by destruct (write env (around r)). Qed.

End keeps.

Lemma websocket_keeps c t : WebSocket.done (touched c t).1 = WebSocket.done t.
Proof. by destruct c, t as [??? [] ???]. Qed.

Lemma webtransport_keeps c t : WebTransport.done (touched c t).1 = WebTransport.done t.
Proof. by destruct c, t as [????? [] ??]. Qed.

Section exits.
Context {E : Type} (env : surroundings E).

Lemma websocket_probe_keeps p r :
  WebSocket.done (tr (WebSocket.handleProbePacket env p r)) = WebSocket.done (tr r).
Proof.
  unfold WebSocket.handleProbePacket, WebSocket.writeProbePong, WebSocket.writeFrame.
  repeat case_decide; [|by rewrite call_keeps by apply websocket_keeps|done].
  pose proof (put_keeps env WebSocket.done (writeFrame probePong)
                (on_tr (WebSocket.set_writeMu true) r)) as Hk. fold probePong.
  destruct (put env _ _) as [[] s]; rewrite call_keeps by apply websocket_keeps; exact Hk.
Qed.

Lemma webtransport_probe_keeps p r :
  WebTransport.done (tr (WebTransport.handleProbePacket env p r)) = WebTransport.done (tr r).
Proof.
  unfold WebTransport.handleProbePacket, WebTransport.writeProbePong, WebTransport.writeFrames.
  repeat case_decide; [|by rewrite call_keeps by apply webtransport_keeps|done].
  pose proof (put_keeps env WebTransport.done (frames_buffer [probePong])
                (on_tr (WebTransport.set_writeMu true) r)) as Hk. fold probePong.
  destruct (put env _ _) as [[] s]; rewrite call_keeps by apply webtransport_keeps; exact Hk.
Qed.

Lemma websocket_loop_ends messages err r :
  ∃ s, WebSocket.loop env messages err r = Ok s ∧
       WebSocket.done (tr s) = WebSocket.done (tr r).
Proof.
  revert r; induction messages as [|[mt frame] messages IH]; intros r; cbn [WebSocket.loop].
  - eexists; split; [done|]. unfold WebSocket.read_error.
    repeat case_match; rewrite ?call_keeps by apply websocket_keeps; done.
  - pose proof (decodeWebSocketFrame_no_panic mt frame).
    destruct (decodeWebSocketFrame mt frame) as [p|e|]; [| |done].
    + edestruct IH as (s & Hs & Hd). exists s; split; [exact Hs|]. rewrite Hd.
      case_match; [apply websocket_probe_keeps|apply call_keeps, websocket_keeps].
    + eexists; split; [done|]. case_match; apply call_keeps, websocket_keeps.
Qed.

Lemma frames_fuel ps : (length ps < S (length (frames_buffer ps)))%nat.
Proof.
  rewrite frames_buffer_eq. induction ps as [|p ps IH]; [cbn; lia|].
  rewrite bind_cons, !length_app. cbn [length].
  assert (1 <= length (frame_header p))%nat by (unfold frame_header; repeat case_match; cbn; lia).
  lia.
Qed.

Lemma webtransport_loop_ends maxPayload input fuel r :
  maxPayload <= max_alloc → (length (pending input) < fuel)%nat →
  ∃ s, WebTransport.loop env fuel maxPayload input r = Some (Ok s) ∧
       WebTransport.done (tr s) = WebTransport.done (tr r).
Proof.
  intros Hmax. revert input r; induction fuel as [|fuel IH]; intros input r Hfuel; [lia|].
  cbn [WebTransport.loop].
  destruct (read_bounded input _ (server_limit_range _ Hmax)) as [Hp Hread].
  destruct (readWebTransportPacket input _) as [[p|e|] rest]; [| |done].
  - destruct (Hread p rest eq_refl) as (header & payload & Hin & Hh & _).
    assert (length (pending rest) < fuel)%nat as Hrest.
    { rewrite Hin, !length_app in Hfuel. unfold len in Hh. lia. }
    edestruct (IH rest) as (s & Hs & Hd); [done|]. exists s; split; [exact Hs|]. rewrite Hd.
    case_match; [apply webtransport_probe_keeps|apply call_keeps, webtransport_keeps].
  - eexists; split; [done|]. unfold WebTransport.read_error.
    repeat case_match; rewrite ?call_keeps by apply webtransport_keeps; done.
Qed.

End exits.

(** ** Whole loops *)
Section loops.
Context {E : Type} (env : surroundings E).

Lemma websocket_readLoop messages err r :
  WebSocket.done (tr r) = false →
  ∃ s s', WebSocket.loop env messages err r = Ok s ∧
    WebSocket.readLoop env messages err r = Ok s' ∧ WebSocket.done (tr s') = true ∧
    ∀ r0, websocket_refines s r0 → websocket_refines s' r0.
Proof.
  intros Hr. destruct (websocket_loop_ends env messages err r) as (s & Hs & Hd).
  unfold WebSocket.readLoop. rewrite Hs. cbn [res_bind]. unfold WebSocket.close_done.
  rewrite Hd, Hr. eexists s, _. split_and!; done.
Qed.

Lemma webtransport_readLoop fuel maxPayload input r s :
  WebTransport.loop env fuel maxPayload input r = Some (Ok s) →
  WebTransport.done (tr s) = false →
  ∃ s', WebTransport.readLoop env fuel maxPayload input r = Some (Ok s') ∧
    WebTransport.done (tr s') = true ∧
    ∀ r0, webtransport_refines s r0 → webtransport_refines s' r0.
Proof.
  intros Hs Hd. unfold WebTransport.readLoop. rewrite Hs. cbn [mbind option_bind res_bind].
  unfold WebTransport.close_done. rewrite Hd. eexists. split_and!; done.
Qed.

Lemma serve_kind ps err r :
  isWebTransportParseError err = false →
  serve env KWebTransport ps err r = serve env KWebSocket ps err r.
Proof. intros Herr. unfold serve, read_failed. by rewrite Herr. Qed.

End loops.

(** A transport at its start. *)
Definition starting {T W E} (t : T) (x : E) : running T W E := mkRunning t x [].

(** ** Properties *)


(** Surroundings for an upgrade: the session promotes the transport when the upgrade
    completes and closes it when told to abort; every write succeeds. *)
Definition upgrading_session : surroundings unit :=
  mkSurroundings _
    (λ c x, (match c with
             | CallCompleteUpgrade => [TouchPromote]
             | CallAbortUpgrade | CallCloseWithReason _ _ => [TouchClose]
             | _ => []
             end, x))
    (λ x, (Written, x)).

Definition upgrade_packets : list Packet :=
  [text_packet PacketPing (str "probe"); packet_of PacketUpgrade;
   text_packet PacketMessage (str "hi")].



