(* ===== verification/ServerSocket.v ===== *)
(** * The server session: state and critical sections

    server_socket.go.  [ServerSocket] is the state [s.mu] guards; every critical
    section of the file (the code between [s.mu.Lock()] and [s.mu.Unlock()]) is one
    function on it, named after its method.  A method that is a single critical section
    is one function; the others return what the rest of the method needs, and the
    session machine runs that rest. *)
From S2P Require Import Prelude Packet ServerOptions ServerTransport.

Inductive sessionState := sessionOpening | sessionOpen | sessionClosing | sessionClosed.
#[export] Instance sessionState_eq_decision : EqDecision sessionState.
Proof. solve_decision. Defined.

(** The [iota] value of a state. *)
Definition state_rank (s : sessionState) : nat :=
  match s with
  | sessionOpening => 0
  | sessionOpen => 1
  | sessionClosing => 2
  | sessionClosed => 3
  end.

(** The functions the code passes to [time.AfterFunc]. *)
Inductive callback :=
| CbSendPing
| CbPingTimeout
| CbAbortUpgrade (t : tref)
| CbForcedClose.
#[export] Instance callback_eq_decision : EqDecision callback.
Proof. solve_decision. Defined.

Record Timer := mkTimer { duration : Z; fires : callback }.

(** A [*time.Timer] is a number; [timers] holds the armed ones, so that a stopped or
    fired timer is one that is absent.  A [chan struct{}] is a number too, and [fresh]
    is the next unused one.  Handlers are numbers, and [nil] is [None].  [enqueued] is a
    history variable: every packet ever appended to [writeBuffer]. *)
Record ServerSocket := mkSocket {
  options : serverConfig;
  state : sessionState;
  transport : option tref;
  upgradeTransport : option tref;
  upgrading : bool;
  writeBuffer : list Packet;
  pingTimer : option nat;
  pongTimer : option nat;
  upgradeTimer : option nat;
  closeTimer : option nat;
  probeNoopStop : option nat;
  onMessageHandler : option nat;
  onCloseHandler : option nat;
  timers : gmap nat Timer;
  fresh : nat;
  enqueued : list Packet;
}.

Definition set_state (v : sessionState) (s : ServerSocket) : ServerSocket :=
  mkSocket (options s) v (transport s) (upgradeTransport s) (upgrading s) (writeBuffer
    s) (pingTimer s) (pongTimer s) (upgradeTimer s) (closeTimer s) (probeNoopStop s)
    (onMessageHandler s) (onCloseHandler s) (timers s) (fresh s) (enqueued s).
Definition set_transport (v : option tref) (s : ServerSocket) : ServerSocket :=
  mkSocket (options s) (state s) v (upgradeTransport s) (upgrading s) (writeBuffer s)
    (pingTimer s) (pongTimer s) (upgradeTimer s) (closeTimer s) (probeNoopStop s)
    (onMessageHandler s) (onCloseHandler s) (timers s) (fresh s) (enqueued s).
Definition set_upgradeTransport (v : option tref) (s : ServerSocket) : ServerSocket :=
  mkSocket (options s) (state s) (transport s) v (upgrading s) (writeBuffer s)
    (pingTimer s) (pongTimer s) (upgradeTimer s) (closeTimer s) (probeNoopStop s)
    (onMessageHandler s) (onCloseHandler s) (timers s) (fresh s) (enqueued s).
Definition set_upgrading (v : bool) (s : ServerSocket) : ServerSocket :=
  mkSocket (options s) (state s) (transport s) (upgradeTransport s) v (writeBuffer s)
    (pingTimer s) (pongTimer s) (upgradeTimer s) (closeTimer s) (probeNoopStop s)
    (onMessageHandler s) (onCloseHandler s) (timers s) (fresh s) (enqueued s).
Definition set_writeBuffer (v : list Packet) (s : ServerSocket) : ServerSocket :=
  mkSocket (options s) (state s) (transport s) (upgradeTransport s) (upgrading s) v
    (pingTimer s) (pongTimer s) (upgradeTimer s) (closeTimer s) (probeNoopStop s)
    (onMessageHandler s) (onCloseHandler s) (timers s) (fresh s) (enqueued s).
Definition set_pingTimer (v : option nat) (s : ServerSocket) : ServerSocket :=
  mkSocket (options s) (state s) (transport s) (upgradeTransport s) (upgrading s)
    (writeBuffer s) v (pongTimer s) (upgradeTimer s) (closeTimer s) (probeNoopStop s)
    (onMessageHandler s) (onCloseHandler s) (timers s) (fresh s) (enqueued s).
Definition set_pongTimer (v : option nat) (s : ServerSocket) : ServerSocket :=
  mkSocket (options s) (state s) (transport s) (upgradeTransport s) (upgrading s)
    (writeBuffer s) (pingTimer s) v (upgradeTimer s) (closeTimer s) (probeNoopStop s)
    (onMessageHandler s) (onCloseHandler s) (timers s) (fresh s) (enqueued s).
Definition set_upgradeTimer (v : option nat) (s : ServerSocket) : ServerSocket :=
  mkSocket (options s) (state s) (transport s) (upgradeTransport s) (upgrading s)
    (writeBuffer s) (pingTimer s) (pongTimer s) v (closeTimer s) (probeNoopStop s)
    (onMessageHandler s) (onCloseHandler s) (timers s) (fresh s) (enqueued s).
Definition set_closeTimer (v : option nat) (s : ServerSocket) : ServerSocket :=
  mkSocket (options s) (state s) (transport s) (upgradeTransport s) (upgrading s)
    (writeBuffer s) (pingTimer s) (pongTimer s) (upgradeTimer s) v (probeNoopStop s)
    (onMessageHandler s) (onCloseHandler s) (timers s) (fresh s) (enqueued s).
Definition set_probeNoopStop (v : option nat) (s : ServerSocket) : ServerSocket :=
  mkSocket (options s) (state s) (transport s) (upgradeTransport s) (upgrading s)
    (writeBuffer s) (pingTimer s) (pongTimer s) (upgradeTimer s) (closeTimer s) v
    (onMessageHandler s) (onCloseHandler s) (timers s) (fresh s) (enqueued s).
Definition set_onMessageHandler (v : option nat) (s : ServerSocket) : ServerSocket :=
  mkSocket (options s) (state s) (transport s) (upgradeTransport s) (upgrading s)
    (writeBuffer s) (pingTimer s) (pongTimer s) (upgradeTimer s) (closeTimer s)
    (probeNoopStop s) v (onCloseHandler s) (timers s) (fresh s) (enqueued s).
Definition set_onCloseHandler (v : option nat) (s : ServerSocket) : ServerSocket :=
  mkSocket (options s) (state s) (transport s) (upgradeTransport s) (upgrading s)
    (writeBuffer s) (pingTimer s) (pongTimer s) (upgradeTimer s) (closeTimer s)
    (probeNoopStop s) (onMessageHandler s) v (timers s) (fresh s) (enqueued s).
Definition set_timers (v : gmap nat Timer) (s : ServerSocket) : ServerSocket :=
  mkSocket (options s) (state s) (transport s) (upgradeTransport s) (upgrading s)
    (writeBuffer s) (pingTimer s) (pongTimer s) (upgradeTimer s) (closeTimer s)
    (probeNoopStop s) (onMessageHandler s) (onCloseHandler s) v (fresh s) (enqueued s).
Definition set_fresh (v : nat) (s : ServerSocket) : ServerSocket :=
  mkSocket (options s) (state s) (transport s) (upgradeTransport s) (upgrading s)
    (writeBuffer s) (pingTimer s) (pongTimer s) (upgradeTimer s) (closeTimer s)
    (probeNoopStop s) (onMessageHandler s) (onCloseHandler s) (timers s) v (enqueued
    s).
Definition set_enqueued (v : list Packet) (s : ServerSocket) : ServerSocket :=
  mkSocket (options s) (state s) (transport s) (upgradeTransport s) (upgrading s)
    (writeBuffer s) (pingTimer s) (pongTimer s) (upgradeTimer s) (closeTimer s)
    (probeNoopStop s) (onMessageHandler s) (onCloseHandler s) (timers s) (fresh s) v.

Definition newServerSocket (c : serverConfig) (t : tref) : ServerSocket :=
  mkSocket c sessionOpening (Some t) None false [] None None None None None None None ∅ 0 [].

(** ** Timers and the buffer *)

(** [if t != nil { t.Stop() }]. *)
Definition delete_opt (t : option nat) (m : gmap nat Timer) : gmap nat Timer :=
  match t with Some id => delete id m | None => m end.
Definition stop_timer (t : option nat) (s : ServerSocket) : ServerSocket :=
  set_timers (delete_opt t (timers s)) s.

(** [time.AfterFunc(d, f)]. *)
Definition AfterFunc (d : Z) (f : callback) (s : ServerSocket) : nat * ServerSocket :=
  (fresh s, set_fresh (S (fresh s)) (set_timers (<[fresh s := mkTimer d f]> (timers s)) s)).

(** [s.writeBuffer = append(s.writeBuffer, p)]. *)
Definition enqueue (p : Packet) (s : ServerSocket) : ServerSocket :=
  set_enqueued (enqueued s ++ [p]) (set_writeBuffer (writeBuffer s ++ [p]) s).

Definition stopTimersLocked (s : ServerSocket) : ServerSocket :=
  let s := set_pingTimer None (stop_timer (pingTimer s) s) in
  let s := set_pongTimer None (stop_timer (pongTimer s) s) in
  let s := set_upgradeTimer None (stop_timer (upgradeTimer s) s) in
  set_closeTimer None (stop_timer (closeTimer s) s).

Definition armPingLocked (s : ServerSocket) : ServerSocket :=
  let s := stop_timer (pingTimer s) s in
  let '(id, s) := AfterFunc (pingInterval (options s)) CbSendPing s in
  set_pingTimer (Some id) s.

(** ** Sending and closing *)

(** The error of [Send]; a flush follows when it is nil. *)
Definition Send (data : bytes) (isBinary : bool) (s : ServerSocket)
    : option error * ServerSocket :=
  if decide (state s = sessionClosed ∨ state s = sessionClosing)
  then (Some (ESentinel ErrSocketClosed), s)
  else (None, enqueue (mkPacket PacketMessage data isBinary) s).

Definition beginClose (s : ServerSocket) : bool * ServerSocket :=
  if decide (state s ≠ sessionOpening ∧ state s ≠ sessionOpen) then (false, s)
  else
    let s := set_state sessionClosing s in
    let s := stopTimersLocked s in
    (true, enqueue (packet_of PacketClose) s).

(** The second critical section of [Close]: the fallback timer. *)
Definition Close_arm (s : ServerSocket) : ServerSocket :=
  if decide (state s = sessionClosing ∧ closeTimer s = None) then
    let '(id, s) := AfterFunc (pingTimeout (options s)) CbForcedClose s in
    set_closeTimer (Some id) s
  else s.

Definition open (s : ServerSocket) : ServerSocket :=
  if decide (state s ≠ sessionOpening) then s
  else armPingLocked (set_state sessionOpen s).

(** The first critical section of [flush]: what to write and where, or return. *)
Definition flush_take (s : ServerSocket) : option (list Packet * tref) :=
  if decide (state s = sessionClosed) then None
  else match transport s, writeBuffer s with
       | Some t, p :: ps => Some (p :: ps, t)
       | _, _ => None
       end.

Inductive flush_next := FlushClose | FlushReturn | FlushAgain.

(** Its second critical section, after a successful [send], and the tests that follow. *)
Definition flush_drop (packets : list Packet) (s : ServerSocket) : flush_next * ServerSocket :=
  let s :=
    if len packets <=? len (writeBuffer s)
    then set_writeBuffer (drop (length packets) (writeBuffer s)) s
    else set_writeBuffer [] s in
  let drained := bool_decide (writeBuffer s = []) in
  let closing := bool_decide (state s = sessionClosing) in
  let closed := bool_decide (state s = sessionClosed) in
  (if drained && closing then FlushClose
   else if drained || closed then FlushReturn
   else FlushAgain, s).

(** ** Inbound packets and the heartbeat *)

Inductive packet_action :=
| PacketPonged
| PacketDelivered (data : bytes) (isBinary : bool)
| PacketCloses
| PacketIgnored.

Definition handlePacket (p : Packet) : packet_action :=
  if decide (PType p = PacketPong) then PacketPonged
  else if decide (PType p = PacketMessage) then PacketDelivered (Data p) (IsBinary p)
  else if decide (PType p = PacketClose) then PacketCloses
  else PacketIgnored.

Definition onPong (s : ServerSocket) : ServerSocket :=
  if decide (state s ≠ sessionOpen) then s
  else
    let s := set_pongTimer None (stop_timer (pongTimer s) s) in
    armPingLocked s.

(** Whether a flush follows. *)
Definition sendPing (s : ServerSocket) : bool * ServerSocket :=
  if decide (state s ≠ sessionOpen) then (false, s)
  else
    let s := enqueue (packet_of PacketPing) s in
    let s := stop_timer (pongTimer s) s in
    let '(id, s) := AfterFunc (pingTimeout (options s)) CbPingTimeout s in
    (true, set_pongTimer (Some id) s).

(** ** Teardown *)

(** What [closeWithReason] releases after the critical section. *)
Record teardown := mkTeardown {
  td_transport : option tref;
  td_upgrade : option tref;
  td_stop : option nat;
  td_handler : option nat;
}.

Definition beginTeardown (s : ServerSocket) : option teardown * ServerSocket :=
  if decide (state s = sessionClosed) then (None, s)
  else
    let s := set_state sessionClosed s in
    let s := stopTimersLocked s in
    let td := mkTeardown (transport s) (upgradeTransport s) (probeNoopStop s)
                (onCloseHandler s) in
    let s := set_transport None s in
    let s := set_upgradeTransport None s in
    let s := set_upgrading false s in
    let s := set_probeNoopStop None s in
    (Some td, set_writeBuffer [] s).

(** ** Upgrades *)

Definition startUpgrade (t : tref) (s : ServerSocket) : bool * ServerSocket :=
  if decide (state s ≠ sessionOpen) then (false, s)
  else if upgrading s then (false, s)
  else match transport s with
       | None => (false, s)
       | Some active =>
           if decide (transportType active ≠ TransportTypePolling) then (false, s)
           else
             let s := set_upgrading true s in
             let s := set_upgradeTransport (Some t) s in
             let '(id, s) := AfterFunc (upgradeTimeout (options s)) (CbAbortUpgrade t) s in
             (true, set_upgradeTimer (Some id) s)
       end.

(** The stop channel of the noop loop to start, if one starts. *)
Definition onProbe (s : ServerSocket) : option nat * ServerSocket :=
  if decide (upgrading s = false ∨ probeNoopStop s ≠ None) then (None, s)
  else
    let stop := fresh s in
    (Some stop, set_probeNoopStop (Some stop) (set_fresh (S stop) s)).

(** The old transport and the stop channel, when the probe still matches. *)
Definition beginCompleteUpgrade (t : tref) (s : ServerSocket)
    : option (option tref * option nat) * ServerSocket :=
  if decide (upgrading s = false ∨ upgradeTransport s ≠ Some t) then (None, s)
  else
    let s := set_upgrading false s in
    let old := transport s in
    let s := set_transport (Some t) s in
    let s := set_upgradeTransport None s in
    let s := set_upgradeTimer None (stop_timer (upgradeTimer s) s) in
    let stop := probeNoopStop s in
    (Some (old, stop), set_probeNoopStop None s).

Definition beginAbortUpgrade (t : tref) (s : ServerSocket)
    : option (option nat) * ServerSocket :=
  if decide (upgrading s = false ∨ upgradeTransport s ≠ Some t) then (None, s)
  else
    let s := set_upgrading false s in
    let s := set_upgradeTransport None s in
    let s := set_upgradeTimer None (stop_timer (upgradeTimer s) s) in
    let stop := probeNoopStop s in
    (Some stop, set_probeNoopStop None s).

(** ** Accessors *)

(** The type assertion [transport.( *serverPollingTransport )] of
    [activePollingTransport] and [flushProbeNoop]; the pointer it yields is the session's
    only polling transport. *)
Definition as_polling (t : option tref) : bool :=
  match t with
  | Some t => bool_decide (tkind t = KPolling)
  | None => false
  end.

Definition activePollingTransport (s : ServerSocket) : bool := as_polling (transport s).

Definition OnMessage (h : option nat) (s : ServerSocket) : ServerSocket :=
  set_onMessageHandler h s.
Definition OnClose (h : option nat) (s : ServerSocket) : ServerSocket :=
  set_onCloseHandler h s.

(** Time passing: an armed timer fires and starts its function. *)
Definition fire (id : nat) (s : ServerSocket) : ServerSocket :=
  set_timers (delete id (timers s)) s.
