(* ===== verification/SessionMachine.v ===== *)
(** * The session machine

    The goroutines that act on one server session, and the steps they interleave.  Each
    [instr] is one critical section or one I/O action of the source, in the order the
    method runs them.  The mutexes [s.mu] and [t.mu] are held for exactly one [instr] each, so they need no
    state; [flushMu] and [writeMu] are held across several and are part of it.

    [exec] runs one [instr].  What the source cannot determine comes from an [oracle]:
    the result of an I/O call, what a peer sent, which case of a [select] runs, which
    buffer a [sync.Pool] returns, and what an application handler does. *)
From S2P Require Import Prelude Machine Packet Payload Framing ServerOptions.
From S2P Require Import ServerTransport ServerSocket.

(** What the application may do with a session, inside a handler or anywhere else. *)
Inductive api :=
| ApiSend (data : bytes) (isBinary : bool)
| ApiClose
| ApiOnMessage (h : option nat)
| ApiOnClose (h : option nat).

(** Why a stream transport writes: for [flush], or for the handshake. *)
Inductive purpose := ForFlush | ForHandshake.
#[export] Instance purpose_eq_decision : EqDecision purpose.
Proof. solve_decision. Defined.

Inductive instr :=
(* the handshake *)
| IHandshake (t : tref) (open : Packet)
| IOpen
| ICallConnection
| ISpawnRead (t : tref)
(* the methods of the application *)
| ISend (data : bytes) (isBinary : bool)
| IClose
| ICloseArm
| IOnMessage (h : option nat)
| IOnClose (h : option nat)
(* flush *)
| IFlush
| IFlushLoop
| IFlushSend (t : tref) (packets : list Packet)
| IStreamLock (k : purpose) (t : tref) (packets : list Packet)
| IStreamWrite (k : purpose) (t : tref) (todo packets : list Packet)
| IFlushSent (packets : list Packet) (sent : bool) (err : option error)
| IFlushClose (reason : bytes) (cause : option error)
| IFlushUnlock
(* closeWithReason *)
| ICloseWithReason (reason : bytes) (cause : option error)
| ICloseChan (stop : nat)
| ITransportClose (t : tref)
| IConnClose (t : tref)
| IStoreDelete
| ICallClose (h : nat) (reason : bytes) (cause : option error)
(* inbound packets and the heartbeat *)
| IHandlePacket (p : Packet)
| IOnPong
| IDeliverMessage (data : bytes) (isBinary : bool)
| ICallMessage (h : nat) (data : bytes) (isBinary : bool)
| ISendPing
(* upgrades *)
| IStartUpgrade (t : tref)
| IOnProbe
| IProbeNoop
| INoopLoop (stop : nat)
| IWriteNoop
| ICompleteUpgrade (t : tref)
| IPromote (t : tref)
| IAbortUpgrade (t : tref)
(* deliveries to a held poll *)
| IGetBuffer (ch : nat) (packets : list Packet)
| IEncode (ch buf : nat) (packets : list Packet)
| IDeliver (ch buf : nat)
(* the poll GET *)
| IPollGet
| IHold
| IPollSelect (ch : nat)
| IWriteResponse (ch buf : nat)
| IRelease (ch : nat) (cause : error)
| IDrain (ch : nat)
| IPutBuffer (buf : nat)
(* the read loops *)
| IReadLoop (t : tref)
| IReadFailed (t : tref) (err : error)
| IFrameRejected (t : tref) (err : error)
| IDispatch (t : tref) (p : Packet)
| IProbePong (t : tref)
| IProbePongWrite (t : tref).

(** What an observer sees: the calls of the application's handlers, the responses, the
    frames, and the connections torn down. *)
Inductive event :=
| EvClose (h : nat) (reason : bytes) (cause : option error)
| EvMessage (h : nat) (data : bytes) (isBinary : bool)
| EvHandshake (body : bytes)
| EvResponse (ch : nat) (body : bytes)
| EvError (code : ConnectionErrorCode)
| EvFrame (t : tref) (frame : MessageType * bytes)
| EvStream (t : tref) (data : bytes)
| EvConnClosed (t : tref).

(** A session has one polling transport, [polling], the one its handshake created (or
    none, when the handshake was on a stream); an upgrade adds a stream transport at a
    time to [streams].  [chans] holds the payload channels that are full; they have capacity one.  [heap] is
    the contents of the pooled buffers and [pool] the ones in the pool.  [closedStops] is
    the closed [probeNoopStop] channels.  [handed] and [deliveries] are history: the
    packets [flush] has handed to a transport, and what each claimed poll was given. *)
Record World := mkWorld {
  sess : ServerSocket;
  flushMu : bool;
  polling : Polling.serverPollingTransport;
  streams : gmap nat Stream.streamTransport;
  chans : gmap nat nat;
  heap : gmap nat bytes;
  pool : list nat;
  nextStream : nat;
  nextChan : nat;
  nextBuf : nat;
  closedStops : list nat;
  inStore : bool;
  log : list event;
  handed : list Packet;
  deliveries : list (nat * list Packet);
}.

Definition set_sess (v : ServerSocket) (w : World) : World :=
  mkWorld v (flushMu w) (polling w) (streams w) (chans w) (heap w) (pool w)
    (nextStream w) (nextChan w) (nextBuf w) (closedStops w) (inStore w) (log w)
    (handed w) (deliveries w).
Definition set_flushMu (v : bool) (w : World) : World :=
  mkWorld (sess w) v (polling w) (streams w) (chans w) (heap w) (pool w) (nextStream
    w) (nextChan w) (nextBuf w) (closedStops w) (inStore w) (log w) (handed w)
    (deliveries w).
Definition set_polling (v : Polling.serverPollingTransport) (w : World) : World :=
  mkWorld (sess w) (flushMu w) v (streams w) (chans w) (heap w) (pool w) (nextStream
    w) (nextChan w) (nextBuf w) (closedStops w) (inStore w) (log w) (handed w)
    (deliveries w).
Definition set_streams (v : gmap nat Stream.streamTransport) (w : World) : World :=
  mkWorld (sess w) (flushMu w) (polling w) v (chans w) (heap w) (pool w) (nextStream
    w) (nextChan w) (nextBuf w) (closedStops w) (inStore w) (log w) (handed w)
    (deliveries w).
Definition set_chans (v : gmap nat nat) (w : World) : World :=
  mkWorld (sess w) (flushMu w) (polling w) (streams w) v (heap w) (pool w)
    (nextStream w) (nextChan w) (nextBuf w) (closedStops w) (inStore w) (log w)
    (handed w) (deliveries w).
Definition set_heap (v : gmap nat bytes) (w : World) : World :=
  mkWorld (sess w) (flushMu w) (polling w) (streams w) (chans w) v (pool w)
    (nextStream w) (nextChan w) (nextBuf w) (closedStops w) (inStore w) (log w)
    (handed w) (deliveries w).
Definition set_pool (v : list nat) (w : World) : World :=
  mkWorld (sess w) (flushMu w) (polling w) (streams w) (chans w) (heap w) v
    (nextStream w) (nextChan w) (nextBuf w) (closedStops w) (inStore w) (log w)
    (handed w) (deliveries w).
Definition set_nextStream (v : nat) (w : World) : World :=
  mkWorld (sess w) (flushMu w) (polling w) (streams w) (chans w) (heap w) (pool w) v
    (nextChan w) (nextBuf w) (closedStops w) (inStore w) (log w) (handed w)
    (deliveries w).
Definition set_nextChan (v : nat) (w : World) : World :=
  mkWorld (sess w) (flushMu w) (polling w) (streams w) (chans w) (heap w) (pool w)
    (nextStream w) v (nextBuf w) (closedStops w) (inStore w) (log w) (handed w)
    (deliveries w).
Definition set_nextBuf (v : nat) (w : World) : World :=
  mkWorld (sess w) (flushMu w) (polling w) (streams w) (chans w) (heap w) (pool w)
    (nextStream w) (nextChan w) v (closedStops w) (inStore w) (log w) (handed w)
    (deliveries w).
Definition set_closedStops (v : list nat) (w : World) : World :=
  mkWorld (sess w) (flushMu w) (polling w) (streams w) (chans w) (heap w) (pool w)
    (nextStream w) (nextChan w) (nextBuf w) v (inStore w) (log w) (handed w)
    (deliveries w).
Definition set_inStore (v : bool) (w : World) : World :=
  mkWorld (sess w) (flushMu w) (polling w) (streams w) (chans w) (heap w) (pool w)
    (nextStream w) (nextChan w) (nextBuf w) (closedStops w) v (log w) (handed w)
    (deliveries w).
Definition set_log (v : list event) (w : World) : World :=
  mkWorld (sess w) (flushMu w) (polling w) (streams w) (chans w) (heap w) (pool w)
    (nextStream w) (nextChan w) (nextBuf w) (closedStops w) (inStore w) v (handed w)
    (deliveries w).
Definition set_handed (v : list Packet) (w : World) : World :=
  mkWorld (sess w) (flushMu w) (polling w) (streams w) (chans w) (heap w) (pool w)
    (nextStream w) (nextChan w) (nextBuf w) (closedStops w) (inStore w) (log w) v
    (deliveries w).
Definition set_deliveries (v : list (nat * list Packet)) (w : World) : World :=
  mkWorld (sess w) (flushMu w) (polling w) (streams w) (chans w) (heap w) (pool w)
    (nextStream w) (nextChan w) (nextBuf w) (closedStops w) (inStore w) (log w)
    (handed w) v.

Definition emit (e : event) (w : World) : World := set_log (log w ++ [e]) w.
Definition hand (packets : list Packet) (w : World) : World :=
  set_handed (handed w ++ packets) w.
Definition claim (ch : nat) (packets : list Packet) (w : World) : World :=
  set_deliveries (deliveries w ++ [(ch, packets)]) w.
Definition set_stream (id : nat) (p : Stream.streamTransport) (w : World) : World :=
  set_streams (<[id := p]> (streams w)) w.
Definition upd_stream (id : nat) (f : Stream.streamTransport → Stream.streamTransport)
    (w : World) : World :=
  set_stream id (f (streams w !!! id)) w.

(** Dynamic dispatch of [send] and [close]. *)
Definition transport_send (t : tref) (w : World) : send_plan * World :=
  match tkind t with
  | KPolling =>
      let '(plan, p) := t_send (polling w) in (plan, set_polling p w)
  | _ =>
      let '(plan, p) := t_send (streams w !!! addr t) in (plan, set_stream (addr t) p w)
  end.

Definition transport_close (t : tref) (w : World) : close_plan * World :=
  match tkind t with
  | KPolling =>
      let '(plan, p) := t_close (polling w) in (plan, set_polling p w)
  | _ =>
      let '(plan, p) := t_close (streams w !!! addr t) in (plan, set_stream (addr t) p w)
  end.

(** ** The oracle *)

Inductive read_result :=
| ReadError (e : error)
| ReadMessage (messageType : MessageType) (frame : bytes)
| ReadPacket (p : Packet).

Record oracle := mkOracle {
  o_io : option error;        (** the error of a write *)
  o_deadline : bool;          (** it came from [SetWriteDeadline] *)
  o_read : read_result;       (** what a read returns *)
  o_ctx : option error;       (** the request's context is done *)
  o_stop : bool;              (** the select takes the stop case *)
  o_buf : nat;                (** the buffer [sync.Pool] returns, if it has it *)
  o_keep : bool;              (** the buffer goes back to the pool *)
  o_calls : list api;         (** what a handler does *)
}.

Abbreviation outcome := (Machine.outcome World instr).

Definition api_instr (a : api) : instr :=
  match a with
  | ApiSend d b => ISend d b
  | ApiClose => IClose
  | ApiOnMessage h => IOnMessage h
  | ApiOnClose h => IOnClose h
  end.

(** The rest of the handshake once the open packet is written, or not. *)
Definition handshake_rest (t : tref) (err : option error) : list instr :=
  match err, tkind t with
  | None, KPolling => [IOpen; ICallConnection]
  | None, _ => [IOpen; ICallConnection; ISpawnRead t]
  | Some _, KPolling => [IStoreDelete]
  | Some _, _ => [IStoreDelete; ITransportClose t]
  end.

(** What follows [send], by purpose. *)
Definition sent_to (k : purpose) (t : tref) (packets : list Packet) (sent : bool)
    (err : option error) : list instr :=
  match k with
  | ForFlush => [IFlushSent packets sent err]
  | ForHandshake => handshake_rest t err
  end.
Definition hand_for (k : purpose) (packets : list Packet) (w : World) : World :=
  match k with ForFlush => hand packets w | ForHandshake => w end.

(** ** The steps of [flush] and [send] *)

Definition exec_send (k : purpose) (t : tref) (packets : list Packet) (w : World) : outcome :=
  let '(plan, w) := transport_send t w in
  match plan with
  | Refused => Next w (sent_to k t packets false None) []
  | Claimed ch =>
      Next (claim ch packets (hand_for k packets w))
        (IGetBuffer ch packets :: sent_to k t packets true None) []
  | Writing => Next w [IStreamLock k t packets] []
  end.

Definition exec_stream_lock (k : purpose) (t : tref) (packets : list Packet) (w : World)
    : outcome :=
  if Stream.writeMu (streams w !!! addr t) then Blocked
  else Next (upd_stream (addr t) (Stream.set_writeMu true) w)
         [IStreamWrite k t packets packets] [].

(** WebSocket writes one message per packet; WebTransport one buffer for all. *)
Definition exec_stream_write (o : oracle) (k : purpose) (t : tref)
    (todo packets : list Packet) (w : World) : outcome :=
  let unlocked := upd_stream (addr t) (Stream.set_writeMu false) w in
  match tkind t with
  | KWebTransport =>
      match o_io o with
      | None => Next (emit (EvStream t (frames_buffer packets)) (hand_for k packets unlocked))
                  (sent_to k t packets true None) []
      | Some e =>
          let text := if o_deadline o then "setting write deadline"%string
                      else "writing webtransport frame"%string in
          Next unlocked (sent_to k t packets false (Some (EWrap text e))) []
      end
  | _ =>
      match todo with
      | [] => Next unlocked (sent_to k t packets true None) []
      | p :: todo =>
          match o_io o with
          | None => Next (emit (EvFrame t (writeFrame p)) (hand_for k [p] w))
                      [IStreamWrite k t todo packets] []
          | Some e => Next unlocked
                        (sent_to k t packets false (Some (EWrap "writing websocket frame" e))) []
          end
      end
  end.

Definition exec_flush_sent (packets : list Packet) (sent : bool) (err : option error)
    (w : World) : outcome :=
  match err with
  | Some e =>
      Next w [IFlushClose (str "transport error") (Some e)] []
  | None =>
      if negb sent then Next w [IFlushUnlock] []
      else
        let '(next, s) := flush_drop packets (sess w) in
        Next (set_sess s w)
          (match next with
           | FlushClose => [IFlushClose (str "forced close") None]
           | FlushReturn => [IFlushUnlock]
           | FlushAgain => [IFlushLoop]
           end) []
  end.

(** The polling handshake answers the GET with the open packet. *)
Definition exec_handshake (o : oracle) (t : tref) (open : Packet) (w : World) : outcome :=
  Next (match o_io o with
        | None => emit (EvHandshake (EncodePayload [open])) w
        | Some _ => w
        end) (handshake_rest t (o_io o)) [].

(** ** closeWithReason *)

(** What [closeWithReason] does after [beginTeardown]. *)
Definition teardown_rest (reason : bytes) (cause : option error) (td : option teardown)
    : list instr :=
  match td with
  | None => []
  | Some td =>
      opt ICloseChan (td_stop td) ++ opt ITransportClose (td_transport td) ++
      opt ITransportClose (td_upgrade td) ++ [IStoreDelete] ++
      opt (λ h, ICallClose h reason cause) (td_handler td)
  end.

Definition exec_closeWithReason (reason : bytes) (cause : option error) (rest : list instr)
    (w : World) : outcome :=
  let '(td, s) := beginTeardown (sess w) in
  Next (set_sess s w) (teardown_rest reason cause td ++ rest) [].

Definition exec_transport_close (t : tref) (w : World) : outcome :=
  let '(plan, w) := transport_close t w in
  match plan with
  | CloseNothing => Next w [] []
  | ClosePoll ch =>
      Next (claim ch [packet_of PacketClose] w) [IGetBuffer ch [packet_of PacketClose]] []
  | CloseConn => Next w [IConnClose t] []
  end.

(** ** Upgrades *)

Definition exec_completeUpgrade (t : tref) (w : World) : outcome :=
  let '(r, s) := beginCompleteUpgrade t (sess w) in
  Next (set_sess s w)
    (match r with
     | None => []
     | Some (old, stop) =>
         [IPromote t] ++ opt ICloseChan stop ++ opt ITransportClose old ++ [IFlush]
     end) [].

Definition exec_abortUpgrade (t : tref) (w : World) : outcome :=
  let '(r, s) := beginAbortUpgrade t (sess w) in
  Next (set_sess s w)
    (match r with
     | None => []
     | Some stop => opt ICloseChan stop ++ [ITransportClose t]
     end) [].

Definition exec_writeNoop (w : World) : outcome :=
  let '(ch, p) := Polling.writeNoop (polling w) in
  let w := set_polling p w in
  match ch with
  | None => Next w [] []
  | Some ch =>
      Next (claim ch [packet_of PacketNoop] w) [IGetBuffer ch [packet_of PacketNoop]] []
  end.

(** ** Poll buffers *)

(** [pollPayloadPool.Get()]: a buffer of the pool, or a new one. *)
Definition pool_get (o : oracle) (w : World) : nat * World :=
  if decide (o_buf o ∈ pool w)
  then (o_buf o, set_pool (remove_first (o_buf o) (pool w)) w)
  else (nextBuf w, set_nextBuf (S (nextBuf w)) w).

Definition exec_deliver (ch buf : nat) (w : World) : outcome :=
  match chans w !! ch with
  | Some _ => Blocked
  | None => Next (set_chans (<[ch := buf]> (chans w)) w) [] []
  end.

(** [<-ch]. *)
Definition exec_receive (ch : nat) (k : nat → list instr) (w : World) : outcome :=
  match chans w !! ch with
  | None => Blocked
  | Some buf => Next (set_chans (delete ch (chans w)) w) (k buf) []
  end.

Definition exec_put (o : oracle) (buf : nat) (w : World) : outcome :=
  if o_keep o
  then Next (set_pool (buf :: pool w) (set_heap (<[buf := []]> (heap w)) w)) [] []
  else Next w [] [].

(** ** The poll GET *)

Definition exec_hold (w : World) : outcome :=
  let ch := nextChan w in
  let '(err, p) := Polling.hold ch (polling w) in
  let w := set_nextChan (S ch) (set_polling p w) in
  match err with
  | None => Next w [IFlush; IPollSelect ch] []
  | Some e =>
      if errors_Is e errPollOverlap
      then Next (emit (EvError ConnectionErrorBadRequest) w)
             [ICloseWithReason (str "transport error") None] []
      else Next (emit (EvError ConnectionErrorUnknownSessionID) w) [] []
  end.

Definition exec_write_response (o : oracle) (ch buf : nat) (w : World) : outcome :=
  match o_io o with
  | None => Next (emit (EvResponse ch (heap w !!! buf)) w) [IPutBuffer buf] []
  | Some e => Next w [IPutBuffer buf; ICloseWithReason (str "transport error") (Some e)] []
  end.

Definition exec_release (ch : nat) (cause : error) (w : World) : outcome :=
  let '(reclaimed, p) := Polling.release ch (polling w) in
  let w := set_polling p w in
  Next w ((if reclaimed : bool then [] else [IDrain ch]) ++
          [ICloseWithReason (str "transport close") (Some cause)]) [].

(** ** The read loops *)

Definition exec_read (o : oracle) (t : tref) (w : World) : outcome :=
  match tkind t, o_read o with
  | KPolling, _ => Next w [] []
  | _, ReadError e => Next w [IReadFailed t e] []
  | KWebSocket, ReadMessage mt frame =>
      match decodeWebSocketFrame mt frame with
      | Ok p => Next w [IDispatch t p] []
      | Err e => Next w [IFrameRejected t e] []
      | Panic => Panicked
      end
  | KWebTransport, ReadPacket p => Next w [IDispatch t p] []
  | _, _ => Blocked
  end.

Definition exec_exit (t : tref) (x : read_exit) (w : World) : outcome :=
  Next w (match x with
          | ExitQuietly => []
          | ExitAbort => [IAbortUpgrade t]
          | ExitClose reason cause => [ICloseWithReason reason (Some cause)]
          end) [].

Definition exec_dispatch (t : tref) (p : Packet) (w : World) : outcome :=
  Next w ((if Stream.isProbing (streams w !!! addr t)
           then match handleProbePacket p with
                | AnswerProbe => [IProbePong t]
                | CommitUpgrade => [ICompleteUpgrade t]
                | IgnorePacket => []
                end
           else [IHandlePacket p]) ++ [IReadLoop t]) [].

Definition exec_probe_pong (t : tref) (w : World) : outcome :=
  if Stream.writeMu (streams w !!! addr t) then Blocked
  else Next (upd_stream (addr t) (Stream.set_writeMu true) w) [IProbePongWrite t] [].

Definition exec_probe_pong_write (o : oracle) (t : tref) (w : World) : outcome :=
  let w := upd_stream (addr t) (Stream.set_writeMu false) w in
  match o_io o with
  | None =>
      Next (emit (match tkind t with
                  | KWebTransport => EvStream t (frames_buffer [probePong])
                  | _ => EvFrame t (writeFrame probePong)
                  end) w) [IOnProbe] []
  | Some _ => Next w [IAbortUpgrade t] []
  end.

(** ** The machine *)

(** Run a function of the session that leaves nothing else to do. *)
Definition on_sess (f : ServerSocket → ServerSocket) (w : World) : outcome :=
  Next (set_sess (f (sess w)) w) [] [].

Definition exec (o : oracle) (i : instr) (w : World) : outcome :=
  match i with
  | IHandshake t open =>
      match tkind t with
      | KPolling => exec_handshake o t open w
      | _ => exec_send ForHandshake t [open] w
      end
  | IOpen => on_sess open w
  | ICallConnection => Next w (api_instr <$> o_calls o) []
  | ISpawnRead t => Next w [] [[IReadLoop t]]
  | ISend data isBinary =>
      let '(err, s) := Send data isBinary (sess w) in
      Next (set_sess s w) (match err with None => [IFlush] | Some _ => [] end) []
  | IClose =>
      let '(ok, s) := beginClose (sess w) in
      Next (set_sess s w) (if ok : bool then [IFlush; ICloseArm] else []) []
  | ICloseArm => on_sess Close_arm w
  | IOnMessage h => on_sess (OnMessage h) w
  | IOnClose h => on_sess (OnClose h) w
  | IFlush => if flushMu w then Blocked else Next (set_flushMu true w) [IFlushLoop] []
  | IFlushLoop =>
      match flush_take (sess w) with
      | None => Next w [IFlushUnlock] []
      | Some (packets, t) => Next w [IFlushSend t packets] []
      end
  | IFlushSend t packets => exec_send ForFlush t packets w
  | IStreamLock k t packets => exec_stream_lock k t packets w
  | IStreamWrite k t todo packets => exec_stream_write o k t todo packets w
  | IFlushSent packets sent err => exec_flush_sent packets sent err w
  | IFlushClose reason cause => exec_closeWithReason reason cause [IFlushUnlock] w
  | IFlushUnlock => Next (set_flushMu false w) [] []
  | ICloseWithReason reason cause => exec_closeWithReason reason cause [] w
  | ICloseChan c =>
      if decide (c ∈ closedStops w) then Panicked
      else Next (set_closedStops (c :: closedStops w) w) [] []
  | ITransportClose t => exec_transport_close t w
  | IConnClose t => Next (emit (EvConnClosed t) (upd_stream (addr t) Stream.close_conn w)) [] []
  | IStoreDelete => Next (set_inStore false w) [] []
  | ICallClose h reason cause =>
      Next (emit (EvClose h reason cause) w) (api_instr <$> o_calls o) []
  | IHandlePacket p =>
      Next w (match handlePacket p with
              | PacketPonged => [IOnPong]
              | PacketDelivered data isBinary => [IDeliverMessage data isBinary]
              | PacketCloses => [ICloseWithReason (str "transport close") None]
              | PacketIgnored => []
              end) []
  | IOnPong => on_sess onPong w
  | IDeliverMessage data isBinary =>
      Next w (opt (λ h, ICallMessage h data isBinary) (onMessageHandler (sess w))) []
  | ICallMessage h data isBinary =>
      Next (emit (EvMessage h data isBinary) w) (api_instr <$> o_calls o) []
  | ISendPing =>
      let '(sent, s) := sendPing (sess w) in
      Next (set_sess s w) (if sent : bool then [IFlush] else []) []
  | IStartUpgrade t =>
      let '(ok, s) := startUpgrade t (sess w) in
      if ok : bool then Next (set_sess s w) [] [[IReadLoop t]]
      else Next (set_sess s w) [ITransportClose t] []
  | IOnProbe =>
      let '(stop, s) := onProbe (sess w) in
      Next (set_sess s w) []
        (match stop with None => [] | Some c => [[IProbeNoop; INoopLoop c]] end)
  | IProbeNoop => Next w (if activePollingTransport (sess w) then [IWriteNoop] else []) []
  | INoopLoop c =>
      if o_stop o then (if decide (c ∈ closedStops w) then Next w [] [] else Blocked)
      else Next w [IProbeNoop; INoopLoop c] []
  | IWriteNoop => exec_writeNoop w
  | ICompleteUpgrade t => exec_completeUpgrade t w
  | IPromote t => Next (upd_stream (addr t) Stream.promote w) [] []
  | IAbortUpgrade t => exec_abortUpgrade t w
  | IGetBuffer ch packets =>
      let '(buf, w) := pool_get o w in Next w [IEncode ch buf packets] []
  | IEncode ch buf packets =>
      Next (set_heap (<[buf := appendPayload [] packets]> (heap w)) w) [IDeliver ch buf] []
  | IDeliver ch buf => exec_deliver ch buf w
  | IPollGet =>
      if activePollingTransport (sess w) then Next w [IHold] []
      else Next (emit (EvError ConnectionErrorBadRequest) w) [] []
  | IHold => exec_hold w
  | IPollSelect ch =>
      match o_ctx o with
      | None => exec_receive ch (λ buf, [IWriteResponse ch buf]) w
      | Some cause => Next w [IRelease ch cause] []
      end
  | IWriteResponse ch buf => exec_write_response o ch buf w
  | IRelease ch cause => exec_release ch cause w
  | IDrain ch => exec_receive ch (λ buf, [IPutBuffer buf]) w
  | IPutBuffer buf => exec_put o buf w
  | IReadLoop t => exec_read o t w
  | IReadFailed t err => exec_exit t (read_failed (tkind t) (streams w !!! addr t) err) w
  | IFrameRejected t err => exec_exit t (frame_rejected (streams w !!! addr t) err) w
  | IDispatch t p => exec_dispatch t p w
  | IProbePong t => exec_probe_pong t w
  | IProbePongWrite t => exec_probe_pong_write o t w
  end.

Definition callback_instr (cb : callback) : instr :=
  match cb with
  | CbSendPing => ISendPing
  | CbPingTimeout => ICloseWithReason (str "ping timeout") None
  | CbAbortUpgrade t => IAbortUpgrade t
  | CbForcedClose => ICloseWithReason (str "forced close") None
  end.

(** What starts from outside: application goroutines, requests for this session that
    were looked up in the store, and [Server.Close]. *)
Inductive arrival :=
| AppCalls (calls : list api)
| PollArrives
| PostArrives (packets : list Packet)
| BadPostArrives (reason : bytes) (cause : option error)
| UpgradeArrives (k : transportKind)
| ServerClose.

Definition arrive (a : arrival) (w : World) : option (World * list instr) :=
  match a with
  | AppCalls calls => Some (w, api_instr <$> calls)
  | _ =>
      if inStore w then
        match a with
        | AppCalls calls => None
        | PollArrives => Some (w, [IPollGet])
        | PostArrives packets => Some (w, IHandlePacket <$> packets)
        | BadPostArrives reason cause => Some (w, [ICloseWithReason reason cause])
        | UpgradeArrives KPolling => None
        | UpgradeArrives k =>
            Some (set_nextStream (S (nextStream w))
                    (set_stream (nextStream w) (Stream.newTransport true) w),
                  [IStartUpgrade (mkRef k (nextStream w))])
        | ServerClose => Some (w, [ICloseWithReason (str "forced close") None])
        end
      else None
  end.

Definition config : Type := World * list (list instr).

(** An event from outside: a timer fires, or something arrives. *)
Inductive external := Fires (id : nat) | Arrives (a : arrival).

Definition happen (e : external) (w : World) : option (World * list instr) :=
  match e with
  | Fires id =>
      match timers (sess w) !! id with
      | Some tm => Some (set_sess (fire id (sess w)) w, [callback_instr (fires tm)])
      | None => None
      end
  | Arrives a => arrive a w
  end.

Abbreviation step := (Machine.step exec happen).

(** A session whose handshake arrived on the given kind of transport, just stored, with
    the open packet to send. *)
Definition init (c : serverConfig) (k : transportKind) (open : Packet) : config :=
  let t := mkRef k 0 in
  (mkWorld (newServerSocket c t) false Polling.newServerPollingTransport
     (match k with KPolling => ∅ | _ => {[ 0%nat := Stream.newTransport false ]} end)
     ∅ ∅ [] 1 0 0 [] true [] [] [],
   [[IHandshake t open]]).

Definition reachable (c : serverConfig) (k : transportKind) (open : Packet) : config → Prop :=
  rtc step (init c k open).

(** ** Running the machine *)

Abbreviation act := (Machine.act oracle external).
Abbreviation run := (Machine.run exec happen).
Definition Fire (id : nat) : act := Ext (Fires id).
Definition Arrive (a : arrival) : act := Ext (Arrives a).

(** An oracle for which all I/O succeeds, reads fail, and handlers do nothing. *)
Definition calm : oracle := mkOracle None false (ReadError (EForeign 0)) None false 0 true [].
