(* ===== verification/SessionState.v ===== *)
(** * Invariants of the session's guarded state

    The proof principle for the session machine, and the invariants that speak only
    about the state [s.mu] guards: its life cycle, what a closed session has released,
    the upgrade in flight and the armed timers. *)
From S2P Require Import Prelude Machine Packet ServerOptions ServerTransport ServerSocket.
From S2P Require Import SessionMachine.

(** ** Invariants of the machine *)

Abbreviation invariant := (Machine.invariant World instr).

(** [I] holds initially and every step keeps it, given [J] before the step. *)
Record inductive_under (J I : invariant) : Prop := {
  ind_init c k op : let '(w, ts) := init c k op in I w (concat ts);
  ind_run o i P w w' push spawn :
    exec o i w = Next w' push spawn →
    J w (i :: P) → I w (i :: P) → I w' (push ++ concat spawn ++ P);
  ind_fire id tm P w :
    timers (sess w) !! id = Some tm →
    J w P → I w P → I (set_sess (fire id (sess w)) w) (callback_instr (fires tm) :: P);
  ind_arrive a P w w' thread :
    arrive a w = Some (w', thread) → J w P → I w P → I w' (thread ++ P);
}.

Definition always (I : invariant) : Prop :=
  ∀ c k op w ts, reachable c k op (w, ts) → I w (concat ts).

Lemma inductive_preserved (J I : invariant) :
  inductive_under J I → preserved_under exec happen J I.
Proof.
  intros [_ Hrun Hfire Harr]. split; [exact Hrun|].
  intros [id|a] P w w' thread H; [|by eapply Harr].
  cbn in H. destruct (timers (sess w) !! id) eqn:Ht; simplify_eq. by apply Hfire.
Qed.

Lemma always_intro (J I : invariant) `{!Multiset J, !Multiset I} :
  always J → inductive_under J I → always I.
Proof.
  intros HJ Hind c k op w ts Hr. pose proof (ind_init _ _ Hind c k op) as Hi.
  unfold reachable in Hr. destruct (init c k op) as [w0 ts0] eqn:E.
  eapply (reachable_invariant exec happen J I); [by apply inductive_preserved|exact Hr| |exact Hi].
  intros w1 ts1 H1. apply (HJ c k op). unfold reachable. by rewrite E.
Qed.

Lemma always_true : always inv_true.
Proof. done. Qed.
Lemma always_and I J : always I → always J → always (inv_and I J).
Proof. intros HI HJ c k op w ts Hr. split; eauto. Qed.

(** What handlers, the rest of a handshake and the rest of a teardown run, apart from
    the closing of the stop channel: instructions most resources have nothing to do
    with. *)
Definition boring (i : instr) : bool :=
  match i with
  | IOpen | ICallConnection | ISpawnRead _ | ISend _ _ | IClose | IOnMessage _ | IOnClose _
  | ITransportClose _ | IStoreDelete | ICallClose _ _ _ | IHandlePacket _ => true
  | _ => false
  end.

Class Boring {A} (f : instr → list A) := boring_nil i : boring i = true → f i = [].

Section boring.
Context {A : Type} (f : instr → list A) `{!Boring f}.

Lemma gather_api calls : gather f (api_instr <$> calls) = [].
Proof. apply gather_fmap. intros []; by apply boring_nil. Qed.

Lemma gather_handle ps : gather f (IHandlePacket <$> ps) = [].
Proof. apply gather_fmap. intros p. by apply boring_nil. Qed.

Lemma gather_handshake t err : gather f (handshake_rest t err) = [].
Proof.
  unfold handshake_rest. destruct err, (tkind t);
    rewrite !gather_cons, ?boring_nil by done; done.
Qed.

Lemma gather_teardown reason cause td :
  gather f (teardown_rest reason cause td) =
  match td with
  | Some td => match td_stop td with Some c => f (ICloseChan c) | None => [] end
  | None => []
  end.
Proof.
  destruct td as [[t u s h]|]; [|done]. unfold teardown_rest.
  cbn [td_transport td_upgrade td_stop td_handler].
  rewrite !gather_app, !gather_opt, gather_cons, (boring_nil IStoreDelete) by done.
  destruct t, u, h; rewrite ?boring_nil by done; cbn [app];
    by rewrite gather_nil, ?app_nil_r.
Qed.

Lemma gather_teardown_nil reason cause td :
  (∀ c, f (ICloseChan c) = []) → gather f (teardown_rest reason cause td) = [].
Proof.
  intros Hf. rewrite gather_teardown. destruct td as [td|]; [|done].
  destruct (td_stop td); [apply Hf|done].
Qed.
End boring.

#[export] Hint Rewrite
  @gather_api @gather_handle @gather_handshake @gather_teardown using apply _ : gather.

(** ** The critical sections of the session

    Every step of the machine acts on the session by one of its critical sections. *)

Inductive quiet_step (s : ServerSocket) : ServerSocket → Prop :=
| SS_same : quiet_step s s
| SS_open : quiet_step s (open s)
| SS_Send d b : quiet_step s (Send d b s).2
| SS_beginClose : quiet_step s (beginClose s).2
| SS_Close_arm : quiet_step s (Close_arm s)
| SS_OnMessage h : quiet_step s (OnMessage h s)
| SS_OnClose h : quiet_step s (OnClose h s)
| SS_onPong : quiet_step s (onPong s)
| SS_sendPing : quiet_step s (sendPing s).2
| SS_beginTeardown : quiet_step s (beginTeardown s).2
| SS_startUpgrade t : quiet_step s (startUpgrade t s).2
| SS_onProbe : quiet_step s (onProbe s).2
| SS_beginCompleteUpgrade t : quiet_step s (beginCompleteUpgrade t s).2
| SS_beginAbortUpgrade t : quiet_step s (beginAbortUpgrade t s).2.

(** Only [flush] takes packets out of the buffer, and only time fires a timer. *)
Inductive sess_step (s : ServerSocket) : ServerSocket → Prop :=
| SS_quiet s' : quiet_step s s' → sess_step s s'
| SS_flush_drop ps : sess_step s (flush_drop ps s).2
| SS_fire id : sess_step s (fire id s).

#[export] Hint Constructors quiet_step sess_step : go.

(** Take apart one execution: the instruction, and every test it makes. *)
Ltac exec_cases H :=
  unfold exec, on_sess, exec_handshake, exec_send, exec_stream_lock, exec_stream_write,
    exec_flush_sent, exec_closeWithReason, exec_transport_close, exec_completeUpgrade,
    exec_abortUpgrade, exec_writeNoop, exec_deliver, exec_receive, exec_put, exec_hold,
    exec_write_response, exec_release, exec_read, exec_exit, exec_dispatch,
    exec_probe_pong, exec_probe_pong_write, transport_send, transport_close,
    hand_for, pool_get in H;
  repeat case_match; simplify_eq/=.

Definition is_flush_sent (i : instr) : bool :=
  match i with IFlushSent _ _ _ => true | _ => false end.

Lemma exec_quiet o i w w' push spawn :
  exec o i w = Next w' push spawn → is_flush_sent i = false → quiet_step (sess w) (sess w').
Proof.
  intros H Hi. destruct i; try done; exec_cases H; try constructor;
    match goal with Hf : ?f = (_, ?s) |- quiet_step _ ?s =>
      replace s with (f.2) by (by rewrite Hf); constructor end.
Qed.

Lemma exec_sess_step o i w w' push spawn :
  exec o i w = Next w' push spawn → sess_step (sess w) (sess w').
Proof.
  intros H. destruct (is_flush_sent i) eqn:Hi; [|constructor; by eapply exec_quiet].
  destruct i; try done. exec_cases H; try (constructor; constructor).
  all: match goal with Hf : ?f = (_, ?s) |- sess_step _ ?s =>
      replace s with (f.2) by (by rewrite Hf); apply SS_flush_drop end.
Qed.

Lemma arrive_sess a w w' thread : arrive a w = Some (w', thread) → sess w' = sess w.
Proof. unfold arrive. intros H. by repeat case_match; simplify_eq/=. Qed.

(** ** Well-formed sessions *)

(** An armed timer is the one its field refers to, with its duration and function. *)
Definition timer_role (s : ServerSocket) (id : nat) (tm : Timer) : Prop :=
  match fires tm with
  | CbSendPing => pingTimer s = Some id ∧ duration tm = pingInterval (options s)
  | CbPingTimeout => pongTimer s = Some id ∧ duration tm = pingTimeout (options s)
  | CbAbortUpgrade t =>
      upgradeTimer s = Some id ∧ upgradeTransport s = Some t ∧
      duration tm = upgradeTimeout (options s)
  | CbForcedClose => closeTimer s = Some id ∧ duration tm = pingTimeout (options s)
  end.

Definition not_close (p : Packet) : Prop := PType p ≠ PacketClose.

(** The control state. *)
Record control_ok (s : ServerSocket) : Prop := {
  ok_upgrading : upgrading s = true ↔ upgradeTransport s ≠ None;
  ok_upgradeTimer : upgradeTimer s ≠ None → upgrading s = true ∧ state s = sessionOpen;
  ok_noop : probeNoopStop s ≠ None → upgrading s = true;
  ok_upgrade_state :
    upgrading s = true →
    state s ≠ sessionOpening ∧ state s ≠ sessionClosed ∧ activePollingTransport s = true;
  ok_transport : state s = sessionClosed ↔ transport s = None;
  ok_ping : pingTimer s ≠ None → state s = sessionOpen;
  ok_pong : pongTimer s ≠ None → state s = sessionOpen;
  ok_closeTimer : closeTimer s ≠ None → state s = sessionClosing;
  ok_buffer : state s = sessionClosed → writeBuffer s = [];
}.

(** The close packet is queued by closing gracefully, and is the last one ever queued. *)
Definition ended (ps : list Packet) : Prop :=
  ∃ ms, ps = ms ++ [packet_of PacketClose] ∧ Forall not_close ms.

Definition close_last (s : ServerSocket) : Prop :=
  match state s with
  | sessionOpening | sessionOpen => Forall not_close (enqueued s)
  | sessionClosing => ended (enqueued s)
  | sessionClosed => Forall not_close (enqueued s) ∨ ended (enqueued s)
  end.

Definition sess_ok (s : ServerSocket) : Prop :=
  control_ok s ∧ map_Forall (timer_role s) (timers s) ∧ close_last s.

(** Evaluate the session's functions on a session given by its fields. *)
Ltac sess_norm :=
  lazy beta iota zeta delta [
    options state transport upgradeTransport upgrading writeBuffer pingTimer
    pongTimer upgradeTimer closeTimer probeNoopStop onMessageHandler onCloseHandler
    timers fresh enqueued set_state set_transport set_upgradeTransport set_upgrading
    set_writeBuffer set_pingTimer set_pongTimer set_upgradeTimer set_closeTimer
    set_probeNoopStop set_onMessageHandler set_onCloseHandler set_timers set_fresh
    set_enqueued open Send beginClose Close_arm OnMessage OnClose flush_drop onPong
    sendPing beginTeardown startUpgrade onProbe beginCompleteUpgrade
    beginAbortUpgrade fire armPingLocked stopTimersLocked AfterFunc enqueue
    stop_timer td_transport td_upgrade td_stop td_handler fst snd].

(** Put the outcomes of tests in positive form. *)
Ltac tests :=
  repeat match goal with
  | H : ¬ (_ ≠ _) |- _ => apply dec_stable in H
  | H : ¬ (_ ∨ _) |- _ => apply Decidable.not_or in H as [? ?]
  | H : ¬ (_ ∧ _) |- _ => apply not_and_l in H
  | H : _ ∧ _ |- _ => destruct H
  | H : ¬ _ ∨ ¬ _ |- _ => destruct H
  | H : ?b ≠ false |- _ => apply not_false_is_true in H
  end.

(** Case analysis on a test that contains no other. *)
Ltac inner_case :=
  match goal with
  | |- context [match ?x with _ => _ end] =>
      lazymatch x with
      | context [match _ with _ => _ end] => fail
      | decide _ => destruct x
      | _ => destruct x eqn:?
      end
  end.

(** Case analysis on a critical section: which one, and every test it makes. *)
Ltac sess_cases s H :=
  destruct s; inversion H; subst; clear H;
  try match goal with Hq : quiet_step _ _ |- _ => inversion Hq; subst; clear Hq end;
  sess_norm;
  repeat (inner_case; sess_norm); try discriminate;
  tests; simplify_eq.

Lemma transportType_polling t :
  transportType t = TransportTypePolling → as_polling (Some t) = true.
Proof. unfold transportType, as_polling. by destruct (tkind t). Qed.

Lemma step_control_ok s s' : sess_step s s' → control_ok s → control_ok s'.
Proof.
  intros Hstep [Hc1 Hc2 Hc3 Hc4 Hc5 Hc6 Hc7 Hc8 Hc9]. unfold activePollingTransport in *.
  revert Hc1 Hc2 Hc3 Hc4 Hc5 Hc6 Hc7 Hc8 Hc9. sess_cases s Hstep.
  all: intros Hc1 Hc2 Hc3 Hc4 Hc5 Hc6 Hc7 Hc8 Hc9; split; unfold activePollingTransport;
    cbn [ServerSocket.state ServerSocket.transport ServerSocket.upgradeTransport
         ServerSocket.upgrading ServerSocket.writeBuffer ServerSocket.pingTimer
         ServerSocket.pongTimer ServerSocket.upgradeTimer ServerSocket.closeTimer
         ServerSocket.probeNoopStop].
  all: try assumption; try done.
  - by intros [_ ?]%Hc2.
  - by intros [? _]%Hc4.
  - split; [done|]. by intros ?%Hc5.
  - by intros ?%Hc8.
  - intros (? & ? & ?)%Hc4. done.
  - split; [done|]. by intros ?%Hc5.
  - intros (? & ? & ?)%Hc4. done.
  - split; [done|]. by intros ?%Hc5.
  - intros _. split_and!; [done..|]. by apply transportType_polling.
  - split; [|done]. intros Hs. by apply Hc4 in Hs.
  - intros Hs. by rewrite (Hc9 Hs), drop_nil.
Qed.

Lemma delete_opt_lookup t m id (tm : Timer) :
  delete_opt t m !! id = Some tm ↔ t ≠ Some id ∧ m !! id = Some tm.
Proof.
  destruct t as [id'|]; cbn; [|naive_solver].
  rewrite lookup_delete_Some. naive_solver.
Qed.

Lemma step_timers_ok s s' :
  sess_step s s' → control_ok s →
  map_Forall (timer_role s) (timers s) → map_Forall (timer_role s') (timers s').
Proof.
  intros Hstep [_ Hc2 _ _ _ _ _ _ _] Hm id tm. revert Hc2 Hm.
  sess_cases s Hstep; intros Hc2 Hm; cbn [ServerSocket.timers] in *;
    rewrite ?lookup_insert_Some, ?delete_opt_lookup, ?lookup_delete_Some;
    intros Hid; specialize (Hm id tm); unfold timer_role in *; cbn in Hm, Hc2 |- *.
  all: try solve [apply Hm; apply Hid].
  all: destruct tm as [d []]; cbn in *; naive_solver.
Qed.

Lemma Forall_snoc_not_close ps p :
  Forall not_close ps → not_close p → Forall not_close (ps ++ [p]).
Proof. intros. apply Forall_app. auto. Qed.

Lemma step_close_last s s' : sess_step s s' → close_last s → close_last s'.
Proof.
  intros Hstep Hc. unfold close_last, ended in *.
  revert Hc. sess_cases s Hstep; cbn; intros Hc; try assumption; eauto.
  all: by apply Forall_snoc_not_close.
Qed.

Lemma step_sess_ok s s' : sess_step s s' → sess_ok s → sess_ok s'.
Proof.
  intros Hstep (Hc & Ht & Hl). split_and!;
    [by eapply step_control_ok|by eapply step_timers_ok|by eapply step_close_last].
Qed.

(** Every step keeps a relation-closed property of the session. *)
Lemma always_sess (Q : ServerSocket → Prop) :
  (∀ c k, Q (newServerSocket c (mkRef k 0))) →
  (∀ s s', sess_step s s' → Q s → Q s') →
  always (λ w _, Q (sess w)).
Proof.
  intros Hinit Hstep. refine (always_intro inv_true _ always_true _). split.
  - intros c k op. apply Hinit.
  - intros o i P w w' push spawn He _ HQ. eapply Hstep; [by eapply exec_sess_step|done].
  - intros id tm P w _ _ HQ. eapply Hstep; [|done]. apply SS_fire.
  - intros a P w w' thread Ha _ HQ. by rewrite (arrive_sess _ _ _ _ Ha).
Qed.

Lemma always_sess_ok : always (λ w _, sess_ok (sess w)).
Proof.
  apply always_sess; [|apply step_sess_ok].
  intros c k. repeat split; try done. constructor.
Qed.

(** ** Properties *)

(** What a session holds on to. *)
Record released (s : ServerSocket) : Prop := {
  rel_transport : transport s = None;
  rel_upgrade : upgradeTransport s = None ∧ upgrading s = false;
  rel_noop : probeNoopStop s = None;
  rel_buffer : writeBuffer s = [];
  rel_timers : timers s = ∅;
}.

Lemma closed_released s : sess_ok s → state s = sessionClosed → released s.
Proof.
  intros ([Hc1 Hc2 Hc3 Hc4 Hc5 Hc6 Hc7 Hc8 Hc9] & Ht & _) Hs.
  assert (upgrading s = false) as Hu.
  { destruct (upgrading s) eqn:?; [|done]. by destruct Hc4 as (_ & ? & _). }
  assert (∀ {A} (x : option A) (Q : Prop), (x ≠ None → Q) → ¬ Q → x = None) as Hnone.
  { intros A [x|] Q HQ HnQ; [|done]. by destruct HnQ; apply HQ. }
  split; [by apply Hc5|split; [|done]|..].
  - eapply Hnone; [apply Hc1|congruence].
  - eapply Hnone; [apply Hc3|congruence].
  - by apply Hc9.
  - apply map_empty. intros id. destruct (timers s !! id) as [[d cb]|] eqn:E; [|done].
    apply Ht in E. rewrite Hs in *. unfold timer_role in E. cbn in E.
    destruct cb; destruct E as [E _]; exfalso;
      match goal with H : ?x = Some _, H' : ?x ≠ None → _ |- _ =>
        rewrite H in H'; specialize (H' ltac:(done)) end; naive_solver.
Qed.

Lemma sess_step_rank s s' :
  sess_step s s' → (state_rank (state s) ≤ state_rank (state s'))%nat.
Proof. intros Hstep. sess_cases s Hstep; cbn; try lia; destruct state; cbn; lia. Qed.

Lemma step_sess w ts w' ts' : step (w, ts) (w', ts') → sess_step (sess w) (sess w').
Proof.
  inversion 1 as [|[id|a] ? ? ? th Ha]; subst; [by eapply exec_sess_step|..]; cbn in Ha.
  - case_match; simplify_eq. apply SS_fire.
  - rewrite (arrive_sess _ _ _ _ Ha). constructor. constructor.
Qed.

(** C24. The state of a session only moves forward (opening, open, closing, closed), so a
    closed session stays closed; and a closed session has let go of everything: both
    transports, the upgrade, the noop channel, the buffered packets and every timer. *)
Theorem session_lifecycle c k op w ts w' ts' :
  reachable c k op (w, ts) → step (w, ts) (w', ts') →
  (state_rank (state (sess w)) ≤ state_rank (state (sess w')))%nat ∧
  (state (sess w') = sessionClosed → released (sess w')).
Proof.
  intros Hr Hs. split; [by eapply sess_step_rank, step_sess|].
  apply closed_released. eapply (always_sess_ok c k op w' ts').
  eapply rtc_r; [exact Hr|exact Hs].
Qed.
