(* ===== verification/SessionFlush.v ===== *)
(** * Delivery: flush is exclusive, and every packet is handed over once, in order

    [flushMu] makes the goroutine between [flush]'s lock and unlock unique; the packets
    it takes from [writeBuffer] are the ones it drops once the transport has them.  The
    packets handed to transports are therefore always a prefix of the packets queued. *)
From S2P Require Import Prelude Machine Packet ServerOptions ServerTransport ServerSocket.
From S2P Require Import SessionMachine SessionState.

(** The places inside [flush]. *)
Definition flush_token (i : instr) : bool :=
  match i with
  | IFlushLoop | IFlushSend _ _ | IFlushSent _ _ _ | IFlushClose _ _ | IFlushUnlock
  | IStreamLock ForFlush _ _ | IStreamWrite ForFlush _ _ _ => true
  | _ => false
  end.

Definition token (i : instr) : list instr := if flush_token i then [i] else [].
Lemma token_true i : flush_token i = true → token i = [i].
Proof. unfold token. by intros ->. Qed.
Lemma token_false i : flush_token i = false → token i = [].
Proof. unfold token. by intros ->. Qed.
Abbreviation tokens := (gather token).

#[export] Instance token_boring : Boring token.
Proof. by intros []. Qed.

(** Where [flush] is, with the part of its snapshot already handed over but not dropped
    from the buffer, and the part still to hand over. *)
Inductive at_token : list instr → list Packet → list Packet → Prop :=
| at_none : at_token [] [] []
| at_loop : at_token [IFlushLoop] [] []
| at_unlock : at_token [IFlushUnlock] [] []
| at_send t ps : at_token [IFlushSend t ps] [] ps
| at_lock t ps : at_token [IStreamLock ForFlush t ps] [] ps
| at_write t done todo :
    (tkind t = KWebTransport → done = []) →
    at_token [IStreamWrite ForFlush t todo (done ++ todo)] done todo
| at_sent ps : at_token [IFlushSent ps true None] ps []
| at_refused ps : at_token [IFlushSent ps false None] [] []
| at_error ps b e : at_token [IFlushSent ps b (Some e)] [] []
| at_close reason cause : at_token [IFlushClose reason cause] [] [].

(** [flush] has met an error and is about to tear the session down. *)
Definition failing (P : list instr) : bool :=
  match P with
  | [IFlushSent _ _ (Some _)] | [IFlushClose _ (Some _)] => true
  | _ => false
  end.

Definition delivery (ks : list instr) (s : ServerSocket) (handed : list Packet) : Prop :=
  ∃ done todo,
    at_token ks done todo ∧ handed ++ todo `prefix_of` enqueued s ∧
    (state s ≠ sessionClosed → failing ks = false →
     ∃ newer, writeBuffer s = done ++ todo ++ newer ∧ enqueued s = handed ++ todo ++ newer).

Definition inv_flush : invariant := λ w P,
  (flushMu w = false ↔ tokens P = []) ∧
  ∃ ks, tokens P ≡ₚ ks ∧ delivery ks (sess w) (handed w).

#[export] Instance inv_flush_multiset : Multiset inv_flush.
Proof.
  intros w P Q HPQ. unfold inv_flush.
  assert (tokens P = [] ↔ tokens Q = []) as ->.
  { split; intros H; apply Permutation_nil; rewrite <- H, HPQ; done. }
  by setoid_rewrite HPQ.
Qed.

(** Outside [flush], packets are only added at the end of the buffer, until teardown
    empties it. *)
Definition grows (s s' : ServerSocket) : Prop :=
  ∃ ext, enqueued s' = enqueued s ++ ext ∧
    (state s' ≠ sessionClosed →
     state s ≠ sessionClosed ∧ writeBuffer s' = writeBuffer s ++ ext).

Lemma quiet_grows s s' : quiet_step s s' → grows s s'.
Proof.
  intros Hstep. unfold grows.
  sess_cases s Hstep; cbn; first [exists []; by rewrite !app_nil_r|by eexists].
Qed.

Lemma delivery_grows ks s s' h : grows s s' → delivery ks s h → delivery ks s' h.
Proof.
  intros (ext & He & Hb) (dn & todo & Hat & Hp & Heq). exists dn, todo.
  split_and!; [done|rewrite He; by apply prefix_app_r|].
  intros Hs' Hf. destruct (Hb Hs') as [Hs Hw]. destruct (Heq Hs Hf) as (newer & Hw' & He').
  exists (newer ++ ext). rewrite Hw, He, Hw', He', <- !app_assoc. done.
Qed.

Definition is_flush (i : instr) : bool := match i with IFlush => true | _ => false end.

(** Instructions outside [flush] leave its state alone. *)
Lemma exec_neutral o i w w' push spawn :
  exec o i w = Next w' push spawn → flush_token i = false → is_flush i = false →
  tokens push = [] ∧ tokens (concat spawn) = [] ∧
  flushMu w' = flushMu w ∧ handed w' = handed w.
Proof.
  intros H Hi Hne. destruct i; try done; exec_cases H;
    autorewrite with gather; try (split_and!; by repeat case_match).
  all: destruct k; [done|]; cbn [sent_to]; by rewrite gather_handshake by apply _.
Qed.

Lemma flush_take_Some s ps t :
  flush_take s = Some (ps, t) → state s ≠ sessionClosed ∧ writeBuffer s = ps.
Proof. unfold flush_take. intros H. case_decide; [done|]. by repeat case_match; simplify_eq. Qed.

Lemma delivery_idle_send s h t ps :
  flush_take s = Some (ps, t) → delivery [IFlushLoop] s h → delivery [IFlushSend t ps] s h.
Proof.
  intros [Hs Hw]%flush_take_Some (dn & todo & Hat & Hp & Heq). inversion Hat; subst.
  destruct (Heq Hs) as (newer & Hw & He); [done|]. cbn in *. subst newer.
  exists [], (writeBuffer s). split_and!; [constructor|by rewrite He|].
  intros _ _. exists []. by rewrite !app_nil_r.
Qed.

Lemma flush_drop_spec ps s :
  enqueued (flush_drop ps s).2 = enqueued s ∧ state (flush_drop ps s).2 = state s ∧
  (ps `prefix_of` writeBuffer s →
   writeBuffer (flush_drop ps s).2 = drop (length ps) (writeBuffer s)).
Proof.
  unfold flush_drop. destruct (len ps <=? len (writeBuffer s)) eqn:Hl; cbn; [done|].
  split_and!; [done..|]. intros [k Hk]. apply Z.leb_gt in Hl.
  rewrite Hk, len_app in Hl. pose proof (len_nonneg k). lia.
Qed.

(** After a successful send, the snapshot is dropped and the rest stays in line. *)
Lemma delivery_drop ps s h ks :
  at_token ks [] [] → failing ks = false →
  delivery [IFlushSent ps true None] s h → delivery ks (flush_drop ps s).2 h.
Proof.
  intros Hks Hf (dn & todo & Hat & Hp & Heq).
  assert (dn = ps ∧ todo = []) as [-> ->] by (by inversion Hat).
  destruct (flush_drop_spec ps s) as (He & Hst & Hw).
  exists [], []. split_and!; [done|by rewrite He|]. rewrite Hst, He. intros Hs _.
  destruct (Heq Hs) as (newer & Hw' & He'); [done|]. cbn in *. exists newer. split; [|done].
  rewrite Hw by (rewrite Hw'; by eexists). by rewrite Hw', drop_app_length.
Qed.

(** How a delivery moves on: nothing changes, [x] is handed over, the transport refuses
    the rest, or the session is about to close. *)
Lemma delivery_hand ks ks' dn x todo s h :
  (∀ dn' todo', at_token ks dn' todo' → dn' = dn ∧ todo' = x ++ todo) →
  at_token ks' (dn ++ x) todo → (failing ks' = false → failing ks = false) →
  delivery ks s h → delivery ks' s (h ++ x).
Proof.
  intros Hinv Hat' Hf (dn' & todo' & Hat & Hp & Heq).
  destruct (Hinv _ _ Hat) as [-> ->]. exists (dn ++ x), todo.
  split_and!; [done|by rewrite <- app_assoc|]. intros Hs Hf'.
  destruct (Heq Hs (Hf Hf')) as (newer & Hw & He). exists newer.
  rewrite Hw, He, <- !app_assoc. done.
Qed.

Lemma delivery_same ks ks' dn todo s h :
  (∀ dn' todo', at_token ks dn' todo' → dn' = dn ∧ todo' = todo) →
  at_token ks' dn todo → (failing ks' = false → failing ks = false) →
  delivery ks s h → delivery ks' s h.
Proof.
  intros Hinv Hat Hf Hd. rewrite <- (app_nil_r h).
  eapply (delivery_hand ks ks' dn [] todo); rewrite ?app_nil_r; eauto.
Qed.

Lemma delivery_refuse ks ks' todo s h :
  (∀ dn' todo', at_token ks dn' todo' → dn' = [] ∧ todo' = todo) →
  at_token ks' [] [] → (failing ks' = false → failing ks = false) →
  delivery ks s h → delivery ks' s h.
Proof.
  intros Hinv Hat' Hf (dn' & todo' & Hat & Hp & Heq).
  destruct (Hinv _ _ Hat) as [-> ->]. exists [], [].
  split_and!; [done|rewrite app_nil_r; by eapply prefix_app_l|]. intros Hs Hf'.
  destruct (Heq Hs (Hf Hf')) as (newer & Hw & He). by exists (todo ++ newer).
Qed.

Lemma delivery_end ks ks' s h :
  at_token ks' [] [] → (failing ks' = true ∨ state s = sessionClosed) →
  delivery ks s h → delivery ks' s h.
Proof.
  intros Hat' Hf (dn' & todo' & Hat & Hp & Heq). exists [], [].
  split_and!; [done|rewrite app_nil_r; by eapply prefix_app_l|].
  intros Hs Hf'. destruct Hf; congruence.
Qed.

Ltac at_inv := intros ? ? Hat; inversion Hat; subst; rewrite ?app_nil_r; auto.
Ltac deliver lem Hd := eapply lem; [..|exact Hd]; [at_inv|constructor|done].
Ltac fin := repeat split; try constructor; try done.

Lemma exec_send_token t ps w w' push spawn :
  exec_send ForFlush t ps w = Next w' push spawn →
  delivery [IFlushSend t ps] (sess w) (handed w) →
  spawn = [] ∧ flushMu w' = flushMu w ∧ sess w' = sess w ∧
  ∃ i, tokens push = [i] ∧ delivery [i] (sess w) (handed w').
Proof.
  unfold exec_send. intros H Hd.
  destruct (transport_send t w) as [plan w1] eqn:Ht.
  assert (sess w1 = sess w ∧ flushMu w1 = flushMu w ∧ handed w1 = handed w) as (Hs & Hm & Hh).
  { unfold transport_send in Ht. by repeat case_match; simplify_eq. }
  destruct plan as [|ch|]; simplify_eq/=; rewrite ?Hs, ?Hm, ?Hh; fin; eexists; split; try done.
  - deliver delivery_refuse Hd.
  - deliver (delivery_hand [IFlushSend t ps] [IFlushSent ps true None] [] ps []) Hd.
  - deliver delivery_same Hd.
Qed.

Lemma exec_write_token o t todo ps w w' push spawn :
  exec_stream_write o ForFlush t todo ps w = Next w' push spawn →
  delivery [IStreamWrite ForFlush t todo ps] (sess w) (handed w) →
  spawn = [] ∧ flushMu w' = flushMu w ∧ sess w' = sess w ∧
  ∃ i, tokens push = [i] ∧ delivery [i] (sess w) (handed w').
Proof.
  unfold exec_stream_write. intros H Hd.
  assert (∃ dn, ps = dn ++ todo ∧ (tkind t = KWebTransport → dn = [])) as (dn & -> & Hk).
  { destruct Hd as (dn & todo' & Hat & _). inversion Hat; subst. eauto. }
  assert (∀ dn' todo', at_token [IStreamWrite ForFlush t todo (dn ++ todo)] dn' todo' →
    dn' = dn ∧ todo' = todo) as Hinv.
  { intros dn' todo' Hat. inversion Hat; subst. split; [|done]. by eapply app_inv_tail. }
  repeat case_match; simplify_eq/=; fin; eexists; split; try done.
  all: try (eapply delivery_end; [..|exact Hd]; [constructor|by left]).
  all: try (eapply delivery_same; [exact Hinv| |done|exact Hd];
            rewrite ?app_nil_r; constructor).
  all: try (eapply (delivery_hand _ _ dn [p] l); [exact Hinv| |done|exact Hd];
            rewrite (cons_middle p), (app_assoc dn [p] l); constructor; congruence).
  rewrite (Hk eq_refl) in *.
  eapply (delivery_hand _ _ [] todo []); [..|exact Hd]; [|apply at_sent|done].
  rewrite app_nil_r. exact Hinv.
Qed.

Lemma exec_flush_sent_token ps b err w w' push spawn :
  exec_flush_sent ps b err w = Next w' push spawn →
  delivery [IFlushSent ps b err] (sess w) (handed w) →
  spawn = [] ∧ flushMu w' = flushMu w ∧ handed w' = handed w ∧
  ∃ i, tokens push = [i] ∧ delivery [i] (sess w') (handed w).
Proof.
  unfold exec_flush_sent. intros H Hd. destruct err as [e|]; [|destruct b; cbn [negb] in H].
  - simplify_eq. fin. eexists; split; [done|].
    eapply delivery_end; [..|exact Hd]; [constructor|by left].
  - destruct (flush_drop ps (sess w)) as [next s'] eqn:Hf.
    assert (s' = (flush_drop ps (sess w)).2) as Hs' by (by rewrite Hf). clear Hf.
    simplify_eq. cbn [sess set_sess flushMu handed]. fin.
    destruct next; eexists; (split; [done|]); apply delivery_drop; by try constructor.
  - simplify_eq. fin. eexists; split; [done|]. deliver delivery_same Hd.
Qed.

Lemma teardown_state s : state (beginTeardown s).2 = sessionClosed.
Proof. unfold beginTeardown. by case_decide. Qed.

Lemma exec_token o i w w' push spawn :
  exec o i w = Next w' push spawn → flush_token i = true →
  delivery [i] (sess w) (handed w) →
  spawn = [] ∧ delivery (tokens push) (sess w') (handed w') ∧
  flushMu w' = (if decide (tokens push = []) then false else flushMu w).
Proof.
  intros H Hi Hd. destruct i; try done; cbn in H, Hi; try (destruct k; [|done]).
  - destruct (flush_take (sess w)) as [[ps t]|] eqn:Hf; simplify_eq/=; fin.
    + by apply delivery_idle_send.
    + deliver delivery_same Hd.
  - apply exec_send_token in H as (-> & -> & -> & j & -> & ?); [|done]. by fin.
  - unfold exec_stream_lock in H. case_match; simplify_eq/=. fin.
    eapply delivery_same; [..|exact Hd]; [at_inv|by apply (at_write t [])|done].
  - apply exec_write_token in H as (-> & -> & -> & j & -> & ?); [|done]. by fin.
  - apply exec_flush_sent_token in H as (-> & -> & -> & j & -> & ?); [|done]. by fin.
  - unfold exec_closeWithReason in H. pose proof (teardown_state (sess w)) as Hs.
    pose proof (SS_beginTeardown (sess w)) as Hq.
    destruct (beginTeardown (sess w)) as [td s'] eqn:E. cbn [snd] in *.
    injection H as <- <- <-. rewrite gather_app, (gather_teardown_nil token) by done. fin.
    eapply delivery_end; [constructor|by right|].
    eapply delivery_grows; [by apply quiet_grows|exact Hd].
  - simplify_eq/=. fin. deliver delivery_same Hd.
Qed.

(** [flush] is at one place at most. *)
Lemma at_token_unique ks i P s h :
  i :: P ≡ₚ ks → delivery ks s h → P = [] ∧ ks = [i].
Proof.
  intros Hp (dn & todo & Hat & _). pose proof (Permutation_length Hp) as Hl.
  assert (length ks ≤ 1)%nat by (by inversion Hat; cbn; lia).
  destruct P; [|cbn in Hl; lia]. apply Permutation_singleton_l in Hp as ->. done.
Qed.

Lemma inv_flush_inductive : inductive_under (λ w _, sess_ok (sess w)) inv_flush.
Proof.
  split.
  - intros c k op. split; [done|]. exists []. split; [done|].
    exists [], []. split_and!; [constructor|done|]. intros _ _. by exists [].
  - intros o i P w w' push spawn He _ [Hm (ks & Hks & Hd)].
    destruct (flush_token i) eqn:Hi; [|destruct (is_flush i) eqn:Hf].
    + rewrite gather_cons, (token_true i Hi) in *. cbn [app] in *.
      destruct (at_token_unique _ _ _ _ _ Hks Hd) as [HP ->].
      apply exec_token in He as (-> & Hd' & Hm'); [|done..].
      unfold inv_flush. cbn [concat]. autorewrite with gather. rewrite HP, app_nil_r.
      split; [|by eexists]. rewrite Hm'. case_decide; [done|]. naive_solver.
    + destruct i; try done. cbn in He. destruct (flushMu w) eqn:Hmu; simplify_eq/=.
      destruct Hm as [Hm _]. specialize (Hm eq_refl). cbn in Hm.
      cbn in Hks. rewrite Hm in Hks. apply Permutation_nil_l in Hks as <-.
      split; [done|]. exists [IFlushLoop]. cbn.
      unfold gather in Hm. rewrite Hm. split; [done|].
      deliver delivery_same Hd.
    + pose proof (exec_neutral _ _ _ _ _ _ He Hi Hf) as (Hp & Hsp & Hmu & Hh).
      assert (is_flush_sent i = false) as Hs by (by destruct i).
      apply exec_quiet, quiet_grows in He; [|done].
      rewrite gather_cons, (token_false i Hi) in *. cbn [app] in *.
      unfold inv_flush. autorewrite with gather. rewrite Hp, Hsp, Hmu, Hh. cbn [app].
      split; [done|]. exists ks. split; [done|]. by eapply delivery_grows.
  - intros id tm P w _ _ [Hm (ks & Hks & Hd)]. unfold inv_flush. rewrite gather_cons.
    assert (token (callback_instr (fires tm)) = []) as -> by (by destruct (fires tm)).
    split; [done|]. exists ks. split; [done|]. eapply delivery_grows; [|done].
    exists []. by rewrite !app_nil_r.
  - intros a P w w' th Ha _ [Hm (ks & Hks & Hd)]. unfold inv_flush.
    assert (tokens th = [] ∧ flushMu w' = flushMu w ∧ handed w' = handed w) as (Ht & -> & ->).
    { unfold arrive in Ha. repeat case_match; simplify_eq/=; autorewrite with gather; done. }
    rewrite gather_app, Ht, (arrive_sess _ _ _ _ Ha). split; [done|]. by exists ks.
Qed.

Lemma always_flush : always inv_flush.
Proof. refine (always_intro _ _ always_sess_ok inv_flush_inductive). Qed.

(** ** What a session promises

    Abstractly, a session is a queue of packets and the packets delivered from it.
    While it lives packets are queued; a graceful close queues the close packet and
    nothing after it; packets are delivered in queue order; and a session may be over at
    any time, when only a delivery already begun can still complete. *)
Module Spec.

Inductive phase := Live | Draining | Over.

Record astate := mkState { ph : phase; queued : list Packet; delivered : list Packet }.

Inductive spec_step : astate → astate → Prop :=
| spec_queue p q d : not_close p → spec_step (mkState Live q d) (mkState Live (q ++ [p]) d)
| spec_drain q d :
    spec_step (mkState Live q d) (mkState Draining (q ++ [packet_of PacketClose]) d)
| spec_over a q d : spec_step (mkState a q d) (mkState Over q d)
| spec_deliver a q d x :
    d ++ x `prefix_of` q → spec_step (mkState a q d) (mkState a q (d ++ x)).

Definition phase_of (s : sessionState) : phase :=
  match s with
  | sessionOpening | sessionOpen => Live
  | sessionClosing => Draining
  | sessionClosed => Over
  end.

Definition abs (s : ServerSocket) (d : list Packet) : astate :=
  mkState (phase_of (state s)) (enqueued s) d.

End Spec.
Import Spec.

Lemma sess_step_spec s s' d : sess_step s s' → rtc spec_step (abs s d) (abs s' d).
Proof.
  intros Hstep. unfold abs. sess_cases s Hstep; cbn; try reflexivity;
    apply rtc_once; try by constructor.
  destruct state; try done; by constructor.
Qed.

Lemma exec_handed o i w w' push spawn :
  exec o i w = Next w' push spawn →
  ∃ x, handed w' = handed w ++ x ∧ (x = [] ∨ sess w' = sess w).
Proof.
  intros H. destruct i; exec_cases H; try (exists []; rewrite app_nil_r; by auto);
    unfold hand; cbn; eexists; (split; [reflexivity|by auto]).
Qed.

Lemma step_handed w ts w' ts' :
  step (w, ts) (w', ts') →
  ∃ x, handed w' = handed w ++ x ∧ (x = [] ∨ sess w' = sess w).
Proof.
  inversion 1 as [|e ? ? ? th Ha]; subst; [by eapply exec_handed|].
  exists []. rewrite app_nil_r. split; [|by auto].
  unfold happen, arrive in Ha. by repeat case_match; simplify_eq/=.
Qed.

Lemma flush_prefix w P : inv_flush w P → handed w `prefix_of` enqueued (sess w).
Proof. intros [_ (ks & _ & dn & todo & _ & Hp & _)]. by eapply prefix_app_l. Qed.

(** [flush] completes a graceful close only when there is nothing left to send. *)
Definition drained (s : ServerSocket) : Prop :=
  state s = sessionClosed ∨ (state s = sessionClosing ∧ writeBuffer s = []).

Definition closes (i : instr) : list unit :=
  match i with IFlushClose _ None => [()] | _ => [] end.

Definition inv_drained : invariant := λ w P, gather closes P ≡ₚ [] ∨ drained (sess w).

#[export] Instance inv_drained_multiset : Multiset inv_drained.
Proof. intros w P Q H. unfold inv_drained. by rewrite H. Qed.

Lemma sess_step_drained s s' : sess_step s s' → drained s → drained s'.
Proof.
  intros Hstep. unfold drained. sess_cases s Hstep; cbn; try naive_solver.
  intros [?|[? ->]]; [by left|]. right. by rewrite drop_nil.
Qed.

#[export] Instance closes_boring : Boring closes.
Proof. by intros []. Qed.

Lemma exec_closes o i w w' push spawn :
  exec o i w = Next w' push spawn → is_flush_sent i = false →
  gather closes push = [] ∧ gather closes (concat spawn) = [].
Proof.
  intros H Hi. destruct i; try done; exec_cases H;
    autorewrite with gather; try (split_and!; by repeat case_match).
  all: destruct k; cbn [sent_to]; by rewrite ?gather_handshake by apply _.
Qed.

Lemma exec_closes_drained ps b err w w' push spawn :
  exec_flush_sent ps b err w = Next w' push spawn →
  spawn = [] ∧ (gather closes push = [] ∨ drained (sess w')).
Proof.
  unfold exec_flush_sent. intros H. destruct err; [by simplify_eq; auto|].
  destruct b; cbn [negb] in H; [|by simplify_eq; auto].
  unfold flush_drop in H. destruct (len ps <=? len (writeBuffer (sess w)));
    injection H as <- <- <-; (split; [done|]); unfold drained; cbn;
    repeat case_bool_decide; cbn; auto.
Qed.

Lemma inv_drained_inductive : inductive_under inv_true inv_drained.
Proof.
  split.
  - intros c k op. by left.
  - intros o i P w w' push spawn He _ Hd. unfold inv_drained in *.
    pose proof (exec_sess_step _ _ _ _ _ _ He) as Hs. rewrite gather_cons in Hd.
    destruct Hd as [Hd|Hd]; [|right; by eapply sess_step_drained].
    apply Permutation_nil_r, app_eq_nil in Hd as [_ Hd].
    rewrite !gather_app, Hd, app_nil_r.
    destruct (is_flush_sent i) eqn:Hi.
    + destruct i; try done.
      destruct (exec_closes_drained _ _ _ _ _ _ _ He) as [-> [->|?]]; auto.
    + destruct (exec_closes _ _ _ _ _ _ He Hi) as [-> ->]. by left.
  - intros id tm P w _ _ Hd. unfold inv_drained in *. rewrite gather_cons.
    replace (closes _) with (@nil unit) by (by destruct (fires tm)).
    destruct Hd as [Hd|Hd]; [by left|right]. eapply sess_step_drained; [|done].
    apply SS_fire.
  - intros a P w w' th Ha _ Hd. unfold inv_drained in *. rewrite gather_app.
    assert (gather closes th = []) as ->.
    { unfold arrive in Ha. repeat case_match; simplify_eq/=; autorewrite with gather; done. }
    by rewrite (arrive_sess _ _ _ _ Ha).
Qed.

Lemma always_drained : always inv_drained.
Proof. refine (always_intro _ _ always_true inv_drained_inductive). Qed.

Lemma gather_elem {A} (f : instr → list A) ts n i rest :
  ts !! n = Some (i :: rest) → ∃ Q, gather f (concat ts) ≡ₚ f i ++ Q.
Proof.
  intros Hn. pose proof (concat_middle (take n ts) (drop (S n) ts) (i :: rest)) as Hc.
  rewrite take_drop_middle in Hc by done. eexists. rewrite Hc. cbn [app].
  by rewrite gather_cons.
Qed.

(** ** Properties *)

(** C1. The session machine refines the abstract session: whatever its goroutines do,
    and in whatever order, each step amounts to steps of the specification, with the
    packets handed to transports as what is delivered. *)
Theorem session_refines_spec c k op w ts w' ts' :
  reachable c k op (w, ts) → step (w, ts) (w', ts') →
  rtc spec_step (abs (sess w) (handed w)) (abs (sess w') (handed w')).
Proof.
  intros Hr Hs.
  assert (inv_flush w' (concat ts')) as Hinv
    by (eapply (always_flush c k op); eapply rtc_r; [exact Hr|exact Hs]).
  destruct (step_handed _ _ _ _ Hs) as (x & Hx & _).
  etrans; [by eapply sess_step_spec, step_sess|]. rewrite Hx. apply rtc_once. constructor.
  rewrite <- Hx. by eapply flush_prefix.
Qed.

(** C2. Every packet is handed to a transport at most once and in the order it was
    queued; and as long as the session is not closed, whenever no flush is under way the
    packets not yet handed over are exactly the ones still in the buffer. *)
Theorem delivery_in_order c k op w ts :
  reachable c k op (w, ts) →
  handed w `prefix_of` enqueued (sess w) ∧
  (flushMu w = false → state (sess w) ≠ sessionClosed →
   enqueued (sess w) = handed w ++ writeBuffer (sess w)).
Proof.
  intros Hr. pose proof (always_flush _ _ _ _ _ Hr) as Hinv.
  split; [by eapply flush_prefix|]. intros Hm Hs.
  destruct Hinv as [Hmu (ks & Hks & dn & todo & Hat & _ & Heq)].
  apply Hmu in Hm. rewrite Hm in Hks. apply Permutation_nil_l in Hks as <-.
  inversion Hat; subst. destruct (Heq Hs) as (newer & Hw & He); [done|].
  cbn in *. by rewrite Hw.
Qed.

(** C23. A graceful close loses nothing: when [flush] is about to complete it, everything
    ever queued has been handed to a transport, and the last packet is the close
    packet. *)
Theorem graceful_close_drains c k op w ts n reason rest :
  reachable c k op (w, ts) → ts !! n = Some (IFlushClose reason None :: rest) →
  state (sess w) ≠ sessionClosed →
  handed w = enqueued (sess w) ∧
  ∃ ms, enqueued (sess w) = ms ++ [packet_of PacketClose].
Proof.
  intros Hr Hn Hs.
  destruct (always_drained _ _ _ _ _ Hr) as [Hd|[Hd|[Hcl Hw]]]; [|done|].
  { destruct (gather_elem closes _ _ _ _ Hn) as [Q HQ]. rewrite HQ in Hd.
    by apply Permutation_nil_r in Hd. }
  destruct (always_sess_ok _ _ _ _ _ Hr) as (_ & _ & Hl).
  unfold close_last in Hl. rewrite Hcl in Hl. destruct Hl as (ms & Hms & _).
  split; [|by eexists].
  destruct (always_flush _ _ _ _ _ Hr) as [_ (ks & Hks & Hd)].
  destruct (gather_elem token _ _ _ _ Hn) as [Q HQ]. rewrite HQ in Hks.
  destruct (at_token_unique _ _ _ _ _ Hks Hd) as [_ ->].
  destruct Hd as (dn & todo & Hat & _ & Heq). inversion Hat; subst.
  destruct (Heq Hs) as (newer & Hw' & He); [done|]. cbn in *.
  rewrite He. rewrite Hw in Hw'. by rewrite <- Hw', app_nil_r.
Qed.
