(* ===== verification/SessionPolls.v ===== *)
(** * Channels and buffers

    The noop loop of an upgrade is stopped by closing a channel; a held poll is answered
    through a channel of capacity one; the payload travels in a pooled buffer.  Each of
    these has one owner at a time, and the invariants here follow the owners: closing
    never panics, a delivery never blocks, a poll that is waited for is always answered,
    and a buffer is never written while someone else reads it. *)
From S2P Require Import Prelude Machine Packet Payload ServerOptions ServerTransport.
From S2P Require Import ServerSocket SessionMachine SessionState.

(** ** The stop channels of the noop loops *)

Definition stop_token (i : instr) : list nat :=
  match i with ICloseChan c => [c] | _ => [] end.

(** Every stop channel is the session's, is about to be closed, or is closed. *)
Definition stops (w : World) (P : list instr) : list nat :=
  option_list (probeNoopStop (sess w)) ++ gather stop_token P ++ closedStops w.

Definition keeps_stop (s s' : ServerSocket) : Prop :=
  probeNoopStop s' = probeNoopStop s ∧ (fresh s ≤ fresh s')%nat.

(** The critical sections that do not touch the stop channel. *)
Definition stop_neutral (i : instr) : bool :=
  match i with
  | ICloseWithReason _ _ | IFlushClose _ _ | ICompleteUpgrade _ | IAbortUpgrade _
  | IOnProbe | ICloseChan _ => false
  | _ => true
  end.

(** Name the state that a critical section leaves. *)
Ltac name_state :=
  repeat match goal with
  | Hf : ?f = (_, ?s) |- _ =>
      is_var s; assert (s = f.2) by (by rewrite Hf); clear Hf; subst s
  end.

Ltac by_fields :=
  match goal with
  | |- context [sess ?w] => destruct (sess w); sess_norm; repeat (inner_case; sess_norm)
  end.

Lemma exec_keeps_stop o i w w' push spawn :
  exec o i w = Next w' push spawn → stop_neutral i = true →
  keeps_stop (sess w) (sess w') ∧ closedStops w' = closedStops w.
Proof.
  intros H Hi. unfold keeps_stop. destruct i; try done; exec_cases H; name_state; cbn;
    (split; [|done]); try (split; [done|lia]);
    by_fields; (split; [done|lia]).
Qed.

#[export] Instance stop_boring : Boring stop_token.
Proof. by intros []. Qed.

Lemma stop_opt x : gather stop_token (opt ICloseChan x) = option_list x.
Proof. by destruct x. Qed.

Lemma exec_stop_push o i w w' push spawn :
  exec o i w = Next w' push spawn → stop_neutral i = true →
  gather stop_token push = [] ∧ gather stop_token (concat spawn) = [].
Proof.
  intros H Hi. destruct i; try done; exec_cases H; autorewrite with gather;
    try (split; by repeat case_match).
  all: destruct k; cbn [sent_to]; by rewrite ?gather_handshake by apply _.
Qed.

(** The channel of the session is handed to whoever closes it. *)
Lemma teardown_stops s :
  option_list (probeNoopStop (beginTeardown s).2) ++
  match (beginTeardown s).1 with Some td => option_list (td_stop td) | None => [] end =
  option_list (probeNoopStop s) ∧ (fresh s ≤ fresh (beginTeardown s).2)%nat.
Proof.
  destruct s; sess_norm; repeat (inner_case; sess_norm); rewrite ?app_nil_r; (split; [done|lia]).
Qed.

Lemma complete_stops t s :
  option_list (probeNoopStop (beginCompleteUpgrade t s).2) ++
  match (beginCompleteUpgrade t s).1 with Some (_, c) => option_list c | None => [] end =
  option_list (probeNoopStop s) ∧ (fresh s ≤ fresh (beginCompleteUpgrade t s).2)%nat.
Proof.
  destruct s; sess_norm; repeat (inner_case; sess_norm); rewrite ?app_nil_r; (split; [done|lia]).
Qed.

Lemma abort_stops t s :
  option_list (probeNoopStop (beginAbortUpgrade t s).2) ++
  match (beginAbortUpgrade t s).1 with Some c => option_list c | None => [] end =
  option_list (probeNoopStop s) ∧ (fresh s ≤ fresh (beginAbortUpgrade t s).2)%nat.
Proof.
  destruct s; sess_norm; repeat (inner_case; sess_norm); rewrite ?app_nil_r; (split; [done|lia]).
Qed.

Lemma onProbe_stops s :
  ((onProbe s).1 = None ∧ (onProbe s).2 = s) ∨
  (onProbe s).1 = Some (fresh s) ∧ probeNoopStop s = None ∧
  probeNoopStop (onProbe s).2 = Some (fresh s) ∧ fresh (onProbe s).2 = S (fresh s).
Proof.
  destruct s; sess_norm; repeat (inner_case; sess_norm); auto. right. tests. done.
Qed.

Lemma teardown_exec_stops reason cause rest w w' push spawn G :
  exec_closeWithReason reason cause rest w = Next w' push spawn →
  gather stop_token rest = [] →
  (option_list (probeNoopStop (sess w')) ++
     (gather stop_token push ++ gather stop_token (concat spawn) ++ G) ++ closedStops w' ≡ₚ
   option_list (probeNoopStop (sess w)) ++ G ++ closedStops w ∧
   (fresh (sess w) ≤ fresh (sess w'))%nat).
Proof.
  unfold exec_closeWithReason. intros H Hrest. destruct (teardown_stops (sess w)) as [Hc Hf].
  destruct (beginTeardown (sess w)) as [td s'] eqn:E. cbn [fst snd] in *.
  injection H as <- <- <-. split; [|done]. cbn [sess set_sess closedStops].
  autorewrite with gather. rewrite Hrest, <- Hc, app_nil_r, <- !app_assoc.
  destruct td as [td|]; [|done]. by destruct (td_stop td).
Qed.

(** One step creates at most one channel, the fresh one, and loses none. *)
Lemma exec_stops o i w w' push spawn P :
  exec o i w = Next w' push spawn →
  (stops w' (push ++ concat spawn ++ P) ≡ₚ stops w (i :: P) ∧
   (fresh (sess w) ≤ fresh (sess w'))%nat) ∨
  (stops w' (push ++ concat spawn ++ P) ≡ₚ fresh (sess w) :: stops w (i :: P) ∧
   fresh (sess w') = S (fresh (sess w))).
Proof.
  intros H. unfold stops. rewrite !gather_app, gather_cons.
  destruct (stop_neutral i) eqn:Hi.
  { destruct (exec_keeps_stop _ _ _ _ _ _ H Hi) as [[-> ?] ->].
    destruct (exec_stop_push _ _ _ _ _ _ H Hi) as [-> ->].
    left. split; [|done]. by destruct i. }
  destruct i; try done; cbn in H.
  - left. by eapply teardown_exec_stops.
  - left. by eapply teardown_exec_stops.
  - case_decide; simplify_eq/=. left. split; [|lia].
    by rewrite Permutation_middle.
  - destruct (onProbe_stops (sess w)) as [[E1 E2]|(E1 & E2 & E3 & E4)];
      destruct (onProbe (sess w)) as [c s'] eqn:E; cbn in *; subst; simplify_eq/=.
    + left. by split; [|lia].
    + right. by rewrite E2, E3.
  - unfold exec_completeUpgrade in H. destruct (complete_stops t (sess w)) as [Hc Hf].
    destruct (beginCompleteUpgrade t (sess w)) as [r s'] eqn:E. cbn [fst snd] in *.
    injection H as <- <- <-. left. split; [|done]. cbn [sess set_sess closedStops].
    rewrite <- Hc, <- !app_assoc. destruct r as [[old c]|]; cbn; [|done].
    autorewrite with gather. by destruct c, old.
  - unfold exec_abortUpgrade in H. destruct (abort_stops t (sess w)) as [Hc Hf].
    destruct (beginAbortUpgrade t (sess w)) as [r s'] eqn:E. cbn [fst snd] in *.
    injection H as <- <- <-. left. split; [|done]. cbn [sess set_sess closedStops].
    rewrite <- Hc, <- !app_assoc. destruct r as [c|]; cbn; [|done].
    autorewrite with gather. by destruct c.
Qed.

Definition noop_token (i : instr) : list nat :=
  match i with INoopLoop c => [c] | _ => [] end.

#[export] Instance noop_boring : Boring noop_token.
Proof. by intros []. Qed.

Definition is_probe_step (i : instr) : bool :=
  match i with IOnProbe | INoopLoop _ => true | _ => false end.

Lemma exec_noop o i w w' push spawn c :
  exec o i w = Next w' push spawn →
  c ∈ gather noop_token (push ++ concat spawn) →
  c ∈ noop_token i ∨ probeNoopStop (sess w') = Some c.
Proof.
  intros H Hc. rewrite gather_app in Hc.
  destruct (is_probe_step i) eqn:Hi.
  - destruct i; try done; cbn in H.
    + destruct (onProbe_stops (sess w)) as [[E1 E2]|(E1 & E2 & E3 & E4)];
      destruct (onProbe (sess w)) as [c' s'] eqn:E; cbn in *; subst; simplify_eq/=;
        [set_solver|]. right. rewrite E3. set_solver.
    + repeat case_match; simplify_eq/=; set_solver.
  - exfalso. revert Hc. destruct i; try done; exec_cases H; autorewrite with gather;
      try (by repeat case_match; set_solver).
    all: destruct k; cbn [sent_to]; rewrite ?gather_handshake by apply _; set_solver.
Qed.

Definition inv_stops : invariant := λ w P,
  NoDup (stops w P) ∧ Forall (λ c, c < fresh (sess w))%nat (stops w P) ∧
  ∀ c, c ∈ gather noop_token P → c ∈ stops w P.

#[export] Instance stops_perm w : Proper (Permutation ==> Permutation) (stops w).
Proof. intros P Q H. unfold stops. by rewrite H. Qed.

#[export] Instance inv_stops_multiset : Multiset inv_stops.
Proof.
  intros w P Q H. unfold inv_stops. rewrite H. by setoid_rewrite H.
Qed.

Lemma inv_stops_inductive : inductive_under inv_true inv_stops.
Proof.
  split.
  - intros c k op. split_and!; [constructor|constructor|]. intros c0 Hc. by apply elem_of_nil in Hc.
  - intros o i P w w' push spawn He _ (Hnd & Hlt & Hin).
    assert (∀ c, c ∈ gather noop_token (push ++ concat spawn ++ P) →
      c ∈ stops w (i :: P) ∨ c ∈ stops w' (push ++ concat spawn ++ P)) as Hc.
    { intros c Hc. rewrite app_assoc, gather_app in Hc. apply elem_of_app in Hc as [Hc|Hc].
      - eapply exec_noop in Hc as [Hc|Hc]; [| |done].
        + left. apply Hin. rewrite gather_cons. set_solver.
        + right. unfold stops. rewrite Hc. set_solver.
      - left. apply Hin. rewrite gather_cons. set_solver. }
    unfold inv_stops.
    destruct (exec_stops _ _ _ _ _ _ P He) as [[Hs Hf]|[Hs Hf]]; rewrite Hs.
    + split_and!; [done|by eapply Forall_impl; [|done]; cbn; lia|].
      intros c Hc'. apply Hc in Hc'. rewrite Hs in *. set_solver.
    + split_and!.
      * constructor; [|done]. intros Hfr. rewrite Forall_forall in Hlt.
        apply list_elem_of_In, Hlt in Hfr. lia.
      * constructor; [lia|]. eapply Forall_impl; [|done]. cbn. lia.
      * intros c Hc'. apply Hc in Hc'. rewrite Hs in *. set_solver.
  - intros id tm P w _ _ (Hnd & Hlt & Hin).
    assert (stop_token (callback_instr (fires tm)) = []) as E1 by (by destruct (fires tm)).
    assert (noop_token (callback_instr (fires tm)) = []) as E2 by (by destruct (fires tm)).
    unfold inv_stops, stops in *. rewrite !gather_cons, E1, E2. done.
  - intros a P w w' th Ha _ Hinv.
    assert (gather stop_token th = [] ∧ gather noop_token th = [] ∧
            closedStops w' = closedStops w) as (E1 & E2 & E3).
    { unfold arrive in Ha. repeat case_match; simplify_eq/=; autorewrite with gather; done. }
    unfold inv_stops, stops in *. rewrite !gather_app, E1, E2, E3, (arrive_sess _ _ _ _ Ha).
    done.
Qed.

Lemma always_stops : always inv_stops.
Proof. refine (always_intro _ _ always_true inv_stops_inductive). Qed.

Lemma exec_panicked o i w :
  exec o i w = Panicked → ∃ c, i = ICloseChan c ∧ c ∈ closedStops w.
Proof.
  intros H. destruct i; exec_cases H; eauto. by edestruct decodeWebSocketFrame_no_panic.
Qed.

(** ** The channels of held polls *)

(** A delivery under way, and a poll GET that waits for one. *)
Definition claim_token (i : instr) : list nat :=
  match i with
  | IGetBuffer ch _ | IEncode ch _ _ | IDeliver ch _ => [ch]
  | _ => []
  end.
Definition wait_token (i : instr) : list nat :=
  match i with
  | IPollSelect ch | IRelease ch _ | IDrain ch => [ch]
  | _ => []
  end.
Definition drain_token (i : instr) : list nat :=
  match i with IDrain ch => [ch] | _ => [] end.

#[export] Instance claim_boring : Boring claim_token.
Proof. by intros []. Qed.
#[export] Instance wait_boring : Boring wait_token.
Proof. by intros []. Qed.
#[export] Instance drain_boring : Boring drain_token.
Proof. by intros []. Qed.

Definition held (w : World) : list nat := option_list (Polling.dataCh (polling w)).
(** The instructions that have to do with channels. *)
Definition poll_neutral (i : instr) : bool :=
  match i with
  | IHandshake _ _ | IFlushSend _ _ | ITransportClose _ | IWriteNoop | IGetBuffer _ _
  | IEncode _ _ _ | IDeliver _ _ | IHold | IPollSelect _ | IRelease _ _ | IDrain _ => false
  | _ => true
  end.

Lemma exec_poll_neutral o i w w' push spawn :
  exec o i w = Next w' push spawn → poll_neutral i = true →
  polling w' = polling w ∧ chans w' = chans w ∧ nextChan w' = nextChan w ∧
  deliveries w' = deliveries w ∧
  gather claim_token (push ++ concat spawn) = [] ∧
  gather wait_token (push ++ concat spawn) = [] ∧
  gather drain_token (push ++ concat spawn) = [].
Proof.
  intros H Hi. destruct i; try done; exec_cases H; autorewrite with gather;
    try (split_and!; by repeat case_match).
  all: destruct k; cbn [sent_to]; rewrite ?gather_handshake by apply _; by split_and!.
Qed.

(** What the critical sections of the transports do to the held poll. *)
Definition takes_poll (ch : option nat) (w w' : World) : Prop :=
  w' = set_streams (streams w') (set_polling (polling w') w) ∧
  match ch with
  | Some ch => held w = [ch] ∧ held w' = []
  | None => held w' = held w
  end.

Lemma transport_send_takes t w plan w' :
  transport_send t w = (plan, w') →
  takes_poll (match plan with Claimed ch => Some ch | _ => None end) w w'.
Proof.
  unfold transport_send, takes_poll, held. destruct w. cbn. unfold Polling.send, Stream.send.
  destruct (tkind t), (Polling.closed polling), (Polling.dataCh polling) eqn:?;
    intros; repeat case_match; simplify_eq/=; by rewrite ?Heqo.
Qed.

Lemma transport_close_takes t w plan w' :
  transport_close t w = (plan, w') →
  takes_poll (match plan with ClosePoll ch => Some ch | _ => None end) w w'.
Proof.
  unfold transport_close, takes_poll, held. destruct w. cbn. unfold Polling.close, Stream.close.
  destruct (tkind t), (Polling.closed polling), (Polling.dataCh polling) eqn:?;
    intros; repeat case_match; simplify_eq/=; by rewrite ?Heqo.
Qed.

Lemma hold_spec ch t err t' :
  Polling.hold ch t = (err, t') →
  match err with
  | None => Polling.dataCh t = None ∧ Polling.dataCh t' = Some ch
  | Some _ => t' = t
  end.
Proof. unfold Polling.hold. intros H. by repeat case_match; simplify_eq/=. Qed.

Lemma release_spec ch t ok t' :
  Polling.release ch t = (ok, t') →
  if ok then Polling.dataCh t = Some ch ∧ Polling.dataCh t' = None
  else t' = t ∧ Polling.dataCh t ≠ Some ch.
Proof. unfold Polling.release. intros H. by case_decide; simplify_eq/=. Qed.

(** Everything about channels: the held poll, the deliveries under way, the full channels,
    the polls that wait and those that only drain, the next new channel, and the history
    of deliveries. *)
Record chan_view := mkView {
  v_held : list nat;
  v_claimed : list nat;
  v_full : gmap nat nat;
  v_waiting : list nat;
  v_draining : list nat;
  v_next : nat;
  v_deliveries : list (nat * list Packet);
}.

Definition view (w : World) (P : list instr) : chan_view :=
  mkView (held w) (gather claim_token P) (chans w) (gather wait_token P)
    (gather drain_token P) (nextChan w) (deliveries w).

(** The moves of a channel. *)
Inductive chan_move : chan_view → chan_view → Prop :=
| move_none h c c' f wt wt' d d' n n' dl :
    c' ≡ₚ c → wt' ≡ₚ wt → d' ≡ₚ d → (n ≤ n')%nat →
    chan_move (mkView h c f wt d n dl) (mkView h c' f wt' d' n' dl)
| move_claim ch ps c c' f wt wt' d d' n dl :
    c' ≡ₚ ch :: c → wt' ≡ₚ wt → d' ≡ₚ d →
    chan_move (mkView [ch] c f wt d n dl) (mkView [] c' f wt' d' n (dl ++ [(ch, ps)]))
| move_deliver ch b h c c' f wt wt' d d' n dl :
    c ≡ₚ ch :: c' → f !! ch = None → wt' ≡ₚ wt → d' ≡ₚ d →
    chan_move (mkView h c f wt d n dl) (mkView h c' (<[ch := b]> f) wt' d' n dl)
| move_hold c c' f wt wt' d d' n dl :
    c' ≡ₚ c → wt' ≡ₚ n :: wt → d' ≡ₚ d →
    chan_move (mkView [] c f wt d n dl) (mkView [n] c' f wt' d' (S n) dl)
| move_receive ch b h c c' f wt wt' d d' n dl :
    c' ≡ₚ c → f !! ch = Some b → wt ≡ₚ ch :: wt' → (d ≡ₚ d' ∨ d ≡ₚ ch :: d') →
    chan_move (mkView h c f wt d n dl) (mkView h c' (delete ch f) wt' d' n dl)
| move_reclaim ch c c' f wt wt' d d' n dl :
    c' ≡ₚ c → wt ≡ₚ ch :: wt' → d' ≡ₚ d →
    chan_move (mkView [ch] c f wt d n dl) (mkView [] c' f wt' d' n dl)
| move_lost ch h c c' f wt wt' d d' n dl :
    ch ∉ h → c' ≡ₚ c → wt' ≡ₚ wt → ch ∈ wt → d' ≡ₚ ch :: d →
    chan_move (mkView h c f wt d n dl) (mkView h c' f wt' d' n dl).

Lemma exec_send_move k t ps w w' push spawn P :
  exec_send k t ps w = Next w' push spawn →
  chan_move (view w P) (view w' (push ++ concat spawn ++ P)).
Proof.
  unfold exec_send. intros H. destruct (transport_send t w) as [plan w1] eqn:Ht.
  apply transport_send_takes in Ht as [Hw Ht].
  assert (chans w1 = chans w ∧ nextChan w1 = nextChan w ∧ deliveries w1 = deliveries w)
    as (E1 & E2 & E3) by (by rewrite Hw).
  assert (∀ {A} (f : instr → list A), Boring f → f (IFlushSent ps false None) = [] →
     f (IFlushSent ps true None) = [] → ∀ b, gather f (sent_to k t ps b None) = []) as Hsent.
  { intros A f Hf H1 H2 b. destruct k; cbn [sent_to]; [|by apply gather_handshake].
    rewrite gather_cons. by destruct b; rewrite ?H1, ?H2. }
  destruct plan as [|ch|]; simplify_eq; unfold view; rewrite ?gather_app.
  - rewrite !Hsent by apply _ || done. rewrite Ht, E1, E2, E3. by constructor.
  - destruct Ht as [-> Ht]. rewrite !gather_cons, !Hsent by apply _ || done.
    unfold claim, hand_for. destruct k; cbn; rewrite ?E1, ?E2, ?E3;
      change (held _) with (held w1); rewrite Ht; by constructor.
  - rewrite Ht, E1, E2, E3. by constructor.
Qed.

Lemma exec_move o i w w' push spawn P :
  exec o i w = Next w' push spawn →
  chan_move (view w (i :: P)) (view w' (push ++ concat spawn ++ P)).
Proof.
  intros H. destruct (poll_neutral i) eqn:Hi.
  { destruct (exec_poll_neutral _ _ _ _ _ _ H Hi) as (E1 & E2 & E3 & E4 & E5 & E6 & E7).
    unfold view, held. rewrite app_assoc, !(gather_app _ (push ++ concat spawn)), E1, E2, E3, E4, E5, E6, E7.
    apply move_none; by destruct i. }
  destruct i; try done; cbn in H.
  - destruct (tkind t); [|exact (exec_send_move _ _ _ _ _ _ _ P H)..].
    unfold exec_handshake in H. simplify_eq. unfold view, held.
    autorewrite with gather. cbn. case_match; by apply move_none.
  - exact (exec_send_move _ _ _ _ _ _ _ P H).
  - unfold exec_transport_close in H. destruct (transport_close t w) as [plan w1] eqn:Ht.
    apply transport_close_takes in Ht as [Hw Ht].
    assert (chans w1 = chans w ∧ nextChan w1 = nextChan w ∧ deliveries w1 = deliveries w)
      as (E1 & E2 & E3) by (by rewrite Hw).
    destruct plan as [|ch|]; simplify_eq; unfold view; cbn; rewrite ?E1, ?E2, ?E3;
      [rewrite Ht; by apply move_none| |rewrite Ht; by apply move_none].
    destruct Ht as [-> Ht]. change (held _) with (held w1). rewrite Ht. by apply move_claim.
  - unfold view, held. destruct (Polling.dataCh (polling w)) as [ch|]; simplify_eq/=;
      [by apply move_claim|by apply move_none].
  - unfold pool_get in H. case_decide; simplify_eq/=; by apply move_none.
  - simplify_eq/=. by apply move_none.
  - unfold exec_deliver in H. case_match; simplify_eq/=. by eapply move_deliver.
  - unfold exec_hold in H. destruct (Polling.hold (nextChan w) (polling w)) as [err p] eqn:E.
    apply hold_spec in E. destruct err as [e|].
    + subst p. case_match; simplify_eq/=; apply move_none; try done; cbn; lia.
    + destruct E as [E1 E2]. simplify_eq/=. unfold view, held. cbn. rewrite E1, E2. by apply move_hold.
  - destruct (o_ctx o); simplify_eq/=; [by apply move_none|].
    unfold exec_receive in H. case_match; simplify_eq/=. eapply move_receive; eauto.
  - unfold exec_release in H. destruct (Polling.release ch (polling w)) as [ok p] eqn:E.
    apply release_spec in E. destruct ok; destruct E as [E1 E2]; simplify_eq/=; unfold view, held; cbn.
    + rewrite E1, E2. by eapply move_reclaim.
    + eapply (move_lost ch); try done; [|left].
      destruct (Polling.dataCh (polling w)); set_solver.
  - unfold exec_receive in H. case_match; simplify_eq/=. eapply move_receive; eauto.
Qed.

(** ** Each channel has one place *)

Definition v_keys (v : chan_view) : list nat := (map_to_list (v_full v)).*1.

(** The channels held, delivered to, or full. *)
Definition v_open (v : chan_view) : list nat := v_held v ++ v_claimed v ++ v_keys v.

Record chan_ok (v : chan_view) : Prop := {
  co_waiting : v_waiting v ≡ₚ v_open v;
  co_nodup : NoDup (v_open v);
  co_fresh : Forall (λ ch, ch < v_next v)%nat (v_open v);
  co_draining ch : ch ∈ v_draining v → ch ∉ v_held v;
  co_once : NoDup (v_held v ++ (v_deliveries v).*1);
  co_past : Forall (λ ch, ch < v_next v)%nat ((v_deliveries v).*1);
}.

Lemma keys_insert ch b (f : gmap nat nat) :
  f !! ch = None → (map_to_list (<[ch := b]> f)).*1 ≡ₚ ch :: (map_to_list f).*1.
Proof. intros H. by rewrite map_to_list_insert. Qed.

Lemma keys_delete ch b (f : gmap nat nat) :
  f !! ch = Some b → (map_to_list f).*1 ≡ₚ ch :: (map_to_list (delete ch f)).*1.
Proof. intros H. by rewrite <- (map_to_list_delete _ _ _ H). Qed.

Lemma fresh_not_in n l : Forall (λ c, c < n)%nat l → n ∉ l.
Proof. intros H Hin. rewrite Forall_forall in H. apply list_elem_of_In, H in Hin. lia. Qed.

Lemma fresh_weaken n n' l :
  Forall (λ c, c < n)%nat l → (n ≤ n')%nat → Forall (λ c, c < n')%nat l.
Proof. intros H Hn. eapply Forall_impl; [|exact H]. cbn. lia. Qed.

Lemma chan_move_ok v v' :
  chan_move v v' → (∀ ch, ch ∈ v_draining v → ch ∈ v_waiting v) → chan_ok v → chan_ok v'.
Proof.
  intros Hm Hdw [H1 H2 H3 H4 H5 H6]. unfold v_open, v_keys in *.
  destruct Hm as [h c c' f wt wt' d d' n n' dl Hc Hw Hd Hn
    |ch ps c c' f wt wt' d d' n dl Hc Hw Hd|ch b h c c' f wt wt' d d' n dl Hc Hf Hw Hd
    |c c' f wt wt' d d' n dl Hc Hw Hd|ch b h c c' f wt wt' d d' n dl Hc Hf Hw Hd
    |ch c c' f wt wt' d d' n dl Hc Hw Hd|ch h c c' f wt wt' d d' n dl Hh Hc Hw Hin Hd];
    cbn in *.
  - split; unfold v_open, v_keys; cbn; rewrite ?Hc, ?Hw; try done.
    + by eapply fresh_weaken.
    + setoid_rewrite Hd. done.
    + by eapply fresh_weaken.
  - split; unfold v_open, v_keys; cbn; rewrite ?fmap_app, ?Hc, ?Hw; try done.
    + intros ch' _. apply not_elem_of_nil.
    + cbn. by rewrite Permutation_app_comm.
    + apply Forall_app. split; [done|]. inversion H3; subst. by constructor.
  - rewrite Hc in *.
    assert (h ++ c' ++ ch :: (map_to_list f).*1 ≡ₚ h ++ (ch :: c') ++ (map_to_list f).*1) as Hp.
    { cbn. by rewrite <- Permutation_middle. }
    split; unfold v_open, v_keys; cbn; rewrite ?keys_insert, ?Hp, ?Hw by done; try done.
    setoid_rewrite Hd. done.
  - split; unfold v_open, v_keys; cbn; rewrite ?Hc, ?Hw, ?H1; try done.
    + constructor; [by apply fresh_not_in|done].
    + constructor; [lia|eapply fresh_weaken; [done|lia]].
    + intros ch Hch. rewrite Hd in Hch. apply Hdw in Hch. rewrite H1 in Hch.
      apply fresh_not_in in H3. set_solver.
    + constructor; [by apply fresh_not_in|done].
    + eapply fresh_weaken; [done|lia].
  - rewrite (keys_delete _ _ _ Hf) in *. rewrite Hw in H1.
    assert (h ++ c ++ ch :: (map_to_list (delete ch f)).*1 ≡ₚ
            ch :: h ++ c ++ (map_to_list (delete ch f)).*1) as Hp.
    { by rewrite <- !Permutation_middle. }
    rewrite Hp in *. apply Permutation_cons_inv in H1.
    split; unfold v_open, v_keys; cbn; rewrite ?Hc; try done.
    + by apply NoDup_cons_1_2 in H2.
    + by inversion H3.
    + intros ch' Hch'. apply H4. destruct Hd as [Hd|Hd]; rewrite Hd; set_solver.
  - rewrite Hw in H1. apply Permutation_cons_inv in H1.
    split; unfold v_open, v_keys; cbn; rewrite ?Hc; try done.
    + by apply NoDup_cons_1_2 in H2.
    + by inversion H3.
    + set_solver.
    + by apply NoDup_cons_1_2 in H5.
  - split; unfold v_open, v_keys; cbn; rewrite ?Hc, ?Hw; try done.
    intros ch' Hch'. rewrite Hd in Hch'. set_solver.
Qed.

Lemma drain_wait P ch : ch ∈ gather drain_token P → ch ∈ gather wait_token P.
Proof.
  unfold gather. rewrite !list_elem_of_bind. intros (i & Hc & Hi). exists i. split; [|done].
  destruct i; cbn in *; set_solver.
Qed.

Definition inv_chan : invariant := λ w P, chan_ok (view w P).

#[export] Instance inv_chan_multiset : Multiset inv_chan.
Proof.
  intros w P Q H. unfold inv_chan.
  split; intros Hok; (eapply chan_move_ok; [..|exact Hok]; [|apply drain_wait]);
    unfold view; apply move_none; by rewrite ?H.
Qed.

Lemma inv_chan_inductive : inductive_under inv_true inv_chan.
Proof.
  split.
  - intros c k op. split; unfold v_open, v_keys; cbn; try done.
    + rewrite map_to_list_empty. constructor.
    + intros ? H. by apply not_elem_of_nil in H.
    + constructor.
  - intros o i P w w' push spawn He _ Hok.
    eapply chan_move_ok; [by eapply exec_move| |exact Hok]. apply drain_wait.
  - intros id tm P w _ _ Hok.
    eapply chan_move_ok; [..|exact Hok]; [|apply drain_wait].
    unfold view. rewrite !gather_cons. destruct (fires tm); by apply move_none.
  - intros a P w w' th Ha _ Hok.
    eapply chan_move_ok; [..|exact Hok]; [|apply drain_wait].
    unfold view, held. rewrite !gather_app.
    unfold arrive in Ha. repeat case_match; simplify_eq/=; autorewrite with gather; cbn;
      by apply move_none.
Qed.

Lemma always_chan : always inv_chan.
Proof. refine (always_intro _ _ always_true inv_chan_inductive). Qed.

(** ** Properties *)

(** C20. No goroutine of the session ever panics: in particular the stop channel of a
    noop loop is never closed twice, however completion, abandonment and teardown of an
    upgrade race. *)
Theorem session_never_panics c k op w ts n i rest o :
  reachable c k op (w, ts) → ts !! n = Some (i :: rest) → exec o i w ≠ Panicked.
Proof.
  intros Hr Hn Hp. apply exec_panicked in Hp as (ch & -> & Hin).
  destruct (always_stops _ _ _ _ _ Hr) as (Hnd & _).
  apply head_pending in Hn. unfold stops in Hnd.
  apply list.NoDup_app in Hnd as (_ & _ & Hnd). apply list.NoDup_app in Hnd as (_ & Hnd & _).
  apply (Hnd ch); [|done]. eapply gather_in; [done|]. by left.
Qed.

(** The noop goroutine of an upgrade does not outlive it: when no upgrade is in
    flight, the channel every running noop loop listens to is closed, or some goroutine
    is about to close it. *)
Theorem noop_loops_stop c k op w ts stop :
  reachable c k op (w, ts) → INoopLoop stop ∈ concat ts → upgrading (sess w) = false →
  stop ∈ closedStops w ∨ ICloseChan stop ∈ concat ts.
Proof.
  intros Hr Hin Hu. destruct (always_stops _ _ _ _ _ Hr) as (_ & _ & Hst).
  destruct (always_sess_ok _ _ _ _ _ Hr) as ([_ _ Hnoop _ _ _ _ _ _] & _).
  assert (probeNoopStop (sess w) = None) as Hnone.
  { destruct (probeNoopStop (sess w)); [|done]. by rewrite Hnoop in Hu. }
  assert (stop ∈ stops w (concat ts)) as Hs.
  { apply Hst. eapply gather_in; [done|]. by left. }
  unfold stops in Hs. rewrite Hnone in Hs. cbn in Hs.
  apply elem_of_app in Hs as [Hs|Hs]; [right|by left].
  apply list_elem_of_bind in Hs as (i & Hc & Hi). destruct i; cbn in Hc;
    try by apply not_elem_of_nil in Hc. by apply list_elem_of_singleton in Hc as ->.
Qed.

(** A delivery to a held poll never blocks: whoever has claimed the poll's channel
    finds it empty, so [send], [writeNoop] and [close] always complete. *)
Theorem poll_delivery_never_blocks c k op w ts n ch buf rest o :
  reachable c k op (w, ts) → ts !! n = Some (IDeliver ch buf :: rest) →
  exec o (IDeliver ch buf) w ≠ Blocked.
Proof.
  intros Hr Hn. destruct (always_chan _ _ _ _ _ Hr) as [_ Hnd _ _ _ _].
  apply head_pending in Hn. unfold v_open, v_keys in Hnd. cbn in *.
  unfold exec_deliver. destruct (chans w !! ch) as [b|] eqn:E; [|done].
  apply list.NoDup_app in Hnd as (_ & _ & Hnd). apply list.NoDup_app in Hnd as (_ & Hnd & _).
  destruct (Hnd ch).
  - eapply gather_in; [done|]. by left.
  - apply list_elem_of_fmap. exists (ch, b). split; [done|]. by apply elem_of_map_to_list.
Qed.

(** A poll whose request was cancelled never waits in vain: if [release] did not get
    the channel back, the payload is already in it or a goroutine is delivering it, so
    the buffer is received and returned to the pool. *)
Theorem drained_poll_is_delivered c k op w ts ch :
  reachable c k op (w, ts) → IDrain ch ∈ concat ts →
  is_Some (chans w !! ch) ∨ ch ∈ gather claim_token (concat ts).
Proof.
  intros Hr Hin. destruct (always_chan _ _ _ _ _ Hr) as [Hw _ _ Hd _ _].
  assert (ch ∈ gather drain_token (concat ts)) as Hdr by (eapply gather_in; [done|by left]).
  specialize (Hd ch Hdr). apply drain_wait in Hdr. cbn in *. rewrite Hw in Hdr.
  unfold v_open, v_keys in Hdr. cbn in Hdr. rewrite !elem_of_app in Hdr.
  destruct Hdr as [?|[?|Hk]]; [done|by right|left].
  apply list_elem_of_fmap in Hk as ([ch' b] & -> & Hk). apply elem_of_map_to_list in Hk.
  by eexists.
Qed.
