(* ===== verification/SessionBuffers.v ===== *)
(** * Pooled buffers

    A poll payload is encoded into a buffer of a pool, sent through the poll's channel,
    written as the response and returned to the pool.  At every moment a buffer is in
    the pool, in one channel, or in the hands of one goroutine, so the bytes of a response
    are the encoding of the packets that were handed to that poll. *)
From S2P Require Import Prelude Machine Packet Payload ServerOptions ServerTransport.
From S2P Require Import ServerSocket SessionMachine SessionState SessionPolls.

(** The buffer a goroutine holds, the packets it is to encode for a poll, and the
    encoded buffer it carries for one. *)
Definition buf_token (i : instr) : list nat :=
  match i with
  | IEncode _ b _ | IDeliver _ b | IWriteResponse _ b | IPutBuffer b => [b]
  | _ => []
  end.
Definition parcel_token (i : instr) : list (nat * list Packet) :=
  match i with
  | IGetBuffer ch ps | IEncode ch _ ps => [(ch, ps)]
  | _ => []
  end.
Definition loaded_token (i : instr) : list (nat * nat) :=
  match i with
  | IDeliver ch b | IWriteResponse ch b => [(ch, b)]
  | _ => []
  end.

#[export] Instance buf_boring : Boring buf_token.
Proof. by intros []. Qed.
#[export] Instance parcel_boring : Boring parcel_token.
Proof. by intros []. Qed.
#[export] Instance loaded_boring : Boring loaded_token.
Proof. by intros []. Qed.

Definition in_channels (w : World) : list nat := (map_to_list (chans w)).*2.

Definition bufs (w : World) (P : list instr) : list nat :=
  pool w ++ gather buf_token P ++ in_channels w.

#[export] Instance bufs_perm w : Proper (Permutation ==> Permutation) (bufs w).
Proof. intros P Q H. unfold bufs. by rewrite H. Qed.

(** The instructions that touch buffers. *)
Definition buf_neutral (i : instr) : bool :=
  match i with
  | IGetBuffer _ _ | IEncode _ _ _ | IDeliver _ _ | IPollSelect _ | IWriteResponse _ _
  | IDrain _ | IPutBuffer _ => false
  | _ => true
  end.

Definition responses (l : list event) : list (nat * bytes) :=
  l ≫= λ e, match e with EvResponse ch body => [(ch, body)] | _ => [] end.

Lemma responses_snoc l e :
  responses (l ++ [e]) =
  responses l ++ match e with EvResponse ch body => [(ch, body)] | _ => [] end.
Proof. unfold responses. rewrite bind_app. cbn. by rewrite app_nil_r. Qed.

Lemma exec_buf_neutral o i w w' push spawn :
  exec o i w = Next w' push spawn → buf_neutral i = true →
  pool w' = pool w ∧ chans w' = chans w ∧ heap w' = heap w ∧ nextBuf w' = nextBuf w ∧
  responses (log w') = responses (log w) ∧
  deliveries w `prefix_of` deliveries w' ∧
  gather buf_token (push ++ concat spawn) = [] ∧
  gather loaded_token (push ++ concat spawn) = [] ∧
  Forall (λ x, x ∈ deliveries w') (gather parcel_token (push ++ concat spawn)).
Proof.
  intros H Hi. destruct i; try done; exec_cases H; autorewrite with gather;
    rewrite ?responses_snoc, ?app_nil_r;
    try (split_and!; first [done|by repeat case_match]).
  all: try (destruct k; cbn [sent_to]); rewrite ?gather_handshake by apply _;
    split_and!; try done; try (by eexists); try (by destruct (tkind t));
    try destruct (tkind t); constructor; try constructor; set_solver.
Qed.

(** What is known about buffers and their contents. *)
Record buf_ok (w : World) (P : list instr) : Prop := {
  bo_nodup : NoDup (bufs w P);
  bo_fresh : Forall (λ b, b < nextBuf w)%nat (bufs w P);
  bo_parcels : Forall (λ x, x ∈ deliveries w) (gather parcel_token P);
  bo_loaded ch b :
    (ch, b) ∈ gather loaded_token P ++ map_to_list (chans w) →
    ∃ ps, (ch, ps) ∈ deliveries w ∧ heap w !!! b = EncodePayload ps;
  bo_responses ch body :
    (ch, body) ∈ responses (log w) →
    ∃ ps, (ch, ps) ∈ deliveries w ∧ body = EncodePayload ps;
}.

Definition inv_buf : invariant := buf_ok.

#[export] Instance inv_buf_multiset : Multiset inv_buf.
Proof.
  intros w P Q H. split; intros [H1 H2 H3 H4 H5]; split; try done;
    first [by rewrite <- H|by rewrite H|intros ch b Hin; apply (H4 ch b); revert Hin].
  - by rewrite H.
  - by rewrite H.
Qed.

Lemma buf_ok_neutral o i w w' push spawn P :
  exec o i w = Next w' push spawn → buf_neutral i = true →
  buf_ok w (i :: P) → buf_ok w' (push ++ concat spawn ++ P).
Proof.
  intros He Hi [H1 H2 H3 H4 H5].
  destruct (exec_buf_neutral _ _ _ _ _ _ He Hi)
    as (E1 & E2 & E3 & E4 & E5 & [ext E6] & E7 & E8 & E9).
  assert (∀ x, x ∈ deliveries w → x ∈ deliveries w') as Hsub by (rewrite E6; set_solver).
  assert (bufs w' (push ++ concat spawn ++ P) = bufs w (i :: P)) as Hb.
  { unfold bufs, in_channels. rewrite (app_assoc push), (gather_app _ (push ++ concat spawn)), E1, E2, E7. by destruct i. }
  split; rewrite ?Hb, ?E4, ?E5; try done.
  - rewrite (app_assoc push), (gather_app _ (push ++ concat spawn)). apply Forall_app. split; [done|].
    rewrite gather_cons in H3. apply Forall_app in H3 as [_ H3].
    eapply Forall_impl; [|exact H3]. done.
  - intros ch b. rewrite (app_assoc push), (gather_app _ (push ++ concat spawn)), E8, E2, E3. intros Hin.
    destruct (H4 ch b) as (ps & ? & ?); [|by eauto]. rewrite gather_cons. set_solver.
  - intros ch body Hin. destruct (H5 _ _ Hin) as (ps & ? & ?). eauto.
Qed.

(** Encoded buffers are owned, so writing another one does not disturb them. *)
Lemma loaded_owned P ch b : (ch, b) ∈ gather loaded_token P → b ∈ gather buf_token P.
Proof.
  unfold gather. rewrite !list_elem_of_bind. intros (i & Hc & Hi). exists i. split; [|done].
  destruct i; cbn in *; set_solver.
Qed.

Lemma loaded_not_mine w i b P ch b' :
  NoDup (bufs w (i :: P)) → buf_token i = [b] →
  (ch, b') ∈ gather loaded_token P ++ map_to_list (chans w) → b' ≠ b.
Proof.
  unfold bufs. rewrite gather_cons. intros Hnd Hi Hin ->. rewrite Hi in Hnd.
  apply list.NoDup_app in Hnd as (_ & _ & Hnd). apply NoDup_cons_1_1 in Hnd.
  apply elem_of_app in Hin as [Hin|Hin].
  - apply loaded_owned in Hin. set_solver.
  - apply Hnd, elem_of_app. right. apply list_elem_of_fmap. by exists (ch, b).
Qed.

Lemma values_insert ch b (f : gmap nat nat) :
  f !! ch = None → (map_to_list (<[ch := b]> f)).*2 ≡ₚ b :: (map_to_list f).*2.
Proof. intros H. by rewrite map_to_list_insert. Qed.

Lemma values_delete ch b (f : gmap nat nat) :
  f !! ch = Some b → (map_to_list f).*2 ≡ₚ b :: (map_to_list (delete ch f)).*2.
Proof. intros H. by rewrite <- (map_to_list_delete _ _ _ H). Qed.

(** Moving a buffer keeps what is known, if its contents stay and its parcel is known. *)
Lemma buf_ok_move w w' P P' :
  buf_ok w P →
  (NoDup (bufs w P) → NoDup (bufs w' P')) →
  (Forall (λ b, b < nextBuf w)%nat (bufs w P) →
   Forall (λ b, b < nextBuf w')%nat (bufs w' P')) →
  deliveries w' = deliveries w → heap w' = heap w → responses (log w') = responses (log w) →
  (∀ x, x ∈ gather parcel_token P' → x ∈ gather parcel_token P) →
  (∀ x, x ∈ gather loaded_token P' ++ map_to_list (chans w') →
        x ∈ gather loaded_token P ++ map_to_list (chans w)) →
  buf_ok w' P'.
Proof.
  intros [H1 H2 H3 H4 H5] E1 E2 E3 E4 E5 E6 E7. split; rewrite ?E3, ?E4, ?E5; auto.
  rewrite Forall_forall in *. intros x Hx. apply H3. apply list_elem_of_In, E6.
  by apply list_elem_of_In.
Qed.

Lemma buf_ok_get o ch ps w w' push spawn P :
  exec o (IGetBuffer ch ps) w = Next w' push spawn →
  buf_ok w (IGetBuffer ch ps :: P) → buf_ok w' (push ++ concat spawn ++ P).
Proof.
  cbn. unfold pool_get. intros He Hok. case_decide as Hin; simplify_eq/=;
    eapply buf_ok_move; try exact Hok; try done; unfold bufs; cbn.
  - rewrite (remove_first_perm _ _ Hin) at 1.
    by rewrite <- Permutation_middle.
  - rewrite (remove_first_perm _ _ Hin) at 1.
    by rewrite <- Permutation_middle.
  - intros Hnd. rewrite <- Permutation_middle. constructor; [|done].
    apply fresh_not_in. apply Hok.
  - intros Hf. rewrite <- Permutation_middle. constructor; [lia|].
    eapply fresh_weaken; [done|lia].
Qed.

Lemma buf_ok_encode ch b ps w P :
  buf_ok w (IEncode ch b ps :: P) →
  buf_ok (set_heap (<[b := appendPayload [] ps]> (heap w)) w) (IDeliver ch b :: P).
Proof.
  intros [H1 H2 H3 H4 H5]. rewrite gather_cons in H3. inversion H3 as [|? ? Hps H3']; subst.
  split; try done. cbn. intros ch' b' Hin. apply elem_of_cons in Hin as [Hin|Hin].
  - simplify_eq. exists ps. split; [done|]. apply lookup_total_insert_eq.
  - pose proof (loaded_not_mine _ _ _ _ _ _ H1 eq_refl Hin).
    rewrite lookup_total_insert_ne by done. by apply H4.
Qed.

Lemma buf_ok_deliver ch b w P :
  chans w !! ch = None →
  buf_ok w (IDeliver ch b :: P) → buf_ok (set_chans (<[ch := b]> (chans w)) w) P.
Proof.
  intros Hn Hok.
  assert (bufs w (IDeliver ch b :: P) ≡ₚ
          bufs (set_chans (<[ch := b]> (chans w)) w) P) as Hp.
  { unfold bufs, in_channels. cbn. rewrite (values_insert ch b) by done.
    by rewrite <- !Permutation_middle. }
  eapply buf_ok_move; try exact Hok; try done; try (by rewrite Hp).
  cbn. intros x. rewrite map_to_list_insert by done. set_solver.
Qed.

Lemma buf_ok_receive ch b i j w P :
  chans w !! ch = Some b →
  buf_token i = [] → loaded_token i = [] → parcel_token i = [] →
  buf_token j = [b] → (loaded_token j = [] ∨ loaded_token j = [(ch, b)]) →
  parcel_token j = [] →
  buf_ok w (i :: P) → buf_ok (set_chans (delete ch (chans w)) w) (j :: P).
Proof.
  intros Hs Hb1 Hl1 Hp1 Hb2 Hl2 Hp2 Hok.
  assert (bufs w (i :: P) ≡ₚ bufs (set_chans (delete ch (chans w)) w) (j :: P)) as Hp.
  { unfold bufs, in_channels. cbn. rewrite Hb1, Hb2, (values_delete _ _ _ Hs). cbn.
    by rewrite <- !Permutation_middle. }
  eapply buf_ok_move; try exact Hok; try done; try (by rewrite Hp).
  - rewrite !gather_cons, Hp1, Hp2. done.
  - intros x. rewrite !gather_cons, Hl1. cbn. rewrite <- (map_to_list_delete _ _ _ Hs).
    destruct Hl2 as [->| ->]; set_solver.
Qed.

Lemma buf_ok_response ch b w P :
  buf_ok w (IWriteResponse ch b :: P) →
  buf_ok (emit (EvResponse ch (heap w !!! b)) w) (IPutBuffer b :: P).
Proof.
  intros Hok. destruct Hok as [H1 H2 H3 H4 H5]. split; try done.
  - cbn. intros ch' b' Hin. apply H4. set_solver.
  - cbn. intros ch' body. rewrite responses_snoc. rewrite elem_of_app. intros [Hin|Hin].
    + by apply H5.
    + apply list_elem_of_singleton in Hin. simplify_eq. apply H4. left.
Qed.

Lemma buf_ok_put b w P :
  buf_ok w (IPutBuffer b :: P) →
  buf_ok (set_pool (b :: pool w) (set_heap (<[b := []]> (heap w)) w)) P ∧ buf_ok w P.
Proof.
  intros Hok.
  assert (bufs w (IPutBuffer b :: P) ≡ₚ b :: bufs w P) as Hp.
  { unfold bufs. cbn. by rewrite <- Permutation_middle. }
  pose proof Hok as [H1 H2 H3 H4 H5]. rewrite Hp in H1, H2. split; split; try done.
  - cbn. intros ch' b' Hin.
    rewrite lookup_total_insert_ne; [by apply H4|].
    intros ->. eapply (loaded_not_mine w (IPutBuffer b')); [by rewrite Hp|done|exact Hin|done].
  - by apply NoDup_cons_1_2 in H1.
  - by inversion H2.
Qed.

Lemma inv_buf_inductive : inductive_under inv_true inv_buf.
Proof.
  split.
  - intros c k op. split; unfold bufs, in_channels; cbn; rewrite ?map_to_list_empty;
      try constructor; intros ? ? H; by apply not_elem_of_nil in H.
  - intros o i P w w' push spawn He _ Hok. unfold inv_buf in *.
    destruct (buf_neutral i) eqn:Hi; [by eapply buf_ok_neutral|].
    destruct i; try done.
    + by eapply buf_ok_get.
    + cbn in He. simplify_eq/=. by apply buf_ok_encode.
    + cbn in He. unfold exec_deliver in He. case_match; simplify_eq/=. by apply buf_ok_deliver in Hok.
    + cbn in He. destruct (o_ctx o); [by simplify_eq/=; eapply buf_ok_move; try exact Hok|].
      unfold exec_receive in He. case_match; simplify_eq/=.
      eapply (buf_ok_receive ch); try exact Hok; try done. by right.
    + cbn in He. unfold exec_write_response in He. case_match; simplify_eq/=.
      * eapply buf_ok_move; try exact Hok; try done. cbn. set_solver.
      * by apply buf_ok_response.
    + cbn in He. unfold exec_receive in He. case_match; simplify_eq/=.
      eapply (buf_ok_receive ch); try exact Hok; try done. by left.
    + cbn in He. unfold exec_put in He. apply buf_ok_put in Hok as [? ?].
      case_match; by simplify_eq/=.
  - intros id tm P w _ _ [H1 H2 H3 H4 H5]. destruct (fires tm); by split.
  - intros a P w w' th Ha _ Hok. unfold inv_buf.
    unfold arrive in Ha. eapply buf_ok_move; try exact Hok; unfold bufs, in_channels;
      repeat case_match; simplify_eq/=; rewrite ?gather_app; autorewrite with gather; try done.
Qed.

Lemma always_buf : always inv_buf.
Proof. refine (always_intro _ _ always_true inv_buf_inductive). Qed.

(** ** Properties *)

(** C19. Pooling is invisible to the client: the body of every poll response is the
    encoding of exactly the packets that were handed to that poll, by [send], [writeNoop]
    or [close], and each poll is handed packets once. *)
Theorem poll_response_faithful c k op w ts ch body :
  reachable c k op (w, ts) → EvResponse ch body ∈ log w →
  ∃ ps, (ch, ps) ∈ deliveries w ∧ body = EncodePayload ps ∧
    ∀ ps', (ch, ps') ∈ deliveries w → ps' = ps.
Proof.
  intros Hr Hin. destruct (always_buf _ _ _ _ _ Hr) as [_ _ _ _ Hresp].
  destruct (Hresp ch body) as (ps & Hps & Hb).
  { apply list_elem_of_bind. eexists; split; [|exact Hin]. by left. }
  exists ps. split_and!; [done..|]. intros ps' Hps'.
  destruct (always_chan _ _ _ _ _ Hr) as [_ _ _ _ Honce _]. cbn in Honce.
  apply list.NoDup_app in Honce as (_ & _ & Honce).
  by eapply NoDup_fst_unique.
Qed.
