(* ===== verification/SessionLiveness.v ===== *)
(** * Nothing is forgotten

    Invariants that keep a session from getting stuck: packets that can be delivered have
    a goroutine on the way to deliver them, an open session has a heartbeat, a closing
    session has something that will close it, and every transport is closed in the end.
    They say that the next step is always pending; that a pending goroutine runs and an
    armed timer fires is the runtime's part. *)
From S2P Require Import Prelude Machine Packet ServerOptions ServerTransport ServerSocket.
From S2P Require Import SessionMachine SessionState SessionFlush SessionPolls.

(** ** Timers are distinct *)

Definition distinct (a b : option nat) : Prop := a = None ∨ a ≠ b.
Definition below (n : nat) (a : option nat) : Prop := ∀ id, a = Some id → (id < n)%nat.

Record ids_ok (s : ServerSocket) : Prop := {
  ids_ping_pong : distinct (pingTimer s) (pongTimer s);
  ids_ping_upgrade : distinct (pingTimer s) (upgradeTimer s);
  ids_ping_close : distinct (pingTimer s) (closeTimer s);
  ids_pong_upgrade : distinct (pongTimer s) (upgradeTimer s);
  ids_pong_close : distinct (pongTimer s) (closeTimer s);
  ids_upgrade_close : distinct (upgradeTimer s) (closeTimer s);
  ids_ping : below (fresh s) (pingTimer s);
  ids_pong : below (fresh s) (pongTimer s);
  ids_upgrade : below (fresh s) (upgradeTimer s);
  ids_close : below (fresh s) (closeTimer s);
  ids_timers id tm : timers s !! id = Some tm → (id < fresh s)%nat;
}.

Lemma distinct_fresh_l n a : below n a → distinct (Some n) a.
Proof. intros H. right. intros <-. specialize (H n eq_refl). lia. Qed.
Lemma distinct_fresh_r n a : below n a → distinct a (Some n).
Proof. intros H. right. intros ->. specialize (H n eq_refl). lia. Qed.
Lemma distinct_None_l a : distinct None a.
Proof. by left. Qed.
Lemma distinct_None_r a : distinct a None.
Proof. destruct a; [by right|by left]. Qed.
Lemma distinct_sym a b : distinct a b → distinct b a.
Proof. unfold distinct. destruct b; naive_solver. Qed.
Lemma below_None n : below n None.
Proof. done. Qed.
Lemma below_fresh n : below (S n) (Some n).
Proof. intros id [= ->]. lia. Qed.
Lemma below_S n a : below n a → below (S n) a.
Proof. intros H id Hid. specialize (H id Hid). lia. Qed.
Create HintDb ids.
#[local] Hint Resolve distinct_fresh_l distinct_fresh_r distinct_None_l distinct_None_r
  below_None below_fresh below_S : ids.

Lemma step_ids_ok s s' : sess_step s s' → ids_ok s → ids_ok s'.
Proof.
  intros Hstep [H1 H2 H3 H4 H5 H6 H7 H8 H9 H10 H11].
  revert H1 H2 H3 H4 H5 H6 H7 H8 H9 H10 H11. sess_cases s Hstep.
  all: intros H1' H2' H3' H4' H5' H6' H7' H8' H9' H10' H11'; split; cbn; auto with ids.
  all: intros tid tm; rewrite ?lookup_insert_Some, ?delete_opt_lookup, ?lookup_delete_Some;
    intros Hid; specialize (H11' tid tm); intuition lia.
Qed.

Definition inv_ids : invariant := λ w _, sess_ok (sess w) ∧ ids_ok (sess w).

Lemma always_ids : always inv_ids.
Proof.
  assert (always (λ w _, ids_ok (sess w))) as H.
  { apply always_sess; [|apply step_ids_ok]. intros c k. by split; cbn; auto with ids. }
  intros c k op w ts Hr. split; [by eapply always_sess_ok|by eapply H].
Qed.

(** [flush] changes the buffer only. *)
Lemma flush_drop_buffer ps s next s' :
  flush_drop ps s = (next, s') → ∃ b, s' = set_writeBuffer b s.
Proof. unfold flush_drop. intros [= _ <-]. case_match; eauto. Qed.

(** What an instruction does to the session. *)
Definition effect (i : instr) (s : ServerSocket) : ServerSocket :=
  match i with
  | IOpen => open s
  | ISend d b => (Send d b s).2
  | IClose => (beginClose s).2
  | ICloseArm => Close_arm s
  | IOnMessage h => OnMessage h s
  | IOnClose h => OnClose h s
  | IFlushSent ps true None => (flush_drop ps s).2
  | IFlushClose _ _ | ICloseWithReason _ _ => (beginTeardown s).2
  | IOnPong => onPong s
  | ISendPing => (sendPing s).2
  | IStartUpgrade t => (startUpgrade t s).2
  | IOnProbe => (onProbe s).2
  | ICompleteUpgrade t => (beginCompleteUpgrade t s).2
  | IAbortUpgrade t => (beginAbortUpgrade t s).2
  | _ => s
  end.

Lemma exec_effect o i w w' push spawn :
  exec o i w = Next w' push spawn → sess w' = effect i (sess w).
Proof.
  intros H. destruct (is_flush_sent i) eqn:Hi.
  - destruct i; try done. cbn [exec effect] in *. unfold exec_flush_sent in H.
    destruct err as [e|], sent; cbn [negb] in H; try by simplify_eq.
    destruct (flush_drop packets (sess w)). by simplify_eq/=.
  - destruct i; try done; exec_cases H; try done.
    all: match goal with Hf : ?f = (_, ?s) |- ?s = _ => by rewrite Hf end.
Qed.

(** Only [beginClose] makes a session closing. *)
Definition is_close (i : instr) : bool := match i with IClose => true | _ => false end.

Lemma effect_closing i s :
  is_close i = false → state (effect i s) = sessionClosing → state s = sessionClosing.
Proof.
  intros Hi. destruct s, i; try done; cbn [effect]; repeat case_match; sess_norm;
    repeat (inner_case; sess_norm); tests; congruence.
Qed.

(** ** The heartbeat *)

(** A timer field refers to a timer that will fire. *)
Definition armed (s : ServerSocket) (t : option nat) : Prop :=
  ∃ id, t = Some id ∧ is_Some (timers s !! id).

Definition beats (s : ServerSocket) : Prop := armed s (pingTimer s) ∨ armed s (pongTimer s).

(** About to send a ping, or to close. *)
Definition beat (i : instr) : bool :=
  match i with ISendPing | ICloseWithReason _ _ | IFlushClose _ _ => true | _ => false end.

Definition inv_beat : invariant := λ w P,
  state (sess w) = sessionOpen → beats (sess w) ∨ awaits beat P.

#[export] Instance inv_beat_multiset : Multiset inv_beat.
Proof. intros w P Q H. unfold inv_beat. by rewrite H. Qed.

Lemma armed_insert s t tm :
  below (fresh s) t → armed s t →
  ∃ id, t = Some id ∧ is_Some (<[fresh s := tm]> (timers s) !! id).
Proof.
  intros Hb (id & -> & Hid). exists id. split; [done|]. specialize (Hb id eq_refl).
  rewrite lookup_insert_ne by lia. done.
Qed.

Lemma armed_delete (s : ServerSocket) a t :
  distinct t a → armed s t →
  ∃ id, t = Some id ∧ is_Some (delete_opt a (timers s) !! id).
Proof.
  intros Hd (id & -> & tm & Hid). exists id. split; [done|]. exists tm.
  apply delete_opt_lookup. split; [|done]. destruct Hd; congruence.
Qed.

(** An open session that stays open keeps beating, and one that opens starts to. *)
Lemma quiet_beats s s' :
  quiet_step s s' → ids_ok s → state s' = sessionOpen →
  state s ≠ sessionOpen ∨ beats s → beats s'.
Proof.
  intros Hstep [H1 H2 H3 H4 H5 H6 H7 H8 H9 H10 H11] Hs Hb. unfold beats in *.
  pose proof (armed_insert s) as Hins. pose proof (armed_delete s) as Hdel.
  revert H1 H2 H3 H4 H5 H6 H7 H8 H9 H10 H11 Hs Hb Hins Hdel. unfold armed.
  sess_cases s Hstep; intros H1' H2' H3' H4' H5' H6' H7' H8' H9' H10' H11' Hs Hb Hins Hdel;
    cbn in *; try done; try (destruct Hb; done).
  - left. exists fresh. by rewrite (lookup_insert_eq _ fresh).
  - left. exists fresh. by rewrite (lookup_insert_eq _ fresh).
  - right. exists fresh. by rewrite (lookup_insert_eq _ fresh).
  - destruct Hb as [?|[Hb|Hb]]; [done|left|right]; by apply Hins.
  - destruct Hb as [?|[Hb|Hb]]; [done|left|right]; by apply Hdel.
  - destruct Hb as [?|[Hb|Hb]]; [done|left|right]; by apply Hdel.
Qed.

Lemma sendPing_beats s : state s = sessionOpen → beats (sendPing s).2.
Proof.
  intros Hs. right. unfold sendPing. rewrite decide_False by auto. exists (fresh s).
  split; [done|]. cbn. by rewrite (lookup_insert_eq _ (fresh s)).
Qed.

Lemma fire_armed (s : ServerSocket) id t :
  t ≠ Some id → armed s t → armed (fire id s) t.
Proof. intros Hne Ha. apply (armed_delete s (Some id)); [by right|done]. Qed.

(** A timer other than the one that fired is still armed. *)
Lemma fire_keeps (s : ServerSocket) id a b :
  b = Some id → distinct a b → armed s a → armed (fire id s) a.
Proof.
  intros -> Hd Ha. apply fire_armed; [|done]. destruct Ha as (? & -> & _).
  destruct Hd; congruence.
Qed.

Lemma fire_beats s id tm :
  sess_ok s → ids_ok s → timers s !! id = Some tm → beats s →
  beats (fire id s) ∨ fires tm = CbSendPing ∨ fires tm = CbPingTimeout.
Proof.
  intros (_ & Hr & _) [H1 H2 H3 H4 H5 _ _ _ _ _ _] Ht Hb.
  pose proof (Hr _ _ Ht) as Hrole. unfold timer_role in Hrole.
  destruct (fires tm); [by auto..| |]; left; destruct Hrole as [E _];
    (destruct Hb as [Hb|Hb]; [left; eapply (fire_keeps s _ (pingTimer s))|
                              right; eapply (fire_keeps s _ (pongTimer s))]);
    try exact E; done.
Qed.

Lemma fire_close s id tm :
  sess_ok s → ids_ok s → timers s !! id = Some tm → armed s (closeTimer s) →
  armed (fire id s) (closeTimer s) ∨ fires tm = CbForcedClose.
Proof.
  intros (_ & Hr & _) [H1 H2 H3 H4 H5 H6 _ _ _ _ _] Ht Ha.
  pose proof (Hr _ _ Ht) as Hrole. unfold timer_role in Hrole.
  destruct (fires tm); [..|by auto]; left; destruct Hrole as [E _];
    (eapply fire_keeps; [exact E|by apply distinct_sym|done]).
Qed.

Lemma run_beats o i w w' push spawn :
  exec o i w = Next w' push spawn → inv_ids w [] → state (sess w') = sessionOpen →
  state (sess w) ≠ sessionOpen ∨ beats (sess w) ∨ beat i = true → beats (sess w').
Proof.
  intros He [_ Hids] Hs Hb.
  destruct (decide (beat i = true)) as [Hi|Hi].
  - destruct i; try done; cbn in He.
    + unfold exec_closeWithReason, beginTeardown in He. case_decide; simplify_eq/=; congruence.
    + unfold exec_closeWithReason, beginTeardown in He. case_decide; simplify_eq/=; congruence.
    + assert (sess w' = (sendPing (sess w)).2) as Hw.
      { by destruct (sendPing (sess w)); simplify_eq/=. }
      rewrite Hw in *. apply sendPing_beats. revert Hs. unfold sendPing.
      by case_decide; cbn; [|tauto].
  - destruct (is_flush_sent i) eqn:Hf.
    + destruct i; try done. exec_cases He; try (destruct Hb as [?|[?|?]]; done).
      all: match goal with Hd : flush_drop _ _ = (_, ?s) |- _ =>
        apply flush_drop_buffer in Hd as [b ->] end.
      all: destruct Hb as [?|[?|?]]; done.
    + eapply quiet_beats; [by eapply exec_quiet|done..|]. naive_solver.
Qed.

Lemma always_beat : always inv_beat.
Proof.
  refine (always_intro _ _ always_ids _). split.
  - done.
  - intros o i P w w' push spawn He [Hok Hids] HI Hs. rewrite !awaits_app.
    unfold inv_beat in HI. rewrite awaits_cons in HI.
    destruct (decide (state (sess w) = sessionOpen)) as [Ho|Ho];
      [|left; eapply run_beats; [exact He|by split|done|by left]].
    destruct (HI Ho) as [Hb|[Hb|Hb]]; [left|left|by auto];
      (eapply run_beats; [exact He|by split|done|auto]).
  - intros id tm P w Ht [Hok Hids] HI Hs. rewrite awaits_cons.
    destruct (HI Hs) as [Hb|Hb]; [|by auto].
    destruct (fire_beats _ _ _ Hok Hids Ht Hb) as [?|[Hf|Hf]]; [by left|..];
      right; left; by rewrite Hf.
  - intros a P w w' thread Ha _ HI Hs. rewrite awaits_app.
    rewrite (arrive_sess _ _ _ _ Ha) in *. destruct (HI Hs); auto.
Qed.

(** ** A closing session closes *)

Definition closer (i : instr) : bool :=
  match i with ICloseWithReason _ _ | IFlushClose _ _ => true | _ => false end.
Definition arms (i : instr) : bool := match i with ICloseArm => true | _ => closer i end.

Definition inv_closing : invariant := λ w P,
  state (sess w) = sessionClosing →
  (closeTimer (sess w) = None → awaits arms P) ∧
  (closeTimer (sess w) ≠ None → armed (sess w) (closeTimer (sess w)) ∨ awaits closer P).

#[export] Instance inv_closing_multiset : Multiset inv_closing.
Proof. intros w P Q H. unfold inv_closing. by rewrite H. Qed.

(** While a session is closing, its fallback timer stays as it is once it is set. *)
Lemma quiet_closing s s' :
  quiet_step s s' → ids_ok s → state s = sessionClosing → state s' = sessionClosing →
  (closeTimer s' = closeTimer s ∧ (armed s (closeTimer s) → armed s' (closeTimer s'))) ∨
  (closeTimer s = None ∧ armed s' (closeTimer s')).
Proof.
  intros Hstep [H1 H2 H3 H4 H5 H6 H7 H8 H9 H10 H11] Hs Hs'.
  pose proof (armed_delete s) as Hdel.
  revert H1 H2 H3 H4 H5 H6 H7 H8 H9 H10 H11 Hs Hs' Hdel. unfold armed.
  sess_cases s Hstep; intros H1' H2' H3' H4' H5' H6' H7' H8' H9' H10' H11' Hs Hs' Hdel;
    cbn in *; try done; eauto.
  - right. split; [done|]. exists fresh. by rewrite (lookup_insert_eq _ fresh).
  - left. split; [done|]. apply Hdel. by apply distinct_sym.
  - left. split; [done|]. apply Hdel. by apply distinct_sym.
Qed.

(** Closing begins in [beginClose], which is followed by the arming of the timer. *)
Lemma run_closing o i w w' push spawn :
  exec o i w = Next w' push spawn → state (sess w') = sessionClosing →
  state (sess w) ≠ sessionClosing → closeTimer (sess w') = None ∧ awaits arms push.
Proof.
  intros He Hs Hn. pose proof (exec_effect _ _ _ _ _ _ He) as Hw.
  destruct (is_close i) eqn:Hi.
  - destruct i; try done. cbn [exec] in He. unfold beginClose in He.
    case_decide; simplify_eq/=. split; [done|]. rewrite !awaits_cons. auto.
  - destruct Hn. rewrite Hw in Hs. by apply effect_closing in Hs.
Qed.

(** The pending instructions that lead to the closing do so. *)
Lemma effect_arms i s :
  arms i = true → state s = sessionClosing → state (effect i s) = sessionClosing →
  closer i = false ∧ closeTimer (effect i s) ≠ None.
Proof.
  intros Hi Hs. destruct i; try done; cbn [effect].
  - intros _. split; [done|]. unfold Close_arm. case_decide as Hd; [done|]. tauto.
  - unfold beginTeardown. case_decide; cbn; congruence.
  - unfold beginTeardown. case_decide; cbn; congruence.
Qed.

Lemma run_kept o i w w' push spawn :
  exec o i w = Next w' push spawn → ids_ok (sess w) →
  state (sess w) = sessionClosing → state (sess w') = sessionClosing →
  (closeTimer (sess w') = closeTimer (sess w) ∧
   (armed (sess w) (closeTimer (sess w)) → armed (sess w') (closeTimer (sess w')))) ∨
  (closeTimer (sess w) = None ∧ armed (sess w') (closeTimer (sess w'))).
Proof.
  intros He Hids Hs Hs'. destruct (is_flush_sent i) eqn:Hi.
  - apply exec_effect in He. destruct i; try done. rewrite He.
    destruct sent, err; cbn [effect]; auto.
    destruct (flush_drop packets (sess w)) eqn:Hd. apply flush_drop_buffer in Hd as [b ->].
    by left.
  - eapply quiet_closing; [by eapply exec_quiet|done..].
Qed.

Lemma always_closing : always inv_closing.
Proof.
  refine (always_intro _ _ always_ids _). split.
  - done.
  - intros o i P w w' push spawn He [Hok Hids] HI Hs. rewrite !awaits_app.
    destruct (decide (state (sess w) = sessionClosing)) as [Hc|Hc];
      [|destruct (run_closing _ _ _ _ _ _ He Hs Hc) as [-> ?]; by split; auto].
    specialize (HI Hc). rewrite !awaits_cons in HI. destruct HI as [HI1 HI2].
    pose proof (effect_arms i (sess w)) as Ha. rewrite <- (exec_effect _ _ _ _ _ _ He) in Ha.
    assert (closer i = true → arms i = true) by (by destruct i).
    destruct (run_kept _ _ _ _ _ _ He Hids Hc Hs) as [[E Hk]|[E Hk]].
    + rewrite E in *. split; intros Hn.
      * destruct (HI1 Hn) as [Hi|?]; [|by auto]. by destruct (Ha Hi Hc Hs) as [_ []].
      * destruct (HI2 Hn) as [?|[Hi|?]]; [by auto| |by auto].
        destruct (Ha ltac:(auto) Hc Hs) as [Hi' _]. congruence.
    + split; [|by auto]. intros Hn. rewrite Hn in Hk. by destruct Hk as (? & ? & _).
  - intros id tm P w Ht [Hok Hids] HI Hs. destruct (HI Hs) as [HI1 HI2].
    rewrite !awaits_cons. split; [by auto|]. intros Hn.
    destruct (HI2 Hn) as [Ha|?]; [|by auto].
    destruct (fire_close _ _ _ Hok Hids Ht Ha) as [?|Hf]; [by left|]. right. left.
    by rewrite Hf.
  - intros a P w w' thread Ha _ HI. unfold inv_closing in *.
    rewrite (arrive_sess _ _ _ _ Ha), !awaits_app. intros Hs. specialize (HI Hs). tauto.
Qed.

Lemma armed_fires s t id :
  sess_ok s → ids_ok s → t = Some id → armed s t →
  ∃ tm, timers s !! id = Some tm ∧
    (t = pingTimer s → fires tm = CbSendPing ∧ duration tm = pingInterval (options s)) ∧
    (t = pongTimer s → fires tm = CbPingTimeout ∧ duration tm = pingTimeout (options s)) ∧
    (t = closeTimer s → fires tm = CbForcedClose ∧ duration tm = pingTimeout (options s)).
Proof.
  intros (_ & Hr & _) [H1 H2 H3 H4 H5 H6 _ _ _ _ _] -> (id' & [= <-] & tm & Ht).
  exists tm. split; [done|]. apply Hr in Ht. clear Hr. unfold timer_role, distinct in *.
  split_and!; intros E; rewrite <- E in *; destruct (fires tm); destruct Ht as [Ht Hd];
    (done || (exfalso; intuition congruence)).
Qed.

Lemma options_kept c k op w ts : reachable c k op (w, ts) → options (sess w) = c.
Proof.
  intros Hr. change c with (options (sess (init c k op).1)).
  change w with ((w, ts).1). revert Hr.
  apply (rtc_ind_r (λ cfg, options (sess cfg.1) = options (sess (init c k op).1))); [done|].
  intros [w1 ts1] [w2 ts2] _ Hs <-. apply step_sess in Hs. cbn.
  destruct w1 as [s1 ? ? ? ? ? ? ? ? ? ? ? ? ? ?]. cbn in *. by sess_cases s1 Hs.
Qed.

(** ** Properties *)

(** C27. An open session has a heartbeat: a timer is armed that will send the next ping
    after the ping interval, or one that will close the session when the pong is late, or
    a goroutine is about to do either. *)
Theorem heartbeat_alive c k op w ts :
  reachable c k op (w, ts) → state (sess w) = sessionOpen →
  (∃ id tm, timers (sess w) !! id = Some tm ∧
     (fires tm = CbSendPing ∧ duration tm = pingInterval c ∨
      fires tm = CbPingTimeout ∧ duration tm = pingTimeout c)) ∨
  awaits beat (concat ts).
Proof.
  intros Hr Hs. rewrite <- (options_kept _ _ _ _ _ Hr).
  destruct (always_ids _ _ _ _ _ Hr) as [Hok Hids].
  destruct (always_beat _ _ _ _ _ Hr Hs) as [[Ha|Ha]|?]; [left|left|by right].
  all: destruct (Ha) as (id & E & _); exists id;
    destruct (armed_fires _ _ _ Hok Hids E Ha) as (tm & Ht & H1 & H2 & _); eauto.
Qed.

(** C29. A session that is closing gracefully does close: its fallback timer is armed with
    the ping timeout and will force the close, or a goroutine is about to arm it or to
    close the session. *)
Theorem closing_ends c k op w ts :
  reachable c k op (w, ts) → state (sess w) = sessionClosing →
  (∃ id tm, timers (sess w) !! id = Some tm ∧
     fires tm = CbForcedClose ∧ duration tm = pingTimeout c) ∨
  awaits arms (concat ts).
Proof.
  intros Hr Hs. rewrite <- (options_kept _ _ _ _ _ Hr).
  destruct (always_ids _ _ _ _ _ Hr) as [Hok Hids].
  destruct (always_closing _ _ _ _ _ Hr Hs) as [H1 H2].
  destruct (closeTimer (sess w)) as [id|] eqn:E; [|by auto].
  destruct H2 as [Ha|(i & Hi & Hc)]; [done|left|right].
  - rewrite <- E in Ha. destruct (armed_fires _ _ _ Hok Hids E Ha) as (tm & Ht & _ & _ & H).
    eauto.
  - exists i. split; [done|]. by destruct i.
Qed.
