(* ===== verification/SessionTransports.v ===== *)
(** * The transports of a session

    Who is responsible for closing each transport.  Every transport a goroutine refers
    to exists; every one that is open is the session's, or some goroutine is about to
    close it or to hand it to the session; and every one that is closed has had its
    connection torn down, or is about to. *)
From S2P Require Import Prelude Machine Packet ServerOptions ServerTransport ServerSocket.
From S2P Require Import SessionMachine SessionState SessionLiveness.

(** ** References *)

(** The addresses of stream transports. *)
Definition sref (t : tref) : list nat :=
  match tkind t with KPolling => [] | _ => [addr t] end.

Definition refs (i : instr) : list nat :=
  match i with
  | IHandshake t _ | IFlushSend t _ | ITransportClose t => sref t
  | ISpawnRead t | IStreamLock _ t _ | IStreamWrite _ t _ _ | IConnClose t
  | IStartUpgrade t | ICompleteUpgrade t | IPromote t | IAbortUpgrade t | IReadLoop t
  | IReadFailed t _ | IFrameRejected t _ | IDispatch t _ | IProbePong t
  | IProbePongWrite t => [addr t]
  | _ => []
  end.

Definition sess_refs (s : ServerSocket) : list nat :=
  (option_list (transport s) ≫= sref) ++ (addr <$> option_list (upgradeTransport s)).

Definition inv_refs : invariant := λ w P,
  (∀ a, a ∈ gather refs P ++ sess_refs (sess w) → a ∈ dom (streams w)) ∧
  ∀ a, a ∈ dom (streams w) → (a < nextStream w)%nat.

#[export] Instance inv_refs_multiset : Multiset inv_refs.
Proof. intros w P Q H. unfold inv_refs. by setoid_rewrite H. Qed.

Lemma sref_addr t a : a ∈ sref t → a = addr t.
Proof. unfold sref. destruct (tkind t); set_solver. Qed.

Lemma effect_transport i s :
  transport (effect i s) = transport s ∨ transport (effect i s) = None ∨
  ∃ t, i = ICompleteUpgrade t ∧ transport (effect i s) = Some t.
Proof.
  destruct i; auto; destruct s; cbn [effect]; repeat case_match; sess_norm;
    repeat (inner_case; sess_norm); eauto.
Qed.

Lemma effect_upgrade i s :
  upgradeTransport (effect i s) = upgradeTransport s ∨
  upgradeTransport (effect i s) = None ∨
  ∃ t, i = IStartUpgrade t ∧ upgradeTransport (effect i s) = Some t.
Proof.
  destruct i; auto; destruct s; cbn [effect]; repeat case_match; sess_norm;
    repeat (inner_case; sess_norm); eauto.
Qed.

Lemma effect_refs i s a : a ∈ sess_refs (effect i s) → a ∈ refs i ++ sess_refs s.
Proof.
  unfold sess_refs. intros [Ha|Ha]%elem_of_app; apply elem_of_app.
  - destruct (effect_transport i s) as [E|[E|(t & -> & E)]]; rewrite E in Ha.
    + right. by apply elem_of_app; left.
    + by apply not_elem_of_nil in Ha.
    + left. cbn in Ha. rewrite app_nil_r in Ha. apply sref_addr in Ha as ->. by left.
  - destruct (effect_upgrade i s) as [E|[E|(t & -> & E)]]; rewrite E in Ha.
    + right. by apply elem_of_app; right.
    + by apply not_elem_of_nil in Ha.
    + by left.
Qed.

Lemma refs_api calls : gather refs (api_instr <$> calls) = [].
Proof. apply gather_fmap. by intros []. Qed.
Lemma refs_handle ps : gather refs (IHandlePacket <$> ps) = [].
Proof. by apply gather_fmap. Qed.
Lemma refs_handshake t err x : x ∈ gather refs (handshake_rest t err) → x ∈ sref t.
Proof.
  unfold handshake_rest, sref. destruct err, (tkind t) eqn:E; cbn; unfold sref; rewrite ?E;
    set_solver.
Qed.

Lemma refs_sent k t ps sent err x : x ∈ gather refs (sent_to k t ps sent err) → x ∈ sref t.
Proof. destruct k; cbn [sent_to]; [set_solver|apply refs_handshake]. Qed.

Lemma refs_teardown s td s' reason cause x :
  beginTeardown s = (td, s') → x ∈ gather refs (teardown_rest reason cause td) →
  x ∈ sess_refs s.
Proof.
  unfold beginTeardown. case_decide; intros [= <- <-]; [set_solver|].
  unfold teardown_rest, sess_refs. cbn [td_transport td_upgrade td_stop td_handler].
  rewrite !gather_app, !gather_opt, !elem_of_app. intros [H1|[H1|[H1|[H1|H1]]]].
  - by destruct (probeNoopStop s); apply not_elem_of_nil in H1.
  - left. destruct (transport s); [|done]. cbn. by rewrite app_nil_r.
  - right. destruct (upgradeTransport s); [|done]. apply sref_addr in H1 as ->. by left.
  - by apply not_elem_of_nil in H1.
  - by destruct (onCloseHandler s); apply not_elem_of_nil in H1.
Qed.

(** A polling transport neither writes to a connection nor closes one. *)
Lemma polling_send_plan p p' : Polling.send p ≠ (Writing, p').
Proof. unfold Polling.send. by repeat case_match. Qed.
Lemma polling_close_plan p p' : Polling.close p ≠ (CloseConn, p').
Proof. unfold Polling.close. by repeat case_match. Qed.

Lemma run_refs o i w w' push spawn a :
  exec o i w = Next w' push spawn →
  a ∈ gather refs push ++ gather refs (concat spawn) → a ∈ refs i ++ sess_refs (sess w).
Proof.
  intros He. destruct i; exec_cases He; rewrite ?refs_api, ?app_nil_r;
    try (by intros ?%elem_of_nil); try (intros ?; by apply elem_of_app; left);
    try (by intros ->%list_elem_of_singleton; left).
  all: rewrite ?gather_app, ?gather_opt.
  all: try (intros ?%(refs_handshake t None); set_solver).
  all: try (intros ->%refs_sent%sref_addr; by left).
  all: try (intros; eapply refs_teardown; eauto; done).
  all: try match goal with H : Polling.send _ = _ |- _ => by apply polling_send_plan in H end.
  all: try match goal with H : Polling.close _ = _ |- _ => by apply polling_close_plan in H end.
  all: try (unfold sref; case_match; set_solver).
  all: try (intros [Ht|Ht]%elem_of_app).
  - unfold flush_take in H. unfold sess_refs. repeat case_match; simplify_eq.
    intros Ha. apply elem_of_app. left. cbn. by rewrite app_nil_r.
  - by eapply refs_teardown.
  - by apply not_elem_of_nil in Ht.
  - unfold beginCompleteUpgrade in H. unfold sess_refs. case_decide; simplify_eq/=.
    destruct (probeNoopStop (sess w)), (transport (sess w)); set_solver.
  - by destruct o1; apply not_elem_of_nil in Ht.
  - revert Ht. cbn. rewrite app_nil_r. intros ->%sref_addr. by left.
  - set_solver.
  - set_solver.
Qed.

Lemma run_streams o i w w' push spawn :
  exec o i w = Next w' push spawn → (∀ a, a ∈ refs i → a ∈ dom (streams w)) →
  nextStream w' = nextStream w ∧ dom (streams w') = dom (streams w).
Proof.
  intros He. destruct i; exec_cases He; try done.
  all: intros Hk; split; [done|]; rewrite dom_insert_L;
    apply subseteq_union_1_L, singleton_subseteq_l, Hk; unfold sref;
    repeat case_match; try congruence; by left.
Qed.

Lemma always_refs : always inv_refs.
Proof.
  refine (always_intro _ _ always_sess_ok _). split.
  - intros c k op. unfold inv_refs, init, sref. cbn.
    destruct k; cbn; rewrite ?dom_empty_L, ?dom_singleton_L; set_solver by lia.
  - intros o i P w w' push spawn He _ [Hk Hn]. unfold inv_refs.
    destruct (run_streams _ _ _ _ _ _ He) as [-> ->].
    { intros a Ha. apply Hk. rewrite gather_cons. set_solver. }
    split; [|done]. intros a. rewrite !gather_app, (exec_effect _ _ _ _ _ _ He).
    pose proof (run_refs _ _ _ _ _ _ a He). pose proof (effect_refs i (sess w) a).
    specialize (Hk a). rewrite gather_cons in Hk. set_solver.
  - intros id tm P w Ht (_ & Hr & _) [Hk Hn]. split; [|done].
    intros a. rewrite gather_cons. apply Hr in Ht. unfold timer_role in Ht.
    specialize (Hk a). unfold sess_refs in *. cbn in *.
    destruct (fires tm); cbn; [by auto..| |by auto].
    destruct Ht as (_ & Ht & _). rewrite Ht in *. set_solver.
  - intros a P w w' th Ha _ [Hk Hn]. rewrite <- (arrive_sess _ _ _ _ Ha) in Hk.
    unfold inv_refs. unfold arrive in Ha. repeat case_match; simplify_eq/=.
    all: rewrite ?gather_app, ?refs_api, ?refs_handle; try by split.
    all: rewrite dom_insert_L. all: split; [set_solver|].
    all: intros b [->%elem_of_singleton|Hb%Hn]%elem_of_union; lia.
Qed.

(** ** Who closes a transport *)

Definition closing (i : instr) : list nat :=
  match i with ITransportClose t | IStartUpgrade t => sref t | _ => [] end.
Definition tearing (i : instr) : list nat :=
  match i with IConnClose t => [addr t] | _ => [] end.
#[export] Instance tearing_boring : Boring tearing.
Proof. by intros []. Qed.

Definition owned (s : ServerSocket) : list nat :=
  (option_list (transport s) ≫= sref) ++ (option_list (upgradeTransport s) ≫= sref).

Definition inv_conn : invariant := λ w P, ∀ a, a ∈ dom (streams w) →
  (Stream.closed (streams w !!! a) = true →
   Stream.connClosed (streams w !!! a) = true ∨ a ∈ gather tearing P) ∧
  (Stream.closed (streams w !!! a) = false → a ∈ owned (sess w) ++ gather closing P).

#[export] Instance inv_conn_multiset : Multiset inv_conn.
Proof. intros w P Q H. unfold inv_conn. by setoid_rewrite H. Qed.

(** What one step does to one stream. *)
Inductive stream_step (a : nat) (i : instr) (push : list instr) :
    Stream.streamTransport → Stream.streamTransport → Prop :=
| Sm_same st st' :
    Stream.closed st' = Stream.closed st → Stream.connClosed st' = Stream.connClosed st →
    a ∉ tearing i → stream_step a i push st st'
| Sm_close st st' :
    Stream.closed st' = true → a ∈ gather tearing push → stream_step a i push st st'
| Sm_tear st st' :
    Stream.connClosed st' = true → Stream.closed st' = Stream.closed st →
    stream_step a i push st st'.

Lemma stream_step_insert b i push (m : gmap nat Stream.streamTransport) st a :
  stream_step b i push (m !!! b) st → (a ≠ b → a ∉ tearing i) →
  stream_step a i push (m !!! a) (<[b := st]> m !!! a).
Proof.
  intros Hst Hne. destruct (decide (a = b)) as [->|Hab].
  - by rewrite lookup_total_insert_eq.
  - rewrite lookup_total_insert_ne by done. apply Sm_same; auto.
Qed.

Lemma run_stream o i w w' push spawn a :
  exec o i w = Next w' push spawn →
  stream_step a i push (streams w !!! a) (streams w' !!! a).
Proof.
  intros He. destruct i; exec_cases He; try (by apply Sm_same; [..|apply not_elem_of_nil]).
  all: apply stream_step_insert; [|cbn; set_solver].
  all: unfold Stream.send, Stream.close in *; repeat case_match; simplify_eq/=;
    try (apply Sm_same; done || apply not_elem_of_nil); try by apply Sm_tear.
  all: apply Sm_close; [done|by left].
Qed.

(** The instructions that change what the session owns. *)
Definition rehomes (i : instr) : bool :=
  match i with
  | IStartUpgrade _ | ICompleteUpgrade _ | IAbortUpgrade _ | IFlushClose _ _
  | ICloseWithReason _ _ => true
  | _ => false
  end.

Lemma effect_owned i s : rehomes i = false → owned (effect i s) = owned s.
Proof.
  intros Hi. destruct i; try done; destruct s; cbn [effect]; repeat case_match; sess_norm;
    repeat (inner_case; sess_norm); done.
Qed.

Lemma owned_teardown s td s' reason cause a :
  beginTeardown s = (td, s') → a ∈ owned s →
  a ∈ owned s' ++ gather closing (teardown_rest reason cause td).
Proof.
  unfold beginTeardown. case_decide; intros [= <- <-] Ha; [by apply elem_of_app; left|].
  apply elem_of_app. right. unfold teardown_rest, owned in *.
  cbn [td_transport td_upgrade td_stop td_handler].
  rewrite !gather_app, !gather_opt. rewrite elem_of_app in Ha.
  destruct (transport s), (upgradeTransport s); cbn in *; rewrite ?app_nil_r in Ha;
    rewrite !elem_of_app; try tauto.
  all: destruct Ha as [Ha|Ha]; try tauto; by apply not_elem_of_nil in Ha.
Qed.

Lemma owned_start t s ok s' a :
  startUpgrade t s = (ok, s') → control_ok s → a ∈ owned s ++ sref t →
  a ∈ owned s' ++ (if ok : bool then [] else sref t).
Proof.
  intros H [Hc1 _ _ _ _ _ _ _ _] Ha. unfold startUpgrade in H.
  destruct (upgrading s) eqn:Hu; repeat case_match; simplify_eq; try done.
  assert (upgradeTransport s = None) as E by (destruct (upgradeTransport s); naive_solver).
  unfold owned in *. cbn in *. rewrite E in Ha. cbn in Ha. rewrite ?app_nil_r in *.
  unfold AfterFunc in *. simplify_eq/=. by rewrite app_nil_r.
Qed.

Lemma owned_complete t s old stop s' a :
  beginCompleteUpgrade t s = (Some (old, stop), s') → a ∈ owned s →
  a ∈ owned s' ++ (option_list old ≫= sref).
Proof.
  unfold beginCompleteUpgrade. case_decide as Hd; [done|]. intros [= <- <- <-].
  apply Decidable.not_or in Hd as [_ Hd]. apply dec_stable in Hd. unfold owned. cbn.
  rewrite Hd. cbn. rewrite ?app_nil_r, !elem_of_app. tauto.
Qed.

Lemma owned_abort t s stop s' a :
  beginAbortUpgrade t s = (Some stop, s') → a ∈ owned s → a ∈ owned s' ++ sref t.
Proof.
  unfold beginAbortUpgrade. case_decide as Hd; [done|]. intros [= <- <-].
  apply Decidable.not_or in Hd as [_ Hd]. apply dec_stable in Hd. unfold owned. cbn.
  rewrite Hd. cbn. by rewrite ?app_nil_r.
Qed.

(** What leaves the session is about to be closed. *)
Lemma run_owned o i w w' push spawn a :
  exec o i w = Next w' push spawn → control_ok (sess w) → rehomes i = true →
  a ∈ owned (sess w) ++ closing i → a ∈ owned (sess w') ++ gather closing push.
Proof.
  intros He Hc Hi. destruct i; try done; cbn [exec closing] in *; rewrite ?app_nil_r.
  - unfold exec_closeWithReason in He. destruct (beginTeardown (sess w)) eqn:E. simplify_eq.
    rewrite gather_app. intros Ha. cbn. rewrite app_nil_r. by eapply owned_teardown.
  - unfold exec_closeWithReason in He. destruct (beginTeardown (sess w)) eqn:E. simplify_eq.
    rewrite app_nil_r. intros Ha. by eapply owned_teardown.
  - destruct (startUpgrade t (sess w)) as [[] s] eqn:E; simplify_eq; intros Ha;
      apply (owned_start _ _ _ _ _ E Hc) in Ha; [done|]. cbn. by rewrite app_nil_r.
  - unfold exec_completeUpgrade in He.
    destruct (beginCompleteUpgrade t (sess w)) as [[[old stop]|] s] eqn:E; simplify_eq;
      intros Ha.
    + apply (owned_complete _ _ _ _ _ _ E) in Ha.
      cbn [app]. rewrite gather_cons, !gather_app, !gather_opt, !elem_of_app.
      apply elem_of_app in Ha as [?|Ha]; [by left|]. do 3 right. left.
      destruct old; [|done]. cbn in Ha. by rewrite app_nil_r in Ha.
    + unfold beginCompleteUpgrade in E. case_decide; simplify_eq. cbn. by rewrite app_nil_r.
  - unfold exec_abortUpgrade in He.
    destruct (beginAbortUpgrade t (sess w)) as [[stop|] s] eqn:E; simplify_eq; intros Ha.
    + apply (owned_abort _ _ _ _ _ E) in Ha. rewrite !gather_app, !elem_of_app. cbn.
      rewrite app_nil_r. apply elem_of_app in Ha as [?|?]; auto.
    + unfold beginAbortUpgrade in E. case_decide; simplify_eq. cbn. by rewrite app_nil_r.
Qed.

Lemma run_close o t w w' push spawn a :
  exec o (ITransportClose t) w = Next w' push spawn → a ∈ sref t →
  Stream.closed (streams w' !!! a) = true.
Proof.
  cbn [exec]. unfold exec_transport_close, transport_close, sref. intros He.
  destruct (tkind t); intros Ha; [by apply not_elem_of_nil in Ha|..];
    apply list_elem_of_singleton in Ha as ->; cbn in He; unfold Stream.close in He;
    destruct (Stream.closed (streams w !!! addr t)) eqn:E; simplify_eq/=;
    by rewrite lookup_total_insert_eq.
Qed.

(** An open transport keeps someone responsible for it. *)
Lemma run_responsible o i w w' push spawn a :
  exec o i w = Next w' push spawn → control_ok (sess w) →
  Stream.closed (streams w' !!! a) = false →
  a ∈ owned (sess w) ++ closing i → a ∈ owned (sess w') ++ gather closing push.
Proof.
  intros He Hc Hcl Ha. destruct (rehomes i) eqn:Hi; [by eapply run_owned|].
  apply elem_of_app in Ha as [Ha|Ha]; apply elem_of_app.
  - left. by rewrite (exec_effect _ _ _ _ _ _ He), effect_owned.
  - destruct i; try (by apply not_elem_of_nil in Ha); [|done].
    eapply run_close in He; [|done]. congruence.
Qed.

Lemma always_conn : always inv_conn.
Proof.
  refine (always_intro _ _ (always_and _ _ always_sess_ok always_refs) _). split.
  - intros c k op. unfold inv_conn, init, owned. cbn.
    destruct k; intros a Ha; [done|..]; apply elem_of_dom in Ha as [st Hst];
      apply lookup_singleton_Some in Hst as [<- _];
      rewrite lookup_total_singleton_eq; (split; [done|]); by left.
  - intros o i P w w' push spawn He [(Hc & _) [Hr _]] HI a Ha.
    destruct (run_streams _ _ _ _ _ _ He) as [_ Hd].
    { intros b Hb. apply Hr. rewrite gather_cons. set_solver. }
    rewrite Hd in Ha. destruct (HI a Ha) as [HA HB]. clear HI Hr Ha Hd.
    rewrite !gather_app. rewrite gather_cons in HA, HB. rewrite !elem_of_app in *.
    pose proof (run_responsible _ _ _ _ _ _ a He Hc) as Hres. rewrite !elem_of_app in Hres.
    destruct (run_stream _ _ _ _ _ _ a He) as [st st' E1 E2 Hn|st st' E Hin|st st' E1 E2].
    + rewrite E1, E2 in *. split; [|tauto]. intros Ht. destruct (HA Ht) as [?|[?|?]]; tauto.
    + rewrite E in *. split; [tauto|done].
    + rewrite E1, E2 in *. split; tauto.
  - intros id tm P w Ht _ HI a Ha. destruct (HI a Ha) as [HA HB].
    split; [|intros Hcl; apply HB in Hcl]; rewrite gather_cons; set_solver.
  - intros a P w w' th Ha [_ [_ Hn]] HI b Hb. rewrite (arrive_sess _ _ _ _ Ha).
    unfold arrive in Ha. repeat case_match; simplify_eq/=; try by apply HI.
    all: rewrite ?gather_app, ?gather_fmap by (by intros []); try by apply HI.
    all: destruct (decide (b = nextStream w)) as [->|Hne];
      [rewrite lookup_total_insert_eq; split; [done|set_solver]|].
    all: rewrite dom_insert_L in Hb; apply elem_of_union in Hb as [Hb|Hb]; [set_solver|].
    all: rewrite lookup_total_insert_ne by done; destruct (HI b Hb) as [HA HB];
      split; [done|set_solver].
Qed.

(** C25. No connection outlives its session: once a session is closed, every stream
    transport it ever had, active, upgraded, aborted or refused, has had its connection
    torn down, or some goroutine is about to close it. *)
Theorem connections_released c k op w ts a :
  reachable c k op (w, ts) → state (sess w) = sessionClosed → a ∈ dom (streams w) →
  Stream.connClosed (streams w !!! a) = true ∨
  a ∈ gather tearing (concat ts) ++ gather closing (concat ts).
Proof.
  intros Hr Hs Ha. rewrite elem_of_app.
  destruct (always_conn _ _ _ _ _ Hr a Ha) as [HA HB].
  destruct (closed_released _ (always_sess_ok _ _ _ _ _ Hr) Hs) as [Ht [Hu _] _ _ _].
  destruct (Stream.closed (streams w !!! a)); [destruct HA; auto|].
  right. right. specialize (HB eq_refl). unfold owned in HB. by rewrite Ht, Hu in HB.
Qed.
