(* ===== verification/SessionWakeup.v ===== *)
(** * No lost wakeup

    A packet that can be delivered is on its way: whenever packets are buffered and the
    active transport would accept them, some goroutine is about to flush. *)
From S2P Require Import Prelude Machine Packet ServerOptions ServerTransport ServerSocket.
From S2P Require Import SessionMachine SessionState SessionFlush SessionPolls.
From S2P Require Import SessionLiveness SessionTransports.

(** The transport would accept a batch: a poll is held, or the connection is open. *)
Definition accepts (t : tref) (w : World) : Prop :=
  match tkind t with
  | KPolling => Polling.closed (polling w) = false ∧ Polling.dataCh (polling w) ≠ None
  | _ => Stream.closed (streams w !!! addr t) = false
  end.

Definition deliverable (w : World) : Prop :=
  writeBuffer (sess w) ≠ [] ∧ ∃ t, transport (sess w) = Some t ∧ accepts t w.

(** About to flush, flushing without having been refused, or about to close. *)
Definition wakes (i : instr) : bool :=
  match i with
  | IFlush | IFlushLoop | IFlushSend _ _ | IStreamLock ForFlush _ _
  | IStreamWrite ForFlush _ _ _ | IFlushSent _ true _ | IFlushSent _ _ (Some _)
  | IFlushClose _ _ | ICloseWithReason _ _ => true
  | _ => false
  end.

(** ** A flush that took the wrong transport is followed by another *)

Definition is_loop (i : instr) : bool := match i with IFlushLoop => true | _ => false end.

Definition target (i : instr) : list tref :=
  match i with IFlushSend t _ => [t] | _ => [] end.
#[export] Instance target_boring : Boring target.
Proof. by intros []. Qed.

Definition inv_stale : invariant := λ w P,
  ∀ t, t ∈ gather target P →
  transport (sess w) = Some t ∨ transport (sess w) = None ∨ IFlush ∈ P.

#[export] Instance inv_stale_multiset : Multiset inv_stale.
Proof. intros w P Q H. unfold inv_stale. by setoid_rewrite H. Qed.

(** The active transport changes at the end of an upgrade, and a flush follows. *)
Lemma run_transport o i w w' push spawn :
  exec o i w = Next w' push spawn →
  transport (sess w') = transport (sess w) ∨ transport (sess w') = None ∨ IFlush ∈ push.
Proof.
  intros He. pose proof (exec_effect _ _ _ _ _ _ He) as Hw. rewrite Hw.
  destruct (effect_transport i (sess w)) as [?|[?|(t & -> & _)]]; [by auto..|].
  cbn [exec effect] in *. unfold exec_completeUpgrade in He.
  unfold beginCompleteUpgrade in *. case_decide; cbn in *; [by left|]. simplify_eq.
  right. right. set_solver.
Qed.

(** [flush] sends to the transport it read. *)
Lemma run_target o i w w' push spawn :
  exec o i w = Next w' push spawn →
  gather target (concat spawn) = [] ∧
  (gather target push = [] ∨
   ∃ t, gather target push = [t] ∧ transport (sess w') = Some t).
Proof.
  intros He. destruct (is_loop i) eqn:Hi.
  - destruct i; try done. cbn in He.
    destruct (flush_take (sess w)) as [[packets t']|] eqn:Ht; simplify_eq/=; [|by auto].
    split; [done|]. right. exists t'. split; [done|].
    unfold flush_take in Ht. by repeat case_match; simplify_eq.
  - assert (gather target (concat spawn) = [] ∧ gather target push = []) as [-> ->];
      [|by auto].
    destruct i; try done; exec_cases He; autorewrite with gather;
      try (split; by repeat case_match).
    all: split; [done|]; destruct k; [done|]; cbn [sent_to]; by rewrite gather_handshake by apply _.
Qed.

Lemma target_token t P : t ∈ gather target P → tokens P ≠ [].
Proof.
  intros (i & Ht & Hi)%list_elem_of_bind E. destruct i; try by apply not_elem_of_nil in Ht.
  eapply (gather_in token) in Hi; [|by left]. rewrite E in Hi. by apply not_elem_of_nil in Hi.
Qed.

Lemma always_stale : always inv_stale.
Proof.
  refine (always_intro _ _ always_flush _). split.
  - intros c k op t Ht. by apply not_elem_of_nil in Ht.
  - intros o i P w w' push spawn He [Hm _] HI t Ht.
    destruct (run_target _ _ _ _ _ _ He) as [Hsp Hpu].
    rewrite !gather_app, Hsp in Ht. cbn [app] in Ht. apply elem_of_app in Ht as [Ht|Ht].
    { destruct Hpu as [E|(t' & E & Hs)]; rewrite E in Ht; [by apply not_elem_of_nil in Ht|].
      apply list_elem_of_singleton in Ht as ->. by left. }
    destruct (run_transport _ _ _ _ _ _ He) as [->|[?|?]]; [|by auto|set_solver].
    destruct (HI t) as [?|[?|Hin]]; [|by auto..|].
    { rewrite gather_cons. set_solver. }
    apply elem_of_cons in Hin as [<-|Hin]; [|set_solver].
    cbn in He. destruct (flushMu w); [done|]. destruct Hm as [Hm _].
    destruct (target_token _ _ Ht). by apply Hm.
  - intros id tm P w _ _ HI t Ht. rewrite gather_cons in Ht.
    assert (target (callback_instr (fires tm)) = []) as E by (by destruct (fires tm)).
    rewrite E in Ht. destruct (HI t Ht) as [?|[?|?]]; set_solver.
  - intros a P w w' th Ha _ HI t Ht. rewrite (arrive_sess _ _ _ _ Ha).
    assert (gather target th = []) as E.
    { unfold arrive in Ha. repeat case_match; simplify_eq/=; autorewrite with gather; done. }
    rewrite gather_app, E in Ht. destruct (HI t Ht) as [?|[?|?]]; set_solver.
Qed.

(** ** The invariant *)

Definition inv_wake : invariant := λ w P, deliverable w → awaits wakes P.

#[export] Instance inv_wake_multiset : Multiset inv_wake.
Proof. intros w P Q H. unfold inv_wake. by rewrite H. Qed.

(** Transports become ready only when a poll is held. *)
Definition ready (p : Polling.serverPollingTransport) : Prop :=
  Polling.closed p = false ∧ Polling.dataCh p ≠ None.

Definition calmer (w w' : World) : Prop :=
  (ready (polling w') → ready (polling w)) ∧
  ∀ a, Stream.closed (streams w' !!! a) = false → Stream.closed (streams w !!! a) = false.

Lemma calmer_accepts w w' t : calmer w w' → accepts t w' → accepts t w.
Proof. intros [Hp Hs]. unfold accepts. destruct (tkind t); auto. Qed.

Lemma calmer_insert (m : gmap nat Stream.streamTransport) a st b :
  (Stream.closed st = false → Stream.closed (m !!! a) = false) →
  Stream.closed (<[a := st]> m !!! b) = false → Stream.closed (m !!! b) = false.
Proof.
  intros Hst. destruct (decide (a = b)) as [->|Hne].
  - by rewrite lookup_total_insert_eq.
  - by rewrite lookup_total_insert_ne.
Qed.

Lemma run_accepts o i w w' push spawn :
  exec o i w = Next w' push spawn → calmer w w' ∨ IFlush ∈ push.
Proof.
  intros He. unfold calmer. destruct i; exec_cases He; try (left; done).
  all: unfold Stream.send, Stream.close, Polling.send, Polling.close, Polling.hold,
    Polling.release, Polling.writeNoop in *; repeat case_match; simplify_eq/=;
    try (right; set_solver); left; (split; [try done|try done]).
  all: try (intros b; apply calmer_insert; done).
  all: by intros [??].
Qed.

Lemma effect_buffer i s :
  writeBuffer (effect i s) ≠ [] → writeBuffer s ≠ [] ∨ i = ISendPing ∨ i = IClose ∨
  ∃ d b, i = ISend d b.
Proof.
  intros H. destruct (decide (writeBuffer s = [])) as [E|]; [right|by left].
  revert H. destruct i; eauto; destruct s; cbn [effect ServerSocket.writeBuffer] in *;
    repeat case_match; sess_norm; repeat (inner_case; sess_norm); cbn; subst; try done.
  by rewrite drop_nil.
Qed.

(** Packets are buffered in three places, and a flush follows each. *)
Lemma run_buffer o i w w' push spawn :
  exec o i w = Next w' push spawn → writeBuffer (sess w') ≠ [] →
  writeBuffer (sess w) ≠ [] ∨ IFlush ∈ push.
Proof.
  intros He Hw. rewrite (exec_effect _ _ _ _ _ _ He) in Hw.
  destruct (effect_buffer _ _ Hw) as [?|[->|[->|(d & b & ->)]]]; [by auto|..];
    cbn [exec effect] in *; unfold sendPing, beginClose, Send in *;
    (case_decide; simplify_eq/=; [by left|right; set_solver]).
Qed.

Lemma awaits_flush P : IFlush ∈ P → awaits wakes P.
Proof. by exists IFlush. Qed.

(** A goroutine on its way to deliver stays on its way until there is nothing to
    deliver, unless [flush] took a transport that is no longer the active one. *)
Lemma take_deliverable w : sess_ok (sess w) → deliverable w → flush_take (sess w) ≠ None.
Proof.
  intros ([_ _ _ _ H5 _ _ _ _] & _) [Hb (t & Ht & _)]. unfold flush_take.
  case_decide; [|by rewrite Ht; destruct (writeBuffer (sess w))]. naive_solver.
Qed.

Lemma send_deliverable t w p w' :
  transport_send t w = (p, w') → accepts t w' → p ≠ Refused.
Proof.
  unfold transport_send, accepts. intros H Ha ->. cbn in H.
  unfold Stream.send, Polling.send in H.
  destruct (tkind t).
  - destruct Ha as [Hc Hd].
    destruct (Polling.closed (polling w)) eqn:?, (Polling.dataCh (polling w)) eqn:?;
      simplify_eq/=; congruence.
  - case_match; simplify_eq. revert Ha. cbn. rewrite lookup_total_insert_eq. congruence.
  - case_match; simplify_eq. revert Ha. cbn. rewrite lookup_total_insert_eq. congruence.
Qed.

Lemma drop_deliverable ps s s' :
  flush_drop ps s = (FlushReturn, s') → writeBuffer s' ≠ [] → state s' = sessionClosed.
Proof.
  unfold flush_drop. intros H Hb. simplify_eq.
  repeat case_match; simplify_eq; repeat case_bool_decide; done.
Qed.

Lemma teardown_deliverable w : sess_ok (sess w) → ¬ deliverable (set_sess (beginTeardown (sess w)).2 w).
Proof.
  intros ([_ _ _ _ H5 _ _ _ _] & _) [_ (t & Ht & _)]. revert Ht. cbn.
  unfold beginTeardown. case_decide; [|done]. cbn. naive_solver.
Qed.

Lemma run_woken o i w w' push spawn :
  exec o i w = Next w' push spawn → sess_ok (sess w) → sess_ok (sess w') →
  wakes i = true → deliverable w' →
  awaits wakes push ∨ ∃ t, t ∈ target i ∧ transport (sess w') ≠ Some t.
Proof.
  intros He Hok Hok' Hi Hd. destruct i; try done; cbn [exec] in He.
  - destruct (flushMu w); simplify_eq. rewrite awaits_cons. auto.
  - pose proof (take_deliverable w) as Ht.
    destruct (flush_take (sess w)) as [[packets t]|]; simplify_eq; [|by destruct Ht].
    rewrite awaits_cons. auto.
  - unfold exec_send in He. destruct (transport_send t w) as [p w2] eqn:E.
    destruct (decide (transport (sess w') = Some t)) as [Ht|]; [|right; set_solver].
    left. destruct p; simplify_eq/=; [|rewrite !awaits_cons; auto..].
    destruct Hd as [_ (t' & Ht' & Ha)]. simplify_eq. by apply send_deliverable in E.
  - destruct k; [|done]. unfold exec_stream_lock in He. case_match; simplify_eq.
    rewrite awaits_cons. auto.
  - destruct k; [|done]. left. unfold exec_stream_write in He.
    repeat case_match; simplify_eq; cbn [sent_to]; rewrite awaits_cons; auto.
  - left. unfold exec_flush_sent in He. destruct err as [e|].
    { simplify_eq. rewrite awaits_cons. auto. }
    destruct sent; [|done]. cbn [negb] in He.
    destruct (flush_drop packets (sess w)) as [[] s] eqn:E; simplify_eq/=;
      rewrite awaits_cons; auto. exfalso.
    destruct Hd as [Hb (t & Ht & _)]. apply drop_deliverable in E; [|done].
    destruct Hok' as ([_ _ _ _ H5 _ _ _ _] & _). naive_solver.
  - destruct (teardown_deliverable w Hok). unfold exec_closeWithReason in He.
    by destruct (beginTeardown (sess w)); simplify_eq.
  - destruct (teardown_deliverable w Hok). unfold exec_closeWithReason in He.
    by destruct (beginTeardown (sess w)); simplify_eq.
Qed.

Lemma run_deliverable o i w w' push spawn :
  exec o i w = Next w' push spawn → deliverable w' → deliverable w ∨ IFlush ∈ push.
Proof.
  intros He [Hb (t & Ht & Ha)].
  destruct (run_buffer _ _ _ _ _ _ He Hb) as [Hb'|?]; [|by auto].
  destruct (run_transport _ _ _ _ _ _ He) as [E|[E|?]]; [|congruence|by auto].
  destruct (run_accepts _ _ _ _ _ _ He) as [Hc|?]; [|by auto].
  left. split; [done|]. exists t. split; [congruence|]. by eapply calmer_accepts.
Qed.

Lemma arrive_deliverable a w w' th P :
  arrive a w = Some (w', th) → inv_refs w P → deliverable w' → deliverable w.
Proof.
  intros Ha [Hk Hn] [Hb (t & Ht & Hacc)]. rewrite (arrive_sess _ _ _ _ Ha) in *.
  split; [done|]. exists t. split; [done|].
  assert (tkind t ≠ KPolling → (addr t < nextStream w)%nat) as Hlt.
  { intros Hp. apply Hn, Hk, elem_of_app. right. unfold sess_refs. rewrite Ht. cbn.
    apply elem_of_app. left. unfold sref. destruct (tkind t); [done|by left..]. }
  unfold arrive in Ha. unfold accepts in *. repeat case_match; simplify_eq/=; try done.
  all: by rewrite lookup_total_insert_ne in Hacc by (specialize (Hlt ltac:(done)); lia).
Qed.

Lemma always_wake : always inv_wake.
Proof.
  refine (always_intro _ _ (always_and _ _ always_sess_ok (always_and _ _ always_stale always_refs)) _).
  split.
  - by intros c k op [Hb _].
  - intros o i P w w' push spawn He (Hok & Hst & _) HI Hd. rewrite !awaits_app.
    assert (sess_ok (sess w')) as Hok'
      by (eapply step_sess_ok; [by eapply exec_sess_step|done]).
    destruct (run_deliverable _ _ _ _ _ _ He Hd) as [Hdw|?]; [|by left; apply awaits_flush].
    specialize (HI Hdw). rewrite awaits_cons in HI. destruct HI as [Hi|?]; [|by auto].
    destruct (run_woken _ _ _ _ _ _ He Hok Hok' Hi Hd) as [?|(t & Ht & Hne)]; [by auto|].
    destruct (Hst t) as [E|[E|Hin]].
    { rewrite gather_cons. set_solver. }
    + rewrite (exec_effect _ _ _ _ _ _ He) in Hne. by destruct i; try set_solver.
    + destruct Hdw as [_ (? & ? & _)]. congruence.
    + right. right. apply awaits_flush. apply elem_of_cons in Hin as [<-|?]; [|done].
      by apply not_elem_of_nil in Ht.
  - intros id tm P w _ _ HI Hd. rewrite awaits_cons. auto.
  - intros a P w w' th Ha (_ & _ & Hr) HI Hd. rewrite awaits_app. right. apply HI.
    by eapply arrive_deliverable.
Qed.

(** ** A held poll is answered *)

(** About to close the polling transport. *)
Definition poll_closer (i : instr) : bool :=
  match i with ITransportClose t => bool_decide (tkind t = KPolling) | _ => false end.
Definition holding (i : instr) : bool := match i with IHold => true | _ => false end.

Definition inv_held : invariant := λ w P,
  awaits holding P ∨ Polling.dataCh (polling w) ≠ None →
  Polling.closed (polling w) = true ∨ activePollingTransport (sess w) = true ∨
  awaits poll_closer P.

#[export] Instance inv_held_multiset : Multiset inv_held.
Proof. intros w P Q H. unfold inv_held. by rewrite H. Qed.

Definition holders (i : instr) : list unit := if holding i then [()] else [].
#[export] Instance holders_boring : Boring holders.
Proof. by intros []. Qed.

Lemma awaits_holding P : awaits holding P ↔ gather holders P ≠ [].
Proof.
  induction P as [|i P IH]; [by rewrite awaits_nil|].
  rewrite awaits_cons, gather_cons, IH. unfold holders at 2. destruct (holding i); naive_solver.
Qed.

(** A poll is held only on the active polling transport. *)
Lemma run_holding o i w w' push spawn :
  exec o i w = Next w' push spawn →
  gather holders push ++ gather holders (concat spawn) = [] ∨
  activePollingTransport (sess w') = true.
Proof.
  intros He. destruct i; exec_cases He; autorewrite with gather;
    try (left; by repeat case_match); try by right.
  all: left; destruct k; [done|]; cbn [sent_to concat app];
    by rewrite gather_handshake by apply _.
Qed.

Lemma run_poll o i w w' push spawn :
  exec o i w = Next w' push spawn →
  (Polling.closed (polling w) = true ∨ poll_closer i = true → Polling.closed (polling w') = true) ∧
  (Polling.dataCh (polling w') ≠ None → Polling.dataCh (polling w) ≠ None ∨ holding i = true).
Proof.
  intros He. destruct i; exec_cases He; try (split; [by intros [?|?]|by left]).
  all: try (case_bool_decide; [congruence|]; split; [by intros [?|?]|by left]).
  all: unfold Polling.send, Polling.close, Polling.hold, Polling.release, Polling.writeNoop in *;
    repeat case_match; simplify_eq/=; split; by auto || by intros [?|?].
Qed.

(** A transport that stops being the active one is about to be closed. *)
Lemma effect_kept i s : rehomes i = false → transport (effect i s) = transport s.
Proof.
  intros Hi. destruct i; try done; destruct s; cbn [effect]; repeat case_match; sess_norm;
    repeat (inner_case; sess_norm); done.
Qed.

Lemma teardown_closes s td s' t reason cause :
  beginTeardown s = (td, s') → transport s = Some t →
  transport s' = Some t ∨ ITransportClose t ∈ teardown_rest reason cause td.
Proof.
  unfold beginTeardown. case_decide; intros [= <- <-] Ht; [by left|right].
  unfold teardown_rest. cbn. rewrite Ht, !elem_of_app. right. left. by left.
Qed.

Lemma run_leaves o i w w' push spawn t :
  exec o i w = Next w' push spawn → transport (sess w) = Some t →
  transport (sess w') = Some t ∨ ITransportClose t ∈ push.
Proof.
  intros He Ht. destruct (rehomes i) eqn:Hi;
    [|left; by rewrite (exec_effect _ _ _ _ _ _ He), effect_kept].
  destruct i; try done; cbn [exec] in He.
  - unfold exec_closeWithReason in He. destruct (beginTeardown (sess w)) eqn:E. simplify_eq.
    rewrite elem_of_app. destruct (teardown_closes _ _ _ _ reason cause E Ht); auto.
  - unfold exec_closeWithReason in He. destruct (beginTeardown (sess w)) eqn:E. simplify_eq.
    rewrite elem_of_app. destruct (teardown_closes _ _ _ _ reason cause E Ht); auto.
  - left. unfold startUpgrade, AfterFunc in He. by repeat case_match; simplify_eq/=.
  - unfold exec_completeUpgrade, beginCompleteUpgrade in He. case_decide; simplify_eq/=;
      [by left|right]. rewrite Ht, elem_of_cons, !elem_of_app. cbn. set_solver.
  - left. unfold exec_abortUpgrade, beginAbortUpgrade in He. by case_decide; simplify_eq/=.
Qed.

Lemma run_active o i w w' push spawn :
  exec o i w = Next w' push spawn → activePollingTransport (sess w) = true →
  activePollingTransport (sess w') = true ∨ awaits poll_closer push.
Proof.
  unfold activePollingTransport, as_polling. intros He Ha.
  destruct (transport (sess w)) as [t|] eqn:Ht; [|done].
  destruct (run_leaves _ _ _ _ _ _ _ He Ht) as [->|?]; [by left|right].
  by exists (ITransportClose t).
Qed.

Lemma always_held : always inv_held.
Proof.
  refine (always_intro _ _ always_true _). split.
  - intros c k op [Hh|Hd]; [|done]. exfalso. destruct Hh as (i & Hi & ?). set_solver.
  - intros o i P w w' push spawn He _ HI Hpre. unfold inv_held in HI.
    destruct (run_poll _ _ _ _ _ _ He) as [Hcl Hda].
    destruct (run_holding _ _ _ _ _ _ He) as [Hh|?]; [|by auto].
    apply app_nil in Hh as [Hh1 Hh2].
    assert (awaits holding (i :: P) ∨ Polling.dataCh (polling w) ≠ None) as Hpre'.
    { rewrite awaits_cons. rewrite !awaits_app, (awaits_holding push), Hh1 in Hpre.
      rewrite (awaits_holding (concat spawn)), Hh2 in Hpre. tauto. }
    rewrite !awaits_app. specialize (HI Hpre'). rewrite awaits_cons in HI.
    destruct HI as [?|[Ha|[?|?]]]; [by auto| |by auto..].
    destruct (run_active _ _ _ _ _ _ He Ha); auto.
  - intros id tm P w _ _ HI Hpre. unfold inv_held in *. rewrite !awaits_cons in *. cbn in *.
    assert (holding (callback_instr (fires tm)) = false) as E by (by destruct (fires tm)).
    rewrite E in Hpre. destruct Hpre as [[?|?]|?]; [done|..]; destruct HI as [?|[?|?]]; tauto.
  - intros a P w w' th Ha _ HI Hpre. unfold inv_held in *. rewrite awaits_app in *.
    rewrite (arrive_sess _ _ _ _ Ha).
    assert (polling w' = polling w ∧ gather holders th = []) as [Hp Hth].
    { unfold arrive in Ha. repeat case_match; simplify_eq/=; autorewrite with gather; done. }
    rewrite Hp in *. rewrite awaits_holding, Hth in Hpre. destruct HI as [?|[?|?]]; tauto.
Qed.

(** A closed polling transport holds no poll. *)
Definition poll_shut (p : Polling.serverPollingTransport) : Prop :=
  Polling.closed p = true → Polling.dataCh p = None.

Lemma run_shut o i w w' push spawn :
  exec o i w = Next w' push spawn → poll_shut (polling w) → poll_shut (polling w').
Proof.
  unfold poll_shut. intros He. destruct i; exec_cases He; try done.
  all: unfold Polling.send, Polling.close, Polling.hold, Polling.release, Polling.writeNoop in *;
    repeat case_match; simplify_eq/=; by auto || congruence.
Qed.

Lemma always_shut : always (λ w _, poll_shut (polling w)).
Proof.
  refine (always_intro _ _ always_true _). split; [done|..].
  - intros o i P w w' push spawn He _. by eapply run_shut.
  - done.
  - intros a P w w' th Ha _. unfold arrive in Ha. by repeat case_match; simplify_eq/=.
Qed.

(** ** Properties *)

(** C5. No lost wakeup: whenever packets are buffered and the active transport would take
    them, a held poll or an open connection, some goroutine is about to flush the buffer,
    is flushing it, or is about to close the session. *)
Theorem no_lost_wakeup c k op w ts :
  reachable c k op (w, ts) → deliverable w → awaits wakes (concat ts).
Proof. intros Hr. by apply (always_wake c k op w ts Hr). Qed.

(** C3. A held poll is never abandoned: while a poll is held, the polling transport is
    the active one, or some goroutine is about to close it and answer the poll. *)
Theorem held_poll_answered c k op w ts ch :
  reachable c k op (w, ts) → Polling.dataCh (polling w) = Some ch →
  activePollingTransport (sess w) = true ∨ awaits poll_closer (concat ts).
Proof.
  intros Hr Hd. destruct (always_held c k op w ts Hr) as [Hc|?]; [right; by rewrite Hd| |done].
  apply (always_shut _ _ _ _ _ Hr) in Hc. congruence.
Qed.
