(* ===== verification/SessionEnd.v ===== *)
(** * The end of a session

    The close handler runs at most once, and a closed session leaves the store. *)
From S2P Require Import Prelude Machine Packet ServerOptions ServerTransport ServerSocket.
From S2P Require Import SessionMachine SessionState SessionLiveness.

(** Calls of the close handler, made and to be made. *)
Definition ev_close (e : event) : nat := match e with EvClose _ _ _ => 1 | _ => 0 end.
Definition made (l : list event) : nat := sum_list (ev_close <$> l).
Definition calling (i : instr) : nat := match i with ICallClose _ _ _ => 1 | _ => 0 end.
Definition due (P : list instr) : nat := sum_list (calling <$> P).

#[export] Instance due_perm : Proper (Permutation ==> eq) due.
Proof. intros P Q H. unfold due. by induction H; cbn in *; lia. Qed.

Definition inv_once : invariant := λ w P,
  (made (log w) + due P ≤ if decide (state (sess w) = sessionClosed) then 1 else 0)%nat ∧
  (state (sess w) = sessionClosed → inStore w = false ∨ IStoreDelete ∈ P).

#[export] Instance inv_once_multiset : Multiset inv_once.
Proof. intros w P Q H. unfold inv_once. by rewrite H. Qed.

Lemma made_snoc l e : made (l ++ [e]) = (made l + ev_close e)%nat.
Proof. unfold made. rewrite fmap_app, sum_list_with_app. cbn. lia. Qed.
Lemma due_app P Q : due (P ++ Q) = (due P + due Q)%nat.
Proof. unfold due. by rewrite fmap_app, sum_list_with_app. Qed.
Lemma due_cons i P : due (i :: P) = (calling i + due P)%nat.
Proof. done. Qed.
Lemma due_api calls : due (api_instr <$> calls) = 0%nat.
Proof. by induction calls as [|[] calls IH]. Qed.
Lemma due_handle ps : due (IHandlePacket <$> ps) = 0%nat.
Proof. by induction ps as [|p ps IH]. Qed.

Definition ends (i : instr) : bool :=
  match i with IFlushClose _ _ | ICloseWithReason _ _ => true | _ => false end.

(** Only the teardown closes a session. *)
Lemma effect_closed i s :
  ends i = false → (state (effect i s) = sessionClosed ↔ state s = sessionClosed).
Proof.
  intros Hi. destruct i; try done; destruct s; cbn [effect]; repeat case_match; sess_norm;
    repeat (inner_case; sess_norm); tests; split; congruence.
Qed.

Lemma due_handshake t err : due (handshake_rest t err) = 0%nat.
Proof. unfold handshake_rest. by destruct err, (tkind t). Qed.
Lemma due_sent k t ps sent err : due (sent_to k t ps sent err) = 0%nat.
Proof. destruct k; [done|apply due_handshake]. Qed.
Lemma due_opt {A} (f : A → instr) x : (∀ a, calling (f a) = 0%nat) → due (opt f x) = 0%nat.
Proof. intros Hf. destruct x; [|done]. cbn. by rewrite Hf. Qed.

Lemma run_calls o i w w' push spawn :
  exec o i w = Next w' push spawn → ends i = false →
  (made (log w') + due push + due (concat spawn) = made (log w) + calling i)%nat.
Proof.
  intros He Hi. destruct i; try done; exec_cases He;
    rewrite ?made_snoc, ?due_api, ?due_sent; cbn; try lia.
  all: try (destruct (tkind t); cbn; lia).
  - destruct (onMessageHandler (sess w')); cbn; lia.
  - destruct o2, o1; cbn; lia.
  - destruct o1; cbn; lia.
Qed.

Lemma run_store o i w w' push spawn :
  exec o i w = Next w' push spawn → inStore w = false ∨ i = IStoreDelete → inStore w' = false.
Proof. intros He [Hs| ->]; [|by cbn in He; simplify_eq]. destruct i; by exec_cases He. Qed.

(** A teardown that does something runs once and calls the handler once. *)
Lemma run_ends o i w w' push spawn :
  exec o i w = Next w' push spawn → ends i = true →
  log w' = log w ∧ state (sess w') = sessionClosed ∧ spawn = [] ∧ inStore w' = inStore w ∧
  if decide (state (sess w) = sessionClosed) then due push = 0%nat
  else (due push ≤ 1)%nat ∧ IStoreDelete ∈ push.
Proof.
  intros He Hi. assert (∃ reason cause rest, due rest = 0%nat ∧
    exec_closeWithReason reason cause rest w = Next w' push spawn) as (r & c & rest & Hr & Hx)
    by (destruct i; try done; [by exists reason, cause, [IFlushUnlock]|by exists reason, cause, []]).
  unfold exec_closeWithReason, beginTeardown in Hx. case_decide; simplify_eq/=; [done|].
  split_and!; try done.
  - rewrite !due_app, Hr, !due_opt by done. cbn. destruct (onCloseHandler (sess w)); cbn; lia.
  - rewrite !elem_of_app. set_solver.
Qed.

Lemma always_once : always inv_once.
Proof.
  refine (always_intro _ _ always_true _). split.
  - intros c k op. split; [cbn; lia|done].
  - intros o i P w w' push spawn He _ [Hn Hs]. unfold inv_once.
    rewrite !due_app, !elem_of_app. rewrite due_cons in Hn. rewrite elem_of_cons in Hs.
    destruct (ends i) eqn:Hi.
    + destruct (run_ends _ _ _ _ _ _ He Hi) as (El & Est & -> & Ei & Hd).
      rewrite El, Est, Ei. assert (calling i = 0%nat) by (by destruct i).
      rewrite decide_True by done. cbn [concat due fmap list_fmap sum_list_with].
      destruct (decide (state (sess w) = sessionClosed)) as [Hcl|Hcl].
      * split; [cbn; lia|]. intros _.
        destruct (Hs Hcl) as [?|[Hdel|?]]; [by auto| |by auto]. by subst.
      * destruct Hd as [Hd Hin]. split; [cbn; lia|by auto].
    + pose proof (run_calls _ _ _ _ _ _ He Hi) as Hc.
      pose proof (effect_closed i (sess w) Hi) as Hcl.
      rewrite <- (exec_effect _ _ _ _ _ _ He) in Hcl. split.
      * destruct (decide (state (sess w) = _)), (decide (state (sess w') = _));
          try lia; naive_solver.
      * intros ?%Hcl. pose proof (run_store _ _ _ _ _ _ He). destruct Hs as [?|[?|?]]; auto.
  - intros id tm P w _ _ [Hn Hs]. split; [|intros ?; destruct (Hs ltac:(done)); set_solver].
    rewrite due_cons. cbn [sess set_sess log state fire set_timers ServerSocket.state].
    assert (calling (callback_instr (fires tm)) = 0%nat) as -> by (by destruct (fires tm)).
    exact Hn.
  - intros a P w w' th Ha _ [Hn Hs]. unfold inv_once. rewrite due_app, elem_of_app.
    rewrite (arrive_sess _ _ _ _ Ha).
    assert (log w' = log w ∧ inStore w' = inStore w ∧ due th = 0%nat) as (-> & -> & ->).
    { unfold arrive in Ha. repeat case_match; simplify_eq/=; rewrite ?due_api, ?due_handle; done. }
    split; [done|]. intros ?. destruct Hs; auto.
Qed.

(** C26. A session is reported closed once: over its whole life the close handler is called
    at most once and never before the session is closed; and once it is closed, the
    session is out of the store or about to be deleted from it. *)
Theorem closed_once c k op w ts :
  reachable c k op (w, ts) →
  (made (log w) ≤ 1)%nat ∧ (made (log w) = 1%nat → state (sess w) = sessionClosed) ∧
  (state (sess w) = sessionClosed → inStore w = false ∨ IStoreDelete ∈ concat ts).
Proof.
  intros Hr. destruct (always_once c k op w ts Hr) as [Hn Hs].
  case_decide; split_and!; try done; lia.
Qed.
