(* ===== verification/SessionRuns.v ===== *)
(** * Sample runs

    Sessions run by explicit schedules.  They reach the states the session theorems
    speak of, and show two behaviours that the sources do not mean. *)
From S2P Require Import Prelude Machine Packet Payload ServerOptions ServerTransport.
From S2P Require Import ServerSocket SessionMachine SessionState SessionFlush.
From S2P Require Import SessionPolls SessionBuffers SessionLiveness SessionTransports.
From S2P Require Import SessionWakeup SessionEnd.

Definition conf : serverConfig := defaultServerConfig.
Definition hello : Packet := text_packet PacketOpen (str "{}").

Definition start (k : transportKind) : config := init conf k hello.
Definition after (k : transportKind) (acts : list act) : config :=
  default (start k) (run acts (start k)).

Definition is_run {A} (x : option A) : bool := match x with Some _ => true | None => false end.

Lemma after_reachable k acts :
  is_run (run acts (start k)) = true →
  reachable conf k hello ((after k acts).1, (after k acts).2).
Proof.
  unfold after. destruct (run acts (start k)) as [[w ts]|] eqn:E; [|done]. intros _.
  by eapply run_steps.
Qed.

(** Run a goroutine for a number of steps with an undisturbed oracle. *)
Definition go (thread steps : nat) : list act := replicate steps (Run thread calm).

(** An oracle that reads the given message from a WebSocket. *)
Definition reads (p : Packet) : oracle :=
  mkOracle None false (ReadMessage (writeFrame p).1 (writeFrame p).2) None false 0 true [].

(** A polling session that is open, and a poll held on it. *)
Definition opened : list act := go 0 3.
Definition held : list act := opened ++ [Arrive PollArrives] ++ go 1 5.


Definition sends (n : nat) : list act :=
  Arrive (AppCalls [ApiSend (str "hi") false]) :: go n 1.

(** A request whose context is cancelled. *)
Definition cancelled : oracle :=
  mkOracle None false (ReadError (EForeign 0)) (Some (EForeign 1)) false 0 true [].

(** An upgrade to WebSocket: the probe, and its completion. *)
Definition probed : list act :=
  opened ++ [Arrive (UpgradeArrives KWebSocket)] ++ go 1 1 ++
  [Run 2 (reads (text_packet PacketPing (str "probe")))] ++ go 2 4.
Definition upgraded : list act :=
  probed ++ [Run 2 (reads (packet_of PacketUpgrade))] ++ go 2 2.

(** A graceful close with no poll to carry it, and its fallback timer. *)
Definition closing_run : list act :=
  opened ++ [Arrive (AppCalls [ApiOnClose (Some 7%nat); ApiClose])] ++ go 1 7.
Definition closed_run : list act := closing_run ++ go 1 1 ++ [Fire 1] ++ go 2 4.

(** [Server.Close] while a poll is held, and on a WebSocket session. *)
Definition shutdown_run : list act := held ++ [Arrive ServerClose] ++ go 2 1.
Definition ws_shutdown_run : list act := go 0 7 ++ [Arrive ServerClose] ++ go 2 1.

(** A message queued between the storing of the session and the open packet; and a POST
    with a message after the close packet. *)
Definition early_send : list act :=
  [Arrive (AppCalls [ApiSend (str "hi") false])] ++ go 1 8 ++ go 0 5.
Definition late_message : list act :=
  opened ++ [Arrive (AppCalls [ApiOnClose (Some 7%nat); ApiOnMessage (Some 8%nat)]);
             Arrive (PostArrives [packet_of PacketClose; text_packet PacketMessage (str "hi")])] ++
  go 1 2 ++ go 2 8.

Ltac reached := apply after_reachable; vm_compute; reflexivity.

(** ** The hypotheses of the session theorems are met *)

Lemma session_lifecycle_witness :
  (state_rank (state (sess (after KPolling closing_run).1)) ≤
   state_rank (state (sess (after KPolling (closing_run ++ go 1 1)).1)))%nat ∧
  (state (sess (after KPolling (closing_run ++ go 1 1)).1) = sessionClosed →
   released (sess (after KPolling (closing_run ++ go 1 1)).1)).
Proof.
  apply (session_lifecycle conf KPolling hello _ (after KPolling closing_run).2 _
           (after KPolling (closing_run ++ go 1 1)).2); [reached|].
  apply (do_act_step _ _ (Run 1 calm)). vm_compute. reflexivity.
Defined.

Lemma session_refines_spec_witness :
  rtc Spec.spec_step
    (Spec.abs (sess (after KPolling held).1) (handed (after KPolling held).1))
    (Spec.abs (sess (after KPolling (held ++ [Arrive ServerClose])).1)
       (handed (after KPolling (held ++ [Arrive ServerClose])).1)).
Proof.
  apply (session_refines_spec conf KPolling hello _ (after KPolling held).2 _
           (after KPolling (held ++ [Arrive ServerClose])).2); [reached|].
  apply (do_act_step _ _ (Arrive ServerClose)). vm_compute. reflexivity.
Defined.

Lemma delivery_in_order_witness :
  handed (after KPolling (held ++ sends 2 ++ go 2 8)).1 `prefix_of`
  enqueued (sess (after KPolling (held ++ sends 2 ++ go 2 8)).1) ∧
  enqueued (sess (after KPolling (held ++ sends 2 ++ go 2 8)).1) =
  handed (after KPolling (held ++ sends 2 ++ go 2 8)).1 ++
  writeBuffer (sess (after KPolling (held ++ sends 2 ++ go 2 8)).1).
Proof.
  destruct (delivery_in_order conf KPolling hello (after KPolling (held ++ sends 2 ++ go 2 8)).1
              (after KPolling (held ++ sends 2 ++ go 2 8)).2) as [H1 H2]; [reached|].
  split; [exact H1|apply H2; [vm_compute; reflexivity|vm_compute; discriminate]].
Defined.

Lemma graceful_close_drains_witness :
  handed (after KPolling (held ++ [Arrive (AppCalls [ApiClose])] ++ go 2 8)).1 =
  enqueued (sess (after KPolling (held ++ [Arrive (AppCalls [ApiClose])] ++ go 2 8)).1) ∧
  ∃ ms, enqueued (sess (after KPolling (held ++ [Arrive (AppCalls [ApiClose])] ++ go 2 8)).1) =
        ms ++ [packet_of PacketClose].
Proof.
  apply (graceful_close_drains conf KPolling hello _
           (after KPolling (held ++ [Arrive (AppCalls [ApiClose])] ++ go 2 8)).2 2
           (str "forced close") [ICloseArm]);
    [reached|vm_compute; reflexivity|vm_compute; discriminate].
Defined.

Lemma session_never_panics_witness :
  exec calm (ICloseChan 2) (after KPolling (upgraded ++ go 2 1)).1 ≠ Panicked.
Proof.
  apply (session_never_panics conf KPolling hello _ (after KPolling (upgraded ++ go 2 1)).2 2
           (ICloseChan 2)
           [ITransportClose (mkRef KPolling 0); IFlush; IReadLoop (mkRef KWebSocket 1)]);
    [reached|vm_compute; reflexivity].
Defined.

Lemma noop_loops_stop_witness :
  (2%nat ∈ closedStops (after KPolling upgraded).1) ∨
  ICloseChan 2 ∈ concat (after KPolling upgraded).2.
Proof.
  apply (noop_loops_stop conf KPolling hello);
    [reached| |vm_compute; reflexivity].
  vm_compute. do 6 right. left.
Defined.

Lemma poll_delivery_never_blocks_witness :
  exec calm (IDeliver 0 0) (after KPolling (held ++ sends 2 ++ go 2 5)).1 ≠ Blocked.
Proof.
  apply (poll_delivery_never_blocks conf KPolling hello _
           (after KPolling (held ++ sends 2 ++ go 2 5)).2 2 0 0
           [IFlushSent [text_packet PacketMessage (str "hi")] true None]);
    [reached|vm_compute; reflexivity].
Defined.

Lemma drained_poll_is_delivered_witness :
  is_Some (chans (after KPolling (held ++ sends 2 ++ go 2 3 ++
                                  replicate 2 (Run 1 cancelled))).1 !! 0%nat) ∨
  (0%nat ∈ gather claim_token (concat (after KPolling (held ++ sends 2 ++ go 2 3 ++
                                  replicate 2 (Run 1 cancelled))).2)).
Proof.
  apply (drained_poll_is_delivered conf KPolling hello); [reached|]. vm_compute. left.
Defined.

Lemma poll_response_faithful_witness :
  ∃ ps, (0%nat, ps) ∈ deliveries (after KPolling (held ++ sends 2 ++ go 2 6 ++ go 1 2)).1 ∧
    str "4hi" = EncodePayload ps ∧
    ∀ ps', (0%nat, ps') ∈ deliveries (after KPolling (held ++ sends 2 ++ go 2 6 ++ go 1 2)).1 →
           ps' = ps.
Proof.
  apply (poll_response_faithful conf KPolling hello _
           (after KPolling (held ++ sends 2 ++ go 2 6 ++ go 1 2)).2); [reached|].
  vm_compute. right. left.
Defined.

Lemma heartbeat_alive_witness :
  (∃ id tm, timers (sess (after KPolling opened).1) !! id = Some tm ∧
     (fires tm = CbSendPing ∧ duration tm = pingInterval conf ∨
      fires tm = CbPingTimeout ∧ duration tm = pingTimeout conf)) ∨
  awaits beat (concat (after KPolling opened).2).
Proof. apply (heartbeat_alive conf KPolling hello); [reached|vm_compute; reflexivity]. Defined.

Lemma closing_ends_witness :
  (∃ id tm, timers (sess (after KPolling (closing_run ++ go 1 1)).1) !! id = Some tm ∧
     fires tm = CbForcedClose ∧ duration tm = pingTimeout conf) ∨
  awaits arms (concat (after KPolling (closing_run ++ go 1 1)).2).
Proof. apply (closing_ends conf KPolling hello); [reached|vm_compute; reflexivity]. Defined.

Lemma connections_released_witness :
  Stream.connClosed (streams (after KWebSocket ws_shutdown_run).1 !!! 0%nat) = true ∨
  (0%nat ∈ gather tearing (concat (after KWebSocket ws_shutdown_run).2) ++
           gather closing (concat (after KWebSocket ws_shutdown_run).2)).
Proof.
  apply (connections_released conf KWebSocket hello); [reached|vm_compute; reflexivity|].
  apply elem_of_dom. vm_compute. eexists. reflexivity.
Defined.

Lemma no_lost_wakeup_witness : awaits wakes (concat (after KPolling (held ++ sends 2)).2).
Proof.
  apply (no_lost_wakeup conf KPolling hello (after KPolling (held ++ sends 2)).1); [reached|].
  split; [vm_compute; discriminate|]. exists (mkRef KPolling 0).
  split; [vm_compute; reflexivity|]. split; [vm_compute; reflexivity|vm_compute; discriminate].
Defined.

Lemma held_poll_answered_witness :
  activePollingTransport (sess (after KPolling shutdown_run).1) = true ∨
  awaits poll_closer (concat (after KPolling shutdown_run).2).
Proof.
  apply (held_poll_answered conf KPolling hello _ _ 0); [reached|vm_compute; reflexivity].
Defined.

Lemma closed_once_witness :
  (made (log (after KPolling closed_run).1) ≤ 1)%nat ∧
  (made (log (after KPolling closed_run).1) = 1%nat →
   state (sess (after KPolling closed_run).1) = sessionClosed) ∧
  (state (sess (after KPolling closed_run).1) = sessionClosed →
   inStore (after KPolling closed_run).1 = false ∨
   IStoreDelete ∈ concat (after KPolling closed_run).2).
Proof. apply (closed_once conf KPolling hello). reached. Defined.

(** ** Behaviours the sources do not mean *)

(** On a WebSocket or WebTransport handshake the session is in the store before the
    open packet is written, so a message sent by a goroutine that found the session
    there can be the first frame on the connection, ahead of the open packet the
    protocol starts with. *)
Theorem message_before_open :
  ∃ w ts, reachable conf KWebSocket hello (w, ts) ∧
    log w = [EvFrame (mkRef KWebSocket 0) (writeFrame (text_packet PacketMessage (str "hi")));
             EvFrame (mkRef KWebSocket 0) (writeFrame hello)].
Proof.
  exists (after KWebSocket early_send).1, (after KWebSocket early_send).2.
  split; [reached|vm_compute; reflexivity].
Qed.

(** The packets of one POST are all processed, also those after a close packet: the
    message handler can be called after the close handler. *)
Theorem message_after_close :
  ∃ w ts, reachable conf KPolling hello (w, ts) ∧ state (sess w) = sessionClosed ∧
    log w = [EvHandshake (EncodePayload [hello]);
             EvClose 7 (str "transport close") None; EvMessage 8 (str "hi") false].
Proof.
  exists (after KPolling late_message).1, (after KPolling late_message).2.
  split; [reached|split; vm_compute; reflexivity].
Qed.
