(* ===== verification/SessionStore.v ===== *)
(** * The session store (server_session_store.go)

    A map from session identifiers to sockets.  Each method is one critical section. *)
From S2P Require Import Prelude.

Section store.
Context {A : Type}.

(** [A] is the type of a [*ServerSocket], which knows its identifier. *)
Record stored := mkStored { stored_id : bytes; socket : A }.

Definition sessionStore : Type := gmap bytes stored.

Definition newSessionStore : gmap bytes stored := ∅.
Definition get (id : bytes) (s : gmap bytes stored) : option stored := s !! id.
Definition put (x : stored) (s : gmap bytes stored) : gmap bytes stored := <[stored_id x := x]> s.
Definition delete_ (id : bytes) (s : gmap bytes stored) : gmap bytes stored := delete id s.

(** A snapshot, in the unspecified order of a map iteration. *)
Definition all (s : gmap bytes stored) : list stored := (map_to_list s).*2.
Definition count (s : gmap bytes stored) : Z := Z.of_nat (size s).

(** The key of every entry is its socket's identifier. *)
Definition keyed (s : gmap bytes stored) : Prop := map_Forall (λ id x, stored_id x = id) s.

Lemma keyed_new : keyed newSessionStore.
Proof. apply map_Forall_empty. Qed.
Lemma keyed_put x s : keyed s → keyed (put x s).
Proof. intros H. by apply map_Forall_insert_2. Qed.
Lemma keyed_delete id s : keyed s → keyed (delete_ id s).
Proof. intros H. by apply map_Forall_delete. Qed.

Lemma all_spec s x : keyed s → (x ∈ all s ↔ get (stored_id x) s = Some x).
Proof.
  intros Hk. unfold all, get. rewrite list_elem_of_fmap. split.
  - intros ([id y] & -> & H%elem_of_map_to_list). cbn. by rewrite (Hk _ _ H).
  - intros H. exists (stored_id x, x). split; [done|]. by apply elem_of_map_to_list.
Qed.

Lemma all_NoDup s : keyed s → NoDup (stored_id <$> all s).
Proof.
  intros Hk. unfold all. pose proof (NoDup_fst_map_to_list s) as Hn.
  replace (stored_id <$> (map_to_list s).*2) with ((map_to_list s).*1); [done|].
  assert (∀ id x, (id, x) ∈ map_to_list s → stored_id x = id) as Hm
    by (intros id x H%elem_of_map_to_list; by apply Hk).
  clear Hn Hk. induction (map_to_list s) as [|[id x] l IH]; [done|]. cbn.
  rewrite IH by (intros; apply Hm; by right). by rewrite (Hm id x) by by left.
Qed.

Lemma all_length s : len (all s) = count s.
Proof.
  unfold all, count, len. rewrite length_fmap. f_equal.
  apply length_map_to_list.
Qed.
End store.
Arguments stored A : clear implicits.
Arguments sessionStore A : clear implicits.

(** The store is a faithful registry: whatever is put under an identifier and not
    deleted is found under it, other identifiers are untouched, and a snapshot lists
    each live session exactly once, as many as are counted. *)
Theorem store_registry {A} (s : gmap bytes (stored A)) (x : stored A) (id : bytes) :
  keyed s →
  get id (put x s) = (if decide (stored_id x = id) then Some x else get id s) ∧
  get id (delete_ (stored_id x) s) = (if decide (stored_id x = id) then None else get id s) ∧
  keyed (put x s) ∧ keyed (delete_ id s) ∧
  (x ∈ all s ↔ get (stored_id x) s = Some x) ∧ NoDup (stored_id <$> all s) ∧
  len (all s) = count s.
Proof.
  intros Hk. unfold get, put, delete_.
  rewrite lookup_insert, lookup_delete.
  split_and!; [done..|by apply keyed_put|by apply keyed_delete|by apply all_spec|
               by apply all_NoDup|apply all_length].
Qed.

Lemma store_registry_witness :
  let x := mkStored (str "a") 1%nat in
  get (str "b") (put x ∅) = None ∧ get (str "a") (delete_ (str "a") (put x ∅)) = None ∧
  len (all (put x ∅)) = 1.
Proof.
  intros x.
  destruct (store_registry (put x ∅) x (str "b")) as (_ & _ & _ & _ & _ & _ & H3).
  { apply keyed_put, keyed_new. }
  destruct (store_registry ∅ x (str "b")) as (H1 & _); [apply keyed_new|].
  destruct (store_registry (put x ∅) x (str "a")) as (_ & H2 & _).
  { apply keyed_put, keyed_new. }
  split_and!; [exact H1|exact H2|exact H3].
Defined.
