(* ===== verification/Echo.v ===== *)
(** * An echo server (examples/echo, examples/binary)

    The session under an application that answers every message with the same message.  The
    handler is an oracle: what it does depends on the call it gets.  The lemmas run a POST
    and the poll that is held for the session, to the responses that the polls get. *)
From S2P Require Import Prelude Machine Packet Payload ServerOptions ServerTransport.
From S2P Require Import ServerSocket SessionMachine.

(** [socket.OnMessage(func(data, isBinary) { socket.Send(data, isBinary) })], over a network
    that works. *)
Definition echo (i : instr) : oracle :=
  match i with
  | ICallMessage _ data isBinary =>
      mkOracle None false (ReadError (EForeign 0)) None false 0 true [ApiSend data isBinary]
  | _ => calm
  end.

(** The goroutines of the session, with that application. *)
Definition echo_step (n : nat) (cfg : config) : option config :=
  match cfg.2 !! n with
  | Some (i :: _) => Machine.do_act exec happen (Run n (echo i)) cfg
  | _ => None
  end.
Definition echoing : relation config := rtc (λ cfg cfg', ∃ n, echo_step n cfg = Some cfg').

#[export] Instance echoing_preorder : PreOrder echoing.
Proof. apply _. Qed.

Lemma echoing_steps cfg cfg' : echoing cfg cfg' → rtc step cfg cfg'.
Proof.
  intros H. eapply rtc_subrel; [|exact H]. intros x y [n Hn]. unfold echo_step in Hn.
  destruct (x.2 !! n) as [[|i th]|]; try done. by eapply do_act_step.
Qed.

Lemma echo_advance l1 i th l2 w w' push cfg :
  exec (echo i) i w = Next w' push [] →
  echoing (w', l1 ++ (push ++ th) :: l2) cfg → echoing (w, l1 ++ (i :: th) :: l2) cfg.
Proof.
  intros He H. eapply rtc_l; [|exact H]. exists (length l1). unfold echo_step. cbn [snd].
  rewrite list_lookup_middle by done. cbn. rewrite list_lookup_middle, He by done.
  replace (S (length l1)) with (length l1 + 1)%nat by lia.
  by rewrite take_app_length, drop_app_add, app_nil_r.
Qed.

(** An open session on polling, whose flush lock is free. *)
Record serving (w : World) (h : nat) (held : option nat) : Prop := {
  sv_state : state (sess w) = sessionOpen;
  sv_transport : transport (sess w) = Some (mkRef KPolling 0);
  sv_handler : onMessageHandler (sess w) = Some h;
  sv_flushMu : flushMu w = false;
  sv_polling : polling w = Polling.mkPolling false held;
}.

(** What the goroutines of a POST and of a poll leave as it was. *)
Definition same_ends (w w' : World) : Prop :=
  inStore w' = inStore w ∧ nextChan w' = nextChan w.

Definition hears (h : nat) (m : Packet) : event := EvMessage h (Data m) (IsBinary m).

Tactic Notation "advance" tactic3(tac) :=
  eapply echo_advance; [cbn; tac; reflexivity|cbn [app opt fmap list_fmap api_instr]].

(** Packets handed to a poll end up encoded in its channel. *)
Lemma buffer_delivered l1 l2 th w ch ps :
  chans w !! ch = None →
  ∃ w' b, echoing (w, l1 ++ (IGetBuffer ch ps :: th) :: l2) (w', l1 ++ th :: l2) ∧
    chans w' = <[ch := b]> (chans w) ∧ heap w' !!! b = EncodePayload ps ∧
    sess w' = sess w ∧ flushMu w' = flushMu w ∧ polling w' = polling w ∧ log w' = log w ∧
    same_ends w w'.
Proof.
  intros Hc. destruct (pool_get calm w) as [b w1] eqn:Hg.
  assert (sess w1 = sess w ∧ flushMu w1 = flushMu w ∧ polling w1 = polling w ∧
          log w1 = log w ∧ same_ends w w1 ∧ chans w1 = chans w) as (?&?&?&?&?&Hc1).
  { unfold pool_get in Hg. by case_decide; simplify_eq. }
  do 2 eexists. split.
  - advance (rewrite Hg). advance idtac.
    advance (unfold exec_deliver; cbn; rewrite Hc1, Hc). reflexivity.
  - cbn. split; [done|]. by rewrite lookup_total_insert_eq.
Qed.

(** [flush] hands the whole buffer to the held poll. *)
Lemma flush_delivered l1 l2 th w h ch ps :
  serving w h (Some ch) → chans w !! ch = None → writeBuffer (sess w) = ps → ps ≠ [] →
  ∃ w' b, echoing (w, l1 ++ (IFlush :: th) :: l2) (w', l1 ++ th :: l2) ∧
    serving w' h None ∧ writeBuffer (sess w') = [] ∧ log w' = log w ∧
    chans w' = <[ch := b]> (chans w) ∧ heap w' !!! b = EncodePayload ps ∧ same_ends w w'.
Proof.
  intros [Hs Ht Hh Hf Hp] Hc Hb Hn. destruct ps as [|p ps']; [done|].
  set (ps := p :: ps') in *.
  set (w1 := claim ch ps (hand ps (set_polling (Polling.mkPolling false None)
               (set_flushMu true w)))).
  destruct (buffer_delivered l1 l2 (IFlushSent ps true None :: th) w1 ch ps Hc)
    as (w2 & b & He & Hc2 & Hh2 & Hs2 & Hf2 & Hp2 & Hl2 & Hi2).
  change (sess w1) with (sess w) in Hs2.
  assert (flush_drop ps (sess w) = (FlushReturn, set_writeBuffer [] (sess w))) as Hd.
  { unfold flush_drop. rewrite Hb, Z.leb_refl, drop_all. by rewrite andb_comm; cbn; rewrite Hs. }
  do 2 eexists. split.
  - advance (rewrite Hf).
    advance (unfold flush_take; cbn; rewrite Hs, Ht, Hb).
    advance (unfold exec_send, transport_send; cbn; rewrite Hp).
    etransitivity; [exact He|].
    eapply echo_advance; [by cbn [exec exec_flush_sent negb]; rewrite Hs2, Hd|cbn [app]].
    advance idtac. reflexivity.
  - cbn. by split_and!; [split| |..].
Qed.

(** A message with no poll held is answered into the buffer. *)
Lemma echo_buffered l1 l2 th w h m :
  serving w h None → PType m = PacketMessage →
  ∃ w', echoing (w, l1 ++ (IHandlePacket m :: th) :: l2) (w', l1 ++ th :: l2) ∧
    serving w' h None ∧ writeBuffer (sess w') = writeBuffer (sess w) ++ [m] ∧
    log w' = log w ++ [hears h m] ∧
    chans w' = chans w ∧ heap w' = heap w ∧ same_ends w w'.
Proof.
  intros [Hs Ht Hh Hf Hp] Hm. destruct m as [ty d b]. cbn in Hm. subst ty.
  destruct (writeBuffer (sess w) ++ [mkPacket PacketMessage d b]) as [|p ps] eqn:Hb.
  { by destruct (writeBuffer (sess w)). }
  eexists. split.
  - advance idtac. advance (rewrite Hh). advance idtac.
    advance (unfold Send; cbn; rewrite Hs).
    advance (rewrite Hf).
    advance (unfold flush_take; cbn; rewrite Hs, Ht, Hb).
    advance (unfold exec_send, transport_send; cbn; rewrite Hp).
    advance idtac. advance idtac. reflexivity.
  - cbn. rewrite Hb. by split_and!; [split| |..].
Qed.

(** The first message goes to the held poll. *)
Lemma echo_delivered l1 l2 th w h ch m :
  serving w h (Some ch) → chans w !! ch = None → writeBuffer (sess w) = [] →
  PType m = PacketMessage →
  ∃ w' b, echoing (w, l1 ++ (IHandlePacket m :: th) :: l2) (w', l1 ++ th :: l2) ∧
    serving w' h None ∧ writeBuffer (sess w') = [] ∧ log w' = log w ++ [hears h m] ∧
    chans w' = <[ch := b]> (chans w) ∧ heap w' !!! b = EncodePayload [m] ∧ same_ends w w'.
Proof.
  intros [Hs Ht Hh Hf Hp] Hc Hb Hm. destruct m as [ty d b]. cbn in Hm. subst ty.
  set (m := mkPacket PacketMessage d b).
  set (w1 := set_sess (enqueue m (sess w)) (emit (hears h m) w)).
  destruct (flush_delivered l1 l2 th w1 h ch [m]) as (w2 & b2 & He & H); [done|done| |done|].
  { cbn. by rewrite Hb. }
  exists w2, b2. split; [|done].
  advance idtac. advance (rewrite Hh). advance idtac.
  advance (unfold Send; cbn; rewrite Hs). exact He.
Qed.

(** A POST of messages: the first is sent back through the held poll, the others wait. *)
Lemma echo_post l1 l2 th w h ms :
  serving w h None → Forall (λ m, PType m = PacketMessage) ms →
  ∃ w', echoing (w, l1 ++ ((IHandlePacket <$> ms) ++ th) :: l2) (w', l1 ++ th :: l2) ∧
    serving w' h None ∧ writeBuffer (sess w') = writeBuffer (sess w) ++ ms ∧
    log w' = log w ++ (hears h <$> ms) ∧
    chans w' = chans w ∧ heap w' = heap w ∧ same_ends w w'.
Proof.
  intros Hw Hms. revert w Hw. induction Hms as [|m ms Hm _ IH]; intros w Hw.
  { exists w. cbn. rewrite !app_nil_r. done. }
  destruct (echo_buffered l1 l2 ((IHandlePacket <$> ms) ++ th) w h m)
    as (w1 & He1 & Hw1 & Hb1 & Hl1 & Hc1 & Hh1 & Hi1); [done..|].
  destruct (IH w1 Hw1) as (w2 & He2 & Hw2 & Hb2 & Hl2 & Hc2 & Hh2 & Hi2).
  exists w2. split; [by etransitivity|].
  rewrite Hb2, Hb1, Hl2, Hl1, Hc2, Hh2, <- !app_assoc.
  split_and!; try done. destruct Hi1, Hi2. by split; etrans.
Qed.

(** The poll that holds the channel writes what it receives. *)
Lemma poll_written l1 l2 th w h ch b data :
  serving w h None → chans w !! ch = Some b → heap w !!! b = data →
  ∃ w', echoing (w, l1 ++ (IPollSelect ch :: th) :: l2) (w', l1 ++ th :: l2) ∧
    serving w' h None ∧ writeBuffer (sess w') = writeBuffer (sess w) ∧
    log w' = log w ++ [EvResponse ch data] ∧ chans w' = delete ch (chans w) ∧
    same_ends w w'.
Proof.
  intros [Hs Ht Hh Hf Hp] Hc Hd. eexists. split.
  - advance (unfold exec_receive; rewrite Hc).
    advance (unfold exec_write_response; cbn; rewrite Hd). advance idtac. reflexivity.
  - done.
Qed.

(** The next poll gets everything that waits. *)
Lemma poll_answered l1 l2 w h ps :
  serving w h None → chans w !! nextChan w = None → writeBuffer (sess w) = ps → ps ≠ [] →
  ∃ w', echoing (w, l1 ++ [IPollGet] :: l2) (w', l1 ++ [] :: l2) ∧
    serving w' h None ∧ writeBuffer (sess w') = [] ∧
    log w' = log w ++ [EvResponse (nextChan w) (EncodePayload ps)].
Proof.
  intros [Hs Ht Hh Hf Hp] Hc Hb Hn. set (ch := nextChan w).
  set (w1 := set_nextChan (S ch) (set_polling (Polling.mkPolling false (Some ch)) w)).
  destruct (flush_delivered l1 l2 [IPollSelect ch] w1 h ch ps)
    as (w2 & b & He & Hw2 & Hb2 & Hl2 & Hc2 & Hh2 & _); [done..|].
  destruct (poll_written l1 l2 [] w2 h ch b (EncodePayload ps)) as (w3 & He3 & Hw3 & Hb3 & Hl3 & _);
    [done|by rewrite Hc2, lookup_insert_eq|done|].
  exists w3. split.
  - advance (unfold activePollingTransport, as_polling; cbn; rewrite Ht).
    advance (unfold exec_hold, Polling.hold; rewrite Hp). etransitivity; [exact He|exact He3].
  - rewrite Hb3, Hl3, Hl2. done.
Qed.

(** A POST of messages to a session whose poll is held calls the
    message handler with each of them, in order, and answers the poll with the first,
    encoded alone and with its binary flag; the answers to the others wait, and the next
    poll gets them all, in order. *)
Lemma echo_served w h ch m ms :
  serving w h (Some ch) → chans w = ∅ → writeBuffer (sess w) = [] → inStore w = true →
  Forall (λ m, PType m = PacketMessage) (m :: ms) →
  ∃ w1, echoing (w, [[IPollSelect ch]; IHandlePacket <$> (m :: ms)]) (w1, [[]; []]) ∧
    log w1 = log w ++ (hears h <$> m :: ms) ++ [EvResponse ch (EncodePayload [m])] ∧
    serving w1 h None ∧ writeBuffer (sess w1) = ms ∧
    (ms ≠ [] →
     happen (Arrives PollArrives) w1 = Some (w1, [IPollGet]) ∧
     ∃ w2, echoing (w1, [[IPollGet]]) (w2, [[]]) ∧
       log w2 = log w1 ++ [EvResponse (nextChan w) (EncodePayload ms)] ∧
       serving w2 h None ∧ writeBuffer (sess w2) = []).
Proof.
  intros Hw Hc Hb Hi [Hm Hms]%Forall_cons_1.
  destruct (echo_delivered [[IPollSelect ch]] [] (IHandlePacket <$> ms) w h ch m)
    as (w1 & b & He1 & Hw1 & Hb1 & Hl1 & Hc1 & Hh1 & Hi1); [done|by rewrite Hc|done..|].
  destruct (echo_post [[IPollSelect ch]] [] [] w1 h ms)
    as (w2 & He2 & Hw2 & Hb2 & Hl2 & Hc2 & Hh2 & Hi2); [done..|].
  destruct (poll_written [] [[]] [] w2 h ch b (EncodePayload [m]))
    as (w3 & He3 & Hw3 & Hb3 & Hl3 & Hc3 & Hi3); [done|by rewrite Hc2, Hc1, lookup_insert_eq|by rewrite Hh2|].
  rewrite app_nil_r in He2. destruct Hi1 as [Hi1 Hn1], Hi2 as [Hi2 Hn2], Hi3 as [Hi3 Hn3].
  rewrite Hb1 in Hb2. rewrite Hb2 in Hb3.
  exists w3. split_and!; [|..|done|done|].
  - etransitivity; [exact He1|]. etransitivity; [exact He2|exact He3].
  - rewrite Hl3, Hl2, Hl1, <- !app_assoc. done.
  - intros Hn. split; [by cbn; rewrite Hi3, Hi2, Hi1, Hi|].
    destruct (poll_answered [] [] w3 h ms) as (w4 & He4 & Hw4 & Hb4 & Hl4);
      [done| |done..|].
    { by rewrite Hc3, Hc2, Hc1, Hc, delete_insert_eq, delete_empty. }
    exists w4. rewrite Hl4. by rewrite Hn3, Hn2, Hn1.
Qed.

(** A session with the echo application and a poll held. *)
Definition echo_session : World :=
  let open := init defaultServerConfig KPolling (text_packet PacketOpen (str "{}")) in
  (default open
     (run (replicate 3 (Run 0%nat calm) ++
           [Arrive (AppCalls [ApiOnMessage (Some 8%nat)]); Run 1%nat calm; Arrive PollArrives] ++
           replicate 5 (Run 2%nat calm)) open)).1.

Lemma echo_session_serving :
  serving echo_session 8 (Some 0%nat) ∧ chans echo_session = ∅ ∧
  writeBuffer (sess echo_session) = [] ∧ inStore echo_session = true.
Proof. split_and!; [split; vm_compute; reflexivity|vm_compute; reflexivity..]. Qed.
