(* ===== verification/Server.v ===== *)
(** * The HTTP handler (server.go)

    What [ServeHTTP] answers and what it asks of a session, for every request.  A handler
    returns a [reply]: the response as far as it is written here, what is reported to the
    connection-error handler, and the action that follows, which the session machine
    carries out: start a session on a transport, or give one that is stored an arrival.

    [websocket.Accept], [gzip] and the WebTransport session are code outside the
    repository: they are arguments. *)
From S2P Require Import Prelude Machine Packet Unicode Payload Framing Json Http.
From S2P Require Import ServerOptions ServerTransport ServerSocket SessionMachine.
From S2P Require Import SessionStore Handshake.

Definition pollCompressionThreshold : Z := 1024.

Record AcceptOptions := mkAccept { InsecureSkipVerify : bool; OriginPatterns : list bytes }.

(** [A] is the type of a [*ServerSocket].  The application's handlers are named by
    numbers. *)
Record Server {A : Type} := mkServer {
  s_options : serverConfig;
  s_sessions : gmap bytes (stored A);
  s_onConnection : option nat;
  s_onConnectionError : option nat;
}.
Arguments Server A : clear implicits.

Inductive action {A : Type} :=
| Nothing
| StartSession (k : transportKind) (id : bytes) (open : Packet)
| ToSession (x : stored A) (a : arrival)
| ServeWebTransport
| CloseWebSocket (reason : bytes)
| CloseWebTransport.
Arguments action A : clear implicits.

Record reply {A : Type} := mkReply {
  response : ResponseWriter;
  reports : list (ConnectionErrorCode * bytes);
  follows : action A;
}.
Arguments reply A : clear implicits.

Definition NewServer {A} (options : list ServerOption) : Server A :=
  mkServer A (NewServer_config options) newSessionStore None None.

Definition OnConnection {A} (handler : option nat) (s : Server A) : Server A :=
  mkServer A (s_options s) (s_sessions s) handler (s_onConnectionError s).
Definition OnConnectionError {A} (handler : option nat) (s : Server A) : Server A :=
  mkServer A (s_options s) (s_sessions s) (s_onConnection s) handler.

(** The calls of the connection-error handler a reply leads to. *)
Definition notifies {A} (s : Server A) (rp : reply A)
    : list (nat * ConnectionErrorCode * bytes) :=
  match s_onConnectionError s with
  | None => []
  | Some handler => (λ '(code, reason), (handler, code, reason)) <$> reports rp
  end.

(** The registry as the application sees it. *)
Definition Sockets {A} (s : Server A) : list (stored A) := all (s_sessions s).
Definition Count {A} (s : Server A) : Z := count (s_sessions s).
Definition Socket_ {A} (id : bytes) (s : Server A) : option (stored A) := get id (s_sessions s).

(** ** Responses *)

Definition error_json (code : ConnectionErrorCode) : json :=
  JObj [(str "code", JInt (code_int code)); (str "message", JStr (message code))].

Definition writeServerError (code : ConnectionErrorCode) (w : ResponseWriter) : ResponseWriter :=
  let w := header_op (Set_ (str "Content-Type") (str "application/json")) w in
  Write (Marshal (error_json code)) (WriteHeader (status code) w).

Definition writePollHeaders (w : ResponseWriter) : ResponseWriter :=
  let w := header_op (Set_ (str "Content-Type") (str "text/plain; charset=UTF-8")) w in
  header_op (Set_ (str "Cache-Control") (str "no-store")) w.

Definition acceptsGzip (r : Request) : bool :=
  existsb (λ encoding, EqualFold (TrimSpace (split_head ";"%byte encoding)) (str "gzip"))
    (split_on ","%byte (Get (str "Accept-Encoding") (Header r))).

Definition setSessionCookie (c : serverConfig) (id : bytes) (w : ResponseWriter)
    : ResponseWriter :=
  match cookie c with
  | None => w
  | Some k =>
      SetCookie (mkHttpCookie (Name k) id (Path k) (HTTPOnly k) (Secure k)
                   (cookie_SameSite k) (MaxAge k)) w
  end.

Definition allowsAllOrigins (c : serverConfig) : bool :=
  bool_decide (AllowedOrigins (cors c) = []) ||
  bool_decide (str "*" ∈ AllowedOrigins (cors c)).

(** The value of Access-Control-Allow-Origin, empty for none. *)
Definition allow_origin (c : serverConfig) (origin : bytes) : bytes :=
  if allowsAllOrigins c
  then (if AllowCredentials (cors c) && negb (bool_decide (origin = [])) then origin else str "*")
  else if negb (bool_decide (origin = [])) && bool_decide (origin ∈ AllowedOrigins (cors c))
  then origin else [].

Definition applyCORS (c : serverConfig) (r : Request) (w : ResponseWriter)
    : bool * ResponseWriter :=
  let allowOrigin := allow_origin c (Get (str "Origin") (Header r)) in
  let w :=
    if decide (allowOrigin = []) then w
    else
      let w := header_op (Set_ (str "Access-Control-Allow-Origin") allowOrigin) w in
      let w := if decide (allowOrigin = str "*") then w
               else header_op (Add (str "Vary") (str "Origin")) w in
      if AllowCredentials (cors c)
      then header_op (Set_ (str "Access-Control-Allow-Credentials") (str "true")) w else w in
  if decide (Method r = MethodOptions) then
    let allowedHeaders := if decide (AllowedHeaders (cors c) = []) then [str "Content-Type"]
                          else AllowedHeaders (cors c) in
    let w := header_op (Set_ (str "Access-Control-Allow-Methods") (str "GET, POST, OPTIONS")) w in
    let w := header_op (Set_ (str "Access-Control-Allow-Headers")
                          (Join allowedHeaders (str ", "))) w in
    (true, WriteHeader StatusNoContent w)
  else (false, w).

(** ** Handlers *)

Section handlers.
Context {A : Type}.
Variable gzip : bytes → bytes.
Variable Accept : AcceptOptions → Request → ResponseWriter → bool * ResponseWriter.

(** The response to a poll, given its payload. *)
Definition writePollResponse (c : serverConfig) (r : Request) (payload : bytes)
    (w : ResponseWriter) : ResponseWriter :=
  let w := writePollHeaders w in
  if httpCompression c && (pollCompressionThreshold <=? len payload) && acceptsGzip r
  then Write (gzip payload) (header_op (Set_ (str "Content-Encoding") (str "gzip")) w)
  else Write payload w.

Definition answer (w : ResponseWriter) : reply A := mkReply A w [] Nothing.

Definition rejectConnection (code : ConnectionErrorCode) (reason : bytes) (w : ResponseWriter)
    : reply A :=
  mkReply A (writeServerError code w) [(code, reason)] Nothing.

(** The rejection, if the gate refuses the request. *)
Definition allowHandshake (c : serverConfig) (r : Request) (w : ResponseWriter)
    : option (reply A) :=
  match allowRequest c with
  | None => None
  | Some allow =>
      match allow r with
      | None => None
      | Some text => Some (rejectConnection ConnectionErrorForbidden text w)
      end
  end.

(** [random] is what [generateID] draws. *)
Definition handleHandshake (c : serverConfig) (random : bytes) (r : Request)
    (w : ResponseWriter) : reply A :=
  match allowHandshake c r w with
  | Some rejection => rejection
  | None =>
      let id := generateID c random r in
      let w := setSessionCookie c id w in
      let open := buildOpenPacket c id true in
      let w := WriteHeader StatusOK (writePollHeaders w) in
      mkReply A (Write (EncodePayload [open]) w) [] (StartSession KPolling id open)
  end.

(** [io.ReadAll(io.LimitReader(r.Body, n))]. *)
Definition read_body (n : Z) (r : Request) : res bytes :=
  let '(data, err) := Body r in
  if n <=? 0 then Ok []
  else if n <=? len data then Ok (take (Z.to_nat n) data)
  else match err with Some e => Err e | None => Ok data end.

Definition post_ok (w : ResponseWriter) : ResponseWriter :=
  let w := header_op (Set_ (str "Content-Type") (str "text/html")) w in
  Write (str "ok") (WriteHeader StatusOK w).

Definition handleSend (c : serverConfig) (r : Request) (x : stored A) (w : ResponseWriter)
    : reply A :=
  if HasPrefix (Get (str "Content-Type") (Header r)) (str "application/octet-stream") then
    mkReply A (writeServerError ConnectionErrorBadRequest w) []
      (ToSession x (BadPostArrives (str "transport error") None))
  else
    match read_body (wrap64 (maxPayload c + 1)) r with
    | Ok body =>
        if maxPayload c <? len body then answer (WriteHeader StatusRequestEntityTooLarge w)
        else if decide (body = []) then answer (post_ok w)
        else
          match DecodePayload ProtocolVersion4 body with
          | Ok packets => mkReply A (post_ok w) [] (ToSession x (PostArrives packets))
          | Err e =>
              mkReply A (writeServerError ConnectionErrorBadRequest w) []
                (ToSession x (BadPostArrives (str "parse error") (Some e)))
          | Panic => answer w
          end
    | _ => answer (writeServerError ConnectionErrorBadRequest w)
    end.

Definition handlePolling (s : Server A) (random : bytes) (r : Request) (sid : bytes)
    (w : ResponseWriter) : reply A :=
  if decide (sid = []) then
    if decide (Method r ≠ MethodGet) then
      rejectConnection ConnectionErrorBadHandshakeMethod
        (message ConnectionErrorBadHandshakeMethod) w
    else handleHandshake (s_options s) random r w
  else
    match get sid (s_sessions s) with
    | None =>
        rejectConnection ConnectionErrorUnknownSessionID
          (message ConnectionErrorUnknownSessionID) w
    | Some x =>
        if decide (Method r = MethodGet) then mkReply A w [] (ToSession x PollArrives)
        else if decide (Method r = MethodPost) then handleSend (s_options s) r x w
        else answer (writeServerError ConnectionErrorBadRequest w)
    end.

Definition acceptOptions (c : serverConfig) : AcceptOptions :=
  if allowsAllOrigins c then mkAccept true [] else mkAccept false (AllowedOrigins (cors c)).

Definition handleWebSocketUpgrade (s : Server A) (sid : bytes) (w : ResponseWriter) : reply A :=
  match get sid (s_sessions s) with
  | None => mkReply A w [] (CloseWebSocket (str "Session ID unknown"))
  | Some x => mkReply A w [] (ToSession x (UpgradeArrives KWebSocket))
  end.

Definition handleWebSocket (s : Server A) (random : bytes) (r : Request) (sid : bytes)
    (w : ResponseWriter) : reply A :=
  let c := s_options s in
  match (if decide (sid = []) then allowHandshake c r w else None) with
  | Some rejection => rejection
  | None =>
      let id := generateID c random r in
      let w := if decide (sid = []) then setSessionCookie c id w else w in
      let '(accepted, w) := Accept (acceptOptions c) r w in
      if negb accepted then answer w
      else if decide (sid = [])
      then mkReply A w [] (StartSession KWebSocket id (buildOpenPacket c id false))
      else handleWebSocketUpgrade s sid w
  end.

Definition webTransportProtocol : bytes := str "webtransport".

Definition ServeHTTP (s : Server A) (random : bytes) (r : Request) (w : ResponseWriter)
    : reply A :=
  let c := s_options s in
  let '(handled, w) := applyCORS c r w in
  let unknown := rejectConnection ConnectionErrorUnknownTransport
                   (message ConnectionErrorUnknownTransport) w in
  if handled : bool then answer w
  else if decide (Method r = MethodConnect ∧ Proto r = webTransportProtocol) then
    if negb (webTransportUpgrade c) || negb (allowsTransport c TransportTypeWebTransport)
    then unknown
    else mkReply A w [] ServeWebTransport
  else if decide (Get (str "EIO") (Query r) ≠ str "4") then
    rejectConnection ConnectionErrorUnsupportedProtocolVersion
      (message ConnectionErrorUnsupportedProtocolVersion) w
  else
    let transport := Get (str "transport") (Query r) in
    if negb (allowsTransport c transport) then unknown
    else
      let sid := Get (str "sid") (Query r) in
      if decide (transport = TransportTypeWebSocket) then handleWebSocket s random r sid w
      else if decide (transport = TransportTypePolling) then handlePolling s random r sid w
      else unknown.

(** ** WebTransport (server_transport_webtransport.go) *)

(** What the session layer does: whether [Upgrade] succeeds, the stream [AcceptStream]
    returns in time, and whether the two deadlines can be set. *)
Record wt_session := mkWtSession {
  wt_upgraded : bool;
  wt_stream : option Framing.Stream;
  wt_deadline : bool;
  wt_cleared : bool;
}.

Definition webTransportHandshake (c : serverConfig) (random : bytes) (r : Request)
    (w : ResponseWriter) : reply A :=
  match allowHandshake c r w with
  | Some rejection => mkReply A w (reports rejection) CloseWebTransport
  | None =>
      let id := generateID c random r in
      mkReply A w [] (StartSession KWebTransport id (buildOpenPacket c id false))
  end.

Definition webTransportUpgrade_ (s : Server A) (sid : bytes) (w : ResponseWriter) : reply A :=
  match get sid (s_sessions s) with
  | None => mkReply A w [] CloseWebTransport
  | Some x => mkReply A w [] (ToSession x (UpgradeArrives KWebTransport))
  end.

Definition serveWebTransport (s : Server A) (random : bytes) (r : Request) (e : wt_session)
    (w : ResponseWriter) : res (reply A) :=
  let c := s_options s in
  let abandon := Ok (mkReply A w [] CloseWebTransport) in
  if negb (wt_upgraded e) then Ok (answer (WriteHeader StatusBadRequest w))
  else
    match wt_stream e with
    | None => abandon
    | Some stream =>
        if negb (wt_deadline e) then abandon
        else
          match (readWebTransportPacket stream (webTransportServerReadLimit (maxPayload c))).1 with
          | Panic => Panic
          | Err _ => abandon
          | Ok first =>
              if decide (PType first ≠ PacketOpen) then abandon
              else if negb (wt_cleared e) then abandon
              else if decide (Data first = []) then Ok (webTransportHandshake c random r w)
              else
                match parseWebTransportSessionID (Data first) with
                | Ok sid => Ok (webTransportUpgrade_ s sid w)
                | Err _ => abandon
                | Panic => Panic
                end
          end
    end.
End handlers.

(** ** Proofs *)

Lemma applyCORS_handled c r w :
  (applyCORS c r w).1 = bool_decide (Method r = MethodOptions).
Proof. unfold applyCORS. by case_decide; case_bool_decide. Qed.

(** A response that has not been started. *)
Definition unstarted (w : ResponseWriter) : Prop := rw_status w = None ∧ rw_body w = [].

Lemma header_op_unstarted f w : unstarted w → unstarted (header_op f w).
Proof. by intros [??]. Qed.

Lemma applyCORS_unstarted c r w :
  unstarted w → (applyCORS c r w).1 = false → unstarted (applyCORS c r w).2.
Proof.
  intros Hw. unfold applyCORS. case_decide; [done|]. intros _.
  repeat case_match; repeat apply header_op_unstarted; done.
Qed.

Lemma parse_error_json code : parse (Marshal (error_json code)) = Some (error_json code).
Proof.
  rewrite parse_Marshal.
  - unfold error_json. cbn [norm]. rewrite !fmap_cons, fmap_nil. cbn [fst snd norm].
    rewrite !normalise_valid by (destruct code; reflexivity). done.
  - destruct code; (split; [apply JInt_ok; vm_compute; split; discriminate|done]).
  - cbn. unfold maxNestingDepth. lia.
Qed.

Lemma writeServerError_spec code w :
  unstarted w →
  rw_status (writeServerError code w) = Some (status code) ∧
  Get (str "Content-Type") (rw_sent (writeServerError code w)) = str "application/json" ∧
  parse (rw_body (writeServerError code w)) = Some (error_json code).
Proof.
  intros [Hs Hb]. rewrite <- (parse_error_json code). unfold writeServerError.
  generalize (Marshal (error_json code)) as body. intros body.
  unfold Write, WriteHeader. cbn [header_op rw_status rw_header rw_sent rw_body].
  rewrite Hs. cbn [rw_status rw_header rw_sent rw_body].
  split; [done|]. split; [apply Get_Set|]. by rewrite Hb.
Qed.

(** A rejected request: the status, and the code in the body and in the report. *)
Definition rejected {A} (code : ConnectionErrorCode) (rp : reply A) : Prop :=
  rw_status (response rp) = Some (status code) ∧
  parse (rw_body (response rp)) = Some (error_json code) ∧
  (∃ reason, reports rp = [(code, reason)]) ∧ follows rp = Nothing.

Lemma rejectConnection_rejected {A} code reason w :
  unstarted w → rejected code (rejectConnection (A := A) code reason w).
Proof.
  intros Hw. destruct (writeServerError_spec code w Hw) as (H1 & _ & H3).
  split_and!; [done..|by eexists|done].
Qed.

Section server_proofs.
Context {A : Type}.
Variable Accept : AcceptOptions → Request → ResponseWriter → bool * ResponseWriter.

Definition gate (c : serverConfig) (r : Request) : Prop :=
  match allowRequest c with Some allow => allow r = None | None => True end.

Lemma allowHandshake_gate c r w : allowHandshake (A := A) c r w = None → gate c r.
Proof. unfold allowHandshake, gate. by repeat case_match. Qed.

Lemma allowHandshake_nothing c r w rp :
  allowHandshake (A := A) c r w = Some rp → follows rp = Nothing.
Proof. unfold allowHandshake. intros H. by repeat case_match; simplify_eq/=. Qed.

Lemma handleSend_follows c r (x : stored A) w y a :
  follows (handleSend c r x w) = ToSession y a → y = x.
Proof. unfold handleSend. intros H. by repeat case_match; simplify_eq/=. Qed.

Lemma handleSend_no_start c r (x : stored A) w k id op :
  follows (handleSend c r x w) ≠ StartSession k id op.
Proof. unfold handleSend. by repeat case_match. Qed.

(** What a request can set in motion. *)
Definition justified (s : Server A) (random : bytes) (r : Request) (f : action A) : Prop :=
  let sid := Get (str "sid") (Query r) in
  let c := s_options s in
  match f with
  | StartSession k id op =>
      sid = [] ∧ Get (str "EIO") (Query r) = str "4" ∧ gate c r ∧
      allowsTransport c (Get (str "transport") (Query r)) = true ∧
      id = generateID c random r ∧
      (k = KPolling ∧ Method r = MethodGet ∧ op = buildOpenPacket c id true ∨
       k = KWebSocket ∧ op = buildOpenPacket c id false)
  | ToSession x a => sid ≠ [] ∧ Get (str "EIO") (Query r) = str "4" ∧ get sid (s_sessions s) = Some x
  | _ => True
  end.

Lemma handlePolling_justified s random r w :
  let sid := Get (str "sid") (Query r) in
  Get (str "EIO") (Query r) = str "4" →
  allowsTransport (s_options s) (Get (str "transport") (Query r)) = true →
  justified s random r (follows (handlePolling s random r sid w)).
Proof.
  intros sid He Ht. unfold handlePolling. case_decide as Hs.
  - case_decide as Hm; [done|]. unfold handleHandshake.
    destruct (allowHandshake (s_options s) r w) as [rp|] eqn:Hg.
    + by rewrite (allowHandshake_nothing _ _ _ _ Hg).
    + apply allowHandshake_gate in Hg. cbn. split_and!; try done. auto.
  - destruct (get sid (s_sessions s)) as [x|] eqn:Hx; [|done].
    case_decide; [done|]. case_decide; [|done].
    destruct (follows (handleSend (s_options s) r x w)) eqn:Hf; try done.
    + by apply handleSend_no_start in Hf.
    + by apply handleSend_follows in Hf as ->.
Qed.

Lemma handleWebSocket_justified s random r w :
  let sid := Get (str "sid") (Query r) in
  Get (str "EIO") (Query r) = str "4" →
  allowsTransport (s_options s) (Get (str "transport") (Query r)) = true →
  justified s random r (follows (handleWebSocket Accept s random r sid w)).
Proof.
  intros sid He Ht. unfold handleWebSocket, handleWebSocketUpgrade. case_decide as Hs.
  - destruct (allowHandshake (s_options s) r w) as [rp|] eqn:Hg.
    + by rewrite (allowHandshake_nothing _ _ _ _ Hg).
    + apply allowHandshake_gate in Hg. destruct (Accept _ _ _) as [[] w']; [|done]. cbn.
      split_and!; try done. auto.
  - destruct (Accept _ _ _) as [[] w']; [|done]. cbn.
    by destruct (get sid (s_sessions s)) eqn:Hx.
Qed.

Lemma ServeHTTP_justified s random r w :
  justified s random r (follows (ServeHTTP Accept s random r w)).
Proof.
  unfold ServeHTTP. destruct (applyCORS _ r w) as [[] w']; [done|].
  case_decide; [by case_match|]. case_decide as He; [done|].
  destruct (allowsTransport _ _) eqn:Ht; [|done]. cbn [negb].
  case_decide; [by apply handleWebSocket_justified|].
  case_decide; [by apply handlePolling_justified|done].
Qed.

(** Only a WebSocket request is an upgrade. *)
Lemma ServeHTTP_arrival (s : Server A) random r w x a :
  follows (ServeHTTP Accept s random r w) = ToSession x a → a ≠ UpgradeArrives KPolling.
Proof.
  unfold ServeHTTP, handlePolling, handleWebSocket, handleWebSocketUpgrade, handleHandshake,
    handleSend, allowHandshake.
  intros H ->. repeat (case_match; simplify_eq/=).
Qed.
End server_proofs.

(** ** Properties *)


(** C32. A bad request is refused with the code the protocol defines, in the JSON body and
    in the report to the application, the earliest problem first: the protocol version,
    then the transport, then, for polling, the handshake method or the session
    identifier. *)
Theorem bad_requests_rejected {A} Accept (s : Server A) random r w :
  let rp := ServeHTTP Accept s random r w in
  let sid := Get (str "sid") (Query r) in
  let transport := Get (str "transport") (Query r) in
  unstarted w → Method r ≠ MethodOptions → Method r ≠ MethodConnect →
  if decide (Get (str "EIO") (Query r) ≠ str "4")
  then rejected ConnectionErrorUnsupportedProtocolVersion rp
  else if allowsTransport (s_options s) transport then
    transport = TransportTypePolling →
    (sid = [] → Method r ≠ MethodGet → rejected ConnectionErrorBadHandshakeMethod rp) ∧
    (sid ≠ [] → get sid (s_sessions s) = None → rejected ConnectionErrorUnknownSessionID rp)
  else rejected ConnectionErrorUnknownTransport rp.
Proof.
  intros rp sid transport Hw Ho Hc. subst rp. unfold ServeHTTP.
  pose proof (applyCORS_handled (s_options s) r w) as Hh.
  pose proof (applyCORS_unstarted (s_options s) r w Hw) as Hu.
  destruct (applyCORS (s_options s) r w) as [h w']. cbn in Hh, Hu.
  rewrite bool_decide_eq_false_2 in Hh by done. subst h. specialize (Hu eq_refl).
  rewrite (decide_False (P := _ ∧ _)) by tauto.
  case_decide; [by apply rejectConnection_rejected|]. fold transport sid.
  destruct (allowsTransport _ _); cbn [negb]; [|by apply rejectConnection_rejected].
  intros Ht. rewrite Ht. rewrite decide_False by done. rewrite decide_True by done.
  unfold handlePolling. split.
  - intros Hs Hm. rewrite (decide_True _ _ Hs), (decide_True _ _ Hm).
    by apply rejectConnection_rejected.
  - intros Hs Hg. rewrite (decide_False _ _ Hs), Hg. by apply rejectConnection_rejected.
Qed.

(** Requests to try the handlers on. *)
Definition query (l : list (string * string)) : values := (λ kv, (str kv.1, str kv.2)) <$> l.
Definition request (method : bytes) (q h : list (string * string)) (body : bytes) : Request :=
  mkRequest method (str "HTTP/1.1") (query q) (query h) (body, None).
Definition poll_get : Request :=
  request MethodGet [("EIO", "4"); ("transport", "polling"); ("sid", "abc")]%string [] [].
Definition accept_all (o : AcceptOptions) (r : Request) (w : ResponseWriter) :=
  (true, w).

Lemma bad_requests_rejected_witness :
  rejected ConnectionErrorUnknownSessionID
    (ServeHTTP accept_all (NewServer (A := nat) []) [] poll_get response0).
Proof.
  pose proof (bad_requests_rejected accept_all (NewServer (A := nat) []) [] poll_get response0) as H.
  apply H; [done|vm_compute; discriminate|vm_compute; discriminate|vm_compute; reflexivity|
            vm_compute; discriminate|vm_compute; reflexivity].
Defined.

(** ** CORS *)

(** The two headers a browser tests before it lets a script see the response. *)
Definition acao (w : ResponseWriter) : bytes :=
  Get (str "Access-Control-Allow-Origin") (rw_header w).
Definition acac (w : ResponseWriter) : bytes :=
  Get (str "Access-Control-Allow-Credentials") (rw_header w).

Lemma header_WriteHeader n w : rw_header (WriteHeader n w) = rw_header w.
Proof. unfold WriteHeader. by case_match. Qed.

Lemma header_header_op f w : rw_header (header_op f w) = f (rw_header w).
Proof. done. Qed.

(** Reads a header through the writes to other headers. *)
Ltac headers :=
  unfold acao, acac in *;
  repeat first
    [ rewrite header_WriteHeader | rewrite header_header_op | rewrite Get_Set
    | rewrite Get_Set_ne by (vm_compute; discriminate)
    | rewrite Get_Add_ne by (vm_compute; discriminate) ].

Lemma applyCORS_headers c r w :
  let o := allow_origin c (Get (str "Origin") (Header r)) in
  acao w = [] → acac w = [] →
  acao (applyCORS c r w).2 = o ∧
  acac (applyCORS c r w).2 =
    (if decide (o = []) then [] else if AllowCredentials (cors c) then str "true" else []).
Proof.
  intros o Ha Hc. subst o. unfold applyCORS. cbv zeta.
  generalize (allow_origin c (Get (str "Origin") (Header r))) as o. intros o.
  destruct (decide (o = [])), (decide (o = str "*")),
    (AllowCredentials (cors c)), (decide (Method r = MethodOptions)); cbn [snd]; headers; split; congruence.
Qed.

(** C37. Cross-origin access is granted exactly to the configured origins.  A response
    carries Access-Control-Allow-Origin when the policy admits every origin or lists the
    request's own; the value is that origin or the wildcard, and the wildcard never goes
    with credentials to a request that names its origin.  Credentials are offered only
    with a grant, when configured.  A preflight is answered 204 and does nothing else,
    whatever else the request says. *)
Theorem cors_policy {A} Accept (s : Server A) random r w :
  let c := s_options s in
  let origin := Get (str "Origin") (Header r) in
  let w' := (applyCORS c r w).2 in
  acao w = [] → acac w = [] → rw_status w = None →
  (acao w' ≠ [] ↔ allowsAllOrigins c = true ∨ origin ≠ [] ∧ origin ∈ AllowedOrigins (cors c)) ∧
  (acao w' ∈ [[]; str "*"; origin]) ∧
  (acac w' = str "true" ↔ acao w' ≠ [] ∧ AllowCredentials (cors c) = true) ∧
  (acac w' = str "true" → origin ≠ [] → acao w' = origin) ∧
  (Method r = MethodOptions →
   ServeHTTP Accept s random r w = answer w' ∧ rw_status w' = Some StatusNoContent).
Proof.
  intros c origin w' Ha Hc Hs. destruct (applyCORS_headers c r w Ha Hc) as [H1 H2].
  fold origin w' in H1, H2. rewrite H1, H2.
  assert (Hspec : allow_origin c origin ≠ [] ↔
            allowsAllOrigins c = true ∨ origin ≠ [] ∧ origin ∈ AllowedOrigins (cors c)).
  { unfold allow_origin. destruct (allowsAllOrigins c).
    - split; [by left|]. intros _.
      destruct (AllowCredentials (cors c)); case_bool_decide; done.
    - destruct (decide (origin = [])), (decide (origin ∈ AllowedOrigins (cors c)));
        repeat case_bool_decide; cbn; intuition congruence. }
  assert (Hval : allow_origin c origin ∈ [[]; str "*"; origin] ∧
            (AllowCredentials (cors c) = true → allow_origin c origin ≠ [] → origin ≠ [] →
             allow_origin c origin = origin)).
  { unfold allow_origin. destruct (allowsAllOrigins c), (AllowCredentials (cors c));
      repeat case_bool_decide; cbn [negb andb]; split; try done; set_solver. }
  destruct Hval as [Hin Hval].
  split; [done|]. split; [done|]. split_and!.
  - case_decide; [by split; [vm_compute; discriminate|intros [? _]]|].
    destruct (AllowCredentials (cors c)); by split; [|intros [??]].
  - intros Hcr Ho. apply Hval; [..|done]; revert Hcr; case_decide; try done.
    by destruct (AllowCredentials (cors c)).
  - intros Hm. unfold ServeHTTP, w', applyCORS. fold c. rewrite (decide_True _ _ Hm).
    split; [done|]. cbn [snd]. unfold WriteHeader. repeat case_match; cbn in *; congruence.
Qed.

Lemma cors_policy_witness :
  let c := NewServer_config [WithCORS (mkCORS true [str "https://a.example"] [])] in
  let r := request MethodOptions [] [("Origin", "https://a.example")]%string [] in
  acac (applyCORS c r response0).2 = str "true" ∧
  acao (applyCORS c r response0).2 = str "https://a.example" ∧
  follows (ServeHTTP accept_all (mkServer nat c ∅ None None) [] r response0) = Nothing.
Proof.
  set (c := NewServer_config _). set (r := request _ _ _ _).
  destruct (cors_policy accept_all (mkServer nat c ∅ None None) [] r response0) as (_ & _ & _ & H & Hp);
    [done..|].
  split; [done|]. split; [apply H; done|]. destruct Hp as [Hp _]; [done|]. by rewrite Hp.
Defined.
