(* ===== verification/Pools.v ===== *)
(** * Buffer pools (internal/pool.go and its uses)

    A process has three pools, which all its sessions share: the buffers that carry a poll
    payload to the held poll ([getPollBuffer] and [putPollBuffer],
    server_transport_polling.go), and the output buffers and writers that compress a
    response ([writePollResponse] and [putGzipBuffer], server.go).  The machine here is the
    life of the pooled values alone, for any number of deliveries and polls at a time and
    whatever order their goroutines run in.  It reads a payload and writes a compressed
    response where the source does, through the buffer a writer was last reset to: a value
    used after it was returned, or a reset that was forgotten, would show in the response of
    another poll. *)
From S2P Require Import Prelude Machine Packet Payload Http ServerOptions ServerTransport Server.

(** ** Pool

    A pool of pointers.  [sync.Pool] may drop a value at any time and may call [New] at any
    [Get]: [pick] is the value it returns, if it has it. *)
Module Pool.
Record Pool := mkPool { free : list nat; made : nat }.
Definition NewPool : Pool := mkPool [] 0.
Definition Get (pick : nat) (p : Pool) : nat * Pool :=
  if decide (pick ∈ free p) then (pick, mkPool (remove_first pick (free p)) (made p))
  else (made p, mkPool (free p) (S (made p))).
Definition Put (x : nat) (p : Pool) : Pool := mkPool (x :: free p) (made p).
End Pool.
Import Pool.

Definition maxPooledPayloadBuffer : Z := 64 * 1024.

(** A [[]byte] behind a pointer, and a [bytes.Buffer]. *)
Record buffer := mkBuffer { content : bytes; cap : Z }.

(** The capacity after an append: that of a new array, if the old one is too small.  The
    runtime chooses it. *)
Definition grown (o : Z) (b : buffer) (data : bytes) : Z :=
  if decide (len data <= cap b) then cap b else Z.max o (len data).

Definition Reset (b : buffer) : buffer := mkBuffer [] (cap b).
Definition BufferWrite (o : Z) (data : bytes) (b : buffer) : buffer :=
  mkBuffer (content b ++ data) (grown o b (content b ++ data)).

Inductive kind := PollBuffer | GzipBuffer | GzipWriter.
#[export] Instance kind_eq_decision : EqDecision kind.
Proof. solve_decision. Defined.

(** A poll that waits on a channel, with what its response depends on. *)
Record poll := mkPoll {
  p_ch : nat;
  p_config : serverConfig;
  p_request : Request;
  p_writer : ResponseWriter;
}.

(** [b] is the buffer with the payload, [zb] the output buffer, [z] the writer. *)
Inductive instr :=
| GetPollBuffer (ch : nat) (packets : list Packet)
| Encode (ch b : nat) (packets : list Packet)
| Deliver (ch b : nat)
| Receive (q : poll)
| Respond (q : poll) (b : nat)
| GetGzipBuffer (q : poll) (b : nat)
| ResetBuffer (q : poll) (b zb : nat)
| GetWriter (q : poll) (b zb : nat)
| ResetWriter (q : poll) (b zb z : nat)
| WriterWrite (q : poll) (b zb z : nat)
| WriterClose (q : poll) (b zb z : nat)
| WriteCompressed (q : poll) (b zb z : nat)
| PutWriter (b zb z : nat)
| PutGzipBuffer (b zb : nat)
| RecycleGzip (b zb : nat)
| PutPollBuffer (b : nat)
| Recycle (b : nat).

Record oracle := mkOracle { o_pick : nat; o_cap : Z }.

(** ** The machine

    A [gzip.Writer] has a state of its own; [Write] and [Close] write to the buffer it was
    reset to, and may fail.  [Reset] makes it a new writer, as documented. *)
Section pools.
Context {zstate : Type}.
Variable z_new : zstate.
Variable z_write : zstate → bytes → zstate * bytes * option error.
Variable z_close : zstate → zstate * bytes * option error.

(** What compression writes, with a writer of its own. *)
Definition compress (payload : bytes) : res bytes :=
  match z_write z_new payload with
  | (_, _, Some err) => Err err
  | (s, out, None) =>
      match z_close s with
      | (_, _, Some err) => Err err
      | (_, rest, None) => Ok (out ++ rest)
      end
  end.

(** [writers]: the state and the destination, none for [io.Discard].  [handed] and
    [responses] are the history: the packets handed to the poll of a channel, and what was
    answered. *)
Record World := mkWorld {
  pollPayloadPool : Pool;
  gzipBufferPool : Pool;
  gzipWriterPool : Pool;
  pollBuffers : gmap nat buffer;
  gzipBuffers : gmap nat buffer;
  writers : gmap nat (zstate * option nat);
  channels : gmap nat nat;
  handed : gmap nat (list Packet);
  responses : list (poll * res ResponseWriter);
}.

Definition pool_of (k : kind) (w : World) : Pool :=
  match k with
  | PollBuffer => pollPayloadPool w
  | GzipBuffer => gzipBufferPool w
  | GzipWriter => gzipWriterPool w
  end.
Definition set_pool (k : kind) (p : Pool) (w : World) : World :=
  mkWorld (if decide (k = PollBuffer) then p else pollPayloadPool w)
    (if decide (k = GzipBuffer) then p else gzipBufferPool w)
    (if decide (k = GzipWriter) then p else gzipWriterPool w)
    (pollBuffers w) (gzipBuffers w) (writers w) (channels w) (handed w) (responses w).
Definition poll_buffer (b : nat) (w : World) : buffer := default (mkBuffer [] 0) (pollBuffers w !! b).
Definition gzip_buffer (b : nat) (w : World) : buffer := default (mkBuffer [] 0) (gzipBuffers w !! b).
Definition writer (z : nat) (w : World) : zstate * option nat := default (z_new, None) (writers w !! z).
Definition set_poll_buffer (b : nat) (v : buffer) (w : World) : World :=
  mkWorld (pollPayloadPool w) (gzipBufferPool w) (gzipWriterPool w) (<[b := v]> (pollBuffers w))
    (gzipBuffers w) (writers w) (channels w) (handed w) (responses w).
Definition set_gzip_buffer (b : nat) (v : buffer) (w : World) : World :=
  mkWorld (pollPayloadPool w) (gzipBufferPool w) (gzipWriterPool w) (pollBuffers w)
    (<[b := v]> (gzipBuffers w)) (writers w) (channels w) (handed w) (responses w).
Definition set_writer (z : nat) (v : zstate * option nat) (w : World) : World :=
  mkWorld (pollPayloadPool w) (gzipBufferPool w) (gzipWriterPool w) (pollBuffers w)
    (gzipBuffers w) (<[z := v]> (writers w)) (channels w) (handed w) (responses w).
Definition set_channels (v : gmap nat nat) (w : World) : World :=
  mkWorld (pollPayloadPool w) (gzipBufferPool w) (gzipWriterPool w) (pollBuffers w)
    (gzipBuffers w) (writers w) v (handed w) (responses w).
Definition hand (ch : nat) (ps : list Packet) (w : World) : World :=
  mkWorld (pollPayloadPool w) (gzipBufferPool w) (gzipWriterPool w) (pollBuffers w)
    (gzipBuffers w) (writers w) (channels w) (<[ch := ps]> (handed w)) (responses w).
Definition respond (q : poll) (r : res ResponseWriter) (w : World) : World :=
  mkWorld (pollPayloadPool w) (gzipBufferPool w) (gzipWriterPool w) (pollBuffers w)
    (gzipBuffers w) (writers w) (channels w) (handed w) (responses w ++ [(q, r)]).

Definition start : World :=
  mkWorld NewPool NewPool NewPool ∅ ∅ ∅ ∅ ∅ [].

Notation outcome := (Machine.outcome World instr).

Definition take_from (k : kind) (o : oracle) (next : nat → instr) (w : World) : outcome :=
  let '(x, p) := Get (o_pick o) (pool_of k w) in Next (set_pool k p w) [next x] [].

(** [getPollBuffer] after its [Get]. *)
Definition exec_encode (o : oracle) (ch b : nat) (packets : list Packet) (w : World) : outcome :=
  let data := appendPayload [] packets in
  Next (set_poll_buffer b (mkBuffer data (grown (o_cap o) (poll_buffer b w) data)) w)
    [Deliver ch b] [].

(** [putPollBuffer] and [putGzipBuffer]: too large a buffer is left to the collector. *)
Definition exec_putPollBuffer (b : nat) (w : World) : outcome :=
  if decide (cap (poll_buffer b w) > maxPooledPayloadBuffer) then Next w [] []
  else Next (set_poll_buffer b (Reset (poll_buffer b w)) w) [Recycle b] [].
Definition exec_putGzipBuffer (b zb : nat) (w : World) : outcome :=
  if decide (cap (gzip_buffer zb w) > maxPooledPayloadBuffer) then Next w [PutPollBuffer b] []
  else Next (set_gzip_buffer zb (Reset (gzip_buffer zb w)) w) [RecycleGzip b zb] [].

(** The condition of [writePollResponse]. *)
Definition compresses (q : poll) (payload : bytes) : bool :=
  httpCompression (p_config q) && (pollCompressionThreshold <=? len payload) &&
  acceptsGzip (p_request q).

Definition exec_respond (q : poll) (b : nat) (w : World) : outcome :=
  let payload := content (poll_buffer b w) in
  if compresses q payload then Next w [GetGzipBuffer q b] []
  else Next (respond q (Ok (Write payload (writePollHeaders (p_writer q)))) w)
         [PutPollBuffer b] [].

(** The writer writes to the buffer it was reset to. *)
Definition emit_to (o : oracle) (dst : option nat) (out : bytes) (w : World) : World :=
  match dst with
  | None => w
  | Some zb => set_gzip_buffer zb (BufferWrite (o_cap o) out (gzip_buffer zb w)) w
  end.

Definition exec_writer (o : oracle) (q : poll) (b zb z : nat)
    (r : zstate * bytes * option error) (next : instr) (w : World) : outcome :=
  let '(s, out, err) := r in
  let dst := (writer z w).2 in
  let w := emit_to o dst out (set_writer z (s, dst) w) in
  match err with
  | Some err => Next (respond q (Err err) w) [PutWriter b zb z] []
  | None => Next w [next] []
  end.

Definition exec_write_compressed (q : poll) (b zb z : nat) (w : World) : outcome :=
  let rw := header_op (Set_ (str "Content-Encoding") (str "gzip"))
              (writePollHeaders (p_writer q)) in
  Next (respond q (Ok (Write (content (gzip_buffer zb w)) rw)) w) [PutWriter b zb z] [].

Definition exec (o : oracle) (i : instr) (w : World) : outcome :=
  match i with
  | GetPollBuffer ch packets => take_from PollBuffer o (λ b, Encode ch b packets) w
  | Encode ch b packets => exec_encode o ch b packets w
  | Deliver ch b =>
      match channels w !! ch with
      | Some _ => Blocked
      | None => Next (set_channels (<[ch := b]> (channels w)) w) [] []
      end
  | Receive q =>
      match channels w !! p_ch q with
      | None => Blocked
      | Some b => Next (set_channels (delete (p_ch q) (channels w)) w) [Respond q b] []
      end
  | Respond q b => exec_respond q b w
  | GetGzipBuffer q b => take_from GzipBuffer o (ResetBuffer q b) w
  | ResetBuffer q b zb =>
      Next (set_gzip_buffer zb (Reset (gzip_buffer zb w)) w) [GetWriter q b zb] []
  | GetWriter q b zb => take_from GzipWriter o (ResetWriter q b zb) w
  | ResetWriter q b zb z => Next (set_writer z (z_new, Some zb) w) [WriterWrite q b zb z] []
  | WriterWrite q b zb z =>
      exec_writer o q b zb z (z_write (writer z w).1 (content (poll_buffer b w)))
        (WriterClose q b zb z) w
  | WriterClose q b zb z =>
      exec_writer o q b zb z (z_close (writer z w).1) (WriteCompressed q b zb z) w
  | WriteCompressed q b zb z => exec_write_compressed q b zb z w
  | PutWriter b zb z =>
      Next (set_pool GzipWriter (Put z (gzipWriterPool w)) w) [PutGzipBuffer b zb] []
  | PutGzipBuffer b zb => exec_putGzipBuffer b zb w
  | RecycleGzip b zb =>
      Next (set_pool GzipBuffer (Put zb (gzipBufferPool w)) w) [PutPollBuffer b] []
  | PutPollBuffer b => exec_putPollBuffer b w
  | Recycle b => Next (set_pool PollBuffer (Put b (pollPayloadPool w)) w) [] []
  end.

(** Packets are handed to the poll of a channel once; a poll is held. *)
Inductive happening := Handed (ch : nat) (packets : list Packet) | Held (q : poll).

Definition happen (e : happening) (w : World) : option (World * list instr) :=
  match e with
  | Handed ch packets =>
      match handed w !! ch with
      | Some _ => None
      | None => Some (hand ch packets w, [GetPollBuffer ch packets])
      end
  | Held q => Some (w, [Receive q])
  end.

Definition reachable (cfg : World * list (list instr)) : Prop :=
  rtc (step exec happen) (start, []) cfg.

(** ** Ownership

    The pooled values a goroutine holds; a value in a channel is held by the channel. *)
Definition owned (i : instr) : list (kind * nat) :=
  match i with
  | GetPollBuffer _ _ | Receive _ => []
  | Encode _ b _ | Deliver _ b | Respond _ b | GetGzipBuffer _ b | PutPollBuffer b
  | Recycle b => [(PollBuffer, b)]
  | ResetBuffer _ b zb | GetWriter _ b zb | PutGzipBuffer b zb | RecycleGzip b zb =>
      [(PollBuffer, b); (GzipBuffer, zb)]
  | ResetWriter _ b zb z | WriterWrite _ b zb z | WriterClose _ b zb z
  | WriteCompressed _ b zb z | PutWriter b zb z =>
      [(PollBuffer, b); (GzipBuffer, zb); (GzipWriter, z)]
  end.

Definition idle (w : World) : list (kind * nat) :=
  (pair PollBuffer <$> free (pollPayloadPool w)) ++ (pair GzipBuffer <$> free (gzipBufferPool w)) ++
  (pair GzipWriter <$> free (gzipWriterPool w)) ++
  (pair PollBuffer <$> (map_to_list (channels w)).*2).

Definition values_of (w : World) (P : list instr) : list (kind * nat) :=
  idle w ++ gather owned P.

(** The value behind a pointer is the same in both. *)
Definition same (w w' : World) (x : kind * nat) : Prop :=
  match x with
  | (PollBuffer, b) => poll_buffer b w' = poll_buffer b w
  | (GzipBuffer, b) => gzip_buffer b w' = gzip_buffer b w
  | (GzipWriter, z) => writer z w' = writer z w
  end.

(** The buffer has the payload of the poll of the channel. *)
Definition loaded (w : World) (ch b : nat) : Prop :=
  ∃ ps, handed w !! ch = Some ps ∧ content (poll_buffer b w) = EncodePayload ps.

Definition loaded_gzip (w : World) (q : poll) (b : nat) : Prop :=
  loaded w (p_ch q) b ∧ compresses q (content (poll_buffer b w)) = true.

(** What a goroutine relies on, of the values it holds. *)
Definition good (w : World) (i : instr) : Prop :=
  match i with
  | GetPollBuffer ch ps | Encode ch _ ps => handed w !! ch = Some ps
  | Deliver ch b => loaded w ch b
  | Respond q b => loaded w (p_ch q) b
  | GetGzipBuffer q b | ResetBuffer q b _ => loaded_gzip w q b
  | GetWriter q b zb | ResetWriter q b zb _ =>
      loaded_gzip w q b ∧ content (gzip_buffer zb w) = []
  | WriterWrite q b zb z =>
      loaded_gzip w q b ∧ content (gzip_buffer zb w) = [] ∧ writer z w = (z_new, Some zb)
  | WriterClose q b zb z =>
      loaded_gzip w q b ∧ ∃ s, writer z w = (s, Some zb) ∧
      z_write z_new (content (poll_buffer b w)) = (s, content (gzip_buffer zb w), None)
  | WriteCompressed q b zb z =>
      loaded_gzip w q b ∧
      compress (content (poll_buffer b w)) = Ok (content (gzip_buffer zb w))
  | RecycleGzip _ zb => cap (gzip_buffer zb w) <= maxPooledPayloadBuffer
  | Recycle b => cap (poll_buffer b w) <= maxPooledPayloadBuffer
  | Receive _ | PutWriter _ _ _ | PutGzipBuffer _ _ | PutPollBuffer _ => True
  end.

(** The response without pools. *)
Definition gz (payload : bytes) : bytes :=
  match compress payload with Ok out => out | _ => [] end.
Definition direct_response (q : poll) (payload : bytes) : res ResponseWriter :=
  match compress payload with
  | Err err => if compresses q payload then Err err
               else Ok (writePollResponse gz (p_config q) (p_request q) payload (p_writer q))
  | _ => Ok (writePollResponse gz (p_config q) (p_request q) payload (p_writer q))
  end.

Definition answered (w : World) (x : poll * res ResponseWriter) : Prop :=
  ∃ ps, handed w !! p_ch x.1 = Some ps ∧ x.2 = direct_response x.1 (EncodePayload ps).

Definition small (w : World) (x : kind * nat) : Prop :=
  match x with
  | (PollBuffer, b) => cap (poll_buffer b w) <= maxPooledPayloadBuffer
  | (GzipBuffer, b) => cap (gzip_buffer b w) <= maxPooledPayloadBuffer
  | (GzipWriter, _) => True
  end.

Definition pooled (w : World) (x : kind * nat) : Prop := x.2 ∈ free (pool_of x.1 w).

Record ok (w : World) (P : list instr) : Prop := {
  ok_nodup : NoDup (values_of w P);
  ok_made k n : (k, n) ∈ values_of w P → (n < made (pool_of k w))%nat;
  ok_good i : i ∈ P → good w i;
  ok_chan ch b : channels w !! ch = Some b → loaded w ch b;
  ok_small x : pooled w x → small w x;
  ok_answered x : x ∈ responses w → answered w x;
}.

#[export] Instance ok_multiset : Multiset ok.
Proof.
  intros w P Q HPQ. assert (values_of w P ≡ₚ values_of w Q) as Hv.
  { unfold values_of. by rewrite HPQ. }
  split; intros []; split; try done; intros *;
    (rewrite <- Hv || rewrite Hv || rewrite <- HPQ || rewrite HPQ || idtac); eauto.
Qed.

Ltac rewrite_same :=
  repeat match goal with
  | H : poll_buffer _ _ = _ |- _ => rewrite H
  | H : gzip_buffer _ _ = _ |- _ => rewrite H
  | H : writer _ _ = _ |- _ => rewrite H
  end.

(** A goroutine's assumptions only concern what it holds. *)
Lemma good_frame w w' i :
  handed w ⊆ handed w' → Forall (same w w') (owned i) → good w i → good w' i.
Proof.
  intros Hh Hs. assert (∀ ch b, same w w' (PollBuffer, b) → loaded w ch b → loaded w' ch b) as Hl.
  { intros ch b Hb (ps & H1 & H2). exists ps. cbn in Hb. rewrite Hb.
    split; [|done]. by eapply lookup_weaken. }
  destruct i; cbn [good owned] in *; unfold loaded_gzip; decompose_Forall_hyps; try done.
  all: try (intros; by eapply lookup_weaken).
  all: try (intros; by apply Hl).
  all: cbn [same] in *; rewrite_same.
  all: intros; destruct_and?; split_and?; auto.
Qed.

Lemma owned_apart w i P x : ok w (i :: P) → x ∈ idle w ++ gather owned P → x ∉ owned i.
Proof.
  intros Hok Hx Hi. pose proof (ok_nodup _ _ Hok) as Hn. unfold values_of in Hn.
  rewrite gather_cons, (Permutation_app_swap_app _ (owned i)) in Hn.
  apply list.NoDup_app in Hn as (_ & Hd & _). by apply (Hd x).
Qed.

Lemma pooled_idle w x : pooled w x → x ∈ idle w.
Proof.
  destruct x as [[] n]; unfold pooled, idle; cbn; intros Hn; rewrite !elem_of_app;
    [left|right; left|right; right; left]; by apply list_elem_of_fmap_2.
Qed.

Lemma channel_idle w ch b : channels w !! ch = Some b → (PollBuffer, b) ∈ idle w.
Proof.
  intros Hc. unfold idle. rewrite !elem_of_app. do 3 right. apply list_elem_of_fmap_2.
  apply list_elem_of_fmap. exists (ch, b). split; [done|]. by apply elem_of_map_to_list.
Qed.

(** A step that changes only what its goroutine holds. *)
Lemma ok_step w w' i push P :
  ok w (i :: P) →
  NoDup (values_of w' (push ++ P)) →
  (∀ k n, (k, n) ∈ values_of w' (push ++ P) → (n < made (pool_of k w'))%nat) →
  handed w' = handed w →
  (∀ x, x ∉ owned i → same w w' x) →
  (∀ j, j ∈ push → good w' j) →
  (∀ ch b, channels w' !! ch = Some b → channels w !! ch = Some b ∨ loaded w' ch b) →
  (∀ x, pooled w' x → pooled w x ∨ small w' x) →
  (∀ x, x ∈ responses w' → x ∈ responses w ∨ answered w' x) →
  ok w' (push ++ P).
Proof.
  intros Hok Hn Hm Hh Hs Hp Hc Hsm Ha. split; [done..| | | |].
  - intros j [Hj|Hj]%elem_of_app; [by apply Hp|].
    apply (good_frame w); [by rewrite Hh| |by apply (ok_good _ _ Hok); right].
    apply Forall_forall. intros x Hx%list_elem_of_In. apply Hs, (owned_apart w i P); [done|].
    apply elem_of_app; right. by eapply gather_in.
  - intros ch b Hb. destruct (Hc ch b Hb) as [Hb'|]; [|done].
    destruct (ok_chan _ _ Hok ch b Hb') as (ps & H1 & H2). exists ps. rewrite Hh. split; [done|].
    assert (same w w' (PollBuffer, b)) as ->; [|done].
    apply Hs, (owned_apart w i P); [done|]. apply elem_of_app; left. by eapply channel_idle.
  - intros x Hx. destruct (Hsm x Hx) as [Hx'|]; [|done].
    pose proof (ok_small _ _ Hok x Hx') as Hcap.
    assert (same w w' x) as Hsame.
    { apply Hs, (owned_apart w i P); [done|]. apply elem_of_app; left. by apply pooled_idle. }
    destruct x as [[] n]; cbn in *; congruence.
  - intros x Hx. destruct (Ha x Hx) as [Hx'|]; [|done].
    destruct (ok_answered _ _ Hok x Hx') as (ps & H1 & H2). exists ps. by rewrite Hh.
Qed.

(** A step within the values its goroutine holds. *)
Lemma ok_keep w w' i push P :
  ok w (i :: P) →
  idle w' = idle w → (∀ k, pool_of k w' = pool_of k w) → channels w' = channels w →
  handed w' = handed w →
  gather owned push ⊆+ owned i →
  (∀ x, x ∉ owned i → same w w' x) →
  (∀ j, j ∈ push → good w' j) →
  (∀ x, x ∈ responses w' → x ∈ responses w ∨ answered w' x) →
  ok w' (push ++ P).
Proof.
  intros Hok Hi Hp Hc Hh Hsub Hs Hg Ha.
  assert (values_of w' (push ++ P) ⊆+ values_of w (i :: P)) as Hv.
  { unfold values_of. rewrite Hi, gather_app, gather_cons.
    by apply submseteq_app, submseteq_app. }
  apply (ok_step w w' i); try done.
  - pose proof (ok_nodup _ _ Hok) as Hn.
    destruct (submseteq_Permutation _ _ Hv) as [l Hl]. rewrite Hl in Hn.
    by apply list.NoDup_app in Hn as [??].
  - intros k n Hn. rewrite Hp. apply (ok_made _ _ Hok). by eapply elem_of_submseteq.
  - rewrite Hc. by left.
  - intros x. unfold pooled. rewrite Hp. by left.
Qed.

Lemma pool_of_set k k' p w :
  pool_of k' (set_pool k p w) = if decide (k = k') then p else pool_of k' w.
Proof. by destruct k, k'. Qed.

Lemma idle_get k o w x p :
  Get o (pool_of k w) = (x, p) →
  (idle w ≡ₚ (k, x) :: idle (set_pool k p w) ∧ made p = made (pool_of k w)) ∨
  (idle (set_pool k p w) = idle w ∧ x = made (pool_of k w) ∧ made p = S x).
Proof.
  unfold Get. case_decide as Hin; intros [= <- <-]; [left|by right; destruct k].
  split; [|done].
  destruct k; unfold idle; cbn in *; rewrite (remove_first_perm _ _ Hin) at 1; solve_Permutation.
Qed.

Lemma ok_take k o next w w' push spawn i P :
  take_from k o next w = Next w' push spawn → ok w (i :: P) →
  (∀ x, owned (next x) ≡ₚ (k, x) :: owned i) → (∀ x, good w i → good w (next x)) →
  ok w' (push ++ concat spawn ++ P).
Proof.
  unfold take_from. destruct (Get _ _) as [x p] eqn:Hget. intros [= <- <- <-] Hok Ho Hg.
  assert (∀ y, same w (set_pool k p w) y) as Hsame by (by intros [[] n]; destruct k).
  assert (∀ k', made (pool_of k' w) ≤ made (pool_of k' (set_pool k p w)))%nat as Hmade.
  { intros k'. rewrite pool_of_set. case_decide as Hk; [subst k'|done].
    apply idle_get in Hget as [[_ H]|(_ & H1 & H2)]; lia. }
  assert (made (pool_of k (set_pool k p w)) = made p) as Hmk by (by destruct k).
  apply (ok_step w _ i); try done.
  - pose proof (ok_nodup _ _ Hok) as Hn. unfold values_of in *. cbn [app concat] in *.
    rewrite gather_cons, Ho in *. cbn [app] in *. rewrite <- Permutation_middle.
    apply idle_get in Hget as [[Hi _]|(Hi & -> & _)].
    + rewrite Hi in Hn. done.
    + rewrite Hi. apply NoDup_cons_2; [|done]. intros Hin.
      apply (ok_made _ _ Hok) in Hin. lia.
  - intros k' n. unfold values_of. cbn [app concat]. rewrite gather_cons, Ho. cbn [app].
    rewrite <- Permutation_middle, elem_of_cons.
    pose proof (ok_made _ _ Hok k' n) as Hn. unfold values_of in Hn. rewrite gather_cons in Hn.
    apply idle_get in Hget as [[Hi Hm]|(Hi & -> & Hm)].
    + rewrite Hi in Hn. intros Hin. apply (Nat.lt_le_trans _ (made (pool_of k' w))); [|done].
      apply Hn. cbn [app]. by rewrite elem_of_cons.
    + rewrite Hi. intros [[= -> ->]|Hin]; [lia|].
      apply (Nat.lt_le_trans _ (made (pool_of k' w))); [by apply Hn|done].
  - intros j ->%list_elem_of_singleton. apply (good_frame w); [by rewrite ?Hh|by apply Forall_true|].
    apply Hg, (ok_good _ _ Hok). by left.
  - by left.
  - intros [k' n]. unfold pooled. cbn [fst snd]. rewrite pool_of_set. left.
    revert Hget H. unfold Get. repeat case_decide; intros; simplify_eq; try done.
    cbn in *. rewrite (remove_first_perm (o_pick o)); [by right|done].
  - by left.
Qed.

Lemma idle_put k x w : idle (set_pool k (Put x (pool_of k w)) w) ≡ₚ (k, x) :: idle w.
Proof. destruct k; unfold idle; cbn; solve_Permutation. Qed.

(** A value returned to its pool. *)
Lemma ok_put k x w i push P :
  ok w (i :: P) → owned i ≡ₚ (k, x) :: gather owned push → small w (k, x) →
  (∀ j, j ∈ push → good w j) → ok (set_pool k (Put x (pool_of k w)) w) (push ++ P).
Proof.
  intros Hok Ho Hsm Hg.
  set (w' := set_pool k (Put x (pool_of k w)) w).
  assert (∀ y, same w w' y) as Hsame by (by intros [[] n]; destruct k).
  assert (values_of w' (push ++ P) ≡ₚ values_of w (i :: P)) as Hv.
  { unfold values_of, w'. rewrite idle_put, gather_app, gather_cons, Ho. solve_Permutation. }
  apply (ok_step w _ i); try done.
  - rewrite Hv. apply (ok_nodup _ _ Hok).
  - intros k' n. rewrite Hv. intros Hn%(ok_made _ _ Hok). unfold w'. rewrite pool_of_set.
    case_decide; by subst.
  - by left.
  - intros [k' n]. unfold pooled, w'. cbn [fst snd]. rewrite pool_of_set.
    case_decide; subst; [|by left]. cbn [Put free]. rewrite elem_of_cons.
    intros [->|]; [right|by left]. by destruct k'.
  - by left.
Qed.

Lemma channels_insert ch b (f : gmap nat nat) :
  f !! ch = None → (map_to_list (<[ch := b]> f)).*2 ≡ₚ b :: (map_to_list f).*2.
Proof. intros H. by rewrite map_to_list_insert. Qed.

Lemma channels_delete ch b (f : gmap nat nat) :
  f !! ch = Some b → (map_to_list f).*2 ≡ₚ b :: (map_to_list (delete ch f)).*2.
Proof. intros H. by rewrite <- (map_to_list_delete _ _ _ H). Qed.

Lemma ok_deliver ch b w P :
  channels w !! ch = None → ok w (Deliver ch b :: P) →
  ok (set_channels (<[ch := b]> (channels w)) w) P.
Proof.
  intros Hc Hok.
  assert (values_of (set_channels (<[ch := b]> (channels w)) w) P ≡ₚ
          values_of w (Deliver ch b :: P)) as Hv.
  { unfold values_of, idle. cbn. rewrite channels_insert by done. cbn. solve_Permutation. }
  apply (ok_step w _ (Deliver ch b) []); try done.
  - cbn. rewrite Hv. apply (ok_nodup _ _ Hok).
  - intros k n. cbn. rewrite Hv. apply (ok_made _ _ Hok).
  - by intros [[] n].
  - by intros j ?%not_elem_of_nil.
  - intros ch' b'. cbn. rewrite lookup_insert_Some. intros [[<- <-]|[_ ?]]; [right|by left].
    apply (ok_good _ _ Hok (Deliver ch b)). by left.
  - by left.
  - by left.
Qed.

Lemma ok_receive q b w P :
  channels w !! p_ch q = Some b → ok w (Receive q :: P) →
  ok (set_channels (delete (p_ch q) (channels w)) w) (Respond q b :: P).
Proof.
  intros Hc Hok.
  assert (values_of (set_channels (delete (p_ch q) (channels w)) w) (Respond q b :: P) ≡ₚ
          values_of w (Receive q :: P)) as Hv.
  { unfold values_of, idle. cbn. rewrite (channels_delete _ _ _ Hc). cbn. solve_Permutation. }
  apply (ok_step w _ (Receive q) [Respond q b]); try done.
  - cbn [app]. rewrite Hv. apply (ok_nodup _ _ Hok).
  - intros k n. cbn [app]. rewrite Hv. apply (ok_made _ _ Hok).
  - by intros [[] n].
  - intros j ->%list_elem_of_singleton. apply (ok_chan _ _ Hok _ _ Hc).
  - intros ch' b'. cbn. rewrite lookup_delete_Some. intros [_ ?]. by left.
  - by left.
  - by left.
Qed.

(** ** What a step changes *)
Lemma same_poll_buffer b v w x : x ≠ (PollBuffer, b) → same w (set_poll_buffer b v w) x.
Proof.
  destruct x as [[] n]; try done. intros Hn. unfold same, poll_buffer. cbn.
  rewrite lookup_insert_ne by congruence. done.
Qed.

Lemma same_gzip_buffer b v w x : x ≠ (GzipBuffer, b) → same w (set_gzip_buffer b v w) x.
Proof.
  destruct x as [[] n]; try done. intros Hn. unfold same, gzip_buffer. cbn.
  rewrite lookup_insert_ne by congruence. done.
Qed.

Lemma same_writer z v w x : x ≠ (GzipWriter, z) → same w (set_writer z v w) x.
Proof.
  destruct x as [[] n]; try done. intros Hn. unfold same, writer. cbn.
  rewrite lookup_insert_ne by congruence. done.
Qed.

Lemma same_trans w1 w2 w3 x : same w1 w2 x → same w2 w3 x → same w1 w3 x.
Proof. destruct x as [[] n]; cbn; congruence. Qed.

Lemma poll_buffer_set b v w : poll_buffer b (set_poll_buffer b v w) = v.
Proof. unfold poll_buffer. cbn. by rewrite lookup_insert_eq. Qed.
Lemma gzip_buffer_set b v w : gzip_buffer b (set_gzip_buffer b v w) = v.
Proof. unfold gzip_buffer. cbn. by rewrite lookup_insert_eq. Qed.
Lemma writer_set z v w : writer z (set_writer z v w) = v.
Proof. unfold writer. cbn. by rewrite lookup_insert_eq. Qed.

Lemma answered_ok q payload w ps :
  handed w !! p_ch q = Some ps → payload = EncodePayload ps →
  answered w (q, direct_response q payload).
Proof. intros H ->. by exists ps. Qed.

Lemma respond_new q r w x :
  answered w (q, r) → x ∈ responses (respond q r w) → x ∈ responses w ∨ answered w x.
Proof. cbn. intros Ha [?| ->%list_elem_of_singleton]%elem_of_app; eauto. Qed.

Lemma response_plain q payload :
  compresses q payload = false →
  direct_response q payload = Ok (Write payload (writePollHeaders (p_writer q))).
Proof.
  intros Hc. unfold direct_response, writePollResponse. unfold compresses in *. rewrite Hc.
  by destruct (compress payload).
Qed.

Lemma response_gzip q payload out :
  compresses q payload = true → compress payload = Ok out →
  direct_response q payload =
  Ok (Write out (header_op (Set_ (str "Content-Encoding") (str "gzip"))
                   (writePollHeaders (p_writer q)))).
Proof.
  intros Hc Ho. unfold direct_response, writePollResponse, gz. rewrite Ho.
  unfold compresses in Hc. by rewrite Hc.
Qed.

Lemma response_failed q payload err :
  compresses q payload = true → compress payload = Err err → direct_response q payload = Err err.
Proof. intros Hc Ho. unfold direct_response. by rewrite Ho, Hc. Qed.

(** [Write] and [Close] of a writer that was reset to the goroutine's own buffer. *)
Lemma ok_writer o q b zb z i r next w w' push spawn P s0 :
  exec_writer o q b zb z r next w = Next w' push spawn → ok w (i :: P) →
  owned i = [(PollBuffer, b); (GzipBuffer, zb); (GzipWriter, z)] → owned next = owned i →
  loaded_gzip w q b → writer z w = (s0, Some zb) →
  (∀ err, r.2 = Some err → compress (content (poll_buffer b w)) = Err err) →
  (∀ w1, r.2 = None → poll_buffer b w1 = poll_buffer b w → writer z w1 = (r.1.1, Some zb) →
         content (gzip_buffer zb w1) = content (gzip_buffer zb w) ++ r.1.2 →
         handed w1 = handed w → good w1 next) →
  ok w' (push ++ concat spawn ++ P).
Proof.
  destruct r as [[s out] err]; cbn [fst snd]. unfold exec_writer.
  intros He Hok Hi Hnext Hl Hw Herr Hgood. rewrite Hw in He; cbn [snd emit_to] in He.
  set (w1 := set_writer z (s, Some zb) w) in *.
  set (v := BufferWrite (o_cap o) out (gzip_buffer zb w1)) in *.
  set (w2 := set_gzip_buffer zb v w1) in *.
  assert (∀ x, x ∉ owned i → same w w2 x) as Hsame.
  { intros x Hx. rewrite Hi in Hx. apply (same_trans _ w1); [apply same_writer|apply same_gzip_buffer];
      intros ->; apply Hx; rewrite !elem_of_cons; tauto. }
  destruct err as [err|]; injection He as <- <- <-; cbn [concat app];
    apply (ok_keep w _ i [_]); try done; try (by cbn; rewrite ?Hnext, Hi).
  - by intros j ->%list_elem_of_singleton.
  - destruct Hl as [(ps & Hh & Hps) Hc]. intros x. apply (respond_new q _ w2).
    rewrite <- (response_failed q _ err Hc (Herr err eq_refl)). by apply (answered_ok _ _ _ ps).
  - intros j ->%list_elem_of_singleton. apply Hgood; try done.
    + apply (writer_set z (s, Some zb) w).
    + unfold w2. by rewrite gzip_buffer_set.
  - by left.
Qed.

Lemma ok_encode o ch b ps w P w' push spawn :
  exec_encode o ch b ps w = Next w' push spawn → ok w (Encode ch b ps :: P) →
  ok w' (push ++ concat spawn ++ P).
Proof.
  intros [= <- <- <-] Hok. apply (ok_keep w _ (Encode ch b ps) [_]); try done.
  - intros x Hx. apply same_poll_buffer. intros ->. by apply Hx; left.
  - intros j ->%list_elem_of_singleton. exists ps. rewrite poll_buffer_set. split; [|done].
    apply (ok_good _ _ Hok (Encode ch b ps)). by left.
  - by left.
Qed.

Lemma ok_respond q b w P w' push spawn :
  exec_respond q b w = Next w' push spawn → ok w (Respond q b :: P) →
  ok w' (push ++ concat spawn ++ P).
Proof.
  intros He Hok. assert (loaded w (p_ch q) b) as Hl by (apply (ok_good _ _ Hok (Respond q b)); by left).
  unfold exec_respond in He. destruct (compresses _ _) eqn:Hc; injection He as <- <- <-;
    apply (ok_keep w _ (Respond q b) [_]); try done.
  - by intros [[] n].
  - by intros j ->%list_elem_of_singleton.
  - by left.
  - by intros [[] n].
  - by intros j ->%list_elem_of_singleton.
  - destruct Hl as (ps & Hh & Hps). intros x. apply (respond_new q _ w).
    rewrite <- response_plain by done. by apply (answered_ok _ _ _ ps).
Qed.

Lemma ok_write_compressed q b zb z w P w' push spawn :
  exec_write_compressed q b zb z w = Next w' push spawn → ok w (WriteCompressed q b zb z :: P) →
  ok w' (push ++ concat spawn ++ P).
Proof.
  intros He Hok. assert (good w (WriteCompressed q b zb z)) as [[(ps & Hh & Hps) Hc] Hz]
    by (apply (ok_good _ _ Hok); by left).
  injection He as <- <- <-. apply (ok_keep w _ (WriteCompressed q b zb z) [_]); try done.
  - by intros [[] n].
  - by intros j ->%list_elem_of_singleton.
  - intros x. apply (respond_new q _ w). rewrite <- (response_gzip _ _ _ Hc Hz).
    by apply (answered_ok _ _ _ ps).
Qed.

(** A buffer that is emptied in place, or left to the collector. *)
Lemma ok_gzip_buffer i j zb v w P :
  ok w (i :: P) → owned j = owned i → (GzipBuffer, zb) ∈ owned i →
  good (set_gzip_buffer zb v w) j → ok (set_gzip_buffer zb v w) (j :: P).
Proof.
  intros Hok Ho Hin Hg. apply (ok_keep w _ i [j]); try done.
  - cbn. by rewrite app_nil_r, Ho.
  - intros x Hx. apply same_gzip_buffer. by intros ->.
  - by intros j' ->%list_elem_of_singleton.
  - by left.
Qed.

Lemma ok_drop i push w P :
  ok w (i :: P) → gather owned push ⊆+ owned i → (∀ j, j ∈ push → good w j) → ok w (push ++ P).
Proof. intros Hok Hs Hg. apply (ok_keep w _ i push); try done; [by intros [[] n]|by left]. Qed.

Lemma ok_putGzipBuffer b zb w P w' push spawn :
  exec_putGzipBuffer b zb w = Next w' push spawn → ok w (PutGzipBuffer b zb :: P) →
  ok w' (push ++ concat spawn ++ P).
Proof.
  unfold exec_putGzipBuffer. case_decide as Hd; intros [= <- <- <-] Hok; cbn [concat app].
  - apply (ok_drop (PutGzipBuffer b zb) [_]); [done| |by intros j ->%list_elem_of_singleton].
    cbn. apply submseteq_skip, submseteq_nil_l.
  - eapply ok_gzip_buffer; [done..|by right; left|]. cbn. rewrite gzip_buffer_set. cbn. lia.
Qed.

Lemma ok_putPollBuffer b w P w' push spawn :
  exec_putPollBuffer b w = Next w' push spawn → ok w (PutPollBuffer b :: P) →
  ok w' (push ++ concat spawn ++ P).
Proof.
  unfold exec_putPollBuffer. case_decide as Hd; intros [= <- <- <-] Hok; cbn [concat app].
  - apply (ok_drop (PutPollBuffer b) []); [done|apply submseteq_nil_l|].
    by intros j ?%not_elem_of_nil.
  - apply (ok_keep w _ (PutPollBuffer b) [_]); try done.
    + intros x Hx. apply same_poll_buffer. intros ->. by apply Hx; left.
    + intros j ->%list_elem_of_singleton. cbn. rewrite poll_buffer_set. cbn. lia.
    + by left.
Qed.

Lemma ok_reset_writer q b zb z w P :
  ok w (ResetWriter q b zb z :: P) →
  ok (set_writer z (z_new, Some zb) w) (WriterWrite q b zb z :: P).
Proof.
  intros Hok. apply (ok_keep w _ (ResetWriter q b zb z) [_]); try done.
  - intros x Hx. apply same_writer. intros ->. apply Hx. by do 2 right; left.
  - intros j ->%list_elem_of_singleton.
    destruct (ok_good _ _ Hok (ResetWriter q b zb z)) as [Hl Hz]; [by left|].
    split_and!; [done..|]. apply writer_set.
  - by left.
Qed.

Lemma ok_exec o i w w' push spawn P :
  exec o i w = Next w' push spawn → ok w (i :: P) → ok w' (push ++ concat spawn ++ P).
Proof.
  intros He Hok. assert (good w i) as Hg by (apply (ok_good _ _ Hok); by left).
  destruct i; cbn [exec good] in *.
  - by eapply ok_take.
  - by eapply ok_encode.
  - destruct (channels w !! ch) eqn:Hc; simplify_eq. by eapply ok_deliver.
  - destruct (channels w !! p_ch q) eqn:Hc; simplify_eq. by apply ok_receive.
  - by eapply ok_respond.
  - eapply ok_take; [done..| |done]. intros x. cbn [owned]. solve_Permutation.
  - simplify_eq. eapply ok_gzip_buffer; [done..|by right; left|].
    split; [done|]. by rewrite gzip_buffer_set.
  - eapply ok_take; [done..| |done]. intros x. cbn [owned]. solve_Permutation.
  - simplify_eq. by apply ok_reset_writer.
  - destruct Hg as (Hl & Hz & Hw). rewrite Hw in He. eapply ok_writer; [done..| |]; cbn [fst].
    + intros err. unfold compress. clear. destruct (z_write _ _) as [[s out] e]; cbn.
      by intros ->.
    + intros w1. clear He. destruct (z_write _ _) as [[s out] e] eqn:Hzw; cbn [fst snd].
      intros -> Hb Hw1 Hc Hh. cbn. unfold loaded_gzip, loaded. rewrite Hb, Hh. split; [done|].
      exists s. split; [done|]. by rewrite Hc, Hz.
  - destruct Hg as (Hl & s & Hw & Hz). rewrite Hw in He.
    eapply ok_writer; [done..| |]; cbn [fst]; clear He.
    + intros err. unfold compress. rewrite Hz.
      destruct (z_close s) as [[s' out] e]; cbn. by intros ->.
    + intros w1. destruct (z_close s) as [[s' out] e] eqn:Hzc; cbn [fst snd].
      intros -> Hb Hw1 Hc Hh. cbn. unfold loaded_gzip, loaded. rewrite Hb, Hh. split; [done|].
      unfold compress. by rewrite Hz, Hzc, Hc.
  - by eapply ok_write_compressed.
  - simplify_eq. apply (ok_put GzipWriter z w (PutWriter b zb z) [PutGzipBuffer b zb]); try done.
    + cbn. solve_Permutation.
    + by intros j ->%list_elem_of_singleton.
  - by eapply ok_putGzipBuffer.
  - simplify_eq. apply (ok_put GzipBuffer zb w (RecycleGzip b zb) [PutPollBuffer b]); try done.
    + cbn. solve_Permutation.
    + by intros j ->%list_elem_of_singleton.
  - by eapply ok_putPollBuffer.
  - simplify_eq. apply (ok_put PollBuffer b w (Recycle b) []); try done.
    by intros j ?%not_elem_of_nil.
Qed.

Lemma ok_happen e P w w' thread : happen e w = Some (w', thread) → ok w P → ok w' (thread ++ P).
Proof.
  intros He Hok. destruct e as [ch ps|q]; cbn in He.
  - destruct (handed w !! ch) eqn:Hh; simplify_eq. destruct Hok as [H1 H2 H3 H4 H5 H6].
    assert (∀ ch' b, loaded w ch' b → loaded (hand ch ps w) ch' b) as Hl.
    { intros ch' b (ps' & Hps & Hb). exists ps'. split; [|done]. cbn.
      rewrite lookup_insert_ne; [done|congruence]. }
    split; try done; cbn [app].
    + intros i [->|Hi]%elem_of_cons; [apply lookup_insert_eq|].
      apply (good_frame w); [by apply insert_subseteq| |by apply H3].
      apply Forall_true. by intros [[] n].
    + intros ch' b Hc. by apply Hl, H4.
    + intros x Hx. destruct (H6 x Hx) as (ps' & Hps & Hr). exists ps'. split; [|done]. cbn.
      rewrite lookup_insert_ne; [done|congruence].
  - simplify_eq. destruct Hok as [H1 H2 H3 H4 H5 H6]. split; try done.
    by intros i [->|Hi]%elem_of_cons; [|apply H3].
Qed.

Lemma always_ok w ts : reachable (w, ts) → ok w (concat ts).
Proof.
  intros Hr. apply (reachable_invariant exec happen inv_true ok start [] w ts); try done.
  - split; [intros; by eapply ok_exec|intros; by eapply ok_happen].
  - split; cbn; try done; try (by intros ? ?%not_elem_of_nil).
    + constructor.
    + by intros ?? ?%not_elem_of_nil.
    + by intros [[] n] ?%not_elem_of_nil.
Qed.

(** ** Properties *)

(** C17. The buffer pools are invisible: with any number of deliveries and polls sharing
    them, and a pool that gives whatever it has, the response to a poll is the one
    [writePollResponse] builds from the encoding of the packets handed to that poll, with a
    writer and buffers of its own; no pooled value is held by two goroutines, or by one and
    the pool; and the pools keep no buffer of more than 64 KiB. *)
Theorem pools_invisible w ts :
  reachable (w, ts) →
  (∀ q r, (q, r) ∈ responses w →
     ∃ ps, handed w !! p_ch q = Some ps ∧ r = direct_response q (EncodePayload ps)) ∧
  NoDup (values_of w (concat ts)) ∧
  (∀ x, pooled w x → small w x).
Proof.
  intros Hok%always_ok. split_and!.
  - intros q r Hin. apply (ok_answered _ _ Hok _ Hin).
  - apply (ok_nodup _ _ Hok).
  - apply (ok_small _ _ Hok).
Qed.
End pools.

(** Two polls that share a buffer and a writer, the second after the first.  The compressor
    marks its output. *)
Section example.
#[local] Abbreviation z_write := (λ (s data : bytes), (s ++ data, [x1f], @None error)).
#[local] Abbreviation z_close := (λ s : bytes, ([] : bytes, s, @None error)).

Definition long (n : nat) : list Packet := [text_packet PacketMessage (repeat "a"%byte n)].
Definition gzip_poll (ch : nat) : poll :=
  mkPoll ch defaultServerConfig
    (request MethodGet [] [("Accept-Encoding", "gzip")]%string []) response0.
Definition one_poll (ch n : nat) : list (act oracle happening) :=
  [Ext (Handed ch (long n)); Ext (Held (gzip_poll ch))] ++
  repeat (Run (2 * ch) (mkOracle 0 2048)) 3 ++ repeat (Run (2 * ch + 1) (mkOracle 0 2048)) 14.
Definition two_polls : World * list (list instr) :=
  default (start, [])
    (run (exec [] z_write z_close) happen (one_poll 0 1200 ++ one_poll 1 1100) (start, [])).

Lemma two_polls_reachable : reachable [] z_write z_close two_polls.
Proof.
  apply (run_steps _ _ (one_poll 0 1200 ++ one_poll 1 1100)). unfold two_polls.
  assert (is_Some (run (exec [] z_write z_close) happen (one_poll 0 1200 ++ one_poll 1 1100)
            (start, []))) as [cfg ->]; [|done].
  apply (bool_decide_eq_true_1 _). vm_compute. reflexivity.
Qed.

Lemma pools_invisible_witness :
  length (responses two_polls.1) = 2%nat ∧ made (gzipWriterPool two_polls.1) = 1%nat ∧
  ∀ q r, (q, r) ∈ responses two_polls.1 →
  ∃ ps, handed two_polls.1 !! p_ch q = Some ps ∧
        r = direct_response [] z_write z_close q (EncodePayload ps).
Proof.
  split_and!; [vm_compute; reflexivity..|].
  apply (pools_invisible [] z_write z_close two_polls.1 two_polls.2).
  rewrite <- surjective_pairing. apply two_polls_reachable.
Defined.
End example.
