(* ===== verification/ServerRequests.v ===== *)
(** * What a request body does, and what a poll answers (server.go)

    The POST handler and the poll response as their peers see them, and what requests
    show of the options. *)
From S2P Require Import Prelude Machine Packet Unicode Payload Framing Json Http.
From S2P Require Import ServerOptions ServerTransport ServerSocket SessionMachine.
From S2P Require Import SessionStore Handshake Server.

(** ** POST *)

Definition binary_post (r : Request) : bool :=
  HasPrefix (Get (str "Content-Type") (Header r)) (str "application/octet-stream").

Lemma read_body_within c r body :
  Body r = (body, None) → 0 ≤ maxPayload c < int64_max →
  ∃ data, read_body (wrap64 (maxPayload c + 1)) r = Ok data ∧
    (len body ≤ maxPayload c → data = body) ∧
    (maxPayload c < len body → maxPayload c < len data).
Proof.
  intros Hb Hm. rewrite wrap64_small by lia. unfold read_body. rewrite Hb.
  destruct (Z.leb_spec (maxPayload c + 1) 0); [lia|].
  destruct (Z.leb_spec (maxPayload c + 1) (len body)) as [Hl|Hl].
  - eexists. split; [done|]. split; [lia|]. intros _. unfold len in *.
    rewrite length_take. lia.
  - eexists. split; [done|]. split; [done|lia].
Qed.

(** The payload of well-formed packets within the limit. *)
Lemma handleSend_payload {A} c r (x : stored A) w ps :
  Body r = (EncodePayload ps, None) → 0 ≤ maxPayload c < int64_max → binary_post r = false →
  len (EncodePayload ps) ≤ maxPayload c → EncodePayload ps ≠ [] → ps ≠ [] →
  Forall (λ p, well_formed p = true) ps → Forall (λ p, separator_free p = true) ps →
  handleSend c r x w = mkReply A (post_ok w) [] (ToSession x (PostArrives ps)).
Proof.
  intros Hb Hm Hbin Hl Hne H1 H2 H3. unfold handleSend. fold (binary_post r). rewrite Hbin.
  destruct (read_body_within c r _ Hb Hm) as (data & -> & Hin & _). rewrite (Hin Hl) in *.
  destruct (Z.ltb_spec (maxPayload c) (len (EncodePayload ps))); [lia|].
  rewrite decide_False by done. by rewrite decode_encode_payload.
Qed.


Definition post (body : bytes) : Request :=
  request MethodPost [("EIO", "4"); ("transport", "polling"); ("sid", "abc")]%string
    [("Content-Type", "text/plain")]%string body.


(** ** Poll responses *)

(** The body as a client reads it, which undoes the content encoding. *)
Definition client_body (gunzip : bytes → bytes) (w : ResponseWriter) : bytes :=
  if decide (Get (str "Content-Encoding") (rw_sent w) = str "gzip")
  then gunzip (rw_body w) else rw_body w.

Lemma poll_response_spec gzip gunzip c r ps w :
  (∀ data, gunzip (gzip data) = data) →
  ps ≠ [] → Forall (λ p, well_formed p = true) ps → Forall (λ p, separator_free p = true) ps →
  unstarted w → Get (str "Content-Encoding") (rw_header w) = [] →
  let w' := writePollResponse gzip c r (EncodePayload ps) w in
  rw_status w' = Some 200 ∧
  DecodePayload ProtocolVersion4 (client_body gunzip w') = Ok ps ∧
  (Get (str "Content-Encoding") (rw_sent w') = str "gzip" ↔
   httpCompression c = true ∧ 1024 ≤ len (EncodePayload ps) ∧ acceptsGzip r = true).
Proof.
  intros Hg H1 H2 H3 [Hs Hb] He w'. subst w'. rewrite <- (decode_encode_payload ps) by done.
  unfold writePollResponse, writePollHeaders, pollCompressionThreshold.
  set (data := EncodePayload ps). clearbody data.
  set (cond := httpCompression c && (1024 <=? len data) && acceptsGzip r).
  assert (Hcond : cond = true ↔ httpCompression c = true ∧ 1024 ≤ len data ∧ acceptsGzip r = true).
  { subst cond. rewrite !andb_true_iff, Z.leb_le. tauto. }
  destruct cond; unfold client_body, Write, WriteHeader;
    cbn [header_op rw_status rw_header rw_sent rw_body]; rewrite Hs;
    cbn [header_op rw_status rw_header rw_sent rw_body]; rewrite Hb; cbn [app]; headers.
  - rewrite decide_True by done. rewrite Hg. tauto.
  - rewrite He. rewrite decide_False by (vm_compute; discriminate).
    split_and!; [done..|]. rewrite <- Hcond. by split.
Qed.

(** Compression is transparent: whatever a poll is answered with, the client reads
    the packets back, if its [gunzip] undoes [gzip]; and the body is compressed only for
    a request that offers gzip, with compression enabled, from the threshold on. *)
Theorem poll_response_readable gzip gunzip c r ps w :
  (∀ data, gunzip (gzip data) = data) →
  ps ≠ [] → Forall (λ p, well_formed p = true) ps → Forall (λ p, separator_free p = true) ps →
  unstarted w → Get (str "Content-Encoding") (rw_header w) = [] →
  let w' := writePollResponse gzip c r (EncodePayload ps) w in
  rw_status w' = Some 200 ∧
  DecodePayload ProtocolVersion4 (client_body gunzip w') = Ok ps ∧
  (Get (str "Content-Encoding") (rw_sent w') = str "gzip" ↔
   httpCompression c = true ∧ 1024 ≤ len (EncodePayload ps) ∧ acceptsGzip r = true).
Proof. apply poll_response_spec. Qed.

Lemma poll_response_readable_witness :
  let ps := [text_packet PacketMessage (repeat "a"%byte 1100)] in
  let r := request MethodGet [] [("Accept-Encoding", "br, GZIP;q=1")]%string [] in
  let w := writePollResponse (cons x1f) defaultServerConfig r (EncodePayload ps) response0 in
  Get (str "Content-Encoding") (rw_sent w) = str "gzip" ∧
  DecodePayload ProtocolVersion4 (client_body (drop 1) w) = Ok ps.
Proof.
  intros ps r w.
  destruct (poll_response_readable (cons x1f) (drop 1) defaultServerConfig r ps response0)
    as (_ & H & Hz); [done|done|by repeat constructor|by repeat constructor|done|done|].
  split; [|exact H]. apply Hz. vm_compute. split_and!; congruence.
Defined.

(** ** What the options do not do *)

(** [WithAllowUpgrades(false)] stops the offer of an upgrade, not an upgrade: a WebSocket
    request that names a session is given to it as one. *)
Theorem upgrade_accepted_when_disallowed :
  let c := NewServer_config [WithAllowUpgrades false] in
  let x := mkStored (str "abc") 0%nat in
  let s := mkServer nat c (put x newSessionStore) None None in
  let r := request MethodGet
             [("EIO", "4"); ("transport", "websocket"); ("sid", "abc")]%string [] [] in
  allowUpgrades c = false ∧
  follows (ServeHTTP accept_all s [] r response0) = ToSession x (UpgradeArrives KWebSocket).
Proof. split_and!; reflexivity. Qed.

(** A maximum payload of [math.MaxInt] makes the read limit negative: the body of every
    POST is read as empty, and acknowledged without being dispatched. *)
Theorem max_payload_overflow {A} r (x : stored A) w :
  binary_post r = false →
  handleSend (NewServer_config [WithMaxPayload int64_max]) r x w = answer (post_ok w).
Proof.
  intros Hb. unfold handleSend. fold (binary_post r). rewrite Hb.
  change (maxPayload (NewServer_config [WithMaxPayload int64_max])) with int64_max.
  assert (wrap64 (int64_max + 1) = - 2 ^ 63) as -> by reflexivity.
  unfold read_body. by destruct (Body r).
Qed.

(** An unset [SameSite] is the zero value, which is not [SameSiteDefaultMode]: the cookie
    carries no attribute where the option promises Lax. *)
Theorem cookie_same_site_not_defaulted :
  let k := mkCookie [] [] false false 0 0 in
  let c := NewServer_config [WithCookie k] in
  Get (str "Set-Cookie") (rw_header (setSessionCookie c (str "abc") response0)) =
  str "io=abc; Path=/".
Proof. reflexivity. Qed.

(** An encoding refused with a zero weight is used all the same. *)
Theorem gzip_refused_but_used :
  acceptsGzip (request MethodGet [] [("Accept-Encoding", "gzip;q=0")]%string []) = true.
Proof. reflexivity. Qed.

(** A request from an origin that is not allowed is served on polling: only the header
    that would let a script read the answer is missing. *)
Theorem disallowed_origin_served :
  let c := NewServer_config [WithCORS (mkCORS false [str "https://a.example"] [])] in
  let r := request MethodGet [("EIO", "4"); ("transport", "polling")]%string
             [("Origin", "https://b.example")]%string [] in
  let rp := ServeHTTP accept_all (mkServer nat c ∅ None None) [] r response0 in
  rw_status (response rp) = Some 200 ∧ acao (response rp) = [] ∧
  follows rp = StartSession KPolling [] (buildOpenPacket c [] true).
Proof. split_and!; reflexivity. Qed.
