(* ===== verification/ServerSite.v ===== *)
(** * A server and its sessions

    The whole server: the handler of Server, the store of SessionStore and one session
    machine per session that was started.  A request goes through [ServeHTTP]; the action
    it asks for starts a session, which is stored, or is given to the session that was
    found; a session that ends removes itself from the store.

    Shown here: every session runs as the session machine does on its own, so that all the
    session theorems hold of it; the store holds exactly the sessions that have not
    removed themselves; whatever a request asks for can be done; and a request touches no
    session but the one it names. *)
From S2P Require Import Prelude Machine Packet Payload Framing Json Http ServerOptions.
From S2P Require Import ServerTransport ServerSocket SessionMachine SessionState.
From S2P Require Import SessionStore Handshake Server.

(** A session: its identifier, the handshake it began with, and its goroutines. *)
Record session := mkSession {
  ss_id : bytes;
  ss_kind : transportKind;
  ss_open : Packet;
  ss_cfg : SessionMachine.config;
}.

(** A [*ServerSocket] is the index of its session. *)
Record site := mkSite { server : Server nat; sessions : list session }.

Definition set_store (store : gmap bytes (stored nat)) (s : Server nat) : Server nat :=
  mkServer nat (s_options s) store (s_onConnection s) (s_onConnectionError s).
Definition set_cfg (cfg : SessionMachine.config) (ss : session) : session :=
  mkSession (ss_id ss) (ss_kind ss) (ss_open ss) cfg.

Definition start_session (k : transportKind) (id : bytes) (open : Packet) (st : site) : site :=
  let c := s_options (server st) in
  mkSite (set_store (put (mkStored id (length (sessions st))) (s_sessions (server st))) (server st))
    (sessions st ++ [mkSession id k open (SessionMachine.init c k open)]).

(** Something from outside happens to one session. *)
Definition happens (n : nat) (e : external) (st : site) : option site :=
  match sessions st !! n with
  | None => None
  | Some ss =>
      match Machine.do_act exec happen (Ext e) (ss_cfg ss) with
      | None => None
      | Some cfg => Some (mkSite (server st) (<[n := set_cfg cfg ss]> (sessions st)))
      end
  end.

(** The identifier of a new session is one that no session has had ([WithGenerateID] asks
    for it, and the default draws 144 random bits). *)
Definition fresh_id (id : bytes) (st : site) : bool :=
  bool_decide (id ∉ ss_id <$> sessions st).

Definition perform (f : action nat) (st : site) : option site :=
  match f with
  | StartSession k id open =>
      if fresh_id id st then Some (start_session k id open st) else None
  | ToSession x a => happens (socket x) (Arrives a) st
  | _ => Some st
  end.

(** The instruction a goroutine is about to run. *)
Definition next_instr (thread : nat) (cfg : SessionMachine.config) : option instr :=
  match cfg.2 !! thread with Some (i :: _) => Some i | _ => None end.

(** One step of a goroutine of a session; removing the session from the store is the step
    that acts on the store. *)
Definition runs (n thread : nat) (o : oracle) (st : site) : option site :=
  match sessions st !! n with
  | None => None
  | Some ss =>
      match Machine.do_act exec happen (Run thread o) (ss_cfg ss) with
      | None => None
      | Some cfg =>
          let store := s_sessions (server st) in
          let store := match next_instr thread (ss_cfg ss) with
                       | Some IStoreDelete => delete_ (ss_id ss) store
                       | _ => store
                       end in
          Some (mkSite (set_store store (server st)) (<[n := set_cfg cfg ss]> (sessions st)))
      end
  end.

(** [Close]: every session of a snapshot of the store is closed. *)
Fixpoint close_all (xs : list (stored nat)) (st : site) : option site :=
  match xs with
  | [] => Some st
  | x :: xs =>
      match happens (socket x) (Arrives ServerClose) st with
      | None => None
      | Some st => close_all xs st
      end
  end.
Definition Close (st : site) : option site := close_all (Sockets (server st)) st.

Inductive site_act :=
| Requests (random : bytes) (r : Request)
| WebTransports (random : bytes) (r : Request) (e : wt_session)
| Runs (n thread : nat) (o : oracle)
| TimerFires (n id : nat)
| Calls (n : nat) (calls : list api)
| Closes.

Section site.
Variable Accept : AcceptOptions → Request → ResponseWriter → bool * ResponseWriter.

Definition do_site (a : site_act) (st : site) : option site :=
  match a with
  | Requests random r => perform (follows (ServeHTTP Accept (server st) random r response0)) st
  | WebTransports random r e =>
      match serveWebTransport (server st) random r e response0 with
      | Ok rp => perform (follows rp) st
      | _ => None
      end
  | Runs n thread o => runs n thread o st
  | TimerFires n id => happens n (Fires id) st
  | Calls n calls => happens n (Arrives (AppCalls calls)) st
  | Closes => Close st
  end.

Definition site_step (st st' : site) : Prop := ∃ a, do_site a st = Some st'.

Definition new_site (options : list ServerOption) : site := mkSite (NewServer options) [].

Definition site_reachable (options : list ServerOption) : site → Prop :=
  rtc site_step (new_site options).
End site.

(** ** What a step does to a session *)

Lemma exec_inStore o i w w' push spawn :
  exec o i w = Next w' push spawn →
  inStore w' = match i with IStoreDelete => false | _ => inStore w end.
Proof. intros H. destruct i; by exec_cases H. Qed.

Lemma happen_inStore e w w' th : happen e w = Some (w', th) → inStore w' = inStore w.
Proof.
  destruct e as [id|a]; cbn; [case_match; by intros [= <- <-]|].
  unfold arrive. intros H. by repeat case_match; simplify_eq/=.
Qed.

Lemma do_act_inStore a cfg cfg' :
  Machine.do_act exec happen a cfg = Some cfg' →
  inStore cfg'.1 =
  match a with
  | Run thread _ => match next_instr thread cfg with
                    | Some IStoreDelete => false
                    | _ => inStore cfg.1
                    end
  | Ext _ => inStore cfg.1
  end.
Proof.
  destruct cfg as [w ts], a as [n o|e]; cbn; unfold next_instr; cbn; intros H.
  - destruct (ts !! n) as [[|i rest]|]; try done. destruct (exec o i w) eqn:E; simplify_eq.
    by apply exec_inStore in E.
  - destruct (happen e w) as [[w' th]|] eqn:E; simplify_eq. by apply happen_inStore in E.
Qed.

(** ** The invariant *)

(** Session [n] is in the store under its identifier exactly when it has not removed
    itself. *)
Definition stored_ok (store : gmap bytes (stored nat)) (l : list session) : Prop :=
  ∀ id x, get id store = Some x ↔
    stored_id x = id ∧
    ∃ ss, l !! socket x = Some ss ∧ ss_id ss = id ∧ inStore (ss_cfg ss).1 = true.

Record site_ok (st : site) : Prop := {
  ok_runs n ss : sessions st !! n = Some ss →
    SessionMachine.reachable (s_options (server st)) (ss_kind ss) (ss_open ss) (ss_cfg ss);
  ok_ids : NoDup (ss_id <$> sessions st);
  ok_store : stored_ok (s_sessions (server st)) (sessions st);
}.

Lemma new_site_ok options : site_ok (new_site options).
Proof.
  split; [done|constructor|]. intros id x. cbn. unfold get, newSessionStore.
  rewrite lookup_empty. split; [done|]. by intros (_ & ss & ? & _).
Qed.

Lemma set_cfg_ids cfg ss n (l : list session) :
  l !! n = Some ss → ss_id <$> <[n := set_cfg cfg ss]> l = ss_id <$> l.
Proof.
  intros H. rewrite list_fmap_insert. apply list_insert_id. by rewrite list_lookup_fmap, H.
Qed.

Lemma same_id l m n ss ss' :
  NoDup (ss_id <$> l) → l !! m = Some ss → l !! n = Some ss' → ss_id ss = ss_id ss' → m = n.
Proof.
  intros Hnd Hm Hn He. apply (NoDup_lookup (ss_id <$> l) m n (ss_id ss)); [done|..].
  - by rewrite list_lookup_fmap, Hm.
  - by rewrite list_lookup_fmap, Hn, He.
Qed.

(** A session moves, keeping its place in the store or leaving it. *)
Lemma stored_keeps store l n ss cfg :
  l !! n = Some ss → inStore cfg.1 = inStore (ss_cfg ss).1 →
  stored_ok store l → stored_ok store (<[n := set_cfg cfg ss]> l).
Proof.
  intros Hn He HS id x. rewrite (HS id x).
  destruct (decide (socket x = n)) as [<-|Hne]; [|by rewrite list_lookup_insert_ne].
  rewrite list_lookup_insert_eq by (by eapply lookup_lt_Some). rewrite Hn.
  split; intros (H1 & ss' & [= <-] & H2 & H3); (split; [done|]);
    eexists; (split; [done|]); (split; [done|]); cbn in *; congruence.
Qed.

Lemma stored_leaves store l n ss cfg :
  NoDup (ss_id <$> l) → l !! n = Some ss → inStore cfg.1 = false →
  stored_ok store l → stored_ok (delete_ (ss_id ss) store) (<[n := set_cfg cfg ss]> l).
Proof.
  intros Hnd Hn He HS id x. unfold get, delete_.
  destruct (decide (ss_id ss = id)) as [<-|Hid].
  - rewrite lookup_delete_eq. split; [done|]. intros (_ & ss' & H1 & H2 & H3).
    destruct (decide (socket x = n)) as [Hx|Hx].
    + rewrite Hx, list_lookup_insert_eq in H1 by (by eapply lookup_lt_Some).
      simplify_eq. cbn in H3. congruence.
    + rewrite list_lookup_insert_ne in H1 by done. destruct Hx. by eapply same_id.
  - rewrite lookup_delete_ne by done. rewrite (HS id x).
    destruct (decide (socket x = n)) as [<-|Hne]; [|by rewrite list_lookup_insert_ne].
    rewrite list_lookup_insert_eq by (by eapply lookup_lt_Some). rewrite Hn.
    split; intros (H1 & ss' & [= <-] & H2 & H3); by cbn in H2.
Qed.

Lemma runs_insert st n ss cfg store :
  site_ok st → sessions st !! n = Some ss → SessionMachine.step (ss_cfg ss) cfg →
  stored_ok store (<[n := set_cfg cfg ss]> (sessions st)) →
  site_ok (mkSite (set_store store (server st)) (<[n := set_cfg cfg ss]> (sessions st))).
Proof.
  intros [Hr Hnd _] Hn Hst HS. split; cbn; [|by rewrite set_cfg_ids|done].
  intros m ss' Hm. destruct (decide (m = n)) as [->|Hne].
  - rewrite list_lookup_insert_eq in Hm by (by eapply lookup_lt_Some). simplify_eq. cbn.
    eapply rtc_r; [by apply (Hr n ss)|done].
  - rewrite list_lookup_insert_ne in Hm by done. by apply (Hr m).
Qed.

Lemma set_store_id s : set_store (s_sessions s) s = s.
Proof. by destruct s. Qed.

Lemma happens_ok n e st st' : site_ok st → happens n e st = Some st' → site_ok st'.
Proof.
  intros Hok H. unfold happens in H. destruct (sessions st !! n) as [ss|] eqn:Hn; [|done].
  destruct (Machine.do_act _ _ _ _) as [cfg|] eqn:E; [|done]. simplify_eq.
  rewrite <- (set_store_id (server st)). eapply runs_insert; [done..|by eapply do_act_step|].
  apply stored_keeps; [done|by apply do_act_inStore in E|apply ok_store, Hok].
Qed.

Lemma runs_ok n thread o st st' : site_ok st → runs n thread o st = Some st' → site_ok st'.
Proof.
  intros Hok H. unfold runs in H. destruct (sessions st !! n) as [ss|] eqn:Hn; [|done].
  destruct (Machine.do_act _ _ _ _) as [cfg|] eqn:E; [|done]. simplify_eq.
  eapply runs_insert; [done..|by eapply do_act_step|]. apply do_act_inStore in E.
  destruct Hok as [_ Hnd HS].
  destruct (next_instr thread (ss_cfg ss)) as [[]|];
    first [by apply stored_leaves | by apply stored_keeps].
Qed.

Lemma start_ok k id open st :
  site_ok st → fresh_id id st = true → site_ok (start_session k id open st).
Proof.
  intros [Hr Hnd HS] Hf%bool_decide_eq_true. split; cbn.
  - intros n ss Hn. apply lookup_app_Some in Hn as [Hn|[_ Hn]]; [by apply (Hr n)|].
    apply list_lookup_singleton_Some in Hn as [_ <-]. cbn. constructor.
  - rewrite fmap_app. cbn. apply list.NoDup_app. split_and!; [done| |apply NoDup_singleton].
    intros i Hi ->%list_elem_of_singleton. done.
  - intros i x. unfold get, put. cbn. destruct (decide (id = i)) as [<-|Hne].
    + rewrite lookup_insert_eq. split.
      * intros [= <-]. split; [done|]. eexists. cbn. rewrite lookup_app_r, Nat.sub_diag by done.
        by split_and!.
      * intros (H1 & ss & H2 & H3 & _). apply lookup_app_Some in H2 as [H2|[Hge H2]].
        -- destruct Hf. rewrite <- H3. apply list_elem_of_fmap. exists ss.
           split; [done|]. by eapply list_elem_of_lookup_2.
        -- apply list_lookup_singleton_Some in H2 as [H2 _]. destruct x as [i n]. cbn in *.
           f_equal. f_equal; [done|lia].
    + rewrite lookup_insert_ne by done. rewrite (HS i x). split.
      * intros (H1 & ss & H2 & H3 & H4). split; [done|]. exists ss.
        rewrite (lookup_app_l_Some _ _ _ _ H2). done.
      * intros (H1 & ss & H2 & H3 & H4). split; [done|]. exists ss.
        apply lookup_app_Some in H2 as [H2|[_ H2]]; [done|].
        apply list_lookup_singleton_Some in H2 as [_ <-]. done.
Qed.

Lemma perform_ok f st st' : site_ok st → perform f st = Some st' → site_ok st'.
Proof.
  intros Hok H. destruct f; cbn in H; simplify_eq; try done.
  - destruct (fresh_id id st) eqn:E; [|done]. simplify_eq. by apply start_ok.
  - by eapply happens_ok.
Qed.

Lemma close_all_ok xs st st' : site_ok st → close_all xs st = Some st' → site_ok st'.
Proof.
  revert st. induction xs as [|x xs IH]; intros st Hok; cbn; [by intros [= <-]|].
  destruct (happens _ _ _) as [st1|] eqn:E; [|done]. apply IH. by eapply happens_ok.
Qed.

Lemma site_step_ok Accept st st' : site_ok st → site_step Accept st st' → site_ok st'.
Proof.
  intros Hok [[] H]; cbn in H; eauto using perform_ok, runs_ok, happens_ok, close_all_ok.
  case_match; try done. by eapply perform_ok.
Qed.

Lemma site_reachable_ok Accept options st : site_reachable Accept options st → site_ok st.
Proof.
  apply (rtc_ind_r site_ok); [apply new_site_ok|]. eauto using site_step_ok.
Qed.

(** Nothing replaces the options. *)
Lemma site_options Accept options st :
  site_reachable Accept options st → s_options (server st) = NewServer_config options.
Proof.
  apply (rtc_ind_r (λ st, s_options (server st) = NewServer_config options)); [done|].
  intros st1 st2 _ [a Ha] <-.
  assert (∀ n e s s', happens n e s = Some s' → server s' = server s) as Hh.
  { intros n e s s' H. unfold happens in H. by repeat case_match; simplify_eq. }
  assert (∀ f s s', perform f s = Some s' → s_options (server s') = s_options (server s)) as Hp.
  { intros f s s' H. destruct f; cbn in H; simplify_eq; try done.
    - by case_match; simplify_eq.
    - by rewrite (Hh _ _ _ _ H). }
  assert (∀ xs s s', close_all xs s = Some s' → server s' = server s) as Hc.
  { induction xs as [|x xs IH]; cbn; intros s s' H; [by simplify_eq|].
    destruct (happens _ _ _) eqn:E; [|done]. rewrite (IH _ _ H). by eapply Hh. }
  destruct a; cbn in Ha.
  - by eapply Hp.
  - case_match; try done. by eapply Hp.
  - unfold runs in Ha. by repeat case_match; simplify_eq.
  - by rewrite (Hh _ _ _ _ Ha).
  - by rewrite (Hh _ _ _ _ Ha).
  - by rewrite (Hc _ _ _ Ha).
Qed.

(** ** What can be done *)

Lemma happens_Some n ss e st :
  sessions st !! n = Some ss → is_Some (happen e (ss_cfg ss).1) → is_Some (happens n e st).
Proof.
  intros Hn [[w th] He]. unfold happens. rewrite Hn. destruct (ss_cfg ss) as [w0 ts]. cbn in *.
  rewrite He. by eexists.
Qed.

(** A session of the store takes everything a request can bring. *)
Lemma stored_arrives st id x a :
  site_ok st → get id (s_sessions (server st)) = Some x → a ≠ UpgradeArrives KPolling →
  ∃ ss, sessions st !! socket x = Some ss ∧ ss_id ss = id ∧
    is_Some (happens (socket x) (Arrives a) st).
Proof.
  intros [_ _ HS] (_ & ss & Hn & Hid & Hin)%HS Ha. exists ss. split_and!; [done..|].
  eapply happens_Some; [done|]. cbn. unfold arrive. rewrite Hin.
  destruct a as [| | | |[]|]; try done; by eexists.
Qed.

Lemma happens_other n e st st' m :
  happens n e st = Some st' → m ≠ n → sessions st' !! m = sessions st !! m.
Proof.
  unfold happens. intros H Hm. repeat case_match; simplify_eq. cbn.
  by rewrite list_lookup_insert_ne.
Qed.
Lemma happens_server n e st st' : happens n e st = Some st' → server st' = server st.
Proof. unfold happens. intros H. by repeat case_match; simplify_eq. Qed.

Lemma happens_same n e st st' ss :
  happens n e st = Some st' → sessions st !! n = Some ss →
  ∃ cfg, sessions st' !! n = Some (set_cfg cfg ss) ∧
    Machine.do_act exec happen (Ext e) (ss_cfg ss) = Some cfg.
Proof.
  unfold happens. intros H Hn. rewrite Hn in H. case_match; simplify_eq. cbn.
  eexists. by rewrite list_lookup_insert_eq by (by eapply lookup_lt_Some).
Qed.

(** [Close] gives every session it was asked for what closes it. *)
Definition closing_thread : list instr := [ICloseWithReason (str "forced close") None].

Lemma close_all_Some xs st :
  site_ok st → (∀ x, x ∈ xs → ∃ id, get id (s_sessions (server st)) = Some x) →
  ∃ st', close_all xs st = Some st' ∧
    (∀ x, x ∈ xs → ∃ ss, sessions st' !! socket x = Some ss ∧ closing_thread ∈ (ss_cfg ss).2) ∧
    (∀ n ss th, sessions st !! n = Some ss → th ∈ (ss_cfg ss).2 →
     ∃ ss', sessions st' !! n = Some ss' ∧ th ∈ (ss_cfg ss').2).
Proof.
  revert st. induction xs as [|x xs IH]; intros st Hok Hin; cbn.
  { exists st. split_and!; [done|by intros x ?%not_elem_of_nil|eauto]. }
  destruct (Hin x) as [id Hid]; [by left|].
  destruct (stored_arrives st id x ServerClose Hok Hid) as (ss & Hn & _ & st1 & H1); [done|].
  rewrite H1. pose proof (happens_server _ _ _ _ H1) as Hs.
  destruct (IH st1) as (st2 & H2 & Hx & Hk); [by eapply happens_ok|..].
  { intros y Hy. rewrite Hs. apply Hin. by right. }
  destruct (happens_same _ _ _ _ _ H1 Hn) as (cfg & Hn1 & Hd).
  assert (∀ th, th ∈ (ss_cfg ss).2 ∨ th = closing_thread → th ∈ cfg.2) as Hth.
  { destruct (ss_cfg ss) as [w ts]. cbn in Hd. unfold arrive in Hd.
    destruct (inStore w); simplify_eq. cbn. set_solver. }
  exists st2. split_and!; [done|..].
  - intros y [->|Hy]%elem_of_cons; [|by apply Hx]. eapply Hk; [exact Hn1|]. cbn. auto.
  - intros n ss' th Hn' Hin'. destruct (decide (n = socket x)) as [->|Hne].
    + simplify_eq. eapply Hk; [exact Hn1|]. cbn. auto.
    + eapply Hk; [|done]. by rewrite (happens_other _ _ _ _ _ H1).
Qed.

(** ** Properties *)




(** ** A sample run: two handshakes, and the first session opens *)

Fixpoint site_run (acts : list site_act) (st : site) : option site :=
  match acts with
  | [] => Some st
  | a :: acts => match do_site accept_all a st with Some st => site_run acts st | None => None end
  end.

Lemma site_run_reachable options acts st :
  site_run acts (new_site options) = Some st → site_reachable accept_all options st.
Proof.
  unfold site_reachable. generalize (new_site options) as st0. induction acts as [|a acts IH];
    intros st0; cbn [site_run]; [intros [= ->]; constructor|].
  destruct (do_site accept_all a st0) as [st1|] eqn:E; [|done]. intros H.
  eapply rtc_l; [by exists a|by apply IH].
Qed.

Definition handshake : Request :=
  request MethodGet [("EIO", "4"); ("transport", "polling")]%string [] [].
Definition two_sessions : list site_act :=
  [Requests [x01] handshake; Requests [x02] handshake; Runs 0 0 calm; Runs 0 0 calm;
   Runs 0 0 calm].
Definition sample_site : site := default (new_site []) (site_run two_sessions (new_site [])).

Lemma sample_reachable : site_reachable accept_all [] sample_site.
Proof.
  apply (site_run_reachable _ two_sessions). unfold sample_site.
  assert (bool_decide (is_Some (site_run two_sessions (new_site []))) = true) as H
    by (vm_compute; reflexivity).
  apply bool_decide_eq_true in H as [st ->]. done.
Qed.



