(* ===== verification/Examples.v ===== *)
(** * Applications (examples/)

    What the example programs do with the library, where a program is more than a call of
    [NewServer]: the broadcast of examples/broadcast, the gate of examples/allow-request and
    the identifiers of examples/auth-session-id.  The echo handler that most of them install
    is in Echo. *)
From S2P Require Import Prelude Machine Base64 Packet Payload Framing Json Http ServerOptions.
From S2P Require Import ServerTransport ServerSocket SessionMachine SessionState.
From S2P Require Import SessionStore Handshake Server ServerSite.

(** ** Broadcast *)

(** [socket.Send] on the session of index [n], up to the end of its critical section; the
    flush that follows is left to the schedule. *)
Definition sends (n : nat) (data : bytes) (isBinary : bool) (st : site) : option site :=
  match sessions st !! n with
  | None => None
  | Some ss =>
      match happens n (Arrives (AppCalls [ApiSend data isBinary])) st with
      | None => None
      | Some st => runs n (length (ss_cfg ss).2) calm st
      end
  end.

Section broadcast.
Variable Accept : AcceptOptions → Request → ResponseWriter → bool * ResponseWriter.
Variable data : bytes.
Variable isBinary : bool.

(** The loop over the snapshot, with whatever else the server does between two sends. *)
Inductive broadcasting : list (stored nat) → site → site → Prop :=
| broadcast_done st st' : rtc (site_step Accept) st st' → broadcasting [] st st'
| broadcast_next x xs st st1 st2 st' :
    rtc (site_step Accept) st st1 → sends (socket x) data isBinary st1 = Some st2 →
    broadcasting xs st2 st' → broadcasting (x :: xs) st st'.

Definition broadcast (st st' : site) : Prop := broadcasting (Sockets (server st)) st st'.

(** Every session is still there, and has gone on. *)
Definition goes_on (st st' : site) : Prop :=
  ∀ n ss, sessions st !! n = Some ss → ∃ ss', sessions st' !! n = Some ss' ∧
    rtc sess_step (sess (ss_cfg ss).1) (sess (ss_cfg ss').1).

#[local] Instance goes_on_preorder : PreOrder goes_on.
Proof.
  split; [intros st n ss Hn; eauto using rtc_refl|].
  intros st1 st2 st3 H1 H2 n ss Hn. destruct (H1 n ss Hn) as (ss' & Hn' & Hr).
  destruct (H2 n ss' Hn') as (ss'' & Hn'' & Hr'). exists ss''. split; [done|].
  by etransitivity.
Qed.

Lemma do_act_sess a cfg cfg' :
  Machine.do_act exec happen a cfg = Some cfg' → sess_step (sess cfg.1) (sess cfg'.1).
Proof. destruct cfg, cfg'. intros H%do_act_step. by eapply step_sess. Qed.

Lemma insert_goes_on s st n ss cfg :
  sessions st !! n = Some ss → sess_step (sess (ss_cfg ss).1) (sess cfg.1) →
  goes_on st (mkSite s (<[n := set_cfg cfg ss]> (sessions st))).
Proof.
  intros Hn Hs m ss' Hm. destruct (decide (m = n)) as [->|Hne]; cbn.
  - rewrite list_lookup_insert_eq by (by eapply lookup_lt_Some). simplify_eq.
    eexists. split; [done|]. by apply rtc_once.
  - rewrite list_lookup_insert_ne by done. eauto using rtc_refl.
Qed.

Lemma happens_goes_on n e st st' : happens n e st = Some st' → goes_on st st'.
Proof.
  unfold happens. intros H. destruct (sessions st !! n) eqn:Hn; [|done].
  destruct (Machine.do_act _ _ _ _) eqn:E; [|done]. simplify_eq.
  apply insert_goes_on; [done|by eapply do_act_sess].
Qed.

Lemma runs_goes_on n thread o st st' : runs n thread o st = Some st' → goes_on st st'.
Proof.
  unfold runs. intros H. destruct (sessions st !! n) eqn:Hn; [|done].
  destruct (Machine.do_act _ _ _ _) eqn:E; [|done]. simplify_eq.
  apply insert_goes_on; [done|by eapply do_act_sess].
Qed.

Lemma perform_goes_on f st st' : perform f st = Some st' → goes_on st st'.
Proof.
  destruct f; cbn; intros H; simplify_eq; try done.
  - case_match; simplify_eq. intros n ss Hn. cbn. exists ss.
    rewrite (lookup_app_l_Some _ _ _ _ Hn). split; [done|]. apply rtc_refl.
  - by eapply happens_goes_on.
Qed.

Lemma close_all_goes_on xs st st' : close_all xs st = Some st' → goes_on st st'.
Proof.
  revert st. induction xs as [|x xs IH]; intros st; cbn; [by intros [= <-]|].
  destruct (happens _ _ _) eqn:E; [|done]. intros H.
  etransitivity; [by eapply happens_goes_on|by apply IH].
Qed.

Lemma site_goes_on st st' : site_step Accept st st' → goes_on st st'.
Proof.
  intros [[] H]; cbn in H;
    eauto using perform_goes_on, runs_goes_on, happens_goes_on, close_all_goes_on.
  case_match; try done. by eapply perform_goes_on.
Qed.

Lemma sites_go_on st st' : rtc (site_step Accept) st st' → goes_on st st'.
Proof. induction 1; [done|]. etransitivity; [by apply site_goes_on|done]. Qed.

(** What a session has once been given it keeps, unless it ends. *)
Definition told (s : ServerSocket) : Prop :=
  (state_rank sessionClosing ≤ state_rank (state s))%nat ∨
  mkPacket PacketMessage data isBinary ∈ enqueued s.

Lemma sess_step_enqueued s s' : sess_step s s' → enqueued s `prefix_of` enqueued s'.
Proof. intros Hstep. sess_cases s Hstep; cbn; try done; by eexists. Qed.

Lemma told_kept s s' : rtc sess_step s s' → told s → told s'.
Proof.
  induction 1 as [|s1 s2 s3 Hs _ IH]; [done|]. intros Ht. apply IH. destruct Ht as [Ht|Ht].
  - left. etransitivity; [done|by apply sess_step_rank].
  - right. destruct (sess_step_enqueued _ _ Hs) as [k ->]. apply elem_of_app. by left.
Qed.

Lemma send_tells n st :
  is_Some (sessions st !! n) → ∃ st', sends n data isBinary st = Some st' ∧
    rtc (site_step Accept) st st' ∧
    ∃ ss', sessions st' !! n = Some ss' ∧ told (sess (ss_cfg ss').1).
Proof.
  intros [ss Hn]. unfold sends. rewrite Hn. destruct (ss_cfg ss) as [w ts] eqn:Hc.
  set (cfg1 := (w, ts ++ [[ISend data isBinary]])).
  assert (happens n (Arrives (AppCalls [ApiSend data isBinary])) st =
          Some (mkSite (server st) (<[n := set_cfg cfg1 ss]> (sessions st)))) as H1.
  { unfold happens. by rewrite Hn, Hc. }
  rewrite H1. set (st1 := mkSite _ _) in *.
  assert (sessions st1 !! n = Some (set_cfg cfg1 ss)) as Hn1.
  { cbn. apply list_lookup_insert_eq. by eapply lookup_lt_Some. }
  assert (∃ cfg2, Machine.do_act exec happen (Run (length ts) calm) cfg1 = Some cfg2 ∧
                  told (sess cfg2.1)) as (cfg2 & H2 & Ht).
  { cbn. rewrite list_lookup_middle by done. cbn. unfold Send.
    case_decide as Hs; eexists; (split; [reflexivity|]); cbn; unfold told.
    - left. destruct Hs as [-> | ->]; cbn; lia.
    - right. cbn. apply elem_of_app. right. by left. }
  assert (∃ st2, runs n (length ts) calm st1 = Some st2 ∧
                 sessions st2 !! n = Some (set_cfg cfg2 (set_cfg cfg1 ss))) as (st2 & H3 & Hn2).
  { unfold runs. rewrite Hn1. cbn [set_cfg ss_cfg]. rewrite H2. eexists. split; [done|]. cbn.
    apply list_lookup_insert_eq. rewrite length_insert. by eapply lookup_lt_Some. }
  cbn [snd]. rewrite H3. exists st2. split_and!; [done|..|eexists; by split].
  eapply rtc_l; [by exists (Calls n [ApiSend data isBinary])|].
  apply rtc_once. by exists (Runs n (length ts) calm).
Qed.

Lemma broadcasting_tells xs st st' :
  broadcasting xs st st' →
  (∀ x, x ∈ xs → is_Some (sessions st !! socket x)) →
  goes_on st st' ∧
  ∀ x, x ∈ xs → ∃ ss, sessions st' !! socket x = Some ss ∧ told (sess (ss_cfg ss).1).
Proof.
  induction 1 as [st st' Hr|x xs st st1 st2 st' Hr Hs Hb IH]; intros Hin.
  { split; [by apply sites_go_on|]. by intros x ?%not_elem_of_nil. }
  apply sites_go_on in Hr.
  destruct (send_tells (socket x) st1) as (st2' & Hs' & Hr2%sites_go_on & ss & Hn & Ht).
  { destruct (Hin x) as [ss Hn]; [by left|]. destruct (Hr _ _ Hn) as (ss' & Hn' & _). eauto. }
  rewrite Hs in Hs'. simplify_eq. assert (goes_on st st2') as Hg by (by etransitivity).
  destruct IH as [Hg' Hx].
  { intros y Hy. destruct (Hin y) as [ssy Hny]; [by right|].
    destruct (Hg _ _ Hny) as (ss' & Hn' & _). eauto. }
  split; [by etransitivity|]. intros y [->|Hy]%elem_of_cons; [|by apply Hx].
  destruct (Hg' _ _ Hn) as (ss' & Hn' & Hss). exists ss'. split; [done|]. by eapply told_kept.
Qed.

Lemma broadcasting_runs xs st :
  (∀ x, x ∈ xs → is_Some (sessions st !! socket x)) →
  ∃ st', broadcasting xs st st' ∧ rtc (site_step Accept) st st'.
Proof.
  revert st. induction xs as [|x xs IH]; intros st Hin.
  { exists st. split; [apply broadcast_done|]; apply rtc_refl. }
  destruct (send_tells (socket x) st) as (st1 & Hs & Hr & _); [apply Hin; by left|].
  destruct (IH st1) as (st2 & Hb & Hr2).
  { intros y Hy. destruct (Hin y) as [ss Hn]; [by right|].
    destruct (sites_go_on _ _ Hr _ _ Hn) as (ss' & ? & _). eauto. }
  exists st2. split; [|by etransitivity]. by eapply broadcast_next; [apply rtc_refl|..].
Qed.

Lemma snapshot_sessions options st x :
  site_reachable Accept options st → x ∈ Sockets (server st) → is_Some (sessions st !! socket x).
Proof.
  intros Hr Hx. destruct (site_reachable_ok _ _ _ Hr) as [_ _ HS].
  unfold Sockets, all in Hx. apply list_elem_of_fmap in Hx as ([id y] & -> & Hy).
  apply elem_of_map_to_list, HS in Hy as (_ & ss & Hn & _). eauto.
Qed.
End broadcast.



(** ** A gate (examples/allow-request) *)

(** [strings.CutPrefix]. *)
Definition CutPrefix (s prefix : bytes) : option bytes :=
  if HasPrefix s prefix then Some (drop (length prefix) s) else None.

(** The function given to [WithAllowRequest]: a bearer token that is not empty. *)
Definition require_token (r : Request) : option bytes :=
  match CutPrefix (Get (str "Authorization") (Header r)) (str "Bearer ") with
  | Some (_ :: _) => None
  | _ => Some (str "missing or invalid token")
  end.

Definition authorized (r : Request) : Prop :=
  ∃ token, token ≠ [] ∧ Get (str "Authorization") (Header r) = str "Bearer " ++ token.

Lemma require_token_authorized r : require_token r = None → authorized r.
Proof.
  unfold require_token, CutPrefix, HasPrefix. case_bool_decide as Hp; [|done].
  destruct Hp as [token Ht]. rewrite Ht, drop_app_length. intros H.
  exists token. split; [by destruct token|done].
Qed.

(** The request of a step, if it is one. *)
Definition request_of (a : site_act) : option Request :=
  match a with Requests _ r | WebTransports _ r _ => Some r | _ => None end.

Lemma happens_count n e st st' :
  happens n e st = Some st' → length (sessions st') = length (sessions st).
Proof. unfold happens. intros H. repeat case_match; simplify_eq. cbn. apply length_insert. Qed.

Lemma close_all_count xs st st' :
  close_all xs st = Some st' → length (sessions st') = length (sessions st).
Proof.
  revert st. induction xs as [|x xs IH]; intros st; cbn; [by intros [= <-]|].
  destruct (happens _ _ _) eqn:E; [|done]. intros H. rewrite (IH _ H). by eapply happens_count.
Qed.

Lemma perform_count f st st' :
  perform f st = Some st' → length (sessions st') ≠ length (sessions st) →
  ∃ k id open, f = StartSession k id open.
Proof.
  destruct f; cbn; intros H Hl; simplify_eq; try done; eauto.
  by rewrite (happens_count _ _ _ _ H) in Hl.
Qed.

Lemma webtransport_gated s random r e w rp k id open :
  serveWebTransport (A := nat) s random r e w = Ok rp → follows rp = StartSession k id open →
  gate (s_options s) r.
Proof.
  unfold serveWebTransport, webTransportHandshake, webTransportUpgrade_.
  intros H Hf. repeat (case_match; simplify_eq/=). by eapply allowHandshake_gate.
Qed.

(** A session is added only by a request that the gate lets through. *)
Lemma started_gated Accept a st st' :
  do_site Accept a st = Some st' → length (sessions st') ≠ length (sessions st) →
  ∃ r, request_of a = Some r ∧ gate (s_options (server st)) r.
Proof.
  destruct a as [random r|random r e|n thread o|n id|n calls|]; cbn [do_site request_of].
  - intros H Hl. destruct (perform_count _ _ _ H Hl) as (k & id & open & Hf). exists r.
    split; [done|]. pose proof (ServeHTTP_justified Accept (server st) random r response0) as Hj.
    rewrite Hf in Hj. apply Hj.
  - destruct (serveWebTransport _ _ _ _ _) as [rp| |] eqn:E; try done. intros H Hl.
    destruct (perform_count _ _ _ H Hl) as (k & id & open & Hf). exists r.
    split; [done|]. by eapply webtransport_gated.
  - unfold runs. intros H Hl. repeat case_match; simplify_eq; cbn in Hl; by rewrite length_insert in Hl.
  - intros H Hl. by rewrite (happens_count _ _ _ _ H) in Hl.
  - intros H Hl. by rewrite (happens_count _ _ _ _ H) in Hl.
  - intros H Hl. by rewrite (close_all_count _ _ _ H) in Hl.
Qed.

(** C36. The gate of the allow-request example holds on every way in: whatever a server with it
    has been through, a step that adds a session, over polling, WebSocket or WebTransport,
    is a request that carries a bearer token that is not empty. *)
Theorem sessions_authorized Accept st a st' :
  site_reachable Accept [WithAllowRequest require_token] st →
  do_site Accept a st = Some st' → length (sessions st') ≠ length (sessions st) →
  ∃ r, request_of a = Some r ∧ authorized r.
Proof.
  intros Hr H Hl. destruct (started_gated _ _ _ _ H Hl) as (r & Ha & Hg).
  rewrite (site_options _ _ _ Hr) in Hg. exists r. split; [done|].
  by apply require_token_authorized.
Qed.

Lemma sessions_authorized_witness :
  let r := request MethodGet [("EIO", "4"); ("transport", "polling")]%string
             [("Authorization", "Bearer t0ken")]%string [] in
  ∃ r', request_of (Requests [x01] r) = Some r' ∧ authorized r'.
Proof.
  intros r. set (st := new_site [WithAllowRequest require_token]).
  assert (option_map (λ st', length (sessions st')) (do_site accept_all (Requests [x01] r) st) =
          Some 1%nat) as H by (vm_compute; reflexivity).
  destruct (do_site accept_all (Requests [x01] r) st) as [st'|] eqn:E; [|discriminate H].
  injection H as H. apply (sessions_authorized accept_all st (Requests [x01] r) st');
    [apply rtc_refl|exact E|rewrite H; discriminate].
Defined.

(** ** Identifiers (the default ones, and examples/auth-session-id) *)

Definition users : gmap bytes bytes :=
  <[str "token-alice" := str "alice"]> (<[str "token-bob" := str "bob"]> ∅).

Definition TrimPrefix (s prefix : bytes) : bytes := default s (CutPrefix s prefix).

Definition user_of (r : Request) : bytes :=
  let user := default [] (users !! TrimPrefix (Get (str "Authorization") (Header r)) (str "Bearer ")) in
  if decide (user = []) then str "anon" else user.

(** The function given to [WithGenerateID]; [random] is what it reads. *)
Definition user_session_id (random : bytes) (r : Request) : bytes :=
  user_of r ++ str "-" ++ Base64.RawURL_Encode random.

Lemma user_of_cases r : user_of r = str "alice" ∨ user_of r = str "bob" ∨ user_of r = str "anon".
Proof.
  unfold user_of, users. set (token := TrimPrefix _ _). clearbody token.
  destruct (decide (token = str "token-alice")) as [->|H1].
  { left. by vm_compute. }
  rewrite lookup_insert_ne by done.
  destruct (decide (token = str "token-bob")) as [->|H2].
  { right; left. by vm_compute. }
  rewrite lookup_insert_ne by done. rewrite lookup_empty. by right; right.
Qed.

(** Session identifiers tell sessions apart: the default generator and the one of the
    auth-session-id example give different identifiers for different random bytes, and the
    latter's identifiers of different users differ too, so that the part before the dash
    is the user. *)
Theorem session_ids_distinct random random' r r' :
  (generateID defaultServerConfig random r = generateID defaultServerConfig random' r' →
   random = random') ∧
  let c := NewServer_config [WithGenerateID user_session_id] in
  (generateID c random r = generateID c random' r' → random = random' ∧ user_of r = user_of r').
Proof.
  split; [apply Base64.RawURL_Encode_inj|]. cbn. unfold user_session_id.
  destruct (user_of_cases r) as [->|[->| ->]], (user_of_cases r') as [->|[->| ->]];
    cbn; try done; intros [= H]; by apply Base64.RawURL_Encode_inj in H.
Qed.
