(* ===== verification/Chunk.v ===== *)
(** * Splitting a write into payloads (socket.go)

    [chunkPackets], which cuts the client's write buffer into payloads no larger than
    the maximum the server announced. *)
From S2P Require Import Prelude Packet Payload.

(** The loop of [chunkPackets]; [size] is the length of [current], encoded. *)
Fixpoint chunk_loop (maxPayload : Z) (packets current : list Packet) (size : Z)
    : list (list Packet) :=
  match packets with
  | [] => [current]
  | packet :: packets =>
      let addition := len (EncodePacket packet) + (if decide (current = []) then 0 else 1) in
      if negb (bool_decide (current = [])) && (maxPayload <? size + addition)
      then current :: chunk_loop maxPayload packets [packet] (len (EncodePacket packet))
      else chunk_loop maxPayload packets (current ++ [packet]) (size + addition)
  end.

Definition chunkPackets (packets : list Packet) (maxPayload : Z) : list (list Packet) :=
  if (maxPayload <=? 0) || (len packets <=? 1) then [packets]
  else chunk_loop maxPayload packets [] 0.

(** ** Proofs *)

Lemma len_EncodePayload_snoc c p :
  len (EncodePayload (c ++ [p])) =
  len (EncodePayload c) + (len (EncodePacket p) + (if decide (c = []) then 0 else 1)).
Proof.
  rewrite !EncodePayload_join. destruct c as [|q c].
  - rewrite decide_True by done. cbn [app fmap list_fmap join]. unfold len. cbn [length]. lia.
  - rewrite decide_False by done. cbn [app]. rewrite !join_bind, bind_app.
    unfold len. cbn [mbind list_bind]. rewrite !length_app. cbn [length]. rewrite ?length_app. cbn. lia.
Qed.

(** The greedy splitting: every cut is forced. *)
Fixpoint greedy (maxPayload : Z) (chunks : list (list Packet)) : Prop :=
  match chunks with
  | [] => True
  | c :: rest =>
      match rest with
      | (p :: _) :: _ => maxPayload < len (EncodePayload (c ++ [p]))
      | _ => True
      end ∧ greedy maxPayload rest
  end.

Definition fits (maxPayload : Z) (c : list Packet) : Prop :=
  c ≠ [] ∧ (len (EncodePayload c) ≤ maxPayload ∨ length c = 1%nat).

Lemma chunk_loop_spec maxPayload packets current size :
  size = len (EncodePayload current) →
  (current = [] → packets ≠ []) → (current ≠ [] → fits maxPayload current) →
  let chunks := chunk_loop maxPayload packets current size in
  concat chunks = current ++ packets ∧ Forall (fits maxPayload) chunks ∧
  greedy maxPayload chunks ∧ ∃ q rest, chunks = (current ++ q) :: rest.
Proof.
  revert current size. induction packets as [|p ps IH]; intros current size Hs Hne Hf chunks.
  - subst chunks. cbn. rewrite app_nil_r. split; [done|]. split.
    { constructor; [|done]. apply Hf. intros ->. by apply Hne. }
    split; [done|]. exists [], []. by rewrite app_nil_r.
  - subst chunks. cbn [chunk_loop]. rewrite Hs, <- len_EncodePayload_snoc.
    assert (Hp : len (EncodePacket p) = len (EncodePayload [p])).
    { by rewrite EncodePayload_join. }
    destruct (negb _ && _) eqn:E.
    + apply andb_true_iff in E as [Hc E]. apply Z.ltb_lt in E.
      apply negb_true_iff, bool_decide_eq_false in Hc.
      destruct (IH [p] (len (EncodePacket p))) as (H1 & H2 & H3 & q & rest & H4);
        [done..|by split; [|right]|].
      split_and!.
      * cbn. by rewrite H1.
      * constructor; [by apply Hf|done].
      * rewrite H4 in *. cbn [app greedy] in *. done.
      * exists [], (chunk_loop maxPayload ps [p] (len (EncodePacket p))). by rewrite app_nil_r.
    + destruct (IH (current ++ [p]) (len (EncodePayload (current ++ [p]))))
        as (H1 & H2 & H3 & q & rest & H4); [done|by destruct current|..].
      { intros _. split; [by destruct current|]. destruct (decide (current = [])) as [->|Hc].
        - by right.
        - left. rewrite bool_decide_eq_false_2 in E by done. apply Z.ltb_ge in E. lia. }
      rewrite <- app_assoc in *. split_and!; [done..|]. rewrite H4.
      exists (p :: q), rest. done.
Qed.

Lemma chunks_spec packets maxPayload :
  let chunks := chunkPackets packets maxPayload in
  concat chunks = packets ∧
  (0 < maxPayload → packets ≠ [] → Forall (fits maxPayload) chunks ∧ greedy maxPayload chunks).
Proof.
  cbv zeta. unfold chunkPackets. destruct (Z.leb_spec maxPayload 0); cbn [orb].
  - cbn. rewrite app_nil_r. split; [done|lia].
  - destruct (Z.leb_spec (len packets) 1) as [Hl|Hl].
    + cbn [concat]. rewrite app_nil_r. split; [done|]. intros _ Hne. split; [|done].
      constructor; [|done]. split; [done|right]. unfold len in Hl.
      destruct packets as [|? [|? ?]]; cbn in *; [done|done|lia].
    + destruct (chunk_loop_spec maxPayload packets [] 0) as (H1 & H2 & H3 & _);
        [done|by intros _ ->|done|]. done.
Qed.

Lemma len_EncodePayload_app c ps : len (EncodePayload c) ≤ len (EncodePayload (c ++ ps)).
Proof.
  induction ps as [|p ps IH] using rev_ind; [by rewrite app_nil_r|].
  rewrite app_assoc, len_EncodePayload_snoc. unfold len in *. case_decide; lia.
Qed.

(** What fits the limit is one chunk. *)
Lemma chunk_loop_single maxPayload packets current :
  len (EncodePayload (current ++ packets)) ≤ maxPayload →
  chunk_loop maxPayload packets current (len (EncodePayload current)) = [current ++ packets].
Proof.
  revert current. induction packets as [|p ps IH]; intros current Hl; cbn [chunk_loop].
  { by rewrite app_nil_r. }
  pose proof (len_EncodePayload_app (current ++ [p]) ps) as Hp. rewrite <- app_assoc in Hp.
  rewrite <- len_EncodePayload_snoc. cbn [app] in Hp.
  destruct (Z.ltb_spec maxPayload (len (EncodePayload (current ++ [p])))); [lia|].
  rewrite andb_false_r, IH; by rewrite <- app_assoc.
Qed.

Lemma chunk_single packets maxPayload :
  len (EncodePayload packets) ≤ maxPayload → chunkPackets packets maxPayload = [packets].
Proof.
  intros Hl. unfold chunkPackets. destruct (_ || _); [done|].
  by apply (chunk_loop_single maxPayload packets []).
Qed.

(** ** Properties *)

(** The chunks of a write hold its packets, all of them, once and in order.  With a
    limit, every chunk either fits it when encoded or is a single packet, no chunk is
    empty, and the splitting is the greedy one: a chunk ends only where the next packet
    would not have fitted. *)
Theorem chunks_partition packets maxPayload :
  let chunks := chunkPackets packets maxPayload in
  concat chunks = packets ∧
  (0 < maxPayload → packets ≠ [] →
   Forall (λ c, c ≠ [] ∧ (len (EncodePayload c) ≤ maxPayload ∨ length c = 1%nat)) chunks ∧
   greedy maxPayload chunks).
Proof. apply chunks_spec. Qed.

Lemma chunks_partition_witness :
  let ps := [text_packet PacketMessage (str "aaa"); text_packet PacketMessage (str "b");
             text_packet PacketMessage (str "cccccc")] in
  concat (chunkPackets ps 7) = ps ∧ greedy 7 (chunkPackets ps 7).
Proof.
  intros ps. destruct (chunks_partition ps 7) as [H1 H2]. split; [exact H1|].
  apply H2; [lia|done].
Defined.
