(* ===== verification/ClientPosts.v ===== *)
(** * From the client's buffer to the server's session

    The two sides of a polling upload together: [chunkPackets] on the client and
    [handleSend] on the server. *)
From S2P Require Import Prelude Machine Packet Payload Http ServerOptions ServerSocket.
From S2P Require Import SessionMachine SessionStore Server ServerRequests Chunk.

(** The packets a POST makes the server dispatch to the session. *)
Definition dispatched {A} (c : serverConfig) (x : stored A) (chunk : list Packet) : list Packet :=
  match follows (handleSend c (post (EncodePayload chunk)) x response0) with
  | ToSession _ (PostArrives ps) => ps
  | _ => []
  end.


