(* ===== verification/ClientTransport.v ===== *)
(** * The client's transports (transport.go, socket_transport_*.go)

    The state of a client transport and the critical sections of its methods.  One record
    serves the three kinds: a polling transport uses the poll lock and the dispatch count,
    the stream ones (WebSocket and WebTransport) the connection and the write lock.  What a
    method does between its critical sections is in ClientMachine. *)
From S2P Require Import Prelude Packet Http Framing ServerTransport.

Inductive TransportState :=
| TransportStateOpening
| TransportStateOpen
| TransportStateClosing
| TransportStateClosed
| TransportStatePausing
| TransportStatePaused.
#[export] Instance TransportState_eq_decision : EqDecision TransportState.
Proof. solve_decision. Defined.

(** [TransportRoundTripper]: a client behind the [http.RoundTripper] interface; requests
    and responses are opaque. *)
Definition RoundTrip {Req Resp} (Client : option (Req → res Resp)) (req : Req) : res Resp :=
  match Client with
  | None => Err (ESentinel ErrTransportRoundTripperClientRequired)
  | Some Do => Do req
  end.

(** A parsed URL: the query is the list of its pairs, what precedes the query is opaque
    but for the scheme. *)
Record URL := mkURL { Scheme : bytes; Rest : bytes; URLQuery : values }.

(** Whose function a handler is: the socket's own, or the one of the upgrade probe that
    the transport was made for. *)
Inductive owner := OfSocket | OfProbe.
#[export] Instance owner_eq_decision : EqDecision owner.
Proof. solve_decision. Defined.

Inductive slot := SlotOpen | SlotClose | SlotPacket | SlotError.

(** [t_conn]: the connection ([ws]; or [session], [stream] and [reader], which are set and
    cleared together) is not nil.  The locks [t_pollMu] and [t_writeMu] are held across
    I/O; [t_pollWG] counts dispatches in flight. *)
Record Transport := mkTransport {
  t_kind : transportKind;
  t_url : URL;
  t_onOpenHandler : option owner;
  t_onCloseHandler : option owner;
  t_onPacketHandler : option owner;
  t_onErrorHandler : option owner;
  t_state : TransportState;
  t_conn : bool;
  t_pollMu : bool;
  t_pollWG : nat;
  t_writeMu : bool;
}.

Definition set_t_state (v : TransportState) (s : Transport) : Transport :=
  mkTransport (t_kind s) (t_url s) (t_onOpenHandler s) (t_onCloseHandler s)
    (t_onPacketHandler s) (t_onErrorHandler s) v (t_conn s) (t_pollMu s) (t_pollWG s)
    (t_writeMu s).
Definition set_t_conn (v : bool) (s : Transport) : Transport :=
  mkTransport (t_kind s) (t_url s) (t_onOpenHandler s) (t_onCloseHandler s)
    (t_onPacketHandler s) (t_onErrorHandler s) (t_state s) v (t_pollMu s) (t_pollWG s)
    (t_writeMu s).
Definition set_t_pollMu (v : bool) (s : Transport) : Transport :=
  mkTransport (t_kind s) (t_url s) (t_onOpenHandler s) (t_onCloseHandler s)
    (t_onPacketHandler s) (t_onErrorHandler s) (t_state s) (t_conn s) v (t_pollWG s)
    (t_writeMu s).
Definition set_t_pollWG (v : nat) (s : Transport) : Transport :=
  mkTransport (t_kind s) (t_url s) (t_onOpenHandler s) (t_onCloseHandler s)
    (t_onPacketHandler s) (t_onErrorHandler s) (t_state s) (t_conn s) (t_pollMu s) v
    (t_writeMu s).
Definition set_t_writeMu (v : bool) (s : Transport) : Transport :=
  mkTransport (t_kind s) (t_url s) (t_onOpenHandler s) (t_onCloseHandler s)
    (t_onPacketHandler s) (t_onErrorHandler s) (t_state s) (t_conn s) (t_pollMu s)
    (t_pollWG s) v.

(** The three constructors.  The polling and WebSocket ones check the URL, the WebTransport
    one its dialer too. *)
Definition new_transport (k : transportKind) (url : URL) : Transport :=
  mkTransport k url None None None None TransportStateClosed false false 0 false.

Definition NewPollingTransport (url : option URL) : res Transport :=
  match url with
  | None => Err (ESentinel ErrURLRequired)
  | Some url => Ok (new_transport KPolling url)
  end.

Definition NewWebSocketTransport (url : option URL) : res Transport :=
  match url with
  | None => Err (ESentinel ErrURLRequired)
  | Some url => Ok (new_transport KWebSocket url)
  end.

Definition NewWebTransportTransport (url : option URL) (dialer : bool) : res Transport :=
  match url with
  | None => Err (ESentinel ErrURLRequired)
  | Some url =>
      if negb dialer then Err (ESentinel ErrWebTransportDialerRequired)
      else Ok (new_transport KWebTransport url)
  end.

#[export] Instance transport_inhabited : Inhabited Transport :=
  populate (new_transport KPolling (mkURL [] [] [])).

(** [OnOpen], [OnClose], [OnPacket] and [OnError]. *)
Definition set_handler (x : slot) (h : option owner) (t : Transport) : Transport :=
  match x with
  | SlotOpen =>
      mkTransport (t_kind t) (t_url t) h (t_onCloseHandler t) (t_onPacketHandler t)
        (t_onErrorHandler t) (t_state t) (t_conn t) (t_pollMu t) (t_pollWG t) (t_writeMu t)
  | SlotClose =>
      mkTransport (t_kind t) (t_url t) (t_onOpenHandler t) h (t_onPacketHandler t)
        (t_onErrorHandler t) (t_state t) (t_conn t) (t_pollMu t) (t_pollWG t) (t_writeMu t)
  | SlotPacket =>
      mkTransport (t_kind t) (t_url t) (t_onOpenHandler t) (t_onCloseHandler t) h
        (t_onErrorHandler t) (t_state t) (t_conn t) (t_pollMu t) (t_pollWG t) (t_writeMu t)
  | SlotError =>
      mkTransport (t_kind t) (t_url t) (t_onOpenHandler t) (t_onCloseHandler t)
        (t_onPacketHandler t) h (t_state t) (t_conn t) (t_pollMu t) (t_pollWG t) (t_writeMu t)
  end.

Definition SetURL (url : URL) (t : Transport) : Transport :=
  mkTransport (t_kind t) url (t_onOpenHandler t) (t_onCloseHandler t) (t_onPacketHandler t)
    (t_onErrorHandler t) (t_state t) (t_conn t) (t_pollMu t) (t_pollWG t) (t_writeMu t).

Definition running (t : Transport) : bool :=
  bool_decide (t_state t = TransportStateOpening ∨ t_state t = TransportStateOpen).

(** [beginOpen], of the three. *)
Definition t_beginOpen (t : Transport) : bool * Transport :=
  if decide (t_state t ≠ TransportStateClosed) then (false, t)
  else (true, set_t_state TransportStateOpening t).

(** Where a WebTransport transport dials. *)
Definition dial_url (t : Transport) : URL :=
  match t_kind t with
  | KWebTransport => mkURL (str "https") (Rest (t_url t)) (URLQuery (t_url t))
  | _ => t_url t
  end.

Definition beginPause (t : Transport) : bool * Transport :=
  if running t then (true, set_t_state TransportStatePausing t) else (false, t).

(** [beginClose], of the polling transport. *)
Definition t_beginClose (t : Transport) : bool * Transport :=
  if decide (t_state t = TransportStateClosed) then (false, t)
  else (true, set_t_state TransportStateClosing t).

(** [onOpen] returns the handler to call. *)
Definition t_onOpen (t : Transport) : option owner * Transport :=
  (t_onOpenHandler t, set_t_state TransportStateOpen t).

(** [onClose] returns the connection to tear down and the handler to call; the second
    close finds nothing to do. *)
Definition t_onClose (t : Transport) : option (bool * option owner) * Transport :=
  if decide (t_state t = TransportStateClosed) then (None, t)
  else (Some (t_conn t, t_onCloseHandler t),
        set_t_conn false (set_t_state TransportStateClosed t)).

(** Whether [Send] writes: an open transport does, a WebSocket one only over a connection.
    Packets sent otherwise are dropped. *)
Definition t_sends (t : Transport) : bool :=
  bool_decide (t_state t = TransportStateOpen) &&
  (if decide (t_kind t = KWebSocket) then t_conn t else true).

(** The test at the top of the read loops. *)
Definition keeps_reading (t : Transport) : bool :=
  t_conn t && negb (bool_decide (t_state t = TransportStateClosing ∨
                                 t_state t = TransportStateClosed)).

(** A read that failed is no error when the transport was closed on purpose. *)
Definition deliberate (t : Transport) : bool :=
  bool_decide (t_state t = TransportStateClosing ∨ t_state t = TransportStateClosed).

(** One frame of the client's WebSocket [Send]. *)
Definition client_frame (packet : Packet) : MessageType * bytes :=
  if IsBinary packet then (MessageBinary, Data packet) else (MessageText, EncodePacket packet).

(** What [onData] does with a packet, by the state it reads. *)
Inductive data_action := DataOpens | DataCloses | DataOnly.
Definition data_packet (p : Packet) (t : Transport) : data_action :=
  if decide (PType p = PacketOpen ∧ t_state t = TransportStateOpening) then DataOpens
  else if decide (PType p = PacketClose ∧ t_state t ≠ TransportStateClosed) then DataCloses
  else DataOnly.
