(* ===== verification/ClientKinds.v ===== *)
(** * The three client transports behind their interface (transport.go, socket_transport_*.go)

    The source has three structs, [PollingTransport], [WebSocketTransport] and
    [WebTransportTransport], behind the interface [Transport].  Here each struct is a record
    of its own with the critical sections of its methods, and the interface a class that the
    three instantiate; its laws say that the struct behaves as the one record
    ([ClientTransport.Transport]) that the client machine runs on. *)
From S2P Require Import Prelude Packet Http Framing ServerTransport ClientTransport.

(** An HTTP client, a dialer, a connection: opaque values behind a pointer. *)
Notation handle := nat (only parsing).

(** [http.DefaultClient], a client of the caller, and one wrapped by the constructor in an
    [http.Client] of its own. *)
Inductive httpClient := DefaultClient | GivenClient (c : handle) | RoundTripperOf (c : handle).

(** The mutexes held across I/O: [pollMu] and [writeMu]. *)
Inductive mutex := PollMu | WriteMu.

(** The critical sections of the methods.  [CallSend], [CallClose] and [CallRead] are the
    tests at the top of [Send], [Close] and the read loop, [CallRequest] the URL that
    [request] reads, [CallStream] the stream that [writeFrames] reads; [CallDispatch] and
    [CallDispatched] count on [pollWG].  A lock is answered by whether it was free. *)
Inductive call :=
| CallType
| CallState
| CallSetURL (url : URL)
| CallBeginOpen
| CallDialFailed
| CallConnected (session stream reader : handle)
| CallOnOpen
| CallOnClose
| CallPacketHandler
| CallErrorHandler
| CallOn (x : slot) (h : option owner)
| CallSend
| CallClose
| CallRead
| CallDeliberate
| CallPause
| CallPaused
| CallBeginClose
| CallRequest
| CallStream
| CallLock (m : mutex)
| CallUnlock (m : mutex)
| CallDispatch
| CallDispatched.

(** What a section returns to the rest of its method. *)
Inductive answer :=
| AnsType (ty : TransportType)
| AnsState (st : TransportState)
| AnsDone
| AnsOpen (target : option (URL * bytes))
| AnsHandler (h : option owner)
| AnsClosed (r : option (bool * option owner))
| AnsTest (b : bool)
| AnsURL (url : URL)
| AnsAbsent.

(** The interface: what a client transport answers to each section. *)
Class TransportOps (T : Type) := { perform : call → T → answer * T }.

Definition talk {T} `{TransportOps T} : list call → T → list answer * T :=
  fix talk cs x :=
    match cs with
    | [] => ([], x)
    | c :: cs => let '(a, x) := perform c x in let '(l, x) := talk cs x in (a :: l, x)
    end.

(** ** The record of the machine *)
#[export] Instance transport_ops : TransportOps Transport := {|
  perform c t :=
    match c with
    | CallType => (AnsType (transportType (mkRef (t_kind t) 0)), t)
    | CallState => (AnsState (t_state t), t)
    | CallSetURL url => (AnsDone, SetURL url t)
    | CallBeginOpen =>
        let '(ok, t) := t_beginOpen t in
        (AnsOpen (if ok : bool then
                    Some (dial_url t,
                          match t_kind t with
                          | KWebTransport => Get (str "sid") (URLQuery (dial_url t))
                          | _ => []
                          end)
                  else None), t)
    | CallDialFailed =>
        match t_kind t with
        | KPolling => (AnsAbsent, t)
        | _ => (AnsDone, set_t_state TransportStateClosed t)
        end
    | CallConnected _ _ _ =>
        match t_kind t with
        | KPolling => (AnsAbsent, t)
        | _ => (AnsDone, set_t_conn true t)
        end
    | CallOnOpen => let '(h, t) := t_onOpen t in (AnsHandler h, t)
    | CallOnClose => let '(r, t) := t_onClose t in (AnsClosed r, t)
    | CallPacketHandler => (AnsHandler (t_onPacketHandler t), t)
    | CallErrorHandler => (AnsHandler (t_onErrorHandler t), t)
    | CallOn x h => (AnsDone, set_handler x h t)
    | CallSend => (AnsTest (t_sends t), t)
    | CallClose => (AnsTest (running t), t)
    | CallRead =>
        match t_kind t with
        | KPolling => (AnsAbsent, t)
        | _ => (AnsTest (keeps_reading t), t)
        end
    | CallDeliberate =>
        match t_kind t with
        | KPolling => (AnsAbsent, t)
        | _ => (AnsTest (deliberate t), t)
        end
    | CallPause =>
        match t_kind t with
        | KPolling => let '(ok, t) := beginPause t in (AnsTest ok, t)
        | _ => (AnsTest false, t)
        end
    | CallPaused =>
        match t_kind t with
        | KPolling => (AnsDone, set_t_state TransportStatePaused t)
        | _ => (AnsAbsent, t)
        end
    | CallBeginClose =>
        match t_kind t with
        | KPolling => let '(ok, t) := t_beginClose t in (AnsTest ok, t)
        | _ => (AnsAbsent, t)
        end
    | CallRequest =>
        match t_kind t with
        | KPolling => (AnsURL (t_url t), t)
        | _ => (AnsAbsent, t)
        end
    | CallStream =>
        match t_kind t with
        | KWebTransport => (AnsTest (t_conn t), t)
        | _ => (AnsAbsent, t)
        end
    | CallLock PollMu =>
        match t_kind t with
        | KPolling => (AnsTest (negb (t_pollMu t)), set_t_pollMu true t)
        | _ => (AnsAbsent, t)
        end
    | CallUnlock PollMu =>
        match t_kind t with
        | KPolling => (AnsDone, set_t_pollMu false t)
        | _ => (AnsAbsent, t)
        end
    | CallLock WriteMu =>
        match t_kind t with
        | KPolling => (AnsAbsent, t)
        | _ => (AnsTest (negb (t_writeMu t)), set_t_writeMu true t)
        end
    | CallUnlock WriteMu =>
        match t_kind t with
        | KPolling => (AnsAbsent, t)
        | _ => (AnsDone, set_t_writeMu false t)
        end
    | CallDispatch =>
        match t_kind t with
        | KPolling => (AnsDone, set_t_pollWG (S (t_pollWG t)) t)
        | _ => (AnsAbsent, t)
        end
    | CallDispatched =>
        match t_kind t with
        | KPolling => (AnsDone, set_t_pollWG (pred (t_pollWG t)) t)
        | _ => (AnsAbsent, t)
        end
    end |}.

(** The abstraction of an implementation to the record of the machine.  [sound] is the
    invariant of the implementation's fields that it needs. *)
Class TransportLaws (T : Type) `{TransportOps T} := {
  abstract : T → Transport;
  sound : T → Prop;
  perform_sound c x : sound x → sound (perform c x).2;
  perform_abstract c x :
    sound x → perform c (abstract x) = prod_map id abstract (perform c x);
}.

(** ** PollingTransport (socket_transport_polling.go) *)
Module PollingTransport.

Record PollingTransport := mk {
  client : httpClient;
  header : values;
  url : URL;
  onOpenHandler : option owner;
  onCloseHandler : option owner;
  onPacketHandler : option owner;
  onErrorHandler : option owner;
  state : TransportState;
  pollMu : bool;
  pollWG : nat;
}.

Definition New (url : option URL) (client : option handle) (header : option values)
    : res PollingTransport :=
  match url with
  | None => Err (ESentinel ErrURLRequired)
  | Some url =>
      let client := match client with None => DefaultClient | Some c => GivenClient c end in
      let header := default [] header in
      Ok (mk client header url None None None None TransportStateClosed false 0)
  end.

Definition Type_ (_ : PollingTransport) : TransportType := TransportTypePolling.
Definition State (t : PollingTransport) : TransportState := state t.

Definition set_state (v : TransportState) (t : PollingTransport) : PollingTransport :=
  mk (client t) (header t) (url t) (onOpenHandler t) (onCloseHandler t) (onPacketHandler t)
    (onErrorHandler t) v (pollMu t) (pollWG t).

Definition SetURL (u : URL) (t : PollingTransport) : PollingTransport :=
  mk (client t) (header t) u (onOpenHandler t) (onCloseHandler t) (onPacketHandler t)
    (onErrorHandler t) (state t) (pollMu t) (pollWG t).

Definition beginOpen (t : PollingTransport) : bool * PollingTransport :=
  if decide (state t ≠ TransportStateClosed) then (false, t)
  else (true, set_state TransportStateOpening t).

Definition beginPause (t : PollingTransport) : bool * PollingTransport :=
  if decide (state t = TransportStateOpening ∨ state t = TransportStateOpen)
  then (true, set_state TransportStatePausing t)
  else (false, t).

Definition beginClose (t : PollingTransport) : bool * PollingTransport :=
  if decide (state t = TransportStateClosed) then (false, t)
  else (true, set_state TransportStateClosing t).

(** The test of [Send], and the one of [Close]. *)
Definition Send (t : PollingTransport) : bool :=
  negb (bool_decide (state t ≠ TransportStateOpen)).
Definition Close (t : PollingTransport) : bool :=
  negb (bool_decide (state t ≠ TransportStateOpening ∧ state t ≠ TransportStateOpen)).

Definition onOpen (t : PollingTransport) : option owner * PollingTransport :=
  (onOpenHandler t, set_state TransportStateOpen t).

Definition onClose (t : PollingTransport) : option (option owner) * PollingTransport :=
  if decide (state t = TransportStateClosed) then (None, t)
  else (Some (onCloseHandler t), set_state TransportStateClosed t).

Definition onPacket (t : PollingTransport) : option owner := onPacketHandler t.
Definition onError (t : PollingTransport) : option owner := onErrorHandler t.

Definition OnOpen (h : option owner) (t : PollingTransport) : PollingTransport :=
  mk (client t) (header t) (url t) h (onCloseHandler t) (onPacketHandler t)
    (onErrorHandler t) (state t) (pollMu t) (pollWG t).
Definition OnClose (h : option owner) (t : PollingTransport) : PollingTransport :=
  mk (client t) (header t) (url t) (onOpenHandler t) h (onPacketHandler t)
    (onErrorHandler t) (state t) (pollMu t) (pollWG t).
Definition OnPacket (h : option owner) (t : PollingTransport) : PollingTransport :=
  mk (client t) (header t) (url t) (onOpenHandler t) (onCloseHandler t) h
    (onErrorHandler t) (state t) (pollMu t) (pollWG t).
Definition OnError (h : option owner) (t : PollingTransport) : PollingTransport :=
  mk (client t) (header t) (url t) (onOpenHandler t) (onCloseHandler t) (onPacketHandler t)
    h (state t) (pollMu t) (pollWG t).

Definition set_pollMu (v : bool) (t : PollingTransport) : PollingTransport :=
  mk (client t) (header t) (url t) (onOpenHandler t) (onCloseHandler t) (onPacketHandler t)
    (onErrorHandler t) (state t) v (pollWG t).
Definition set_pollWG (v : nat) (t : PollingTransport) : PollingTransport :=
  mk (client t) (header t) (url t) (onOpenHandler t) (onCloseHandler t) (onPacketHandler t)
    (onErrorHandler t) (state t) (pollMu t) v.

#[global] Instance ops : TransportOps PollingTransport := {|
  perform c t :=
    match c with
    | CallType => (AnsType (Type_ t), t)
    | CallState => (AnsState (State t), t)
    | CallSetURL u => (AnsDone, SetURL u t)
    | CallBeginOpen =>
        let '(ok, t) := beginOpen t in
        (AnsOpen (if ok : bool then Some (url t, []) else None), t)
    | CallOnOpen => let '(h, t) := onOpen t in (AnsHandler h, t)
    | CallOnClose =>
        let '(r, t) := onClose t in (AnsClosed (option_map (λ h, (false, h)) r), t)
    | CallPacketHandler => (AnsHandler (onPacket t), t)
    | CallErrorHandler => (AnsHandler (onError t), t)
    | CallOn SlotOpen h => (AnsDone, OnOpen h t)
    | CallOn SlotClose h => (AnsDone, OnClose h t)
    | CallOn SlotPacket h => (AnsDone, OnPacket h t)
    | CallOn SlotError h => (AnsDone, OnError h t)
    | CallSend => (AnsTest (Send t), t)
    | CallClose => (AnsTest (Close t), t)
    | CallPause => let '(ok, t) := beginPause t in (AnsTest ok, t)
    | CallPaused => (AnsDone, set_state TransportStatePaused t)
    | CallBeginClose => let '(ok, t) := beginClose t in (AnsTest ok, t)
    | CallRequest => (AnsURL (url t), t)
    | CallLock PollMu => (AnsTest (negb (pollMu t)), set_pollMu true t)
    | CallUnlock PollMu => (AnsDone, set_pollMu false t)
    | CallDispatch => (AnsDone, set_pollWG (S (pollWG t)) t)
    | CallDispatched => (AnsDone, set_pollWG (pred (pollWG t)) t)
    | CallDialFailed | CallConnected _ _ _ | CallRead | CallDeliberate | CallStream
    | CallLock WriteMu | CallUnlock WriteMu => (AnsAbsent, t)
    end |}.

(** As the record of the machine. *)
Definition abs (t : PollingTransport) : Transport :=
  mkTransport KPolling (url t) (onOpenHandler t) (onCloseHandler t) (onPacketHandler t)
    (onErrorHandler t) (state t) false (pollMu t) (pollWG t)
    false.

End PollingTransport.

(** ** WebSocketTransport (socket_transport_websocket.go) *)
Module WebSocketTransport.

Record WebSocketTransport := mk {
  client : httpClient;
  header : values;
  url : URL;
  onOpenHandler : option owner;
  onCloseHandler : option owner;
  onPacketHandler : option owner;
  onErrorHandler : option owner;
  state : TransportState;
  ws : option handle;
  writeMu : bool;
}.

(** A client of the caller is wrapped, so that [http.DefaultClient] is never written to. *)
Definition New (url : option URL) (client : option handle) (header : option values)
    : res WebSocketTransport :=
  match url with
  | None => Err (ESentinel ErrURLRequired)
  | Some url =>
      let client := match client with None => DefaultClient | Some c => RoundTripperOf c end in
      let header := default [] header in
      Ok (mk client header url None None None None TransportStateClosed None false)
  end.

Definition Type_ (_ : WebSocketTransport) : TransportType := TransportTypeWebSocket.
Definition State (t : WebSocketTransport) : TransportState := state t.

Definition set_state (v : TransportState) (t : WebSocketTransport) : WebSocketTransport :=
  mk (client t) (header t) (url t) (onOpenHandler t) (onCloseHandler t) (onPacketHandler t)
    (onErrorHandler t) v (ws t) (writeMu t).

Definition SetURL (u : URL) (t : WebSocketTransport) : WebSocketTransport :=
  mk (client t) (header t) u (onOpenHandler t) (onCloseHandler t) (onPacketHandler t)
    (onErrorHandler t) (state t) (ws t) (writeMu t).

(** [beginOpen] returns what [Open] dials with. *)
Definition beginOpen (t : WebSocketTransport) : option (URL * values * httpClient) * WebSocketTransport :=
  if decide (state t ≠ TransportStateClosed) then (None, t)
  else let t := set_state TransportStateOpening t in (Some (url t, header t, client t), t).

(** The two ends of [Open]'s dial. *)
Definition dialFailed (t : WebSocketTransport) : WebSocketTransport := set_state TransportStateClosed t.
Definition connected (conn : handle) (t : WebSocketTransport) : WebSocketTransport :=
  mk (client t) (header t) (url t) (onOpenHandler t) (onCloseHandler t) (onPacketHandler t)
    (onErrorHandler t) (state t) (Some conn) (writeMu t).

Definition Send (t : WebSocketTransport) : bool :=
  negb (bool_decide (state t ≠ TransportStateOpen ∨ ws t = None)).

Definition Close (t : WebSocketTransport) : bool :=
  negb (bool_decide (state t ≠ TransportStateOpening ∧ state t ≠ TransportStateOpen)).

(** [Pause] does nothing. *)
Definition Pause (t : WebSocketTransport) : WebSocketTransport := t.

(** The tests of [readLoop]: to read on, and whether a failed read was meant. *)
Definition readLoop (t : WebSocketTransport) : bool :=
  negb (bool_decide (ws t = None ∨ state t = TransportStateClosing ∨
                     state t = TransportStateClosed)).
Definition wasDeliberate (t : WebSocketTransport) : bool :=
  bool_decide (state t = TransportStateClosing ∨ state t = TransportStateClosed).

Definition onOpen (t : WebSocketTransport) : option owner * WebSocketTransport :=
  (onOpenHandler t, set_state TransportStateOpen t).

Definition onClose (t : WebSocketTransport)
    : option (option handle * option owner) * WebSocketTransport :=
  if decide (state t = TransportStateClosed) then (None, t)
  else
    (Some (ws t, onCloseHandler t),
     mk (client t) (header t) (url t) (onOpenHandler t) (onCloseHandler t) (onPacketHandler t)
       (onErrorHandler t) TransportStateClosed None (writeMu t)).

Definition onPacket (t : WebSocketTransport) : option owner := onPacketHandler t.
Definition onError (t : WebSocketTransport) : option owner := onErrorHandler t.

Definition OnOpen (h : option owner) (t : WebSocketTransport) : WebSocketTransport :=
  mk (client t) (header t) (url t) h (onCloseHandler t) (onPacketHandler t)
    (onErrorHandler t) (state t) (ws t) (writeMu t).
Definition OnClose (h : option owner) (t : WebSocketTransport) : WebSocketTransport :=
  mk (client t) (header t) (url t) (onOpenHandler t) h (onPacketHandler t) (onErrorHandler t)
    (state t) (ws t) (writeMu t).
Definition OnPacket (h : option owner) (t : WebSocketTransport) : WebSocketTransport :=
  mk (client t) (header t) (url t) (onOpenHandler t) (onCloseHandler t) h (onErrorHandler t)
    (state t) (ws t) (writeMu t).
Definition OnError (h : option owner) (t : WebSocketTransport) : WebSocketTransport :=
  mk (client t) (header t) (url t) (onOpenHandler t) (onCloseHandler t) (onPacketHandler t) h
    (state t) (ws t) (writeMu t).

Definition set_writeMu (v : bool) (t : WebSocketTransport) : WebSocketTransport :=
  mk (client t) (header t) (url t) (onOpenHandler t) (onCloseHandler t) (onPacketHandler t)
    (onErrorHandler t) (state t) (ws t) v.

#[global] Instance ops : TransportOps WebSocketTransport := {|
  perform c t :=
    match c with
    | CallType => (AnsType (Type_ t), t)
    | CallState => (AnsState (State t), t)
    | CallSetURL u => (AnsDone, SetURL u t)
    | CallBeginOpen =>
        let '(r, t) := beginOpen t in
        (AnsOpen (option_map (λ '(target, _, _), (target, [])) r), t)
    | CallConnected conn _ _ => (AnsDone, connected conn t)
    | CallStream => (AnsAbsent, t)
    | CallDialFailed => (AnsDone, dialFailed t)
    | CallOnOpen => let '(h, t) := onOpen t in (AnsHandler h, t)
    | CallOnClose =>
        let '(r, t) := onClose t in
        (AnsClosed (option_map (λ '(conn, h), (bool_decide (is_Some conn), h)) r), t)
    | CallPacketHandler => (AnsHandler (onPacket t), t)
    | CallErrorHandler => (AnsHandler (onError t), t)
    | CallOn SlotOpen h => (AnsDone, OnOpen h t)
    | CallOn SlotClose h => (AnsDone, OnClose h t)
    | CallOn SlotPacket h => (AnsDone, OnPacket h t)
    | CallOn SlotError h => (AnsDone, OnError h t)
    | CallSend => (AnsTest (Send t), t)
    | CallClose => (AnsTest (Close t), t)
    | CallRead => (AnsTest (readLoop t), t)
    | CallDeliberate => (AnsTest (wasDeliberate t), t)
    | CallPause => (AnsTest false, Pause t)
    | CallLock WriteMu => (AnsTest (negb (writeMu t)), set_writeMu true t)
    | CallUnlock WriteMu => (AnsDone, set_writeMu false t)
    | CallPaused | CallBeginClose | CallRequest | CallLock PollMu | CallUnlock PollMu
    | CallDispatch | CallDispatched => (AnsAbsent, t)
    end |}.

(** As the record of the machine. *)
Definition abs (t : WebSocketTransport) : Transport :=
  mkTransport KWebSocket (url t) (onOpenHandler t) (onCloseHandler t) (onPacketHandler t)
    (onErrorHandler t) (state t) (bool_decide (is_Some (ws t)))
    false 0 (writeMu t).

End WebSocketTransport.

(** ** WebTransportTransport (socket_transport_webtransport.go) *)
Module WebTransportTransport.

Record WebTransportTransport := mk {
  dialer : handle;
  header : values;
  url : URL;
  onOpenHandler : option owner;
  onCloseHandler : option owner;
  onPacketHandler : option owner;
  onErrorHandler : option owner;
  state : TransportState;
  session : option handle;
  stream : option handle;
  reader : option handle;
  writeMu : bool;
}.

Definition New (target : option URL) (dialer : option handle) (header : option values)
    : res WebTransportTransport :=
  match target with
  | None => Err (ESentinel ErrURLRequired)
  | Some target =>
      match dialer with
      | None => Err (ESentinel ErrWebTransportDialerRequired)
      | Some dialer =>
          let header := default [] header in
          Ok (mk dialer header target None None None None TransportStateClosed
                None None None false)
      end
  end.

Definition Type_ (_ : WebTransportTransport) : TransportType := TransportTypeWebTransport.
Definition State (t : WebTransportTransport) : TransportState := state t.

Definition set_state (v : TransportState) (t : WebTransportTransport) : WebTransportTransport :=
  mk (dialer t) (header t) (url t) (onOpenHandler t) (onCloseHandler t) (onPacketHandler t)
    (onErrorHandler t) v (session t) (stream t) (reader t) (writeMu t).

Definition SetURL (u : URL) (t : WebTransportTransport) : WebTransportTransport :=
  mk (dialer t) (header t) u (onOpenHandler t) (onCloseHandler t) (onPacketHandler t)
    (onErrorHandler t) (state t) (session t) (stream t) (reader t) (writeMu t).

(** [beginOpen] returns what [Open] dials with, the scheme forced to https, and the session
    id of the URL. *)
Definition beginOpen (t : WebTransportTransport) : option (URL * values * handle * bytes) * WebTransportTransport :=
  if decide (state t ≠ TransportStateClosed) then (None, t)
  else
    let t := set_state TransportStateOpening t in
    let dialURL := mkURL (str "https") (Rest (url t)) (URLQuery (url t)) in
    (Some (dialURL, header t, dialer t, Get (str "sid") (URLQuery (url t))), t).

(** The two failures of [Open], to dial and to open the stream, and its success. *)
Definition dialFailed (t : WebTransportTransport) : WebTransportTransport := set_state TransportStateClosed t.
Definition connected (s st r : handle) (t : WebTransportTransport) : WebTransportTransport :=
  mk (dialer t) (header t) (url t) (onOpenHandler t) (onCloseHandler t) (onPacketHandler t)
    (onErrorHandler t) (state t) (Some s) (Some st) (Some r) (writeMu t).

Definition Send (t : WebTransportTransport) : bool :=
  negb (bool_decide (state t ≠ TransportStateOpen)).

(** The stream [writeFrames] writes to. *)
Definition writeFrames (t : WebTransportTransport) : option handle := stream t.

Definition Close (t : WebTransportTransport) : bool :=
  negb (bool_decide (state t ≠ TransportStateOpening ∧ state t ≠ TransportStateOpen)).

(** [Pause] does nothing. *)
Definition Pause (t : WebTransportTransport) : WebTransportTransport := t.

(** The tests of [readLoop]: to read on, and whether a failed read was meant. *)
Definition readLoop (t : WebTransportTransport) : bool :=
  negb (bool_decide (reader t = None ∨ state t = TransportStateClosing ∨
                     state t = TransportStateClosed)).
Definition wasDeliberate (t : WebTransportTransport) : bool :=
  bool_decide (state t = TransportStateClosing ∨ state t = TransportStateClosed).

Definition onOpen (t : WebTransportTransport) : option owner * WebTransportTransport :=
  (onOpenHandler t, set_state TransportStateOpen t).

Definition onClose (t : WebTransportTransport)
    : option (option handle * option owner) * WebTransportTransport :=
  if decide (state t = TransportStateClosed) then (None, t)
  else
    (Some (session t, onCloseHandler t),
     mk (dialer t) (header t) (url t) (onOpenHandler t) (onCloseHandler t) (onPacketHandler t)
       (onErrorHandler t) TransportStateClosed None None None (writeMu t)).

Definition onPacket (t : WebTransportTransport) : option owner := onPacketHandler t.
Definition onError (t : WebTransportTransport) : option owner := onErrorHandler t.

Definition OnOpen (h : option owner) (t : WebTransportTransport) : WebTransportTransport :=
  mk (dialer t) (header t) (url t) h (onCloseHandler t) (onPacketHandler t)
    (onErrorHandler t) (state t) (session t) (stream t) (reader t) (writeMu t).
Definition OnClose (h : option owner) (t : WebTransportTransport) : WebTransportTransport :=
  mk (dialer t) (header t) (url t) (onOpenHandler t) h (onPacketHandler t) (onErrorHandler t)
    (state t) (session t) (stream t) (reader t) (writeMu t).
Definition OnPacket (h : option owner) (t : WebTransportTransport) : WebTransportTransport :=
  mk (dialer t) (header t) (url t) (onOpenHandler t) (onCloseHandler t) h (onErrorHandler t)
    (state t) (session t) (stream t) (reader t) (writeMu t).
Definition OnError (h : option owner) (t : WebTransportTransport) : WebTransportTransport :=
  mk (dialer t) (header t) (url t) (onOpenHandler t) (onCloseHandler t) (onPacketHandler t) h
    (state t) (session t) (stream t) (reader t) (writeMu t).

Definition set_writeMu (v : bool) (t : WebTransportTransport) : WebTransportTransport :=
  mk (dialer t) (header t) (url t) (onOpenHandler t) (onCloseHandler t) (onPacketHandler t)
    (onErrorHandler t) (state t) (session t) (stream t) (reader t) v.

#[global] Instance ops : TransportOps WebTransportTransport := {|
  perform c t :=
    match c with
    | CallType => (AnsType (Type_ t), t)
    | CallState => (AnsState (State t), t)
    | CallSetURL u => (AnsDone, SetURL u t)
    | CallBeginOpen =>
        let '(r, t) := beginOpen t in
        (AnsOpen (option_map (λ '(target, _, _, sid), (target, sid)) r), t)
    | CallConnected s st r => (AnsDone, connected s st r t)
    | CallStream => (AnsTest (bool_decide (is_Some (writeFrames t))), t)
    | CallDialFailed => (AnsDone, dialFailed t)
    | CallOnOpen => let '(h, t) := onOpen t in (AnsHandler h, t)
    | CallOnClose =>
        let '(r, t) := onClose t in
        (AnsClosed (option_map (λ '(conn, h), (bool_decide (is_Some conn), h)) r), t)
    | CallPacketHandler => (AnsHandler (onPacket t), t)
    | CallErrorHandler => (AnsHandler (onError t), t)
    | CallOn SlotOpen h => (AnsDone, OnOpen h t)
    | CallOn SlotClose h => (AnsDone, OnClose h t)
    | CallOn SlotPacket h => (AnsDone, OnPacket h t)
    | CallOn SlotError h => (AnsDone, OnError h t)
    | CallSend => (AnsTest (Send t), t)
    | CallClose => (AnsTest (Close t), t)
    | CallRead => (AnsTest (readLoop t), t)
    | CallDeliberate => (AnsTest (wasDeliberate t), t)
    | CallPause => (AnsTest false, Pause t)
    | CallLock WriteMu => (AnsTest (negb (writeMu t)), set_writeMu true t)
    | CallUnlock WriteMu => (AnsDone, set_writeMu false t)
    | CallPaused | CallBeginClose | CallRequest | CallLock PollMu | CallUnlock PollMu
    | CallDispatch | CallDispatched => (AnsAbsent, t)
    end |}.

(** The session, the stream and its reader are set and cleared together. *)
Definition whole (t : WebTransportTransport) : Prop :=
  (is_Some (stream t) ↔ is_Some (session t)) ∧ (is_Some (reader t) ↔ is_Some (session t)).

(** As the record of the machine. *)
Definition abs (t : WebTransportTransport) : Transport :=
  mkTransport KWebTransport (url t) (onOpenHandler t) (onCloseHandler t) (onPacketHandler t)
    (onErrorHandler t) (state t)
    (bool_decide (is_Some (session t))) false 0 (writeMu t).

End WebTransportTransport.

(** ** The laws *)
Ltac by_call :=
  let c := fresh "c" in let t := fresh "t" in let st := fresh "st" in
  intros c t; destruct t as [? ? ? ? ? ? ? st]; destruct st;
  destruct c as [| | | | | | | | | |[]| | | | | | | | | |[]|[]| |].

Lemma polling_abstract c (t : PollingTransport.PollingTransport) :
  perform c (PollingTransport.abs t) = prod_map id PollingTransport.abs (perform c t).
Proof. revert c t; by_call; done. Qed.

Lemma websocket_abstract c (t : WebSocketTransport.WebSocketTransport) :
  perform c (WebSocketTransport.abs t) = prod_map id WebSocketTransport.abs (perform c t).
Proof. revert c t; by_call; try done; by destruct ws. Qed.

Lemma webtransport_sound c (t : WebTransportTransport.WebTransportTransport) :
  WebTransportTransport.whole t → WebTransportTransport.whole (perform c t).2.
Proof. revert c t; by_call; done. Qed.

Lemma webtransport_abstract c (t : WebTransportTransport.WebTransportTransport) :
  WebTransportTransport.whole t →
  perform c (WebTransportTransport.abs t) =
  prod_map id WebTransportTransport.abs (perform c t).
Proof.
  revert c t; by_call; try done.
  all: destruct session, stream, reader; intros [H1 H2]; try done.
  all: cbn in H1, H2; exfalso; apply (is_Some_None (A := nat)); naive_solver eauto using mk_is_Some.
Qed.

#[export] Instance polling_laws : TransportLaws PollingTransport.PollingTransport := {|
  abstract := PollingTransport.abs;
  sound _ := True;
  perform_sound _ _ _ := I;
  perform_abstract c t _ := polling_abstract c t;
|}.

#[export] Instance websocket_laws : TransportLaws WebSocketTransport.WebSocketTransport := {|
  abstract := WebSocketTransport.abs;
  sound _ := True;
  perform_sound _ _ _ := I;
  perform_abstract c t _ := websocket_abstract c t;
|}.

#[export] Instance webtransport_laws : TransportLaws WebTransportTransport.WebTransportTransport := {|
  abstract := WebTransportTransport.abs;
  sound := WebTransportTransport.whole;
  perform_sound := webtransport_sound;
  perform_abstract := webtransport_abstract;
|}.

(** ** Any exchange of calls *)
Lemma talk_cons {T} `{TransportOps T} c cs (x : T) :
  talk (c :: cs) x = let '(a, x) := perform c x in let '(l, x) := talk cs x in (a :: l, x).
Proof. done. Qed.

Section talk.
Context {T : Type} `{TransportLaws T}.

Lemma talk_abstract cs (x : T) :
  sound x → talk cs (abstract x) = prod_map id abstract (talk cs x).
Proof.
  revert x; induction cs as [|c cs IH]; intros x Hx; [done|].
  rewrite !talk_cons.
  rewrite (perform_abstract c x Hx). pose proof (perform_sound c x Hx) as Hy.
  destruct (perform c x) as [a y]; cbn [prod_map fst snd id] in *. rewrite (IH y Hy).
  by destruct (talk cs y).
Qed.

Lemma talk_answers cs (x : T) t : sound x → abstract x = t → (talk cs x).1 = (talk cs t).1.
Proof. intros Hx <-. rewrite (talk_abstract cs x Hx). by destruct (talk cs x). Qed.

End talk.

(** A value of the interface. *)
Inductive AnyTransport :=
| APolling (t : PollingTransport.PollingTransport)
| AWebSocket (t : WebSocketTransport.WebSocketTransport)
| AWebTransport (t : WebTransportTransport.WebTransportTransport).

(** The three constructors, and the same through the machine's record. *)
Definition construct (k : transportKind) (url : option URL) (client dialer : option handle)
    (header : option values) : res AnyTransport :=
  match k with
  | KPolling => let! t := PollingTransport.New url client header in Ok (APolling t)
  | KWebSocket => let! t := WebSocketTransport.New url client header in Ok (AWebSocket t)
  | KWebTransport => let! t := WebTransportTransport.New url dialer header in Ok (AWebTransport t)
  end.

Definition construct_machine (k : transportKind) (url : option URL) (dialer : option handle)
    : res Transport :=
  match k with
  | KPolling => NewPollingTransport url
  | KWebSocket => NewWebSocketTransport url
  | KWebTransport => NewWebTransportTransport url (bool_decide (is_Some dialer))
  end.

Definition answers (cs : list call) (t : AnyTransport) : list answer :=
  match t with
  | APolling t => (talk cs t).1
  | AWebSocket t => (talk cs t).1
  | AWebTransport t => (talk cs t).1
  end.

(** C16. The client machine runs on one record for the three kinds of client transport.  A
    transport of any kind, made by its own constructor and called in any order through the
    critical sections of its methods, answers every call as that record does: the URL it
    dials, the handlers it calls, whether it sends, reads on, pauses or closes, and the
    connection it tears down. *)
Theorem client_transports_refine k url client dialer header cs :
  (let! t := construct k url client dialer header in Ok (answers cs t)) =
  (let! t := construct_machine k url dialer in Ok (talk cs t).1).
Proof.
  destruct k, url as [url|], dialer as [d|]; try done.
  all: apply (f_equal Ok); by apply talk_answers.
Qed.
