(* ===== verification/ClientSocket.v ===== *)
(** * The client socket (socket.go)

    The options, the state that [s.mu] guards, and one function per critical section of
    the methods, in the order of the source.  What a method does between its critical
    sections is in ClientMachine. *)
From S2P Require Import Prelude Packet Unicode Payload Json Http ServerOptions Handshake.
From S2P Require Import ServerTransport ClientTransport.

Inductive SocketState :=
| SocketStateOpen
| SocketStateOpening
| SocketStateClosed
| SocketStateClosing.
#[export] Instance SocketState_eq_decision : EqDecision SocketState.
Proof. solve_decision. Defined.

(** ** Options *)

(** A constructor of the registry: [NewPollingTransport], [NewWebSocketTransport], or
    [NewWebTransportTransport] with its dialer, nil or not. *)
Inductive constructor := CPollingTransport | CWebSocketTransport | CWebTransport (dialer : bool).

(** The HTTP client is opaque and named by a number. *)
Record socketConfig := mkSocketConfig {
  cfg_client : nat;
  cfg_header : values;
  cfg_upgrade : bool;
  cfg_rememberUpgrade : bool;
  cfg_transports : list TransportType;
  cfg_tryAllTransports : bool;
  cfg_webTransportConstructor : option constructor;
}.

Definition SocketOption : Type := socketConfig → socketConfig.

Definition WithClient (client : nat) : SocketOption := λ c,
  mkSocketConfig client (cfg_header c) (cfg_upgrade c) (cfg_rememberUpgrade c)
    (cfg_transports c) (cfg_tryAllTransports c) (cfg_webTransportConstructor c).
Definition WithHeader (header : values) : SocketOption := λ c,
  mkSocketConfig (cfg_client c) header (cfg_upgrade c) (cfg_rememberUpgrade c)
    (cfg_transports c) (cfg_tryAllTransports c) (cfg_webTransportConstructor c).
Definition WithUpgrade (upgrade : bool) : SocketOption := λ c,
  mkSocketConfig (cfg_client c) (cfg_header c) upgrade (cfg_rememberUpgrade c)
    (cfg_transports c) (cfg_tryAllTransports c) (cfg_webTransportConstructor c).
Definition WithRememberUpgrade (rememberUpgrade : bool) : SocketOption := λ c,
  mkSocketConfig (cfg_client c) (cfg_header c) (cfg_upgrade c) rememberUpgrade
    (cfg_transports c) (cfg_tryAllTransports c) (cfg_webTransportConstructor c).
Definition WithTransports (ts : list TransportType) : SocketOption := λ c,
  mkSocketConfig (cfg_client c) (cfg_header c) (cfg_upgrade c) (cfg_rememberUpgrade c)
    ts (cfg_tryAllTransports c) (cfg_webTransportConstructor c).
Definition WithTryAllTransports (tryAll : bool) : SocketOption := λ c,
  mkSocketConfig (cfg_client c) (cfg_header c) (cfg_upgrade c) (cfg_rememberUpgrade c)
    (cfg_transports c) tryAll (cfg_webTransportConstructor c).
Definition WithWebTransportDialer (dialer : bool) : SocketOption := λ c,
  mkSocketConfig (cfg_client c) (cfg_header c) (cfg_upgrade c) (cfg_rememberUpgrade c)
    (cfg_transports c) (cfg_tryAllTransports c) (Some (CWebTransport dialer)).

(** ** The socket *)

(** The application's handlers, named by numbers. *)
Record handlers := mkHandlers {
  onOpenHandler : option nat;
  onCloseHandler : option nat;
  onPacketHandler : option nat;
  onMessageHandler : option nat;
  onErrorHandler : option nat;
  onUpgradeHandler : option nat;
  onUpgradeErrorHandler : option nat;
}.

Inductive event_kind :=
  OnOpen | OnClose | OnPacket | OnMessage | OnError | OnUpgrade | OnUpgradeError.

(** A transport, a timer and a context are references; [s_timers] holds the armed timers
    with their durations, and [s_cancelled] the contexts that were cancelled.  [s_queued],
    [s_handed] and [s_committing] are history: what was appended to the buffer since it
    was last reset, what a flush has written over a transport since then, and how many
    probes are between their pong and their outcome. *)
Record Socket := mkSocket {
  s_url : URL;
  s_config : socketConfig;
  s_constructors : gmap bytes constructor;
  s_handlers : handlers;
  s_transports : list TransportType;
  s_sessionID : bytes;
  s_pingInterval : Z;
  s_pingTimeout : Z;
  s_maxPayload : Z;
  s_state : SocketState;
  s_transport : option nat;
  s_priorUpgrade : TransportType;
  s_pingTimeoutTimer : option nat;
  s_baseCtx : option nat;
  s_runCancel : option nat;
  s_writeBuffer : list Packet;
  s_upgrading : bool;
  s_flushing : bool;
  s_flushWG : nat;
  s_timers : gmap nat Z;
  s_cancelled : list nat;
  s_fresh : nat;
  s_queued : list Packet;
  s_handed : list Packet;
  s_committing : nat;
}.

Definition set_s_handlers (v : handlers) (s : Socket) : Socket :=
  mkSocket (s_url s) (s_config s) (s_constructors s) v (s_transports s) (s_sessionID s)
    (s_pingInterval s) (s_pingTimeout s) (s_maxPayload s) (s_state s) (s_transport s)
    (s_priorUpgrade s) (s_pingTimeoutTimer s) (s_baseCtx s) (s_runCancel s) (s_writeBuffer
    s) (s_upgrading s) (s_flushing s) (s_flushWG s) (s_timers s) (s_cancelled s) (s_fresh
    s) (s_queued s) (s_handed s) (s_committing s).
Definition set_s_transports (v : list TransportType) (s : Socket) : Socket :=
  mkSocket (s_url s) (s_config s) (s_constructors s) (s_handlers s) v (s_sessionID s)
    (s_pingInterval s) (s_pingTimeout s) (s_maxPayload s) (s_state s) (s_transport s)
    (s_priorUpgrade s) (s_pingTimeoutTimer s) (s_baseCtx s) (s_runCancel s) (s_writeBuffer
    s) (s_upgrading s) (s_flushing s) (s_flushWG s) (s_timers s) (s_cancelled s) (s_fresh
    s) (s_queued s) (s_handed s) (s_committing s).
Definition set_s_sessionID (v : bytes) (s : Socket) : Socket :=
  mkSocket (s_url s) (s_config s) (s_constructors s) (s_handlers s) (s_transports s) v
    (s_pingInterval s) (s_pingTimeout s) (s_maxPayload s) (s_state s) (s_transport s)
    (s_priorUpgrade s) (s_pingTimeoutTimer s) (s_baseCtx s) (s_runCancel s) (s_writeBuffer
    s) (s_upgrading s) (s_flushing s) (s_flushWG s) (s_timers s) (s_cancelled s) (s_fresh
    s) (s_queued s) (s_handed s) (s_committing s).
Definition set_s_pingInterval (v : Z) (s : Socket) : Socket :=
  mkSocket (s_url s) (s_config s) (s_constructors s) (s_handlers s) (s_transports s)
    (s_sessionID s) v (s_pingTimeout s) (s_maxPayload s) (s_state s) (s_transport s)
    (s_priorUpgrade s) (s_pingTimeoutTimer s) (s_baseCtx s) (s_runCancel s) (s_writeBuffer
    s) (s_upgrading s) (s_flushing s) (s_flushWG s) (s_timers s) (s_cancelled s) (s_fresh
    s) (s_queued s) (s_handed s) (s_committing s).
Definition set_s_pingTimeout (v : Z) (s : Socket) : Socket :=
  mkSocket (s_url s) (s_config s) (s_constructors s) (s_handlers s) (s_transports s)
    (s_sessionID s) (s_pingInterval s) v (s_maxPayload s) (s_state s) (s_transport s)
    (s_priorUpgrade s) (s_pingTimeoutTimer s) (s_baseCtx s) (s_runCancel s) (s_writeBuffer
    s) (s_upgrading s) (s_flushing s) (s_flushWG s) (s_timers s) (s_cancelled s) (s_fresh
    s) (s_queued s) (s_handed s) (s_committing s).
Definition set_s_maxPayload (v : Z) (s : Socket) : Socket :=
  mkSocket (s_url s) (s_config s) (s_constructors s) (s_handlers s) (s_transports s)
    (s_sessionID s) (s_pingInterval s) (s_pingTimeout s) v (s_state s) (s_transport s)
    (s_priorUpgrade s) (s_pingTimeoutTimer s) (s_baseCtx s) (s_runCancel s) (s_writeBuffer
    s) (s_upgrading s) (s_flushing s) (s_flushWG s) (s_timers s) (s_cancelled s) (s_fresh
    s) (s_queued s) (s_handed s) (s_committing s).
Definition set_s_state (v : SocketState) (s : Socket) : Socket :=
  mkSocket (s_url s) (s_config s) (s_constructors s) (s_handlers s) (s_transports s)
    (s_sessionID s) (s_pingInterval s) (s_pingTimeout s) (s_maxPayload s) v (s_transport
    s) (s_priorUpgrade s) (s_pingTimeoutTimer s) (s_baseCtx s) (s_runCancel s)
    (s_writeBuffer s) (s_upgrading s) (s_flushing s) (s_flushWG s) (s_timers s)
    (s_cancelled s) (s_fresh s) (s_queued s) (s_handed s) (s_committing s).
Definition set_s_transport (v : option nat) (s : Socket) : Socket :=
  mkSocket (s_url s) (s_config s) (s_constructors s) (s_handlers s) (s_transports s)
    (s_sessionID s) (s_pingInterval s) (s_pingTimeout s) (s_maxPayload s) (s_state s) v
    (s_priorUpgrade s) (s_pingTimeoutTimer s) (s_baseCtx s) (s_runCancel s) (s_writeBuffer
    s) (s_upgrading s) (s_flushing s) (s_flushWG s) (s_timers s) (s_cancelled s) (s_fresh
    s) (s_queued s) (s_handed s) (s_committing s).
Definition set_s_priorUpgrade (v : TransportType) (s : Socket) : Socket :=
  mkSocket (s_url s) (s_config s) (s_constructors s) (s_handlers s) (s_transports s)
    (s_sessionID s) (s_pingInterval s) (s_pingTimeout s) (s_maxPayload s) (s_state s)
    (s_transport s) v (s_pingTimeoutTimer s) (s_baseCtx s) (s_runCancel s) (s_writeBuffer
    s) (s_upgrading s) (s_flushing s) (s_flushWG s) (s_timers s) (s_cancelled s) (s_fresh
    s) (s_queued s) (s_handed s) (s_committing s).
Definition set_s_pingTimeoutTimer (v : option nat) (s : Socket) : Socket :=
  mkSocket (s_url s) (s_config s) (s_constructors s) (s_handlers s) (s_transports s)
    (s_sessionID s) (s_pingInterval s) (s_pingTimeout s) (s_maxPayload s) (s_state s)
    (s_transport s) (s_priorUpgrade s) v (s_baseCtx s) (s_runCancel s) (s_writeBuffer s)
    (s_upgrading s) (s_flushing s) (s_flushWG s) (s_timers s) (s_cancelled s) (s_fresh s)
    (s_queued s) (s_handed s) (s_committing s).
Definition set_s_baseCtx (v : option nat) (s : Socket) : Socket :=
  mkSocket (s_url s) (s_config s) (s_constructors s) (s_handlers s) (s_transports s)
    (s_sessionID s) (s_pingInterval s) (s_pingTimeout s) (s_maxPayload s) (s_state s)
    (s_transport s) (s_priorUpgrade s) (s_pingTimeoutTimer s) v (s_runCancel s)
    (s_writeBuffer s) (s_upgrading s) (s_flushing s) (s_flushWG s) (s_timers s)
    (s_cancelled s) (s_fresh s) (s_queued s) (s_handed s) (s_committing s).
Definition set_s_runCancel (v : option nat) (s : Socket) : Socket :=
  mkSocket (s_url s) (s_config s) (s_constructors s) (s_handlers s) (s_transports s)
    (s_sessionID s) (s_pingInterval s) (s_pingTimeout s) (s_maxPayload s) (s_state s)
    (s_transport s) (s_priorUpgrade s) (s_pingTimeoutTimer s) (s_baseCtx s) v
    (s_writeBuffer s) (s_upgrading s) (s_flushing s) (s_flushWG s) (s_timers s)
    (s_cancelled s) (s_fresh s) (s_queued s) (s_handed s) (s_committing s).
Definition set_s_writeBuffer (v : list Packet) (s : Socket) : Socket :=
  mkSocket (s_url s) (s_config s) (s_constructors s) (s_handlers s) (s_transports s)
    (s_sessionID s) (s_pingInterval s) (s_pingTimeout s) (s_maxPayload s) (s_state s)
    (s_transport s) (s_priorUpgrade s) (s_pingTimeoutTimer s) (s_baseCtx s) (s_runCancel
    s) v (s_upgrading s) (s_flushing s) (s_flushWG s) (s_timers s) (s_cancelled s)
    (s_fresh s) (s_queued s) (s_handed s) (s_committing s).
Definition set_s_upgrading (v : bool) (s : Socket) : Socket :=
  mkSocket (s_url s) (s_config s) (s_constructors s) (s_handlers s) (s_transports s)
    (s_sessionID s) (s_pingInterval s) (s_pingTimeout s) (s_maxPayload s) (s_state s)
    (s_transport s) (s_priorUpgrade s) (s_pingTimeoutTimer s) (s_baseCtx s) (s_runCancel
    s) (s_writeBuffer s) v (s_flushing s) (s_flushWG s) (s_timers s) (s_cancelled s)
    (s_fresh s) (s_queued s) (s_handed s) (s_committing s).
Definition set_s_flushing (v : bool) (s : Socket) : Socket :=
  mkSocket (s_url s) (s_config s) (s_constructors s) (s_handlers s) (s_transports s)
    (s_sessionID s) (s_pingInterval s) (s_pingTimeout s) (s_maxPayload s) (s_state s)
    (s_transport s) (s_priorUpgrade s) (s_pingTimeoutTimer s) (s_baseCtx s) (s_runCancel
    s) (s_writeBuffer s) (s_upgrading s) v (s_flushWG s) (s_timers s) (s_cancelled s)
    (s_fresh s) (s_queued s) (s_handed s) (s_committing s).
Definition set_s_flushWG (v : nat) (s : Socket) : Socket :=
  mkSocket (s_url s) (s_config s) (s_constructors s) (s_handlers s) (s_transports s)
    (s_sessionID s) (s_pingInterval s) (s_pingTimeout s) (s_maxPayload s) (s_state s)
    (s_transport s) (s_priorUpgrade s) (s_pingTimeoutTimer s) (s_baseCtx s) (s_runCancel
    s) (s_writeBuffer s) (s_upgrading s) (s_flushing s) v (s_timers s) (s_cancelled s)
    (s_fresh s) (s_queued s) (s_handed s) (s_committing s).
Definition set_s_timers (v : gmap nat Z) (s : Socket) : Socket :=
  mkSocket (s_url s) (s_config s) (s_constructors s) (s_handlers s) (s_transports s)
    (s_sessionID s) (s_pingInterval s) (s_pingTimeout s) (s_maxPayload s) (s_state s)
    (s_transport s) (s_priorUpgrade s) (s_pingTimeoutTimer s) (s_baseCtx s) (s_runCancel
    s) (s_writeBuffer s) (s_upgrading s) (s_flushing s) (s_flushWG s) v (s_cancelled s)
    (s_fresh s) (s_queued s) (s_handed s) (s_committing s).
Definition set_s_cancelled (v : list nat) (s : Socket) : Socket :=
  mkSocket (s_url s) (s_config s) (s_constructors s) (s_handlers s) (s_transports s)
    (s_sessionID s) (s_pingInterval s) (s_pingTimeout s) (s_maxPayload s) (s_state s)
    (s_transport s) (s_priorUpgrade s) (s_pingTimeoutTimer s) (s_baseCtx s) (s_runCancel
    s) (s_writeBuffer s) (s_upgrading s) (s_flushing s) (s_flushWG s) (s_timers s) v
    (s_fresh s) (s_queued s) (s_handed s) (s_committing s).
Definition set_s_fresh (v : nat) (s : Socket) : Socket :=
  mkSocket (s_url s) (s_config s) (s_constructors s) (s_handlers s) (s_transports s)
    (s_sessionID s) (s_pingInterval s) (s_pingTimeout s) (s_maxPayload s) (s_state s)
    (s_transport s) (s_priorUpgrade s) (s_pingTimeoutTimer s) (s_baseCtx s) (s_runCancel
    s) (s_writeBuffer s) (s_upgrading s) (s_flushing s) (s_flushWG s) (s_timers s)
    (s_cancelled s) v (s_queued s) (s_handed s) (s_committing s).
Definition set_s_queued (v : list Packet) (s : Socket) : Socket :=
  mkSocket (s_url s) (s_config s) (s_constructors s) (s_handlers s) (s_transports s)
    (s_sessionID s) (s_pingInterval s) (s_pingTimeout s) (s_maxPayload s) (s_state s)
    (s_transport s) (s_priorUpgrade s) (s_pingTimeoutTimer s) (s_baseCtx s) (s_runCancel
    s) (s_writeBuffer s) (s_upgrading s) (s_flushing s) (s_flushWG s) (s_timers s)
    (s_cancelled s) (s_fresh s) v (s_handed s) (s_committing s).
Definition set_s_handed (v : list Packet) (s : Socket) : Socket :=
  mkSocket (s_url s) (s_config s) (s_constructors s) (s_handlers s) (s_transports s)
    (s_sessionID s) (s_pingInterval s) (s_pingTimeout s) (s_maxPayload s) (s_state s)
    (s_transport s) (s_priorUpgrade s) (s_pingTimeoutTimer s) (s_baseCtx s) (s_runCancel
    s) (s_writeBuffer s) (s_upgrading s) (s_flushing s) (s_flushWG s) (s_timers s)
    (s_cancelled s) (s_fresh s) (s_queued s) v (s_committing s).
Definition set_s_committing (v : nat) (s : Socket) : Socket :=
  mkSocket (s_url s) (s_config s) (s_constructors s) (s_handlers s) (s_transports s)
    (s_sessionID s) (s_pingInterval s) (s_pingTimeout s) (s_maxPayload s) (s_state s)
    (s_transport s) (s_priorUpgrade s) (s_pingTimeoutTimer s) (s_baseCtx s) (s_runCancel
    s) (s_writeBuffer s) (s_upgrading s) (s_flushing s) (s_flushWG s) (s_timers s)
    (s_cancelled s) (s_fresh s) (s_queued s) (s_handed s) v.

(** The registry that [NewSocket] snapshots. *)
Definition Transports : gmap bytes constructor :=
  <[TransportTypePolling := CPollingTransport]>
  (<[TransportTypeWebSocket := CWebSocketTransport]> ∅).

Definition defaultSocketConfig : socketConfig :=
  mkSocketConfig 0 [] true false [TransportTypePolling; TransportTypeWebSocket] false None.

(** [target] is what [url.Parse] made of the server URL. *)
Definition NewSocket (target : res URL) (options : list SocketOption) : res Socket :=
  match target with
  | Err e => Err (EWrap2 "" (ESentinel ErrInvalidURL) e)
  | Panic => Panic
  | Ok url =>
      let c := foldl (λ c o, o c) defaultSocketConfig options in
      let constructors := match cfg_webTransportConstructor c with
                          | None => Transports
                          | Some k => <[TransportTypeWebTransport := k]> Transports
                          end in
      Ok (mkSocket url c constructors (mkHandlers None None None None None None None)
            (cfg_transports c) [] 0 0 0 SocketStateClosed None [] None None None [] false
            false 0 ∅ [] 0 [] [] 0)
  end.

(** ** Opening *)

(** The history of a buffer that is reset. *)
Definition reset_buffer (s : Socket) : Socket :=
  set_s_handed [] (set_s_queued [] (set_s_writeBuffer [] s)).

Definition cancel (ctx : option nat) (s : Socket) : Socket :=
  match ctx with Some c => set_s_cancelled (c :: s_cancelled s) s | None => s end.

(** The run context that [beginOpen] derives is a fresh one. *)
Definition beginOpen (ctx : nat) (s : Socket) : option nat * Socket :=
  if decide (s_state s ≠ SocketStateClosed) then (None, s)
  else
    let s := set_s_baseCtx (Some ctx) (set_s_state SocketStateOpening s) in
    let s := reset_buffer (set_s_upgrading false s) in
    let s := cancel (s_runCancel s) s in
    let runCtx := s_fresh s in
    (Some runCtx, set_s_runCancel (Some runCtx) (set_s_fresh (S runCtx) s)).

Definition selectTransport (s : Socket) : option TransportType :=
  match s_transports s with
  | [] => None
  | t :: _ =>
      Some (if cfg_rememberUpgrade (s_config s) &&
               negb (bool_decide (s_priorUpgrade s = [])) &&
               bool_decide (s_priorUpgrade s ∈ s_transports s)
            then s_priorUpgrade s else t)
  end.

(** [failed] is the error of [url.Parse], if it has one. *)
Definition resolveURL (failed : option error) (transportType : TransportType) (s : Socket)
    : res URL :=
  match failed with
  | Some e => Err (EWrap2 "" (ESentinel ErrInvalidURL) e)
  | None =>
      let q := Set_ (str "EIO") (Strconv.Itoa Protocol) (URLQuery (s_url s)) in
      let q := Set_ (str "transport") transportType q in
      let q := if decide (s_sessionID s = []) then q else Set_ (str "sid") (s_sessionID s) q in
      Ok (mkURL (Scheme (s_url s)) (Rest (s_url s)) q)
  end.

Definition constructorFor (transportType : TransportType) (s : Socket) : res constructor :=
  match s_constructors s !! transportType with
  | None => Err (ENew "transport is not registered")
  | Some k => Ok k
  end.

Definition construct (k : constructor) (url : URL) : res Transport :=
  match k with
  | CPollingTransport => NewPollingTransport (Some url)
  | CWebSocketTransport => NewWebSocketTransport (Some url)
  | CWebTransport dialer => NewWebTransportTransport (Some url) dialer
  end.

(** ** Closing and sending *)

Definition alive (s : Socket) : bool :=
  bool_decide (s_state s = SocketStateOpen ∨ s_state s = SocketStateOpening).

Definition beginClose (s : Socket) : bool * bool :=
  if negb (alive s) then (false, false)
  else (true, bool_decide (s_state s = SocketStateOpen) && negb (s_upgrading s) &&
              negb (bool_decide (s_writeBuffer s = []))).

Definition beginCloseTransport (s : Socket) : option (option nat) * Socket :=
  if negb (alive s) then (None, s)
  else (Some (s_transport s), set_s_state SocketStateClosing s).

Definition Send (packets : list Packet) (s : Socket) : bool * Socket :=
  if negb (alive s) then (false, s)
  else (true, set_s_queued (s_queued s ++ packets)
                (set_s_writeBuffer (s_writeBuffer s ++ packets) s)).

(** The top of [flush]'s loop: what to write, over what, in chunks of what size. *)
Definition flush_begin (s : Socket) : option (list Packet * nat * Z) * Socket :=
  match s_transport s with
  | Some t =>
      if bool_decide (s_state s = SocketStateOpen) && negb (s_upgrading s) &&
         negb (bool_decide (s_writeBuffer s = [])) && negb (s_flushing s)
      then (Some (s_writeBuffer s, t, s_maxPayload s),
            set_s_flushWG (S (s_flushWG s)) (set_s_flushing true s))
      else (None, s)
  | None => (None, s)
  end.

(** A chunk was written: history, for the connection that is open. *)
Definition record_handed (chunk : list Packet) (s : Socket) : Socket :=
  if decide (s_state s = SocketStateOpen) then set_s_handed (s_handed s ++ chunk) s else s.

(** The bottom of the loop: [writeBuffer[sent:]] panics beyond the length.  Returns whether
    there is more to flush. *)
Definition flush_end (sent : nat) (failed : bool) (s : Socket) : option (bool * Socket) :=
  if decide (s_state s = SocketStateOpen ∧ (length (s_writeBuffer s) < sent)%nat) then None
  else
    let s := if decide (s_state s = SocketStateOpen)
             then set_s_writeBuffer (drop sent (s_writeBuffer s)) s else s in
    let s := set_s_flushWG (pred (s_flushWG s)) (set_s_flushing false s) in
    Some (negb failed && bool_decide (s_state s = SocketStateOpen) && negb (s_upgrading s) &&
          bool_decide (s_transport s ≠ None) && negb (bool_decide (s_writeBuffer s = [])), s).

(** ** Errors and teardown *)

Definition beginRetry (s : Socket) : bool * option nat * option nat * Socket :=
  let s := set_s_priorUpgrade [] s in
  let retry := cfg_tryAllTransports (s_config s) && bool_decide (1 < len (s_transports s)) &&
               bool_decide (s_state s = SocketStateOpening) in
  (retry, s_transport s, s_baseCtx s,
   if retry
   then reset_buffer (set_s_transport None (set_s_state SocketStateClosed
          (set_s_transports (tail (s_transports s)) s)))
   else s).

Definition delete_timer (t : option nat) (m : gmap nat Z) : gmap nat Z :=
  match t with Some id => delete id m | None => m end.

Definition stop_timer (s : Socket) : Socket :=
  set_s_timers (delete_timer (s_pingTimeoutTimer s) (s_timers s)) s.

Record closing := mkClosing {
  cl_transport : option nat;
  cl_cancel : option nat;
  cl_handler : option nat;
}.

Definition beginTeardown (s : Socket) : option closing * Socket :=
  if decide (s_state s = SocketStateClosed) then (None, s)
  else
    let r := mkClosing (s_transport s) (s_runCancel s) (onCloseHandler (s_handlers s)) in
    let s := set_s_pingTimeoutTimer None (stop_timer (set_s_state SocketStateClosed s)) in
    let s := set_s_sessionID [] (set_s_transport None s) in
    let s := set_s_upgrading false (reset_buffer s) in
    (Some r, set_s_runCancel None s).

(** ** Packets *)

Definition reschedulePingTimeout (s : Socket) : Socket :=
  let s := stop_timer s in
  let timeout := wrap64 (s_pingInterval s + s_pingTimeout s) in
  if timeout <=? 0 then set_s_pingTimeoutTimer None s
  else
    let id := s_fresh s in
    set_s_pingTimeoutTimer (Some id)
      (set_s_timers (<[id := timeout]> (s_timers s)) (set_s_fresh (S id) s)).

(** [kind] is the type of the active transport. *)
Definition recordOpen (p : OpenPacket) (kind : TransportType) (s : Socket) : Socket :=
  let s := set_s_maxPayload (MaxPayload p) (set_s_sessionID (SessionID p) s) in
  let s := set_s_pingTimeout (wrap64 (PingTimeout p * Millisecond)) s in
  let s := set_s_pingInterval (wrap64 (PingInterval p * Millisecond)) s in
  let s := set_s_state SocketStateOpen s in
  set_s_priorUpgrade
    (if decide (s_transport s ≠ None ∧ kind ≠ TransportTypePolling) then kind else []) s.

(** ** Upgrades *)

Definition beginProbe (s : Socket) : Socket := set_s_priorUpgrade [] s.

(** The probe pong: begin the upgrade, with the transport to replace. *)
Definition upgrade_begin (s : Socket) : option (option nat) * Socket :=
  if decide (s_state s ≠ SocketStateOpen) then (None, s)
  else (Some (s_transport s),
        set_s_committing (S (s_committing s)) (set_s_upgrading true s)).

(** The upgrade packet was not sent. *)
Definition upgrade_failed (s : Socket) : Socket :=
  set_s_committing (pred (s_committing s)) (set_s_upgrading false s).

Definition upgrade_adopt (t : nat) (kind : TransportType) (s : Socket) : bool * Socket :=
  let s := set_s_committing (pred (s_committing s)) s in
  if decide (s_state s ≠ SocketStateOpen) then (false, s)
  else (true, set_s_upgrading false (set_s_transport (Some t) (set_s_priorUpgrade kind s))).

(** ** Handlers *)

Definition on_event (e : event_kind) (h : option nat) (hs : handlers) : handlers :=
  mkHandlers
    (match e with OnOpen => h | _ => onOpenHandler hs end)
    (match e with OnClose => h | _ => onCloseHandler hs end)
    (match e with OnPacket => h | _ => onPacketHandler hs end)
    (match e with OnMessage => h | _ => onMessageHandler hs end)
    (match e with OnError => h | _ => onErrorHandler hs end)
    (match e with OnUpgrade => h | _ => onUpgradeHandler hs end)
    (match e with OnUpgradeError => h | _ => onUpgradeErrorHandler hs end).

Definition handler_for (e : event_kind) (s : Socket) : option nat :=
  let hs := s_handlers s in
  match e with
  | OnOpen => onOpenHandler hs
  | OnClose => onCloseHandler hs
  | OnPacket => onPacketHandler hs
  | OnMessage => onMessageHandler hs
  | OnError => onErrorHandler hs
  | OnUpgrade => onUpgradeHandler hs
  | OnUpgradeError => onUpgradeErrorHandler hs
  end.
