(* ===== verification/ClientMachine.v ===== *)
(** * The client machine

    The goroutines that act on one client socket and its transports: the application's,
    the poll and read loops, the upgrade probes and the heartbeat timer.  Each [instr] is
    one critical section or one I/O action, in the order the method runs them; a call puts
    its instructions in front.  [s.mu] and [t.mu] are held for one [instr] each; [pollMu]
    and [writeMu] are held across several and are part of the transport.

    A context is a name: cancelling one makes I/O calls that use it fail, which the oracle
    is free to do at any time, so the calls do not carry it. *)
From S2P Require Import Prelude Machine Packet Unicode Payload Framing Json Http.
From S2P Require Import ServerOptions Handshake ServerTransport ClientTransport.
From S2P Require Import ClientSocket Chunk.

(** What the application may do, inside a handler or anywhere else. *)
Inductive api :=
| ApiOpen (ctx : nat)
| ApiClose
| ApiSend (packets : list Packet)
| ApiOn (e : event_kind) (h : option nat).

(** Who called [flush], and so what becomes of its error. *)
Inductive caller := BySend | ByPong | ByClose | ByOpen | ByFailedUpgrade | ByUpgrade.

(** Who called a transport's [Send], and so what follows it: a flush with the chunks to go
    and the packets written so far, the ping and the upgrade packet of a probe, the close
    packet, or the packet that opens a WebTransport stream. *)
Inductive sender :=
| ForChunk (by_ : caller) (t : nat) (chunk : list Packet) (chunks : list (list Packet)) (sent : nat)
| ForProbePing (t : nat)
| ForUpgrade (t : nat) (old : option nat)
| ForClose (t : nat)
| ForWebTransportOpen (t : nat).

Inductive instr :=
(* the methods of the application *)
| COpen (ctx : nat)
| CSelect
| CCreate (transportType : TransportType)
| CCreateFailed (err : error)
| CInstall (t : nat)
| CClose
| CCloseTransport
| CSend (by_ : caller) (packets : list Packet)
| CReturn (err : option error)
| COn (e : event_kind) (h : option nat)
(* flush *)
| CFlush (by_ : caller)
| CChunks (by_ : caller) (t : nat) (chunks : list (list Packet)) (sent : nat)
| CFlushEnd (by_ : caller) (sent : nat) (err : option error)
(* the application's handlers *)
| CReport (err : error)
| CReportUpgrade (err : error)
| CCallOpen
| CCallClose (h : nat) (reason : bytes) (cause : option error)
| CCallPacket (p : Packet)
| CCallMessage (data : bytes) (isBinary : bool)
| CCallUpgrade (transportType : TransportType)
(* the socket as its transports call it *)
| CSocketError (err : error)
| CRetry (err : error)
| CSocketClose (reason : bytes) (cause : option error)
| CCancel (ctx : nat)
| CSocketPacket (p : Packet)
| CReschedule
| CHandle (p : Packet)
| CRecordOpen (p : OpenPacket)
| CSessionURL (t : nat) (upgrades transports : list TransportType) (upgrade : bool)
| CProbeUpgrades (upgrades transports : list TransportType) (upgrade : bool)
(* upgrade probes *)
| CProbeNext (upgrades transports : list TransportType)
| CProbe (candidate : TransportType) (upgrades transports : list TransportType)
| CProbeCreate (candidate : TransportType) (upgrades transports : list TransportType)
| CProbeWait (t : nat) (upgrades transports : list TransportType)
| CSignal (t : nat) (err : option error)
| CUpgrade (t : nat)
| CUpgradeWait (t : nat) (old : option nat)
| CUpgradeFailed (t : nat) (old : option nat) (err : error)
| CAdopt (t : nat)
(* transports *)
| TSet (t : nat) (x : slot) (h : option owner)
| TSetURL (t : nat) (url : URL)
| TOpen (t : nat)
| TDial (t : nat) (url : URL)
| TOpenStream (t : nat) (url : URL)
| TDialFailed (t : nat) (err : error)
| TConnected (t : nat) (url : URL)
| TSpawnRead (t : nat)
| TOnOpen (t : nat)
| TOnClose (t : nat)
| TCloseConn (t : nat)
| TPacket (t : nat) (p : Packet)
| TError (t : nat) (err : error)
| TClose (t : nat)
| TBeginClose (t : nat)
| TPollLock (t : nat)
| TPollUnlock (t : nat)
| TPause (t : nat)
| TPauseMark (t : nat)
| TPauseWait (t : nat)
| TSend (k : sender) (t : nat) (packets : list Packet)
| TPost (k : sender) (t : nat) (body : bytes)
| TStream (k : sender) (t : nat) (packets : list Packet)
| TWriteLock (k : sender) (t : nat) (packets : list Packet)
| TWrite (k : sender) (t : nat) (packets : list Packet)
| TPoll (t : nat)
| TRequest (t : nat)
| TData (t : nat) (body : bytes)
| TDataPacket (t : nat) (p : Packet)
| TDataNext (t : nat)
| TPollDone (t : nat)
| TReadLoop (t : nat)
| TRead (t : nat)
| TReadFailed (t : nat) (err : error).

(** What an observer sees. *)
Inductive event :=
| EvOpen (h : nat)
| EvClose (h : nat) (reason : bytes) (cause : option error)
| EvPacket (h : nat) (p : Packet)
| EvMessage (h : nat) (data : bytes) (isBinary : bool)
| EvError (h : nat) (err : error)
| EvUpgrade (h : nat) (transportType : TransportType)
| EvUpgradeError (h : nat) (err : error)
| EvSendReturns (err : option error)
| EvDial (t : nat) (url : URL)
| EvPoll (t : nat) (url : URL)
| EvPost (t : nat) (url : URL) (body : bytes)
| EvFrame (t : nat) (frame : MessageType * bytes)
| EvStream (t : nat) (data : bytes)
| EvConnClosed (t : nat).

(** [signals] holds the outcome of each probe, by its transport. *)
Record World := mkWorld {
  sock : Socket;
  links : gmap nat Transport;
  nextTransport : nat;
  signals : gmap nat (option error);
  log : list event;
}.

Definition set_sock (v : Socket) (w : World) : World :=
  mkWorld v (links w) (nextTransport w) (signals w) (log w).
Definition set_t (t : nat) (v : Transport) (w : World) : World :=
  mkWorld (sock w) (<[t := v]> (links w)) (nextTransport w) (signals w) (log w).
Definition add_t (v : Transport) (w : World) : World :=
  mkWorld (sock w) (<[nextTransport w := v]> (links w)) (S (nextTransport w)) (signals w) (log w).
Definition set_signals (v : gmap nat (option error)) (w : World) : World :=
  mkWorld (sock w) (links w) (nextTransport w) v (log w).
Definition emit (e : event) (w : World) : World :=
  mkWorld (sock w) (links w) (nextTransport w) (signals w) (log w ++ [e]).

Definition upd_t (t : nat) (f : Transport → Transport) (w : World) : World :=
  set_t t (f (links w !!! t)) w.

(** ** The oracle *)

Inductive read_result :=
| ReadError (e : error)
| ReadMessage (messageType : MessageType) (frame : bytes)
| ReadPacket (p : Packet).

(** [Do] of the HTTP client: an error, or a response with its status and body, and the error
    of reading it. *)
Inductive http_result :=
| HTTPError (e : error)
| HTTPResponse (status : Z) (body : bytes) (err : option error).

Record oracle := mkOracle {
  o_io : option error;        (** the error of a write, a dial or the closing of a connection *)
  o_deadline : bool;          (** it came from [SetWriteDeadline] *)
  o_parse : option error;     (** the error of [url.Parse] *)
  o_http : http_result;       (** what a request returns *)
  o_read : read_result;       (** what a read returns *)
  o_calls : list api;         (** what a handler does *)
}.

Abbreviation outcome := (Machine.outcome World instr).

Definition api_instr (a : api) : instr :=
  match a with
  | ApiOpen ctx => COpen ctx
  | ApiClose => CClose
  | ApiSend ps => CSend BySend ps
  | ApiOn e h => COn e h
  end.

(** Call a handler of the application, if it is set. *)
Definition call (o : oracle) (h : option nat) (e : nat → event) (w : World) : outcome :=
  match h with
  | None => Next w [] []
  | Some h => Next (emit (e h) w) (api_instr <$> o_calls o) []
  end.

Definition kind_type (k : transportKind) : TransportType := transportType (mkRef k 0).
Definition type_of (t : nat) (w : World) : TransportType := kind_type (t_kind (links w !!! t)).

(** ** Sequences of calls that recur *)

(** [OnOpen(nil)], [OnClose(nil)], [OnPacket(nil)], [OnError(nil)]. *)
Definition detach (t : nat) : list instr :=
  [TSet t SlotOpen None; TSet t SlotClose None; TSet t SlotPacket None; TSet t SlotError None].

(** The same of a probe, which also tears its transport down and reports. *)
Definition discardProbe (t : nat) (reason : error) : list instr :=
  [TSet t SlotOpen None; TSet t SlotClose None; TSet t SlotError None; TSet t SlotPacket None;
   TClose t; CSignal t (Some reason)].

Definition bind_socket (t : nat) : list instr :=
  [TSet t SlotPacket (Some OfSocket); TSet t SlotError (Some OfSocket);
   TSet t SlotClose (Some OfSocket)].

(** What [flush]'s caller does with its error. *)
Definition flush_error (by_ : caller) (err : error) : list instr :=
  match by_ with
  | BySend => [CReturn (Some err)]
  | ByPong => [CReport (EWrap "sending pong packet" err)]
  | ByClose => [CReport (EWrap "flushing on close" err)]
  | ByOpen => [CReport (EWrap "flushing buffered packets" err)]
  | ByFailedUpgrade => [CReport (EWrap "flushing after a failed upgrade" err)]
  | ByUpgrade => [CReport (EWrap "flushing after an upgrade" err)]
  end.
Definition flush_ok (by_ : caller) : list instr :=
  match by_ with BySend => [CReturn None] | _ => [] end.

(** What follows a transport's [Send], by its caller. *)
Definition sent_to (k : sender) (err : option error) : list instr :=
  match k, err with
  | ForChunk by_ t chunk chunks sent, None => [CChunks by_ t chunks (sent + length chunk)]
  | ForChunk by_ t chunk chunks sent, Some e =>
      [CFlushEnd by_ sent (Some (EWrap "sending packets" e))]
  | ForProbePing t, None => [TSet t SlotOpen None]
  | ForProbePing t, Some e =>
      [CReport (EWrap "sending probe packet" e); TSet t SlotOpen None]
  | ForUpgrade t old, None => opt TPause old ++ [CAdopt t]
  | ForUpgrade t old, Some e => [CUpgradeFailed t old e]
  | ForClose t, None => [TBeginClose t]
  | ForClose t, Some e => [TError t (EWrap "sending close packet" e); TBeginClose t]
  | ForWebTransportOpen t, None => [TOnOpen t; TSpawnRead t]
  | ForWebTransportOpen t, Some e =>
      [TError t (EWrap "sending webtransport open packet" e); TOnClose t]
  end.
Definition sent_record (k : sender) (err : option error) (w : World) : World :=
  match k, err with
  | ForChunk _ _ chunk _ _, None => set_sock (record_handed chunk (sock w)) w
  | _, _ => w
  end.
Definition sent (k : sender) (err : option error) (w : World) : outcome :=
  Next (sent_record k err w) (sent_to k err) [].

(** ** The socket *)

Definition on_sock (f : Socket → Socket) (push : list instr) (w : World) : outcome :=
  Next (set_sock (f (sock w)) w) push [].

Definition exec_open (ctx : nat) (w : World) : outcome :=
  let '(run, s) := beginOpen ctx (sock w) in
  Next (set_sock s w) (match run with None => [] | Some _ => [CSelect] end) [].

(** [createTransport], after [selectTransport]. *)
Definition make_transport (failed : option error) (transportType : TransportType) (s : Socket)
    : res Transport :=
  let! url := res_wrap "resolving URL" (resolveURL failed transportType s) in
  let! k := constructorFor transportType s in
  construct k url.

Definition exec_create (o : oracle) (transportType : TransportType) (w : World) : outcome :=
  match make_transport (o_parse o) transportType (sock w) with
  | Ok t => Next (add_t t w) [CInstall (nextTransport w)] []
  | Err e => Next w [CCreateFailed e] []
  | Panic => Panicked
  end.

(** The end of [Open]. *)
Definition exec_install (t : nat) (w : World) : outcome :=
  on_sock (set_s_transport (Some t)) (bind_socket t ++ [TOpen t]) w.

Definition exec_close (w : World) : outcome :=
  let '(canClose, canFlush) := beginClose (sock w) in
  Next w (if canClose : bool
          then (if canFlush : bool then [CFlush ByClose] else []) ++ [CCloseTransport]
          else []) [].

Definition exec_close_transport (w : World) : outcome :=
  let '(r, s) := beginCloseTransport (sock w) in
  Next (set_sock s w) (match r with Some t => opt TClose t | None => [] end) [].

Definition exec_send (by_ : caller) (packets : list Packet) (w : World) : outcome :=
  let '(ok, s) := Send packets (sock w) in
  Next (set_sock s w) (if ok : bool then [CFlush by_] else flush_ok by_) [].

Definition exec_flush (by_ : caller) (w : World) : outcome :=
  let '(r, s) := flush_begin (sock w) in
  Next (set_sock s w)
    (match r with
     | None => flush_ok by_
     | Some (packets, t, maxPayload) => [CChunks by_ t (chunkPackets packets maxPayload) 0]
     end) [].

Definition exec_flush_end (by_ : caller) (sent : nat) (err : option error) (w : World)
    : outcome :=
  match flush_end sent (bool_decide (err ≠ None)) (sock w) with
  | None => Panicked
  | Some (more, s) =>
      Next (set_sock s w)
        (match err with
         | Some e => flush_error by_ e
         | None => if more : bool then [CFlush by_] else flush_ok by_
         end) []
  end.

Definition exec_socket_error (err : error) (w : World) : outcome :=
  Next w [CReport (EWrap "transport error" err); CRetry err] [].

Definition exec_retry (err : error) (w : World) : outcome :=
  let '(retry, t, ctx, s) := beginRetry (sock w) in
  Next (set_sock s w)
    (if retry : bool
     then match t with Some t => detach t ++ [TClose t] | None => [] end ++ opt COpen ctx
     else [CSocketClose (str "transport error") (Some err)]) [].

Definition exec_socket_close (reason : bytes) (cause : option error) (w : World) : outcome :=
  let '(r, s) := beginTeardown (sock w) in
  Next (set_sock s w)
    (match r with
     | None => []
     | Some r =>
         match cl_transport r with Some t => detach t ++ [TClose t] | None => [] end ++
         opt CCancel (cl_cancel r) ++ opt (λ h, CCallClose h reason cause) (cl_handler r)
     end) [].

(** [onPacket]: only a closed socket ignores a packet. *)
Definition exec_socket_packet (p : Packet) (w : World) : outcome :=
  Next w (if decide (s_state (sock w) = SocketStateClosed) then []
          else [CReschedule; CHandle p; CCallPacket p]) [].

Definition exec_handle (p : Packet) (w : World) : outcome :=
  if decide (PType p = PacketOpen) then
    match unmarshalOpen (Data p) with
    | Ok op => Next w [CRecordOpen op] []
    | Err e => Next w [CReport (EWrap "unmarshalling open packet" e)] []
    | Panic => Panicked
    end
  else if decide (PType p = PacketPing) then Next w [CSend ByPong [packet_of PacketPong]] []
  else if decide (PType p = PacketMessage) then Next w [CCallMessage (Data p) (IsBinary p)] []
  else Next w [] [].

Definition exec_record_open (p : OpenPacket) (w : World) : outcome :=
  let s := sock w in
  let kind := match s_transport s with Some t => type_of t w | None => [] end in
  Next (set_sock (recordOpen p kind s) w)
    (match s_transport s with
     | None => []
     | Some t => [CReschedule; CSessionURL t (Upgrades p) (s_transports s) (cfg_upgrade (s_config s))]
     end) [].

Definition exec_session_url (o : oracle) (t : nat) (upgrades transports : list TransportType)
    (upgrade : bool) (w : World) : outcome :=
  match resolveURL (o_parse o) (type_of t w) (sock w) with
  | Ok url => Next w [TSetURL t url; CFlush ByOpen; CCallOpen;
                      CProbeUpgrades upgrades transports upgrade] []
  | Err e => Next w [CReport (EWrap "resolving URL" e)] []
  | Panic => Panicked
  end.

(** ** Probes *)

(** The loop of [probeUpgrades], over the upgrades to go. *)
Definition exec_probe_next (upgrades transports : list TransportType) (w : World) : outcome :=
  Next w (match upgrades with
          | [] => []
          | candidate :: upgrades =>
              if decide (candidate ∈ transports)
              then [CProbe candidate upgrades transports]
              else [CProbeNext upgrades transports]
          end) [].

Definition probe_failed (e : error) (upgrades transports : list TransportType) : list instr :=
  [CReportUpgrade (EWrap "probing for upgrade" e); CProbeNext upgrades transports].

Definition exec_probe_create (o : oracle) (candidate : TransportType)
    (upgrades transports : list TransportType) (w : World) : outcome :=
  let made :=
    let! url := res_wrap "resolving URL" (resolveURL (o_parse o) candidate (sock w)) in
    let! k := constructorFor candidate (sock w) in
    res_wrap "creating transport" (construct k url) in
  match made with
  | Ok t =>
      let a := nextTransport w in
      Next (add_t t w)
        [TSet a SlotOpen (Some OfProbe); TSet a SlotPacket (Some OfProbe);
         TSet a SlotClose (Some OfProbe); TSet a SlotError (Some OfProbe); TOpen a;
         CProbeWait a upgrades transports] []
  | Err e => Next w (probe_failed e upgrades transports) []
  | Panic => Panicked
  end.

Definition exec_probe_wait (t : nat) (upgrades transports : list TransportType) (w : World)
    : outcome :=
  match signals w !! t with
  | None => Blocked
  | Some None => Next w [] []
  | Some (Some e) => Next w (probe_failed (EWrap "probing transport" e) upgrades transports) []
  end.

(** [signal] delivers the first outcome only. *)
Definition exec_signal (t : nat) (err : option error) (w : World) : outcome :=
  match signals w !! t with
  | Some _ => Next w [] []
  | None => Next (set_signals (<[t := err]> (signals w)) w) [] []
  end.

Definition is_probe_pong (p : Packet) : bool :=
  bool_decide (PType p = PacketPong ∧ Data p = str "probe").

Definition exec_upgrade (t : nat) (w : World) : outcome :=
  let '(r, s) := upgrade_begin (sock w) in
  Next (set_sock s w)
    (match r with
     | None => discardProbe t (ENew "socket is no longer open")
     | Some old =>
         match old with
         | Some a => [TSet a SlotOpen None; TSet a SlotClose None; TSet a SlotError None]
         | None => []
         end ++ [CUpgradeWait t old]
     end) [].

Definition exec_upgrade_failed (t : nat) (old : option nat) (err : error) (w : World) : outcome :=
  on_sock upgrade_failed
    (match old with
     | Some a => [TSet a SlotError (Some OfSocket); TSet a SlotClose (Some OfSocket)]
     | None => []
     end ++ CFlush ByFailedUpgrade :: discardProbe t (EWrap "sending upgrade packet" err)) w.

Definition exec_adopt (t : nat) (w : World) : outcome :=
  let '(ok, s) := upgrade_adopt t (type_of t w) (sock w) in
  Next (set_sock s w)
    (if ok : bool
     then bind_socket t ++ [CCallUpgrade (type_of t w); CFlush ByUpgrade; CSignal t None]
     else discardProbe t (ENew "socket closed during upgrade")) [].

(** ** Transports *)

Definition exec_topen (t : nat) (w : World) : outcome :=
  let '(ok, l) := t_beginOpen (links w !!! t) in
  Next (set_t t l w)
    (if ok : bool
     then match t_kind l with KPolling => [TPoll t] | _ => [TDial t (dial_url l)] end
     else []) [].

Definition exec_dial (o : oracle) (t : nat) (url : URL) (w : World) : outcome :=
  let w := emit (EvDial t url) w in
  match t_kind (links w !!! t), o_io o with
  | KWebTransport, None => Next w [TOpenStream t url] []
  | KWebTransport, Some e => Next w [TDialFailed t (EWrap "dialing webtransport session" e)] []
  | _, None => Next w [TConnected t url] []
  | _, Some e => Next w [TDialFailed t (EWrap "dialing websocket connection" e)] []
  end.

Definition exec_dial_failed (t : nat) (err : error) (w : World) : outcome :=
  Next (upd_t t (set_t_state TransportStateClosed) w) [TError t err] [].

Definition exec_open_stream (o : oracle) (t : nat) (url : URL) (w : World) : outcome :=
  match o_io o with
  | None => Next w [TConnected t url] []
  | Some e =>
      Next (emit (EvConnClosed t) w) [TDialFailed t (EWrap "opening webtransport stream" e)] []
  end.

Definition exec_connected (t : nat) (url : URL) (w : World) : outcome :=
  Next (upd_t t (set_t_conn true) w)
    (match t_kind (links w !!! t) with
     | KWebTransport =>
         [TStream (ForWebTransportOpen t) t [writeOpen (Get (str "sid") (URLQuery url))]]
     | _ => [TOnOpen t; TSpawnRead t]
     end) [].

(** The probe's handlers. *)
Definition exec_tonopen (t : nat) (w : World) : outcome :=
  let '(h, l) := t_onOpen (links w !!! t) in
  Next (set_t t l w)
    (match h with
     | Some OfProbe => [TSend (ForProbePing t) t [text_packet PacketPing (str "probe")]]
     | _ => []
     end) [].

Definition exec_tonclose (t : nat) (w : World) : outcome :=
  let '(r, l) := t_onClose (links w !!! t) in
  Next (set_t t l w)
    (match r with
     | None => []
     | Some (conn, h) =>
         (if conn : bool then [TCloseConn t] else []) ++
         match h with
         | Some OfSocket => [CSocketClose (str "transport closed") None]
         | Some OfProbe => discardProbe t (ENew "transport closed")
         | None => []
         end
     end) [].

Definition exec_close_conn (o : oracle) (t : nat) (w : World) : outcome :=
  Next (emit (EvConnClosed t) w)
    (match o_io o, t_kind (links w !!! t) with
     | None, _ => []
     | Some e, KWebTransport => [TError t (EWrap "closing webtransport session" e)]
     | Some e, _ => [TError t (EWrap "closing websocket connection" e)]
     end) [].

Definition exec_tpacket (t : nat) (p : Packet) (w : World) : outcome :=
  Next w
    (match t_onPacketHandler (links w !!! t) with
     | Some OfSocket => [CSocketPacket p]
     | Some OfProbe => if is_probe_pong p then [CUpgrade t] else []
     | None => []
     end) [].

Definition exec_terror (t : nat) (err : error) (w : World) : outcome :=
  Next w
    (match t_onErrorHandler (links w !!! t) with
     | Some OfSocket => [CSocketError err]
     | Some OfProbe => discardProbe t (EWrap "transport error" err)
     | None => []
     end) [].

(** [Close] of the three: the close packet first. *)
Definition exec_tclose (t : nat) (w : World) : outcome :=
  Next w (if running (links w !!! t)
          then [TSend (ForClose t) t [packet_of PacketClose]] else []) [].

Definition exec_begin_close (t : nat) (w : World) : outcome :=
  match t_kind (links w !!! t) with
  | KPolling =>
      let '(ok, l) := t_beginClose (links w !!! t) in
      Next (set_t t l w) (if ok : bool then [TPollLock t] else []) []
  | _ => Next w [TOnClose t] []
  end.

(** The end of a polling [Close], which holds [pollMu]. *)
Definition exec_poll_lock (t : nat) (w : World) : outcome :=
  if t_pollMu (links w !!! t) then Blocked
  else Next (upd_t t (set_t_pollMu true) w) [TOnClose t; TPollUnlock t] [].

Definition exec_pause (t : nat) (w : World) : outcome :=
  match t_kind (links w !!! t) with
  | KPolling =>
      let '(ok, l) := beginPause (links w !!! t) in
      Next (set_t t l w) (if ok : bool then [TPauseMark t; TPauseWait t] else []) []
  | _ => Next w [] []
  end.

(** [pollMu] is taken, the state set and [pollMu] released. *)
Definition exec_pause_mark (t : nat) (w : World) : outcome :=
  if t_pollMu (links w !!! t) then Blocked
  else Next (upd_t t (set_t_state TransportStatePaused) w) [] [].

Definition exec_pause_wait (t : nat) (w : World) : outcome :=
  if decide (t_pollWG (links w !!! t) = 0%nat) then Next w [] [] else Blocked.

Definition exec_tsend (k : sender) (t : nat) (packets : list Packet) (w : World) : outcome :=
  if t_sends (links w !!! t) then
    match t_kind (links w !!! t) with
    | KPolling => Next w [TPost k t (EncodePayload packets)] []
    | KWebSocket => Next w [TWriteLock k t packets] []
    | KWebTransport => Next w [TStream k t packets] []
    end
  else sent k None w.

(** A request without a body is a GET. *)
Definition request_event (t : nat) (url : URL) (data : bytes) : event :=
  if decide (data = []) then EvPoll t url else EvPost t url data.

Definition exec_post (o : oracle) (k : sender) (t : nat) (body : bytes) (w : World) : outcome :=
  let w := emit (request_event t (t_url (links w !!! t)) body) w in
  match o_http o with
  | HTTPError e => sent k (Some (EWrap "writing poll body" e)) w
  | HTTPResponse status _ _ =>
      if decide (status ≠ StatusOK)
      then sent k (Some (EWrap "writing poll body" (ESentinel ErrUnexpectedStatus))) w
      else sent k None w
  end.

(** [writeFrames] takes the stream first. *)
Definition exec_stream (k : sender) (t : nat) (packets : list Packet) (w : World) : outcome :=
  if t_conn (links w !!! t) then Next w [TWriteLock k t packets] [] else sent k None w.

Definition exec_write_lock (k : sender) (t : nat) (packets : list Packet) (w : World) : outcome :=
  if t_writeMu (links w !!! t) then Blocked
  else Next (upd_t t (set_t_writeMu true) w) [TWrite k t packets] [].

(** WebSocket writes one message per packet; WebTransport one buffer for all. *)
Definition exec_write (o : oracle) (k : sender) (t : nat) (packets : list Packet) (w : World)
    : outcome :=
  let unlocked := upd_t t (set_t_writeMu false) w in
  match t_kind (links w !!! t) with
  | KWebTransport =>
      match o_io o with
      | None => sent k None (emit (EvStream t (frames_buffer packets)) unlocked)
      | Some e =>
          let text := if o_deadline o then "setting write deadline"%string
                      else "writing webtransport frame"%string in
          sent k (Some (EWrap text e)) unlocked
      end
  | _ =>
      match packets with
      | [] => sent k None unlocked
      | p :: packets =>
          match o_io o with
          | None => Next (emit (EvFrame t (client_frame p)) w) [TWrite k t packets] []
          | Some e =>
              let text := if IsBinary p then "writing binary frame"%string
                          else "writing frame"%string in
              sent k (Some (EWrap text e)) unlocked
          end
      end
  end.

Definition exec_poll (t : nat) (w : World) : outcome :=
  if t_pollMu (links w !!! t) then Blocked
  else if running (links w !!! t)
  then Next (upd_t t (set_t_pollMu true) w) [TRequest t] []
  else Next w [] [].

(** The poll's outcome is dispatched after [pollMu] is released, counted by [pollWG]. *)
Definition poll_outcome (t : nat) (r : http_result) : list instr :=
  match r with
  | HTTPError e => [TError t (EWrap "polling" e)]
  | HTTPResponse status body err =>
      if decide (status ≠ StatusOK)
      then [TError t (EWrap "polling" (ESentinel ErrUnexpectedStatus))]
      else match err with
           | Some e => [TError t (EWrap "reading poll response" e)]
           | None => if decide (body = []) then [] else [TData t body]
           end
  end.

Definition exec_request (o : oracle) (t : nat) (w : World) : outcome :=
  let w := emit (request_event t (t_url (links w !!! t)) []) w in
  let dispatching l := set_t_pollMu false (set_t_pollWG (S (t_pollWG l)) l) in
  Next (upd_t t dispatching w) (poll_outcome t (o_http o) ++ [TPollDone t]) [].

Definition exec_data (t : nat) (body : bytes) (w : World) : outcome :=
  match DecodePayload ProtocolVersion4 body with
  | Ok ps => Next w ((TDataPacket t <$> ps) ++ [TDataNext t]) []
  | Err e => Next w [TError t (EWrap "decoding payload" e)] []
  | Panic => Panicked
  end.

Definition exec_data_packet (t : nat) (p : Packet) (w : World) : outcome :=
  Next w
    (match data_packet p (links w !!! t) with
     | DataOpens => [TOnOpen t]
     | DataCloses => [TOnClose t]
     | DataOnly => []
     end ++ [TPacket t p]) [].

Definition exec_data_next (t : nat) (w : World) : outcome :=
  Next w [] (if decide (t_state (links w !!! t) = TransportStateOpen) then [[TPoll t]] else []).

Definition exec_poll_done (t : nat) (w : World) : outcome :=
  Next (upd_t t (λ l, set_t_pollWG (pred (t_pollWG l)) l) w) [] [].

Definition read_packet (t : nat) (p : Packet) : list instr :=
  TPacket t p :: (if decide (PType p = PacketClose) then [TOnClose t] else [TReadLoop t]).

(** The test at the top of a read loop. *)
Definition exec_read_loop (t : nat) (w : World) : outcome :=
  Next w (if keeps_reading (links w !!! t) then [TRead t] else []) [].

Definition exec_read (o : oracle) (t : nat) (w : World) : outcome :=
  match t_kind (links w !!! t), o_read o with
  | KWebSocket, ReadError e =>
      Next w [TReadFailed t (EWrap "reading websocket connection" e)] []
  | KWebSocket, ReadMessage mt frame =>
      match decodeWebSocketFrame mt frame with
      | Ok p => Next w (read_packet t p) []
      | Err e => Next w [TError t e; TReadLoop t] []
      | Panic => Panicked
      end
  | KWebTransport, ReadError e =>
      Next w [TReadFailed t (EWrap "reading webtransport stream" e)] []
  | KWebTransport, ReadPacket p => Next w (read_packet t p) []
  | _, _ => Blocked
  end.

Definition exec_read_failed (t : nat) (err : error) (w : World) : outcome :=
  Next w ((if deliberate (links w !!! t) then [] else [TError t err]) ++ [TOnClose t]) [].

(** ** The machine *)

Definition exec (o : oracle) (i : instr) (w : World) : outcome :=
  match i with
  | COpen ctx => exec_open ctx w
  | CSelect =>
      Next w [match selectTransport (sock w) with
              | None => CCreateFailed (ESentinel ErrNoTransports)
              | Some transportType => CCreate transportType
              end] []
  | CCreate transportType => exec_create o transportType w
  | CCreateFailed err => on_sock (set_s_state SocketStateClosed) [CReport err] w
  | CInstall t => exec_install t w
  | CClose => exec_close w
  | CCloseTransport => exec_close_transport w
  | CSend by_ packets => exec_send by_ packets w
  | CReturn err => Next (emit (EvSendReturns err) w) [] []
  | COn e h => on_sock (λ s, set_s_handlers (on_event e h (s_handlers s)) s) [] w
  | CFlush by_ => exec_flush by_ w
  | CChunks by_ t chunks sent =>
      Next w [match chunks with
              | [] => CFlushEnd by_ sent None
              | chunk :: chunks => TSend (ForChunk by_ t chunk chunks sent) t chunk
              end] []
  | CFlushEnd by_ sent err => exec_flush_end by_ sent err w
  | CReport err => call o (handler_for OnError (sock w)) (λ h, EvError h err) w
  | CReportUpgrade err =>
      match handler_for OnUpgradeError (sock w) with
      | Some h => call o (Some h) (λ h, EvUpgradeError h err) w
      | None => call o (handler_for OnError (sock w)) (λ h, EvError h err) w
      end
  | CCallOpen => call o (handler_for OnOpen (sock w)) EvOpen w
  | CCallClose h reason cause => call o (Some h) (λ h, EvClose h reason cause) w
  | CCallPacket p => call o (handler_for OnPacket (sock w)) (λ h, EvPacket h p) w
  | CCallMessage data isBinary =>
      call o (handler_for OnMessage (sock w)) (λ h, EvMessage h data isBinary) w
  | CCallUpgrade transportType =>
      call o (handler_for OnUpgrade (sock w)) (λ h, EvUpgrade h transportType) w
  | CSocketError err => exec_socket_error err w
  | CRetry err => exec_retry err w
  | CSocketClose reason cause => exec_socket_close reason cause w
  | CCancel ctx => on_sock (cancel (Some ctx)) [] w
  | CSocketPacket p => exec_socket_packet p w
  | CReschedule => on_sock reschedulePingTimeout [] w
  | CHandle p => exec_handle p w
  | CRecordOpen p => exec_record_open p w
  | CSessionURL t upgrades transports upgrade => exec_session_url o t upgrades transports upgrade w
  | CProbeUpgrades upgrades transports upgrade =>
      Next w [] (if upgrade && negb (bool_decide (upgrades = []))
                 then [[CProbeNext upgrades transports]] else [])
  | CProbeNext upgrades transports => exec_probe_next upgrades transports w
  | CProbe candidate upgrades transports =>
      on_sock beginProbe [CProbeCreate candidate upgrades transports] w
  | CProbeCreate candidate upgrades transports =>
      exec_probe_create o candidate upgrades transports w
  | CProbeWait t upgrades transports => exec_probe_wait t upgrades transports w
  | CSignal t err => exec_signal t err w
  | CUpgrade t => exec_upgrade t w
  | CUpgradeWait t old =>
      if decide (s_flushWG (sock w) = 0%nat)
      then Next w [TSend (ForUpgrade t old) t [packet_of PacketUpgrade]] [] else Blocked
  | CUpgradeFailed t old err => exec_upgrade_failed t old err w
  | CAdopt t => exec_adopt t w
  | TSet t x h => Next (upd_t t (set_handler x h) w) [] []
  | TSetURL t url => Next (upd_t t (SetURL url) w) [] []
  | TOpen t => exec_topen t w
  | TDial t url => exec_dial o t url w
  | TOpenStream t url => exec_open_stream o t url w
  | TDialFailed t err => exec_dial_failed t err w
  | TConnected t url => exec_connected t url w
  | TSpawnRead t => Next w [] [[TReadLoop t]]
  | TOnOpen t => exec_tonopen t w
  | TOnClose t => exec_tonclose t w
  | TCloseConn t => exec_close_conn o t w
  | TPacket t p => exec_tpacket t p w
  | TError t err => exec_terror t err w
  | TClose t => exec_tclose t w
  | TBeginClose t => exec_begin_close t w
  | TPollLock t => exec_poll_lock t w
  | TPollUnlock t => Next (upd_t t (set_t_pollMu false) w) [] []
  | TPause t => exec_pause t w
  | TPauseMark t => exec_pause_mark t w
  | TPauseWait t => exec_pause_wait t w
  | TSend k t packets => exec_tsend k t packets w
  | TPost k t body => exec_post o k t body w
  | TStream k t packets => exec_stream k t packets w
  | TWriteLock k t packets => exec_write_lock k t packets w
  | TWrite k t packets => exec_write o k t packets w
  | TPoll t => exec_poll t w
  | TRequest t => exec_request o t w
  | TData t body => exec_data t body w
  | TDataPacket t p => exec_data_packet t p w
  | TDataNext t => exec_data_next t w
  | TPollDone t => exec_poll_done t w
  | TReadLoop t => exec_read_loop t w
  | TRead t => exec_read o t w
  | TReadFailed t err => exec_read_failed t err w
  end.

(** An event from outside: the heartbeat timer fires, or the application calls. *)
Inductive external := Fires (id : nat) | AppCalls (calls : list api).

Definition fire (id : nat) (s : Socket) : Socket := set_s_timers (delete id (s_timers s)) s.

Definition happen (e : external) (w : World) : option (World * list instr) :=
  match e with
  | Fires id =>
      match s_timers (sock w) !! id with
      | Some _ => Some (set_sock (fire id (sock w)) w, [CSocketClose (str "ping timeout") None])
      | None => None
      end
  | AppCalls calls => Some (w, api_instr <$> calls)
  end.

Definition config : Type := World * list (list instr).
Abbreviation step := (Machine.step exec happen).
Abbreviation act := (Machine.act oracle external).
Abbreviation run := (Machine.run exec happen).

(** A socket that [NewSocket] made. *)
Definition init (s : Socket) : config := (mkWorld s ∅ 0 ∅ [], []).

Definition fresh_socket (s : Socket) : Prop :=
  ∃ url options, NewSocket (Ok url) options = Ok s.

Definition reachable (s : Socket) (cfg : config) : Prop :=
  fresh_socket s ∧ rtc step (init s) cfg.

(** ** Orderly runs

    Nothing of an earlier connection is still running when an open packet is recorded, and
    it is the open packet of the connection being opened; and upgrades are committed one
    at a time.  The source means this, and does not enforce it. *)

Definition settled (s : Socket) : bool :=
  bool_decide (s_state s = SocketStateOpening) && bool_decide (s_transport s ≠ None) &&
  negb (s_flushing s) && bool_decide (s_committing s = 0%nat).

Definition orderly_exec (o : oracle) (i : instr) (w : World) : outcome :=
  match i with
  | CRecordOpen _ => if settled (sock w) then exec o i w else Blocked
  | CUpgrade _ => if decide (s_committing (sock w) = 0%nat) then exec o i w else Blocked
  | _ => exec o i w
  end.

Abbreviation orderly_step := (Machine.step orderly_exec happen).
Abbreviation orderly_run := (Machine.run orderly_exec happen).

Definition orderly (s : Socket) (cfg : config) : Prop :=
  fresh_socket s ∧ rtc orderly_step (init s) cfg.

Lemma orderly_exec_Next o i w w' push spawn :
  orderly_exec o i w = Next w' push spawn → exec o i w = Next w' push spawn.
Proof. destruct i; cbn; intros H; try done; by case_match. Qed.

(** An oracle for which all I/O succeeds, requests are answered without packets, reads fail
    and handlers do nothing. *)
Definition calm : oracle :=
  mkOracle None false None (HTTPResponse StatusOK [] None) (ReadError (EForeign 0)) [].
