(* ===== verification/ClientState.v ===== *)
(** * Invariants of the client: what the others build on

    The proof principle for the client machine; the tactics that take one execution
    apart; that every reference is to a transport that was made; and what each instruction
    does to the socket and to the transport it acts on. *)
From S2P Require Import Prelude Machine Packet Unicode Payload Framing Json Http.
From S2P Require Import ServerOptions Handshake ServerTransport ClientTransport.
From S2P Require Import ClientSocket Chunk ClientMachine.

Abbreviation invariant := (Machine.invariant World instr).

Definition always (K : invariant) : Prop :=
  ∀ s w ts, reachable s (w, ts) → K w (concat ts).
Definition orderly_always (K : invariant) : Prop :=
  ∀ s w ts, orderly s (w, ts) → K w (concat ts).

Lemma orderly_reachable s cfg : orderly s cfg → reachable s cfg.
Proof.
  intros [Hs Hr]. split; [done|]. revert Hr. apply rtc_ind_r; [constructor|].
  intros x y _ Hst IH. eapply rtc_r; [exact IH|]. inversion Hst; subst; [|by eapply step_ext].
  by eapply step_run, orderly_exec_Next.
Qed.

Lemma always_orderly K : always K → orderly_always K.
Proof. intros HK s w ts Ho. eapply HK, orderly_reachable, Ho. Qed.

(** Before anything happens there is a new socket and nothing pending. *)
Definition initially (K : invariant) : Prop :=
  ∀ s, fresh_socket s → K (init s).1 [].

Lemma client_intro (J K : invariant) `{!Multiset J, !Multiset K} :
  always J → initially K → preserved_under exec happen J K → always K.
Proof.
  intros HJ Hi Hp s w ts [Hs Hr].
  eapply (reachable_invariant exec happen J K); [exact Hp|exact Hr| |by apply Hi].
  intros w1 ts1 H1. by apply (HJ s).
Qed.

Lemma orderly_intro (J K : invariant) `{!Multiset J, !Multiset K} :
  orderly_always J → initially K → preserved_under orderly_exec happen J K → orderly_always K.
Proof.
  intros HJ Hi Hp s w ts [Hs Hr].
  eapply (reachable_invariant orderly_exec happen J K); [exact Hp|exact Hr| |by apply Hi].
  intros w1 ts1 H1. by apply (HJ s).
Qed.

Lemma client_true : always inv_true.
Proof. done. Qed.
Lemma client_and J K : always J → always K → always (inv_and J K).
Proof. intros HJ HK s w ts Hr. split; eauto. Qed.
Lemma orderly_and J K : orderly_always J → orderly_always K → orderly_always (inv_and J K).
Proof. intros HJ HK s w ts Hr. split; eauto. Qed.

(** Take apart one execution: the instruction, and every test it makes.  The socket's and
    the transport's own functions stay folded. *)
Ltac exec_cases H :=
  unfold exec, exec_open, exec_create, exec_close_transport, exec_send,
    exec_flush, exec_flush_end, exec_retry, exec_socket_close, exec_handle, exec_record_open,
    exec_session_url, exec_probe_create, exec_probe_wait, exec_signal, exec_upgrade,
    exec_upgrade_failed, exec_adopt, exec_topen, exec_dial, exec_open_stream, exec_connected,
    exec_tonopen, exec_tonclose, exec_close_conn, exec_tpacket, exec_terror, exec_begin_close,
    exec_poll_lock, exec_pause, exec_pause_mark, exec_pause_wait, exec_tsend, exec_post,
    exec_stream, exec_write_lock, exec_write, exec_poll, exec_request, exec_data,
    exec_data_packet, exec_data_next, exec_poll_done, exec_read, exec_read_failed, exec_tclose,
    exec_dial_failed, exec_read_loop, exec_install, exec_close, exec_socket_error,
    exec_socket_packet, exec_probe_next, on_sock, call, sent in H;
  repeat case_match; simplify_eq/=.

(** What the application's calls, the outcomes of [flush] and the optional parts of a
    teardown run: instructions most resources have nothing to do with. *)
Definition boring (i : instr) : bool :=
  match i with
  | COpen _ | CClose | CSend _ _ | COn _ _ | CReturn _ | CReport _ | CCancel _
  | CCallClose _ _ _ | CFlush _ => true
  | _ => false
  end.

Class Boring {A} (f : instr → list A) := boring_nil i : boring i = true → f i = [].

Section boring.
Context {A : Type} (f : instr → list A) `{!Boring f}.

Lemma gather_calls calls : gather f (api_instr <$> calls) = [].
Proof. apply gather_fmap. intros []; by apply boring_nil. Qed.
Lemma gather_flush_ok by_ : gather f (flush_ok by_) = [].
Proof. destruct by_; cbn; rewrite ?boring_nil by done; done. Qed.
Lemma gather_flush_error by_ e : gather f (flush_error by_ e) = [].
Proof. destruct by_; cbn; rewrite ?boring_nil by done; done. Qed.
Lemma gather_opt_boring {B} (g : B → instr) x : (∀ b, boring (g b) = true) → gather f (opt g x) = [].
Proof. intros Hg. rewrite gather_opt. destruct x; [|done]. by apply boring_nil. Qed.
End boring.

(** What the loops of a transport push, for resources no transport call holds. *)
Definition plain (i : instr) : bool :=
  match i with
  | TError _ _ | TData _ _ | TDataPacket _ _ | TDataNext _ | TReadLoop _ | TOnClose _
  | TClose _ => true
  | _ => false
  end.

Class Plain {A} (f : instr → list A) := plain_nil i : plain i = true → f i = [].

Section plain.
Context {A : Type} (f : instr → list A) `{!Plain f}.

Lemma gather_outcome t r : gather f (poll_outcome t r) = [].
Proof.
  destruct r; cbn; repeat case_match; rewrite ?gather_cons, ?plain_nil by done; done.
Qed.
Lemma gather_data t ps : gather f (TDataPacket t <$> ps) = [].
Proof. apply gather_fmap. intros p. by apply plain_nil. Qed.
Lemma gather_closes t : gather f (opt TClose t) = [].
Proof. rewrite gather_opt. destruct t; [|done]. by apply plain_nil. Qed.
Lemma gather_read_decide (Q : Prop) `{!Decision Q} t :
  gather f (if decide Q then [TOnClose t] else [TReadLoop t]) = [].
Proof. case_decide; rewrite gather_cons, plain_nil by done; done. Qed.
End plain.

(** Collect the tokens of what was pushed. *)
Ltac tokens :=
  rewrite ?gather_app, ?gather_cons, ?gather_nil;
  repeat first [ rewrite gather_calls by apply _ | rewrite gather_flush_ok by apply _
               | rewrite gather_flush_error by apply _
               | rewrite gather_opt_boring by (apply _ || done)
               | rewrite gather_outcome by apply _ | rewrite gather_data by apply _
               | rewrite gather_closes by apply _ | rewrite gather_read_decide by apply _ ];
  cbn [concat app].

(** ** What the critical sections return *)

Lemma beginCloseTransport_ref s t s' :
  beginCloseTransport s = (Some t, s') → t = s_transport s.
Proof. unfold beginCloseTransport. intros H. by case_match; simplify_eq. Qed.
Lemma flush_begin_ref s ps t m s' : flush_begin s = (Some (ps, t, m), s') → s_transport s = Some t.
Proof. unfold flush_begin. intros H. by repeat case_match; simplify_eq. Qed.
Lemma beginRetry_ref s b t c s' : beginRetry s = (b, t, c, s') → t = s_transport s.
Proof. unfold beginRetry. by intros [= _ <- _ _]. Qed.
Lemma beginTeardown_ref s r s' : beginTeardown s = (Some r, s') → cl_transport r = s_transport s.
Proof. unfold beginTeardown. intros H. by case_match; simplify_eq. Qed.
Lemma upgrade_begin_ref s t s' : upgrade_begin s = (Some t, s') → t = s_transport s.
Proof. unfold upgrade_begin. intros H. by case_match; simplify_eq. Qed.

Ltac returned :=
  repeat match goal with
  | H : beginCloseTransport _ = (Some _, _) |- _ => apply beginCloseTransport_ref in H
  | H : flush_begin _ = (Some _, _) |- _ => apply flush_begin_ref in H
  | H : beginRetry _ = _ |- _ => apply beginRetry_ref in H
  | H : beginTeardown _ = (Some _, _) |- _ => apply beginTeardown_ref in H
  | H : upgrade_begin _ = (Some _, _) |- _ => apply upgrade_begin_ref in H
  end.

(** ** References *)

Definition sender_refs (k : sender) : list nat :=
  match k with
  | ForChunk _ t _ _ _ | ForProbePing t | ForClose t | ForWebTransportOpen t => [t]
  | ForUpgrade t old => t :: option_list old
  end.

(** The transports an instruction refers to. *)
Definition refs (i : instr) : list nat :=
  match i with
  | CInstall t | CChunks _ t _ _ | CSessionURL t _ _ _ | CProbeWait t _ _ | CSignal t _
  | CUpgrade t | CAdopt t | TSet t _ _ | TSetURL t _ | TOpen t | TDial t _ | TOpenStream t _
  | TDialFailed t _ | TConnected t _ | TSpawnRead t | TOnOpen t | TOnClose t | TCloseConn t
  | TPacket t _ | TError t _ | TClose t | TBeginClose t | TPollLock t | TPollUnlock t
  | TPause t | TPauseMark t | TPauseWait t | TPoll t | TRequest t | TData t _
  | TDataPacket t _ | TDataNext t | TPollDone t | TReadLoop t | TRead t | TReadFailed t _ => [t]
  | CUpgradeWait t old | CUpgradeFailed t old _ => t :: option_list old
  | TSend k t _ | TPost k t _ | TStream k t _ | TWriteLock k t _ | TWrite k t _ =>
      t :: sender_refs k
  | _ => []
  end.

(** Everything that names a transport names one that was made. *)
Definition known (w : World) (a : nat) : Prop := (a < nextTransport w)%nat.
Definition inv_refs : invariant := λ w P,
  Forall (known w) (gather refs P) ∧ Forall (known w) (option_list (s_transport (sock w))) ∧
  (∀ a, is_Some (links w !! a) ↔ known w a).

#[export] Instance refs_boring : Boring refs.
Proof. by intros []. Qed.

#[export] Instance inv_refs_multiset : Multiset inv_refs.
Proof. intros w P Q H. unfold inv_refs. by rewrite H. Qed.

Lemma refs_discard t e : gather refs (discardProbe t e) = [t; t; t; t; t; t].
Proof. done. Qed.
Lemma refs_data t ps a : a ∈ gather refs (TDataPacket t <$> ps) → a = t.
Proof.
  unfold gather. rewrite list_elem_of_bind. intros (i & Hi & Ha).
  apply list_elem_of_fmap in Ha as (p & -> & _). set_solver.
Qed.

Lemma refs_sent_to k err a : a ∈ gather refs (sent_to k err) → a ∈ sender_refs k.
Proof. destruct k as [| |? []| |], err; cbn; set_solver. Qed.
Lemma refs_poll_outcome t r a : a ∈ gather refs (poll_outcome t r) → a = t.
Proof. destruct r; cbn; repeat case_match; set_solver. Qed.

(** What each instruction may come to refer to. *)
Lemma exec_new_refs o i w w' push spawn a :
  exec o i w = Next w' push spawn → a ∈ gather refs (push ++ concat spawn) →
  a ∈ refs i ∨ s_transport (sock w) = Some a ∨
  (a = nextTransport w ∧ nextTransport w' = S (nextTransport w)).
Proof.
  intros H. destruct i; exec_cases H; returned; tokens; try set_solver.
  all: try (rewrite elem_of_app; intros [?%refs_sent_to|?%not_elem_of_nil]; set_solver).
  - destruct o1; set_solver.
  - intros Ha. assert (a = n) as -> by set_solver. right. left. congruence.
  - rewrite !elem_of_app. intros [[->%refs_poll_outcome|?]|?]; set_solver.
  - rewrite !elem_of_app. intros [[->%refs_data|?]|?]; set_solver.
  - case_decide; set_solver.
  - case_decide; set_solver.
Qed.

Lemma exec_next o i w w' push spawn :
  exec o i w = Next w' push spawn → (nextTransport w ≤ nextTransport w')%nat.
Proof.
  intros H. destruct i; exec_cases H; try lia;
    match goal with |- context [sent_record ?k ?e _] => destruct k, e end; cbn; lia.
Qed.

(** What an instruction does to the socket, as one of its critical sections. *)
Definition effect (i : instr) (w : World) : Socket → Socket :=
  match i with
  | COpen ctx => λ s, (beginOpen ctx s).2
  | CCreateFailed _ => set_s_state SocketStateClosed
  | CInstall t => set_s_transport (Some t)
  | CCloseTransport => λ s, (beginCloseTransport s).2
  | CSend _ packets => λ s, (Send packets s).2
  | COn e h => λ s, set_s_handlers (on_event e h (s_handlers s)) s
  | CFlush _ => λ s, (flush_begin s).2
  | CFlushEnd _ sent err => λ s,
      match flush_end sent (bool_decide (err ≠ None)) s with Some (_, s') => s' | None => s end
  | CRetry _ => λ s, (beginRetry s).2
  | CSocketClose _ _ => λ s, (beginTeardown s).2
  | CCancel ctx => cancel (Some ctx)
  | CReschedule => reschedulePingTimeout
  | CRecordOpen p => λ s,
      recordOpen p (match s_transport s with Some t => type_of t w | None => [] end) s
  | CProbe _ _ _ => beginProbe
  | CUpgrade _ => λ s, (upgrade_begin s).2
  | CUpgradeFailed _ _ _ => upgrade_failed
  | CAdopt t => λ s, (upgrade_adopt t (type_of t w) s).2
  | _ => λ s, s
  end.

Definition sender_of (i : instr) : option sender :=
  match i with
  | TSend k _ _ | TPost k _ _ | TStream k _ _ | TWriteLock k _ _ | TWrite k _ _ => Some k
  | _ => None
  end.

(** The chunk of a flush that an instruction is sending, if it is. *)
Definition chunk_of (i : instr) : option (list Packet) :=
  match sender_of i with Some (ForChunk _ _ chunk _ _) => Some chunk | _ => None end.

(** The [Send] of a chunk that succeeded is recorded. *)
Lemma client_effect o i w w' push spawn :
  exec o i w = Next w' push spawn →
  sock w' = effect i w (sock w) ∨
  ∃ chunk, chunk_of i = Some chunk ∧ sock w' = record_handed chunk (sock w).
Proof.
  intros H. destruct i; exec_cases H; auto;
    try (left; repeat match goal with E : ?f = _ |- _ => rewrite E end; done);
    try (unfold beginRetry in *; simplify_eq; by auto);
    match goal with |- context [sent_record ?k ?e _] => destruct k; cbn; eauto end.
Qed.

(** Evaluate the critical sections. *)
Ltac sock_norm :=
  unfold effect, beginOpen, beginCloseTransport, Send, flush_begin, flush_end, beginRetry,
    beginTeardown, cancel, reschedulePingTimeout, recordOpen, beginProbe, upgrade_begin,
    upgrade_failed, upgrade_adopt, record_handed, reset_buffer, stop_timer in *;
  repeat case_match; simplify_eq/=.

(** The active transport changes only to one that the instruction names. *)
Lemma exec_transport o i w w' push spawn a :
  exec o i w = Next w' push spawn → s_transport (sock w') = Some a →
  a ∈ refs i ∨ s_transport (sock w) = Some a.
Proof.
  intros [-> | (chunk & _ & ->)]%client_effect; [destruct i|]; sock_norm; auto; set_solver.
Qed.

(** ** The transports *)

(** What an instruction does to the transport it acts on. *)
Definition link_step (i : instr) (l l' : Transport) : Prop :=
  match i with
  | TSet _ x h => l' = set_handler x h l
  | TSetURL _ url => l' = SetURL url l
  | TOpen _ => l' = (t_beginOpen l).2
  | TDialFailed _ _ => l' = set_t_state TransportStateClosed l
  | TConnected _ _ => l' = set_t_conn true l
  | TOnOpen _ => l' = (t_onOpen l).2
  | TOnClose _ => l' = (t_onClose l).2
  | TBeginClose _ => l' = (t_beginClose l).2
  | TPollLock _ => t_pollMu l = false ∧ l' = set_t_pollMu true l
  | TPollUnlock _ => l' = set_t_pollMu false l
  | TPause _ => l' = (beginPause l).2
  | TPauseMark _ => t_pollMu l = false ∧ l' = set_t_state TransportStatePaused l
  | TWriteLock _ _ _ => t_writeMu l = false ∧ l' = set_t_writeMu true l
  | TWrite _ _ _ => l' = set_t_writeMu false l
  | TPoll _ => t_pollMu l = false ∧ l' = set_t_pollMu true l
  | TRequest _ => l' = set_t_pollMu false (set_t_pollWG (S (t_pollWG l)) l)
  | TPollDone _ => l' = set_t_pollWG (pred (t_pollWG l)) l
  | _ => False
  end.

(** A transport that was just made. *)
Definition unused (l : Transport) : Prop :=
  ∃ k url, l = new_transport k url.

Lemma construct_unused k url l : construct k url = Ok l → unused l.
Proof.
  unfold unused. destruct k as [| |[]]; cbn; intros [= <-]; eauto.
Qed.


Lemma make_transport_unused f k s l : make_transport f k s = Ok l → unused l.
Proof.
  unfold make_transport. intros (url & _ & (c & _ & H)%res_bind_Ok)%res_bind_Ok.
  by eapply construct_unused.
Qed.

(** Every step leaves the transports alone, makes one, or acts on one it refers to. *)
Lemma client_links o i w w' push spawn :
  exec o i w = Next w' push spawn →
  (∃ l, unused l ∧ links w' = <[nextTransport w := l]> (links w) ∧
        nextTransport w' = S (nextTransport w)) ∨
  nextTransport w' = nextTransport w ∧
  (links w' = links w ∨
   ∃ t l', t ∈ refs i ∧ links w' = <[t := l']> (links w) ∧ link_step i (links w !!! t) l').
Proof.
  intros H. destruct i; exec_cases H; auto.
  all: try (match goal with |- context [sent_record ?k ?e _] => destruct k; cbn; auto end).
  all: try (left; eexists; split; [|done]; by eapply make_transport_unused).
  all: try (left; eexists; split; [|done];
            repeat (apply res_bind_Ok in H0 as (? & _ & H0));
            by eapply construct_unused, res_wrap_Ok).
  all: right; split; [done|]; right; eexists _, _; split; [by left|]; split; [reflexivity|];
    first [done | match goal with E : ?f = (_, ?l) |- _ => by rewrite E end
          | unfold t_onOpen in *; by simplify_eq].
Qed.

Lemma inv_refs_preserved : preserved_under exec happen inv_true inv_refs.
Proof.
  split.
  - intros o i P w w' push spawn H _ (Hr & Ht & Hl). rewrite gather_cons in Hr.
    apply Forall_app in Hr as [Hi HP]. pose proof (exec_next _ _ _ _ _ _ H) as Hn.
    rewrite Forall_forall in Hi, HP, Ht. unfold inv_refs. rewrite !Forall_forall. split_and!.
    + intros a Ha%list_elem_of_In. rewrite app_assoc, gather_app, elem_of_app in Ha.
      unfold known in *. destruct Ha as [Ha|Ha].
      * apply (exec_new_refs _ _ _ _ _ _ _ H) in Ha as [Ha|[Ha|[-> ->]]]; [| |lia].
        -- apply list_elem_of_In, Hi in Ha. lia.
        -- specialize (Ht a). rewrite Ha in Ht. specialize (Ht ltac:(by left)). lia.
      * apply list_elem_of_In, HP in Ha. lia.
    + intros a Ha. destruct (s_transport (sock w')) as [b|] eqn:E; [|done].
      destruct Ha as [<-|[]]. unfold known in *.
      apply (exec_transport _ _ _ _ _ _ _ H) in E as [E|E].
      * apply list_elem_of_In, Hi in E. lia.
      * specialize (Ht b). rewrite E in Ht. specialize (Ht ltac:(by left)). lia.
    + intros a. unfold known in *.
      destruct (client_links _ _ _ _ _ _ H) as [(l & _ & -> & ->)|(-> & [->|(t & l & Ha & -> & _)])].
      * rewrite lookup_insert_is_Some', Hl. lia.
      * apply Hl.
      * rewrite lookup_insert_is_Some', Hl. apply list_elem_of_In, Hi in Ha.
        split; [intros [->|]; lia|auto].
  - intros [id|calls] P w w' thread H _ (Hr & Ht & Hl); cbn in H.
    + case_match; simplify_eq. done.
    + simplify_eq. unfold inv_refs. by rewrite gather_app, gather_calls by apply _.
Qed.

Lemma client_refs : always inv_refs.
Proof.
  refine (client_intro _ _ client_true _ inv_refs_preserved).
  intros s (url & options & [= <-]). cbn. split_and!; [done..|].
  intros a. unfold known. cbn. rewrite lookup_empty. split; [by intros [? ?]|lia].
Qed.

(** The client has no dangling reference: in every reachable state, a transport that
    the socket holds or that any goroutine is going to act on is one that was made and
    stored, so that each step acts on a transport that exists. *)
Theorem client_references_valid s w ts a :
  reachable s (w, ts) →
  (s_transport (sock w) = Some a ∨ ∃ i, i ∈ concat ts ∧ a ∈ refs i) →
  ∃ l, links w !! a = Some l ∧ links w !!! a = l.
Proof.
  intros Hr Ha. destruct (client_refs s w ts Hr) as (Hi & Ht & Hl).
  assert (known w a) as [l Hk]%Hl.
  { rewrite Forall_forall in Hi, Ht. destruct Ha as [Ha|(i & H1 & H2)].
    - apply Ht. rewrite Ha. by left.
    - by eapply Hi, list_elem_of_In, gather_in. }
  exists l. split; [done|]. by apply lookup_total_correct.
Qed.
