(* ===== verification/ClientLocks.v ===== *)
(** * The client's locks

    Each lock that is held across I/O and each wait group says exactly which goroutines
    are inside what it guards: one poll of a transport is in flight at a time, one writer
    writes to its connection, and [Pause] returns only when everything the last poll
    brought has been dispatched. *)
From S2P Require Import Prelude Machine Packet Unicode Payload Framing Json Http.
From S2P Require Import ServerOptions Handshake ServerTransport ClientTransport.
From S2P Require Import ClientSocket Chunk ClientMachine ClientState.

(** [pollMu] and [writeMu] of a transport, and its [pollWG]. *)
Inductive lock := PollMu | PollWG | WriteMu.
#[export] Instance lock_eq_decision : EqDecision lock.
Proof. solve_decision. Defined.

(** The goroutines inside: a request or the end of a close holds [pollMu], a dispatch is
    counted by [pollWG], and a write holds [writeMu]. *)
Definition lock_token (i : instr) : list (lock * nat) :=
  match i with
  | TRequest t | TPollUnlock t => [(PollMu, t)]
  | TPollDone t => [(PollWG, t)]
  | TWrite _ t _ => [(WriteMu, t)]
  | _ => []
  end.

Definition held (x : lock) (l : Transport) : nat :=
  match x with
  | PollMu => Nat.b2n (t_pollMu l)
  | PollWG => t_pollWG l
  | WriteMu => Nat.b2n (t_writeMu l)
  end.

Definition inside (x : lock) (t : nat) (P : list instr) : nat :=
  count_occ (decide_rel (=)) (gather lock_token P) (x, t).

Definition inv_locks : invariant := λ w P, ∀ x t, inside x t P = held x (links w !!! t).

#[export] Instance inside_perm x t : Proper (Permutation ==> eq) (inside x t).
Proof.
  intros P Q H. unfold inside. apply Permutation_count_occ. by rewrite H.
Qed.
#[export] Instance inv_locks_multiset : Multiset inv_locks.
Proof. intros w P Q H. unfold inv_locks. by setoid_rewrite H. Qed.
#[export] Instance lock_boring : Boring lock_token.
Proof. by intros []. Qed.
#[export] Instance lock_plain : Plain lock_token.
Proof. by intros []. Qed.

Lemma inside_app x t P Q : inside x t (P ++ Q) = (inside x t P + inside x t Q)%nat.
Proof. unfold inside. by rewrite gather_app, count_occ_app. Qed.
Lemma inside_cons x t i P : inside x t (i :: P) = (inside x t [i] + inside x t P)%nat.
Proof. exact (inside_app x t [i] P). Qed.

Lemma tokens_sent_to k err : gather lock_token (sent_to k err) = [].
Proof. by destruct k as [| |? []| |], err. Qed.
(** The instructions that take or release a lock. *)
Definition locking (i : instr) : bool :=
  match i with
  | TPoll _ | TRequest _ | TPollLock _ | TPollUnlock _ | TPollDone _ | TWriteLock _ _ _
  | TWrite _ _ _ => true
  | _ => false
  end.

Lemma exec_no_token o i w w' push spawn :
  exec o i w = Next w' push spawn → locking i = false →
  gather lock_token (push ++ concat spawn) = [].
Proof.
  intros H Hi. destruct i; try done; exec_cases H; tokens; by rewrite ?tokens_sent_to.
Qed.

Lemma unused_held x l : unused l → held x l = 0%nat.
Proof. intros (k & url & ->). by destruct x. Qed.

Lemma link_step_held i l l' x : link_step i l l' → locking i = false → held x l' = held x l.
Proof.
  destruct i; try done; cbn; intros H _; unfold t_beginOpen, t_onOpen, t_onClose, t_beginClose,
    beginPause in H; destruct_and?; subst; repeat case_match; destruct x;
    try done; by destruct x0.
Qed.

Lemma exec_held o i w w' push spawn x t :
  exec o i w = Next w' push spawn → inv_refs w [i] → locking i = false →
  held x (links w' !!! t) = held x (links w !!! t).
Proof.
  intros H (_ & _ & Hl) Hi.
  destruct (client_links _ _ _ _ _ _ H) as [(l & Hu & -> & _)|(_ & [->|(a & l & _ & -> & Hs)])]; [|done|].
  - destruct (decide (t = nextTransport w)) as [->|Hne].
    + rewrite lookup_total_insert_eq, unused_held by done.
      rewrite lookup_total_alt. destruct (links w !! nextTransport w) eqn:E; [|by destruct x].
      exfalso. assert (known w (nextTransport w)) as Hk by (apply Hl; eauto).
      unfold known in Hk. lia.
    + by rewrite lookup_total_insert_ne.
  - destruct (decide (t = a)) as [->|Hne]; [|by rewrite lookup_total_insert_ne].
    rewrite lookup_total_insert_eq. by eapply link_step_held.
Qed.

(** A lock operation on [t] moves exactly the tokens of [t]. *)
Lemma locks_move w w' t l' i P push :
  links w' = <[t := l']> (links w) → inv_locks w (i :: P) →
  (∀ x, (inside x t push + held x (links w !!! t) = inside x t [i] + held x l')%nat) →
  (∀ x a, a ≠ t → inside x a push = 0%nat ∧ inside x a [i] = 0%nat) →
  inv_locks w' (push ++ P).
Proof.
  intros Hl HI Ht Hne x a. specialize (HI x a). rewrite inside_cons in HI.
  rewrite inside_app, Hl. destruct (decide (a = t)) as [->|Ha].
  - rewrite lookup_total_insert_eq. specialize (Ht x). lia.
  - rewrite lookup_total_insert_ne by done. destruct (Hne x a Ha) as [-> Hi]. lia.
Qed.

Lemma inside_none x a P : gather lock_token P = [] → inside x a P = 0%nat.
Proof. unfold inside. by intros ->. Qed.
Lemma inside_one x a P y t :
  gather lock_token P = [(y, t)] →
  inside x a P = if decide (x = y ∧ a = t) then 1%nat else 0%nat.
Proof.
  unfold inside. intros ->. cbn. destruct (decide_rel _ _ _) as [E|E].
  - simplify_eq. by rewrite decide_True.
  - rewrite decide_False; [done|]. by intros [-> ->].
Qed.

(** Close a goal of [locks_move]: the tokens before and after, and what the lock says. *)
Ltac count_tokens :=
  intros;
  repeat match goal with
  | |- context [inside ?x ?a ?P] =>
      first [ rewrite (inside_none x a P) by (tokens; rewrite ?tokens_sent_to; done)
            | erewrite (inside_one x a P) by (tokens; rewrite ?tokens_sent_to; done) ]
  end;
  repeat case_decide; destruct_and?; subst;
  try match goal with x : lock |- _ => destruct x end; try done;
  cbn in *;
  repeat match goal with
  | _ : context [Nat.b2n (?f ?l)] |- _ => destruct (f l)
  | |- context [Nat.b2n (?f ?l)] => destruct (f l)
  end; cbn in *; try lia; intuition congruence.

Lemma inv_locks_keep w w' i P push :
  links w' = links w → inv_locks w (i :: P) →
  (∀ x a, inside x a push = inside x a [i]) → inv_locks w' (push ++ P).
Proof.
  intros Hl HI Ht x a. specialize (HI x a). rewrite inside_cons in HI.
  rewrite inside_app, Hl, Ht. done.
Qed.

Lemma sent_links k err w : links (sent_record k err w) = links w.
Proof. by destruct k, err. Qed.

Lemma locking_move o i w w' push spawn P :
  exec o i w = Next w' push spawn → locking i = true →
  inv_locks w (i :: P) → inv_locks w' ((push ++ concat spawn) ++ P).
Proof.
  intros H Hi HI.
  assert (Hpos : ∀ y t, lock_token i = [(y, t)] → (1 ≤ held y (links w !!! t))%nat).
  { intros y t Hy. rewrite <- (HI y t). unfold inside. rewrite gather_cons, Hy. cbn.
    destruct (decide_rel _ _ _); [lia|done]. }
  destruct i; try done; cbn in H.
  - unfold exec_poll_lock in H. destruct (t_pollMu _) eqn:E; simplify_eq.
    eapply locks_move; [reflexivity|exact HI|count_tokens..].
  - simplify_eq. specialize (Hpos _ _ eq_refl). cbn in Hpos.
    eapply locks_move; [reflexivity|exact HI|count_tokens..].
  - unfold exec_write_lock in H. destruct (t_writeMu _) eqn:E; simplify_eq.
    eapply locks_move; [reflexivity|exact HI|count_tokens..].
  - specialize (Hpos _ _ eq_refl). cbn in Hpos. unfold exec_write, sent in H.
    repeat case_match; simplify_eq.
    all: try (eapply inv_locks_keep; [reflexivity|exact HI|count_tokens]).
    all: eapply locks_move; [by rewrite sent_links|exact HI|count_tokens..].
  - unfold exec_poll in H. destruct (t_pollMu _) eqn:E; [done|]. case_match; simplify_eq.
    + eapply locks_move; [reflexivity|exact HI|count_tokens..].
    + eapply inv_locks_keep; [reflexivity|exact HI|count_tokens].
  - specialize (Hpos _ _ eq_refl). cbn in Hpos. unfold exec_request in H. simplify_eq.
    eapply locks_move; [reflexivity|exact HI|count_tokens..].
  - specialize (Hpos _ _ eq_refl). cbn in Hpos. unfold exec_poll_done in H. simplify_eq.
    eapply locks_move; [reflexivity|exact HI|count_tokens..].
Qed.

Lemma inv_locks_preserved : preserved_under exec happen inv_refs inv_locks.
Proof.
  split.
  - intros o i P w w' push spawn H HR HI. rewrite app_assoc.
    destruct (locking i) eqn:Hi; [by eapply locking_move|].
    assert (inv_refs w [i]) as HR'.
    { destruct HR as (Hr & Ht & Hl). split_and!; [|done..].
      rewrite gather_cons in Hr. apply Forall_app in Hr as [Hr _].
      by rewrite gather_cons, gather_nil, app_nil_r. }
    intros x t. rewrite inside_app, (inside_none x t (push ++ concat spawn))
      by (by eapply exec_no_token).
    rewrite (exec_held _ _ _ _ _ _ x t H) by done. specialize (HI x t).
    rewrite inside_cons, (inside_none x t [i]) in HI by (by destruct i). done.
  - intros [id|calls] P w w' thread H _ HI; cbn in H.
    + case_match; simplify_eq. done.
    + simplify_eq. intros x t. rewrite inside_app, (inside_none x t (api_instr <$> calls)).
      * apply HI.
      * apply (gather_calls lock_token).
Qed.

Lemma always_locks : always inv_locks.
Proof.
  refine (client_intro _ _ client_refs _ inv_locks_preserved).
  intros s (url & options & [= <-]) x t. cbn. rewrite lookup_total_empty. by destruct x.
Qed.

(** ** Properties *)

