(* ===== verification/ClientFlush.v ===== *)
(** * The client's write buffer

    One [flush] at a time drains the write buffer, and it takes from it, in order, exactly
    what it has handed to a transport.  The second is about orderly runs: the socket's own
    code does not keep a flush of an earlier connection from meeting a later one
    (ClientRuns shows what happens then).  The same shows that nothing panics. *)
From S2P Require Import Prelude Machine Packet Unicode Payload Framing Json Http.
From S2P Require Import ServerOptions Handshake ServerTransport ClientTransport.
From S2P Require Import ClientSocket Chunk ClientMachine ClientState.

(** A flush in progress: the packets written so far, and the chunks to go. *)
Definition flush_token (i : instr) : list (nat * list (list Packet)) :=
  match i with
  | CChunks _ _ chunks n => [(n, chunks)]
  | CFlushEnd _ n _ => [(n, [])]
  | _ => match sender_of i with
         | Some (ForChunk _ _ chunk chunks n) => [(n, chunk :: chunks)]
         | _ => []
         end
  end.

#[export] Instance flush_boring : Boring flush_token.
Proof. by intros []. Qed.
#[export] Instance flush_plain : Plain flush_token.
Proof. by intros []. Qed.

(** A transport's [Send] goes on, or returns to its caller. *)
Lemma exec_sender o i w w' push spawn k :
  exec o i w = Next w' push spawn → sender_of i = Some k →
  spawn = [] ∧
  ((∃ i', push = [i'] ∧ sender_of i' = Some k ∧ flush_token i' = flush_token i ∧
          sock w' = sock w) ∨
   ∃ err, push = sent_to k err ∧ sock w' = sock (sent_record k err w)).
Proof.
  intros H Hk. destruct i; try done; cbn in Hk; injection Hk as ->; exec_cases H;
    (split; [done|]); try (left; eexists; split_and!; reflexivity);
    right; eexists; (split; [reflexivity|]); by destruct k.
Qed.

(** The steps of a flush. *)
Definition flushing_step (i : instr) : bool :=
  match i with
  | CFlush _ | CChunks _ _ _ _ | CFlushEnd _ _ _ => true
  | _ => match sender_of i with Some (ForChunk _ _ _ _ _) => true | _ => false end
  end.

Lemma flush_token_sent k err :
  gather flush_token (sent_to k err) =
  match k, err with
  | ForChunk _ _ chunk chunks n, None => [((n + length chunk)%nat, chunks)]
  | ForChunk _ _ _ _ n, Some _ => [(n, [])]
  | _, _ => []
  end.
Proof. by destruct k as [| |? []| |], err. Qed.

(** The others neither start nor end one, and change the socket by a critical section that
    is not one of [flush]'s. *)
Lemma exec_unflushed o i w w' push spawn :
  exec o i w = Next w' push spawn → flushing_step i = false →
  gather flush_token (push ++ concat spawn) = [] ∧ flush_token i = [] ∧
  sock w' = effect i w (sock w).
Proof.
  intros H Hi. destruct (sender_of i) as [k|] eqn:Hk.
  - destruct (exec_sender _ _ _ _ _ _ _ H Hk) as [-> [(i' & -> & Hk' & Ht & Hs)|(err & -> & Hs)]].
    + destruct i; try done; cbn in Hk; injection Hk as ->; destruct k; try done;
        cbn [app concat]; rewrite gather_cons, Ht; done.
    + rewrite Hs. destruct i; try done; cbn in Hk; injection Hk as ->; destruct k; try done;
        cbn [app concat]; rewrite app_nil_r, flush_token_sent; done.
  - pose proof (client_effect _ _ _ _ _ _ H) as He.
    destruct He as [He|(? & Hc & _)]; [|unfold chunk_of in Hc; by rewrite Hk in Hc].
    split; [|split; [by destruct i|done]]. clear He.
    destruct i; try done; exec_cases H; by tokens.
Qed.

(** ** One flush at a time *)

Definition inv_flush : invariant := λ w P,
  length (gather flush_token P) = s_flushWG (sock w) ∧
  s_flushWG (sock w) = Nat.b2n (s_flushing (sock w)).

#[export] Instance inv_flush_multiset : Multiset inv_flush.
Proof. intros w P Q H. unfold inv_flush. by rewrite H. Qed.

Lemma effect_flushing i w s :
  flushing_step i = false →
  s_flushWG (effect i w s) = s_flushWG s ∧ s_flushing (effect i w s) = s_flushing s.
Proof. intros Hi. destruct i; try done; sock_norm; auto. Qed.

Lemma record_handed_flushing chunk s :
  s_flushWG (record_handed chunk s) = s_flushWG s ∧
  s_flushing (record_handed chunk s) = s_flushing s.
Proof. sock_norm; auto. Qed.

Lemma flush_begin_spec s ps t m s' :
  flush_begin s = (Some (ps, t, m), s') →
  s_state s = SocketStateOpen ∧ s_upgrading s = false ∧ s_flushing s = false ∧
  ps = s_writeBuffer s ∧ s' = set_s_flushWG (S (s_flushWG s)) (set_s_flushing true s).
Proof.
  unfold flush_begin. intros H. case_match; [|done].
  destruct (bool_decide _ && _ && _ && _) eqn:E; simplify_eq.
  repeat (apply andb_true_iff in E as [E ?]). apply bool_decide_eq_true in E.
  by rewrite <- !negb_true_iff.
Qed.

(** What one step of a flush does to its token and to the socket. *)
Inductive flush_move : list (nat * list (list Packet)) → Socket →
    list (nat * list (list Packet)) → Socket → Prop :=
| FM_idle s : flush_move [] s [] s
| FM_begin s t ps m s' :
    flush_begin s = (Some (ps, t, m), s') → flush_move [] s [(0%nat, chunkPackets ps m)] s'
| FM_same s tok : flush_move [tok] s [tok] s
| FM_chunk s n chunk chunks :
    flush_move [(n, chunk :: chunks)] s [((n + length chunk)%nat, chunks)] (record_handed chunk s)
| FM_error s n chunks : flush_move [(n, chunks)] s [(n, [])] s
| FM_end s n more failed s' :
    flush_end n failed s = Some (more, s') → flush_move [(n, [])] s [] s'.

Lemma exec_flush_move o i w w' push spawn :
  exec o i w = Next w' push spawn → flushing_step i = true →
  flush_move (flush_token i) (sock w) (gather flush_token (push ++ concat spawn)) (sock w').
Proof.
  intros H Hi. destruct (sender_of i) as [k|] eqn:Hk.
  - destruct (exec_sender _ _ _ _ _ _ _ H Hk) as [-> [(i' & -> & Hk' & Ht & Hs)|(err & -> & Hs)]].
    + rewrite Hs. cbn [app concat]. rewrite gather_cons, Ht, gather_nil, app_nil_r.
      destruct i; try done; cbn in Hk; injection Hk as ->; destruct k; try done; constructor.
    + rewrite Hs. cbn [concat]. rewrite app_nil_r, flush_token_sent.
      destruct i; try done; cbn in Hk; injection Hk as ->; destruct k; try done;
        destruct err; constructor.
  - destruct i; try done; cbn in H; try (unfold exec_flush, exec_flush_end in H).
    + destruct (flush_begin (sock w)) as [[[[ps t] m]|] s] eqn:E; simplify_eq; cbn.
      * by econstructor.
      * tokens. replace s with (sock w); [constructor|].
        unfold flush_begin in E. by repeat case_match; simplify_eq.
    + destruct chunks; simplify_eq; constructor.
    + destruct (flush_end _ _ _) as [[more s]|] eqn:E; simplify_eq. tokens.
      replace (gather flush_token _) with (@nil (nat * list (list Packet))).
      * by econstructor.
      * repeat case_match; by rewrite ?gather_flush_error, ?gather_flush_ok by apply _.
Qed.

Lemma flush_move_excl toks s toks' s' n :
  flush_move toks s toks' s' →
  (length toks + n)%nat = s_flushWG s → s_flushWG s = Nat.b2n (s_flushing s) →
  (length toks' + n)%nat = s_flushWG s' ∧ s_flushWG s' = Nat.b2n (s_flushing s').
Proof.
  intros H. destruct H as [| | |? ? chunk| |]; cbn; intros H1 H2; auto.
  - match goal with H : flush_begin _ = _ |- _ => apply flush_begin_spec in H as (_ & _ & Hf & _ & ->) end.
    rewrite Hf in H2. cbn in *. lia.
  - destruct (record_handed_flushing chunk s) as [-> ->]. auto.
  - unfold flush_end in *. repeat case_match; simplify_eq/=; destruct (s_flushing s); cbn in *; lia.
Qed.

Lemma inv_flush_preserved : preserved_under exec happen inv_true inv_flush.
Proof.
  split.
  - intros o i P w w' push spawn H _ [H1 H2]. unfold inv_flush.
    rewrite gather_cons, length_app in H1. rewrite app_assoc, gather_app, length_app.
    destruct (flushing_step i) eqn:Hi.
    + eapply flush_move_excl; [by eapply exec_flush_move|done..].
    + destruct (exec_unflushed _ _ _ _ _ _ H Hi) as (-> & Ht & ->). rewrite Ht in H1.
      by destruct (effect_flushing i w (sock w) Hi) as [-> ->].
  - intros [id|calls] P w w' thread H _ HI; cbn in H.
    + case_match; simplify_eq. done.
    + simplify_eq. unfold inv_flush. by rewrite gather_app, gather_calls by apply _.
Qed.

Lemma always_flushing : always inv_flush.
Proof.
  refine (client_intro _ _ client_true _ inv_flush_preserved).
  by intros s (url & options & [= <-]).
Qed.

(** ** In order, and once *)

(** Of an open socket: what was queued is what was handed to a transport and then the rest
    of the buffer; a flush has at the head of the buffer what it has handed over and not
    yet removed, and its next chunks come next. *)
Definition ordered (s : Socket) (toks : list (nat * list (list Packet))) : Prop :=
  match s_state s with
  | SocketStateOpen =>
      ∃ d r, s_writeBuffer s = d ++ r ∧ s_queued s = s_handed s ++ r ∧
        (length toks = 0%nat → d = []) ∧
        Forall (λ tok, length d = tok.1 ∧ concat tok.2 `prefix_of` r) toks
  | SocketStateOpening => s_handed s = [] ∧ s_queued s = s_writeBuffer s
  | _ => True
  end.

#[export] Instance ordered_perm s : Proper (Permutation ==> iff) (ordered s).
Proof.
  intros P Q H. unfold ordered. case_match; try done. by setoid_rewrite H.
Qed.

Definition inv_ordered : invariant := λ w P, ordered (sock w) (gather flush_token P).
#[export] Instance inv_ordered_multiset : Multiset inv_ordered.
Proof. intros w P Q H. unfold inv_ordered. by rewrite H. Qed.

Lemma Forall_prefix_app {A B} (f : A → list B) (n : A → nat) (m : nat) r ps toks :
  Forall (λ tok, m = n tok ∧ f tok `prefix_of` r) toks →
  Forall (λ tok, m = n tok ∧ f tok `prefix_of` r ++ ps) toks.
Proof.
  apply Forall_impl. intros tok [? ?]. split; [done|]. by apply prefix_app_r.
Qed.

Lemma Send_ordered ps s toks : ordered s toks → ordered (Send ps s).2 toks.
Proof.
  unfold Send, alive, ordered. case_bool_decide as Ha; cbn; [|done].
  destruct (s_state s); try done.
  - intros (d & r & Hb & Hq & Hd & Ht). exists d, (r ++ ps). rewrite Hb, Hq, <- !app_assoc.
    split_and!; [done..|]. by apply (Forall_prefix_app (λ tok, concat tok.2) fst).
  - by intros [-> ->].
Qed.

Lemma recordOpen_ordered p kind s :
  s_state s = SocketStateOpening → ordered s [] → ordered (recordOpen p kind s) [].
Proof.
  intros Hs. unfold ordered. rewrite Hs. intros [Hh Hq]. cbn.
  exists [], (s_writeBuffer s). rewrite Hh, Hq. by split_and!.
Qed.

Definition same_queue (s s' : Socket) : Prop :=
  s_state s' = s_state s ∧ s_writeBuffer s' = s_writeBuffer s ∧
  s_queued s' = s_queued s ∧ s_handed s' = s_handed s.

Lemma ordered_same s s' toks : same_queue s s' → ordered s toks → ordered s' toks.
Proof. unfold ordered. by intros (-> & -> & -> & ->). Qed.

(** The other critical sections leave the buffer alone, or end the connection, or begin
    one. *)
Lemma effect_queue i w s :
  match i with
  | CFlush _ | CFlushEnd _ _ _ | CSend _ _ | CRecordOpen _ => True
  | _ =>
      same_queue s (effect i w s) ∨
      s_state (effect i w s) = SocketStateClosed ∨ s_state (effect i w s) = SocketStateClosing ∨
      s_state (effect i w s) = SocketStateOpening ∧ s_handed (effect i w s) = [] ∧
      s_queued (effect i w s) = s_writeBuffer (effect i w s)
  end.
Proof. destruct i; try done; unfold same_queue; sock_norm; auto 8. Qed.

Lemma effect_ordered i w s toks :
  flushing_step i = false →
  (∀ p, i = CRecordOpen p → s_state s = SocketStateOpening ∧ toks = []) →
  ordered s toks → ordered (effect i w s) toks.
Proof.
  intros Hi Hr HO. pose proof (effect_queue i w s) as He.
  destruct i; try done; try (by apply Send_ordered);
    try (destruct (Hr _ eq_refl) as [? ->]; by apply recordOpen_ordered);
    (destruct He as [He|[He|[He|(He & ? & ?)]]]; [by eapply ordered_same|..];
     unfold ordered; by rewrite He).
Qed.

Lemma flush_move_ordered toks s toks' s' rest :
  flush_move toks s toks' s' → (length rest ≤ 1 - length toks')%nat →
  (length rest ≤ 1 - length toks)%nat →
  ordered s (toks ++ rest) → ordered s' (toks' ++ rest).
Proof.
  intros H Hl Hl'. assert (toks = [] → toks' = [] ∨ rest = []) as Hrest.
  { intros ->. destruct toks', rest; cbn in *; auto; lia. }
  destruct H as [|s t ps m s' H| |s n chunk chunks|s n chunks|s n more failed s' H]; cbn; auto.
  all: assert (rest = []) as -> by (destruct rest; [done|cbn in *; lia]); cbn.
  - apply flush_begin_spec in H as (Hs & _ & _ & -> & ->). unfold ordered. cbn. rewrite Hs.
    intros (d & r & Hb & Hq & Hd & _). rewrite (Hd eq_refl) in *. exists [], r.
    split_and!; [done..|]. constructor; [|done]. cbn.
    destruct (chunks_spec (s_writeBuffer s) m) as [-> _]. by rewrite Hb.
  - unfold ordered, record_handed. case_decide as Hs; [|by destruct (s_state s)].
    cbn. rewrite Hs. intros (d & r & Hb & Hq & _ & Ht). apply List.Forall_cons_iff in Ht as [[Hn Hp] _].
    cbn in Hn, Hp. destruct Hp as [more ->]. exists (d ++ chunk), (concat chunks ++ more).
    rewrite Hb, Hq, <- !app_assoc. split_and!; [done..|]. constructor; [|done]. cbn.
    rewrite length_app, Hn. split; [done|]. by exists more.
  - unfold ordered. case_match; try done. intros (d & r & Hb & Hq & _ & Ht).
    exists d, r. split_and!; [done..|]. apply List.Forall_cons_iff in Ht as [[Hn _] _].
    constructor; [|done]. split; [done|]. apply prefix_nil.
  - unfold flush_end in H. case_decide as Hc; [done|]. simplify_eq. unfold ordered.
    destruct (decide (s_state s = SocketStateOpen)) as [Hs|Hs]; cbn.
    + rewrite Hs. intros (d & r & Hb & Hq & _ & Ht). apply List.Forall_cons_iff in Ht as [[Hn _] _].
      exists [], r. cbn in Hn. rewrite Hb, <- Hn, drop_app_length. by split_and!.
    + by destruct (s_state s).
Qed.

Lemma settled_spec s :
  settled s = true →
  s_state s = SocketStateOpening ∧ s_transport s ≠ None ∧ s_flushing s = false ∧
  s_committing s = 0%nat.
Proof.
  unfold settled. rewrite !andb_true_iff, negb_true_iff, !bool_decide_eq_true. tauto.
Qed.

Lemma orderly_record o p w w' push spawn :
  orderly_exec o (CRecordOpen p) w = Next w' push spawn → settled (sock w) = true.
Proof. cbn. by destruct (settled (sock w)). Qed.

(** With at most one token, an idle socket has none. *)
Lemma flush_idle w P : inv_flush w P → s_flushing (sock w) = false → gather flush_token P = [].
Proof.
  intros [H1 H2] Hf. rewrite Hf in H2. cbn in H2. rewrite H2 in H1. by apply nil_length_inv in H1.
Qed.

Lemma inv_ordered_preserved : preserved_under orderly_exec happen inv_flush inv_ordered.
Proof.
  split.
  - intros o i P w w' push spawn Ho HF HI. pose proof (orderly_exec_Next _ _ _ _ _ _ Ho) as H.
    unfold inv_ordered in *. rewrite gather_cons in HI. rewrite app_assoc, gather_app.
    destruct HF as [H1 H2]. rewrite gather_cons, length_app in H1.
    destruct (flushing_step i) eqn:Hi.
    + pose proof (exec_flush_move _ _ _ _ _ _ H Hi) as Hm.
      destruct (flush_move_excl _ _ _ _ _ Hm H1 H2) as [H1' H2'].
      eapply flush_move_ordered; [exact Hm|..|exact HI].
      * destruct (s_flushing (sock w')); cbn in H2'; lia.
      * destruct (s_flushing (sock w)); cbn in H2; lia.
    + destruct (exec_unflushed _ _ _ _ _ _ H Hi) as (-> & Ht & ->). rewrite Ht in HI, H1.
      apply effect_ordered; [done| |done]. intros p ->.
      apply orderly_record, settled_spec in Ho as (Hs & _ & Hf & _). split; [done|].
      rewrite Hf in H2. apply nil_length_inv. cbn in *. lia.
  - intros [id|calls] P w w' thread H _ HI; cbn in H.
    + case_match; simplify_eq. done.
    + simplify_eq. unfold inv_ordered. by rewrite gather_app, gather_calls by apply _.
Qed.

Lemma orderly_ordered : orderly_always inv_ordered.
Proof.
  refine (orderly_intro _ _ (always_orderly _ always_flushing) _ inv_ordered_preserved).
  by intros s (url & options & [= <-]).
Qed.

(** ** What can panic *)

Lemma resolveURL_no_panic f t s : resolveURL f t s ≠ Panic.
Proof. unfold resolveURL. by case_match. Qed.
Lemma constructorFor_no_panic t s : constructorFor t s ≠ Panic.
Proof. unfold constructorFor. by case_match. Qed.
Lemma construct_no_panic k url : construct k url ≠ Panic.
Proof. by destruct k as [| |[]]. Qed.

Lemma make_transport_no_panic f t s : make_transport f t s ≠ Panic.
Proof.
  apply res_bind_no_panic; [apply res_wrap_no_panic, resolveURL_no_panic|]. intros url.
  apply res_bind_no_panic; [apply constructorFor_no_panic|]. intros k. apply construct_no_panic.
Qed.

Lemma probe_create_no_panic o c u t w : exec_probe_create o c u t w ≠ Panicked.
Proof.
  unfold exec_probe_create. case_match eqn:E; try done. exfalso. revert E.
  apply res_bind_no_panic; [apply res_wrap_no_panic, resolveURL_no_panic|]. intros url.
  apply res_bind_no_panic; [apply constructorFor_no_panic|]. intros k.
  apply res_wrap_no_panic, construct_no_panic.
Qed.

(** Only removing what was written from the buffer can. *)
Lemma client_panicked o i w :
  exec o i w = Panicked →
  ∃ by_ n err, i = CFlushEnd by_ n err ∧ s_state (sock w) = SocketStateOpen ∧
    (length (s_writeBuffer (sock w)) < n)%nat.
Proof.
  intros H. destruct i; try (by apply probe_create_no_panic in H); exec_cases H.
  all: try (exfalso; match goal with H : _ = Panic |- _ => revert H end;
    first [apply resolveURL_no_panic | apply make_transport_no_panic
          | apply unmarshalOpen_no_panic | apply decode_segments_no_panic
          | apply decodeWebSocketFrame_no_panic]).
  unfold flush_end in *. case_decide as E; [|done]. destruct E. eauto 6.
Qed.

(** ** What the flushes guarantee *)

(** At most one flush of the client drains its write buffer at a time, on every
    schedule: the flushes in progress (between the critical section that takes the buffer
    and the one that gives it back) are as many as [flushWG] counts, and there is one
    exactly when [flushing] is set. *)
Theorem client_one_flush s w ts :
  reachable s (w, ts) →
  length (gather flush_token (concat ts)) = s_flushWG (sock w) ∧
  s_flushWG (sock w) = Nat.b2n (s_flushing (sock w)).
Proof. apply always_flushing. Qed.

Lemma ordered_open s toks :
  ordered s toks → s_state s = SocketStateOpen →
  ∃ d r, s_writeBuffer s = d ++ r ∧ s_queued s = s_handed s ++ r ∧
    (length toks = 0%nat → d = []) ∧
    Forall (λ tok, length d = tok.1 ∧ concat tok.2 `prefix_of` r) toks.
Proof. unfold ordered. intros H Hs. by rewrite Hs in H. Qed.


(** C21. The client does not panic: in an orderly run no goroutine's next instruction is a
    panic, whatever the network answers and whatever bytes it delivers. *)
Theorem client_never_panics s w ts n i rest o :
  orderly s (w, ts) → ts !! n = Some (i :: rest) → orderly_exec o i w ≠ Panicked.
Proof.
  intros Hr Hin%head_pending Hp. assert (exec o i w = Panicked) as (by_ & m & err & -> & Hs & Hn)%client_panicked.
  { destruct i; cbn in Hp; try done; by case_match. }
  destruct (ordered_open _ _ (orderly_ordered s w ts Hr) Hs) as (d & r & Hb & _ & _ & Ht).
  rewrite Forall_forall in Ht. destruct (Ht (m, [])) as [Hd _].
  - apply list_elem_of_In. eapply gather_in; [done|]. by left.
  - rewrite Hb, length_app in Hn. cbn in Hd. lia.
Qed.
