(* ===== verification/ClientUpgrade.v ===== *)
(** * The client's upgrades, heartbeat and fallback

    While a probe commits its upgrade the write buffer is held back, and from the moment
    the running flush has ended until the new transport is adopted nothing is flushed over
    either transport.  The second part is the heartbeat: an open socket has its watchdog
    timer armed.  The third is the fallback from one transport to the next. *)
From S2P Require Import Prelude Machine Packet Unicode Payload Framing Json Http.
From S2P Require Import ServerOptions Handshake ServerTransport ClientTransport.
From S2P Require Import ClientSocket Chunk ClientMachine ClientState ClientFlush.

(** ** Committing an upgrade *)

(** A probe between its pong and its outcome: still waiting for the flush, or past it. *)
Inductive commit_stage := Waiting | Committed.
#[export] Instance commit_stage_eq_decision : EqDecision commit_stage.
Proof. solve_decision. Defined.

Definition commit_token (i : instr) : list commit_stage :=
  match i with
  | CUpgradeWait _ _ => [Waiting]
  | CUpgradeFailed _ _ _ | CAdopt _ => [Committed]
  | _ => match sender_of i with Some (ForUpgrade _ _) => [Committed] | _ => [] end
  end.

#[export] Instance commit_boring : Boring commit_token.
Proof. by intros []. Qed.
#[export] Instance commit_plain : Plain commit_token.
Proof. by intros []. Qed.

Lemma commit_token_sent k err :
  gather commit_token (sent_to k err) =
  match k with ForUpgrade _ _ => [Committed] | _ => [] end.
Proof. by destruct k as [| |? []| |], err. Qed.

Lemma commit_token_sender i k :
  sender_of i = Some k → commit_token i = match k with ForUpgrade _ _ => [Committed] | _ => [] end.
Proof. intros H. destruct i; try done; cbn in *; by simplify_eq. Qed.

(** A step begins one commit, moves one on, or ends one. *)
Lemma exec_commit o i w w' push spawn :
  exec o i w = Next w' push spawn →
  gather commit_token (push ++ concat spawn) =
  match i with
  | CUpgrade _ => if decide (s_state (sock w) = SocketStateOpen) then [Waiting] else []
  | CUpgradeWait _ _ => [Committed]
  | CUpgradeFailed _ _ _ | CAdopt _ => []
  | _ => commit_token i
  end.
Proof.
  intros H. destruct (sender_of i) as [k|] eqn:Hk.
  - assert (gather commit_token (push ++ concat spawn) = commit_token i) as ->
      by (rewrite (commit_token_sender _ _ Hk);
          destruct (exec_sender _ _ _ _ _ _ _ H Hk) as [-> [(i' & -> & Hk' & _)|(err & -> & _)]];
          cbn [app concat]; rewrite ?app_nil_r;
          [by rewrite gather_cons, app_nil_r, (commit_token_sender _ _ Hk')
          |by rewrite commit_token_sent]).
    by destruct i.
  - destruct i; try done; exec_cases H; unfold upgrade_begin in *; repeat case_decide;
      simplify_eq; by tokens.
Qed.

Definition inv_commit : invariant := λ w P,
  length (gather commit_token P) = s_committing (sock w).
#[export] Instance inv_commit_multiset : Multiset inv_commit.
Proof. intros w P Q H. unfold inv_commit. by rewrite H. Qed.

Lemma exec_committing o i w w' push spawn :
  exec o i w = Next w' push spawn →
  s_committing (sock w') =
  match i with
  | CUpgrade _ => if decide (s_state (sock w) = SocketStateOpen)
                  then S (s_committing (sock w)) else s_committing (sock w)
  | CUpgradeFailed _ _ _ | CAdopt _ => pred (s_committing (sock w))
  | _ => s_committing (sock w)
  end.
Proof.
  intros [-> | (chunk & Hc & ->)]%client_effect; [|by destruct i; sock_norm].
  destruct i; try done; sock_norm; congruence.
Qed.

Lemma inv_commit_preserved : preserved_under exec happen inv_true inv_commit.
Proof.
  split.
  - intros o i P w w' push spawn H _ HI. unfold inv_commit in *.
    rewrite gather_cons, length_app in HI. rewrite app_assoc, gather_app, length_app.
    rewrite (exec_commit _ _ _ _ _ _ H), (exec_committing _ _ _ _ _ _ H).
    destruct i; cbn in *; repeat case_decide; cbn in *; lia.
  - intros [id|calls] P w w' thread H _ HI; cbn in H.
    + case_match; simplify_eq. done.
    + simplify_eq. unfold inv_commit. by rewrite gather_app, gather_calls by apply _.
Qed.

Lemma always_commit : always inv_commit.
Proof.
  refine (client_intro _ _ client_true _ inv_commit_preserved).
  by intros s (url & options & [= <-]).
Qed.

(** Of an open socket: a commit holds the buffer back, and past the wait no flush runs. *)
Definition exclusive (s : Socket) (toks : list commit_stage) : Prop :=
  (s_committing s ≤ 1)%nat ∧
  (s_state s = SocketStateOpen →
   (s_committing s ≠ 0%nat → s_upgrading s = true) ∧
   (Committed ∈ toks → s_flushing s = false)).

Definition inv_exclusive : invariant := λ w P, exclusive (sock w) (gather commit_token P).
#[export] Instance inv_exclusive_multiset : Multiset inv_exclusive.
Proof. intros w P Q H. unfold inv_exclusive, exclusive. by setoid_rewrite H. Qed.

(** The critical sections that neither flush nor upgrade nor open. *)
Definition aside (i : instr) : bool :=
  match i with
  | CUpgrade _ | CUpgradeWait _ _ | CUpgradeFailed _ _ _ | CAdopt _ | CRecordOpen _ | CFlush _
  | CFlushEnd _ _ _ => false
  | _ => true
  end.

Definition same_upgrade (s s' : Socket) : Prop :=
  s_flushing s' = s_flushing s ∧ s_committing s' = s_committing s ∧
  (s_state s' = SocketStateOpen → s_state s = SocketStateOpen ∧ s_upgrading s' = s_upgrading s).

Lemma exec_aside o i w w' push spawn :
  exec o i w = Next w' push spawn → aside i = true → same_upgrade (sock w) (sock w').
Proof.
  intros [-> | (chunk & Hc & ->)]%client_effect Hi; unfold same_upgrade;
    [destruct i; try done|]; sock_norm; by split_and!; auto.
Qed.

Lemma exclusive_same s s' toks :
  same_upgrade s s' → exclusive s toks → exclusive s' toks.
Proof.
  intros (Hf & Hc & Ho) [H1 H2]. unfold exclusive. rewrite Hf, Hc. split; [done|].
  intros [Hs ->]%Ho. auto.
Qed.

Lemma exclusive_idle s : s_committing s = 0%nat → exclusive s [].
Proof. intros H. split; [lia|]. intros _. split; [done|]. by intros ?%not_elem_of_nil. Qed.

Lemma exclusive_flush s s' toks :
  s_state s' = s_state s → s_upgrading s' = s_upgrading s → s_committing s' = s_committing s →
  length toks = s_committing s → (s_flushing s' = false ∨ s_upgrading s = false) →
  exclusive s toks → exclusive s' toks.
Proof.
  intros Hs Hu Hc Hl Hf [H1 H2]. unfold exclusive. rewrite Hs, Hu, Hc. split; [done|].
  intros Ho. destruct (H2 Ho) as [H3 H4]. split; [done|]. intros Hin.
  destruct Hf as [|Hf]; [done|]. rewrite H3 in Hf; [done|]. rewrite <- Hl.
  destruct toks; [by apply not_elem_of_nil in Hin|done].
Qed.

Lemma flush_begin_exclusive s toks :
  length toks = s_committing s → exclusive s toks → exclusive (flush_begin s).2 toks.
Proof.
  destruct (flush_begin s) as [[[[ps t] m]|] s'] eqn:E; cbn.
  - apply flush_begin_spec in E as (_ & Hu & _ & _ & ->). intros Hl. by apply exclusive_flush; auto.
  - unfold flush_begin in E. by repeat case_match; simplify_eq.
Qed.

Lemma flush_end_exclusive n failed s more s' toks :
  flush_end n failed s = Some (more, s') →
  length toks = s_committing s → exclusive s toks → exclusive s' toks.
Proof.
  unfold flush_end. intros H. case_decide; [done|]. simplify_eq. intros Hl.
  apply exclusive_flush; try done; try (by case_decide). by left.
Qed.

Lemma inv_exclusive_preserved :
  preserved_under orderly_exec happen (inv_and inv_flush inv_commit) inv_exclusive.
Proof.
  split.
  - intros o i P w w' push spawn Ho [HF HC] HI.
    pose proof (orderly_exec_Next _ _ _ _ _ _ Ho) as H.
    unfold inv_exclusive in *. rewrite gather_cons in HI. rewrite app_assoc, gather_app.
    unfold inv_commit in HC. rewrite gather_cons in HC.
    rewrite (exec_commit _ _ _ _ _ _ H). set (rest := gather commit_token P) in *. clearbody rest.
    destruct (aside i) eqn:Hi.
    { eapply exclusive_same; [by eapply exec_aside|]. by destruct i. }
    destruct i; try done; cbn [commit_token sender_of app] in *.
    + cbn in H. unfold exec_flush in H. pose proof (flush_begin_exclusive _ _ HC HI) as HE.
      destruct (flush_begin (sock w)) as [r s']. by simplify_eq.
    + cbn in H. unfold exec_flush_end in H. case_match eqn:E; [|done]. case_match. simplify_eq.
      by eapply flush_end_exclusive.
    + apply orderly_record, settled_spec in Ho as (_ & _ & _ & Hc). rewrite Hc in HC.
      apply nil_length_inv in HC as ->. apply exclusive_idle.
      by rewrite (exec_committing _ _ _ _ _ _ H).
    + cbn in Ho. case_decide as Hc; [|done]. rewrite Hc in HC. apply nil_length_inv in HC as ->.
      unfold exec_upgrade, upgrade_begin in Ho. repeat case_decide; simplify_eq; cbn.
      * by apply exclusive_idle.
      * unfold exclusive. cbn. rewrite Hc. split; [done|]. intros _. split; [done|]. set_solver.
    + cbn in H. case_decide as Hw; [|done]. simplify_eq. destruct HF as [_ HF], HI as [H1 H2].
      split; [done|]. intros Hs. destruct (H2 Hs). split; [done|]. intros _.
      rewrite Hw in HF. by destruct s_flushing.
    + destruct HI as [H1 _]. cbn in HC. assert (length rest = 0%nat) as ->%nil_length_inv by lia.
      apply exclusive_idle. rewrite (exec_committing _ _ _ _ _ _ H), <- HC. done.
    + destruct HI as [H1 _]. cbn in HC. assert (length rest = 0%nat) as ->%nil_length_inv by lia.
      apply exclusive_idle. rewrite (exec_committing _ _ _ _ _ _ H), <- HC. done.
  - intros [id|calls] P w w' thread H _ HI; cbn in H.
    + case_match; simplify_eq. done.
    + simplify_eq. unfold inv_exclusive. by rewrite gather_app, gather_calls by apply _.
Qed.

Lemma orderly_exclusive : orderly_always inv_exclusive.
Proof.
  refine (orderly_intro _ _ (orderly_and _ _ (always_orderly _ always_flushing)
            (always_orderly _ always_commit)) _ inv_exclusive_preserved).
  intros s (url & options & [= <-]). by apply exclusive_idle.
Qed.

(** C22. An upgrade is committed with the buffer at rest.  In an orderly run, while an open
    socket has a probe that is past its wait for the flush (it sends the upgrade packet,
    pauses the old transport or is about to adopt the new one), the buffer is held back,
    no flush is running, and so no packet of the application is under way on the old or
    the new transport when the transport is swapped. *)
Theorem upgrade_excludes_flush s w ts i :
  orderly s (w, ts) → i ∈ concat ts → commit_token i = [Committed] →
  s_state (sock w) = SocketStateOpen →
  s_upgrading (sock w) = true ∧ s_flushing (sock w) = false ∧
  gather flush_token (concat ts) = [].
Proof.
  intros Hr Hi Ht Hs. pose proof (orderly_reachable _ _ Hr) as Ha.
  destruct (orderly_exclusive s w ts Hr) as [_ [Hu Hf]%(λ H, H Hs)].
  assert (Committed ∈ gather commit_token (concat ts)) as Hin.
  { eapply gather_in; [done|]. rewrite Ht. by left. }
  split_and!; [|auto|].
  - apply Hu. rewrite <- (always_commit s w ts Ha). by destruct gather; [set_solver|].
  - eapply flush_idle; [by eapply always_flushing|auto].
Qed.

(** ** The heartbeat *)

Definition heartbeat (s : Socket) : Z := wrap64 (s_pingInterval s + s_pingTimeout s).

(** The watchdog is being armed again, or has gone off. *)
Definition watch_token (i : instr) : list unit :=
  match i with CReschedule | CSocketClose _ _ => [()] | _ => [] end.
#[export] Instance watch_boring : Boring watch_token.
Proof. by intros []. Qed.

Definition armed (s : Socket) : Prop :=
  ∃ id, s_pingTimeoutTimer s = Some id ∧ s_timers s !! id = Some (heartbeat s).

Definition inv_watched : invariant := λ w P,
  s_state (sock w) = SocketStateOpen → 0 < heartbeat (sock w) →
  armed (sock w) ∨ (0 < length (gather watch_token P))%nat.

#[export] Instance inv_watched_multiset : Multiset inv_watched.
Proof. intros w P Q H. unfold inv_watched. by rewrite H. Qed.

Lemma reschedule_armed s :
  0 < heartbeat (reschedulePingTimeout s) → armed (reschedulePingTimeout s).
Proof.
  unfold armed, heartbeat, reschedulePingTimeout. cbn. destruct (_ <=? 0) eqn:E; cbn; [lia|].
  intros _. eexists. split; [done|]. cbn. by rewrite lookup_insert_eq.
Qed.

Definition same_watch (s s' : Socket) : Prop :=
  (s_state s' = SocketStateOpen → s_state s = SocketStateOpen) ∧
  s_pingTimeoutTimer s' = s_pingTimeoutTimer s ∧ s_timers s' = s_timers s ∧
  heartbeat s' = heartbeat s.

Lemma exec_watch o i w w' push spawn :
  exec o i w = Next w' push spawn →
  match i with CReschedule | CSocketClose _ _ | CRecordOpen _ => False | _ => True end →
  same_watch (sock w) (sock w').
Proof.
  intros [-> | (chunk & Hc & ->)]%client_effect Hi; unfold same_watch, heartbeat;
    [destruct i; try done|]; sock_norm; by split_and!; auto.
Qed.

Lemma inv_watched_preserved : preserved_under orderly_exec happen inv_true inv_watched.
Proof.
  split.
  - intros o i P w w' push spawn Ho _ HI. pose proof (orderly_exec_Next _ _ _ _ _ _ Ho) as H.
    unfold inv_watched in *. rewrite gather_cons in HI. rewrite !gather_app, !length_app.
    destruct (decide (watch_token i = [])) as [Ht|Ht].
    + rewrite Ht in HI. assert ((∃ p, i = CRecordOpen p) ∨ ¬ ∃ p, i = CRecordOpen p) as [[p ->]|Hp]
        by (destruct i; try (right; intros [? ?]; done); eauto).
      * apply orderly_record, settled_spec in Ho as (_ & Htr & _).
        cbn in H. unfold exec_record_open in H. destruct (s_transport (sock w)); [|done].
        simplify_eq/=. right. lia.
      * apply exec_watch in H as (Hs & Hti & Htm & Hh); [|destruct i; try done; by destruct Hp; eauto].
        unfold armed. rewrite Hti, Htm, Hh. intros Hs' Hpos.
        destruct (HI (Hs Hs') Hpos) as [|Hn]; [by left|right]. cbn in Hn. lia.
    + destruct i; try done; cbn in H; [|].
      * unfold exec_socket_close, beginTeardown in H. case_decide; simplify_eq/=; congruence.
      * unfold on_sock in H. simplify_eq/=. intros _ Hpos. left. by apply reschedule_armed.
  - intros [id|calls] P w w' thread H _ HI; cbn in H; unfold inv_watched.
    + case_match; simplify_eq. intros _ _. right. rewrite gather_app, length_app.
      cbn. lia.
    + simplify_eq. by rewrite gather_app, gather_calls by apply _.
Qed.

Lemma orderly_watched : orderly_always inv_watched.
Proof.
  refine (orderly_intro _ _ (always_orderly _ client_true) _ inv_watched_preserved).
  by intros s (url & options & [= <-]).
Qed.

(** C28. An open client never waits for a dead server without a watchdog.  In an orderly
    run, while the socket is open and the server's ping interval and timeout add up to a
    positive duration, the heartbeat timer is armed with that duration, or a goroutine is
    about to arm it again, or one is about to close the socket. *)
Theorem client_watchdog s w ts :
  orderly s (w, ts) → s_state (sock w) = SocketStateOpen →
  0 < wrap64 (s_pingInterval (sock w) + s_pingTimeout (sock w)) →
  (∃ id, s_pingTimeoutTimer (sock w) = Some id ∧
     s_timers (sock w) !! id =
       Some (wrap64 (s_pingInterval (sock w) + s_pingTimeout (sock w)))) ∨
  CReschedule ∈ concat ts ∨ (∃ reason cause, CSocketClose reason cause ∈ concat ts).
Proof.
  intros Hr Hs Hp. destruct (orderly_watched s w ts Hr Hs Hp) as [Ha|Hn]; [by left|right].
  destruct (gather watch_token (concat ts)) as [|u l] eqn:E; [by apply Nat.lt_irrefl in Hn|].
  assert (u ∈ gather watch_token (concat ts)) as (i & Hu & Hi)%list_elem_of_bind
    by (rewrite E; by left).
  destruct i; try (by apply not_elem_of_nil in Hu); eauto.
Qed.

(** ** Falling back *)

Definition inv_fallback (c : socketConfig) : invariant := λ w _,
  s_config (sock w) = c ∧ s_transports (sock w) `suffix_of` cfg_transports c ∧
  (cfg_transports c ≠ [] → s_transports (sock w) ≠ []).
#[export] Instance inv_fallback_multiset c : Multiset (inv_fallback c).
Proof. by intros w P Q H. Qed.

Lemma beginRetry_transports s :
  s_transports (beginRetry s).2 = s_transports s ∨
  ∃ t l, s_transports s = t :: l ∧ l ≠ [] ∧ s_transports (beginRetry s).2 = l.
Proof.
  unfold beginRetry. cbn [snd s_transports set_s_priorUpgrade s_config s_state].
  destruct (_ && _ && _) eqn:E; [right|by left].
  repeat (apply andb_true_iff in E as [E ?]).
  match goal with H : bool_decide (1 < _) = true |- _ => apply bool_decide_eq_true in H as Hl end.
  destruct (s_transports s) as [|t [|t' l]] eqn:El; unfold len in Hl; cbn in Hl; try lia.
  exists t, (t' :: l). split; [done|]. done.
Qed.

Lemma effect_fallback i w s :
  s_config (effect i w s) = s_config s ∧
  (s_transports (effect i w s) = s_transports s ∨
   ∃ t l, s_transports s = t :: l ∧ l ≠ [] ∧ s_transports (effect i w s) = l).
Proof.
  assert ((∃ e, i = CRetry e) ∨ s_transports (effect i w s) = s_transports s) as [[e ->]|Ht].
  { destruct i; eauto; right; sock_norm; done. }
  - split; [|apply beginRetry_transports]. cbn. unfold beginRetry. cbn. by case_match.
  - split; [|by left]. clear Ht. destruct i; sock_norm; done.
Qed.

Lemma inv_fallback_preserved c : preserved_under exec happen inv_true (inv_fallback c).
Proof.
  split.
  - intros o i P w w' push spawn H _ (Hc & Hs & Hn). unfold inv_fallback.
    apply client_effect in H as [->|(chunk & _ & ->)]; [|by unfold record_handed; case_decide].
    destruct (effect_fallback i w (sock w)) as [-> [->|(t & l & Ht & Hl & ->)]]; [done|].
    split_and!; [done| |done]. rewrite Ht in Hs. etransitivity; [|exact Hs]. by exists [t].
  - intros [id|calls] P w w' thread H _ HI; cbn in H; [case_match|]; simplify_eq; exact HI.
Qed.

Lemma reachable_fallback s w ts : reachable s (w, ts) → inv_fallback (s_config s) w (concat ts).
Proof.
  intros [(url & options & [= <-]) Hr].
  refine (reachable_invariant exec happen inv_true _ _ _ _ _ (inv_fallback_preserved _) Hr _ _);
    [done|]. by split_and!.
Qed.

(** Falling back goes down the configured list and ends: the transports left to try
    are always a suffix of the configured ones, and not empty when those are not; a retry
    removes one; and the one selected is always a configured one. *)
Theorem fallback_configured s w ts :
  reachable s (w, ts) →
  s_transports (sock w) `suffix_of` cfg_transports (s_config s) ∧
  (cfg_transports (s_config s) ≠ [] → s_transports (sock w) ≠ []) ∧
  (∀ ty, selectTransport (sock w) = Some ty → ty ∈ cfg_transports (s_config s)) ∧
  (∀ retry t ctx s', beginRetry (sock w) = (retry, t, ctx, s') → retry = true →
   length (s_transports (sock w)) = S (length (s_transports s'))).
Proof.
  intros (_ & Hs & Hn)%reachable_fallback. split_and!; [done..| |].
  - intros ty Ht. destruct Hs as [l ->]. apply elem_of_app. right. unfold selectTransport in Ht.
    destruct (s_transports (sock w)) as [|t ts'] eqn:E; [done|]. simplify_eq.
    destruct (_ && _ && _) eqn:Ep; [|by left]. apply andb_true_iff in Ep as [_ Ep].
    by apply bool_decide_eq_true in Ep.
  - unfold beginRetry. intros retry t ctx s' [= <- _ _ <-] Hr. cbn in Hr |- *. rewrite Hr.
    repeat (apply andb_true_iff in Hr as [Hr ?]). cbn.
    destruct (s_transports (sock w)); [|done]. by apply bool_decide_eq_true in H0.
Qed.
