(* ===== verification/ClientDrain.v ===== *)
(** * A client's Send, from the call to the wire

    What one [Send] does when nothing else runs and the network works: the goroutine
    returns, and what it has put on the wire is the whole buffer, cut in chunks, in the
    encoding of the transport that is active. *)
From S2P Require Import Prelude Machine Packet Unicode Payload Framing Json Http.
From S2P Require Import ServerOptions Handshake ServerTransport ClientTransport.
From S2P Require Import ClientSocket Chunk ClientMachine ClientState.

(** One goroutine, alone, with a network that always answers the same; and one where I/O
    succeeds. *)
Definition alone_with (o : oracle) : relation config :=
  rtc (λ cfg cfg', Machine.do_act exec happen (Run 0%nat o) cfg = Some cfg').
Definition alone : relation config := alone_with calm.

#[export] Instance alone_with_preorder o : PreOrder (alone_with o).
Proof. apply _. Qed.
#[export] Instance alone_preorder : PreOrder alone.
Proof. apply _. Qed.

Lemma alone_with_step o i th others w w' push spawn cfg :
  exec o i w = Next w' push spawn →
  alone_with o (w', (push ++ th) :: others ++ spawn) cfg → alone_with o (w, (i :: th) :: others) cfg.
Proof. intros H Ha. eapply rtc_l; [|exact Ha]. cbn. by rewrite H. Qed.

Lemma alone_step i th w w' push cfg :
  exec calm i w = Next w' push [] → alone (w', [push ++ th]) cfg → alone (w, [i :: th]) cfg.
Proof. intros H Ha. by eapply alone_with_step. Qed.

(** What a transport puts on the wire for a chunk. *)
Definition carries (t : nat) (l : Transport) (chunk : list Packet) : list event :=
  match t_kind l with
  | KPolling => [request_event t (t_url l) (EncodePayload chunk)]
  | KWebSocket => (λ p, EvFrame t (client_frame p)) <$> chunk
  | KWebTransport => [EvStream t (frames_buffer chunk)]
  end.

(** A transport that is open and idle. *)
Definition ready (l : Transport) : Prop :=
  t_state l = TransportStateOpen ∧ t_writeMu l = false ∧
  (t_kind l ≠ KPolling → t_conn l = true).

Lemma unlock_eta l : t_writeMu l = false → set_t_writeMu false (set_t_writeMu true l) = l.
Proof. destruct l. cbn. by intros ->. Qed.

Lemma frames_written k t packets th w :
  t_kind (links w !!! t) = KWebSocket →
  ∃ w', alone (w, [TWrite k t packets :: th]) (w', [sent_to k None ++ th]) ∧
    sock w' = sock (sent_record k None w) ∧
    links w' !!! t = set_t_writeMu false (links w !!! t) ∧
    log w' = log w ++ ((λ p, EvFrame t (client_frame p)) <$> packets).
Proof.
  revert w. induction packets as [|p packets IH]; intros w Hk.
  - eexists. split.
    + eapply alone_step; [cbn; unfold exec_write; rewrite Hk; reflexivity|]. reflexivity.
    + rewrite app_nil_r.
      destruct k; cbn; rewrite lookup_total_insert_eq; done.
  - destruct (IH (emit (EvFrame t (client_frame p)) w)) as (w' & Ha & Hs & Hl & Hlog); [done|].
    exists w'. split_and!.
    + eapply alone_step; [cbn; unfold exec_write; rewrite Hk; reflexivity|exact Ha].
    + rewrite Hs. by destruct k.
    + done.
    + rewrite Hlog. cbn. by rewrite <- app_assoc.
Qed.

Lemma chunk_sent k t chunk th w :
  ready (links w !!! t) →
  ∃ w', alone (w, [TSend k t chunk :: th]) (w', [sent_to k None ++ th]) ∧
    sock w' = sock (sent_record k None w) ∧ links w' !!! t = links w !!! t ∧
    log w' = log w ++ carries t (links w !!! t) chunk.
Proof.
  intros (Hs & Hm & Hc). unfold carries.
  destruct (t_kind (links w !!! t)) eqn:Hk.
  - eexists. split.
    + eapply alone_step; [cbn; unfold exec_tsend, t_sends; rewrite Hs, Hk; reflexivity|].
      eapply alone_step; [reflexivity|]. reflexivity.
    + by destruct k.
  - destruct (frames_written k t chunk th (upd_t t (set_t_writeMu true) w)) as (w' & Ha & H1 & H2 & H3).
    { cbn. by rewrite lookup_total_insert_eq. }
    exists w'. split_and!.
    + eapply alone_step; [cbn; unfold exec_tsend, t_sends; rewrite Hs, Hk, Hc by done; reflexivity|].
      eapply alone_step; [cbn; unfold exec_write_lock; rewrite Hm; reflexivity|]. exact Ha.
    + rewrite H1. by destruct k.
    + rewrite H2. cbn. rewrite lookup_total_insert_eq. by apply unlock_eta.
    + by rewrite H3.
  - eexists. split.
    + eapply alone_step; [cbn; unfold exec_tsend, t_sends; rewrite Hs, Hk; reflexivity|].
      eapply alone_step; [cbn; unfold exec_stream; rewrite Hc by done; reflexivity|].
      eapply alone_step; [cbn; unfold exec_write_lock; rewrite Hm; reflexivity|].
      eapply alone_step; [cbn; unfold exec_write; cbn; rewrite lookup_total_insert_eq; cbn;
        rewrite Hk; reflexivity|]. reflexivity.
    + destruct k; cbn; rewrite !lookup_total_insert_eq, unlock_eta by done; done.
Qed.

Lemma set_handed_id s : set_s_handed (s_handed s) s = s.
Proof. by destruct s. Qed.

Lemma chunks_sent by_ t chunks th w n :
  ready (links w !!! t) → s_state (sock w) = SocketStateOpen →
  ∃ w', alone (w, [CChunks by_ t chunks n :: th])
          (w', [CFlushEnd by_ (n + length (concat chunks)) None :: th]) ∧
    sock w' = set_s_handed (s_handed (sock w) ++ concat chunks) (sock w) ∧
    links w' !!! t = links w !!! t ∧
    log w' = log w ++ concat (carries t (links w !!! t) <$> chunks).
Proof.
  revert n w. induction chunks as [|chunk chunks IH]; intros n w Hr Hs.
  - exists w. rewrite Nat.add_0_r, !app_nil_r, set_handed_id. split_and!; try done.
    eapply alone_step; [reflexivity|]. reflexivity.
  - destruct (chunk_sent (ForChunk by_ t chunk chunks n) t chunk th w Hr)
      as (w1 & Ha1 & Hs1 & Hl1 & Hg1). cbn in Ha1, Hs1. unfold record_handed in Hs1.
    case_decide; [|done].
    destruct (IH (n + length chunk)%nat w1) as (w2 & Ha2 & Hs2 & Hl2 & Hg2);
      [by rewrite Hl1|by rewrite Hs1|].
    exists w2. split_and!.
    + eapply alone_step; [reflexivity|]. etransitivity; [exact Ha1|].
      cbn [concat]. rewrite length_app, Nat.add_assoc. exact Ha2.
    + rewrite Hs2, Hs1. cbn. by rewrite <- app_assoc.
    + by rewrite Hl2.
    + rewrite Hg2, Hg1, Hl1. cbn. by rewrite <- app_assoc.
Qed.

(** [Send], and what it leaves as it was. *)
Lemma send_drained ps w t :
  s_state (sock w) = SocketStateOpen → s_upgrading (sock w) = false →
  s_flushing (sock w) = false → s_transport (sock w) = Some t → ready (links w !!! t) →
  s_writeBuffer (sock w) ++ ps ≠ [] →
  ∃ w', alone (w, [[CSend BySend ps]]) (w', [[]]) ∧
    s_writeBuffer (sock w') = [] ∧ s_flushing (sock w') = false ∧
    s_handed (sock w') = s_handed (sock w) ++ s_writeBuffer (sock w) ++ ps ∧
    log w' = log w ++
      concat (carries t (links w !!! t) <$>
              chunkPackets (s_writeBuffer (sock w) ++ ps) (s_maxPayload (sock w))) ++
      [EvSendReturns None] ∧
    s_state (sock w') = SocketStateOpen ∧ s_handlers (sock w') = s_handlers (sock w) ∧
    links w' !!! t = links w !!! t.
Proof.
  intros Hs Hu Hf Ht Hr Hn. set (all := s_writeBuffer (sock w) ++ ps) in *.
  set (chunks := chunkPackets all (s_maxPayload (sock w))).
  set (s1 := set_s_queued (s_queued (sock w) ++ ps) (set_s_writeBuffer all (sock w))).
  set (s2 := set_s_flushWG (S (s_flushWG s1)) (set_s_flushing true s1)).
  destruct (chunks_sent BySend t chunks [] (set_sock s2 w) 0) as (w3 & Ha & Hs3 & Hl3 & Hg);
    [done..|]. cbn in Hg.
  assert (concat chunks = all) as Hc by apply chunks_spec. rewrite Hc in *.
  eexists (emit _ (set_sock _ w3)). split.
  - eapply alone_step; [cbn; unfold exec_send, Send, alive; rewrite Hs; reflexivity|].
    eapply alone_step.
    { cbn. unfold exec_flush, flush_begin. cbn. rewrite Ht, Hs, Hu, Hf. fold all.
      rewrite (bool_decide_eq_false_2 (all = [])) by done. reflexivity. }
    etransitivity; [exact Ha|]. eapply alone_step.
    { cbn. unfold exec_flush_end, flush_end. rewrite Hs3. cbn. rewrite Hs.
      rewrite decide_False by (intros [_ ?]; lia). cbn.
      rewrite drop_all. cbn. rewrite !andb_false_r. reflexivity. }
    eapply alone_step; reflexivity.
  - cbn. rewrite Hg, <- app_assoc. by split_and!.
Qed.

(** C18. [Send] on an open socket that is neither upgrading nor flushing, over a transport
    that is open and idle and a network that works, returns nil with the write buffer
    empty.  What it put on the wire is the buffer with its own packets at the end, cut by
    [chunkPackets] for the server's limit and encoded for the transport: one POST per
    chunk, one WebSocket frame per packet, or one write of WebTransport frames per
    chunk. *)
Theorem client_send_drains ps w t :
  s_state (sock w) = SocketStateOpen → s_upgrading (sock w) = false →
  s_flushing (sock w) = false → s_transport (sock w) = Some t → ready (links w !!! t) →
  s_writeBuffer (sock w) ++ ps ≠ [] →
  ∃ w', alone (w, [[CSend BySend ps]]) (w', [[]]) ∧
    s_writeBuffer (sock w') = [] ∧ s_flushing (sock w') = false ∧
    s_handed (sock w') = s_handed (sock w) ++ s_writeBuffer (sock w) ++ ps ∧
    log w' = log w ++
      concat (carries t (links w !!! t) <$>
              chunkPackets (s_writeBuffer (sock w) ++ ps) (s_maxPayload (sock w))) ++
      [EvSendReturns None].
Proof.
  intros Hs Hu Hf Ht Hr Hn.
  destruct (send_drained ps w t Hs Hu Hf Ht Hr Hn) as (w' & ? & ? & ? & ? & ? & _). by exists w'.
Qed.
