(* ===== verification/ClientConnects.v ===== *)
(** * From the client's URL to the server's session

    The two sides of a connection together: the requests that the client's [resolveURL]
    leads to, what [ServeHTTP] makes of them, and what the client reads in the answer. *)
From S2P Require Import Prelude Machine Packet Unicode Payload Json Http ServerOptions.
From S2P Require Import Handshake ServerTransport ServerSocket SessionMachine SessionStore.
From S2P Require Import Server ServerRequests ClientTransport ClientSocket.

(** The request for a URL, without headers. *)
Definition asks (method : bytes) (url : URL) (body : bytes) : Request :=
  mkRequest method (str "HTTP/1.1") (URLQuery url) [] (body, None).

(** The three parameters a resolved URL carries. *)
Lemma resolveURL_params ty s url :
  resolveURL None ty s = Ok url →
  Get (str "EIO") (URLQuery url) = str "4" ∧
  Get (str "transport") (URLQuery url) = ty ∧
  Get (str "sid") (URLQuery url) =
    (if decide (s_sessionID s = []) then Get (str "sid") (URLQuery (s_url s)) else s_sessionID s).
Proof.
  cbn. intros [= <-]. cbn. case_decide;
    rewrite ?(Get_Set_ne (str "EIO") (str "sid")), ?(Get_Set_ne (str "transport") (str "sid")),
      ?(Get_Set_ne (str "EIO") (str "transport")), ?(Get_Set_ne (str "sid") (str "transport")),
      ?(Get_Set_ne (str "sid") (str "EIO")), ?Get_Set by (vm_compute; discriminate);
    split_and!; reflexivity.
Qed.

Section connects.
Context {A : Type}.
Variable Accept : AcceptOptions → Request → ResponseWriter → bool * ResponseWriter.

(** A version 4 request that is neither preflight nor CONNECT gets to its transport. *)
Lemma ServeHTTP_dispatches (sv : Server A) random r :
  Method r ≠ MethodOptions → Method r ≠ MethodConnect →
  Get (str "EIO") (Query r) = str "4" →
  allowsTransport (s_options sv) (Get (str "transport") (Query r)) = true →
  ∃ w, unstarted w ∧
    let sid := Get (str "sid") (Query r) in
    (Get (str "transport") (Query r) = TransportTypePolling →
     ServeHTTP Accept sv random r response0 = handlePolling sv random r sid w) ∧
    (Get (str "transport") (Query r) = TransportTypeWebSocket →
     ServeHTTP Accept sv random r response0 = handleWebSocket Accept sv random r sid w).
Proof.
  intros Hm Hc He Ht. pose proof (applyCORS_handled (s_options sv) r response0) as Hh.
  rewrite bool_decide_eq_false_2 in Hh by done.
  pose proof (applyCORS_unstarted (s_options sv) r response0 (conj eq_refl eq_refl) Hh) as Hu.
  unfold ServeHTTP. destruct (applyCORS (s_options sv) r response0) as [h w]. cbn in Hh, Hu. subst h.
  exists w. split; [done|]. rewrite (decide_False (P := _ ∧ _)) by tauto.
  rewrite decide_False by tauto. rewrite Ht. cbn [negb].
  split; intros ->; by rewrite ?decide_False, ?decide_True by done.
Qed.

Lemma setSessionCookie_unstarted c id w : unstarted w → unstarted (setSessionCookie c id w).
Proof.
  unfold setSessionCookie, SetCookie. repeat case_match; try done; apply header_op_unstarted.
Qed.

Lemma handleHandshake_spec c random r w :
  unstarted w → gate c r →
  let id := generateID c random r in
  let rp := handleHandshake (A := A) c random r w in
  follows rp = StartSession KPolling id (buildOpenPacket c id true) ∧
  rw_status (response rp) = Some StatusOK ∧
  rw_body (response rp) = EncodePayload [buildOpenPacket c id true].
Proof.
  intros Hw Hg. unfold handleHandshake, gate, allowHandshake in *.
  assert (unstarted (writePollHeaders (setSessionCookie c (generateID c random r) w))) as [H1 H2].
  { by repeat apply header_op_unstarted; apply setSessionCookie_unstarted. }
  destruct (allowRequest c); [rewrite Hg|]; cbn -[writePollHeaders EncodePayload buildOpenPacket];
    unfold Write, WriteHeader; rewrite H1; cbn -[writePollHeaders EncodePayload buildOpenPacket];
    by rewrite H2.
Qed.
End connects.

Lemma milliseconds_range a :
  - 2 ^ 63 <= a <= int64_max → wrap64 (Z.quot a Millisecond * Millisecond) = Z.quot a Millisecond * Millisecond.
Proof. intros H. apply wrap64_small. unfold int64_max, Millisecond in *. zlia. Qed.

(** The session's requests: a URL that was resolved with the session's identifier leads to
    that session. *)
Lemma session_reached {A} Accept (sv : Server A) random s ty url method body x :
  resolveURL None ty s = Ok url → s_sessionID s ≠ [] →
  get (s_sessionID s) (s_sessions sv) = Some x → allowsTransport (s_options sv) ty = true →
  method ≠ MethodOptions → method ≠ MethodConnect →
  let r := asks method url body in
  let rp := ServeHTTP Accept sv random r response0 in
  (ty = TransportTypePolling → method = MethodGet → follows rp = ToSession x PollArrives) ∧
  (ty = TransportTypePolling → method = MethodPost →
   ∃ w, unstarted w ∧ rp = handleSend (s_options sv) r x w) ∧
  (ty = TransportTypeWebSocket → (∀ o w, (Accept o r w).1 = true) →
   follows rp = ToSession x (UpgradeArrives KWebSocket)).
Proof.
  intros Hurl Hid Hx Ht Hm Hc r rp.
  destruct (resolveURL_params ty s url Hurl) as (He & Hty & Hsid).
  rewrite decide_False in Hsid by done.
  destruct (ServeHTTP_dispatches Accept sv random r) as (w & Hw & Hp & Hws);
    [done|done|done|by change (Query r) with (URLQuery url); rewrite Hty|].
  change (Query r) with (URLQuery url) in Hp, Hws. rewrite Hty, Hsid in Hp, Hws. subst rp. split_and!.
  - intros H1 H2. rewrite Hp by done. unfold handlePolling.
    rewrite decide_False by done. rewrite Hx. by rewrite decide_True.
  - intros H1 H2. exists w. split; [done|]. rewrite Hp by done. unfold handlePolling.
    rewrite decide_False by done. rewrite Hx. rewrite decide_False by (cbn; by rewrite H2).
    by rewrite decide_True.
  - intros H1 H2. rewrite Hws by done. unfold handleWebSocket, handleWebSocketUpgrade.
    destruct (decide (s_sessionID s = [])); [done|].
    specialize (H2 (acceptOptions (s_options sv)) w). destruct (Accept _ r w) as [b w'].
    cbn in H2. subst b. cbn [negb]. rewrite Hx. done.
Qed.

