(* ===== verification/ClientConfigured.v ===== *)
(** * A client stays within its configuration

    The transports a client makes are of the types it was configured with, whatever the
    server offers and however connections fail; and a client with upgrades turned off never
    probes.  The examples polling-only and websocket-only rest on it. *)
From S2P Require Import Prelude Machine Packet Unicode Payload Framing Json Http.
From S2P Require Import ServerOptions Handshake ServerTransport ClientTransport.
From S2P Require Import ClientSocket Chunk ClientMachine ClientState.

(** The transport types an instruction may go on to make. *)
Definition types_token (i : instr) : list TransportType :=
  match i with
  | CCreate ty => [ty]
  | CProbe ty _ trs | CProbeCreate ty _ trs => ty :: trs
  | CProbeNext _ trs | CProbeWait _ _ trs | CSessionURL _ _ trs _ | CProbeUpgrades _ trs _ => trs
  | _ => []
  end.
#[export] Instance types_boring : Boring types_token.
Proof. by intros []. Qed.
#[export] Instance types_plain : Plain types_token.
Proof. by intros []. Qed.

(** A part of a probe, or something that leads to one. *)
Definition probe_sender (k : sender) : bool :=
  match k with ForProbePing _ | ForUpgrade _ _ => true | _ => false end.
Definition probing (i : instr) : bool :=
  match i with
  | CSessionURL _ _ _ upgrade | CProbeUpgrades _ _ upgrade => upgrade
  | CReportUpgrade _ | CCallUpgrade _ | CProbeNext _ _ | CProbe _ _ _ | CProbeCreate _ _ _
  | CProbeWait _ _ _ | CSignal _ _ | CUpgrade _ | CUpgradeWait _ _ | CUpgradeFailed _ _ _
  | CAdopt _ | TSet _ _ (Some OfProbe) => true
  | _ => match sender_of i with Some k => probe_sender k | None => false end
  end.
Definition probe_token (i : instr) : list unit := if probing i then [tt] else [].
#[export] Instance probe_boring : Boring probe_token.
Proof. by intros []. Qed.
#[export] Instance probe_plain : Plain probe_token.
Proof. by intros []. Qed.

(** Every registered constructor makes transports of its own type. *)
Definition constructors_ok (s : Socket) : Prop :=
  ∀ ty k url l, s_constructors s !! ty = Some k → construct k url = Ok l →
    kind_type (t_kind l) = ty.

(** ** The configuration does not change *)

Lemma effect_config i w s :
  s_config (effect i w s) = s_config s ∧ s_constructors (effect i w s) = s_constructors s ∧
  s_transports (effect i w s) `suffix_of` s_transports s.
Proof.
  destruct i; sock_norm; try (by split_and!); split_and!; try done.
  all: destruct (s_transports _); [done|]; by eexists [_].
Qed.

Lemma exec_config o i w w' push spawn :
  exec o i w = Next w' push spawn →
  s_config (sock w') = s_config (sock w) ∧ s_constructors (sock w') = s_constructors (sock w) ∧
  s_transports (sock w') `suffix_of` s_transports (sock w).
Proof.
  intros [-> | (chunk & _ & ->)]%client_effect; [apply effect_config|].
  unfold record_handed. by case_decide.
Qed.

(** ** The transports that are made *)

Definition makes (i : instr) : bool :=
  match i with CCreate _ | CProbeCreate _ _ _ => true | _ => false end.

Lemma exec_next_same o i w w' push spawn :
  exec o i w = Next w' push spawn → makes i = false → nextTransport w' = nextTransport w.
Proof.
  intros H Hm. destruct i; try done; exec_cases H; try done;
    match goal with |- context [sent_record ?k ?e _] => destruct k, e; done end.
Qed.

Lemma exec_makes o i w w' push spawn :
  exec o i w = Next w' push spawn → makes i = true →
  links w' = links w ∨
  ∃ ty k url l, ty ∈ types_token i ∧ s_constructors (sock w) !! ty = Some k ∧
    construct k url = Ok l ∧ links w' = <[nextTransport w := l]> (links w).
Proof.
  intros H Hm. destruct i; try done; exec_cases H; auto; right.
  - unfold make_transport in *.
    repeat match goal with E : res_bind _ _ = Ok _ |- _ => apply res_bind_Ok in E as (? & ? & ?) end.
    unfold constructorFor in *. case_match; simplify_eq. eexists _, _, _, _. split_and!; [by left|done..].
  - repeat match goal with E : res_bind _ _ = Ok _ |- _ => apply res_bind_Ok in E as (? & ? & ?) end.
    unfold constructorFor in *. case_match; simplify_eq.
    match goal with E : res_wrap _ _ = Ok _ |- _ => apply res_wrap_Ok in E end.
    eexists _, _, _, _. split_and!; [by left|done..].
Qed.

Lemma link_step_kind i l l' : link_step i l l' → t_kind l' = t_kind l.
Proof.
  destruct i; cbn; try done; try (by intros ->); try (by intros [_ ->]).
  - intros ->. by destruct x.
  - unfold t_beginOpen. intros ->. by case_decide.
  - unfold t_onClose. intros ->. by case_decide.
  - unfold t_beginClose. intros ->. by case_decide.
  - unfold beginPause. intros ->. by case_match.
Qed.

(** Every transport is of an allowed type, and so is every one still to be made. *)
Definition allowed (w : World) (ty : TransportType) : Prop :=
  ty ∈ cfg_transports (s_config (sock w)).

Record conf_ok (w : World) (P : list instr) : Prop := {
  co_transports : s_transports (sock w) `suffix_of` cfg_transports (s_config (sock w));
  co_pending : Forall (allowed w) (gather types_token P);
  co_links : constructors_ok (sock w) →
    ∀ t l, links w !! t = Some l → allowed w (kind_type (t_kind l));
}.

#[export] Instance conf_ok_multiset : Multiset conf_ok.
Proof. intros w P Q HPQ. by split; intros []; split; rewrite ?HPQ in *. Qed.

Lemma selectTransport_in s ty : selectTransport s = Some ty → ty ∈ s_transports s.
Proof.
  unfold selectTransport. destruct (s_transports s) as [|t ts] eqn:E; [done|].
  destruct (_ && _) eqn:Hb; intros [= <-]; [|by left].
  apply andb_true_iff in Hb as [_ Hb]. by apply bool_decide_eq_true in Hb.
Qed.

Lemma types_sent_to k err : gather types_token (sent_to k err) = [].
Proof. destruct k as [| |? []| |], err; done. Qed.

Lemma exec_types o i w w' push spawn ty :
  exec o i w = Next w' push spawn → ty ∈ gather types_token (push ++ concat spawn) →
  ty ∈ types_token i ∨ ty ∈ s_transports (sock w).
Proof.
  intros H. destruct i; exec_cases H; try tokens; cbn -[elem_of];
    rewrite ?types_sent_to; try set_solver.
  intros ->%list_elem_of_singleton. right. by apply selectTransport_in.
Qed.

Lemma conf_ok_exec o i w w' push spawn P :
  exec o i w = Next w' push spawn → inv_refs w (i :: P) → conf_ok w (i :: P) →
  conf_ok w' (push ++ concat spawn ++ P).
Proof.
  intros H (Hr & _ & Hkn) [Ht Hp Hl]. destruct (exec_config _ _ _ _ _ _ H) as (Hc & Hk & Hs).
  rewrite gather_cons in Hp. rewrite gather_cons in Hr.
  apply Forall_app in Hp as [Hi HP]. apply Forall_app in Hr as [Hr _].
  assert (∀ ty, allowed w ty → allowed w' ty) as Ha by (intros ty; unfold allowed; by rewrite Hc).
  split.
  - rewrite Hc. by etransitivity.
  - rewrite app_assoc, gather_app. apply Forall_app. split; [|exact (Forall_impl _ Ha HP)].
    apply Forall_forall. intros ty Hty%list_elem_of_In. apply Ha.
    destruct (exec_types _ _ _ _ _ _ _ H Hty) as [Hin|Hin].
    + rewrite Forall_forall in Hi. by apply Hi, list_elem_of_In.
    + destruct Ht as [k Ht]. unfold allowed. rewrite Ht. apply elem_of_app. by right.
  - intros Hok t l Hlk. apply Ha.
    assert (constructors_ok (sock w)) as Hok' by (unfold constructors_ok; by rewrite <- Hk).
    specialize (Hl Hok'). destruct (makes i) eqn:Hm.
    + destruct (exec_makes _ _ _ _ _ _ H Hm)
        as [He|(ty & k & url & l' & Hin & Hco & Hnew & Hw)]; [rewrite He in Hlk; eauto|].
      rewrite Hw, lookup_insert_Some in Hlk. destruct Hlk as [[_ ->]|[_ ?]]; [|eauto].
      rewrite (Hok' ty k url l Hco Hnew). rewrite Forall_forall in Hi. by apply Hi, list_elem_of_In.
    + pose proof (exec_next_same _ _ _ _ _ _ H Hm) as Hn.
      destruct (client_links _ _ _ _ _ _ H) as [(? & _ & _ & ?)|(_ & [He|(a & l' & Hin & Hw & Hst)])];
        [lia|rewrite He in Hlk; eauto|].
      rewrite Hw, lookup_insert_Some in Hlk. destruct Hlk as [[<- <-]|[_ ?]]; [|eauto].
      rewrite (link_step_kind _ _ _ Hst). rewrite Forall_forall in Hr.
      assert (known w a) as [l0 Hl0]%Hkn by (by apply Hr, list_elem_of_In).
      rewrite (lookup_total_correct _ _ _ Hl0). eauto.
Qed.

Lemma conf_ok_inductive : preserved_under exec happen inv_refs conf_ok.
Proof.
  split; [intros; by eapply conf_ok_exec|].
  intros [id|calls] P w w' thread H _ [Ht Hp Hl]; cbn in H; [case_match|]; simplify_eq.
  - done.
  - split; [done| |done]. by rewrite gather_app, gather_calls by apply _.
Qed.

Lemma always_configured : always conf_ok.
Proof.
  refine (client_intro _ _ client_refs _ conf_ok_inductive).
  intros s (url & options & [= <-]). split; cbn; [done|constructor|].
  intros _ t l. by rewrite lookup_empty.
Qed.

(** ** Without upgrades *)

Definition unprobed (l : Transport) : Prop :=
  t_onOpenHandler l ≠ Some OfProbe ∧ t_onCloseHandler l ≠ Some OfProbe ∧
  t_onPacketHandler l ≠ Some OfProbe ∧ t_onErrorHandler l ≠ Some OfProbe.

Lemma link_step_unprobed i l l' : link_step i l l' → probing i = false → unprobed l → unprobed l'.
Proof.
  unfold unprobed. destruct i; cbn; try done; try (by intros ->); try (by intros [_ ->]).
  - intros ->. destruct h as [[]|], x; naive_solver.
  - unfold t_beginOpen. intros ->. by case_decide.
  - unfold t_onClose. intros ->. by case_decide.
  - unfold t_beginClose. intros ->. by case_decide.
  - unfold beginPause. intros ->. by case_match.
Qed.

Lemma probe_sent_to k err : probe_sender k = false → gather probe_token (sent_to k err) = [].
Proof. by destruct k, err. Qed.

Lemma exec_probing o i w w' push spawn :
  exec o i w = Next w' push spawn → probing i = false →
  cfg_upgrade (s_config (sock w)) = false → (∀ t, unprobed (links w !!! t)) →
  gather probe_token (push ++ concat spawn) = [] ∧
  (s_upgrading (sock w) = false → s_upgrading (sock w') = false).
Proof.
  intros H Hp Hu Hl. split.
  - destruct i; try done; exec_cases H; try tokens; try (cbn in Hp);
      rewrite ?probe_sent_to by done; try done; unfold probe_token; cbn; rewrite ?Hu, ?Hp; try done.
    all: exfalso; destruct (Hl t) as (? & ? & ? & ?);
      unfold t_onOpen, t_onClose in *; repeat case_decide; simplify_eq; done.
  - apply client_effect in H as [-> | (chunk & _ & ->)]; [|by unfold record_handed; case_decide].
    destruct i; try done; by sock_norm.
Qed.

(** A client with upgrades turned off has no probe, anywhere. *)
Definition no_probe : invariant := λ w P,
  cfg_upgrade (s_config (sock w)) = false →
  gather probe_token P = [] ∧ s_upgrading (sock w) = false ∧ ∀ t, unprobed (links w !!! t).

#[export] Instance no_probe_multiset : Multiset no_probe.
Proof.
  intros w P Q HPQ. unfold no_probe.
  assert (gather probe_token P = [] ↔ gather probe_token Q = []) as ->; [|done].
  split; intros H; apply Permutation_nil; by rewrite <- H, HPQ.
Qed.

Lemma insert_unprobed (ls : gmap nat Transport) t l a :
  unprobed l → unprobed (ls !!! a) → unprobed (<[t := l]> ls !!! a).
Proof.
  intros Hl Ha. destruct (decide (t = a)) as [->|].
  - by rewrite lookup_total_insert_eq.
  - by rewrite lookup_total_insert_ne.
Qed.

Lemma no_probe_inductive : preserved_under exec happen inv_true no_probe.
Proof.
  split.
  - intros o i P w w' push spawn H _ HK Hc. rewrite (proj1 (exec_config _ _ _ _ _ _ H)) in Hc.
    destruct (HK Hc) as (Hp & Hu & Hl). rewrite gather_cons in Hp. apply app_eq_nil in Hp as [Hi HP].
    assert (probing i = false) as Hi' by (unfold probe_token in Hi; by destruct (probing i)).
    destruct (exec_probing _ _ _ _ _ _ H Hi' Hc Hl) as [Hnew Hup].
    split_and!; [by rewrite app_assoc, gather_app, Hnew, HP|by apply Hup|]. intros a.
    destruct (client_links _ _ _ _ _ _ H)
      as [(l & (k & url & ->) & -> & _)|(_ & [->|(t & l & _ & -> & Hst)])]; [|done|];
      apply insert_unprobed; try done. by eapply link_step_unprobed.
  - intros [id|calls] P w w' thread H _ HK Hc; cbn in H; [case_match|]; simplify_eq.
    + by apply HK.
    + destruct (HK Hc) as (Hp & Hu & Hl). by rewrite gather_app, gather_calls by apply _.
Qed.

Lemma always_no_probe : always no_probe.
Proof.
  refine (client_intro _ _ client_true _ no_probe_inductive).
  intros s (url & options & [= <-]) _. split_and!; [done..|]. intros t. cbn.
  by rewrite lookup_total_empty.
Qed.

(** ** Properties *)

Lemma config_kept s w ts :
  reachable s (w, ts) →
  s_config (sock w) = s_config s ∧ s_constructors (sock w) = s_constructors s.
Proof.
  intros [_ Hr]. change w with (w, ts).1. revert Hr.
  apply (rtc_ind_r (λ cfg, s_config (sock cfg.1) = s_config s ∧
                           s_constructors (sock cfg.1) = s_constructors s)); [done|].
  intros [w1 ts1] [w2 ts2] _ Hs [H1 H2]. cbn in *.
  inversion Hs as [o l1 i rest l2 ? ? push spawn He|[id|calls] ? ? ? th Ha]; subst; cbn in *.
  - destruct (exec_config _ _ _ _ _ _ He) as (-> & -> & _). done.
  - by case_match; simplify_eq.
  - by simplify_eq.
Qed.

(** C35. A client stays within its configuration, whatever the server offers and however its
    connections fail: every transport it ever makes is of one of the types it was given;
    and with upgrades turned off no goroutine ever probes and the socket never upgrades. *)
Theorem client_configured s w ts :
  reachable s (w, ts) → constructors_ok s →
  (∀ t l, links w !! t = Some l → kind_type (t_kind l) ∈ cfg_transports (s_config s)) ∧
  (cfg_upgrade (s_config s) = false →
   s_upgrading (sock w) = false ∧ ∀ i, i ∈ concat ts → probing i = false).
Proof.
  intros Hr Hok. destruct (config_kept s w ts Hr) as [Hc Hk]. rewrite <- Hc. split.
  - apply (co_links _ _ (always_configured s w ts Hr)). unfold constructors_ok. by rewrite Hk.
  - intros Hu. destruct (always_no_probe s w ts Hr Hu) as (Hp & H & _). split; [done|].
    intros i Hi. destruct (probing i) eqn:E; [|done].
    assert (tt ∈ gather probe_token (concat ts)) as Hin.
    { eapply gather_in; [exact Hi|]. unfold probe_token. rewrite E. by left. }
    rewrite Hp in Hin. by apply not_elem_of_nil in Hin.
Qed.

(** ** The clients of examples/polling-only and examples/websocket-only *)

Definition polling_only_options : list SocketOption :=
  [WithTransports [TransportTypePolling]; WithUpgrade false].
Definition websocket_only_options : list SocketOption :=
  [WithTransports [TransportTypeWebSocket]; WithUpgrade false].

Lemma registry_ok url options s :
  NewSocket (Ok url) options = Ok s → cfg_webTransportConstructor (s_config s) = None →
  constructors_ok s.
Proof.
  intros [= <-] Hn ty k u l. cbn in *. rewrite Hn. unfold Transports.
  rewrite !lookup_insert_Some, lookup_empty.
  intros [[<- <-]|[_ [[<- <-]|[_ [=]]]]] H; cbn in H; by simplify_eq.
Qed.

(** Every transport of the one is polling, of the other WebSocket. *)
Lemma one_type_only url options ty s w ts t l :
  options = polling_only_options ∧ ty = TransportTypePolling ∨
  options = websocket_only_options ∧ ty = TransportTypeWebSocket →
  NewSocket (Ok url) options = Ok s → reachable s (w, ts) → links w !! t = Some l →
  kind_type (t_kind l) = ty.
Proof.
  intros Ho Hs Hr Hl. pose proof (co_links _ _ (always_configured s w ts Hr)) as Hco.
  destruct (config_kept s w ts Hr) as [Hc Hk]. unfold allowed, constructors_ok in Hco.
  rewrite Hc, Hk in Hco.
  assert (constructors_ok s) as Hok.
  { apply (registry_ok _ _ _ Hs). by destruct Ho as [[-> ->]|[-> ->]]; injection Hs as <-. }
  specialize (Hco Hok t l Hl).
  destruct Ho as [[-> ->]|[-> ->]]; injection Hs as <-; by apply list_elem_of_singleton in Hco.
Qed.
