(* ===== verification/ClientReceive.v ===== *)
(** * From the server's session to the client's handlers

    The way down: a poll response that the server writes, and what the client's poll
    goroutine makes of it when nothing else runs. *)
From S2P Require Import Prelude Machine Packet Unicode Payload Framing Json Http.
From S2P Require Import ServerOptions ServerTransport ServerSocket SessionMachine SessionStore.
From S2P Require Import Handshake Server ServerRequests ClientTransport ClientSocket Chunk.
From S2P Require Import ClientMachine ClientState ClientDrain.

(** The application's handlers that a message reaches, in the order they are called. *)
Definition heard (hs : handlers) (p : Packet) : list event :=
  opt (λ h, EvMessage h (Data p) (IsBinary p)) (onMessageHandler hs) ++
  opt (λ h, EvPacket h p) (onPacketHandler hs).

(** An open socket on an open transport that is bound to it. *)
Definition listening (t : nat) (w : World) : Prop :=
  s_state (sock w) = SocketStateOpen ∧ t_state (links w !!! t) = TransportStateOpen ∧
  t_onPacketHandler (links w !!! t) = Some OfSocket.

Lemma reschedule_same s :
  s_state (reschedulePingTimeout s) = s_state s ∧
  s_handlers (reschedulePingTimeout s) = s_handlers s.
Proof. unfold reschedulePingTimeout. by destruct (_ <=? 0). Qed.

Lemma call_quiet o h e w :
  o_calls o = [] → call o h e w = Next (match h with Some h => emit (e h) w | None => w end) [] [].
Proof. unfold call. intros ->. by destruct h. Qed.

Lemma packet_heard o t p th others w :
  o_calls o = [] → listening t w → PType p = PacketMessage →
  ∃ w', alone_with o (w, (TDataPacket t p :: th) :: others) (w', th :: others) ∧
    listening t w' ∧ links w' = links w ∧ s_handlers (sock w') = s_handlers (sock w) ∧
    log w' = log w ++ heard (s_handlers (sock w)) p.
Proof.
  intros Ho (Hs & Hl & Hh) Hp. set (s := sock w) in *.
  destruct (reschedule_same s) as [Hs1 Hh1].
  eexists. split.
  - eapply alone_with_step.
    { cbn. unfold exec_data_packet, data_packet. rewrite Hl, Hp, !decide_False by naive_solver.
      reflexivity. }
    eapply alone_with_step; [cbn; unfold exec_tpacket; rewrite Hh; reflexivity|].
    eapply alone_with_step.
    { cbn. unfold exec_socket_packet. fold s. rewrite Hs, decide_False by done. reflexivity. }
    eapply alone_with_step; [reflexivity|].
    eapply alone_with_step; [cbn; unfold exec_handle; rewrite Hp; reflexivity|].
    eapply alone_with_step; [cbn; by rewrite call_quiet|].
    eapply alone_with_step; [cbn; by rewrite call_quiet|].
    rewrite !app_nil_r. reflexivity.
  - unfold listening, heard, handler_for. cbn. fold s.
    destruct (onMessageHandler (s_handlers (reschedulePingTimeout s))) eqn:E1; cbn;
      destruct (onPacketHandler (s_handlers (reschedulePingTimeout s))) eqn:E2; cbn;
      rewrite <- Hh1, E1, E2, Hs1; cbn; rewrite ?app_nil_r, <- ?app_assoc;
      by split_and!.
Qed.

Lemma packets_heard o t ps th others w :
  o_calls o = [] → listening t w → Forall (λ p, PType p = PacketMessage) ps →
  ∃ w', alone_with o (w, ((TDataPacket t <$> ps) ++ th) :: others) (w', th :: others) ∧
    listening t w' ∧ links w' = links w ∧ s_handlers (sock w') = s_handlers (sock w) ∧
    log w' = log w ++ concat (heard (s_handlers (sock w)) <$> ps).
Proof.
  intros Ho Hw Hp. revert w Hw. induction Hp as [|p ps Hp _ IH]; intros w Hw.
  { exists w. rewrite app_nil_r. by split_and!. }
  destruct (packet_heard o t p ((TDataPacket t <$> ps) ++ th) others w Ho Hw Hp)
    as (w1 & Ha1 & Hw1 & Hl1 & Hh1 & Hg1).
  destruct (IH w1 Hw1) as (w2 & Ha2 & Hw2 & Hl2 & Hh2 & Hg2).
  exists w2. split_and!; [by etransitivity|done|congruence|congruence|].
  rewrite Hg2, Hg1, Hh1. cbn. by rewrite <- app_assoc.
Qed.

(** What the client's HTTP client returns for a poll that the server answered with [w]. *)
Definition polled (gunzip : bytes → bytes) (w : ResponseWriter) : oracle :=
  mkOracle None false None (HTTPResponse (default StatusOK (rw_status w)) (client_body gunzip w) None)
    (ReadError (EForeign 0)) [].

(** A poll that is answered with messages. *)
Lemma poll_heard gzip gunzip c r ps w t :
  (∀ data, gunzip (gzip data) = data) → ps ≠ [] →
  Forall (λ p, well_formed p = true) ps → Forall (λ p, separator_free p = true) ps →
  Forall (λ p, PType p = PacketMessage) ps → listening t w →
  let o := polled gunzip (writePollResponse gzip c r (EncodePayload ps) response0) in
  ∃ w', alone_with o (w, [[TRequest t]]) (w', [[]; [TPoll t]]) ∧
    listening t w' ∧ t_pollMu (links w' !!! t) = false ∧
    log w' = log w ++ [EvPoll t (t_url (links w !!! t))] ++
             concat (heard (s_handlers (sock w)) <$> ps) ∧
    s_handlers (sock w') = s_handlers (sock w).
Proof.
  intros Hg H1 H2 H3 H4 (Hs & Hl & Hh) o.
  destruct (poll_response_spec gzip gunzip c r ps response0 Hg H1 H2 H3) as (Hst & Hd & _);
    [done|done|].
  set (body := client_body gunzip _) in Hd.
  assert (body ≠ []) as Hb by (intros E; rewrite E in Hd; vm_compute in Hd; congruence).
  set (l := links w !!! t) in *.
  set (w1 := upd_t t (λ l, set_t_pollMu false (set_t_pollWG (S (t_pollWG l)) l))
               (emit (EvPoll t (t_url l)) w)).
  destruct (packets_heard o t ps [TDataNext t; TPollDone t] [] w1) as (w2 & Ha & Hw2 & Hl2 & Hh2 & Hg2);
    [done|by unfold listening; cbn; rewrite lookup_total_insert_eq|done|].
  exists (upd_t t (λ l, set_t_pollWG (pred (t_pollWG l)) l) w2). split_and!.
  - eapply alone_with_step.
    { cbn. unfold exec_request, request_event, poll_outcome. cbn [o polled o_http].
      rewrite Hst, decide_True, decide_False, decide_False by (done || tauto). reflexivity. }
    eapply alone_with_step; [cbn [exec]; unfold exec_data; fold body; rewrite Hd; reflexivity|].
    rewrite <- app_assoc. etransitivity; [exact Ha|]. destruct Hw2 as (_ & Ho & _).
    eapply alone_with_step; [cbn; unfold exec_data_next; rewrite Ho; reflexivity|].
    eapply alone_with_step; reflexivity.
  - destruct Hw2 as (Hs2 & Ho2 & Hh2'). unfold listening. cbn.
    by rewrite lookup_total_insert_eq.
  - cbn. rewrite lookup_total_insert_eq, Hl2. cbn. by rewrite lookup_total_insert_eq.
  - cbn. rewrite Hg2. cbn. by rewrite <- app_assoc.
  - done.
Qed.

(** What the server writes to a held poll is what the client's application hears.  When
    a poll is answered with messages, compressed or not, the goroutine that polled calls
    the message and packet handlers with each of them, in order and once, starts the next
    poll, and ends with the poll lock free. *)
Theorem download_end_to_end gzip gunzip c r ps w t :
  (∀ data, gunzip (gzip data) = data) → ps ≠ [] →
  Forall (λ p, well_formed p = true) ps → Forall (λ p, separator_free p = true) ps →
  Forall (λ p, PType p = PacketMessage) ps → listening t w →
  let o := polled gunzip (writePollResponse gzip c r (EncodePayload ps) response0) in
  ∃ w', alone_with o (w, [[TRequest t]]) (w', [[]; [TPoll t]]) ∧
    listening t w' ∧ t_pollMu (links w' !!! t) = false ∧
    log w' = log w ++ [EvPoll t (t_url (links w !!! t))] ++
             concat (heard (s_handlers (sock w)) <$> ps).
Proof.
  intros Hg H1 H2 H3 H4 Hw.
  destruct (poll_heard gzip gunzip c r ps w t Hg H1 H2 H3 H4 Hw) as (w' & ? & ? & ? & ? & _).
  by exists w'.
Qed.
