(* ===== verification/ClientEcho.v ===== *)
(** * A message there and back

    The whole way of a message over polling, through both machines: from the client's [Send]
    to the POST, through the request handler to the session, through an echo application
    and the session's flush to the held poll, through the response writer and back to the
    client's handlers. *)
From S2P Require Import Prelude Machine Packet Payload Http ServerOptions ServerTransport.
From S2P Require Import ServerSocket SessionMachine SessionStore Echo Server ServerRequests.
From S2P Require Import Chunk ClientTransport ClientSocket ClientMachine ClientState.
From S2P Require Import ClientDrain ClientReceive.

(** An open client whose transport polls, with nothing to send. *)
Record connected (w : World) (t : nat) (limit : Z) : Prop := {
  cn_upgrading : s_upgrading (sock w) = false;
  cn_flushing : s_flushing (sock w) = false;
  cn_transport : s_transport (sock w) = Some t;
  cn_buffer : s_writeBuffer (sock w) = [];
  cn_limit : s_maxPayload (sock w) = limit;
  cn_kind : t_kind (links w !!! t) = KPolling;
  cn_ready : ready (links w !!! t);
  cn_listening : listening t w;
}.

