(* ===== verification/ClientRuns.v ===== *)
(** * Sample runs of the client

    The client run by explicit schedules.  They reach the states the client theorems speak
    of, and show behaviours that the sources do not mean. *)
From S2P Require Import Prelude Machine Packet Unicode Payload Framing Json Http.
From S2P Require Import ServerOptions Handshake ServerTransport ServerSocket SessionMachine.
From S2P Require Import SessionStore Server ClientTransport ClientSocket Chunk ClientMachine.
From S2P Require Import ClientState ClientLocks ClientFlush ClientUpgrade ClientDrain.
From S2P Require Import ClientConnects ServerRequests ClientReceive Echo ClientEcho.
From S2P Require Import ClientConfigured.

Definition target : URL := mkURL (str "http") (str "//host/engine.io/") [].

(** What [NewSocket] returns, which is a socket. *)
Definition new_socket (options : list SocketOption) : Socket :=
  match NewSocket (Ok target) options as r return match r with Ok _ => Socket | _ => unit end with
  | Ok s => s
  | _ => tt
  end.
Lemma new_socket_fresh options : fresh_socket (new_socket options).
Proof. by exists target, options. Qed.

(** Oracles: a poll answered with packets, and a WebSocket message. *)
Definition answers (ps : list Packet) : oracle :=
  mkOracle None false None (HTTPResponse StatusOK (EncodePayload ps) None)
    (ReadError (EForeign 0)) [].
Definition receives (p : Packet) : oracle :=
  mkOracle None false None (HTTPResponse StatusOK [] None)
    (ReadMessage (client_frame p).1 (client_frame p).2) [].

Definition open_packet : Packet := buildOpenPacket defaultServerConfig (str "abc") true.
Definition msg (s : string) : Packet := text_packet PacketMessage (str s).
Definition go (thread steps : nat) (o : oracle) : list act := replicate steps (Run thread o).
Definition app (calls : list api) : list act := [Ext (AppCalls calls)].

(** A run from a new socket. *)
Definition after (s : Socket) (acts : list act) : config := default (init s) (run acts (init s)).

Definition ran (x : option config) : bool := match x with Some _ => true | None => false end.

Lemma client_after_reachable options acts :
  ran (run acts (init (new_socket options))) = true →
  reachable (new_socket options)
    ((after (new_socket options) acts).1, (after (new_socket options) acts).2).
Proof.
  intros H. split; [apply new_socket_fresh|]. unfold after.
  destruct (run acts (init (new_socket options))) as [[w ts]|] eqn:E; [|done].
  by eapply run_steps.
Qed.

Definition orderly_after (s : Socket) (acts : list act) : config :=
  default (init s) (orderly_run acts (init s)).

Lemma client_after_orderly options acts :
  ran (orderly_run acts (init (new_socket options))) = true →
  orderly (new_socket options)
    ((orderly_after (new_socket options) acts).1, (orderly_after (new_socket options) acts).2).
Proof.
  intros H. split; [apply new_socket_fresh|]. unfold orderly_after.
  destruct (orderly_run acts (init (new_socket options))) as [[w ts]|] eqn:E; [|done].
  by eapply run_steps.
Qed.

(** ** Schedules *)

(** The connection is opened over polling; goroutine 1 polls on. *)
Definition connects : list act :=
  app [ApiOn OnClose (Some 7%nat); ApiOpen 0] ++ go 0 10 calm ++
  go 0 10 (answers [open_packet]) ++ go 0 8 calm.

(** The same with upgrades: goroutine 1 probes, goroutine 2 polls on, and goroutine 3
    reads the pong from the probe's connection and begins to commit. *)
Definition commits : list act :=
  connects ++ go 1 17 calm ++ go 3 2 (receives (text_packet PacketPong (str "probe"))) ++
  go 3 6 calm.

(** The first poll fails, and the socket falls back to WebSocket. *)
Definition falls_back : list act :=
  app [ApiOpen 0] ++ go 0 9 calm ++
  [Run 0%nat (mkOracle None false None (HTTPError (EForeign 1)) (ReadError (EForeign 0)) [])] ++
  go 0 4 calm.

(** Two packets are sent, up to the end of the POST. *)
Definition sends : list act := connects ++ app [ApiSend [msg "a"; msg "b"]] ++ go 2 6 calm.

(** The application closes the socket and opens it again, and the server answers. *)
Definition reopens : list act :=
  sends ++ app [ApiClose; ApiOpen 0] ++ go 3 26 calm ++ go 3 10 (answers [open_packet]).

(** ** Witnesses *)

Lemma client_references_valid_witness :
  ∃ l, links (after (new_socket []) commits).1 !! 1%nat = Some l ∧
    links (after (new_socket []) commits).1 !!! 1%nat = l.
Proof.
  apply (client_references_valid (new_socket []) (after (new_socket []) commits).1
           (after (new_socket []) commits).2 1);
    [apply client_after_reachable; vm_compute; reflexivity|].
  right. exists (TSend (ForUpgrade 1 (Some 0%nat)) 1 [packet_of PacketUpgrade]).
  split; [vm_compute; right; right; left|left].
Defined.

Abbreviation polling_only := (new_socket [WithUpgrade false]).

Lemma client_one_flush_witness :
  let w := (after polling_only sends).1 in
  s_flushing (sock w) = true ∧
  length (gather flush_token (concat (after polling_only sends).2)) = 1%nat.
Proof.
  destruct (client_one_flush polling_only (after polling_only sends).1 (after polling_only sends).2)
    as [H1 H2]; [apply client_after_reachable; vm_compute; reflexivity|].
  rewrite H1. vm_compute. by split.
Defined.


Lemma client_never_panics_witness :
  orderly_exec calm (CFlushEnd BySend 2 None) (orderly_after polling_only sends).1 ≠ Panicked.
Proof.
  apply (client_never_panics polling_only (orderly_after polling_only sends).1
           (orderly_after polling_only sends).2 2 _ []);
    [apply client_after_orderly; vm_compute; reflexivity|vm_compute; reflexivity].
Defined.


Lemma upgrade_excludes_flush_witness :
  let w := (orderly_after (new_socket []) commits).1 in
  s_upgrading (sock w) = true ∧ s_flushing (sock w) = false.
Proof.
  destruct (upgrade_excludes_flush (new_socket []) (orderly_after (new_socket []) commits).1
              (orderly_after (new_socket []) commits).2
              (TSend (ForUpgrade 1 (Some 0%nat)) 1 [packet_of PacketUpgrade])) as (H1 & H2 & _);
    [apply client_after_orderly; vm_compute; reflexivity
    |vm_compute; right; right; left|reflexivity|vm_compute; reflexivity|].
  exact (conj H1 H2).
Defined.

Lemma client_watchdog_witness :
  let w := (orderly_after polling_only connects).1 in
  let ts := (orderly_after polling_only connects).2 in
  (∃ id, s_pingTimeoutTimer (sock w) = Some id ∧
     s_timers (sock w) !! id =
       Some (wrap64 (s_pingInterval (sock w) + s_pingTimeout (sock w)))) ∨
  CReschedule ∈ concat ts ∨ (∃ reason cause, CSocketClose reason cause ∈ concat ts).
Proof.
  apply (client_watchdog polling_only);
    [apply client_after_orderly; vm_compute; reflexivity|vm_compute; reflexivity..].
Defined.

Lemma client_send_drains_witness :
  let w := (after polling_only connects).1 in
  ∃ w', alone (w, [[CSend BySend [msg "hi"]]]) (w', [[]]) ∧
    log w' = log w ++
      concat (carries 0 (links w !!! 0%nat) <$> chunkPackets [msg "hi"] 1000000) ++
      [EvSendReturns None].
Proof.
  destruct (client_send_drains [msg "hi"] (after polling_only connects).1 0)
    as (w' & H1 & _ & _ & _ & H2);
    [vm_compute; reflexivity..|by vm_compute|vm_compute; discriminate|].
  exact (ex_intro _ w' (conj H1 H2)).
Defined.

Lemma download_end_to_end_witness :
  let w := (after polling_only (connects ++ app [ApiOn OnMessage (Some 5%nat)] ++ go 2 1 calm)).1 in
  let ps := [msg "hello"; msg "world"] in
  let o := polled (drop 1) (writePollResponse (cons x1f) defaultServerConfig poll_get
                              (EncodePayload ps) response0) in
  ∃ w', alone_with o (w, [[TRequest 0]]) (w', [[]; [TPoll 0]]) ∧
    log w' = log w ++ [EvPoll 0 (t_url (links w !!! 0%nat))] ++
             [EvMessage 5 (str "hello") false; EvMessage 5 (str "world") false].
Proof.
  intros w ps o.
  destruct (download_end_to_end (cons x1f) (drop 1) defaultServerConfig poll_get ps w 0)
    as (w' & H1 & _ & _ & H2);
    [done|done|repeat constructor..|vm_compute; repeat split|].
  exact (ex_intro _ w' (conj H1 H2)).
Defined.

Lemma client_configured_witness :
  let w := (after polling_only connects).1 in
  bool_decide (is_Some (links w !! 0%nat)) = true ∧ s_upgrading (sock w) = false ∧
  ∀ t l, links w !! t = Some l →
    kind_type (t_kind l) ∈ [TransportTypePolling; TransportTypeWebSocket].
Proof.
  destruct (client_configured polling_only (after polling_only connects).1
              (after polling_only connects).2) as [H Hu].
  - apply client_after_reachable. vm_compute. reflexivity.
  - apply (registry_ok target [WithUpgrade false]); reflexivity.
  - split; [vm_compute; reflexivity|]. split; [exact (proj1 (Hu eq_refl))|exact H].
Defined.



Lemma fallback_configured_witness :
  let s := new_socket [WithTryAllTransports true] in
  s_transports (sock (after s falls_back).1) = [TransportTypeWebSocket] ∧
  s_transports (sock (after s falls_back).1) `suffix_of` cfg_transports (s_config s).
Proof.
  intros s. split; [vm_compute; reflexivity|].
  destruct (fallback_configured s (after s falls_back).1 (after s falls_back).2) as [H _];
    [apply client_after_reachable; vm_compute; reflexivity|].
  exact H.
Defined.

(** ** Behaviours the sources do not mean

    The two about a flush that outlives its connection, and the one about a socket that
    opens after it was closed, are what orderly runs exclude. *)

(** A flush that outlives its connection panics: [Send] was still waiting for the answer to
    its POST when the application closed the socket and opened it again; the flush then
    slices the new connection's buffer, which is empty, by what it wrote over the old
    one. *)
Theorem stale_flush_panics :
  let cfg := after polling_only reopens in
  reachable polling_only (cfg.1, cfg.2) ∧ s_state (sock cfg.1) = SocketStateOpen ∧
  cfg.2 !! 2%nat = Some [CFlushEnd BySend 2 None] ∧
  exec calm (CFlushEnd BySend 2 None) cfg.1 = Panicked.
Proof.
  split; [apply client_after_reachable; vm_compute; reflexivity|].
  split; [vm_compute; reflexivity|]. split; vm_compute; reflexivity.
Qed.

(** What was posted, in order. *)
Definition posted (l : list event) : list bytes :=
  omap (λ e, match e with EvPost _ _ body => Some body | _ => None end) l.

(** What the application's [Send] calls returned, in order. *)
Definition sent_results (l : list event) : list (option error) :=
  omap (λ e, match e with EvSendReturns err => Some err | _ => None end) l.

(** With two packets in the new buffer it removes those instead, which are never sent. *)
Definition drops : list act :=
  reopens ++ app [ApiSend [msg "c"; msg "d"]] ++ go 4 3 calm ++ go 2 2 calm ++ go 3 9 calm ++
  go 1 1 calm.

Theorem stale_flush_drops :
  let cfg := after polling_only drops in
  reachable polling_only (cfg.1, cfg.2) ∧ s_state (sock cfg.1) = SocketStateOpen ∧
  concat cfg.2 = [TPoll 1] ∧ s_queued (sock cfg.1) = [msg "c"; msg "d"] ∧
  s_writeBuffer (sock cfg.1) = [] ∧
  posted (log cfg.1) =
    [EncodePayload [msg "a"; msg "b"]; EncodePayload [packet_of PacketClose]].
Proof.
  split; [apply client_after_reachable; vm_compute; reflexivity|].
  repeat (split; [vm_compute; reflexivity|]). vm_compute. reflexivity.
Qed.

(** A [Close] that comes before the transport is installed is undone: it has returned, and
    the connection opens all the same. *)
Definition closes_while_opening : list act :=
  app [ApiOpen 0] ++ go 0 2 calm ++ app [ApiClose] ++ go 1 2 calm ++ go 0 7 calm ++
  go 0 18 (answers [open_packet]).

Theorem close_lost_while_opening :
  let cfg := after polling_only closes_while_opening in
  reachable polling_only (cfg.1, cfg.2) ∧ cfg.2 = [[]; []; [TPoll 0]] ∧
  s_state (sock cfg.1) = SocketStateOpen.
Proof.
  split; [apply client_after_reachable; vm_compute; reflexivity|].
  split; vm_compute; reflexivity.
Qed.

(** [Close] drops what a running flush has not taken: "a" is being posted when the
    application sends "b" and closes; the flush of [Close] does nothing because one is
    running, and that one stops because the socket is closing. *)
Definition closes_while_flushing : list act :=
  connects ++ app [ApiSend [msg "a"]] ++ go 2 4 calm ++
  app [ApiSend [msg "b"]; ApiClose] ++ go 3 21 calm ++ go 2 4 calm ++ go 1 1 calm.

Theorem close_drops_sent_packets :
  let cfg := after polling_only closes_while_flushing in
  reachable polling_only (cfg.1, cfg.2) ∧ concat cfg.2 = [] ∧
  s_state (sock cfg.1) = SocketStateClosed ∧
  sent_results (log cfg.1) = [None; None] ∧
  posted (log cfg.1) = [EncodePayload [packet_of PacketClose]; EncodePayload [msg "a"]].
Proof.
  split; [apply client_after_reachable; vm_compute; reflexivity|].
  repeat (split; [vm_compute; reflexivity|]). vm_compute. reflexivity.
Qed.

(** [Close] while an upgrade commits.  The upgrade has detached the old transport's
    handlers, so closing that transport tells the socket nothing, and the probe is discarded
    because the socket is not open: every goroutine ends with the socket closing and the
    close handler not called.  It is called, for another reason, when the heartbeat timer
    fires. *)
Definition closes_while_upgrading : list act :=
  commits ++ app [ApiClose] ++ go 4 9 calm ++ go 3 20 calm ++ go 2 1 calm ++ go 1 3 calm.
Definition times_out : list act := closes_while_upgrading ++ [Ext (Fires 1)] ++ go 5 8 calm.

(** The calls of the close handler. *)
Definition close_calls (l : list event) : list (nat * bytes) :=
  omap (λ e, match e with EvClose h reason _ => Some (h, reason) | _ => None end) l.

Theorem close_stuck_while_upgrading :
  let cfg := after (new_socket []) closes_while_upgrading in
  reachable (new_socket []) (cfg.1, cfg.2) ∧ concat cfg.2 = [] ∧
  s_state (sock cfg.1) = SocketStateClosing ∧ close_calls (log cfg.1) = [] ∧
  let cfg' := after (new_socket []) times_out in
  reachable (new_socket []) (cfg'.1, cfg'.2) ∧
  close_calls (log cfg'.1) = [(7%nat, str "ping timeout")].
Proof.
  split; [apply client_after_reachable; vm_compute; reflexivity|].
  do 3 (split; [vm_compute; reflexivity|]).
  split; [apply client_after_reachable; vm_compute; reflexivity|]. vm_compute. reflexivity.
Qed.

(** A transport that is not open drops what it is given and reports no error; the socket
    takes it as written.  The server has closed the transport, the socket has not heard of
    it yet: [Send] returns nil, the buffer is empty, and nothing was posted. *)
Definition sends_to_closed_transport : list act :=
  connects ++ go 1 5 (answers [packet_of PacketClose]) ++ app [ApiSend [msg "a"]] ++ go 2 7 calm.

Theorem send_dropped_silently :
  let cfg := after polling_only sends_to_closed_transport in
  reachable polling_only (cfg.1, cfg.2) ∧ s_state (sock cfg.1) = SocketStateOpen ∧
  s_writeBuffer (sock cfg.1) = [] ∧ sent_results (log cfg.1) = [None] ∧ posted (log cfg.1) = [].
Proof.
  split; [apply client_after_reachable; vm_compute; reflexivity|].
  repeat (split; [vm_compute; reflexivity|]). vm_compute. reflexivity.
Qed.
